(* ===== verification/_CoqProject ===== *)
-Q . S2P
Prelude.v
AwsCommon.v
Counting.v
BufferPool.v
BufferPoolInv.v
BufferPoolOps.v
BufferPoolSpec.v
BufferPoolProps.v
PartMath.v
ByteCursor.v
HttpHeaders.v
HttpMessage.v
Checksums.v
ChecksumContext.v
Listing.v
BodyStream.v
PriorityQueue.v
Tracking.v
Delivery.v
DeliveryInv.v
DeliveryOrder.v
DeliveryEvent.v
DeliveryProps.v
AutoRangedPut.v
PutSystem.v
PutInv.v
PutData.v
PutUpload.v
PutFinal.v
PutPrepare.v
PutSteps.v
PutProps.v
AutoRangedGet.v
GetSpread.v
GetDownload.v
GetDownloadInv.v
GetProps.v
FileDelivery.v
ClientConfig.v
Client.v
ClientInv.v
ClientSteps.v
ClientWork.v
ClientLimits.v
ClientLive.v
ClientProps.v
PrepareQueue.v
Endpoints.v
Shutdown.v
MetaInit.v
Factory.v
UploadTimeout.v
ResumeToken.v
Finish.v
Response.v
Sending.v
