(* ===== verification/Prelude.v ===== *)
(** A verification of the S3 client of aws-c-s3.

    The program is a C library.  A _meta request_ (a whole upload, download, copy or other
    operation) is cut into _requests_ for parts.  The client (source/s3_client.c) asks the meta
    requests in turn for their next request ([update]), has it prepared (a buffer is reserved in
    the buffer pool, the body is read, the message is built), sends it, and reports the answer
    back ([request_finished]).  A download hands the bodies it receives to the caller in order or
    writes them to a file as they come, from the event loop of the meta request
    (source/s3_meta_request.c).  All of these run on different threads under the locks of the
    client and of the meta request.

    What is modelled is shallow: a C function is a function of the same name, a structure is a
    record, an enumeration an inductive type, and state is passed explicitly.  A critical section
    is one operation.  Where threads interleave there is a step relation whose steps are these
    operations, and the theorems hold in every state that any order of steps reaches.  Unsigned
    integers are [Z] with the wrap-around of their width written out ([+[32]], [-[64]]).  A
    function that may raise an error returns [result]; one that may fail an assertion or run out
    of memory returns [res], whose [FatalAssert] also stands for a dereferenced null pointer.

    Code of other libraries (aws-c-common, aws-c-http, aws-c-io, aws-c-cal, aws-checksums) is not
    part of the repository.  Each interface the client uses is a class of operations with a
    second class of laws, which state its documented behaviour; theorems assume the laws, and an
    instance next to each class shows that they can be met and lets the witnesses compute.

    ** The files

    Shared:
    - Prelude: machine integers, [res] and [result], record update, sums, tactics and hints;
    - AwsCommon, ByteCursor, PriorityQueue: aws-c-common (checked arithmetic, allocator, errors,
      byte cursors, the min-queue);
    - HttpMessage: header containers and the copying of headers (s3_util.c,
      s3_request_messages.c).

    The buffer pool (s3_default_buffer_pool.c): BufferPool has the state and every operation,
    with the heap explicit; BufferPoolInv and BufferPoolOps the invariant and its preservation;
    BufferPoolSpec the abstract view of a pool and what holds of every run; BufferPoolProps the
    theorems.  They show that live tickets own disjoint memory, that the usage counters are
    exact, that the limit is respected, that reservations that wait are served in order and are
    not forgotten, that nothing leaks, and that no assertion fails as long as the users of the
    pool keep to its rules (sizes other than zero, forced reservations below 2^63 bytes, a forced
    ticket released only after it was claimed).

    Arithmetic and headers: PartMath (s3_util.c: parts of downloads and uploads, range sizes),
    HttpHeaders (s3_util.c, s3_request_messages.c, s3_auto_ranged_get.c: range headers, content
    ranges, lengths, ETags).  Parts tile the range exactly, and what is printed is read back.

    Checksums: Checksums (s3_checksums.c, s3_meta_request.c: algorithms, running sums, combining
    the checksums of parts, validation), ChecksumContext (s3_checksum_context.c: configuration
    and the checksum of an uploaded part).  The combined checksum of a download is the checksum
    of the whole object, and every attempt of a part sends the checksum of the first.

    Listings: Listing (s3_paginator.c, s3_list_parts.c, s3_list_objects.c, XML values of
    s3_util.c).  The bodies of pages arrive in pieces; every failure of a page is a case of its
    own.  Paging terminates and sees every element once, in order.

    Downloads: Tracking (which parts were delivered), Delivery (the streaming queue, the event
    delivery task, its flow-control window, sinks and write workers of s3_meta_request.c),
    DeliveryInv, DeliveryOrder, DeliveryEvent and DeliveryProps (the transition system, its
    invariant and the theorems), AutoRangedGet (s3_auto_ranged_get.c), GetSpread (the order of
    part numbers), GetDownload, GetDownloadInv and GetProps (a download as a whole, with a server
    that has an object).  With ordered delivery, a download of an object that is not empty and
    that succeeds has delivered exactly the requested bytes of the object, in order, each part
    requested once; a download that fails winds down.  FileDelivery has delivery out of order to
    a file, which is the default for files: whatever the order of writes, the file gets the bytes
    of the object at their places, and success is reported only when it has all of them.

    Uploads: BodyStream (s3_meta_request.c, s3_parallel_input_stream.c: reading the body of a
    part and the writes of a caller who pushes data), AutoRangedPut (s3_auto_ranged_put.c),
    PutSystem (an upload as a whole with a server that stores parts), PutInv (flags and
    counters), PutData (cutting the content into parts), PutUpload, PutFinal, PutPrepare and
    PutSteps (the invariant of the data and its preservation) and PutProps (the theorems).  The
    object that an upload makes is its content; each request is made once; a finished upload
    leaves nothing on the server that it should not; no assertion fails; an upload does not stall.
    The server tells the truth about what it stores.  A resumed upload finds any parts there, and
    keeps those whose size and checksum, as far as they are listed, are those of the content.
    Whether AWS_ASSERT is checked, as in a debug build, is a setting of an upload.

    The client (s3_client.c): ClientConfig has its construction, with doubles as in IEEE 754:
    limits and sizes from the configuration, the environment and the throughput, and the error
    path.  A client that was made has settings within their bounds, and what a failed
    construction leaves behind is known exactly.  Client has the worker task, which asks meta
    requests for requests, queues those that are prepared and gives them connections, and the
    callbacks of preparations, retry tokens, connections and retries; the transition system cuts
    a lap of the worker where other threads come between; giving up a connection that failed is
    three critical sections.  ClientInv, ClientSteps, ClientWork,
    ClientLimits and ClientLive have its invariants and their preservation, ClientProps the
    theorems: the counters are exact, the limits hold, each request is finished once and nothing
    that it holds is lost, and work is never forgotten.  Their assumptions on the settings
    ([settings_ok]) are what the construction guarantees.
    PrepareQueue has the reservation of buffers before a request is prepared and the queue that
    keeps parts of a stream in order: they are prepared in the order of their numbers, and no
    request is lost.  Endpoints has the making of meta requests, the table of endpoints, the
    references, the task that trims the pool, the writes to files that are pending, and the tasks
    that end a client, Shutdown its runs: references are counted exactly,
    the client is freed when nothing is left that uses it, and it is freed in time.  Counting has
    the lemmas on counts that these files share.
    MetaInit has the construction of a meta request and its end: what a construction that fails had
    acquired is released, and a file that has to be kept is not touched.  Factory has the choice of
    the meta request for a call and the sizes of parts, and shows that every upload it chooses meets
    the assumptions of the theorems on uploads.  UploadTimeout has the statistics that set the
    timeout of uploads.
    ResumeToken has the tokens from which a transfer is resumed: that of a download counts exactly the
    bytes that the caller got.  Finish has the end of a meta request: the result and who sets it first,
    cancelling, pausing and the actions of the end in their order; the caller is told once.
    Response has what the callbacks of an HTTP stream do with a response: exactly which responses are
    accepted, which are tried again, and that an attempt leaves nothing to the next one.  Sending has
    the chain of callbacks that prepares and signs a request, which is answered once, and the list of
    streams that can be cancelled.

    ** Fuel and bounds

    The loop that reads from a stream until a buffer is full has no bound in C; [read_to_fill]
    takes the number of reads as fuel and is [None] when it does not suffice, and the steps of an
    upload hold for every fuel.  Listing is bounded by the number of pages.  All other functions
    are structural or total.  An upload asks for fewer than 2^32 - 2 parts (S3 allows 10,000).
    A client holds fewer than 2^30 requests at once (its own limits are 40,000, CreateSession
    apart), fewer than 2^32 - 1 endpoints, and prepares parts with smaller numbers than that, so that
    its 32-bit counters do not wrap.  The loops over the queue of prepared parts run as often as the
    queue has entries.  A resumed upload has at most 2^32 - 1 times 5 MB, so that the number of its parts is
    not cut to 32 bits.  A client has at least ten ideal connections, the least that its construction
    gives it.

    ** Not modelled

    - Copy of objects (s3_copy_object.c): A state machine of the same kind as the multipart
      upload; not modelled yet.
    - Default meta request (s3_default_meta_request.c): A meta request of one request; not
      modelled yet.
    - Request messages (s3_request_messages.c): The headers and ranges that messages carry are
      modelled where the other components use them (HttpHeaders.v, HttpMessage.v, the list of parts
      of the completing request in AutoRangedPut.v); building the messages as a whole is not.
    - Requests and their metrics (s3_request.c): Reference counts and getters of timing metrics;
      the creation of a request is modelled with the meta requests.
    - S3 Express credentials provider (s3express_credentials_provider.c): Not modelled yet.
    - Checksum stream, chunk stream and part streaming stream (s3_checksum_stream.c,
      s3_chunk_stream.c, s3_part_streaming_input_stream.c): Not modelled yet; that a part streaming
      stream delivers the bytes of its range is an assumption of the upload model.
    - Platform information (s3_platform_info.c): A table of instance types, and queries to the
      metadata service of the instance.
    - Library initialisation and error names (s3.c): Registration of error and log names with aws-
      c-common.
    - Buffer pool interface (s3_buffer_pool.c): Calls through the table of functions of a pool;
      the default pool behind it is modelled.
    - Endpoint rules (s3_endpoint_resolver): Generated JSON documents, interpreted by aws-c-
      sdkutils.
    - In the modelled parts: logging, time stamps and metrics, the allocation and release of
      memory outside of the buffer pool, and most reference counts; the samples and tests.  *)

From Stdlib Require Export ZArith Lia.
From stdpp Require Export base option list gmap fin_maps numbers.

#[global] Open Scope Z_scope.

(** * Machine integers *)

(** A [w]-bit unsigned integer is a [Z] in [[0, 2^w)]; [wrap] is the C
    conversion to that type. *)
Definition wrap (w x : Z) : Z := x mod 2 ^ w.

Definition uint (w x : Z) : Prop := 0 ≤ x < 2 ^ w.

Declare Scope machine_scope.
Delimit Scope machine_scope with M.
Notation "x +[ w ] y" := (wrap w (x + y)) (at level 50, left associativity) : machine_scope.
Notation "x -[ w ] y" := (wrap w (x - y)) (at level 50, left associativity) : machine_scope.
Notation "x *[ w ] y" := (wrap w (x * y)) (at level 40, left associativity) : machine_scope.
#[global] Open Scope machine_scope.

Definition U16_MAX : Z := 65535.
Definition U32_MAX : Z := 4294967295.
Definition U64_MAX : Z := 18446744073709551615.
Definition SIZE_MAX : Z := U64_MAX.

(** [MB_TO_BYTES] and its companions of s3_util.h. *)
Definition KB_TO_BYTES (n : Z) : Z := n * 1024.
Definition MB_TO_BYTES (n : Z) : Z := n * 1024 * 1024.
Definition GB_TO_BYTES (n : Z) : Z := n * 1024 * 1024 * 1024.
Definition TB_TO_BYTES (n : Z) : Z := n * 1024 * 1024 * 1024 * 1024.

Lemma wrap_small w x : uint w x → wrap w x = x.
Proof. unfold uint, wrap. intros. by apply Z.mod_small. Qed.

Lemma wrap_uint w x : 0 ≤ w → uint w (wrap w x).
Proof. intros. unfold uint, wrap. apply Z.mod_pos_bound. lia. Qed.

Lemma wrap_add_l w x y : wrap w (wrap w x + y) = wrap w (x + y).
Proof. unfold wrap. apply Zplus_mod_idemp_l. Qed.
Lemma wrap_add_r w x y : wrap w (x + wrap w y) = wrap w (x + y).
Proof. unfold wrap. apply Zplus_mod_idemp_r. Qed.
Lemma wrap_sub_l w x y : wrap w (wrap w x - y) = wrap w (x - y).
Proof. unfold wrap. apply Zminus_mod_idemp_l. Qed.
Lemma wrap_sub_r w x y : wrap w (x - wrap w y) = wrap w (x - y).
Proof. unfold wrap. apply Zminus_mod_idemp_r. Qed.
Lemma wrap_wrap w x : wrap w (wrap w x) = wrap w x.
Proof. unfold wrap. apply Zmod_mod. Qed.
Lemma wrap_0 w : wrap w 0 = 0.
Proof. unfold wrap. apply Zmod_0_l. Qed.

Create HintDb machine.
#[export] Hint Resolve wrap_uint : machine.
Create Rewrite HintDb wrapping.
#[export] Hint Rewrite wrap_add_l wrap_add_r wrap_sub_l wrap_sub_r wrap_wrap wrap_0 : wrapping.

(** Solve a side condition on machine integers by unfolding the ranges. *)
Ltac machine :=
  unfold uint, U16_MAX, U32_MAX, SIZE_MAX, U64_MAX, KB_TO_BYTES, MB_TO_BYTES, GB_TO_BYTES, TB_TO_BYTES in *;
  try lia.

(** * Outcomes *)

(** The result of running C code that may stop the process: it returns, the
    allocator has no memory left, or an [AWS_FATAL_ASSERT] does not hold. *)
Inductive res (A : Type) : Type :=
| Ok (a : A)
| OutOfMemory
| FatalAssert.
Arguments Ok {A} a.
Arguments OutOfMemory {A}.
Arguments FatalAssert {A}.

#[export] Instance res_ret : MRet res := λ A a, Ok a.
#[export] Instance res_bind : MBind res := λ A B f m,
  match m with
  | Ok a => f a
  | OutOfMemory => OutOfMemory
  | FatalAssert => FatalAssert
  end.

Definition assert_fatal (b : bool) : res unit := if b then Ok tt else FatalAssert.

(** [AWS_OP_SUCCESS] with its outputs, or [AWS_OP_ERR] with the error raised. *)
Inductive result (E A : Type) : Type :=
| Success (a : A)
| Failure (e : E).
Arguments Success {E A} a.
Arguments Failure {E A} e.

#[export] Instance result_ret {E} : MRet (result E) := λ A a, Success a.
#[export] Instance result_bind {E} : MBind (result E) := λ A B f m,
  match m with
  | Success a => f a
  | Failure e => Failure e
  end.

Lemma Ok_inj {A} (a b : A) : Ok a = Ok b → a = b.
Proof. by intros [= ->]. Qed.

(** Invert the [Ok] equations produced by [res] binds, one bind at a time. *)
Lemma res_bind_Ok {A B} (m : res A) (f : A → res B) b :
  (m ≫= f) = Ok b ↔ ∃ a, m = Ok a ∧ f a = Ok b.
Proof. destruct m; cbn; naive_solver. Qed.

Lemma res_bind_not_assert {A B} (m : res A) (f : A → res B) :
  m ≠ FatalAssert → (∀ a, m = Ok a → f a ≠ FatalAssert) → (m ≫= f) ≠ FatalAssert.
Proof. destruct m; cbn; naive_solver. Qed.

(** [res_post Q m]: [m] stops at no assertion, and a result it returns satisfies [Q]. *)
Definition res_post {A} (Q : A → Prop) (m : res A) : Prop :=
  match m with Ok a => Q a | OutOfMemory => True | FatalAssert => False end.

Lemma res_post_bind {A B} (m : res A) (f : A → res B) (P : A → Prop) (Q : B → Prop) :
  res_post P m → (∀ a, P a → res_post Q (f a)) → res_post Q (m ≫= f).
Proof. destruct m; cbn; auto. Qed.

Lemma res_post_mono {A} (m : res A) (P Q : A → Prop) :
  res_post P m → (∀ a, P a → Q a) → res_post Q m.
Proof. destruct m; cbn; auto. Qed.

Lemma res_post_Ok {A} (m : res A) (P : A → Prop) a : res_post P m → m = Ok a → P a.
Proof. by intros Hm ->. Qed.

(** [res_ok Q m]: [m] returns, and its result satisfies [Q]. *)
Definition res_ok {A} (Q : A → Prop) (m : res A) : Prop :=
  match m with Ok a => Q a | OutOfMemory | FatalAssert => False end.

Lemma res_ok_bind {A B} (m : res A) (f : A → res B) (P : A → Prop) (Q : B → Prop) :
  res_ok P m → (∀ a, P a → res_ok Q (f a)) → res_ok Q (m ≫= f).
Proof. destruct m; cbn; auto. Qed.

Lemma res_ok_mono {A} (m : res A) (P Q : A → Prop) : res_ok P m → (∀ a, P a → Q a) → res_ok Q m.
Proof. destruct m; cbn; auto. Qed.

Lemma res_post_safe {A} (m : res A) (P : A → Prop) : res_post P m → m ≠ FatalAssert.
Proof. by intros Hm ->. Qed.

(** * Record update *)

(** [eta r] rebuilds [r] from its projections; it is declared once per record,
    and the setter of each field is computed from it. *)
Class Eta (R : Type) := eta : R → R.
Class Setter {R T : Type} (proj : R → T) := fupd : (T → T) → R → R.
Arguments fupd {R T} proj {_} f r /.

Ltac derive_setter :=
  lazymatch goal with
  | |- @Setter ?R ?T ?proj =>
      let inst := constr:(_ : Eta R) in
      let e := eval red in inst in
      refine (fun (f : T → T) (r : R) => ltac:(
        let body := eval cbv beta in (e r) in
        match body with
        | context C [proj r] => let t := context C [f (proj r)] in exact t
        end))
  end.
#[export] Hint Extern 0 (Setter _) => derive_setter : typeclass_instances.

Notation "r <| p ::= f |>" := (fupd p f r)
  (at level 12, left associativity, p at level 10, f at level 99, format "r  <|  p  ::=  f  |>").
Notation "r <| p := v |>" := (fupd p (λ _, v) r)
  (at level 12, left associativity, p at level 10, v at level 99, format "r  <|  p  :=  v  |>").

(** * Sums over lists and finite maps *)

Definition zsum {A} (f : A → Z) (l : list A) : Z := foldr (λ a acc, f a + acc) 0 l.

Section zsum.
Context {A : Type} (f : A → Z).
Implicit Types l : list A.

Lemma zsum_nil : zsum f [] = 0.
Proof. done. Qed.
Lemma zsum_cons a l : zsum f (a :: l) = f a + zsum f l.
Proof. done. Qed.
Lemma zsum_app l k : zsum f (l ++ k) = zsum f l + zsum f k.
Proof. induction l as [|a l IH]; simpl; [done|]. rewrite IH. lia. Qed.
Lemma zsum_nonneg l : (∀ a, a ∈ l → 0 ≤ f a) → 0 ≤ zsum f l.
Proof.
  induction l as [|a l IH]; simpl; intros Hl; [lia|].
  assert (0 ≤ f a) by (apply Hl; left). assert (0 ≤ zsum f l) by (apply IH; intros; apply Hl; by right). lia.
Qed.
Lemma zsum_insert l i a b :
  l !! i = Some a → zsum f (<[i:=b]> l) = zsum f l - f a + f b.
Proof.
  revert i; induction l as [|c l IH]; intros [|i] Hi; simplify_eq/=; [lia|].
  rewrite (IH i) by done. lia.
Qed.
Lemma zsum_perm l k : l ≡ₚ k → zsum f l = zsum f k.
Proof. induction 1; simpl; lia. Qed.
End zsum.

Lemma zsum_map {A} (f : A → Z) (l k : list A) : f <$> l = f <$> k → zsum f l = zsum f k.
Proof.
  revert k. induction l as [|a l IH]; intros [|b k] Hl; simplify_eq/=; [done|]. by f_equal; [|apply IH].
Qed.

Lemma zsum_ext {A} (f g : A → Z) (l : list A) : (∀ a, a ∈ l → f a = g a) → zsum f l = zsum g l.
Proof.
  induction l as [|a l IH]; simpl; intros H; [done|].
  rewrite (H a), IH; [done| |left]. intros b Hb. apply H. by right.
Qed.

Definition msum {K} `{Countable K} {A} (f : A → Z) (m : gmap K A) : Z :=
  map_fold (λ _ a acc, f a + acc) 0 m.

Section msum.
Context {K : Type} `{Countable K} {A : Type} (f : A → Z).
Implicit Types m : gmap K A.

Lemma msum_empty : msum f (∅ : gmap K A) = 0.
Proof. done. Qed.
Lemma msum_insert m i a : m !! i = None → msum f (<[i:=a]> m) = f a + msum f m.
Proof. intros Hi. unfold msum. rewrite map_fold_insert_L; [done| |done]. intros. lia. Qed.
Lemma msum_delete m i a : m !! i = Some a → msum f (delete i m) = msum f m - f a.
Proof.
  intros Hi. unfold msum. rewrite (map_fold_delete_L _ _ i a m); [lia| |done]. intros. lia.
Qed.
Lemma msum_update m i a b : m !! i = Some a → msum f (<[i:=b]> m) = msum f m - f a + f b.
Proof.
  intros Hi. rewrite <-insert_delete_eq, msum_insert by apply lookup_delete_eq.
  rewrite (msum_delete _ _ a) by done. lia.
Qed.
Lemma msum_nonneg m : (∀ i a, m !! i = Some a → 0 ≤ f a) → 0 ≤ msum f m.
Proof.
  induction m as [|i a m Hi IH] using map_ind; intros Hm; [rewrite msum_empty; lia|].
  rewrite msum_insert by done.
  assert (0 ≤ f a) by (eapply Hm, lookup_insert_eq).
  enough (0 ≤ msum f m) by lia. apply IH. intros j b Hj. eapply (Hm j).
  rewrite lookup_insert_ne; [done|congruence].
Qed.
End msum.

Lemma msum_ext {K} `{Countable K} {A} (f g : A → Z) (m : gmap K A) :
  (∀ i a, m !! i = Some a → f a = g a) → msum f m = msum g m.
Proof.
  induction m as [|i a m Hi IH] using map_ind; intros Hm; [done|].
  rewrite !msum_insert, (Hm i a) by (done || apply lookup_insert_eq). f_equal.
  apply IH. intros j b Hj. apply (Hm j). rewrite lookup_insert_ne; [done|congruence].
Qed.

Lemma msum_add {K} `{Countable K} {A} (f g h : A → Z) (m : gmap K A) :
  (∀ i a, m !! i = Some a → f a + g a = h a) → msum f m + msum g m = msum h m.
Proof.
  induction m as [|i a m Hi IH] using map_ind; intros Hm; [done|].
  rewrite !msum_insert by done.
  rewrite <-(Hm i a) by apply lookup_insert_eq. rewrite <-IH; [lia|].
  intros j b Hj. apply (Hm j). rewrite lookup_insert_ne; [done|congruence].
Qed.

Lemma msum_plus {K} `{Countable K} {A} (f g : A → Z) (m : gmap K A) :
  msum f m + msum g m = msum (λ a, f a + g a) m.
Proof. by apply msum_add. Qed.

Lemma msum_le {K} `{Countable K} {A} (f g : A → Z) (m : gmap K A) :
  (∀ i a, m !! i = Some a → f a ≤ g a) → msum f m ≤ msum g m.
Proof.
  induction m as [|i a m Hi IH] using map_ind; intros Hm; [done|].
  rewrite !msum_insert by done.
  pose proof (Hm i a (lookup_insert_eq _ _ _)). enough (msum f m ≤ msum g m) by lia.
  apply IH. intros j b Hj. apply (Hm j). rewrite lookup_insert_ne; [done|congruence].
Qed.

(** * Double-precision arithmetic on non-negative numbers *)

(** A non-negative finite double is [m * 2^e] with [m] a 53-bit integer.  The
    numbers the client computes with are far from the overflow and subnormal
    thresholds, so the exponent is unbounded. *)
Record double := mkDouble { mantissa : Z; exponent : Z }.

(** [m / 2^k] rounded to the nearest integer, ties to even. *)
Definition round_nearest_even (m k : Z) : Z :=
  let q := m / 2 ^ k in
  let r := m mod 2 ^ k in
  match Z.compare (2 * r) (2 ^ k) with
  | Lt => q
  | Gt => q + 1
  | Eq => if Z.even q then q else q + 1
  end.

Definition double_round (m e : Z) : double :=
  let k := Z.max 0 (Z.log2 m - 52) in
  mkDouble (round_nearest_even m k) (e + k).

(** Conversion from an unsigned integer type. *)
Definition double_of_uint (x : Z) : double := double_round x 0.

Definition double_mul (a b : double) : double :=
  double_round (mantissa a * mantissa b) (exponent a + exponent b).

(** Quotient of two integers below [2^53]: 64 fraction bits and a sticky bit are
    more than rounding to 53 bits can see. *)
Definition double_div_uint (n d : Z) : double :=
  let q := (n * 2 ^ 64) / d in
  let sticky := if bool_decide ((n * 2 ^ 64) mod d = 0) then 0 else 1 in
  double_round (2 * q + sticky) (-65).

(** Conversion to an unsigned integer type: the fraction is dropped. *)
Definition double_trunc (a : double) : Z :=
  if bool_decide (0 ≤ exponent a) then mantissa a * 2 ^ exponent a
  else mantissa a / 2 ^ (- exponent a).

Lemma round_nearest_even_nonneg m k : 0 ≤ m → 0 ≤ k → 0 ≤ round_nearest_even m k.
Proof.
  intros. unfold round_nearest_even. assert (0 < 2 ^ k) by lia.
  assert (0 ≤ m / 2 ^ k) by (apply Z.div_pos; lia).
  destruct (Z.compare _ _); [destruct (Z.even _)|..]; lia.
Qed.

Lemma double_trunc_nonneg a : 0 ≤ mantissa a → 0 ≤ double_trunc a.
Proof.
  intros. unfold double_trunc. case_bool_decide.
  - assert (0 < 2 ^ exponent a) by lia. nia.
  - apply Z.div_pos; lia.
Qed.
