(* ===== verification/AwsCommon.v ===== *)
(** What the client relies on from aws-c-common, which is not part of the
    repository: the checked and saturating arithmetic of [aws/common/math.h] and
    the allocator of [aws/common/allocator.h].  Each library interface is a class of
    operations with a second class of laws stating their documented behaviour; the
    components are proved against the laws, and the instances at the end of the
    file show that the laws can be met. *)

From S2P Require Import Prelude.

(** * Error codes *)

(** The error codes the modelled code raises or tests. *)
Inductive aws_error :=
| AWS_ERROR_SHORT_BUFFER
| AWS_ERROR_INVALID_STATE
| AWS_ERROR_INVALID_ARGUMENT
| AWS_ERROR_OVERFLOW_DETECTED
| AWS_ERROR_OOM
| AWS_ERROR_UNKNOWN
| AWS_ERROR_S3_INVALID_MEMORY_LIMIT_CONFIG
| AWS_ERROR_S3_PART_SIZE_EXCEEDS_MEMORY_LIMIT
| AWS_ERROR_S3_CANCELED
| AWS_ERROR_S3_PAUSED
| AWS_ERROR_S3_MISSING_CONTENT_RANGE_HEADER
| AWS_ERROR_S3_INVALID_CONTENT_RANGE_HEADER
| AWS_ERROR_S3_MISSING_CONTENT_LENGTH_HEADER
| AWS_ERROR_S3_INVALID_CONTENT_LENGTH_HEADER
| AWS_ERROR_S3_INVALID_RANGE_HEADER
| AWS_ERROR_S3_MISSING_ETAG
| AWS_ERROR_S3_INTERNAL_BUFFER_SIZE_MISMATCH_RETRYING_WITH_RANGE
| AWS_ERROR_S3_INVALID_RESPONSE_STATUS
| AWS_ERROR_S3_RESPONSE_CHECKSUM_MISMATCH
| AWS_ERROR_S3_OBJECT_MODIFIED
| AWS_ERROR_S3_INTERNAL_ERROR
| AWS_ERROR_S3_SLOW_DOWN
| AWS_ERROR_S3_REQUEST_TIME_TOO_SKEWED
| AWS_ERROR_S3_REQUEST_TIMEOUT
| AWS_ERROR_S3_MISSING_UPLOAD_ID
| AWS_ERROR_S3_LIST_PARTS_PARSE_FAILED
| AWS_ERROR_S3_RESUME_FAILED
| AWS_ERROR_S3_RESUMED_PART_CHECKSUM_MISMATCH
| AWS_ERROR_S3_INCORRECT_CONTENT_LENGTH
| AWS_ERROR_S3_REQUEST_HAS_COMPLETED
| AWS_ERROR_UNSUPPORTED_OPERATION
| AWS_ERROR_INVALID_BUFFER_SIZE
| AWS_ERROR_INVALID_XML
| AWS_ERROR_PLATFORM_NOT_SUPPORTED
| AWS_IO_DNS_INVALID_NAME
| AWS_IO_SOCKET_INVALID_OPTIONS
| AWS_ERROR_S3_RECV_FILE_ALREADY_EXISTS
| AWS_ERROR_S3_RECV_FILE_NOT_FOUND
| AWS_ERROR_HTTP_RESPONSE_FIRST_BYTE_TIMEOUT
| AWS_ERROR_S3_NON_RECOVERABLE_ASYNC_ERROR
| AWS_ERROR_S3EXPRESS_CREATE_SESSION_FAILED
| AWS_ERROR_S3_CHECKSUM_CALCULATION_FAILED
| AWS_ERROR_HTTP_HEADER_NOT_FOUND
| AWS_ERROR_S3_METRIC_DATA_NOT_AVAILABLE
| AWS_ERROR_FILE_WRITE_FAILURE.

#[export] Instance aws_error_eq_dec : EqDecision aws_error.
Proof. solve_decision. Defined.

(** * aws/common/math.h *)

(** [size_t] is 64 bits wide, so the [size] variants are the [u64] ones. *)
Class AwsMath := {
  aws_add_u64_checked : Z → Z → option Z;
  aws_sub_u64_checked : Z → Z → option Z;
  aws_add_u64_saturating : Z → Z → Z;
  aws_sub_u64_saturating : Z → Z → Z;
  aws_mul_u64_checked : Z → Z → option Z;
  aws_mul_u64_saturating : Z → Z → Z;
  aws_min_u64 : Z → Z → Z;
  aws_sub_u32_checked : Z → Z → option Z;
  aws_min_u32 : Z → Z → Z;
  aws_max_u32 : Z → Z → Z;
  aws_max_u64 : Z → Z → Z;
}.

Class AwsMathLaws (M : AwsMath) : Prop := {
  aws_add_u64_checked_spec a b : uint 64 a → uint 64 b →
    aws_add_u64_checked a b = if bool_decide (a + b ≤ U64_MAX) then Some (a + b) else None;
  aws_sub_u64_checked_spec a b : uint 64 a → uint 64 b →
    aws_sub_u64_checked a b = if bool_decide (b ≤ a) then Some (a - b) else None;
  aws_add_u64_saturating_spec a b : uint 64 a → uint 64 b →
    aws_add_u64_saturating a b = Z.min (a + b) U64_MAX;
  aws_sub_u64_saturating_spec a b : uint 64 a → uint 64 b →
    aws_sub_u64_saturating a b = Z.max (a - b) 0;
  aws_mul_u64_checked_spec a b : uint 64 a → uint 64 b →
    aws_mul_u64_checked a b = if bool_decide (a * b ≤ U64_MAX) then Some (a * b) else None;
  aws_mul_u64_saturating_spec a b : uint 64 a → uint 64 b →
    aws_mul_u64_saturating a b = Z.min (a * b) U64_MAX;
  aws_min_u64_spec a b : uint 64 a → uint 64 b → aws_min_u64 a b = Z.min a b;
  aws_sub_u32_checked_spec a b : uint 32 a → uint 32 b →
    aws_sub_u32_checked a b = if bool_decide (b ≤ a) then Some (a - b) else None;
  aws_min_u32_spec a b : uint 32 a → uint 32 b → aws_min_u32 a b = Z.min a b;
  aws_max_u32_spec a b : uint 32 a → uint 32 b → aws_max_u32 a b = Z.max a b;
  aws_max_u64_spec a b : uint 64 a → uint 64 b → aws_max_u64 a b = Z.max a b;
}.

(** * aws/common/allocator.h *)

(** The live allocations of the pool's allocator.  A cell records, besides the
    size asked for, what the caller allocated it for: the tag is not read by any
    operation and lets the invariants say who owns which memory. *)
Inductive owner :=
| OwnPrimary
| OwnSpecial (size : Z)
| OwnSecondary (ticket : nat).

#[export] Instance owner_eq_dec : EqDecision owner.
Proof. solve_decision. Defined.

Record cell := mkCell { cell_size : Z; cell_owner : owner }.

Notation heap := (gmap Z cell).

(** The half-open address ranges [[p, p+n)] and [[q, q+m)] share no byte. *)
Definition range_disjoint (p n q m : Z) : Prop := p + n ≤ q ∨ q + m ≤ p.

#[export] Instance range_disjoint_dec p n q m : Decision (range_disjoint p n q m).
Proof. unfold range_disjoint. apply _. Defined.

Class AwsAllocator := {
  (** [None] when the process is out of memory: [aws_mem_acquire] aborts. *)
  aws_mem_acquire : heap → Z → option Z;
}.

Class AwsAllocatorLaws (A : AwsAllocator) : Prop := {
  aws_mem_acquire_fresh h n p : aws_mem_acquire h n = Some p →
    0 < p ∧ p + n ≤ 2 ^ 64 ∧ h !! p = None ∧
    ∀ q c, h !! q = Some c → range_disjoint p n q (cell_size c);
}.

Definition aws_mem_release (h : heap) (p : Z) : heap := delete p h.

Section alloc.
Context `{!AwsAllocator}.

Definition acquire_cell (h : heap) (n : Z) (o : owner) : res (Z * heap) :=
  match aws_mem_acquire h n with
  | Some p => Ok (p, <[p := mkCell n o]> h)
  | None => OutOfMemory
  end.
End alloc.

(** * Instances *)

(** The machine's arithmetic. *)
#[local] Instance aws_math_ref : AwsMath := {|
  aws_add_u64_checked a b := if bool_decide (a + b ≤ U64_MAX) then Some (a + b) else None;
  aws_sub_u64_checked a b := if bool_decide (b ≤ a) then Some (a - b) else None;
  aws_add_u64_saturating a b := Z.min (a + b) U64_MAX;
  aws_sub_u64_saturating a b := Z.max (a - b) 0;
  aws_mul_u64_checked a b := if bool_decide (a * b ≤ U64_MAX) then Some (a * b) else None;
  aws_mul_u64_saturating a b := Z.min (a * b) U64_MAX;
  aws_min_u64 a b := Z.min a b;
  aws_sub_u32_checked a b := if bool_decide (b ≤ a) then Some (a - b) else None;
  aws_min_u32 a b := Z.min a b;
  aws_max_u32 a b := Z.max a b;
  aws_max_u64 a b := Z.max a b;
|}.

#[local] Instance aws_math_ref_laws : AwsMathLaws aws_math_ref.
Proof. by split. Qed.

(** A bump allocator: it returns an address past every live cell, and is out of
    memory when the range does not fit below [2^64]. *)
Definition heap_top (h : heap) : Z :=
  map_fold (λ p c acc, Z.max (p + cell_size c) (Z.max (p + 1) acc)) 4096 h.

Definition bump_acquire (h : heap) (n : Z) : option Z :=
  let p := heap_top h in if bool_decide (p + n ≤ 2 ^ 64) then Some p else None.

Lemma heap_top_spec h : 4096 ≤ heap_top h ∧
  ∀ q c, h !! q = Some c → q + cell_size c ≤ heap_top h ∧ q < heap_top h.
Proof.
  unfold heap_top. induction h as [|i x m Hi IH] using map_ind.
  - rewrite map_fold_empty. split; [lia|]. intros q c. by rewrite lookup_empty.
  - rewrite map_fold_insert_L; [|intros; lia|done]. destruct IH as [IH1 IH2]. split; [lia|].
    intros q c. rewrite lookup_insert. case_decide; intros Hq; simplify_eq; [lia|].
    apply IH2 in Hq. lia.
Qed.

#[local] Instance bump_allocator : AwsAllocator := {| aws_mem_acquire := bump_acquire |}.

#[local] Instance bump_allocator_laws : AwsAllocatorLaws bump_allocator.
Proof.
  split. intros h n p. simpl. unfold bump_acquire. case_bool_decide as Hn; [|done].
  intros [= <-]. destruct (heap_top_spec h) as [Htop Hall]. split_and!; [lia|done| |].
  - apply eq_None_not_Some. intros [c Hc]. apply Hall in Hc. lia.
  - intros q c Hq. apply Hall in Hq. right. lia.
Qed.
