(* ===== verification/Counting.v ===== *)
(** How many elements of a list have a property, as an integer: the sums that counters are compared
    with. *)

From S2P Require Import Prelude.

Definition count {A} (p : A → bool) (l : list A) : Z := zsum (λ a, if p a then 1 else 0) l.
Notation size := (count (λ _, true)).

Section count.
Context {A : Type}.
Implicit Types (p q : A → bool) (l k : list A).

Lemma count_nil p : count p [] = 0.
Proof. done. Qed.
Lemma count_cons p a l : count p (a :: l) = (if p a then 1 else 0) + count p l.
Proof. done. Qed.
Lemma count_app p l k : count p (l ++ k) = count p l + count p k.
Proof. apply zsum_app. Qed.
Lemma count_fmap {B} (f : B → A) p (l : list B) : count p (f <$> l) = count (λ b, p (f b)) l.
Proof. induction l as [|b l IH]; [done|]. rewrite fmap_cons, !count_cons. by rewrite IH. Qed.
Lemma count_bounds p l : 0 ≤ count p l ≤ size l.
Proof. induction l as [|a l IH]; [done|]. rewrite !count_cons. destruct (p a); lia. Qed.
Lemma count_size l : size l = Z.of_nat (length l).
Proof. induction l as [|a l IH]; [done|]. rewrite count_cons, IH, length_cons. lia. Qed.
Lemma count_le p q l : (∀ a, a ∈ l → p a = true → q a = true) → count p l ≤ count q l.
Proof.
  induction l as [|a l IH]; intros H; [done|]. rewrite !count_cons.
  assert (count p l ≤ count q l) by (apply IH; intros b Hb; apply H; by right).
  specialize (H a ltac:(left)). destruct (p a), (q a); lia.
Qed.
Lemma size_nil_inv l : size l = 0 → l = [].
Proof. rewrite count_size. destruct l; [done|]. simpl. lia. Qed.
Lemma size_pos l : l ≠ [] → 0 < size l.
Proof. destruct l; [done|]. rewrite count_size. simpl. lia. Qed.
Lemma count_pos_elem p l : 0 < count p l → ∃ a, a ∈ l ∧ p a = true.
Proof.
  induction l as [|a l IH]; [by rewrite count_nil|]. rewrite count_cons. destruct (p a) eqn:Ha; [by exists a; split; [left|]|].
  intros (b & Hb & Hp)%IH. exists b. by split; [right|].
Qed.
Lemma count_filter p l (Q : A → Prop) `{!∀ a, Decision (Q a)} :
  count p (filter Q l) = count (λ a, p a && bool_decide (Q a)) l.
Proof.
  induction l as [|a l IH]; [done|]. rewrite filter_cons, (count_cons _ a l). case_decide as Ha.
  - rewrite count_cons, IH, (bool_decide_true (Q a)), andb_true_r by done. done.
  - rewrite IH, (bool_decide_false (Q a)), andb_false_r by done. lia.
Qed.
End count.

(** Equal counts of every element make a permutation. *)
Lemma count_perm `{EqDecision A} (l k : list A) :
  (∀ a, count (λ b, bool_decide (a = b)) l = count (λ b, bool_decide (a = b)) k) → l ≡ₚ k.
Proof.
  revert k. induction l as [|a l IH]; intros k H.
  - destruct k as [|b k]; [done|]. specialize (H b). rewrite count_nil, count_cons, bool_decide_true in H by done.
    pose proof (count_bounds (λ c, bool_decide (b = c)) k). lia.
  - assert (∃ b, b ∈ k ∧ bool_decide (a = b) = true) as (b & (k1 & k2 & ->)%list_elem_of_split & <-%bool_decide_eq_true).
    { apply count_pos_elem. rewrite <-H, count_cons, bool_decide_true by done.
      pose proof (count_bounds (λ c, bool_decide (a = c)) l). lia. }
    rewrite (IH (k1 ++ k2)); [by rewrite Permutation_middle|]. intros b. specialize (H b).
    rewrite count_app, !count_cons in H. rewrite count_app. lia.
Qed.

Lemma wrap_eq w x y : x = y → uint w y → wrap w x = y.
Proof. intros ->. apply wrap_small. Qed.

(** The size of a list as the loop over it counts. *)
Lemma count_loop {A} (l : list A) n : 0 ≤ n → n + size l < 2 ^ 32 → foldl (λ n _, n +[32] 1) n l = n + size l.
Proof.
  revert n. induction l as [|a l IH]; intros n Hn Hl; cbn [foldl]; [rewrite count_nil; lia|].
  rewrite count_cons in *. pose proof (count_bounds (λ _, true) l). rewrite (wrap_eq 32 (n + 1) (n + 1)) by (done || machine).
  rewrite IH; lia.
Qed.
