(* ===== verification/BufferPool.v ===== *)
(** The default buffer pool (source/s3_default_buffer_pool.c and
    include/aws/s3/private/s3_default_buffer_pool.h): reservation tickets against a
    memory limit, primary storage cut into 16-chunk blocks, special-sized block
    lists, secondary storage, forced buffers, caller-owned buffers and the FIFO of
    pending reservations. *)

From S2P Require Import Prelude AwsCommon.

(** * Data *)

Definition NULL : Z := 0.

Inductive reserved_from :=
| RESERVED_FROM_SECONDARY
| RESERVED_FROM_PRIMARY
| RESERVED_FROM_SPECIAL.

#[export] Instance reserved_from_eq_dec : EqDecision reserved_from.
Proof. solve_decision. Defined.

(** [struct aws_s3_default_buffer_ticket]; [pool] is the pool of the model. *)
Record ticket := mkTicket {
  ticket_size : Z;
  ticket_ptr : Z;
  ticket_chunks_used : Z;
  ticket_forced : bool;
  ticket_from : reserved_from;
}.
#[export] Instance ticket_eta : Eta ticket :=
  λ t, mkTicket (ticket_size t) (ticket_ptr t) (ticket_chunks_used t) (ticket_forced t) (ticket_from t).

(** [struct s3_buffer_pool_block] *)
Record block := mkBlock { block_size : Z; block_ptr : Z; alloc_bit_mask : Z }.
#[export] Instance block_eta : Eta block :=
  λ b, mkBlock (block_size b) (block_ptr b) (alloc_bit_mask b).

(** [struct s3_special_block_list] *)
Record special_block_list := mkSpecial { buffer_size : Z; special_list_blocks : list block }.
#[export] Instance special_eta : Eta special_block_list :=
  λ l, mkSpecial (buffer_size l) (special_list_blocks l).

(** [struct aws_s3_buffer_pool_reserve_meta]; the meta request is a key. *)
Record reserve_meta := mkMeta {
  meta_request : option Z;
  meta_size : Z;
  can_block : bool;
  local_offset : Z;
}.

(** The caller's [struct aws_byte_buf], as the pool sees it. *)
Record byte_buf := mkBuf { buf_ptr : Z; buf_capacity : Z }.

(** [struct s3_pending_reserve]: the future that waits and what it asks for. *)
Record pending_reserve := mkPending { ticket_future : nat; pending_meta : reserve_meta }.

(** The part of [struct aws_s3_default_buffer_pool] fixed at construction. *)
Record pool_config := mkConfig {
  pool_block_size : Z;
  chunk_size : Z;
  primary_size_cutoff : Z;
  primary_size_min_cutoff : Z;
  mem_limit : Z;
}.

(** The part of [struct aws_s3_default_buffer_pool] guarded by its mutex. *)
Record buffer_pool := mkPool {
  config : pool_config;
  primary_allocated : Z;
  primary_reserved : Z;
  primary_used : Z;
  special_blocks_allocated : Z;
  special_blocks_reserved : Z;
  special_blocks_used : Z;
  secondary_reserved : Z;
  secondary_used : Z;
  forced_used : Z;
  blocks : list block;
  pending_reserves : list pending_reserve;
  special_blocks : gmap Z special_block_list;
  preallocated_buffers : gmap Z byte_buf;
  force_keeping_special_blocks : bool;
}.
#[export] Instance pool_eta : Eta buffer_pool := λ p, mkPool (config p)
  (primary_allocated p) (primary_reserved p) (primary_used p)
  (special_blocks_allocated p) (special_blocks_reserved p) (special_blocks_used p)
  (secondary_reserved p) (secondary_used p) (forced_used p)
  (blocks p) (pending_reserves p) (special_blocks p) (preallocated_buffers p)
  (force_keeping_special_blocks p).

(** * Constants *)

Definition s_buffer_pool_reserved_mem : Z := MB_TO_BYTES 128.
Definition s_chunks_per_block : Z := 16.
Definition s_max_chunk_size_for_buffer_reuse : Z := MB_TO_BYTES 64.
Definition s_max_impact_of_forced_buffers_on_memory_limit_as_percentage : Z := 80.
Definition s_primary_min_cutoff : Z := KB_TO_BYTES 512.

(** * Bit operations on a block's 16-bit mask *)

Definition s_bits_mask (n : Z) : Z := Z.shiftr 255 (8 -[64] n).

Definition s_set_bits (num position n : Z) : Z :=
  wrap 16 (Z.lor num (Z.shiftl (s_bits_mask n) position)).

Definition s_clear_bits (num position n : Z) : Z :=
  wrap 16 (Z.land num (Z.lnot (Z.shiftl (s_bits_mask n) position))).

Definition s_check_bits (num position n : Z) : bool :=
  negb (Z.land (Z.shiftr num position) (s_bits_mask n) =? 0).

(** * Construction *)

(** [struct aws_s3_buffer_pool_config] without the client. *)
Record buffer_pool_config := mkPoolConfig { part_size : Z; max_part_size : Z; memory_limit : Z }.

Definition aws_s3_default_buffer_pool_new (c : buffer_pool_config) : result aws_error buffer_pool :=
  let chunk := part_size c in
  if memory_limit c <? MB_TO_BYTES 256 then Failure AWS_ERROR_S3_INVALID_MEMORY_LIMIT_CONFIG
  else if (0 <? max_part_size c) && (max_part_size c <? chunk) then
    Failure AWS_ERROR_S3_PART_SIZE_EXCEEDS_MEMORY_LIMIT
  else
    let adjusted_mem_lim := memory_limit c -[64] s_buffer_pool_reserved_mem in
    if adjusted_mem_lim <? max_part_size c then Failure AWS_ERROR_S3_INVALID_MEMORY_LIMIT_CONFIG
    else
      let chunk :=
        if (s_max_chunk_size_for_buffer_reuse <? chunk)
           || (adjusted_mem_lim <? chunk *[64] s_chunks_per_block) then 0 else chunk in
      let min_primary_size := if s_primary_min_cutoff <=? 4 *[64] chunk then s_primary_min_cutoff else 0 in
      Success (mkPool
        (mkConfig (s_chunks_per_block *[64] chunk) chunk (chunk *[64] 4) min_primary_size adjusted_mem_lim)
        0 0 0 0 0 0 0 0 0 [] [] ∅ ∅ false).

(** * Trimming *)

(** The loop that frees the unused blocks of one array: the kept blocks, the
    allocation counter and the heap after it. *)
Fixpoint trim_blocks (bs : list block) (allocated : Z) (h : heap) : list block * Z * heap :=
  match bs with
  | [] => ([], allocated, h)
  | b :: bs =>
      if alloc_bit_mask b =? 0 then
        trim_blocks bs (allocated -[64] block_size b) (aws_mem_release h (block_ptr b))
      else
        let '(kept, allocated', h') := trim_blocks bs allocated h in (b :: kept, allocated', h')
  end.

Definition trim_special_entry (st : buffer_pool * heap) (key : Z) : buffer_pool * heap :=
  let '(p, h) := st in
  match special_blocks p !! key with
  | None => st
  | Some l =>
      let '(kept, allocated, h') := trim_blocks (special_list_blocks l) (special_blocks_allocated p) h in
      let p := p <| special_blocks_allocated := allocated |> in
      if (length kept =? 0)%nat && (special_blocks_reserved p =? 0) && negb (force_keeping_special_blocks p)
      then (p <| special_blocks ::= delete key |>, h')
      else (p <| special_blocks ::= insert key (l <| special_list_blocks := kept |>) |>, h')
  end.

(** The hash table is walked once, over the entries it holds at the start. *)
Definition s_buffer_pool_trim_special_blocks_synced (p : buffer_pool) (h : heap) : buffer_pool * heap :=
  foldl trim_special_entry (p, h) (map_to_list (special_blocks p)).*1.

Definition s_buffer_pool_trim_synced (p : buffer_pool) (h : heap) : buffer_pool * heap :=
  let '(kept, allocated, h) := trim_blocks (blocks p) (primary_allocated p) h in
  s_buffer_pool_trim_special_blocks_synced
    (p <| primary_allocated := allocated |> <| blocks := kept |>) h.

(** * Reservation *)

Definition overall_taken (p : buffer_pool) : Z :=
  primary_used p +[64] primary_reserved p +[64] secondary_used p +[64] secondary_reserved p
    +[64] special_blocks_reserved p +[64] special_blocks_used p.

(** [(size_t)(mem_limit * (80 / 100.0))], in double precision. *)
Definition max_impact_of_forced_on_limit (p : buffer_pool) : Z :=
  double_trunc (double_mul (double_of_uint (mem_limit (config p)))
    (double_div_uint s_max_impact_of_forced_buffers_on_memory_limit_as_percentage 100)).

Section reservation.
Context `{!AwsMath}.

Definition s_should_trim_for_reserve_synced (from_special : bool) (to_reserve : Z)
    (p : buffer_pool) (taken : Z) : bool :=
  if from_special || (to_reserve <=? primary_size_cutoff (config p)) then false
  else
    match aws_add_u64_checked taken to_reserve with
    | None => false
    | Some total_allocation_needs =>
        if total_allocation_needs <? mem_limit (config p) then false
        else
          let primary_over := aws_sub_u64_saturating (primary_allocated p) (primary_used p) in
          let primary_over := aws_sub_u64_saturating primary_over (primary_reserved p) in
          let special_over := aws_sub_u64_saturating (special_blocks_allocated p) (special_blocks_used p) in
          let special_over := aws_sub_u64_saturating special_over (special_blocks_reserved p) in
          negb (aws_add_u64_saturating special_over primary_over <? to_reserve)
    end.

(** The area a granted reservation of [n] bytes is charged to. *)
Definition reserve_area (from_special : bool) (n : Z) (p : buffer_pool) (taken : Z) : reserved_from :=
  if from_special then RESERVED_FROM_SPECIAL
  else if n <=? primary_size_cutoff (config p) then
    if n <=? primary_size_min_cutoff (config p) then RESERVED_FROM_SECONDARY
    else if (primary_allocated p <? primary_used p +[64] primary_reserved p +[64] n)
            && (mem_limit (config p) <? taken +[64] pool_block_size (config p))
    then RESERVED_FROM_SECONDARY
    else RESERVED_FROM_PRIMARY
  else RESERVED_FROM_SECONDARY.

Definition charge_reserved (a : reserved_from) (n : Z) (p : buffer_pool) : buffer_pool :=
  match a with
  | RESERVED_FROM_SPECIAL => p <| special_blocks_reserved ::= λ x, x +[64] n |>
  | RESERVED_FROM_PRIMARY => p <| primary_reserved ::= λ x, x +[64] n |>
  | RESERVED_FROM_SECONDARY => p <| secondary_reserved ::= λ x, x +[64] n |>
  end.

Definition s_try_reserve_synced (p : buffer_pool) (h : heap) (meta : reserve_meta)
    : option ticket * buffer_pool * heap :=
  let n := meta_size meta in
  let from_special := bool_decide (is_Some (special_blocks p !! n)) in
  let '(p, h) :=
    if s_should_trim_for_reserve_synced from_special n p (overall_taken p)
    then s_buffer_pool_trim_synced p h else (p, h) in
  let taken := overall_taken p in
  let max_impact := max_impact_of_forced_on_limit p in
  let taken := if max_impact <? forced_used p then (taken -[64] forced_used p) +[64] max_impact else taken in
  if n +[64] taken <=? mem_limit (config p) then
    let area := reserve_area from_special n p taken in
    (Some (mkTicket n NULL 0 false area), charge_reserved area n p, h)
  else (None, p, h).
End reservation.

(** * Acquiring the memory of a ticket *)

Definition s_chunks_needed (n chunk : Z) : Z := n / chunk + (if n mod chunk =? 0 then 0 else 1).

(** The inner loop: the first [chunk_i], below [limit], whose [n] bits are clear. *)
Fixpoint find_free_chunks (mask n chunk_i : Z) (limit : nat) : option Z :=
  match limit with
  | O => None
  | S limit =>
      if negb (s_check_bits mask chunk_i n) then Some chunk_i
      else find_free_chunks mask n (chunk_i + 1) limit
  end.

(** The outer loop: the first block with room, its mask updated. *)
Fixpoint acquire_from_blocks (bs : list block) (n chunk : Z) : option (Z * list block) :=
  match bs with
  | [] => None
  | b :: bs =>
      match find_free_chunks (alloc_bit_mask b) n 0 (Z.to_nat (s_chunks_per_block -[64] n +[64] 1)) with
      | Some chunk_i =>
          Some (block_ptr b + chunk_i * chunk,
                b <| alloc_bit_mask := s_set_bits (alloc_bit_mask b) chunk_i n |> :: bs)
      | None => '(alloc_ptr, bs') ← acquire_from_blocks bs n chunk; Some (alloc_ptr, b :: bs')
      end
  end.

(** The first special block that is not in use, marked as used. *)
Fixpoint acquire_from_special (bs : list block) : option (Z * list block) :=
  match bs with
  | [] => None
  | b :: bs =>
      if alloc_bit_mask b =? 0 then Some (block_ptr b, b <| alloc_bit_mask := U16_MAX |> :: bs)
      else '(alloc_ptr, bs') ← acquire_from_special bs; Some (alloc_ptr, b :: bs')
  end.

Section acquire.
Context `{!AwsAllocator}.

Definition s_primary_acquire_synced (p : buffer_pool) (h : heap) (t : ticket)
    : res (ticket * buffer_pool * heap) :=
  let chunk := chunk_size (config p) in
  let n := s_chunks_needed (ticket_size t) chunk in
  let t := t <| ticket_chunks_used := n |> in
  '(alloc_ptr, p, h) ←
    match acquire_from_blocks (blocks p) n chunk with
    | Some (alloc_ptr, bs) => Ok (alloc_ptr, p <| blocks := bs |>, h)
    | None =>
        let bsize := pool_block_size (config p) in
        '(new_ptr, h) ← acquire_cell h bsize OwnPrimary;
        Ok (new_ptr,
            p <| blocks ::= λ bs, bs ++ [mkBlock bsize new_ptr (s_set_bits 0 0 n)] |>
              <| primary_allocated ::= λ x, x +[64] bsize |>, h)
    end;
  let p := p <| primary_used ::= λ x, x +[64] ticket_size t |> in
  let p := if ticket_forced t then p else p <| primary_reserved ::= λ x, x -[64] ticket_size t |> in
  Ok (t <| ticket_ptr := alloc_ptr |>, p, h).

(** [id] names the ticket as the owner of secondary memory. *)
Definition s_acquire_buffer_synced (p : buffer_pool) (h : heap) (id : nat) (t : ticket)
    : res (ticket * buffer_pool * heap) :=
  let n := ticket_size t in
  '(t, p, h) ←
    match ticket_from t with
    | RESERVED_FROM_SPECIAL =>
        match special_blocks p !! n with
        | None => FatalAssert
        | Some l =>
            '(alloc_ptr, p, h) ←
              match acquire_from_special (special_list_blocks l) with
              | Some (alloc_ptr, bs) =>
                  Ok (alloc_ptr, p <| special_blocks ::= insert n (l <| special_list_blocks := bs |>) |>, h)
              | None =>
                  '(new_ptr, h) ← acquire_cell h (buffer_size l) (OwnSpecial n);
                  let b := mkBlock (buffer_size l) new_ptr U16_MAX in
                  Ok (new_ptr,
                      p <| special_blocks ::= insert n (l <| special_list_blocks ::= λ bs, bs ++ [b] |>) |>
                        <| special_blocks_allocated ::= λ x, x +[64] buffer_size l |>, h)
              end;
            Ok (t <| ticket_ptr := alloc_ptr |>,
                p <| special_blocks_used ::= λ x, x +[64] n |>
                  <| special_blocks_reserved ::= λ x, x -[64] n |>, h)
        end
    | RESERVED_FROM_PRIMARY => s_primary_acquire_synced p h t
    | RESERVED_FROM_SECONDARY =>
        '(new_ptr, h) ← acquire_cell h n (OwnSecondary id);
        let p := p <| secondary_used ::= λ x, x +[64] n |> in
        let p := if ticket_forced t then p else p <| secondary_reserved ::= λ x, x -[64] n |> in
        Ok (t <| ticket_ptr := new_ptr |>, p, h)
    end;
  let p := if ticket_forced t then p <| forced_used ::= λ x, x +[64] n |> else p in
  Ok (t, p, h).
End acquire.

(** * Returning the memory of a ticket *)

(** The block of [bs] that holds [q], its [n] chunks cleared. *)
Fixpoint release_to_blocks (bs : list block) (q n chunk : Z) : option (list block) :=
  match bs with
  | [] => None
  | b :: bs =>
      if (block_ptr b <=? q) && (q <? block_ptr b + block_size b) then
        let alloc_i := (q - block_ptr b) / chunk in
        Some (b <| alloc_bit_mask := s_clear_bits (alloc_bit_mask b) alloc_i n |> :: bs)
      else bs' ← release_to_blocks bs q n chunk; Some (b :: bs')
  end.

Fixpoint release_to_special (bs : list block) (q : Z) : option (list block) :=
  match bs with
  | [] => None
  | b :: bs =>
      if (block_ptr b =? q) && (alloc_bit_mask b =? U16_MAX) then Some (b <| alloc_bit_mask := 0 |> :: bs)
      else bs' ← release_to_special bs q; Some (b :: bs')
  end.

(** The accounting of [s_aws_ticket_wrapper_destroy], before the pending
    reservations are looked at. *)
Definition release_ticket_synced (p : buffer_pool) (h : heap) (t : ticket) : res (buffer_pool * heap) :=
  let n := ticket_size t in
  if ticket_ptr t =? NULL then
    Ok (match ticket_from t with
        | RESERVED_FROM_SPECIAL => p <| special_blocks_reserved ::= λ x, x -[64] n |>
        | RESERVED_FROM_PRIMARY => p <| primary_reserved ::= λ x, x -[64] n |>
        | RESERVED_FROM_SECONDARY => p <| secondary_reserved ::= λ x, x -[64] n |>
        end, h)
  else
    match ticket_from t with
    | RESERVED_FROM_SPECIAL =>
        Ok (match special_blocks p !! n with
            | None => p
            | Some l =>
                match release_to_special (special_list_blocks l) (ticket_ptr t) with
                | None => p
                | Some bs =>
                    p <| special_blocks ::= insert n (l <| special_list_blocks := bs |>) |>
                      <| special_blocks_used ::= λ x, x -[64] n |>
                end
            end, h)
    | RESERVED_FROM_PRIMARY =>
        let chunk := chunk_size (config p) in
        match release_to_blocks (blocks p) (ticket_ptr t) (s_chunks_needed n chunk) chunk with
        | None => FatalAssert
        | Some bs =>
            let p := p <| blocks := bs |> <| primary_used ::= λ x, x -[64] n |> in
            Ok (if ticket_forced t then p <| forced_used ::= λ x, x -[64] n |> else p, h)
        end
    | RESERVED_FROM_SECONDARY =>
        let p := p <| secondary_used ::= λ x, x -[64] n |> in
        Ok (if ticket_forced t then p <| forced_used ::= λ x, x -[64] n |> else p,
            aws_mem_release h (ticket_ptr t))
    end.

(** * The pool and the code around its critical sections *)

(** What a future hands out: a ticket of the pool, or a view of the caller's
    buffer ([struct aws_s3_preallocated_ticket_impl]). *)
Inductive ticket_handle :=
| DefaultTicket (id : nat)
| PreallocatedTicket (base : Z) (n : Z).

(** [aws_future_s3_buffer_ticket]: not done, done with a ticket, done with an error. *)
Inductive future :=
| FuturePending
| FutureTicket (handle : ticket_handle)
| FutureError (e : aws_error).

Definition future_is_done (f : future) : bool :=
  match f with FuturePending => false | _ => true end.
Definition future_has_error (f : future) : bool :=
  match f with FutureError _ => true | _ => false end.

(** The pool with the memory, tickets and futures it deals in.  [completing] holds
    the pending reservations that a releasing thread has taken off the queue, with
    their tickets, and not completed yet: that happens outside the mutex. *)
Record world := mkWorld {
  pool : buffer_pool;
  mem : heap;
  tickets : gmap nat ticket;
  futures : gmap nat future;
  completing : list (nat * nat);
  next_ticket : nat;
  next_future : nat;
}.
#[export] Instance world_eta : Eta world := λ w, mkWorld (pool w) (mem w) (tickets w) (futures w)
  (completing w) (next_ticket w) (next_future w).

Definition new_world (p : buffer_pool) : world := mkWorld p ∅ ∅ ∅ [] 0 0.

Definition add_ticket (w : world) (t : ticket) : world :=
  w <| tickets ::= insert (next_ticket w) t |> <| next_ticket ::= S |>.

Definition add_future (w : world) (f : future) : world :=
  w <| futures ::= insert (next_future w) f |> <| next_future ::= S |>.

Definition s_reserve_from_preallocated_buffer (b : byte_buf) (meta : reserve_meta) : future :=
  if (buf_capacity b <? local_offset meta) || (buf_capacity b -[64] local_offset meta <? meta_size meta)
  then FutureError AWS_ERROR_SHORT_BUFFER
  else FutureTicket (PreallocatedTicket (buf_ptr b + local_offset meta) (meta_size meta)).

Definition s_find_preallocated_buffer (p : buffer_pool) (key : option Z) : option byte_buf :=
  k ← key; preallocated_buffers p !! k.

(** The ticket of a reservation that must not wait. *)
Definition forced_ticket (p : buffer_pool) (n : Z) : ticket :=
  mkTicket n NULL 0 true
    (if (n <=? primary_size_cutoff (config p)) && (primary_size_min_cutoff (config p) <=? n)
     then RESERVED_FROM_PRIMARY else RESERVED_FROM_SECONDARY).

Section operations.
Context `{!AwsMath, !AwsAllocator}.

Definition aws_s3_default_buffer_pool_reserve (w : world) (meta : reserve_meta) : res (world * nat) :=
  let fut := next_future w in
  _ ← assert_fatal (negb (meta_size meta =? 0));
  match s_find_preallocated_buffer (pool w) (meta_request meta) with
  | Some b => Ok (add_future w (s_reserve_from_preallocated_buffer b meta), fut)
  | None =>
      if mem_limit (config (pool w)) <? meta_size meta then
        Ok (add_future w (FutureError AWS_ERROR_S3_PART_SIZE_EXCEEDS_MEMORY_LIMIT), fut)
      else
        let '(t, p, h) :=
          if can_block meta then (Some (forced_ticket (pool w) (meta_size meta)), pool w, mem w)
          else s_try_reserve_synced (pool w) (mem w) meta in
        let w := w <| pool := p |> <| mem := h |> in
        Ok (match t with
            | Some t => add_future (add_ticket w t) (FutureTicket (DefaultTicket (next_ticket w)))
            | None =>
                add_future w FuturePending
                  <| pool ::= λ p, p <| pending_reserves ::= λ l, l ++ [mkPending fut meta] |> |>
            end, fut)
  end.

(** The buffer of a ticket: its address and capacity. *)
Definition aws_s3_default_buffer_pool_acquire_buffer (w : world) (id : nat) (t : ticket)
    : res (world * byte_buf) :=
  if negb (ticket_ptr t =? NULL) then Ok (w, mkBuf (ticket_ptr t) (ticket_size t))
  else
    '(t', p, h) ← s_acquire_buffer_synced (pool w) (mem w) id t;
    Ok (w <| pool := p |> <| mem := h |> <| tickets ::= insert id t' |>,
        mkBuf (ticket_ptr t') (ticket_size t')).

(** The pending reservations whose future is already done, which can only be
    because the request was cancelled, leave the queue. *)
Definition drop_cancelled (fs : gmap nat future) (l : list pending_reserve)
    : res (list pending_reserve) :=
  let done r := default false (future_is_done <$> fs !! ticket_future r) in
  let failed r := default false (future_has_error <$> fs !! ticket_future r) in
  _ ← assert_fatal (forallb (λ r, negb (done r) || failed r) l);
  Ok (filter (λ r, done r = false) l).

(** Serve the queue from the front for as long as the reservation at the front
    fits. *)
Fixpoint serve_pending (w : world) (l : list pending_reserve) : world :=
  match l with
  | [] => w <| pool ::= λ p, p <| pending_reserves := [] |> |>
  | r :: rest =>
      let '(t, p, h) := s_try_reserve_synced (pool w) (mem w) (pending_meta r) in
      let w := w <| pool := p |> <| mem := h |> in
      match t with
      | Some t =>
          serve_pending
            (add_ticket w t <| completing ::= λ c, c ++ [(ticket_future r, next_ticket w)] |>) rest
      | None => w <| pool ::= λ p, p <| pending_reserves := r :: rest |> |>
      end
  end.

(** The critical section of [s_aws_ticket_wrapper_destroy]. *)
Definition s_aws_ticket_wrapper_destroy (w : world) (id : nat) (t : ticket) : res world :=
  '(p, h) ← release_ticket_synced (pool w) (mem w) t;
  let w := w <| pool := p |> <| mem := h |> <| tickets ::= delete id |> in
  l ← drop_cancelled (futures w) (pending_reserves p);
  Ok (serve_pending w l).

(** After the critical section: one reservation taken off the queue is completed.
    A future that was cancelled in the meantime releases the ticket it is given. *)
Definition complete_pending (w : world) (fut id : nat) : res world :=
  let w := w <| completing ::= filter (λ c, c ≠ (fut, id)) |> in
  match futures w !! fut with
  | Some FuturePending => Ok (w <| futures ::= insert fut (FutureTicket (DefaultTicket id)) |>)
  | _ =>
      match tickets w !! id with
      | Some t => s_aws_ticket_wrapper_destroy w id t
      | None => Ok w
      end
  end.
End operations.

(** The request that waits on [fut] is cancelled: its future is completed with the
    error, unless it is done already. *)
Definition cancel_future (w : world) (fut : nat) (e : aws_error) : world :=
  match futures w !! fut with
  | Some FuturePending => w <| futures ::= insert fut (FutureError e) |>
  | _ => w
  end.

Definition aws_s3_default_buffer_pool_trim (w : world) : world :=
  let '(p, h) := s_buffer_pool_trim_synced (pool w) (mem w) in w <| pool := p |> <| mem := h |>.

Definition s_default_pool_add_special_size (w : world) (n : Z) : world :=
  if n <=? primary_size_cutoff (config (pool w)) then w
  else
    match special_blocks (pool w) !! n with
    | Some _ => w
    | None => w <| pool ::= λ p, p <| special_blocks ::= insert n (mkSpecial n []) |> |>
    end.

Definition s_default_pool_release_special_size (w : world) (n : Z) : world :=
  let '(p, h) := s_buffer_pool_trim_special_blocks_synced (pool w) (mem w) in
  w <| pool := p |> <| mem := h |>.

Definition s_default_pool_derive_aligned_buffer_size (p : buffer_pool) (n : Z) : Z :=
  let chunk := chunk_size (config p) in
  if chunk =? 0 then n
  else
    let chunks_needed := n / chunk in
    let chunks_needed := if n mod chunk =? 0 then chunks_needed else chunks_needed +[64] 1 in
    chunks_needed *[64] chunk.

Definition s_default_pool_add_preallocated_buffer (w : world) (key : Z) (b : byte_buf) : world :=
  w <| pool ::= λ p, p <| preallocated_buffers ::= insert key b |> |>.

Definition s_default_pool_remove_preallocated_buffer (w : world) (key : Z) : world :=
  w <| pool ::= λ p, p <| preallocated_buffers ::= delete key |> |>.

(** [s_destroy_special_block_list] frees the blocks of one list. *)
Definition s_destroy_special_block_list (h : heap) (l : special_block_list) : heap :=
  foldl (λ h b, aws_mem_release h (block_ptr b)) h (special_list_blocks l).

(** Destroying the pool: the memory left after it. *)
Definition aws_s3_default_buffer_pool_destroy (w : world) : res heap :=
  _ ← assert_fatal (forallb (λ b, alloc_bit_mask b =? 0) (blocks (pool w)));
  let h := foldl (λ h b, aws_mem_release h (block_ptr b)) (mem w) (blocks (pool w)) in
  _ ← assert_fatal (forallb (λ r, default false (future_is_done <$> futures w !! ticket_future r))
        (pending_reserves (pool w)));
  Ok (foldl s_destroy_special_block_list h (map_to_list (special_blocks (pool w))).*2).

(** [struct aws_s3_default_buffer_pool_usage_stats] *)
Record usage_stats := mkUsage {
  stat_mem_limit : Z; stat_primary_cutoff : Z; stat_primary_min_cutoff : Z;
  stat_primary_allocated : Z; stat_primary_used : Z; stat_primary_reserved : Z;
  stat_primary_num_blocks : nat;
  stat_secondary_used : Z; stat_secondary_reserved : Z;
  stat_special_blocks_allocated : Z; stat_special_blocks_num : nat;
  stat_special_blocks_reserved : Z; stat_special_blocks_used : Z;
  stat_forced_used : Z;
}.

Definition aws_s3_default_buffer_pool_get_usage (p : buffer_pool) : usage_stats :=
  mkUsage (mem_limit (config p)) (primary_size_cutoff (config p)) (primary_size_min_cutoff (config p))
    (primary_allocated p) (primary_used p) (primary_reserved p) (length (blocks p))
    (secondary_used p) (secondary_reserved p)
    (special_blocks_allocated p) (base.size (special_blocks p))
    (special_blocks_reserved p) (special_blocks_used p) (forced_used p).

(** * Runs *)

(** The bytes of a ticket that count against the limit, and those that do not have
    to fit in it. *)
Definition normal_bytes (t : ticket) : Z := if ticket_forced t then 0 else ticket_size t.
Definition forced_bytes (t : ticket) : Z := if ticket_forced t then ticket_size t else 0.

Section steps.
Context `{!AwsMath, !AwsAllocator}.

(** One operation of a client of the pool.  A ticket is used by its holder, so not
    while a completing thread owns it; the client claims a forced ticket as soon
    as it has it (aws_s3_meta_request_poll_write), so a forced ticket is released
    claimed; and the forced buffers alive at one time stay below [2^63] bytes. *)
Inductive step : world → world → Prop :=
| step_reserve w meta w' fut :
    uint 64 (meta_size meta) →
    (can_block meta = true → msum forced_bytes (tickets w) + meta_size meta < 2 ^ 63) →
    aws_s3_default_buffer_pool_reserve w meta = Ok (w', fut) → step w w'
| step_claim w id t w' b :
    tickets w !! id = Some t → id ∉ (completing w).*2 →
    aws_s3_default_buffer_pool_acquire_buffer w id t = Ok (w', b) → step w w'
| step_release w id t w' :
    tickets w !! id = Some t → id ∉ (completing w).*2 →
    (ticket_forced t = true → ticket_ptr t ≠ NULL) →
    s_aws_ticket_wrapper_destroy w id t = Ok w' → step w w'
| step_complete w fut id w' :
    (fut, id) ∈ completing w → complete_pending w fut id = Ok w' → step w w'
| step_cancel w fut e : step w (cancel_future w fut e)
| step_trim w : step w (aws_s3_default_buffer_pool_trim w)
| step_add_special w n : uint 64 n → step w (s_default_pool_add_special_size w n)
| step_release_special w n : step w (s_default_pool_release_special_size w n)
| step_add_preallocated w key b : step w (s_default_pool_add_preallocated_buffer w key b)
| step_remove_preallocated w key : step w (s_default_pool_remove_preallocated_buffer w key).

(** The worlds a client can reach from a new pool whose limit is at most [2^62]. *)
Inductive reachable (c : buffer_pool_config) : world → Prop :=
| reachable_new p :
    0 ≤ part_size c → memory_limit c ≤ 2 ^ 62 →
    aws_s3_default_buffer_pool_new c = Success p → reachable c (new_world p)
| reachable_step w w' : reachable c w → step w w' → reachable c w'.
End steps.
