(* ===== verification/BufferPoolInv.v ===== *)
(** The invariant of the default buffer pool and its preservation by every
    operation of BufferPool.v: the counters are the sums of the live tickets, the
    bit masks are the chunks of the claimed tickets, every byte of the heap has one
    owner, and the queue of pending reservations is never stuck. *)

From S2P Require Import Prelude AwsCommon BufferPool.

(** * Bit masks *)

Definition in_span (pos n k : Z) : bool := (pos <=? k) && (k <? pos + n).

Lemma s_bits_mask_ones n : 1 ≤ n ≤ 8 → s_bits_mask n = Z.ones n.
Proof.
  intros Hn. assert (n = 1 ∨ n = 2 ∨ n = 3 ∨ n = 4 ∨ n = 5 ∨ n = 6 ∨ n = 7 ∨ n = 8) by lia.
  destruct_or!; subst; reflexivity.
Qed.

Lemma span_testbit pos n k : 0 ≤ pos → 1 ≤ n ≤ 8 → 0 ≤ k →
  Z.testbit (Z.shiftl (s_bits_mask n) pos) k = in_span pos n k.
Proof.
  intros. rewrite s_bits_mask_ones, Z.shiftl_spec by lia.
  unfold in_span. destruct (Z.leb_spec pos k); simpl.
  - rewrite Z.testbit_ones_nonneg by lia. apply eq_true_iff_eq. rewrite !Z.ltb_lt. lia.
  - apply Z.testbit_neg_r. lia.
Qed.

Lemma wrap_testbit w x k : 0 ≤ w → 0 ≤ k → Z.testbit (wrap w x) k = (k <? w) && Z.testbit x k.
Proof.
  intros. unfold wrap. destruct (Z.ltb_spec k w); simpl.
  - by apply Z.mod_pow2_bits_low.
  - apply Z.mod_pow2_bits_high; lia.
Qed.

Lemma uint_testbit_high w x k : 0 ≤ w → uint w x → w ≤ k → Z.testbit x k = false.
Proof.
  intros Hw [Hx0 Hx] Hk. rewrite <-(Z.mod_small x (2 ^ w)) by done.
  apply Z.mod_pow2_bits_high. lia.
Qed.

Section bits.
Context (num pos n : Z).
Context (Hnum : uint 16 num) (Hpos : 0 ≤ pos) (Hn : 1 ≤ n ≤ 8) (Hfit : pos + n ≤ 16).

Lemma s_set_bits_testbit k : 0 ≤ k →
  Z.testbit (s_set_bits num pos n) k = Z.testbit num k || in_span pos n k.
Proof.
  intros Hk. unfold s_set_bits. rewrite wrap_testbit, Z.lor_spec, span_testbit by lia.
  destruct (Z.ltb_spec k 16); simpl; [done|].
  rewrite (uint_testbit_high 16) by (done || lia). unfold in_span.
  destruct (Z.ltb_spec k (pos + n)); [lia|]. by rewrite andb_false_r.
Qed.

Lemma s_clear_bits_testbit k : 0 ≤ k →
  Z.testbit (s_clear_bits num pos n) k = Z.testbit num k && negb (in_span pos n k).
Proof.
  intros Hk. unfold s_clear_bits. rewrite wrap_testbit, Z.land_spec, Z.lnot_spec, span_testbit by lia.
  destruct (Z.ltb_spec k 16); simpl; [done|].
  by rewrite (uint_testbit_high 16) by (done || lia).
Qed.

Lemma s_check_bits_false :
  s_check_bits num pos n = false ↔ ∀ k, in_span pos n k = true → Z.testbit num k = false.
Proof.
  unfold s_check_bits. rewrite negb_false_iff, Z.eqb_eq. split.
  - intros Hz k. unfold in_span. rewrite andb_true_iff, Z.leb_le, Z.ltb_lt. intros [??].
    assert (Z.testbit (Z.land (Z.shiftr num pos) (s_bits_mask n)) (k - pos) = false) as Hbit
      by (rewrite Hz; apply Z.bits_0).
    rewrite Z.land_spec, Z.shiftr_spec, s_bits_mask_ones, Z.testbit_ones_nonneg in Hbit by lia.
    replace (k - pos + pos) with k in Hbit by lia.
    destruct (Z.ltb_spec (k - pos) n); [|lia]. by rewrite andb_true_r in Hbit.
  - intros Hk. apply Z.bits_inj'. intros j Hj.
    rewrite Z.land_spec, Z.shiftr_spec, s_bits_mask_ones, Z.testbit_ones_nonneg, Z.bits_0 by lia.
    destruct (Z.ltb_spec j n); [|apply andb_false_r]. rewrite andb_true_r. apply Hk.
    unfold in_span. rewrite andb_true_iff, Z.leb_le, Z.ltb_lt. lia.
Qed.
End bits.

Lemma s_set_bits_uint num pos n : uint 16 (s_set_bits num pos n).
Proof. apply wrap_uint. lia. Qed.
Lemma s_clear_bits_uint num pos n : uint 16 (s_clear_bits num pos n).
Proof. apply wrap_uint. lia. Qed.

(** * The invariant *)

(** The bytes of a ticket that a counter holds. *)
Definition is_claimed (t : ticket) : bool := negb (ticket_ptr t =? NULL).
Definition in_area (a : reserved_from) (t : ticket) : bool := bool_decide (ticket_from t = a).
Definition reserved_bytes (a : reserved_from) (t : ticket) : Z :=
  if in_area a t && negb (is_claimed t) && negb (ticket_forced t) then ticket_size t else 0.
Definition used_bytes (a : reserved_from) (t : ticket) : Z :=
  if in_area a t && is_claimed t then ticket_size t else 0.
Definition forced_used_bytes (t : ticket) : Z :=
  if ticket_forced t && is_claimed t then ticket_size t else 0.

Record config_ok (c : pool_config) : Prop := {
  ok_chunk : 0 ≤ chunk_size c ≤ s_max_chunk_size_for_buffer_reuse;
  ok_block : pool_block_size c = 16 * chunk_size c;
  ok_cutoff : primary_size_cutoff c = 4 * chunk_size c;
  ok_min_cutoff : 0 ≤ primary_size_min_cutoff c;
  ok_limit : 0 < mem_limit c ≤ 2 ^ 62;
}.

Record ticket_ok (c : pool_config) (t : ticket) : Prop := {
  ok_size : 0 < ticket_size t ≤ mem_limit c;
  ok_primary : ticket_from t = RESERVED_FROM_PRIMARY → ticket_size t ≤ 4 * chunk_size c;
  ok_forced : ticket_forced t = true → ticket_from t ≠ RESERVED_FROM_SPECIAL;
  ok_ptr : 0 ≤ ticket_ptr t;
}.

(** The tickets that are not forced fit in the limit. *)
Record tickets_ok (c : pool_config) (ts : gmap nat ticket) : Prop := {
  tks_ok id t : ts !! id = Some t → ticket_ok c t;
  tks_limit : msum normal_bytes ts ≤ mem_limit c;
  tks_forced : msum forced_bytes ts < 2 ^ 63;
}.

(** The pool's counters, by area. *)
Definition reserved_of (a : reserved_from) (p : buffer_pool) : Z :=
  match a with
  | RESERVED_FROM_SECONDARY => secondary_reserved p
  | RESERVED_FROM_PRIMARY => primary_reserved p
  | RESERVED_FROM_SPECIAL => special_blocks_reserved p
  end.
Definition used_of (a : reserved_from) (p : buffer_pool) : Z :=
  match a with
  | RESERVED_FROM_SECONDARY => secondary_used p
  | RESERVED_FROM_PRIMARY => primary_used p
  | RESERVED_FROM_SPECIAL => special_blocks_used p
  end.

(** The counters are the sums of the live tickets. *)
Record accounting (p : buffer_pool) (ts : gmap nat ticket) : Prop := {
  acc_tickets : tickets_ok (config p) ts;
  acc_reserved a : reserved_of a p = msum (reserved_bytes a) ts;
  acc_used a : used_of a p = msum (used_bytes a) ts;
  acc_forced_used : forced_used p = msum forced_used_bytes ts;
  acc_primary_allocated : primary_allocated p = wrap 64 (zsum block_size (blocks p));
  acc_special_allocated : special_blocks_allocated p
    = wrap 64 (msum (λ l, zsum block_size (special_list_blocks l)) (special_blocks p));
}.

(** A ticket of area [a] whose memory has been acquired. *)
Definition claimed (a : reserved_from) (t : ticket) : Prop :=
  ticket_from t = a ∧ ticket_ptr t ≠ NULL.

Definition span_of (c : pool_config) (t : ticket) : Z := s_chunks_needed (ticket_size t) (chunk_size c).

(** The chunks [[i, i+n)] of the block at [q] are the memory of [t]. *)
Definition placed (c : pool_config) (t : ticket) (q i : Z) : Prop :=
  0 ≤ i ∧ i + span_of c t ≤ 16 ∧ ticket_ptr t = q + i * chunk_size c.

Record primary_store (c : pool_config) (bs : list block) (h : heap) (ts : gmap nat ticket) : Prop := {
  prim_nodup : NoDup (block_ptr <$> bs);
  prim_block b : b ∈ bs →
    block_size b = pool_block_size c ∧ uint 16 (alloc_bit_mask b) ∧
    h !! block_ptr b = Some (mkCell (pool_block_size c) OwnPrimary);
  prim_owned q x : h !! q = Some x → cell_owner x = OwnPrimary → q ∈ (block_ptr <$> bs);
  prim_placed id t : ts !! id = Some t → claimed RESERVED_FROM_PRIMARY t →
    ∃ b i, b ∈ bs ∧ placed c t (block_ptr b) i ∧
      ∀ k, in_span i (span_of c t) k = true → Z.testbit (alloc_bit_mask b) k = true;
  prim_bits b k : b ∈ bs → 0 ≤ k → Z.testbit (alloc_bit_mask b) k = true →
    ∃ id t i, ts !! id = Some t ∧ claimed RESERVED_FROM_PRIMARY t ∧ placed c t (block_ptr b) i ∧
      in_span i (span_of c t) k = true;
  prim_apart id1 id2 t1 t2 : id1 ≠ id2 → ts !! id1 = Some t1 → ts !! id2 = Some t2 →
    claimed RESERVED_FROM_PRIMARY t1 → claimed RESERVED_FROM_PRIMARY t2 →
    range_disjoint (ticket_ptr t1) (span_of c t1 * chunk_size c)
                   (ticket_ptr t2) (span_of c t2 * chunk_size c);
}.

Record special_store (c : pool_config) (sp : gmap Z special_block_list) (h : heap) (ts : gmap nat ticket) : Prop := {
  spec_list n l : sp !! n = Some l →
    buffer_size l = n ∧ primary_size_cutoff c < n ∧ NoDup (block_ptr <$> special_list_blocks l);
  spec_block n l b : sp !! n = Some l → b ∈ special_list_blocks l →
    block_size b = n ∧ h !! block_ptr b = Some (mkCell n (OwnSpecial n)) ∧
    (alloc_bit_mask b = 0 ∨ alloc_bit_mask b = U16_MAX);
  spec_owned q x n : h !! q = Some x → cell_owner x = OwnSpecial n →
    ∃ l, sp !! n = Some l ∧ q ∈ (block_ptr <$> special_list_blocks l);
  spec_reserved id t : ts !! id = Some t → ticket_from t = RESERVED_FROM_SPECIAL →
    is_Some (sp !! ticket_size t);
  spec_used id t : ts !! id = Some t → claimed RESERVED_FROM_SPECIAL t →
    ∃ l b, sp !! ticket_size t = Some l ∧ b ∈ special_list_blocks l ∧
      block_ptr b = ticket_ptr t ∧ alloc_bit_mask b = U16_MAX;
  spec_bits n l b : sp !! n = Some l → b ∈ special_list_blocks l → alloc_bit_mask b = U16_MAX →
    ∃ id t, ts !! id = Some t ∧ claimed RESERVED_FROM_SPECIAL t ∧ ticket_size t = n ∧ ticket_ptr t = block_ptr b;
  spec_apart id1 id2 t1 t2 : id1 ≠ id2 → ts !! id1 = Some t1 → ts !! id2 = Some t2 →
    claimed RESERVED_FROM_SPECIAL t1 → claimed RESERVED_FROM_SPECIAL t2 → ticket_ptr t1 ≠ ticket_ptr t2;
}.

Record secondary_store (h : heap) (ts : gmap nat ticket) : Prop := {
  sec_used id t : ts !! id = Some t → claimed RESERVED_FROM_SECONDARY t →
    h !! ticket_ptr t = Some (mkCell (ticket_size t) (OwnSecondary id));
  sec_owned q x id : h !! q = Some x → cell_owner x = OwnSecondary id →
    ∃ t, ts !! id = Some t ∧ claimed RESERVED_FROM_SECONDARY t ∧ ticket_ptr t = q;
}.

(** Live allocations are non-null and pairwise disjoint. *)
Record heap_ok (h : heap) : Prop := {
  heap_pos q x : h !! q = Some x → 0 < q;
  heap_apart q1 q2 x1 x2 : h !! q1 = Some x1 → h !! q2 = Some x2 → q1 ≠ q2 →
    range_disjoint q1 (cell_size x1) q2 (cell_size x2);
}.

Record inv (p : buffer_pool) (h : heap) (ts : gmap nat ticket) : Prop := {
  inv_config : config_ok (config p);
  inv_acc : accounting p ts;
  inv_primary : primary_store (config p) (blocks p) h ts;
  inv_special : special_store (config p) (special_blocks p) h ts;
  inv_secondary : secondary_store h ts;
  inv_heap : heap_ok h;
}.

(** * Accounting *)

(** A selector counts a ticket for at most its size. *)
Definition selector (f : ticket → Z) : Prop := ∀ t, 0 < ticket_size t → 0 ≤ f t ≤ ticket_size t.

Lemma reserved_selector a : selector (reserved_bytes a).
Proof. intros t ?. unfold reserved_bytes. destruct (_ && _); lia. Qed.
Lemma used_selector a : selector (used_bytes a).
Proof. intros t ?. unfold used_bytes. destruct (_ && _); lia. Qed.
Lemma forced_used_selector : selector forced_used_bytes.
Proof. intros t ?. unfold forced_used_bytes. destruct (_ && _); lia. Qed.
Lemma normal_selector : selector normal_bytes.
Proof. intros t ?. unfold normal_bytes. destruct (ticket_forced t); lia. Qed.
Lemma forced_selector : selector forced_bytes.
Proof. intros t ?. unfold forced_bytes. destruct (ticket_forced t); lia. Qed.

Create HintDb pool.
#[export] Hint Resolve reserved_selector used_selector forced_used_selector normal_selector forced_selector : pool.

Section tickets.
Context (c : pool_config) (Hc : config_ok c).
Implicit Types ts : gmap nat ticket.

Lemma selector_nonneg f ts : selector f → tickets_ok c ts → 0 ≤ msum f ts.
Proof.
  intros Hf Hts. apply msum_nonneg. intros i t Hi. apply (tks_ok _ _ Hts) in Hi as [??]. apply Hf. lia.
Qed.

(** No sum of ticket sizes wraps around. *)
Lemma selector_bound f ts : selector f → tickets_ok c ts → 0 ≤ msum f ts ≤ mem_limit c + (2 ^ 63 - 1).
Proof.
  intros Hf Hts. split; [by apply selector_nonneg|].
  assert (msum normal_bytes ts + msum forced_bytes ts = msum ticket_size ts) as Hsum.
  { apply msum_add. intros i t _. unfold normal_bytes, forced_bytes. destruct (ticket_forced t); lia. }
  assert (msum f ts ≤ msum ticket_size ts) as Hle.
  { apply msum_le. intros i t Hi. apply (tks_ok _ _ Hts) in Hi as [??]. apply Hf. lia. }
  pose proof (tks_limit _ _ Hts). pose proof (tks_forced _ _ Hts). lia.
Qed.

Lemma selector_uint f ts : selector f → tickets_ok c ts → uint 64 (msum f ts).
Proof.
  intros Hf Hts. pose proof (selector_bound f ts Hf Hts). pose proof (ok_limit _ Hc). unfold uint. lia.
Qed.

Lemma tickets_ok_insert ts id t : tickets_ok c ts → ts !! id = None → ticket_ok c t →
  msum normal_bytes ts + normal_bytes t ≤ mem_limit c →
  msum forced_bytes ts + forced_bytes t < 2 ^ 63 → tickets_ok c (<[id:=t]> ts).
Proof.
  intros Hts Hid Ht Hn Hf. split; rewrite ?msum_insert by done; [|lia..].
  intros j u. rewrite lookup_insert. case_decide; intros; simplify_eq; [done|]. by eapply tks_ok.
Qed.

Lemma tickets_ok_delete ts id t : tickets_ok c ts → ts !! id = Some t → tickets_ok c (delete id ts).
Proof.
  intros Hts Hid. pose proof (tks_ok _ _ Hts _ _ Hid) as [??].
  pose proof (normal_selector t). pose proof (forced_selector t). destruct Hts as [H1 H2 H3].
  split; rewrite ?(msum_delete _ _ _ t) by done; [|lia..].
  intros j u [_ Hj]%lookup_delete_Some. by eapply H1.
Qed.

Lemma tickets_ok_claim ts id t q n : tickets_ok c ts → ts !! id = Some t → 0 ≤ q →
  tickets_ok c (<[id := t <| ticket_chunks_used := n |> <| ticket_ptr := q |>]> ts).
Proof.
  intros Hts Hid Hq. pose proof (tks_ok _ _ Hts _ _ Hid) as [????]. destruct Hts as [H1 H2 H3].
  split; rewrite ?(msum_update _ _ _ t) by done.
  - intros j u. rewrite lookup_insert. case_decide; intros; simplify_eq; [by split|]. by eapply H1.
  - unfold normal_bytes in *; simpl. lia.
  - unfold forced_bytes in *; simpl. lia.
Qed.
End tickets.

(** Case analysis on the flags that decide which counters hold a ticket. *)
Ltac flags :=
  repeat match goal with |- context [msum ?f ?m] => generalize (msum f m); intros ? end;
  unfold reserved_bytes, used_bytes, forced_used_bytes, normal_bytes, forced_bytes, in_area, is_claimed; simpl;
  repeat match goal with
  | |- context [bool_decide ?P] => case_bool_decide; simpl
  | |- context [?x =? NULL] => destruct (Z.eqb_spec x NULL); simpl
  | |- context [ticket_forced ?t] => destruct (ticket_forced t) eqn:?; simpl
  end; try lia; try congruence;
  try (exfalso; match goal with H : ¬ (_ ∧ _) |- _ => apply H; split; congruence end).

Section counters.
Context (c : pool_config) (Hc : config_ok c).

Lemma counter_add f (ts ts' : gmap nat ticket) x n : selector f → tickets_ok c ts' →
  x = msum f ts → msum f ts' = msum f ts + n → x +[64] n = msum f ts'.
Proof. intros Hf Hts' -> <-. by eapply wrap_small, selector_uint. Qed.

Lemma counter_sub f (ts ts' : gmap nat ticket) x n : selector f → tickets_ok c ts' →
  x = msum f ts → msum f ts' = msum f ts - n → x -[64] n = msum f ts'.
Proof. intros Hf Hts' -> <-. by eapply wrap_small, selector_uint. Qed.
End counters.

(** Close the counter equations of an operation: [tac] rewrites the sum over the
    new tickets. *)
Ltac counters tac :=
  repeat match goal with
  | |- wrap 64 (?x + _) = msum _ _ => eapply counter_add; [eassumption|auto with pool|eassumption|eauto|]
  | |- wrap 64 (?x - _) = msum _ _ => eapply counter_sub; [eassumption|auto with pool|eassumption|eauto|]
  | H : ∀ a, ?f a ?p = msum (?g a) ?ts |- context [?f ?a ?p] => rewrite (H a)
  | H : forced_used ?p = _ |- context [forced_used ?p] => rewrite H
  end; tac; flags.

Lemma accounting_reserve p ts id a n :
  config_ok (config p) → accounting p ts → ts !! id = None →
  tickets_ok (config p) (<[id := mkTicket n NULL 0 false a]> ts) →
  accounting (charge_reserved a n p) (<[id := mkTicket n NULL 0 false a]> ts).
Proof.
  intros Hc [Hts Hr Hu Hf Hpa Hsa] Hid Hts'.
  assert (∀ b, reserved_of b (charge_reserved a n p)
    = if decide (b = a) then reserved_of b p +[64] n else reserved_of b p) as Hr'
    by (intros b; destruct a, b; done).
  assert (∀ b, used_of b (charge_reserved a n p) = used_of b p) as Hu' by (by destruct a).
  split; [by destruct a|intros b|intros b| |by destruct a..].
  - rewrite Hr'. case_decide; counters ltac:(rewrite msum_insert by done).
  - rewrite Hu'. counters ltac:(rewrite msum_insert by done).
  - transitivity (forced_used p); [by destruct a|]. counters ltac:(rewrite msum_insert by done).
Qed.

Lemma accounting_forced p ts id t :
  config_ok (config p) → accounting p ts → ts !! id = None →
  ticket_ptr t = NULL → ticket_forced t = true → tickets_ok (config p) (<[id := t]> ts) →
  accounting p (<[id := t]> ts).
Proof.
  intros Hc [Hts Hr Hu Hf Hpa Hsa] Hid Hptr Hforced Hts'. split; [done|intros b|intros b| |done..];
    counters ltac:(rewrite msum_insert by done).
Qed.

(** Claiming [t] moves its bytes from reserved to used, or charges them to used
    directly when the ticket is forced. *)
Record claim_counters (t : ticket) (p p' : buffer_pool) : Prop := {
  cc_config : config p' = config p;
  cc_reserved a : reserved_of a p' = if decide (a = ticket_from t ∧ ticket_forced t = false)
    then reserved_of a p -[64] ticket_size t else reserved_of a p;
  cc_used a : used_of a p' = if decide (a = ticket_from t)
    then used_of a p +[64] ticket_size t else used_of a p;
  cc_forced : forced_used p' = if ticket_forced t then forced_used p +[64] ticket_size t else forced_used p;
}.

(** Releasing [t] takes its bytes off the counter that holds them. *)
Record release_counters (t : ticket) (p p' : buffer_pool) : Prop := {
  rc_config : config p' = config p;
  rc_reserved a : reserved_of a p' = if decide (a = ticket_from t ∧ ticket_ptr t = NULL)
    then reserved_of a p -[64] ticket_size t else reserved_of a p;
  rc_used a : used_of a p' = if decide (a = ticket_from t ∧ ticket_ptr t ≠ NULL)
    then used_of a p -[64] ticket_size t else used_of a p;
  rc_forced : forced_used p' = if ticket_forced t && is_claimed t
    then forced_used p -[64] ticket_size t else forced_used p;
}.

Definition allocation_counters (p : buffer_pool) : Prop :=
  primary_allocated p = wrap 64 (zsum block_size (blocks p)) ∧
  special_blocks_allocated p
    = wrap 64 (msum (λ l, zsum block_size (special_list_blocks l)) (special_blocks p)).

Lemma accounting_claim p p' ts id t t' :
  config_ok (config p) → accounting p ts → ts !! id = Some t → ticket_ptr t = NULL →
  claim_counters t p p' → allocation_counters p' → tickets_ok (config p) (<[id := t']> ts) →
  ticket_size t' = ticket_size t → ticket_from t' = ticket_from t → ticket_forced t' = ticket_forced t →
  ticket_ptr t' ≠ NULL → accounting p' (<[id := t']> ts).
Proof.
  intros Hc [Hts Hr Hu Hf _ _] Hid Hptr [Hcc Hcr Hcu Hcf] [??] Hts' Hsz Hfr Hfo Hptr'.
  split; [by rewrite Hcc|intros b|intros b| |done..].
  - rewrite Hcr; clear Hcr Hcu. destruct (decide _) as [[??]|Hd];
      counters ltac:(rewrite (msum_update _ _ _ t) by done).
  - rewrite Hcu; clear Hcr Hcu. destruct (decide _); counters ltac:(rewrite (msum_update _ _ _ t) by done).
  - rewrite Hcf. destruct (ticket_forced t) eqn:?; counters ltac:(rewrite (msum_update _ _ _ t) by done).
Qed.

Lemma accounting_release p p' ts id t :
  config_ok (config p) → accounting p ts → ts !! id = Some t →
  (ticket_forced t = true → ticket_ptr t ≠ NULL) →
  release_counters t p p' → allocation_counters p' → accounting p' (delete id ts).
Proof.
  intros Hc [Hts Hr Hu Hf _ _] Hid Hforced [Hcc Hcr Hcu Hcf] [??].
  assert (tickets_ok (config p) (delete id ts)) as Hts' by by eapply tickets_ok_delete.
  split; [by rewrite Hcc|intros b|intros b| |done..].
  - rewrite Hcr; clear Hcr Hcu. destruct (decide _) as [[??]|Hd];
      counters ltac:(rewrite (msum_delete _ _ _ t) by done).
  - rewrite Hcu; clear Hcr Hcu. destruct (decide _) as [[??]|Hd];
      counters ltac:(rewrite (msum_delete _ _ _ t) by done).
  - rewrite Hcf; clear Hcr Hcu Hcf. unfold is_claimed.
    destruct (ticket_forced t) eqn:?; destruct (Z.eqb_spec (ticket_ptr t) NULL); simpl;
      counters ltac:(rewrite (msum_delete _ _ _ t) by done).
Qed.

(** * Primary storage *)

Lemma in_span_spec pos n k : in_span pos n k = true ↔ pos ≤ k < pos + n.
Proof. unfold in_span. rewrite andb_true_iff, Z.leb_le, Z.ltb_lt. lia. Qed.

Lemma chunks_needed_bounds n chunk : 0 < n ≤ 4 * chunk →
  1 ≤ s_chunks_needed n chunk ≤ 4 ∧ n ≤ s_chunks_needed n chunk * chunk < n + chunk.
Proof.
  intros Hn. unfold s_chunks_needed. pose proof (Z.div_mod n chunk ltac:(lia)).
  pose proof (Z.mod_pos_bound n chunk ltac:(lia)). destruct (Z.eqb_spec (n mod chunk) 0); nia.
Qed.

Lemma find_free_chunks_Some mask n i limit j :
  find_free_chunks mask n i limit = Some j →
  i ≤ j < i + Z.of_nat limit ∧ s_check_bits mask j n = false.
Proof.
  revert i; induction limit as [|limit IH]; intros i; simpl; [done|].
  destruct (s_check_bits mask i n) eqn:Hc; simpl.
  - intros [Hj ?]%IH. split; [lia|done].
  - intros [= <-]. split; [lia|done].
Qed.

Lemma find_free_chunks_None mask n i limit j :
  find_free_chunks mask n i limit = None → i ≤ j < i + Z.of_nat limit → s_check_bits mask j n = true.
Proof.
  revert i; induction limit as [|limit IH]; intros i; simpl; [lia|].
  destruct (s_check_bits mask i n) eqn:Hc; simpl; [|done].
  intros Hf Hj. destruct (decide (j = i)) as [->|]; [done|]. apply (IH (i + 1)); [done|lia].
Qed.

(** The number of positions tried in a block. *)
Lemma chunk_positions n : 1 ≤ n ≤ 16 → Z.of_nat (Z.to_nat (s_chunks_per_block -[64] n +[64] 1)) = 17 - n.
Proof.
  intros. unfold s_chunks_per_block. rewrite wrap_add_l, wrap_small by machine. lia.
Qed.

Lemma acquire_from_blocks_Some bs n chunk q bs' : 1 ≤ n ≤ 16 →
  acquire_from_blocks bs n chunk = Some (q, bs') →
  ∃ k b i, bs !! k = Some b ∧ q = block_ptr b + i * chunk ∧ 0 ≤ i ∧ i + n ≤ 16 ∧
    s_check_bits (alloc_bit_mask b) i n = false ∧
    bs' = <[k := b <| alloc_bit_mask := s_set_bits (alloc_bit_mask b) i n |>]> bs.
Proof.
  intros Hn. revert q bs'. induction bs as [|b bs IH]; intros q bs'; simpl; [done|].
  destruct (find_free_chunks _ _ _ _) as [i|] eqn:Hf.
  - intros [= <- <-]. apply find_free_chunks_Some in Hf as [Hi Hc]. rewrite chunk_positions in Hi by done.
    exists 0%nat, b, i. simpl. split_and!; (done || lia).
  - destruct (acquire_from_blocks bs n chunk) as [[q0 bs0]|] eqn:Ha; simpl; [|done].
    intros [= -> <-]. destruct (IH _ _ eq_refl) as (k & b' & i & ?). exists (S k), b', i. simpl. naive_solver.
Qed.

Lemma acquire_from_blocks_None bs n chunk b i : 1 ≤ n ≤ 16 →
  acquire_from_blocks bs n chunk = None → b ∈ bs → 0 ≤ i → i + n ≤ 16 →
  s_check_bits (alloc_bit_mask b) i n = true.
Proof.
  intros Hn Ha Hb Hi Hin. induction bs as [|b0 bs IH]; simpl in Ha; [by apply not_elem_of_nil in Hb|].
  destruct (find_free_chunks _ _ _ _) as [j|] eqn:Hf; [done|].
  destruct (acquire_from_blocks bs n chunk) as [[q0 bs0]|] eqn:Ha'; simpl in Ha; [done|].
  apply elem_of_cons in Hb as [->|Hb]; [|by apply IH].
  eapply find_free_chunks_None; [done|]. rewrite chunk_positions by done. lia.
Qed.

Lemma release_to_blocks_Some bs q n chunk b : b ∈ bs →
  block_ptr b ≤ q < block_ptr b + block_size b → is_Some (release_to_blocks bs q n chunk).
Proof.
  intros Hb Hq. induction bs as [|b0 bs IH]; [by apply not_elem_of_nil in Hb|]. simpl.
  destruct ((block_ptr b0 <=? q) && (q <? block_ptr b0 + block_size b0)) eqn:Hr; [done|].
  apply elem_of_cons in Hb as [->|Hb].
  - rewrite andb_false_iff, Z.leb_gt, Z.ltb_ge in Hr. lia.
  - destruct (IH Hb) as [bs' ->]. done.
Qed.

Lemma release_to_blocks_spec bs q n chunk bs' : release_to_blocks bs q n chunk = Some bs' →
  ∃ k b, bs !! k = Some b ∧ block_ptr b ≤ q < block_ptr b + block_size b ∧
    bs' = <[k := b <| alloc_bit_mask := s_clear_bits (alloc_bit_mask b) ((q - block_ptr b) / chunk) n |>]> bs.
Proof.
  revert bs'. induction bs as [|b bs IH]; intros bs'; simpl; [done|].
  destruct ((block_ptr b <=? q) && (q <? block_ptr b + block_size b)) eqn:Hr.
  - intros [= <-]. rewrite andb_true_iff, Z.leb_le, Z.ltb_lt in Hr. exists 0%nat, b. simpl. naive_solver lia.
  - destruct (release_to_blocks bs q n chunk) as [bs0|] eqn:Hb; simpl; [|done].
    intros [= <-]. destruct (IH _ eq_refl) as (k & b' & ?). exists (S k), b'. simpl. naive_solver.
Qed.

(** The elements of a list after one of them is replaced. *)
Lemma elem_of_list_update {A} (l : list A) k x y :
  y ∈ <[k := x]> l → y = x ∨ ∃ j, j ≠ k ∧ l !! j = Some y.
Proof.
  intros [j Hj]%list_elem_of_lookup. apply list_lookup_insert_Some in Hj as [(-> & -> & ?)|[??]]; eauto.
Qed.

Lemma fmap_list_update {A B} (f : A → B) (l : list A) k a x :
  l !! k = Some a → f x = f a → f <$> <[k := x]> l = f <$> l.
Proof.
  intros Hk Hf. rewrite list_fmap_insert, Hf. apply list_insert_id. by rewrite list_lookup_fmap, Hk.
Qed.

Section primary.
Context (c : pool_config) (Hc : config_ok c).
Implicit Types (bs : list block) (h : heap) (ts : gmap nat ticket).

Lemma span_bounds t : ticket_ok c t → ticket_from t = RESERVED_FROM_PRIMARY →
  0 < chunk_size c ∧ 1 ≤ span_of c t ≤ 4 ∧ ticket_size t ≤ span_of c t * chunk_size c.
Proof.
  intros Ht Hp. pose proof (ok_size _ _ Ht). pose proof (ok_primary _ _ Ht Hp).
  pose proof (chunks_needed_bounds (ticket_size t) (chunk_size c) ltac:(lia)). unfold span_of. lia.
Qed.

(** Two blocks at different addresses do not overlap. *)
Lemma blocks_apart bs h ts b1 b2 : primary_store c bs h ts → heap_ok h → b1 ∈ bs → b2 ∈ bs →
  block_ptr b1 ≠ block_ptr b2 →
  range_disjoint (block_ptr b1) (16 * chunk_size c) (block_ptr b2) (16 * chunk_size c).
Proof.
  intros Hs Hh H1 H2 Hne.
  apply (prim_block _ _ _ _ Hs) in H1 as (_&_&H1). apply (prim_block _ _ _ _ Hs) in H2 as (_&_&H2).
  pose proof (heap_apart _ Hh _ _ _ _ H1 H2 Hne) as Hd. simpl in Hd. by rewrite (ok_block _ Hc) in Hd.
Qed.

Lemma block_ptr_inj bs h ts k1 k2 b1 b2 : primary_store c bs h ts →
  bs !! k1 = Some b1 → bs !! k2 = Some b2 → block_ptr b1 = block_ptr b2 → k1 = k2 ∧ b1 = b2.
Proof.
  intros Hs H1 H2 Heq. assert (k1 = k2) as ->; [|by simplify_eq].
  eapply NoDup_lookup; [apply (prim_nodup _ _ _ _ Hs)| |];
    rewrite list_lookup_fmap; [by rewrite H1|]. by rewrite H2, Heq.
Qed.

(** Frame: the store depends on the primary tickets and cells only. *)
Lemma primary_store_frame bs h h' ts ts' : primary_store c bs h ts →
  (∀ q x, cell_owner x = OwnPrimary → h !! q = Some x ↔ h' !! q = Some x) →
  (∀ id t, claimed RESERVED_FROM_PRIMARY t → ts !! id = Some t ↔ ts' !! id = Some t) →
  primary_store c bs h' ts'.
Proof.
  intros [H1 H2 H3 H4 H5 H6] Hh Hts. split; [done|..].
  - intros b Hb. destruct (H2 b Hb) as (?&?&?). split_and!; [done..|]. by apply Hh.
  - intros q x Hq Ho. by eapply H3; [apply Hh|].
  - intros id t Hid Ht. by eapply H4; [apply Hts|].
  - intros b k Hb Hk Hbit. destruct (H5 b k Hb Hk Hbit) as (id & t & i & ? & ? & ?).
    exists id, t, i. split_and!; [by apply Hts|naive_solver..].
  - intros id1 id2 t1 t2 ? Hid1 Hid2 ??. eapply H6; [done|by apply Hts..|done|done].
Qed.

(** The spans of two tickets placed in one block are disjoint. *)
Lemma spans_apart t1 t2 q i1 i2 k : 0 < chunk_size c →
  placed c t1 q i1 → placed c t2 q i2 →
  range_disjoint (ticket_ptr t1) (span_of c t1 * chunk_size c) (ticket_ptr t2) (span_of c t2 * chunk_size c) →
  in_span i1 (span_of c t1) k = true → in_span i2 (span_of c t2) k = true → False.
Proof.
  intros Hch (?&?&->) (?&?&->). unfold range_disjoint. rewrite !in_span_spec. nia.
Qed.

(** Placing the ticket [t'] of [id] in the free span [i] of block [b]. *)
Section place.
Context bs h ts (k : nat) (b : block) (i : Z) (id : nat) (t t' : ticket).
Context (Hs : primary_store c bs h ts) (Hh : heap_ok h) (Hok : ∀ id t, ts !! id = Some t → ticket_ok c t).
Context (Hk : bs !! k = Some b) (Hid : ts !! id = Some t) (Hnull : ticket_ptr t = NULL).
Context (Hok' : ticket_ok c t') (Hcl' : claimed RESERVED_FROM_PRIMARY t').
Context (Hpl : placed c t' (block_ptr b) i).
Context (Hfree : s_check_bits (alloc_bit_mask b) i (span_of c t') = false).

Lemma free_span_apart id2 t2 : id2 ≠ id → ts !! id2 = Some t2 → claimed RESERVED_FROM_PRIMARY t2 →
  range_disjoint (ticket_ptr t') (span_of c t' * chunk_size c)
                 (ticket_ptr t2) (span_of c t2 * chunk_size c).
Proof using All.
  intros Hne Hid2 Hcl2. destruct (span_bounds t2 (Hok _ _ Hid2) (proj1 Hcl2)) as (_ & Hn2 & _).
  destruct (span_bounds t' Hok' (proj1 Hcl')) as (Hch & Hn & Hsz).
  assert (b ∈ bs) as Hbin by by eapply list_elem_of_lookup_2.
  destruct (prim_block _ _ _ _ Hs b Hbin) as (_ & Hmask & _). destruct Hpl as (? & ? & Hptr).
  rewrite s_check_bits_false in Hfree by lia.
  destruct (prim_placed _ _ _ _ Hs _ _ Hid2 Hcl2) as (b2 & i2 & Hb2 & (?&?&Hptr2) & Hbits2).
  destruct (decide (block_ptr b = block_ptr b2)) as [Heq|Hneq].
  - apply list_elem_of_lookup in Hb2 as [k2 Hk2].
    destruct (block_ptr_inj _ _ _ _ _ _ _ Hs Hk Hk2 Heq) as [-> ->]. unfold range_disjoint.
    destruct (decide (i + span_of c t' ≤ i2 ∨ i2 + span_of c t2 ≤ i)) as [|Hov]; [nia|].
    assert (Z.testbit (alloc_bit_mask b2) (Z.max i i2) = false) by (apply Hfree, in_span_spec; lia).
    assert (Z.testbit (alloc_bit_mask b2) (Z.max i i2) = true) by (apply Hbits2, in_span_spec; lia).
    congruence.
  - pose proof (blocks_apart _ _ _ _ _ Hs Hh Hbin Hb2 Hneq). unfold range_disjoint in *. nia.
Qed.

Lemma primary_store_acquire :
  primary_store c (<[k := b <| alloc_bit_mask := s_set_bits (alloc_bit_mask b) i (span_of c t') |>]> bs)
    h (<[id := t']> ts).
Proof using All.
  pose proof free_span_apart as Hapart. set (b' := b <| alloc_bit_mask := _ |>).
  destruct (span_bounds t' Hok' (proj1 Hcl')) as (Hch & Hn & Hsz).
  assert (b ∈ bs) as Hbin by by eapply list_elem_of_lookup_2.
  destruct (prim_block _ _ _ _ Hs b Hbin) as (Hbs & Hmask & Hcell). destruct Hpl as (Hi0 & Hi16 & Hptr).
  assert (∀ x, 0 ≤ x → Z.testbit (alloc_bit_mask b') x
    = Z.testbit (alloc_bit_mask b) x || in_span i (span_of c t') x) as Hb'
    by (intros x Hx; by apply s_set_bits_testbit; try lia).
  assert (∀ id2 t2, ts !! id2 = Some t2 → claimed RESERVED_FROM_PRIMARY t2 →
    <[id := t']> ts !! id2 = Some t2) as Hold.
  { intros id2 t2 Hid2 Hcl2. rewrite lookup_insert_ne; [done|].
    intros ->. simplify_eq. by destruct Hcl2. }
  split.
  - rewrite (fmap_list_update _ _ _ b) by done. apply Hs.
  - intros b0 [->|(j & ? & Hj)]%elem_of_list_update.
    + split_and!; [done|apply s_set_bits_uint|done].
    + eapply Hs. by eapply list_elem_of_lookup_2.
  - rewrite (fmap_list_update _ _ _ b) by done. apply Hs.
  - intros id2 t2. rewrite lookup_insert. case_decide; intros Hid2 Hcl2; simplify_eq.
    + exists b', i. split_and!; [|done|].
      { eapply list_elem_of_lookup_2, list_lookup_insert_eq. by eapply lookup_lt_Some. }
      intros x Hx. rewrite Hb', Hx by (apply in_span_spec in Hx; lia). apply orb_true_r.
    + destruct (prim_placed _ _ _ _ Hs _ _ Hid2 Hcl2) as (b2 & i2 & Hb2 & Hpl2 & Hbits2).
      apply list_elem_of_lookup in Hb2 as [k2 Hk2]. destruct (decide (k2 = k)) as [->|].
      * simplify_eq. exists b', i2. split_and!; [|done|].
        { eapply list_elem_of_lookup_2, list_lookup_insert_eq. by eapply lookup_lt_Some. }
        intros x Hx. rewrite Hb', (Hbits2 x Hx); [done|]. destruct Hpl2. apply in_span_spec in Hx; lia.
      * exists b2, i2. split_and!; [|done..]. eapply list_elem_of_lookup_2.
        by rewrite list_lookup_insert_ne.
  - intros b0 x [->|(j & Hj & Hjb)]%elem_of_list_update Hx Hbit.
    + rewrite Hb' in Hbit by done. apply orb_true_iff in Hbit as [Hbit|Hspan].
      * destruct (prim_bits _ _ _ _ Hs b x Hbin Hx Hbit) as (id2 & t2 & i2 & Hid2 & Hcl2 & ?).
        exists id2, t2, i2. split_and!; [by apply Hold|naive_solver..].
      * exists id, t', i. split_and!; [apply lookup_insert_eq|done..].
    + apply list_elem_of_lookup_2 in Hjb.
      destruct (prim_bits _ _ _ _ Hs b0 x Hjb Hx Hbit) as (id2 & t2 & i2 & Hid2 & Hcl2 & ?).
      exists id2, t2, i2. split_and!; [by apply Hold|naive_solver..].
  - intros id1 id2 t1 t2 Hne. rewrite !lookup_insert.
    repeat case_decide; intros H1 H2 Hcl1 Hcl2; simplify_eq.
    + by eapply Hapart.
    + pose proof (Hapart id1 t1 Hne H1 Hcl1). unfold range_disjoint in *. naive_solver.
    + by eapply (prim_apart _ _ _ _ Hs id1 id2).
Qed.
End place.

(** A new block with no chunk in use. *)
Lemma primary_store_new_block bs h ts q :
  primary_store c bs h ts → h !! q = None →
  primary_store c (bs ++ [mkBlock (pool_block_size c) q 0])
    (<[q := mkCell (pool_block_size c) OwnPrimary]> h) ts.
Proof.
  intros [H1 H2 H3 H4 H5 H6] Hq. split; [..|done].
  - rewrite fmap_app. apply list.NoDup_app. split_and!; [done| |apply NoDup_singleton].
    intros x Hx. simpl. rewrite list_elem_of_singleton. intros ->.
    apply list_elem_of_fmap in Hx as (b & -> & Hb). destruct (H2 b Hb) as (_&_&Hb'). congruence.
  - intros b [Hb|Hb%list_elem_of_singleton]%elem_of_app; [|subst b].
    + destruct (H2 b Hb) as (?&?&Hb'). rewrite lookup_insert_ne by congruence. done.
    + simpl. rewrite lookup_insert_eq. split_and!; [done|by unfold uint; lia|done].
  - intros q' x. rewrite lookup_insert, fmap_app, elem_of_app. case_decide; simpl.
    + subst. rewrite list_elem_of_singleton. by right.
    + intros ??. left. by eapply H3.
  - intros id t Hid Ht. destruct (H4 id t Hid Ht) as (b & i & ? & ?). exists b, i.
    rewrite elem_of_app. naive_solver.
  - intros b k [Hb|Hb%list_elem_of_singleton]%elem_of_app Hk Hbit; [by apply H5|subst b].
    simpl in Hbit. by rewrite Z.bits_0 in Hbit.
Qed.

(** A ticket's memory lies in one block. *)
Lemma placed_block bs h ts t k1 k2 b1 b2 i : primary_store c bs h ts → heap_ok h →
  bs !! k1 = Some b1 → bs !! k2 = Some b2 → 0 < chunk_size c → 1 ≤ span_of c t →
  placed c t (block_ptr b1) i →
  block_ptr b2 ≤ ticket_ptr t < block_ptr b2 + 16 * chunk_size c → k1 = k2 ∧ b1 = b2.
Proof.
  intros Hs Hh H1 H2 ?? (?&?&Hptr) Hin. destruct (decide (block_ptr b1 = block_ptr b2)) as [Heq|Hne].
  - by eapply block_ptr_inj.
  - pose proof (list_elem_of_lookup_2 _ _ _ H1). pose proof (list_elem_of_lookup_2 _ _ _ H2).
    exfalso. destruct (blocks_apart bs h ts b1 b2) as [Hd|Hd]; [done..|nia|nia].
Qed.

(** Where the memory of a released ticket is. *)
Lemma release_to_blocks_placed bs h ts bs' id t :
  primary_store c bs h ts → heap_ok h → ticket_ok c t →
  ts !! id = Some t → claimed RESERVED_FROM_PRIMARY t →
  release_to_blocks bs (ticket_ptr t) (span_of c t) (chunk_size c) = Some bs' →
  ∃ k b i, bs !! k = Some b ∧ placed c t (block_ptr b) i ∧
    bs' = <[k := b <| alloc_bit_mask := s_clear_bits (alloc_bit_mask b) i (span_of c t) |>]> bs.
Proof.
  intros Hs Hh Hok Hid Hcl (k & b & Hk & Hin & ->)%release_to_blocks_spec.
  destruct (span_bounds t Hok (proj1 Hcl)) as (Hch & Hn & Hsz).
  destruct (prim_block _ _ _ _ Hs b) as (Hbs & _); [by eapply list_elem_of_lookup_2|].
  destruct (prim_placed _ _ _ _ Hs _ _ Hid Hcl) as (b2 & i & [k2 Hk2]%list_elem_of_lookup & Hpl & _).
  rewrite Hbs, (ok_block _ Hc) in Hin.
  destruct (placed_block _ _ _ t _ _ _ _ _ Hs Hh Hk2 Hk Hch ltac:(lia) Hpl Hin) as [-> ->].
  exists k, b, i. split_and!; [done..|]. destruct Hpl as (?&?&->).
  by replace ((block_ptr b + i * chunk_size c - block_ptr b) / chunk_size c) with i
    by (apply Z.div_unique_exact; lia).
Qed.

Lemma primary_store_release bs h ts bs' id t :
  primary_store c bs h ts → heap_ok h → (∀ id t, ts !! id = Some t → ticket_ok c t) →
  ts !! id = Some t → claimed RESERVED_FROM_PRIMARY t →
  release_to_blocks bs (ticket_ptr t) (span_of c t) (chunk_size c) = Some bs' →
  primary_store c bs' h (delete id ts) ∧ block_size <$> bs' = block_size <$> bs.
Proof.
  intros Hs Hh Hok Hid Hcl Hrel. pose proof (Hok _ _ Hid) as Ht.
  destruct (release_to_blocks_placed _ _ _ _ _ _ Hs Hh Ht Hid Hcl Hrel) as (k & b & i & Hk & Hpl & ->).
  destruct (span_bounds t Ht (proj1 Hcl)) as (Hch & Hn & Hsz). pose proof Hpl as (Hi0 & Hi16 & Hptr).
  assert (b ∈ bs) as Hbin by by eapply list_elem_of_lookup_2.
  destruct (prim_block _ _ _ _ Hs b Hbin) as (Hbs & Hmask & Hcell).
  set (b' := b <| alloc_bit_mask := _ |>).
  assert (∀ x, 0 ≤ x → Z.testbit (alloc_bit_mask b') x
    = Z.testbit (alloc_bit_mask b) x && negb (in_span i (span_of c t) x)) as Hb'
    by (intros x Hx; by apply s_clear_bits_testbit; try lia).
  split; [|by apply (fmap_list_update _ _ _ b)]. split.
  - rewrite (fmap_list_update _ _ _ b) by done. apply Hs.
  - intros b0 [->|(j & ? & Hj)]%elem_of_list_update.
    + split_and!; [done|apply s_clear_bits_uint|done].
    + eapply Hs. by eapply list_elem_of_lookup_2.
  - rewrite (fmap_list_update _ _ _ b) by done. apply Hs.
  - intros id2 t2 [Hne Hid2]%lookup_delete_Some Hcl2.
    destruct (prim_placed _ _ _ _ Hs _ _ Hid2 Hcl2) as (b2 & i2 & [k2 Hk2]%list_elem_of_lookup & Hpl2 & Hbits2).
    destruct (decide (k2 = k)) as [->|].
    + simplify_eq. exists b', i2. split_and!; [|done|].
      { eapply list_elem_of_lookup_2, list_lookup_insert_eq. by eapply lookup_lt_Some. }
      intros x Hx. rewrite Hb', (Hbits2 x Hx) by (destruct Hpl2; apply in_span_spec in Hx; lia). simpl.
      apply negb_true_iff, not_true_iff_false. intros Hx'.
      eapply (spans_apart t t2 (block_ptr b)); try done. by eapply (prim_apart _ _ _ _ Hs id id2).
    + exists b2, i2. split_and!; [|done..]. eapply list_elem_of_lookup_2. by rewrite list_lookup_insert_ne.
  - intros b0 x Hb0 Hx Hbit.
    assert (∃ k1 b1, bs !! k1 = Some b1 ∧ block_ptr b1 = block_ptr b0 ∧ Z.testbit (alloc_bit_mask b1) x = true ∧
      (b1 = b → in_span i (span_of c t) x = false)) as (k1 & b1 & Hk1 & Hbp & Hbit1 & Hb1').
    { apply elem_of_list_update in Hb0 as [->|(j & Hj & Hjb)].
      - rewrite Hb', andb_true_iff, negb_true_iff in Hbit by done. exists k, b. naive_solver.
      - exists j, b0. split_and!; [done..|]. intros ->. by destruct (block_ptr_inj _ _ _ _ _ _ _ Hs Hjb Hk). }
    destruct (prim_bits _ _ _ _ Hs b1 x) as (id2 & t2 & i2 & Hid2 & Hcl2 & Hpl2 & Hx2);
      [by eapply list_elem_of_lookup_2|done..|].
    exists id2, t2, i2. rewrite <-Hbp. split_and!; [|done..]. apply lookup_delete_Some. split; [|done].
    intros <-. simplify_eq.
    destruct (placed_block _ _ _ t _ _ _ _ _ Hs Hh Hk1 Hk Hch ltac:(lia) Hpl2) as [-> ->]; [nia|].
    assert (i2 = i) as -> by (destruct Hpl2 as (?&?&?); nia). naive_solver congruence.
  - intros id1 id2 t1 t2 ? [_ ?]%lookup_delete_Some [_ ?]%lookup_delete_Some. by eapply (prim_apart _ _ _ _ Hs).
Qed.
End primary.

(** * Trimming one array of blocks *)

Definition freed_ptrs (bs : list block) : list Z := block_ptr <$> filter (λ b, alloc_bit_mask b = 0) bs.
Notation kept_blocks bs := (filter (λ b, alloc_bit_mask b ≠ 0) bs).

Lemma trim_blocks_spec bs a (h : heap) kept a' h' : trim_blocks bs a h = (kept, a', h') →
  kept = kept_blocks bs ∧
  (∀ rest, a = wrap 64 (zsum block_size bs + rest) → a' = wrap 64 (zsum block_size kept + rest)) ∧
  (∀ q, h' !! q = if decide (q ∈ freed_ptrs bs) then None else h !! q).
Proof.
  unfold freed_ptrs. revert a h kept a' h'. induction bs as [|b bs IH]; intros a h kept a' h'; cbn [trim_blocks].
  - intros [= <- <- <-]. split_and!; [done..|]. intros q. by rewrite decide_False by apply not_elem_of_nil.
  - destruct (Z.eqb_spec (alloc_bit_mask b) 0) as [Hb|Hb].
    + intros (-> & Ha & Hh)%IH. rewrite !filter_cons. rewrite decide_False, decide_True by tauto.
      split_and!; [done| |].
      * intros rest ->. apply Ha. rewrite wrap_sub_l. f_equal. simpl. lia.
      * intros q. rewrite Hh. unfold aws_mem_release. rewrite lookup_delete, fmap_cons.
        repeat case_decide; set_solver.
    + destruct (trim_blocks bs a h) as [[kept0 a0] h0] eqn:Ht. intros [= <- <- <-].
      apply IH in Ht as (-> & Ha & Hh). rewrite !filter_cons. rewrite decide_True, decide_False by tauto.
      split_and!; [done| |done].
      intros rest ->. simpl. rewrite (Ha (block_size b + rest)); [f_equal; lia|f_equal; simpl; lia].
Qed.

(** Freeing the cells of unused blocks leaves the other cells alone. *)
Lemma trim_cells bs (h h' : heap) q x :
  (∀ q, h' !! q = if decide (q ∈ freed_ptrs bs) then None else h !! q) →
  h' !! q = Some x → h !! q = Some x ∧ q ∉ freed_ptrs bs.
Proof. intros Hh. rewrite Hh. by case_decide. Qed.

Lemma trim_cells_other bs (h h' : heap) (o : owner) q x :
  (∀ q, h' !! q = if decide (q ∈ freed_ptrs bs) then None else h !! q) →
  (∀ b, b ∈ bs → ∃ y, h !! block_ptr b = Some y ∧ cell_owner y = o) →
  cell_owner x ≠ o → h !! q = Some x ↔ h' !! q = Some x.
Proof.
  intros Hh Ho Hx. rewrite Hh. case_decide as Hd; [|done]. split; [|done]. intros Hq.
  apply list_elem_of_fmap in Hd as (b & -> & [_ Hb]%list_elem_of_filter).
  destruct (Ho b Hb) as (y & Hy & ?). congruence.
Qed.

Lemma kept_nodup bs : NoDup (block_ptr <$> bs) → NoDup (block_ptr <$> kept_blocks bs).
Proof. intros. eapply sublist_NoDup; [done|]. apply fmap_sublist, sublist_filter. Qed.

(** With distinct addresses, a kept block is not at a freed address. *)
Lemma kept_not_freed bs b : NoDup (block_ptr <$> bs) → b ∈ bs → alloc_bit_mask b ≠ 0 →
  block_ptr b ∉ freed_ptrs bs.
Proof.
  intros Hnd Hb Hm (b' & Heq & [Hm' Hb']%list_elem_of_filter)%list_elem_of_fmap. apply Hm.
  assert (b = b') as ->; [|done]. apply list_elem_of_lookup in Hb as [i Hi], Hb' as [j Hj].
  assert (i = j) as ->; [|congruence].
  eapply NoDup_lookup; [done| |]; rewrite list_lookup_fmap; [by rewrite Hi|]. by rewrite Hj, Heq.
Qed.

Lemma not_freed_kept bs q : q ∈ (block_ptr <$> bs) → q ∉ freed_ptrs bs → q ∈ (block_ptr <$> kept_blocks bs).
Proof.
  intros (b & -> & Hb)%list_elem_of_fmap Hq. apply list_elem_of_fmap_2, list_elem_of_filter. split; [|done].
  intros Hm. apply Hq, list_elem_of_fmap_2, list_elem_of_filter. done.
Qed.

Lemma primary_store_trim c bs (h h' : heap) (ts : gmap nat ticket) : config_ok c → primary_store c bs h ts →
  (∀ id t, ts !! id = Some t → ticket_ok c t) →
  (∀ q, h' !! q = if decide (q ∈ freed_ptrs bs) then None else h !! q) →
  primary_store c (kept_blocks bs) h' ts.
Proof.
  intros Hc [H1 H2 H3 H4 H5 H6] Hok Hh. split; [by apply kept_nodup| | | | |done].
  - intros b [Hm Hb]%list_elem_of_filter. destruct (H2 b Hb) as (?&?&?). split_and!; [done..|].
    rewrite Hh, decide_False by by apply kept_not_freed. done.
  - intros q x Hq Ho. eapply trim_cells in Hq as [Hq Hf]; [|done]. apply not_freed_kept; [by eapply H3|done].
  - intros id t Hid Hcl. destruct (H4 id t Hid Hcl) as (b & i & Hb & (?&?&?) & Hbits).
    exists b, i. split_and!; [|done..]. apply list_elem_of_filter. split; [|done]. intros Hm.
    destruct (span_bounds c t (Hok _ _ Hid) (proj1 Hcl)) as (_&?&_).
    specialize (Hbits i). rewrite in_span_spec, Hm, Z.bits_0 in Hbits. discriminate Hbits. lia.
  - intros b k [_ Hb]%list_elem_of_filter. by apply H5.
Qed.

(** * The heap *)

Lemma heap_ok_insert `{!AwsAllocator, !AwsAllocatorLaws _} h n p o :
  heap_ok h → aws_mem_acquire h n = Some p → heap_ok (<[p := mkCell n o]> h) ∧ h !! p = None ∧ 0 < p.
Proof.
  intros [Hpos Hap] (Hp & _ & Hnone & Hd)%aws_mem_acquire_fresh. split_and!; [|done..]. split.
  - intros q x. rewrite lookup_insert. case_decide; intros; simplify_eq; [done|]. by eapply Hpos.
  - intros q1 q2 x1 x2. rewrite !lookup_insert. repeat case_decide; intros Hq1 Hq2 Hne; simplify_eq; simpl.
    + by eapply Hd.
    + pose proof (Hd _ _ Hq1). unfold range_disjoint in *. lia.
    + by eapply Hap.
Qed.

Lemma heap_ok_subset (h h' : heap) : heap_ok h → (∀ q x, h' !! q = Some x → h !! q = Some x) → heap_ok h'.
Proof. intros [Hpos Hap] Hs. split; intros; [by eapply Hpos, Hs|by eapply Hap; eauto]. Qed.

(** * Special-sized storage *)

Lemma acquire_from_special_Some bs q bs' : acquire_from_special bs = Some (q, bs') →
  ∃ k b, bs !! k = Some b ∧ alloc_bit_mask b = 0 ∧ q = block_ptr b ∧
    bs' = <[k := b <| alloc_bit_mask := U16_MAX |>]> bs.
Proof.
  revert q bs'. induction bs as [|b bs IH]; intros q bs'; simpl; [done|].
  destruct (Z.eqb_spec (alloc_bit_mask b) 0).
  - intros [= <- <-]. by exists 0%nat, b.
  - destruct (acquire_from_special bs) as [[q0 bs0]|]; simpl; [|done]. intros [= <- <-].
    destruct (IH _ _ eq_refl) as (k & b' & ?). exists (S k), b'. simpl. naive_solver.
Qed.

Lemma release_to_special_Some bs q bs' : release_to_special bs q = Some bs' →
  ∃ k b, bs !! k = Some b ∧ alloc_bit_mask b = U16_MAX ∧ q = block_ptr b ∧
    bs' = <[k := b <| alloc_bit_mask := 0 |>]> bs.
Proof.
  revert bs'. induction bs as [|b bs IH]; intros bs'; simpl; [done|].
  destruct (Z.eqb_spec (block_ptr b) q); simpl; [destruct (Z.eqb_spec (alloc_bit_mask b) U16_MAX); simpl|].
  1: { intros [= <-]. by exists 0%nat, b. }
  all: destruct (release_to_special bs q) as [bs0|]; simpl; [|done]; intros [= <-];
    destruct (IH _ eq_refl) as (k & b' & ?); exists (S k), b'; simpl; naive_solver.
Qed.

Lemma release_to_special_is_Some bs q b : b ∈ bs → block_ptr b = q → alloc_bit_mask b = U16_MAX →
  is_Some (release_to_special bs q).
Proof.
  intros Hb Hq Hm. induction bs as [|b0 bs IH]; [by apply not_elem_of_nil in Hb|]. simpl.
  destruct (_ && _) eqn:Hr; [done|]. apply elem_of_cons in Hb as [->|Hb].
  - apply andb_false_iff in Hr as [?%Z.eqb_neq|?%Z.eqb_neq]; congruence.
  - destruct (IH Hb) as [bs' ->]. done.
Qed.

Section special.
Context (c : pool_config).
Implicit Types (sp : gmap Z special_block_list) (h : heap) (ts : gmap nat ticket).

(** Frame: the store depends on the special tickets and cells only. *)
Lemma special_store_frame sp h h' ts ts' : special_store c sp h ts →
  (∀ q x n, cell_owner x = OwnSpecial n → h !! q = Some x ↔ h' !! q = Some x) →
  (∀ id t, ticket_from t = RESERVED_FROM_SPECIAL → ts !! id = Some t ↔ ts' !! id = Some t) →
  special_store c sp h' ts'.
Proof.
  intros [H1 H2 H3 H4 H5 H6 H7] Hh Hts. split; [done|..].
  - intros n l b Hl Hb. destruct (H2 n l b Hl Hb) as (?&?&?). split_and!; [done| |done]. by eapply Hh.
  - intros q x n Hq Ho. by eapply H3; [eapply Hh|].
  - intros id t Hid Ht. by eapply H4; [apply Hts|].
  - intros id t Hid Ht. eapply H5; [apply Hts|]; by destruct Ht.
  - intros n l b Hl Hb Hm. destruct (H6 n l b Hl Hb Hm) as (id & t & ? & [??] & ?).
    exists id, t. split_and!; [by apply Hts|done|naive_solver..].
  - intros id1 id2 t1 t2 ? Hid1 Hid2 [??] [??]. eapply H7; [done|by apply Hts..|done|done].
Qed.

(** A reservation of a size that has a list. *)
Lemma special_store_reserve sp h ts id t : special_store c sp h ts → ts !! id = None →
  ticket_ptr t = NULL → is_Some (sp !! ticket_size t) → special_store c sp h (<[id := t]> ts).
Proof.
  intros [H1 H2 H3 H4 H5 H6 H7] Hid Hp Hs. split; [done..| | | |].
  - intros id' t'. rewrite lookup_insert. case_decide; intros; simplify_eq; [done|]. by eapply H4.
  - intros id' t'. rewrite lookup_insert. case_decide; intros ? [??]; simplify_eq. by eapply H5.
  - intros n l b Hl Hb Hm. destruct (H6 n l b Hl Hb Hm) as (id' & t' & ? & ?).
    exists id', t'. split; [|done]. rewrite lookup_insert_ne; [done|]. congruence.
  - intros id1 id2 t1 t2 Hne. rewrite !lookup_insert.
    repeat case_decide; intros ?? [??] [??]; simplify_eq. by eapply (H7 id1 id2).
Qed.

Lemma special_store_delete sp h ts id t : special_store c sp h ts → ts !! id = Some t →
  ticket_ptr t = NULL → special_store c sp h (delete id ts).
Proof.
  intros [H1 H2 H3 H4 H5 H6 H7] Hid Hp. split; [done..| | | |].
  - intros id' t' [_ ?]%lookup_delete_Some. by eapply H4.
  - intros id' t' [_ ?]%lookup_delete_Some. by eapply H5.
  - intros n l b Hl Hb Hm. destruct (H6 n l b Hl Hb Hm) as (id' & t' & ? & [? Hp'] & ?).
    exists id', t'. split; [|done]. apply lookup_delete_Some. split; [|done]. intros ->. congruence.
  - intros id1 id2 t1 t2 ? [_ ?]%lookup_delete_Some [_ ?]%lookup_delete_Some. by eapply H7.
Qed.

(** The ticket that holds a block has its size, and the block is marked used. *)
Lemma special_ticket_at sp h ts n l k b id t : special_store c sp h ts →
  sp !! n = Some l → special_list_blocks l !! k = Some b →
  ts !! id = Some t → claimed RESERVED_FROM_SPECIAL t → ticket_ptr t = block_ptr b →
  ticket_size t = n ∧ alloc_bit_mask b = U16_MAX.
Proof.
  intros [H1 H2 H3 H4 H5 H6 H7] Hl Hk Hid Hcl Heq. pose proof (list_elem_of_lookup_2 _ _ _ Hk) as Hb.
  destruct (H5 _ _ Hid Hcl) as (l2 & b2 & Hl2 & Hb2 & Hp2 & Hm2).
  pose proof (H2 _ _ _ Hl2 Hb2) as (_ & Hc2 & _). pose proof (H2 _ _ _ Hl Hb) as (_ & Hcb & _).
  rewrite Hp2, Heq, Hcb in Hc2. assert (ticket_size t = n) as Hn by congruence. split; [done|].
  rewrite Hn, Hl in Hl2. injection Hl2 as <-.
  apply list_elem_of_lookup in Hb2 as [k2 Hk2]. assert (k2 = k) as ->; [|congruence].
  destruct (H1 _ _ Hl) as (_ & _ & Hnd). eapply NoDup_lookup; [exact Hnd| |];
    rewrite list_lookup_fmap; [by rewrite Hk2|]. rewrite Hk. simpl. congruence.
Qed.

(** Remarking block [k] of the list of size [n], for a change of tickets that
    concerns this block only. *)
Section remark.
Context sp h ts (ts' : gmap nat ticket) (n : Z) (l : special_block_list) (k : nat) (b : block) (m : Z).
Context (Hs : special_store c sp h ts) (Hl : sp !! n = Some l) (Hk : special_list_blocks l !! k = Some b).
Context (Hm : m = 0 ∨ m = U16_MAX).
Context (Hothers : ∀ id t, claimed RESERVED_FROM_SPECIAL t → ticket_ptr t ≠ block_ptr b →
  ts !! id = Some t ↔ ts' !! id = Some t).
Context (Hreserved : ∀ id t, ts' !! id = Some t → ticket_from t = RESERVED_FROM_SPECIAL →
  is_Some (sp !! ticket_size t)).
Context (Hholder : m = U16_MAX → ∃ id t, ts' !! id = Some t ∧ claimed RESERVED_FROM_SPECIAL t ∧
  ticket_size t = n ∧ ticket_ptr t = block_ptr b).
Context (Hheld : ∀ id t, ts' !! id = Some t → claimed RESERVED_FROM_SPECIAL t →
  ticket_ptr t = block_ptr b → m = U16_MAX ∧ ticket_size t = n).
Context (Hone : ∀ id1 id2 t1 t2, ts' !! id1 = Some t1 → ts' !! id2 = Some t2 →
  claimed RESERVED_FROM_SPECIAL t1 → claimed RESERVED_FROM_SPECIAL t2 →
  ticket_ptr t1 = block_ptr b → ticket_ptr t2 = block_ptr b → id1 = id2).

Let b' := b <| alloc_bit_mask := m |>.
Let l' := l <| special_list_blocks ::= insert k b' |>.

Lemma remark_cases b0 : b0 ∈ special_list_blocks l' →
  b0 = b' ∨ b0 ∈ special_list_blocks l ∧ block_ptr b0 ≠ block_ptr b.
Proof using Hs Hl Hk.
  intros [->|(j & Hj & Hjb)]%elem_of_list_update; [by left|right]. split; [by eapply list_elem_of_lookup_2|].
  intros Heq. apply Hj. destruct (spec_list _ _ _ _ Hs _ _ Hl) as (_ & _ & Hnd).
  eapply NoDup_lookup; [exact Hnd| |]; rewrite list_lookup_fmap; [by rewrite Hjb|]. by rewrite Hk, Heq.
Qed.

Lemma remark_in : b' ∈ special_list_blocks l'.
Proof using Hk. eapply list_elem_of_lookup_2, list_lookup_insert_eq. by eapply lookup_lt_Some. Qed.

Lemma remark_other b0 : b0 ∈ special_list_blocks l → block_ptr b0 ≠ block_ptr b → b0 ∈ special_list_blocks l'.
Proof using Hk.
  intros [j Hj]%list_elem_of_lookup Hne. apply (list_elem_of_lookup_2 _ j).
  simpl. rewrite list_lookup_insert_ne; [done|]. intros ->. congruence.
Qed.

Lemma special_store_remark : special_store c (<[n := l']> sp) h ts'.
Proof using All.
  pose proof remark_cases as Hcase. pose proof remark_in as Hin. pose proof remark_other as Hother.
  pose proof (list_elem_of_lookup_2 _ _ _ Hk) as Hb.
  destruct Hs as [H1 H2 H3 H4 H5 H6 H7].
  assert (block_ptr <$> special_list_blocks l' = block_ptr <$> special_list_blocks l) as Hptrs
    by by apply (fmap_list_update _ _ _ b).
  assert (block_size b' = block_size b ∧ block_ptr b' = block_ptr b ∧ alloc_bit_mask b' = m
    ∧ buffer_size l' = buffer_size l) as (Hbs & Hbp & Hbm & Hls) by done. clearbody l' b'.
  split.
  - intros n0 l0. rewrite lookup_insert. case_decide; intros; simplify_eq; [|by apply H1].
    rewrite Hptrs, Hls. by apply H1.
  - intros n0 l0 b0. rewrite lookup_insert. case_decide; intros Hl0 Hb0; simplify_eq; [|by eapply H2].
    apply Hcase in Hb0 as [->|[Hb0 _]]; [|by eapply H2]. rewrite Hbs, Hbp. by destruct (H2 _ _ _ Hl Hb) as (?&?&?).
  - intros q x n0 Hq Ho. destruct (H3 q x n0 Hq Ho) as (l0 & Hl0 & Hq0). rewrite lookup_insert.
    case_decide; [|by eauto]. simplify_eq. rewrite <-Hptrs in Hq0. eauto.
  - intros id t Hid Hf. destruct (Hreserved _ _ Hid Hf) as [l0 Hl0]. rewrite lookup_insert. by case_decide.
  - intros id t Hid Hcl. destruct (decide (ticket_ptr t = block_ptr b)) as [Heq|Hne].
    + destruct (Hheld _ _ Hid Hcl Heq) as [-> ->]. exists l', b'. rewrite lookup_insert_eq. split_and!; congruence || done.
    + apply Hothers in Hid; [|done..]. destruct (H5 _ _ Hid Hcl) as (l0 & b0 & Hl0 & Hb0 & Hp0 & Hm0).
      rewrite lookup_insert. case_decide; [|by eauto 10]. simplify_eq. exists l', b0.
      split_and!; [done| |done..]. apply Hother; congruence.
  - intros n0 l0 b0 Hl0 Hb0 Hm0.
    assert (n0 = n ∧ l0 = l' ∧ b0 = b' ∨ ∃ l1, sp !! n0 = Some l1 ∧ b0 ∈ special_list_blocks l1 ∧
      block_ptr b0 ≠ block_ptr b) as [(-> & -> & ->)|(l1 & Hl1 & Hb1 & Hne)].
    { rewrite lookup_insert in Hl0. case_decide; simplify_eq.
      - apply Hcase in Hb0 as [->|[??]]; eauto.
      - right. exists l0. split_and!; [done..|]. intros Heq.
        pose proof (H2 _ _ _ Hl0 Hb0) as (_&Hx&_). pose proof (H2 _ _ _ Hl Hb) as (_&Hy&_). congruence. }
    + rewrite Hbp. apply Hholder. congruence.
    + destruct (H6 _ _ _ Hl1 Hb1 Hm0) as (id & t & Hid & Hcl & ? & Hp). exists id, t.
      split; [|done]. apply Hothers; congruence.
  - intros id1 id2 t1 t2 Hne Hid1 Hid2 Hcl1 Hcl2 Heq.
    destruct (decide (ticket_ptr t1 = block_ptr b)) as [Hb1|Hb1]; [by eapply Hne, Hone; eauto; congruence|].
    apply Hothers in Hid1, Hid2; [|done|congruence|done|congruence]. by eapply (H7 id1 id2).
Qed.
End remark.

(** Handing the unused block [k] of the list of its size to ticket [id]. *)
Lemma special_store_acquire sp h ts id t l k b : special_store c sp h ts →
  ts !! id = Some t → ticket_from t = RESERVED_FROM_SPECIAL → ticket_ptr t = NULL →
  sp !! ticket_size t = Some l → special_list_blocks l !! k = Some b →
  alloc_bit_mask b = 0 → block_ptr b ≠ NULL →
  special_store c (<[ticket_size t := l <| special_list_blocks ::= insert k (b <| alloc_bit_mask := U16_MAX |>) |>]> sp)
    h (<[id := t <| ticket_ptr := block_ptr b |>]> ts).
Proof.
  intros Hs Hid Hf Hp Hl Hk Hm Hb.
  assert (∀ id0 t0, ts !! id0 = Some t0 → claimed RESERVED_FROM_SPECIAL t0 → ticket_ptr t0 ≠ block_ptr b) as Hno.
  { intros id0 t0 Hid0 Hcl Heq. destruct (special_ticket_at _ _ _ _ _ _ _ _ _ Hs Hl Hk Hid0 Hcl Heq) as [_ Hx].
    rewrite Hm in Hx. done. }
  eapply special_store_remark; [done..|by right| | | | |].
  - intros id0 t0 [_ Hcl] Hne. destruct (decide (id0 = id)) as [->|]; [|by rewrite lookup_insert_ne].
    rewrite lookup_insert_eq. split; intros; simplify_eq.
  - intros id0 t0. rewrite lookup_insert. case_decide; intros; simplify_eq; [done|]. by eapply spec_reserved.
  - intros _. exists id. eexists. by rewrite lookup_insert_eq.
  - intros id0 t0. rewrite lookup_insert. case_decide; intros Hid0 Hcl Heq; simplify_eq; [done|].
    by destruct (Hno _ _ Hid0).
  - intros id1 id2 t1 t2. rewrite !lookup_insert.
    repeat case_decide; intros Hid1 Hid2 ????; simplify_eq; [done|by destruct (Hno _ _ Hid2)|by destruct (Hno _ _ Hid1)..].
Qed.

(** A new block that no ticket uses yet. *)
Lemma special_store_new_block sp h ts n l q : special_store c sp h ts → sp !! n = Some l → h !! q = None →
  special_store c (<[n := l <| special_list_blocks ::= λ bs, bs ++ [mkBlock n q 0] |>]> sp)
    (<[q := mkCell n (OwnSpecial n)]> h) ts.
Proof.
  intros Hs Hl Hq. destruct Hs as [H1 H2 H3 H4 H5 H6 H7].
  assert (∀ n l b, sp !! n = Some l → b ∈ special_list_blocks l → block_ptr b ≠ q) as Hne.
  { intros n0 l0 b0 Hl0 Hb0 <-. destruct (H2 _ _ _ Hl0 Hb0) as (_ & Hx & _). congruence. }
  split; [| | | | | |done].
  - intros n0 l0. rewrite lookup_insert. case_decide; intros; simplify_eq; [|by apply H1].
    destruct (H1 _ _ Hl) as (?&?&?). split_and!; [done..|]. simpl. rewrite fmap_app.
    apply list.NoDup_app. split_and!; [done| |apply NoDup_singleton].
    intros q' (b0 & -> & Hb0)%list_elem_of_fmap ?%list_elem_of_singleton. by eapply Hne.
  - intros n0 l0 b0 Hl0 Hb0.
    assert (n0 = n ∧ b0 = mkBlock n q 0 ∨ ∃ l1, sp !! n0 = Some l1 ∧ b0 ∈ special_list_blocks l1)
      as [[-> ->]|(l1 & Hl1 & Hb1)].
    { rewrite lookup_insert in Hl0. case_decide; simplify_eq; [|by eauto].
      simpl in Hb0. apply elem_of_app in Hb0 as [?| ->%list_elem_of_singleton]; eauto. }
    + simpl. rewrite lookup_insert_eq. auto.
    + rewrite lookup_insert_ne; [by eapply H2|]. by apply not_eq_sym, (Hne _ _ _ Hl1).
  - intros q' x n0. rewrite lookup_insert. case_decide; intros Hx Ho; simplify_eq.
    + simpl in *. simplify_eq. eexists. rewrite lookup_insert_eq. split; [done|]. simpl.
      rewrite fmap_app. apply elem_of_app. right. by apply list_elem_of_singleton.
    + destruct (H3 _ _ _ Hx Ho) as (l0 & Hl0 & Hq0). rewrite lookup_insert.
      case_decide; [|by eauto]. simplify_eq. eexists. split; [done|]. simpl.
      rewrite fmap_app. apply elem_of_app. by left.
  - intros id t Hid Hf. rewrite lookup_insert. case_decide; [done|]. by eapply H4.
  - intros id t Hid Hcl. destruct (H5 _ _ Hid Hcl) as (l0 & b0 & Hl0 & Hb0 & ?).
    rewrite lookup_insert. case_decide; [|by eauto]. simplify_eq. eexists _, b0. split; [done|].
    split; [|done]. simpl. apply elem_of_app. by left.
  - intros n0 l0 b0. rewrite lookup_insert. case_decide; intros Hl0 Hb0 Hm; simplify_eq; [|by eapply H6].
    simpl in Hb0. apply elem_of_app in Hb0 as [Hb0| ->%list_elem_of_singleton]; [by eapply H6|done].
Qed.

(** Returning the block of ticket [id]. *)
Lemma special_store_release sp h ts id t l bs : special_store c sp h ts →
  ts !! id = Some t → claimed RESERVED_FROM_SPECIAL t → sp !! ticket_size t = Some l →
  release_to_special (special_list_blocks l) (ticket_ptr t) = Some bs →
  special_store c (<[ticket_size t := l <| special_list_blocks := bs |>]> sp) h (delete id ts)
  ∧ block_size <$> bs = block_size <$> special_list_blocks l.
Proof.
  intros Hs Hid Hcl Hl (k & b & Hk & Hm & Hp & ->)%release_to_special_Some.
  split; [|by eapply fmap_list_update].
  assert (∀ id0 t0, delete id ts !! id0 = Some t0 → claimed RESERVED_FROM_SPECIAL t0 →
    ticket_ptr t0 ≠ block_ptr b) as Hno.
  { intros id0 t0 [Hne Hid0]%lookup_delete_Some Hcl0 Heq.
    eapply (spec_apart _ _ _ _ Hs id id0); [done..|]. congruence. }
  eapply (special_store_remark _ _ _ _ _ l); [done..|by left| | | | |].
  - intros id0 t0 _ Hne. rewrite lookup_delete_Some. split; [|by intros []]. intros Hid0.
    split; [|done]. intros <-. congruence.
  - intros id0 t0 [_ Hid0]%lookup_delete_Some. by eapply spec_reserved.
  - done.
  - intros id0 t0 Hid0 Hcl0 Heq. by destruct (Hno _ _ Hid0).
  - intros id1 id2 t1 t2 Hid1 _ Hcl1 _ Heq. by destruct (Hno _ _ Hid1).
Qed.

Lemma release_to_special_used sp h ts id t l : special_store c sp h ts →
  ts !! id = Some t → claimed RESERVED_FROM_SPECIAL t → sp !! ticket_size t = Some l →
  is_Some (release_to_special (special_list_blocks l) (ticket_ptr t)).
Proof.
  intros Hs Hid Hcl Hl. destruct (spec_used _ _ _ _ Hs _ _ Hid Hcl) as (l' & b & Hl' & Hb & Hp & Hm).
  simplify_eq. by eapply release_to_special_is_Some.
Qed.
End special.
