(* ===== verification/BufferPoolOps.v ===== *)
(** The critical sections of the default buffer pool preserve its invariant:
    trimming, reserving, acquiring the memory of a ticket and returning it
    (source/s3_default_buffer_pool.c, the functions whose name ends in [_synced] and
    the locked part of [s_aws_ticket_wrapper_destroy]). *)

From S2P Require Import Prelude AwsCommon BufferPool BufferPoolInv.

(** * Trimming *)

(** [p'] differs from [p] in the storage only. *)
Definition trimmed (p p' : buffer_pool) : Prop :=
  p' = p <| primary_allocated := primary_allocated p' |> <| blocks := blocks p' |>
         <| special_blocks := special_blocks p' |> <| special_blocks_allocated := special_blocks_allocated p' |>.

#[export] Instance trimmed_refl : Reflexive trimmed.
Proof. intros []. reflexivity. Qed.
#[export] Instance trimmed_trans : Transitive trimmed.
Proof. intros [] [] [] [= ] [= ]. unfold trimmed; simpl. by subst. Qed.

Section trim_frame.
Context (p p' : buffer_pool) (Ht : trimmed p p').

Lemma trimmed_config : config p' = config p. Proof using Ht. by rewrite Ht. Qed.
Lemma trimmed_reserved a : reserved_of a p' = reserved_of a p.
Proof using Ht. rewrite Ht. by destruct a. Qed.
Lemma trimmed_used a : used_of a p' = used_of a p.
Proof using Ht. rewrite Ht. by destruct a. Qed.
Lemma trimmed_forced : forced_used p' = forced_used p. Proof using Ht. by rewrite Ht. Qed.
Lemma trimmed_pending : pending_reserves p' = pending_reserves p. Proof using Ht. by rewrite Ht. Qed.
Lemma trimmed_preallocated : preallocated_buffers p' = preallocated_buffers p.
Proof using Ht. by rewrite Ht. Qed.

Lemma trimmed_accounting ts : accounting p ts → allocation_counters p' → accounting p' ts.
Proof using Ht.
  intros [H1 H2 H3 H4 _ _] [H5 H6]. split; [| | | |done..].
  - by rewrite trimmed_config.
  - intros a. by rewrite trimmed_reserved.
  - intros a. by rewrite trimmed_used.
  - by rewrite trimmed_forced.
Qed.
End trim_frame.

Section special_trim.
Context (c : pool_config).
Implicit Types (sp : gmap Z special_block_list) (h : heap) (ts : gmap nat ticket).

Lemma special_store_trim sp h h' ts n l : special_store c sp h ts → sp !! n = Some l →
  (∀ q, h' !! q = if decide (q ∈ freed_ptrs (special_list_blocks l)) then None else h !! q) →
  special_store c
    (<[n := l <| special_list_blocks := filter (λ b, alloc_bit_mask b ≠ 0) (special_list_blocks l) |>]> sp) h' ts.
Proof.
  intros [H1 H2 H3 H4 H5 H6 H7] Hl Hh.
  set (kept := filter _ _). destruct (H1 _ _ Hl) as (_ & _ & Hnd).
  assert (∀ n' l' b, sp !! n' = Some l' → b ∈ special_list_blocks l' →
    n' = n ∧ b ∈ kept ∨ n' = n ∧ alloc_bit_mask b = 0 ∨ n' ≠ n) as Hcase.
  { intros n' l' b Hl' Hb. destruct (decide (n' = n)) as [->|]; [|by auto]. simplify_eq.
    destruct (decide (alloc_bit_mask b = 0)); [by auto|]. left. split; [done|]. by apply list_elem_of_filter. }
  assert (∀ n' l' b, sp !! n' = Some l' → b ∈ special_list_blocks l' → n' ≠ n ∨ b ∈ kept →
    h' !! block_ptr b = h !! block_ptr b) as Hkeep.
  { intros n' l' b Hl' Hb Hk. rewrite Hh. destruct (decide _) as [Hd|]; [|done]. exfalso.
    destruct Hk as [Hk|Hk]; [|by apply list_elem_of_filter in Hk as [??]; eapply kept_not_freed; eauto].
    apply list_elem_of_fmap in Hd as (b2 & Heq & [_ Hb2]%list_elem_of_filter).
    pose proof (H2 _ _ _ Hl' Hb) as (_ & Hx & _). pose proof (H2 _ _ _ Hl Hb2) as (_ & Hy & _). congruence. }
  split; [| | | | | |done].
  - intros n0 l0. rewrite lookup_insert. case_decide; intros; simplify_eq; [|by apply H1].
    destruct (H1 _ _ Hl) as (?&?&?). split_and!; [done..|]. by apply kept_nodup.
  - intros n0 l0 b0. rewrite lookup_insert. case_decide; intros Hl0 Hb0; simplify_eq; simpl in *.
    + assert (b0 ∈ special_list_blocks l) as Hb by by apply list_elem_of_filter in Hb0 as [??].
      rewrite (Hkeep _ _ _ Hl Hb) by auto. by eapply H2.
    + rewrite (Hkeep _ _ _ Hl0 Hb0) by auto. by eapply H2.
  - intros q x n0 Hq Ho. eapply trim_cells in Hq as [Hq Hf]; [|done].
    destruct (H3 _ _ _ Hq Ho) as (l0 & Hl0 & Hq0). rewrite lookup_insert. case_decide; [|by eauto].
    simplify_eq. eexists. split; [done|]. by apply not_freed_kept.
  - intros id t Hid Hf. rewrite lookup_insert. case_decide; [done|]. by eapply H4.
  - intros id t Hid Hcl. destruct (H5 _ _ Hid Hcl) as (l0 & b0 & Hl0 & Hb0 & Hp & Hm).
    rewrite lookup_insert. case_decide; [|by eauto 10]. simplify_eq.
    eexists _, b0. split_and!; [done| |done..]. apply list_elem_of_filter. by rewrite Hm.
  - intros n0 l0 b0. rewrite lookup_insert. case_decide; intros Hl0 Hb0 Hm; simplify_eq; [|by eapply H6].
    apply list_elem_of_filter in Hb0 as [??]. by eapply H6.
Qed.

(** A list with no blocks and no tickets can go. *)
Lemma special_store_drop sp h ts n l : special_store c sp h ts → sp !! n = Some l →
  special_list_blocks l = [] →
  (∀ id t, ts !! id = Some t → ticket_from t = RESERVED_FROM_SPECIAL → ticket_ptr t ≠ NULL) →
  special_store c (delete n sp) h ts.
Proof.
  intros [H1 H2 H3 H4 H5 H6 H7] Hl Hempty Hno.
  assert (∀ id t, ts !! id = Some t → ticket_from t = RESERVED_FROM_SPECIAL → ticket_size t ≠ n) as Hsize.
  { intros id t Hid Hf <-. destruct (H5 _ _ Hid) as (l0 & b0 & Hl0 & Hb0 & _); [split; eauto|].
    simplify_eq. rewrite Hempty in Hb0. by apply not_elem_of_nil in Hb0. }
  split; [| | | | | |done].
  - intros n0 l0 [_ ?]%lookup_delete_Some. by apply H1.
  - intros n0 l0 b0 [_ ?]%lookup_delete_Some. by apply H2.
  - intros q x n0 Hq Ho. destruct (H3 _ _ _ Hq Ho) as (l0 & Hl0 & Hq0). exists l0.
    split; [|done]. apply lookup_delete_Some. split; [|done]. intros <-. simplify_eq.
    rewrite Hempty in Hq0. by apply not_elem_of_nil in Hq0.
  - intros id t Hid Hf. rewrite lookup_delete_ne; [by eapply H4|]. apply not_eq_sym. by eapply Hsize.
  - intros id t Hid Hcl. rewrite lookup_delete_ne; [by eapply H5|]. apply not_eq_sym.
    eapply Hsize; [done|apply Hcl].
  - intros n0 l0 b0 [_ ?]%lookup_delete_Some. by apply H6.
Qed.

(** A new size. *)
Lemma special_store_add sp h ts n : special_store c sp h ts → sp !! n = None → primary_size_cutoff c < n →
  special_store c (<[n := mkSpecial n []]> sp) h ts.
Proof.
  intros [H1 H2 H3 H4 H5 H6 H7] Hn Hcut. split; [| | | | | |done].
  - intros n0 l0. rewrite lookup_insert. case_decide; intros; simplify_eq; [|by apply H1].
    split_and!; [done..|apply NoDup_nil_2].
  - intros n0 l0 b0. rewrite lookup_insert. case_decide; intros Hl0 Hb0; simplify_eq; [|by eapply H2].
    by apply not_elem_of_nil in Hb0.
  - intros q x n0 Hq Ho. destruct (H3 _ _ _ Hq Ho) as (l0 & ? & ?). exists l0.
    rewrite lookup_insert_ne by congruence. done.
  - intros id t Hid Hf. destruct (H4 _ _ Hid Hf). rewrite lookup_insert_ne by congruence. done.
  - intros id t Hid Hcl. destruct (H5 _ _ Hid Hcl) as (l0 & b0 & ? & ?). exists l0, b0.
    rewrite lookup_insert_ne by congruence. done.
  - intros n0 l0 b0. rewrite lookup_insert. case_decide; intros Hl0 Hb0; simplify_eq; [|by eapply H6].
    by apply not_elem_of_nil in Hb0.
Qed.
End special_trim.

Lemma secondary_store_frame (h h' : heap) (ts ts' : gmap nat ticket) : secondary_store h ts →
  (∀ q x id, cell_owner x = OwnSecondary id → h !! q = Some x ↔ h' !! q = Some x) →
  (∀ id t, claimed RESERVED_FROM_SECONDARY t → ts !! id = Some t ↔ ts' !! id = Some t) →
  secondary_store h' ts'.
Proof.
  intros [H1 H2] Hh Hts. split.
  - intros id t Hid Hcl. eapply Hh; [done|]. by apply H1; [apply Hts|].
  - intros q x id Hq Ho. destruct (H2 q x id) as (t & ? & ? & ?); [by eapply Hh|done|].
    exists t. split_and!; [by apply Hts|done..].
Qed.

Lemma trim_heap_ok bs (h h' : heap) : heap_ok h →
  (∀ q, h' !! q = if decide (q ∈ freed_ptrs bs) then None else h !! q) → heap_ok h'.
Proof. intros Hh Hq. eapply heap_ok_subset; [done|]. intros q x. rewrite Hq. by case_decide. Qed.

(** The blocks that trimming leaves are in use. *)
Definition all_used (bs : list block) : Prop := ∀ b, b ∈ bs → alloc_bit_mask b ≠ 0.

Lemma trim_primary_inv p h ts kept a h' : inv p h ts →
  trim_blocks (blocks p) (primary_allocated p) h = (kept, a, h') →
  inv (p <| primary_allocated := a |> <| blocks := kept |>) h' ts ∧ all_used kept.
Proof.
  intros [Hc Ha Hp Hs Hsec Hh] (-> & Halloc & Hq)%trim_blocks_spec.
  split; [|by intros b [??]%list_elem_of_filter].
  assert (∀ o q x, o = OwnPrimary → cell_owner x ≠ o → h !! q = Some x ↔ h' !! q = Some x) as Hother.
  { intros o q x -> Hx. eapply trim_cells_other; [done| |done]. intros b Hb.
    destruct (prim_block _ _ _ _ Hp b Hb) as (_&_&?). by eexists. }
  split; simpl; [done| | | | |by eapply trim_heap_ok].
  - apply (trimmed_accounting p); [done|done|]. split; simpl; [|apply Ha].
    rewrite (Halloc 0), Z.add_0_r; [done|]. rewrite Z.add_0_r. apply Ha.
  - eapply primary_store_trim; [done..| |done]. apply Ha.
  - eapply special_store_frame; [done| |done]. intros q x n Ho. eapply Hother; [done|]. by rewrite Ho.
  - eapply secondary_store_frame; [done| |done]. intros q x n Ho. eapply Hother; [done|]. by rewrite Ho.
Qed.

Lemma trim_list_inv p h ts n l kept a h' : inv p h ts → special_blocks p !! n = Some l →
  trim_blocks (special_list_blocks l) (special_blocks_allocated p) h = (kept, a, h') →
  inv (p <| special_blocks_allocated := a |>
         <| special_blocks ::= insert n (l <| special_list_blocks := kept |>) |>) h' ts ∧ all_used kept.
Proof.
  intros [Hc Ha Hp Hs Hsec Hh] Hl (-> & Halloc & Hq)%trim_blocks_spec.
  split; [|by intros b [??]%list_elem_of_filter].
  assert (∀ o q x, o = OwnSpecial n → cell_owner x ≠ o → h !! q = Some x ↔ h' !! q = Some x) as Hother.
  { intros o q x -> Hx. eapply trim_cells_other; [done| |done]. intros b Hb.
    destruct (spec_block _ _ _ _ Hs _ _ b Hl Hb) as (_&?&_). by eexists. }
  split; simpl; [done| | | | |by eapply trim_heap_ok].
  - apply (trimmed_accounting p); [done|done|]. split; simpl; [apply Ha|].
    rewrite (msum_update _ _ _ l) by done. simpl.
    set (total := msum _ _) in *. set (f := zsum _ (special_list_blocks l)).
    rewrite (Halloc (total - f)); [f_equal; lia|]. rewrite (acc_special_allocated _ _ Ha). f_equal. lia.
  - eapply primary_store_frame; [done| |done]. intros q x Ho. eapply Hother; [done|]. by rewrite Ho.
  - by eapply special_store_trim.
  - eapply secondary_store_frame; [done| |done]. intros q x m Ho. eapply Hother; [done|]. by rewrite Ho.
Qed.

(** With nothing reserved in special lists, every special ticket is claimed. *)
Lemma special_all_claimed p ts id t : accounting p ts → special_blocks_reserved p = 0 →
  ts !! id = Some t → ticket_from t = RESERVED_FROM_SPECIAL → ticket_ptr t ≠ NULL.
Proof.
  intros Ha Hr Hid Hf Hp. pose proof (acc_tickets _ _ Ha) as Hts.
  pose proof (acc_reserved _ _ Ha RESERVED_FROM_SPECIAL) as Hsum. simpl in Hsum. rewrite Hr in Hsum.
  pose proof (selector_nonneg _ _ _ (reserved_selector RESERVED_FROM_SPECIAL) (tickets_ok_delete _ _ _ _ Hts Hid)) as Hge.
  rewrite (msum_delete _ _ _ t) in Hge by done. pose proof (ok_size _ _ (tks_ok _ _ Hts _ _ Hid)).
  assert (reserved_bytes RESERVED_FROM_SPECIAL t = ticket_size t); [|lia].
  unfold reserved_bytes, in_area, is_claimed. rewrite Hf, Hp.
  destruct (ticket_forced t) eqn:Hforced; [|done]. by destruct (ok_forced _ _ (tks_ok _ _ Hts _ _ Hid)).
Qed.

Lemma drop_list_inv p h ts n l : inv p h ts → special_blocks p !! n = Some l →
  special_list_blocks l = [] → special_blocks_reserved p = 0 →
  inv (p <| special_blocks ::= delete n |>) h ts.
Proof.
  intros [Hc Ha Hp Hs Hsec Hh] Hl Hempty Hr. split; simpl; [done| |done| |done..].
  - apply (trimmed_accounting p); [by destruct p|done|]. split; simpl; [apply Ha|].
    rewrite (msum_delete _ _ _ l), Hempty, zsum_nil, Z.sub_0_r by done. apply Ha.
  - eapply special_store_drop; [done..|]. intros id t Hid Hf. by eapply special_all_claimed.
Qed.

(** One entry of the hash table. *)
Lemma trim_special_entry_inv p h ts n p' h' : inv p h ts → trim_special_entry (p, h) n = (p', h') →
  inv p' h' ts ∧ trimmed p p' ∧
  (∀ l, special_blocks p' !! n = Some l → all_used (special_list_blocks l)) ∧
  (∀ m, m ≠ n → special_blocks p' !! m = special_blocks p !! m).
Proof.
  intros Hinv. simpl. destruct (special_blocks p !! n) as [l|] eqn:Hl; [|intros [= <- <-]; by rewrite Hl].
  destruct (trim_blocks _ _ _) as [[kept a] h0] eqn:Ht.
  destruct (trim_list_inv _ _ _ _ _ _ _ _ Hinv Hl Ht) as [Hinv' Hused].
  destruct (_ && _) eqn:Hdrop; intros [= <- <-]; simpl.
  - apply andb_true_iff in Hdrop as [[Hlen%Nat.eqb_eq Hr%Z.eqb_eq]%andb_true_iff _].
    apply nil_length_inv in Hlen as ->.
    eapply drop_list_inv in Hinv'; [|apply lookup_insert_eq|done|done].
    simpl in Hinv'. rewrite delete_insert_eq in Hinv'. split_and!; [done|by destruct p| |].
    + intros l0. by rewrite lookup_delete_eq.
    + intros m Hm. by rewrite lookup_delete_ne.
  - split_and!; [done|by destruct p| |].
    + intros l0. rewrite lookup_insert_eq. by intros [= <-].
    + intros m Hm. by rewrite lookup_insert_ne.
Qed.

Lemma trim_entries_inv keys p h ts p' h' : inv p h ts → foldl trim_special_entry (p, h) keys = (p', h') →
  inv p' h' ts ∧ trimmed p p' ∧
  (∀ n l, n ∈ keys → special_blocks p' !! n = Some l → all_used (special_list_blocks l)) ∧
  (∀ m, m ∉ keys → special_blocks p' !! m = special_blocks p !! m).
Proof.
  revert p h. induction keys as [|n keys IH]; intros p h Hinv; cbn [foldl].
  { intros [= <- <-]. split_and!; [done..| |done]. intros ?? []%not_elem_of_nil. }
  destruct (trim_special_entry (p, h) n) as [p1 h1] eqn:Hn. intros Hk.
  destruct (trim_special_entry_inv _ _ _ _ _ _ Hinv Hn) as (Hinv1 & Ht1 & Hu1 & Hs1).
  destruct (IH _ _ Hinv1 Hk) as (Hinv2 & Ht2 & Hu2 & Hs2).
  split_and!; [done|by transitivity p1| |].
  - intros m l [->|Hm]%elem_of_cons Hl; [|by eapply Hu2].
    destruct (decide (n ∈ keys)); [by eapply Hu2|]. rewrite Hs2 in Hl by done. by eapply Hu1.
  - intros m [??]%not_elem_of_cons. rewrite Hs2, Hs1; done.
Qed.

Lemma trim_special_inv p h ts p' h' : inv p h ts → s_buffer_pool_trim_special_blocks_synced p h = (p', h') →
  inv p' h' ts ∧ trimmed p p' ∧
  ∀ n l, special_blocks p' !! n = Some l → all_used (special_list_blocks l).
Proof.
  intros Hinv Ht. destruct (trim_entries_inv _ _ _ _ _ _ Hinv Ht) as (? & ? & Hu & Hs).
  split_and!; [done..|]. intros n l Hl. eapply (Hu n); [|done].
  destruct (decide (n ∈ (map_to_list (special_blocks p)).*1)) as [|Hn]; [done|].
  rewrite Hs in Hl by done. destruct Hn. apply list_elem_of_fmap. exists (n, l). split; [done|].
  by apply elem_of_map_to_list.
Qed.

Lemma trim_special_blocks p h : blocks (s_buffer_pool_trim_special_blocks_synced p h).1 = blocks p.
Proof.
  unfold s_buffer_pool_trim_special_blocks_synced. generalize ((map_to_list (special_blocks p)).*1). intros keys.
  revert p h. induction keys as [|n keys IH]; intros p h; [done|]. simpl.
  destruct (special_blocks p !! n) as [l|]; [|apply IH].
  destruct (trim_blocks _ _ _) as [[kept a] h0]. by destruct (_ && _); rewrite IH.
Qed.

Lemma trim_inv p h ts p' h' : inv p h ts → s_buffer_pool_trim_synced p h = (p', h') →
  inv p' h' ts ∧ trimmed p p' ∧ all_used (blocks p') ∧
  ∀ n l, special_blocks p' !! n = Some l → all_used (special_list_blocks l).
Proof.
  intros Hinv. unfold s_buffer_pool_trim_synced.
  destruct (trim_blocks _ _ _) as [[kept a] h0] eqn:Ht.
  destruct (trim_primary_inv _ _ _ _ _ _ Hinv Ht) as [Hinv1 Hu1]. intros Hs.
  destruct (trim_special_inv _ _ _ _ _ Hinv1 Hs) as (? & Htr & ?). split_and!; [done| | |done].
  - etransitivity; [|done]. by destruct p.
  - pose proof (trim_special_blocks (p <| primary_allocated := a |> <| blocks := kept |>) h0) as Hb.
    rewrite Hs in Hb. simpl in Hb. by rewrite Hb.
Qed.

(** * Reserving *)

(** [overall_taken] is what the live tickets that are not forced ask for, plus the
    forced buffers in use. *)
Lemma overall_taken_sum p ts : config_ok (config p) → accounting p ts →
  overall_taken p = msum normal_bytes ts + msum forced_used_bytes ts.
Proof.
  intros Hc Ha. pose proof (acc_tickets _ _ Ha) as Hts. unfold overall_taken.
  pose proof (acc_reserved _ _ Ha) as Hr. pose proof (acc_used _ _ Ha) as Hu.
  pose proof (Hr RESERVED_FROM_PRIMARY) as Hr1. pose proof (Hr RESERVED_FROM_SECONDARY) as Hr2.
  pose proof (Hr RESERVED_FROM_SPECIAL) as Hr3. pose proof (Hu RESERVED_FROM_PRIMARY) as Hu1.
  pose proof (Hu RESERVED_FROM_SECONDARY) as Hu2. pose proof (Hu RESERVED_FROM_SPECIAL) as Hu3.
  simpl in *. rewrite Hr1, Hr2, Hr3, Hu1, Hu2, Hu3.
  repeat (rewrite wrap_add_l, <-?Z.add_assoc).
  set (taken t := normal_bytes t + forced_used_bytes t).
  assert (selector taken) as Hsel.
  { intros t ?. unfold taken. generalize dependent t. intros t. flags. }
  rewrite !msum_plus. fold taken. erewrite (msum_ext _ taken); [by eapply wrap_small, selector_uint|].
  intros i t _. unfold taken. destruct (ticket_from t) eqn:?; flags.
Qed.

Lemma max_impact_nonneg p : 0 ≤ mem_limit (config p) → 0 ≤ max_impact_of_forced_on_limit p.
Proof.
  intros. apply double_trunc_nonneg, round_nearest_even_nonneg; [|apply Z.le_max_l].
  apply Z.mul_nonneg_nonneg; [|by vm_compute]. apply round_nearest_even_nonneg; [done|apply Z.le_max_l].
Qed.

(** The bytes a reservation of [n] is compared with the limit at. *)
Definition charged (p : buffer_pool) (taken : Z) : Z :=
  let max_impact := max_impact_of_forced_on_limit p in
  if max_impact <? forced_used p then (taken -[64] forced_used p) +[64] max_impact else taken.

Lemma charged_bounds p ts : config_ok (config p) → accounting p ts →
  msum normal_bytes ts ≤ charged p (overall_taken p) ≤ msum normal_bytes ts + msum forced_used_bytes ts ∧
  charged p (overall_taken p)
    = msum normal_bytes ts + Z.min (msum forced_used_bytes ts) (max_impact_of_forced_on_limit p).
Proof.
  intros Hc Ha. pose proof (acc_tickets _ _ Ha) as Hts. pose proof (ok_limit _ Hc).
  pose proof (max_impact_nonneg p). unfold charged.
  rewrite (overall_taken_sum p ts), (acc_forced_used _ _ Ha) by done.
  pose proof (selector_nonneg _ _ _ normal_selector Hts).
  pose proof (selector_bound _ _ _ forced_used_selector Hts).
  pose proof (tks_limit _ _ Hts). destruct (Z.ltb_spec (max_impact_of_forced_on_limit p) (msum forced_used_bytes ts)).
  - autorewrite with wrapping. rewrite wrap_small by machine. lia.
  - lia.
Qed.

(** The pool after the storage was trimmed to make room, if it was. *)
Section reserve.
Context `{!AwsMath}.

Definition trim_for_reserve (p : buffer_pool) (h : heap) (n : Z) : buffer_pool * heap :=
  if s_should_trim_for_reserve_synced (bool_decide (is_Some (special_blocks p !! n))) n p (overall_taken p)
  then s_buffer_pool_trim_synced p h else (p, h).

Lemma trim_for_reserve_inv p h ts n p' h' : inv p h ts → trim_for_reserve p h n = (p', h') →
  inv p' h' ts ∧ trimmed p p' ∧ (is_Some (special_blocks p !! n) → is_Some (special_blocks p' !! n)).
Proof.
  intros Hinv. unfold trim_for_reserve.
  destruct (s_should_trim_for_reserve_synced _ _ _ _) eqn:Hb; [|by intros [= <- <-]].
  intros Ht. destruct (trim_inv _ _ _ _ _ Hinv Ht) as (?&?&_). split_and!; [done..|]. intros Hsome.
  by rewrite bool_decide_true in Hb.
Qed.

Lemma s_try_reserve_synced_unfold p h meta p1 h1 : trim_for_reserve p h (meta_size meta) = (p1, h1) →
  s_try_reserve_synced p h meta =
    let n := meta_size meta in
    let taken := charged p1 (overall_taken p1) in
    if n +[64] taken <=? mem_limit (config p1) then
      let area := reserve_area (bool_decide (is_Some (special_blocks p !! n))) n p1 taken in
      (Some (mkTicket n NULL 0 false area), charge_reserved area n p1, h1)
    else (None, p1, h1).
Proof. unfold s_try_reserve_synced, trim_for_reserve. by intros ->. Qed.

Lemma reserve_area_primary special n p taken : config_ok (config p) →
  reserve_area special n p taken = RESERVED_FROM_PRIMARY → n ≤ 4 * chunk_size (config p).
Proof.
  intros Hc. unfold reserve_area. rewrite (ok_cutoff _ Hc). destruct special; [done|].
  destruct (Z.leb_spec n (4 * chunk_size (config p))); [lia|done].
Qed.

Lemma reserve_area_special n p taken special :
  reserve_area special n p taken = RESERVED_FROM_SPECIAL → special = true.
Proof. unfold reserve_area. destruct special; [done|]. by repeat case_match. Qed.
End reserve.

Lemma charge_reserved_frame a n p : config (charge_reserved a n p) = config p ∧
  blocks (charge_reserved a n p) = blocks p ∧ special_blocks (charge_reserved a n p) = special_blocks p ∧
  pending_reserves (charge_reserved a n p) = pending_reserves p ∧
  preallocated_buffers (charge_reserved a n p) = preallocated_buffers p.
Proof. by destruct a. Qed.

(** Adding a ticket with no memory yet leaves the stores as they are. *)
Lemma stores_add_unclaimed c bs sp h ts id t : primary_store c bs h ts → special_store c sp h ts →
  secondary_store h ts → ts !! id = None → ticket_ptr t = NULL →
  (ticket_from t = RESERVED_FROM_SPECIAL → is_Some (sp !! ticket_size t)) →
  primary_store c bs h (<[id := t]> ts) ∧ special_store c sp h (<[id := t]> ts) ∧
  secondary_store h (<[id := t]> ts).
Proof.
  intros Hp Hs Hsec Hid Hptr Hsp.
  assert (∀ a id0 t0, claimed a t0 → ts !! id0 = Some t0 ↔ <[id := t]> ts !! id0 = Some t0) as Hcl.
  { intros a id0 t0 [_ ?]. rewrite lookup_insert. case_decide; [|done]. split; intros; congruence. }
  split_and!.
  - by eapply primary_store_frame; [..|apply Hcl].
  - destruct (decide (ticket_from t = RESERVED_FROM_SPECIAL)) as [Hf|Hf]; [by apply special_store_reserve; auto|].
    eapply special_store_frame; [done..|]. intros id0 t0 ?. rewrite lookup_insert.
    case_decide; [|done]. split; intros; congruence.
  - by eapply secondary_store_frame; [..|apply Hcl].
Qed.

Section try_reserve.
Context `{!AwsMath}.

(** What an operation leaves alone: the configuration, the queue and the
    caller-owned buffers. *)
Definition same_frame (p p' : buffer_pool) : Prop :=
  config p' = config p ∧ pending_reserves p' = pending_reserves p ∧
  preallocated_buffers p' = preallocated_buffers p.

Lemma trimmed_frame p p' : trimmed p p' → same_frame p p'.
Proof. intros ->. done. Qed.

Lemma try_reserve_Some p h ts meta t p' h' id : inv p h ts → 0 < meta_size meta ≤ mem_limit (config p) →
  ts !! id = None → s_try_reserve_synced p h meta = (Some t, p', h') →
  inv p' h' (<[id := t]> ts) ∧ same_frame p p' ∧
  ticket_size t = meta_size meta ∧ ticket_ptr t = NULL ∧ ticket_forced t = false.
Proof.
  intros Hinv Hn Hid. destruct (trim_for_reserve p h (meta_size meta)) as [p1 h1] eqn:Ht.
  rewrite (s_try_reserve_synced_unfold _ _ _ _ _ Ht). simpl. set (n := meta_size meta) in *.
  destruct (trim_for_reserve_inv _ _ _ _ _ _ Hinv Ht) as ([Hc Ha Hp Hs Hsec Hh] & Htr & Hsp).
  pose proof (trimmed_config _ _ Htr) as Hcfg. rewrite Hcfg.
  destruct (charged_bounds p1 ts Hc Ha) as [Hb _]. pose proof (acc_tickets _ _ Ha) as Hts.
  pose proof (tks_limit _ _ Hts). pose proof (ok_limit _ Hc). pose proof (tks_forced _ _ Hts).
  pose proof (selector_nonneg _ _ _ normal_selector Hts).
  assert (msum forced_used_bytes ts ≤ msum forced_bytes ts) as Hfu.
  { apply msum_le. intros i t0 Hi. pose proof (ok_size _ _ (tks_ok _ _ Hts _ _ Hi)). flags. }
  rewrite wrap_small by (rewrite Hcfg in *; machine).
  destruct (Z.leb_spec (n + charged p1 (overall_taken p1)) (mem_limit (config p))); [|done].
  intros [= <- <- <-].
  set (area := reserve_area _ _ _ _). destruct (charge_reserved_frame area n p1) as (E1 & E2 & E3 & E4 & E5).
  assert (ticket_from (mkTicket n NULL 0 false area) = RESERVED_FROM_SPECIAL → is_Some (special_blocks p1 !! n)) as Hspec.
  { intros Hf%reserve_area_special. apply bool_decide_eq_true in Hf. by apply Hsp. }
  assert (ticket_ok (config p1) (mkTicket n NULL 0 false area)) as Hok.
  { split; simpl; [by rewrite Hcfg|intros Hf; by eapply reserve_area_primary|done|done]. }
  assert (tickets_ok (config p1) (<[id := mkTicket n NULL 0 false area]> ts)) as Hts'.
  { apply tickets_ok_insert; [done..| |]; [unfold normal_bytes at 2|unfold forced_bytes at 2]; simpl; rewrite ?Hcfg; lia. }
  destruct (stores_add_unclaimed _ _ _ _ _ id (mkTicket n NULL 0 false area) Hp Hs Hsec Hid eq_refl Hspec) as (?&?&?).
  split_and!; [split; rewrite ?E1, ?E2, ?E3; try done| |done..].
  - by apply accounting_reserve.
  - split_and!; rewrite ?E1, ?E4, ?E5; apply (trimmed_frame _ _ Htr).
Qed.

(** A reservation that has to wait changes nothing but the storage, and means that
    some ticket is live. *)
Lemma try_reserve_None p h ts meta p' h' : inv p h ts → 0 < meta_size meta ≤ mem_limit (config p) →
  s_try_reserve_synced p h meta = (None, p', h') →
  inv p' h' ts ∧ same_frame p p' ∧ trimmed p p' ∧ ts ≠ ∅.
Proof.
  intros Hinv Hn. destruct (trim_for_reserve p h (meta_size meta)) as [p1 h1] eqn:Ht.
  rewrite (s_try_reserve_synced_unfold _ _ _ _ _ Ht). simpl.
  destruct (trim_for_reserve_inv _ _ _ _ _ _ Hinv Ht) as (Hinv1 & Htr & _).
  pose proof (trimmed_config _ _ Htr) as Hcfg. rewrite Hcfg.
  destruct (Z.leb_spec (meta_size meta +[64] charged p1 (overall_taken p1)) (mem_limit (config p))) as [|Hgt]; [done|].
  intros [= <- <-]. split_and!; [done|by apply trimmed_frame|done|]. intros ->.
  destruct (charged_bounds p1 ∅ (inv_config _ _ _ Hinv1) (inv_acc _ _ _ Hinv1)) as [Hb _].
  rewrite !msum_empty in Hb. pose proof (ok_limit _ (inv_config _ _ _ Hinv)).
  rewrite wrap_small in Hgt by machine. lia.
Qed.
End try_reserve.

(** A ticket that must not wait is handed out whatever the limit. *)
Lemma forced_ticket_inv p h ts id n : inv p h ts → 0 < n ≤ mem_limit (config p) → ts !! id = None →
  msum forced_bytes ts + n < 2 ^ 63 → inv p h (<[id := forced_ticket p n]> ts).
Proof.
  intros [Hc Ha Hp Hs Hsec Hh] Hn Hid Hf.
  assert (ticket_from (forced_ticket p n) ≠ RESERVED_FROM_SPECIAL) as Hns by (simpl; by case_match).
  assert (ticket_ok (config p) (forced_ticket p n)) as Hok.
  { split; [done| |done|done]. simpl. rewrite (ok_cutoff _ Hc).
    destruct (Z.leb_spec n (4 * chunk_size (config p))); [lia|done]. }
  assert (tickets_ok (config p) (<[id := forced_ticket p n]> ts)) as Hts'.
  { pose proof (acc_tickets _ _ Ha) as Hts. pose proof (tks_limit _ _ Hts).
    apply tickets_ok_insert; [done..| |]; [unfold normal_bytes at 2|unfold forced_bytes at 2]; simpl; lia. }
  destruct (stores_add_unclaimed _ _ _ _ _ id (forced_ticket p n) Hp Hs Hsec) as (?&?&?); [done..|].
  split; try done. by apply accounting_forced.
Qed.

(** * Acquiring *)

(** [t'] is [t] with memory. *)
Definition claims (t t' : ticket) : Prop :=
  ticket_size t' = ticket_size t ∧ ticket_from t' = ticket_from t ∧
  ticket_forced t' = ticket_forced t ∧ 0 < ticket_ptr t'.

Lemma claims_ok c t t' : ticket_ok c t → claims t t' → ticket_ok c t'.
Proof. intros [????] (Hs & Hf & Hfo & Hp). split; rewrite ?Hs, ?Hf, ?Hfo; try done. lia. Qed.

Lemma claims_tickets_ok c ts id t t' : tickets_ok c ts → ts !! id = Some t → claims t t' →
  tickets_ok c (<[id := t']> ts).
Proof.
  intros Hts Hid Hcl. pose proof (claims_ok _ _ _ (tks_ok _ _ Hts _ _ Hid) Hcl). destruct Hcl as (Hs & _ & Hf & _).
  destruct Hts as [H1 H2 H3]. split; rewrite ?(msum_update _ _ _ t) by done.
  - intros j u. rewrite lookup_insert. case_decide; intros; simplify_eq; [done|]. by eapply H1.
  - unfold normal_bytes in *. rewrite Hs, Hf. lia.
  - unfold forced_bytes in *. rewrite Hs, Hf. lia.
Qed.

(** A claimed ticket of another area than [a] leaves the tickets of [a] alone. *)
Lemma claim_other a (ts : gmap nat ticket) id t t' : ts !! id = Some t → ticket_from t ≠ a → claims t t' →
  ∀ id0 t0, ticket_from t0 = a → ts !! id0 = Some t0 ↔ <[id := t']> ts !! id0 = Some t0.
Proof.
  intros Hid Hf (_ & Hf' & _) id0 t0 H0. rewrite lookup_insert. case_decide; [|done].
  split; intros; simplify_eq; congruence.
Qed.

Section acquire.
Context `{!AwsAllocator, !AwsAllocatorLaws _}.
Context (p : buffer_pool) (h : heap) (ts : gmap nat ticket) (id : nat) (t : ticket).
Context (Hinv : inv p h ts) (Hid : ts !! id = Some t) (Hnull : ticket_ptr t = NULL).

(** The outcome of acquiring the memory of [t], for one area. *)
Definition acquired : ticket * buffer_pool * heap → Prop := λ '(t', p', h'),
  inv p' h' (<[id := t']> ts) ∧ same_frame p p' ∧ claims t t'.

(** The counters, the stores and the heap make the invariant. *)
Lemma acquired_inv t' p' h' : claims t t' → claim_counters t p p' → same_frame p p' →
  allocation_counters p' →
  primary_store (config p) (blocks p') h' (<[id := t']> ts) →
  special_store (config p) (special_blocks p') h' (<[id := t']> ts) →
  secondary_store h' (<[id := t']> ts) → heap_ok h' → acquired (t', p', h').
Proof using Hinv Hid Hnull.
  intros Hcl Hcc Hsf Hal Hp Hs Hsec Hh. split_and!; [|done..]. destruct Hinv as [Hc Ha _ _ _ _].
  pose proof (claims_tickets_ok _ _ _ _ _ (acc_tickets _ _ Ha) Hid Hcl) as Hts'.
  destruct Hcl as (Hsz & Hfr & Hfo & Hpos). pose proof (cc_config _ _ _ Hcc) as Hcfg.
  split; rewrite ?Hcfg; [done| |done..]. eapply accounting_claim; try done. unfold NULL. lia.
Qed.

(** The counters of an explicit pool, by cases on the area and on forcedness. *)
Ltac claim_counters Hf :=
  split; [by repeat case_match|intros ?|intros ?|]; rewrite ?Hf;
  destruct (ticket_forced t); simpl; try match goal with a : reserved_from |- _ => destruct a end;
  simpl; repeat case_decide; naive_solver.

Lemma acquire_secondary : ticket_from t = RESERVED_FROM_SECONDARY →
  res_post acquired (s_acquire_buffer_synced p h id t).
Proof using All.
  intros Hf. unfold s_acquire_buffer_synced, acquire_cell. rewrite Hf.
  destruct (aws_mem_acquire h (ticket_size t)) as [q|] eqn:Hq; [|done]. simpl.
  destruct (heap_ok_insert _ _ _ (OwnSecondary id) (inv_heap _ _ _ Hinv) Hq) as (Hh & Hfresh & Hpos).
  set (t' := t <| ticket_ptr := q |>). assert (claims t t') as Hcl by done.
  apply acquired_inv; [done|claim_counters Hf|by repeat case_match| | | | |done].
  - split; simpl; repeat case_match; apply (inv_acc _ _ _ Hinv).
  - replace (blocks _) with (blocks p) by (by repeat case_match).
    eapply primary_store_frame; [apply Hinv| |].
    + intros q0 x Ho. rewrite lookup_insert. case_decide; [|done]. split; intros; simplify_eq.
    + intros id0 t0 [H0 _]. by apply (claim_other RESERVED_FROM_PRIMARY _ _ t); rewrite ?Hf.
  - replace (special_blocks _) with (special_blocks p) by (by repeat case_match).
    eapply special_store_frame; [apply Hinv| |by apply (claim_other RESERVED_FROM_SPECIAL _ _ t); rewrite ?Hf].
    intros q0 x n Ho. rewrite lookup_insert. case_decide; [|done]. split; intros; simplify_eq.
  - destruct (inv_secondary _ _ _ Hinv) as [H1 H2]. split.
    + intros id0 t0. rewrite lookup_insert. case_decide; intros Ht0 Hc0; simplify_eq; simpl.
      * by rewrite lookup_insert_eq.
      * rewrite lookup_insert_ne; [by apply H1|]. intros Heq.
        rewrite Heq, (H1 _ _ Ht0 Hc0) in Hfresh. done.
    + intros q0 x id0. rewrite lookup_insert. case_decide; intros Hx Ho; simplify_eq; simpl in *.
      * simplify_eq. exists t'. rewrite lookup_insert_eq. split_and!; [done| |done]. split; [done|].
        unfold NULL. simpl. lia.
      * destruct (H2 _ _ _ Hx Ho) as (t0 & Ht0 & Hc0 & ?). exists t0. rewrite lookup_insert_ne; [done|].
        intros <-. simplify_eq. by destruct Hc0.
Qed.

(** Placing [t] in block [k] of [bs]: the pool's blocks, with a new one if none of
    them had room. *)
Lemma acquire_primary_placed bs h' k b i q p' :
  q = block_ptr b + i * chunk_size (config p) → ticket_from t = RESERVED_FROM_PRIMARY →
  primary_store (config p) bs h' ts → special_store (config p) (special_blocks p) h' ts →
  secondary_store h' ts → heap_ok h' →
  bs !! k = Some b → 0 ≤ i → i + span_of (config p) t ≤ 16 →
  s_check_bits (alloc_bit_mask b) i (span_of (config p) t) = false →
  let t' := t <| ticket_chunks_used := span_of (config p) t |>
              <| ticket_ptr := q |> in
  claim_counters t p p' → same_frame p p' → special_blocks p' = special_blocks p →
  special_blocks_allocated p' = special_blocks_allocated p →
  blocks p' = <[k := b <| alloc_bit_mask := s_set_bits (alloc_bit_mask b) i (span_of (config p) t) |>]> bs →
  primary_allocated p' = wrap 64 (zsum block_size bs) →
  acquired (t', p', h').
Proof using Hinv Hid Hnull.
  intros -> Hf Hp Hs Hsec Hh Hk Hi Hspan Hfree t' Hcc Hsf Hsp Hspa Hbs Hpa.
  pose proof (acc_tickets _ _ (inv_acc _ _ _ Hinv)) as Hts. pose proof (tks_ok _ _ Hts _ _ Hid) as Hok.
  destruct (span_bounds _ _ Hok Hf) as (Hchunk & Hsb & _).
  assert (0 < block_ptr b) as Hbpos.
  { destruct (prim_block _ _ _ _ Hp b) as (_ & _ & Hcell); [by eapply list_elem_of_lookup_2|].
    by eapply heap_pos. }
  assert (claims t t') as Hcl by (split_and!; try done; simpl; nia).
  assert (∀ a, ticket_from t ≠ a → ∀ id0 t0, ticket_from t0 = a → ts !! id0 = Some t0 ↔ <[id := t']> ts !! id0 = Some t0) as Hother.
  { intros a Ha. by eapply claim_other. }
  apply acquired_inv; [done..| | | | |done].
  - split; [|by rewrite Hspa, Hsp; apply (inv_acc _ _ _ Hinv)]. rewrite Hpa, Hbs. f_equal. symmetry.
    by apply zsum_map, (fmap_list_update _ _ _ b).
  - rewrite Hbs. eapply (primary_store_acquire _ (inv_config _ _ _ Hinv) _ _ _ _ _ _ _ t t'); try done.
    + apply Hts.
    + by eapply claims_ok.
    + split; [done|]. unfold NULL. destruct Hcl as (_&_&_&?). lia.
  - rewrite Hsp. eapply special_store_frame; [done..|]. apply Hother. by rewrite Hf.
  - eapply secondary_store_frame; [done..|]. intros id0 t0 [? _]. eapply Hother; [|done]. by rewrite Hf.
Qed.

Lemma acquire_primary : ticket_from t = RESERVED_FROM_PRIMARY →
  res_post acquired (s_acquire_buffer_synced p h id t).
Proof using All.
  intros Hf. pose proof (acc_tickets _ _ (inv_acc _ _ _ Hinv)) as Hts.
  destruct (span_bounds _ _ (tks_ok _ _ Hts _ _ Hid) Hf) as (Hchunk & Hsb & _).
  unfold s_acquire_buffer_synced, s_primary_acquire_synced. rewrite Hf. fold (span_of (config p) t).
  destruct (acquire_from_blocks _ _ _) as [[q bs']|] eqn:Hacq; simpl.
  - apply acquire_from_blocks_Some in Hacq as (k & b & i & Hk & -> & Hi & Hspan & Hfree & ->); [|lia].
    eapply (acquire_primary_placed (blocks p) h k b i); try done; try apply Hinv; [claim_counters Hf|..];
      destruct (ticket_forced t); simpl; done || apply (inv_acc _ _ _ Hinv).
  - unfold acquire_cell. destruct (aws_mem_acquire h _) as [q|] eqn:Hq; [|done]. simpl.
    destruct (heap_ok_insert _ _ _ OwnPrimary (inv_heap _ _ _ Hinv) Hq) as (Hh & Hfresh & Hpos).
    set (bsz := pool_block_size (config p)) in *.
    eapply (acquire_primary_placed (blocks p ++ [mkBlock bsz q 0]) _ (length (blocks p)) (mkBlock bsz q 0) 0 q);
      try done; try (simpl; lia).
    + by apply primary_store_new_block; [apply Hinv|].
    + eapply special_store_frame; [apply Hinv| |done]. intros q0 x n Ho. rewrite lookup_insert.
      case_decide; [|done]. split; intros; simplify_eq.
    + eapply secondary_store_frame; [apply Hinv| |done]. intros q0 x n Ho. rewrite lookup_insert.
      case_decide; [|done]. split; intros; simplify_eq.
    + by rewrite lookup_app_r, Nat.sub_diag by lia.
    + claim_counters Hf.
    + by destruct (ticket_forced t).
    + by destruct (ticket_forced t).
    + by destruct (ticket_forced t).
    + destruct (ticket_forced t); simpl; rewrite insert_app_r_alt, Nat.sub_diag by lia; done.
    + assert (wrap 64 (primary_allocated p + bsz) = wrap 64 (zsum block_size (blocks p ++ [mkBlock bsz q 0]))) as <-;
        [|by destruct (ticket_forced t)].
      rewrite zsum_app, zsum_cons, zsum_nil, (acc_primary_allocated _ _ (inv_acc _ _ _ Hinv)), wrap_add_l.
      f_equal. simpl. lia.
Qed.

(** Handing [t] the unused block [k] of list [l]: a list of the pool, with a new
    block if none of its blocks was free. *)
Lemma acquire_special_placed sp h' l k b p' :
  ticket_from t = RESERVED_FROM_SPECIAL →
  primary_store (config p) (blocks p) h' ts → special_store (config p) sp h' ts →
  secondary_store h' ts → heap_ok h' →
  sp !! ticket_size t = Some l → special_list_blocks l !! k = Some b → alloc_bit_mask b = 0 →
  claim_counters t p p' → same_frame p p' → blocks p' = blocks p →
  primary_allocated p' = primary_allocated p →
  special_blocks p' = <[ticket_size t :=
    l <| special_list_blocks ::= insert k (b <| alloc_bit_mask := U16_MAX |>) |>]> sp →
  special_blocks_allocated p' = wrap 64 (msum (λ l, zsum block_size (special_list_blocks l)) sp) →
  acquired (t <| ticket_ptr := block_ptr b |>, p', h').
Proof using Hinv Hid Hnull.
  intros Hf Hp Hs Hsec Hh Hl Hk Hm Hcc Hsf Hbs Hpa Hsp Hspa.
  assert (0 < block_ptr b) as Hbpos.
  { destruct (spec_block _ _ _ _ Hs _ _ b Hl) as (_ & Hcell & _); [by eapply list_elem_of_lookup_2|].
    by eapply heap_pos. }
  set (t' := t <| ticket_ptr := block_ptr b |>). assert (claims t t') as Hcl by done.
  assert (∀ a, ticket_from t ≠ a → ∀ id0 t0, ticket_from t0 = a → ts !! id0 = Some t0 ↔ <[id := t']> ts !! id0 = Some t0) as Hother.
  { intros a Ha. by eapply claim_other. }
  apply acquired_inv; [done..| | | | |done].
  - split; [by rewrite Hpa, Hbs; apply (inv_acc _ _ _ Hinv)|]. rewrite Hspa, Hsp, (msum_update _ _ _ l) by done.
    f_equal. simpl. rewrite (zsum_insert _ _ _ b) by done. simpl. lia.
  - rewrite Hbs. eapply primary_store_frame; [done..|]. intros id0 t0 [? _]. eapply Hother; [|done]. by rewrite Hf.
  - rewrite Hsp. apply special_store_acquire; try done. unfold NULL. lia.
  - eapply secondary_store_frame; [done..|]. intros id0 t0 [? _]. eapply Hother; [|done]. by rewrite Hf.
Qed.

Lemma acquire_special : ticket_from t = RESERVED_FROM_SPECIAL →
  res_post acquired (s_acquire_buffer_synced p h id t).
Proof using All.
  intros Hf. pose proof (acc_tickets _ _ (inv_acc _ _ _ Hinv)) as Hts.
  assert (ticket_forced t = false) as Hforced.
  { destruct (ticket_forced t) eqn:Hx; [|done]. by destruct (ok_forced _ _ (tks_ok _ _ Hts _ _ Hid)). }
  destruct (spec_reserved _ _ _ _ (inv_special _ _ _ Hinv) _ _ Hid Hf) as [l Hl].
  destruct (spec_list _ _ _ _ (inv_special _ _ _ Hinv) _ _ Hl) as (Hsz & _ & _).
  unfold s_acquire_buffer_synced. rewrite Hf, Hl.
  destruct (acquire_from_special _) as [[q bs']|] eqn:Hacq; simpl.
  - apply acquire_from_special_Some in Hacq as (k & b & Hk & Hm & -> & ->).
    eapply (acquire_special_placed (special_blocks p) h l k b); try done; try apply Hinv; [claim_counters Hf|..];
      rewrite Hforced; try done. apply (inv_acc _ _ _ Hinv).
  - unfold acquire_cell. rewrite Hsz. destruct (aws_mem_acquire h _) as [q|] eqn:Hq; [|done]. simpl.
    set (n := ticket_size t) in *.
    destruct (heap_ok_insert _ _ _ (OwnSpecial n) (inv_heap _ _ _ Hinv) Hq) as (Hh & Hfresh & Hpos).
    set (l' := l <| special_list_blocks ::= λ bs, bs ++ [mkBlock n q 0] |>).
    eapply (acquire_special_placed (<[n := l']> (special_blocks p)) _ l' (length (special_list_blocks l)) (mkBlock n q 0));
      rewrite ?Hforced; try done.
    + eapply primary_store_frame; [apply Hinv| |done]. intros q0 x Ho. rewrite lookup_insert.
      case_decide; [|done]. split; intros; simplify_eq.
    + by apply special_store_new_block; [apply Hinv|..].
    + eapply secondary_store_frame; [apply Hinv| |done]. intros q0 x m Ho. rewrite lookup_insert.
      case_decide; [|done]. split; intros; simplify_eq.
    + by rewrite lookup_insert_eq.
    + simpl. by rewrite lookup_app_r, Nat.sub_diag by lia.
    + claim_counters Hf.
    + simpl. rewrite insert_insert_eq, insert_app_r_alt, Nat.sub_diag by lia. by rewrite Hsz.
    + simpl. rewrite (msum_update _ _ _ l) by done. simpl. rewrite zsum_app, zsum_cons, zsum_nil.
      rewrite (acc_special_allocated _ _ (inv_acc _ _ _ Hinv)), wrap_add_l. f_equal. simpl. lia.
Qed.

(** Acquiring the memory of a live ticket stops at no assertion. *)
Lemma acquire_inv : res_post acquired (s_acquire_buffer_synced p h id t).
Proof using All.
  destruct (ticket_from t) eqn:Hf; [by apply acquire_secondary|by apply acquire_primary|by apply acquire_special].
Qed.
End acquire.

(** * Releasing *)

(** Deleting a ticket leaves the claimed tickets of other areas alone. *)
Lemma delete_other (Q : ticket → Prop) (ts : gmap nat ticket) id t : ts !! id = Some t → ¬ Q t →
  ∀ id0 t0, Q t0 → ts !! id0 = Some t0 ↔ delete id ts !! id0 = Some t0.
Proof.
  intros Hid HQ id0 t0 H0. rewrite lookup_delete_Some. split; [|by intros []].
  intros Hid0. split; [|done]. intros <-. congruence.
Qed.

Section release.
Context (p : buffer_pool) (h : heap) (ts : gmap nat ticket) (id : nat) (t : ticket).
Context (Hinv : inv p h ts) (Hid : ts !! id = Some t) (Hclaimed : ticket_forced t = true → ticket_ptr t ≠ NULL).

Definition released : buffer_pool * heap → Prop := λ '(p', h'),
  inv p' h' (delete id ts) ∧ same_frame p p'.

Lemma released_inv p' h' : release_counters t p p' → same_frame p p' → allocation_counters p' →
  primary_store (config p) (blocks p') h' (delete id ts) →
  special_store (config p) (special_blocks p') h' (delete id ts) →
  secondary_store h' (delete id ts) → heap_ok h' → released (p', h').
Proof using Hinv Hid Hclaimed.
  intros Hrc Hsf Hal Hp Hs Hsec Hh. split; [|done]. destruct Hinv as [Hc Ha _ _ _ _].
  pose proof (rc_config _ _ _ Hrc) as Hcfg. split; rewrite ?Hcfg; [done| |done..].
  by eapply accounting_release.
Qed.

Ltac release_counters Hf :=
  split; [by repeat case_match|intros ?|intros ?|unfold is_claimed]; rewrite ?Hf;
  destruct (ticket_forced t); simpl; try match goal with a : reserved_from |- _ => destruct a end;
  simpl; destruct (Z.eqb_spec (ticket_ptr t) NULL); simpl; repeat case_decide;
  first [done | by match goal with H : ¬ (_ ∧ _) |- _ => destruct H | H : _ ∧ _ |- _ => destruct H end].

Lemma release_unclaimed : ticket_ptr t = NULL → res_post released (release_ticket_synced p h t).
Proof using All.
  intros Hnull. unfold release_ticket_synced. rewrite (proj2 (Z.eqb_eq _ _) Hnull).
  assert (ticket_forced t = false) as Hforced.
  { destruct (ticket_forced t) eqn:Hx; [|done]. by destruct Hclaimed. }
  assert (∀ a, ¬ claimed a t) as Hno by (intros a [_ ?]; congruence).
  assert (primary_store (config p) (blocks p) h (delete id ts) ∧
    special_store (config p) (special_blocks p) h (delete id ts) ∧ secondary_store h (delete id ts)) as (?&?&?).
  { split_and!.
    - eapply primary_store_frame; [apply Hinv|done|]. by apply (delete_other (claimed _) _ _ t).
    - eapply special_store_delete; [apply Hinv|done..].
    - eapply secondary_store_frame; [apply Hinv|done|]. by apply (delete_other (claimed _) _ _ t). }
  destruct (ticket_from t) eqn:Hf; (apply released_inv; [release_counters Hf|done| |done..|apply Hinv]);
    split; apply (inv_acc _ _ _ Hinv).
Qed.

Lemma release_secondary : ticket_ptr t ≠ NULL → ticket_from t = RESERVED_FROM_SECONDARY →
  res_post released (release_ticket_synced p h t).
Proof using All.
  intros Hnull Hf. unfold release_ticket_synced. rewrite (proj2 (Z.eqb_neq _ _) Hnull), Hf. cbn [res_post].
  assert (claimed RESERVED_FROM_SECONDARY t) as Hcl by done.
  destruct (inv_secondary _ _ _ Hinv) as [H1 H2]. pose proof (H1 _ _ Hid Hcl) as Hcell.
  assert (∀ a, a ≠ RESERVED_FROM_SECONDARY → ¬ claimed a t) as Hno by (intros a ? [??]; congruence).
  assert (∀ q x, cell_owner x ≠ OwnSecondary id → h !! q = Some x ↔ aws_mem_release h (ticket_ptr t) !! q = Some x) as Hother.
  { intros q x Hx. unfold aws_mem_release. rewrite lookup_delete_Some. split; [|by intros []].
    intros Hq. split; [|done]. intros <-. rewrite Hcell in Hq. by simplify_eq. }
  apply released_inv; [release_counters Hf|by repeat case_match| | | | |].
  - split; repeat case_match; apply (inv_acc _ _ _ Hinv).
  - replace (blocks _) with (blocks p) by (by repeat case_match).
    eapply primary_store_frame; [apply Hinv| |].
    + intros q x Ho. apply Hother. by rewrite Ho.
    + by apply (delete_other (claimed _) _ _ t); auto.
  - replace (special_blocks _) with (special_blocks p) by (by repeat case_match).
    eapply special_store_frame; [apply Hinv| |].
    + intros q x n Ho. apply Hother. by rewrite Ho.
    + apply (delete_other (λ t, ticket_from t = RESERVED_FROM_SPECIAL) _ _ t); [done|congruence].
  - unfold aws_mem_release. split.
    + intros id0 t0 [Hne Hid0]%lookup_delete_Some Hcl0. apply lookup_delete_Some.
      pose proof (H1 _ _ Hid0 Hcl0) as Hcell0. split; [|done]. intros Heq. congruence.
    + intros q x id0 [Hne Hq]%lookup_delete_Some Ho. destruct (H2 _ _ _ Hq Ho) as (t0 & Hid0 & ? & ?).
      exists t0. split; [|done]. apply lookup_delete_Some. split; [|done]. intros <-. congruence.
  - eapply heap_ok_subset; [apply Hinv|]. unfold aws_mem_release. by intros q x [_ ?]%lookup_delete_Some.
Qed.

Lemma release_primary : ticket_ptr t ≠ NULL → ticket_from t = RESERVED_FROM_PRIMARY →
  res_post released (release_ticket_synced p h t).
Proof using All.
  intros Hnull Hf. unfold release_ticket_synced. rewrite (proj2 (Z.eqb_neq _ _) Hnull), Hf.
  fold (span_of (config p) t). assert (claimed RESERVED_FROM_PRIMARY t) as Hcl by done.
  assert (∀ id t, ts !! id = Some t → ticket_ok (config p) t) as Hok by apply (inv_acc _ _ _ Hinv).
  destruct (span_bounds _ _ (Hok _ _ Hid) Hf) as (Hchunk & Hsb & _).
  pose proof (inv_primary _ _ _ Hinv) as Hp. pose proof (inv_heap _ _ _ Hinv) as Hh.
  destruct (release_to_blocks _ _ _ _) as [bs|] eqn:Hrel; cbn [res_post].
  - destruct (primary_store_release _ (inv_config _ _ _ Hinv) _ _ _ _ _ _ Hp Hh Hok Hid Hcl Hrel) as [Hp' Hsz].
    assert (∀ a, a ≠ RESERVED_FROM_PRIMARY → ¬ claimed a t) as Hno by (intros a ? [??]; congruence).
    apply released_inv; [release_counters Hf|by repeat case_match| | | | |done].
    + split; repeat case_match; try apply (inv_acc _ _ _ Hinv); simpl; rewrite (zsum_map _ _ _ Hsz); apply (inv_acc _ _ _ Hinv).
    + by destruct (ticket_forced t).
    + replace (special_blocks _) with (special_blocks p) by (by repeat case_match).
      eapply special_store_frame; [apply Hinv|done|].
      apply (delete_other (λ t, ticket_from t = RESERVED_FROM_SPECIAL) _ _ t); [done|congruence].
    + eapply secondary_store_frame; [apply Hinv|done|]. by apply (delete_other (claimed _) _ _ t); auto.
  - destruct (prim_placed _ _ _ _ Hp _ _ Hid Hcl) as (b & i & Hb & (Hi & Hi16 & Hptr) & _).
    destruct (release_to_blocks_Some (blocks p) (ticket_ptr t) (span_of (config p) t) (chunk_size (config p)) b Hb)
      as [? Hsome]; [|by rewrite Hsome in Hrel].
    destruct (prim_block _ _ _ _ Hp b Hb) as (-> & _ & _). rewrite (ok_block _ (inv_config _ _ _ Hinv)). nia.
Qed.

Lemma release_special : ticket_ptr t ≠ NULL → ticket_from t = RESERVED_FROM_SPECIAL →
  res_post released (release_ticket_synced p h t).
Proof using All.
  intros Hnull Hf. unfold release_ticket_synced. rewrite (proj2 (Z.eqb_neq _ _) Hnull), Hf. cbn [res_post].
  assert (claimed RESERVED_FROM_SPECIAL t) as Hcl by done. pose proof (inv_special _ _ _ Hinv) as Hs.
  assert (∀ a, a ≠ RESERVED_FROM_SPECIAL → ¬ claimed a t) as Hno by (intros a ? [??]; congruence).
  assert (ticket_forced t = false) as Hforced.
  { destruct (ticket_forced t) eqn:Hx; [|done].
    by destruct (ok_forced _ _ (tks_ok _ _ (acc_tickets _ _ (inv_acc _ _ _ Hinv)) _ _ Hid)). }
  destruct (spec_reserved _ _ _ _ Hs _ _ Hid Hf) as [l Hl]. rewrite Hl.
  destruct (release_to_special_used _ _ _ _ _ _ _ Hs Hid Hcl Hl) as [bs Hrel]. rewrite Hrel.
  destruct (special_store_release _ _ _ _ _ _ _ _ Hs Hid Hcl Hl Hrel) as [Hs' Hsz].
  apply released_inv; [|done| | |done| |apply Hinv].
  - split; rewrite ?Hf, ?Hforced; try done; intros []; simpl; repeat case_decide;
      first [done | by match goal with H : ¬ (_ ∧ _) |- _ => destruct H | H : _ ∧ _ |- _ => destruct H end].
  - split; [apply (inv_acc _ _ _ Hinv)|]. simpl. rewrite (msum_update _ _ _ l) by done. simpl.
    rewrite (zsum_map _ _ _ Hsz), (acc_special_allocated _ _ (inv_acc _ _ _ Hinv)). f_equal. lia.
  - eapply primary_store_frame; [apply Hinv|done|]. by apply (delete_other (claimed _) _ _ t); auto.
  - eapply secondary_store_frame; [apply Hinv|done|]. by apply (delete_other (claimed _) _ _ t); auto.
Qed.

(** Returning a live ticket stops at no assertion and frees exactly its memory. *)
Lemma release_inv : res_post released (release_ticket_synced p h t).
Proof using All.
  destruct (decide (ticket_ptr t = NULL)); [by apply release_unclaimed|].
  destruct (ticket_from t) eqn:Hf; [by apply release_secondary|by apply release_primary|by apply release_special].
Qed.
End release.
