(* ===== verification/BufferPoolSpec.v ===== *)
(** What the default buffer pool promises, for every sequence of operations on it
    (source/s3_default_buffer_pool.c): distinct live tickets own disjoint memory,
    the usage counters are exact, the reservations that may wait fit in the limit,
    the queue is served in order and is empty when no ticket is live, nothing is
    leaked, and no assertion fails. *)

From S2P Require Import Prelude AwsCommon BufferPool BufferPoolInv BufferPoolOps.

(** * The invariant of the pool with its clients *)

Definition waiting (f : option future) : Prop :=
  f = Some FuturePending ∨ ∃ e, f = Some (FutureError e).

(** [queue] stands for the pending reservations while the list is being walked. *)
Record wf_with (queue : list pending_reserve) (w : world) : Prop := {
  wf_inv : inv (pool w) (mem w) (tickets w);
  wf_ticket_ids id : is_Some (tickets w !! id) → (id < next_ticket w)%nat;
  wf_future_ids f : is_Some (futures w !! f) → (f < next_future w)%nat;
  wf_queue r : r ∈ queue →
    0 < meta_size (pending_meta r) ≤ mem_limit (config (pool w)) ∧ waiting (futures w !! ticket_future r);
  wf_completing f id : (f, id) ∈ completing w →
    waiting (futures w !! f) ∧
    ∃ t, tickets w !! id = Some t ∧ ticket_ptr t = NULL ∧ ticket_forced t = false;
  wf_futures_once : NoDup ((ticket_future <$> queue) ++ (completing w).*1);
  wf_tickets_once : NoDup (completing w).*2;
}.

Record wf (w : world) : Prop := {
  wf_world : wf_with (pending_reserves (pool w)) w;
  wf_progress : pending_reserves (pool w) ≠ [] → tickets w ≠ ∅;
}.

(** The invariant of the pool does not read the queue or the caller's buffers. *)
Lemma inv_pending p h ts f : inv p h ts → inv (p <| pending_reserves ::= f |>) h ts.
Proof. by intros [Hc [H1 H2 H3 H4 H5 H6] Hp Hs Hsec Hh]. Qed.

Lemma inv_preallocated p h ts f : inv p h ts → inv (p <| preallocated_buffers ::= f |>) h ts.
Proof. by intros [Hc [H1 H2 H3 H4 H5 H6] Hp Hs Hsec Hh]. Qed.

(** ** Construction *)

Lemma new_pool_inv c p : 0 ≤ part_size c → memory_limit c ≤ 2 ^ 62 →
  aws_s3_default_buffer_pool_new c = Success p → inv p ∅ ∅ ∧ pending_reserves p = [].
Proof.
  intros Hps Hml. unfold aws_s3_default_buffer_pool_new.
  destruct (Z.ltb_spec (memory_limit c) (MB_TO_BYTES 256)) as [|Hlo]; [done|].
  destruct ((0 <? max_part_size c) && (max_part_size c <? part_size c)); [done|].
  unfold MB_TO_BYTES, s_buffer_pool_reserved_mem in *.
  rewrite (wrap_small 64 (memory_limit c - _)) by (unfold MB_TO_BYTES; machine).
  destruct (memory_limit c - MB_TO_BYTES 128 <? max_part_size c); [done|]. set (lim := memory_limit c - _).
  set (chunk := if _ || _ then 0 else _).
  assert (0 ≤ chunk ≤ s_max_chunk_size_for_buffer_reuse) as Hchunk.
  { subst chunk. destruct (_ || _) eqn:Hor; [by split|]. apply orb_false_iff in Hor as [Hx%Z.ltb_ge _]. done. }
  unfold s_max_chunk_size_for_buffer_reuse, MB_TO_BYTES, s_chunks_per_block in *. intros [= <-].
  assert (config_ok (mkConfig (16 *[64] chunk) chunk (chunk *[64] 4)
    (if s_primary_min_cutoff <=? 4 *[64] chunk then s_primary_min_cutoff else 0) lim)) as Hc.
  { split; simpl; rewrite ?wrap_small by machine; [done|done|lia|by case_match|].
    subst lim. unfold MB_TO_BYTES. lia. }
  split; [|done]. split; simpl; [done|..].
  - split; simpl; try (intros []; by rewrite msum_empty); rewrite ?msum_empty; try done.
    split; simpl; rewrite ?msum_empty; [by intros ??; rewrite lookup_empty| |lia].
    destruct (ok_limit _ Hc). simpl in *. lia.
  - by split; simpl; try apply NoDup_nil_2; intros *; rewrite ?elem_of_nil, ?lookup_empty.
  - by split; simpl; intros *; rewrite ?lookup_empty.
  - by split; intros *; rewrite ?lookup_empty.
  - by split; intros *; rewrite ?lookup_empty.
Qed.

Lemma new_world_wf c p : 0 ≤ part_size c → memory_limit c ≤ 2 ^ 62 →
  aws_s3_default_buffer_pool_new c = Success p → wf (new_world p).
Proof.
  intros Hps Hml Hnew. destruct (new_pool_inv _ _ Hps Hml Hnew) as [Hinv Hq].
  split; [|done]. split; simpl; rewrite ?Hq; try done; try apply NoDup_nil_2.
  - intros id []. by rewrite lookup_empty in H.
  - intros id []. by rewrite lookup_empty in H.
  - by intros r ?%elem_of_nil.
  - by intros f id ?%elem_of_nil.
Qed.

(** ** Changes to one part of the world *)

Section frames.
Implicit Types (l : list pending_reserve) (w : world).

(** The pool and the heap. *)
Lemma wf_with_pool l w p' h' : wf_with l w → inv p' h' (tickets w) → config p' = config (pool w) →
  wf_with l (w <| pool := p' |> <| mem := h' |>).
Proof. intros [H1 H2 H3 H4 H5 H6 H7] Hinv Hc. split; simpl; rewrite ?Hc; done. Qed.

(** A new ticket. *)
Lemma wf_with_ticket l w p' h' t : wf_with l w → inv p' h' (<[next_ticket w := t]> (tickets w)) →
  config p' = config (pool w) → wf_with l (add_ticket (w <| pool := p' |> <| mem := h' |>) t).
Proof.
  intros [H1 H2 H3 H4 H5 H6 H7] Hinv Hc. split; simpl; rewrite ?Hc; try done.
  - intros id. rewrite lookup_insert. case_decide; [lia|]. intros ?%H2. lia.
  - intros f id Hin. destruct (H5 _ _ Hin) as (? & t0 & Hid & ?). split; [done|]. exists t0.
    rewrite lookup_insert_ne; [done|]. intros <-. assert (next_ticket w < next_ticket w)%nat by (by apply H2). lia.
Qed.

(** A new future. *)
Lemma waiting_bound l w f : wf_with l w → waiting (futures w !! f) → (f < next_future w)%nat.
Proof. intros Hw [Hf|[e Hf]]; eapply wf_future_ids; eauto. Qed.

Lemma wf_with_future l w f : wf_with l w → wf_with l (add_future w f).
Proof.
  intros Hw. pose proof Hw as [H1 H2 H3 H4 H5 H6 H7].
  assert (∀ g, waiting (futures w !! g) → waiting (<[next_future w := f]> (futures w) !! g)) as Hg.
  { intros g Hg. pose proof (waiting_bound _ _ _ Hw Hg). rewrite lookup_insert_ne by lia. done. }
  split; simpl; try done.
  - intros g. rewrite lookup_insert. case_decide; [lia|]. intros ?%H3. lia.
  - intros r Hr. destruct (H4 r Hr). auto.
  - intros g id Hin. destruct (H5 _ _ Hin). auto.
Qed.

(** One more pending reservation, for the future just made. *)
Lemma wf_with_pend l w meta : wf_with l w → 0 < meta_size meta ≤ mem_limit (config (pool w)) →
  wf_with (l ++ [mkPending (next_future w) meta]) (add_future w FuturePending).
Proof.
  intros Hw Hm. pose proof (wf_with_future l w FuturePending Hw) as [H1 H2 H3 H4 H5 H6 H7].
  assert (next_future w ∉ (ticket_future <$> l) ++ (completing w).*1) as Hnew.
  { intros [(r & Heq & Hr)%list_elem_of_fmap|([f id] & Heq & Hin)%list_elem_of_fmap]%elem_of_app; simpl in *; subst.
    - pose proof (waiting_bound _ _ _ Hw (proj2 (wf_queue _ _ Hw r Hr))). lia.
    - pose proof (waiting_bound _ _ _ Hw (proj1 (wf_completing _ _ Hw _ _ Hin))). lia. }
  split; try done.
  - intros r [Hr| ->%list_elem_of_singleton]%elem_of_app; [by apply H4|]. split; [done|]. left.
    simpl. by rewrite lookup_insert_eq.
  - rewrite fmap_app, <-app_assoc. simpl. rewrite <-Permutation_middle. by apply list.NoDup_cons.
Qed.

(** Completing an own future that waits for nothing. *)
Lemma wf_with_settle l w f v : wf_with l w → is_Some (futures w !! f) →
  f ∉ (ticket_future <$> l) ++ (completing w).*1 → wf_with l (w <| futures ::= insert f v |>).
Proof.
  intros [H1 H2 H3 H4 H5 H6 H7] Hf [Hq Hc]%not_elem_of_app. split; simpl; try done.
  - intros g. rewrite lookup_insert. case_decide; [subst; by intros _; apply H3|apply H3].
  - intros r Hr. rewrite lookup_insert_ne; [by apply H4|]. intros ->. by apply Hq, list_elem_of_fmap_2.
  - intros g id Hin. rewrite lookup_insert_ne; [by apply H5|]. intros ->. apply Hc.
    apply list_elem_of_fmap. by exists (g, id).
Qed.

Lemma wf_with_cancel l w f e : wf_with l w → futures w !! f = Some FuturePending →
  wf_with l (w <| futures ::= insert f (FutureError e) |>).
Proof.
  intros [H1 H2 H3 H4 H5 H6 H7] Hf.
  assert (∀ g, waiting (futures w !! g) → waiting (<[f := FutureError e]> (futures w) !! g)) as Hg.
  { intros g Hg. rewrite lookup_insert. case_decide; [right; eauto|done]. }
  split; simpl; try done.
  - intros g. rewrite lookup_insert. case_decide; [subst; intros _; by apply H3|apply H3].
  - intros r Hr. destruct (H4 r Hr). auto.
  - intros g id Hin. destruct (H5 _ _ Hin). auto.
Qed.

(** The memory of a ticket that no completing thread owns. *)
Lemma wf_with_claim l w p' h' id t t' : wf_with l w → tickets w !! id = Some t → id ∉ (completing w).*2 →
  inv p' h' (<[id := t']> (tickets w)) → config p' = config (pool w) →
  wf_with l (w <| pool := p' |> <| mem := h' |> <| tickets ::= insert id t' |>).
Proof.
  intros [H1 H2 H3 H4 H5 H6 H7] Hid Hc Hinv Hcfg. split; simpl; rewrite ?Hcfg; try done.
  - intros id0. rewrite lookup_insert. case_decide; [subst; intros _; by apply H2|apply H2].
  - intros f id0 Hin. destruct (H5 _ _ Hin) as (? & t0 & ? & ?). split; [done|]. exists t0.
    rewrite lookup_insert_ne; [done|]. intros <-. apply Hc, list_elem_of_fmap. by exists (f, id).
Qed.

Lemma wf_with_release l w p' h' id t : wf_with l w → tickets w !! id = Some t → id ∉ (completing w).*2 →
  inv p' h' (delete id (tickets w)) → config p' = config (pool w) →
  wf_with l (w <| pool := p' |> <| mem := h' |> <| tickets ::= delete id |>).
Proof.
  intros [H1 H2 H3 H4 H5 H6 H7] Hid Hc Hinv Hcfg. split; simpl; rewrite ?Hcfg; try done.
  - intros id0 [t0 [_ ?]%lookup_delete_Some]. by apply H2.
  - intros f id0 Hin. destruct (H5 _ _ Hin) as (? & t0 & ? & ?). split; [done|]. exists t0.
    rewrite lookup_delete_ne; [done|]. intros <-. apply Hc, list_elem_of_fmap. by exists (f, id).
Qed.
End frames.

(** ** The operations *)

Section preservation.
Context `{!AwsMath, !AwsAllocator, !AwsAllocatorLaws _}.
Implicit Types (l : list pending_reserve) (w : world).

(** A reservation moves from the front of the queue to the completing thread. *)
Lemma wf_with_served r l w p h t : wf_with (r :: l) w →
  s_try_reserve_synced (pool w) (mem w) (pending_meta r) = (Some t, p, h) →
  wf_with l (add_ticket (w <| pool := p |> <| mem := h |>) t
    <| completing ::= λ c, c ++ [(ticket_future r, next_ticket w)] |>).
Proof.
  intros Hw Ht. destruct (wf_queue _ _ Hw r) as [Hsz Hfut]; [left|].
  assert (tickets w !! next_ticket w = None) as Hnew.
  { apply eq_None_not_Some. intros Hs%(wf_ticket_ids _ _ Hw). lia. }
  destruct (try_reserve_Some _ _ _ _ _ _ _ _ (wf_inv _ _ Hw) Hsz Hnew Ht) as (Hinv & (Hcfg & _) & _ & Hptr & Hforced).
  pose proof (wf_with_ticket _ _ _ _ _ Hw Hinv Hcfg) as [H1 H2 H3 H4 H5 H6 H7]. split; simpl in *; try done.
  - intros r0 Hr0. apply H4. by right.
  - intros f id [Hin|[= -> ->]%list_elem_of_singleton]%elem_of_app; [by apply H5|].
    split; [done|]. exists t. by rewrite lookup_insert_eq.
  - rewrite fmap_app. simpl. apply list.NoDup_cons in H6 as [??].
    rewrite app_assoc, Permutation_app_comm. simpl. by apply list.NoDup_cons.
  - rewrite fmap_app. simpl. rewrite Permutation_app_comm. simpl. apply list.NoDup_cons. split; [|done].
    intros ([f id] & Heq & Hin)%list_elem_of_fmap. simpl in *.
    destruct (wf_completing _ _ Hw _ _ Hin) as (_ & t0 & ? & _). congruence.
Qed.

Lemma serve_pending_wf l w : wf_with l w → wf (serve_pending w l).
Proof.
  revert w. induction l as [|r l IH]; intros w Hw; simpl.
  - split; [|done]. pose proof (wf_with_pool [] w (pool w <| pending_reserves := [] |>) (mem w) Hw) as Hw'.
    simpl in *. apply Hw'; [|done]. apply (inv_pending (pool w) _ _ (λ _, [])), Hw.
  - destruct (s_try_reserve_synced _ _ _) as [[[t|] p] h] eqn:Ht.
    + apply IH. by apply wf_with_served.
    + destruct (wf_queue _ _ Hw r) as [Hsz Hfut]; [left|].
      destruct (try_reserve_None _ _ _ _ _ _ (wf_inv _ _ Hw) Hsz Ht) as (Hinv & (Hcfg & _) & _ & Hne).
      split; [|done]. pose proof (wf_with_pool (r :: l) w (p <| pending_reserves := r :: l |>) h Hw) as Hw'.
      simpl in *. apply Hw'; [|done]. by apply (inv_pending p _ _ (λ _, r :: l)).
Qed.

(** Only a cancelled reservation is done while it waits. *)
Lemma drop_cancelled_wf l w : wf_with l w →
  res_post (λ l', wf_with l' w ∧
      l' = filter (λ r, default false (future_is_done <$> futures w !! ticket_future r) = false) l)
    (drop_cancelled (futures w) l).
Proof.
  intros Hw. unfold drop_cancelled.
  assert (forallb (λ r, negb (default false (future_is_done <$> futures w !! ticket_future r))
    || default false (future_has_error <$> futures w !! ticket_future r)) l = true) as ->.
  { apply forallb_forall. intros r Hr%list_elem_of_In. by destruct (wf_queue _ _ Hw r Hr) as [_ [->|[e ->]]]. }
  simpl. split; [|done]. destruct Hw as [H1 H2 H3 H4 H5 H6 H7]. split; try done.
  - intros r [_ Hr]%list_elem_of_filter. by apply H4.
  - eapply sublist_NoDup; [exact H6|]. apply sublist_app; [|done]. apply fmap_sublist, sublist_filter.
Qed.

Lemma destroy_wf w id t : wf w → tickets w !! id = Some t → id ∉ (completing w).*2 →
  (ticket_forced t = true → ticket_ptr t ≠ NULL) → res_post wf (s_aws_ticket_wrapper_destroy w id t).
Proof.
  intros [Hw _] Hid Hc Hforced. eapply res_post_bind; [by apply (release_inv _ _ _ _ _ (wf_inv _ _ Hw) Hid)|].
  intros [p h] (Hinv & Hcfg & Hpend & _).
  pose proof (wf_with_release _ _ _ _ _ _ Hw Hid Hc Hinv Hcfg) as Hw'. rewrite <-Hpend in Hw'.
  eapply res_post_bind; [by apply drop_cancelled_wf|]. intros l [Hl _]. by apply serve_pending_wf.
Qed.

Lemma reserve_wf w meta : wf w → uint 64 (meta_size meta) → meta_size meta ≠ 0 →
  (can_block meta = true → msum forced_bytes (tickets w) + meta_size meta < 2 ^ 63) →
  res_post (λ '(w', fut), wf w') (aws_s3_default_buffer_pool_reserve w meta).
Proof.
  intros [Hw Hprog] Hu Hz Hf. unfold aws_s3_default_buffer_pool_reserve.
  rewrite (proj2 (Z.eqb_neq _ _) Hz). simpl.
  destruct (s_find_preallocated_buffer _ _); [by split; [apply wf_with_future|]|].
  destruct (Z.ltb_spec (mem_limit (config (pool w))) (meta_size meta)); [by split; [apply wf_with_future|]|].
  assert (0 < meta_size meta ≤ mem_limit (config (pool w))) as Hsz by machine.
  assert (tickets w !! next_ticket w = None) as Hnew.
  { apply eq_None_not_Some. intros Hs%(wf_ticket_ids _ _ Hw). lia. }
  destruct (can_block meta).
  - split; [|intros _; apply insert_non_empty]. apply wf_with_future.
    apply (wf_with_ticket _ w (pool w) (mem w)); [done| |done]. apply forced_ticket_inv; [apply Hw|done..|auto].
  - destruct (s_try_reserve_synced _ _ _) as [[[t|] p] h] eqn:Ht; simpl.
    + destruct (try_reserve_Some _ _ _ _ _ _ _ _ (wf_inv _ _ Hw) Hsz Hnew Ht) as (Hinv & (Hcfg & Hp & _) & _).
      split; [|intros _; apply insert_non_empty]. apply wf_with_future. simpl. rewrite Hp. by apply wf_with_ticket.
    + destruct (try_reserve_None _ _ _ _ _ _ (wf_inv _ _ Hw) Hsz Ht) as (Hinv & (Hcfg & Hp & _) & _ & Hne).
      split; [|done]. rewrite <-Hp in Hw. pose proof (wf_with_pool _ _ p h Hw Hinv Hcfg) as Hw'.
      pose proof (wf_with_pend _ _ meta Hw') as Hw''. simpl in Hw''. rewrite Hcfg in Hw''.
      pose proof (wf_with_pool _ _ (p <| pending_reserves ::= λ q, q ++ [mkPending (next_future w) meta] |>) h (Hw'' Hsz))
        as Hw'''. simpl in *. apply Hw'''; [|done].
      by apply (inv_pending p _ _ (λ q, q ++ [mkPending (next_future w) meta])).
Qed.

Lemma claim_wf w id t : wf w → tickets w !! id = Some t → id ∉ (completing w).*2 →
  res_post (λ '(w', b), wf w' ∧ (∃ t', tickets w' !! id = Some t' ∧ claims t t' ∧
      b = mkBuf (ticket_ptr t') (ticket_size t)))
    (aws_s3_default_buffer_pool_acquire_buffer w id t).
Proof.
  intros [Hw Hprog] Hid Hc. unfold aws_s3_default_buffer_pool_acquire_buffer.
  destruct (Z.eqb_spec (ticket_ptr t) NULL) as [Hnull|Hnull]; simpl.
  - eapply res_post_bind; [by apply (acquire_inv _ _ _ _ _ (wf_inv _ _ Hw) Hid Hnull)|].
    intros [[t' p] h] (Hinv & (Hcfg & Hp & _) & Hcl). split.
    + split; [|intros _; apply insert_non_empty]. simpl. rewrite Hp. by eapply wf_with_claim.
    + exists t'. simpl. rewrite lookup_insert_eq. split_and!; [done..|]. by destruct Hcl as [-> _].
  - split; [done|]. exists t. split_and!; [done| |done].
    assert (0 ≤ ticket_ptr t) by (apply (tks_ok _ _ (acc_tickets _ _ (inv_acc _ _ _ (wf_inv _ _ Hw))) _ _ Hid)).
    split_and!; try done. unfold NULL in Hnull. lia.
Qed.

(** The entry of [completing] for a reservation is the only one with its future
    and the only one with its ticket. *)
Lemma completing_filter (l : list (nat * nat)) fut id : NoDup l.*1 → NoDup l.*2 → (fut, id) ∈ l →
  fut ∉ (filter (λ c, c ≠ (fut, id)) l).*1 ∧ id ∉ (filter (λ c, c ≠ (fut, id)) l).*2.
Proof.
  intros H1 H2 [k Hk]%list_elem_of_lookup.
  split; intros ([f i] & Heq & [Hne [j Hj]%list_elem_of_lookup]%list_elem_of_filter)%list_elem_of_fmap;
    simpl in Heq; subst; apply Hne; [set (m := l.*1) in *|set (m := l.*2) in *];
    (assert (j = k) as -> by (eapply (NoDup_lookup m); [done|..]; subst m; rewrite list_lookup_fmap;
      [by rewrite Hj|by rewrite Hk])); congruence.
Qed.

Lemma wf_with_taken l w fut id : wf_with l w → (fut, id) ∈ completing w →
  let w' := w <| completing ::= filter (λ c, c ≠ (fut, id)) |> in
  wf_with l w' ∧ fut ∉ (ticket_future <$> l) ++ (completing w').*1 ∧ id ∉ (completing w').*2.
Proof.
  intros Hw Hin w'. pose proof Hw as [H1 H2 H3 H4 H5 H6 H7].
  apply list.NoDup_app in H6 as (Hq & Hdis & Hc). destruct (completing_filter _ _ _ Hc H7 Hin) as [Hf Hi].
  assert (∀ {A} (g : nat * nat → A), sublist (g <$> completing w') (g <$> completing w)) as Hsub
    by (intros; apply fmap_sublist, sublist_filter).
  split_and!; [|apply not_elem_of_app; split; [|done]|done].
  - split; try done; simpl.
    + intros f i [_ ?]%list_elem_of_filter. by apply H5.
    + apply list.NoDup_app. split_and!; [done| |by eapply sublist_NoDup, Hsub].
      intros f Hfq Hfc. apply (Hdis f Hfq). eapply elem_of_sublist; [exact Hfc|]. apply Hsub.
    + by eapply sublist_NoDup, Hsub.
  - intros Hfq. apply (Hdis _ Hfq). apply list_elem_of_fmap. by exists (fut, id).
Qed.

Lemma complete_pending_wf w fut id : wf w → (fut, id) ∈ completing w → res_post wf (complete_pending w fut id).
Proof.
  intros [Hw Hprog] Hin. unfold complete_pending.
  destruct (wf_with_taken _ _ _ _ Hw Hin) as (Hw' & Hfut & Hid). destruct (wf_completing _ _ Hw _ _ Hin) as [Hwait (t & Ht & Hnull & Hforced)].
  set (w' := w <| completing ::= filter (λ c, c ≠ (fut, id)) |>) in *.
  assert (wf w') as Hwf by by split.
  assert (∀ t, tickets w !! id = Some t → res_post wf (s_aws_ticket_wrapper_destroy w' id t)) as Hd.
  { intros t0 Ht0. apply destroy_wf; try done. simplify_eq. congruence. }
  change (futures w') with (futures w). change (tickets w') with (tickets w).
  destruct Hwait as [Hf|[e Hf]]; rewrite Hf; [|rewrite Ht; by apply Hd].
  split; [|done]. apply (wf_with_settle _ w'); [done| |done].
  change (futures w') with (futures w). by rewrite Hf.
Qed.

Lemma trim_wf w p h : wf w → inv p h (tickets w) → trimmed (pool w) p →
  wf (w <| pool := p |> <| mem := h |>).
Proof.
  intros [Hw Hprog] Hinv Ht. destruct (trimmed_frame _ _ Ht) as (Hc & Hp & _).
  split; simpl; rewrite Hp; [|done]. by apply wf_with_pool.
Qed.

Lemma add_special_wf w n : wf w → wf (s_default_pool_add_special_size w n).
Proof.
  intros [Hw Hprog]. unfold s_default_pool_add_special_size.
  destruct (Z.leb_spec n (primary_size_cutoff (config (pool w)))); [done|].
  destruct (special_blocks (pool w) !! n) eqn:Hn; [done|]. split; [|done].
  apply (wf_with_pool _ w (pool w <| special_blocks ::= insert n (mkSpecial n []) |>) (mem w) Hw); [|done].
  destruct Hw as [[Hc Ha Hp Hs Hsec Hh] _ _ _ _ _ _]. split; simpl; [done| |done| |done..].
  - apply (trimmed_accounting (pool w)); [by destruct (pool w)|done|]. split; [apply Ha|].
    simpl. rewrite msum_insert by done. simpl. apply Ha.
  - by apply special_store_add.
Qed.

Lemma step_wf w w' : wf w → step w w' → wf w'.
Proof.
  intros Hw Hs.
  destruct Hs as [w meta w' fut Hu Hf Hr|w id t w' b Hid Hc Hr|w id t w' Hid Hc Hf Hr|w fut id w' Hin Hr
    |w fut e|w|w n Hn|w n|w key b|w key].
  - assert (meta_size meta ≠ 0) as Hz.
    { intros Hz. unfold aws_s3_default_buffer_pool_reserve in Hr. by rewrite Hz in Hr. }
    by apply (res_post_Ok _ _ _ (reserve_wf _ _ Hw Hu Hz Hf) Hr).
  - by apply (res_post_Ok _ _ _ (claim_wf _ _ _ Hw Hid Hc) Hr).
  - by apply (res_post_Ok _ _ _ (destroy_wf _ _ _ Hw Hid Hc Hf) Hr).
  - by apply (res_post_Ok _ _ _ (complete_pending_wf _ _ _ Hw Hin) Hr).
  - unfold cancel_future. destruct (futures w !! fut) as [[| |]|] eqn:Hf; try done.
    destruct Hw as [Hw Hprog]. split; [|done]. by apply wf_with_cancel.
  - unfold aws_s3_default_buffer_pool_trim. destruct (s_buffer_pool_trim_synced _ _) as [p h] eqn:Ht.
    destruct (trim_inv _ _ _ _ _ (wf_inv _ _ (wf_world _ Hw)) Ht) as (?&?&_). by apply trim_wf.
  - by apply add_special_wf.
  - unfold s_default_pool_release_special_size.
    destruct (s_buffer_pool_trim_special_blocks_synced _ _) as [p h] eqn:Ht.
    destruct (trim_special_inv _ _ _ _ _ (wf_inv _ _ (wf_world _ Hw)) Ht) as (?&?&_). by apply trim_wf.
  - destruct Hw as [Hw Hprog]. split; [|done].
    apply (wf_with_pool _ w (pool w <| preallocated_buffers ::= insert key b |>) (mem w) Hw); [|done].
    apply inv_preallocated, Hw.
  - destruct Hw as [Hw Hprog]. split; [|done].
    apply (wf_with_pool _ w (pool w <| preallocated_buffers ::= delete key |>) (mem w) Hw); [|done].
    apply inv_preallocated, Hw.
Qed.

Lemma reachable_wf c w : reachable c w → wf w.
Proof. induction 1; [by eapply new_world_wf|by eapply step_wf]. Qed.
End preservation.

(** * The configuration is fixed *)

Section config.
Context `{!AwsMath, !AwsAllocator}.

Lemma trim_special_config p h : config (s_buffer_pool_trim_special_blocks_synced p h).1 = config p.
Proof.
  unfold s_buffer_pool_trim_special_blocks_synced. generalize ((map_to_list (special_blocks p)).*1). intros keys.
  revert p h. induction keys as [|n keys IH]; intros p h; [done|]. simpl.
  destruct (special_blocks p !! n) as [l|]; [|apply IH].
  destruct (trim_blocks _ _ _) as [[kept a] h0]. by destruct (_ && _); rewrite IH.
Qed.

Lemma trim_config p h : config (s_buffer_pool_trim_synced p h).1 = config p.
Proof.
  unfold s_buffer_pool_trim_synced. destruct (trim_blocks _ _ _) as [[kept a] h0]. by rewrite trim_special_config.
Qed.

Lemma try_reserve_config p h meta t p' h' : s_try_reserve_synced p h meta = (t, p', h') → config p' = config p.
Proof.
  destruct (trim_for_reserve p h (meta_size meta)) as [p1 h1] eqn:Ht.
  assert (config p1 = config p) as Hc.
  { unfold trim_for_reserve in Ht. pose proof (trim_config p h). destruct (s_should_trim_for_reserve_synced _ _ _ _);
      [by rewrite Ht in *|by simplify_eq]. }
  rewrite (s_try_reserve_synced_unfold _ _ _ _ _ Ht). simpl. destruct (_ <=? _); intros; simplify_eq; [|done].
  rewrite <-Hc. apply charge_reserved_frame.
Qed.

Lemma acquire_config p h id t t' p' h' : s_acquire_buffer_synced p h id t = Ok (t', p', h') → config p' = config p.
Proof.
  unfold s_acquire_buffer_synced. intros ([[t1 p1] h1] & Hr & [= <- <- <-])%res_bind_Ok.
  assert (config p1 = config p) as Hc; [|by destruct (ticket_forced t1)]. destruct (ticket_from t).
  - apply res_bind_Ok in Hr as ([q h2] & _ & [= <- <- <-]). by destruct (ticket_forced t).
  - unfold s_primary_acquire_synced in Hr. apply res_bind_Ok in Hr as ([[q p2] h2] & Hr & [= <- <- <-]).
    assert (config p2 = config p) as <-; [|by destruct (ticket_forced _)].
    destruct (acquire_from_blocks _ _ _) as [[??]|]; [by simplify_eq|].
    by apply res_bind_Ok in Hr as ([q3 h3] & _ & [= <- <- <-]).
  - destruct (special_blocks p !! ticket_size t) as [l|]; [|done].
    apply res_bind_Ok in Hr as ([[q p2] h2] & Hr & [= <- <- <-]).
    destruct (acquire_from_special _) as [[??]|]; [by simplify_eq|].
    by apply res_bind_Ok in Hr as ([q3 h3] & _ & [= <- <- <-]).
Qed.

Lemma release_config p h t p' h' : release_ticket_synced p h t = Ok (p', h') → config p' = config p.
Proof.
  unfold release_ticket_synced. destruct (ticket_ptr t =? NULL); [intros [= <- <-]; by destruct (ticket_from t)|].
  destruct (ticket_from t).
  - intros [= <- <-]. by destruct (ticket_forced t).
  - destruct (release_to_blocks _ _ _ _); [|done]. intros [= <- <-]. by destruct (ticket_forced t).
  - intros [= <- <-]. by repeat case_match.
Qed.

Lemma serve_config l w : config (pool (serve_pending w l)) = config (pool w).
Proof.
  revert w. induction l as [|r l IH]; intros w; [done|]. simpl.
  destruct (s_try_reserve_synced _ _ _) as [[[t|] p] h] eqn:Ht; apply try_reserve_config in Ht; [|done].
  by rewrite IH.
Qed.

Lemma destroy_config w id t w' : s_aws_ticket_wrapper_destroy w id t = Ok w' → config (pool w') = config (pool w).
Proof.
  intros ([p h] & Hr%release_config & (l & _ & [= <-])%res_bind_Ok)%res_bind_Ok. by rewrite serve_config.
Qed.

Lemma step_config w w' : step w w' → config (pool w') = config (pool w).
Proof.
  intros Hs.
  destruct Hs as [w meta w' fut _ _ Hr|w id t w' b _ _ Hr|w id t w' _ _ _ Hr|w fut id w' _ Hr|w fut e|w|w n _|w n|w key b|w key].
  - unfold aws_s3_default_buffer_pool_reserve in Hr. destruct (negb _); [|done]. simpl in Hr.
    destruct (s_find_preallocated_buffer _ _); [by simplify_eq|].
    destruct (_ <? _); [by simplify_eq|]. destruct (can_block meta); [by simplify_eq|].
    destruct (s_try_reserve_synced _ _ _) as [[[t|] p] h] eqn:Ht; apply try_reserve_config in Ht; by simplify_eq.
  - unfold aws_s3_default_buffer_pool_acquire_buffer in Hr. destruct (negb _); [by simplify_eq|].
    by apply res_bind_Ok in Hr as ([[t' p] h] & Hr%acquire_config & [= <- _]).
  - by eapply destroy_config.
  - unfold complete_pending in Hr. simpl in Hr. destruct (futures w !! fut) as [[]|]; try by simplify_eq.
    all: destruct (tickets w !! id); [|by simplify_eq]; by apply destroy_config in Hr.
  - unfold cancel_future. by repeat case_match.
  - unfold aws_s3_default_buffer_pool_trim. pose proof (trim_config (pool w) (mem w)).
    by destruct (s_buffer_pool_trim_synced _ _).
  - unfold s_default_pool_add_special_size. by repeat case_match.
  - unfold s_default_pool_release_special_size. pose proof (trim_special_config (pool w) (mem w)).
    by destruct (s_buffer_pool_trim_special_blocks_synced _ _).
  - done.
  - done.
Qed.

(** The limit of the pool is the configured limit minus the reserve. *)
Lemma reachable_limit c w : reachable c w → mem_limit (config (pool w)) = memory_limit c - MB_TO_BYTES 128.
Proof.
  induction 1 as [p Hps Hml Hnew|w w' _ IH Hs%step_config]; [|by rewrite Hs].
  unfold aws_s3_default_buffer_pool_new in Hnew.
  destruct (Z.ltb_spec (memory_limit c) (MB_TO_BYTES 256)); [done|].
  destruct (_ && _); [done|]. destruct (_ <? max_part_size c); [done|]. simplify_eq. simpl.
  apply wrap_small. unfold s_buffer_pool_reserved_mem. machine.
Qed.
End config.
