(* ===== verification/BufferPoolProps.v ===== *)
(** The guarantees of the default buffer pool (source/s3_default_buffer_pool.c), as
    theorems about every world a client can reach, with concrete runs that
    instantiate them. *)

From S2P Require Import Prelude AwsCommon BufferPool BufferPoolInv BufferPoolOps BufferPoolSpec.

(** * Memory *)

(** The live allocation that holds the buffer of a claimed ticket. *)
Lemma claimed_cell p h ts id t : inv p h ts → ts !! id = Some t → ticket_ptr t ≠ NULL →
  ∃ q x, h !! q = Some x ∧ q ≤ ticket_ptr t ∧ ticket_ptr t + ticket_size t ≤ q + cell_size x ∧
    match ticket_from t with
    | RESERVED_FROM_PRIMARY => cell_owner x = OwnPrimary
    | RESERVED_FROM_SPECIAL => cell_owner x = OwnSpecial (ticket_size t) ∧ q = ticket_ptr t
    | RESERVED_FROM_SECONDARY => cell_owner x = OwnSecondary id
    end.
Proof.
  intros [Hc Ha Hp Hs Hsec Hh] Hid Hnull. pose proof (tks_ok _ _ (acc_tickets _ _ Ha) _ _ Hid) as Hok.
  destruct (ticket_from t) eqn:Hf.
  - pose proof (sec_used _ _ Hsec _ _ Hid (conj Hf Hnull)). eexists _, _. split_and!; [done|lia|simpl; lia|done].
  - destruct (prim_placed _ _ _ _ Hp _ _ Hid (conj Hf Hnull)) as (b & i & Hb & (Hi & Hi16 & Hptr) & _).
    destruct (prim_block _ _ _ _ Hp b Hb) as (_ & _ & Hcell). destruct (span_bounds _ _ Hok Hf) as (Hchunk & Hsb & Hsz).
    eexists _, _. split_and!; [done|nia| |done]. simpl. rewrite (ok_block _ Hc), Hptr. nia.
  - destruct (spec_used _ _ _ _ Hs _ _ Hid (conj Hf Hnull)) as (l & b & Hl & Hb & Hptr & _).
    destruct (spec_block _ _ _ _ Hs _ _ _ Hl Hb) as (_ & Hcell & _).
    eexists _, _. split_and!; [done|lia|simpl; lia|done|done].
Qed.

Lemma inv_buffers_disjoint p h ts id1 id2 t1 t2 : inv p h ts → id1 ≠ id2 →
  ts !! id1 = Some t1 → ts !! id2 = Some t2 → ticket_ptr t1 ≠ NULL → ticket_ptr t2 ≠ NULL →
  range_disjoint (ticket_ptr t1) (ticket_size t1) (ticket_ptr t2) (ticket_size t2).
Proof.
  intros Hinv Hne Hid1 Hid2 Hn1 Hn2.
  destruct (claimed_cell _ _ _ _ _ Hinv Hid1 Hn1) as (q1 & x1 & Hq1 & Hlo1 & Hhi1 & Ho1).
  destruct (claimed_cell _ _ _ _ _ Hinv Hid2 Hn2) as (q2 & x2 & Hq2 & Hlo2 & Hhi2 & Ho2).
  destruct (decide (q1 = q2)) as [<-|Hq].
  - assert (x1 = x2) as <- by congruence. destruct Hinv as [Hc Ha Hp Hs _ _].
    destruct (ticket_from t1) eqn:Hf1, (ticket_from t2) eqn:Hf2; try (destruct_and?; congruence).
    + pose proof (tks_ok _ _ (acc_tickets _ _ Ha)) as Hok.
      destruct (span_bounds _ _ (Hok _ _ Hid1) Hf1) as (_&_&?), (span_bounds _ _ (Hok _ _ Hid2) Hf2) as (_&_&?).
      destruct (prim_apart _ _ _ _ Hp _ _ _ _ Hne Hid1 Hid2 (conj Hf1 Hn1) (conj Hf2 Hn2)); unfold range_disjoint; lia.
    + destruct (spec_apart _ _ _ _ Hs _ _ _ _ Hne Hid1 Hid2 (conj Hf1 Hn1) (conj Hf2 Hn2)). destruct_and!. congruence.
  - destruct (heap_apart _ (inv_heap _ _ _ Hinv) _ _ _ _ Hq1 Hq2 Hq); unfold range_disjoint; lia.
Qed.

(** A block that is in use has a ticket. *)
Lemma trimmed_empty p h : inv p h ∅ → all_used (blocks p) →
  (∀ n l, special_blocks p !! n = Some l → all_used (special_list_blocks l)) → h = ∅.
Proof.
  intros [Hc Ha Hp Hs Hsec Hh] Hb Hl. apply map_empty. intros q. apply eq_None_not_Some. intros [x Hq].
  destruct (cell_owner x) as [|n|id] eqn:Ho.
  - pose proof (prim_owned _ _ _ _ Hp _ _ Hq Ho) as (b & -> & Hin)%list_elem_of_fmap.
    destruct (prim_block _ _ _ _ Hp b Hin) as (_ & Hu & _).
    destruct (Z.eq_dec (alloc_bit_mask b) 0) as [|Hm]; [by eapply Hb|].
    destruct (prim_bits _ _ _ _ Hp b (Z.log2 (alloc_bit_mask b)) Hin) as (? & ? & ? & Hx & _); [apply Z.log2_nonneg| |done].
    apply Z.bit_log2. unfold uint in Hu. lia.
  - destruct (spec_owned _ _ _ _ Hs _ _ _ Hq Ho) as (l & Hsl & (b & -> & Hin)%list_elem_of_fmap).
    destruct (spec_block _ _ _ _ Hs _ _ _ Hsl Hin) as (_ & _ & [Hm|Hm]); [by eapply Hl|].
    by destruct (spec_bits _ _ _ _ Hs _ _ _ Hsl Hin Hm) as (? & ? & Hx & _).
  - by destruct (sec_owned _ _ Hsec _ _ _ Hq Ho) as (? & Hx & _).
Qed.

Lemma free_blocks_lookup bs (h : heap) q :
  foldl (λ h b, aws_mem_release h (block_ptr b)) h bs !! q
    = if decide (q ∈ (block_ptr <$> bs)) then None else h !! q.
Proof.
  revert h. induction bs as [|b bs IH]; intros h; [done|]. cbn [foldl]. rewrite IH. unfold aws_mem_release.
  rewrite lookup_delete. repeat case_decide; set_solver.
Qed.

Lemma free_lists ls (h : heap) : foldl s_destroy_special_block_list h ls
  = foldl (λ h b, aws_mem_release h (block_ptr b)) h (ls ≫= special_list_blocks).
Proof. revert h. induction ls as [|l ls IH]; intros h; simpl; [done|]. by rewrite foldl_app, IH. Qed.

(** With no ticket live no block is in use, and every allocation is a block. *)
Lemma destroy_frees w : wf w → tickets w = ∅ → aws_s3_default_buffer_pool_destroy w = Ok ∅.
Proof.
  intros Hr Ht. pose proof (wf_inv _ _ (wf_world _ Hr)) as [Hc Ha Hp Hs Hsec Hh]. rewrite Ht in *.
  unfold aws_s3_default_buffer_pool_destroy.
  assert (forallb (λ b, alloc_bit_mask b =? 0) (blocks (pool w)) = true) as ->.
  { apply forallb_forall. intros b Hb%list_elem_of_In. apply Z.eqb_eq. destruct (prim_block _ _ _ _ Hp b Hb) as (_ & Hu & _).
    destruct (Z.eq_dec (alloc_bit_mask b) 0) as [|Hm]; [done|].
    destruct (prim_bits _ _ _ _ Hp b (Z.log2 (alloc_bit_mask b)) Hb) as (? & ? & ? & Hx & _); [apply Z.log2_nonneg| |done].
    apply Z.bit_log2. unfold uint in Hu. lia. }
  assert (pending_reserves (pool w) = []) as ->.
  { destruct (pending_reserves (pool w)) eqn:Hq; [done|]. by destruct (wf_progress _ Hr); rewrite ?Hq. }
  cbn - [foldl]. f_equal. apply map_empty. intros q. rewrite free_lists, !free_blocks_lookup.
  case_decide as Hl; [done|]. case_decide as Hb; [done|]. apply eq_None_not_Some. intros [x Hq].
  destruct (cell_owner x) as [|n|id] eqn:Ho.
  - by apply Hb, (prim_owned _ _ _ _ Hp _ _ Hq).
  - destruct (spec_owned _ _ _ _ Hs _ _ _ Hq Ho) as (l & Hsl & Hin). apply Hl.
    apply list_elem_of_fmap in Hin as (b & -> & Hin). apply list_elem_of_fmap_2, list_elem_of_bind.
    exists l. split; [done|]. apply list_elem_of_fmap. exists (n, l). split; [done|]. by apply elem_of_map_to_list.
  - by destruct (sec_owned _ _ Hsec _ _ _ Hq Ho) as (? & Hx & _).
Qed.

(** * The queue *)

Section queue.
Context `{!AwsMath}.

(** A reservation of [meta] fits beside the live tickets: what forced buffers in
    use count for is capped at 80% of the limit. *)
Definition fits (p : buffer_pool) (ts : gmap nat ticket) (meta : reserve_meta) : Prop :=
  meta_size meta + msum normal_bytes ts
    + Z.min (msum forced_used_bytes ts) (max_impact_of_forced_on_limit p) ≤ mem_limit (config p).

Lemma try_reserve_fits p h ts meta t p' h' : inv p h ts → 0 < meta_size meta ≤ mem_limit (config p) →
  s_try_reserve_synced p h meta = (t, p', h') → is_Some t ↔ fits p ts meta.
Proof.
  intros Hinv Hn. destruct (trim_for_reserve p h (meta_size meta)) as [p1 h1] eqn:Ht.
  rewrite (s_try_reserve_synced_unfold _ _ _ _ _ Ht). simpl.
  destruct (trim_for_reserve_inv _ _ _ _ _ _ Hinv Ht) as ([Hc Ha _ _ _ _] & Htr & _).
  pose proof (trimmed_config _ _ Htr) as Hcfg.
  destruct (charged_bounds p1 ts Hc Ha) as [Hb Heq]. pose proof (acc_tickets _ _ Ha) as Hts.
  pose proof (tks_limit _ _ Hts). pose proof (ok_limit _ Hc).
  pose proof (selector_nonneg _ _ _ normal_selector Hts). pose proof (tks_forced _ _ Hts).
  assert (msum forced_used_bytes ts ≤ msum forced_bytes ts).
  { apply msum_le. intros i t0 Hi. pose proof (ok_size _ _ (tks_ok _ _ Hts _ _ Hi)). flags. }
  unfold fits. replace (max_impact_of_forced_on_limit p) with (max_impact_of_forced_on_limit p1)
    by (unfold max_impact_of_forced_on_limit; by rewrite Hcfg).
  rewrite wrap_small by (rewrite Hcfg in *; machine). rewrite <-Hcfg.
  destruct (Z.leb_spec (meta_size meta + charged p1 (overall_taken p1)) (mem_limit (config p1)));
    intros [= <- _ _]; split; intros; try done; try lia.
Qed.

(** Serving a queue: a prefix of it gets tickets, in order, and the reservation
    that is then at the front does not fit. *)
Lemma serve_pending_prefix l w : wf_with l w →
  ∃ served, l = served ++ pending_reserves (pool (serve_pending w l)) ∧
    completing (serve_pending w l)
      = completing w ++ zip (ticket_future <$> served) (seq (next_ticket w) (length served)) ∧
    match pending_reserves (pool (serve_pending w l)) with
    | [] => True
    | r :: _ => ¬ fits (pool (serve_pending w l)) (tickets (serve_pending w l)) (pending_meta r)
    end.
Proof.
  revert w. induction l as [|r l IH]; intros w Hw; cbn [serve_pending].
  - exists []. simpl. by rewrite app_nil_r.
  - destruct (wf_queue _ _ Hw r) as [Hsz _]; [left|].
    destruct (s_try_reserve_synced _ _ _) as [[[t|] p] h] eqn:Ht.
    + pose proof (wf_with_served _ _ _ _ _ _ Hw Ht) as Hw'. destruct (IH _ Hw') as (served & Hl & Hc & Hf).
      exists (r :: served). split_and!; [exact (f_equal (cons r) Hl)| |exact Hf].
      etransitivity; [exact Hc|]. simpl. by rewrite <-app_assoc.
    + exists []. simpl. split_and!; [done|by rewrite app_nil_r|].
      pose proof (try_reserve_fits _ _ _ _ _ _ _ (wf_inv _ _ Hw) Hsz Ht) as [_ Hfit].
      pose proof (try_reserve_config _ _ _ _ _ _ Ht) as Hc. intros Hx. destruct Hfit; [|done].
      unfold fits, max_impact_of_forced_on_limit in *. simpl in *. by rewrite Hc in Hx.
Qed.
End queue.

Section guarantees.
Context `{!AwsMath, !AwsAllocator, !AwsAllocatorLaws _}.

(** C5: the buffers of two live tickets never overlap, whatever areas they come
    from and whatever operations were run. *)
Theorem claimed_buffers_disjoint c w id1 id2 t1 t2 : reachable c w → id1 ≠ id2 →
  tickets w !! id1 = Some t1 → tickets w !! id2 = Some t2 →
  ticket_ptr t1 ≠ NULL → ticket_ptr t2 ≠ NULL →
  range_disjoint (ticket_ptr t1) (ticket_size t1) (ticket_ptr t2) (ticket_size t2).
Proof. intros Hr%reachable_wf. by eapply inv_buffers_disjoint, Hr. Qed.

(** the usage statistics are exact at all times: each area's reserved and used
    bytes are the sums over the live tickets, [forced_used] is the sum over the
    claimed forced ones, and no counter ever wraps around. *)
Theorem usage_exact c w : reachable c w →
  let s := aws_s3_default_buffer_pool_get_usage (pool w) in
  stat_primary_reserved s = msum (reserved_bytes RESERVED_FROM_PRIMARY) (tickets w) ∧
  stat_primary_used s = msum (used_bytes RESERVED_FROM_PRIMARY) (tickets w) ∧
  stat_secondary_reserved s = msum (reserved_bytes RESERVED_FROM_SECONDARY) (tickets w) ∧
  stat_secondary_used s = msum (used_bytes RESERVED_FROM_SECONDARY) (tickets w) ∧
  stat_special_blocks_reserved s = msum (reserved_bytes RESERVED_FROM_SPECIAL) (tickets w) ∧
  stat_special_blocks_used s = msum (used_bytes RESERVED_FROM_SPECIAL) (tickets w) ∧
  stat_forced_used s = msum forced_used_bytes (tickets w).
Proof.
  intros Hr%reachable_wf. destruct (inv_acc _ _ _ (wf_inv _ _ (wf_world _ Hr))) as [_ H1 H2 H3 _ _].
  split_and!; simpl; [apply (H1 RESERVED_FROM_PRIMARY)|apply (H2 RESERVED_FROM_PRIMARY)
    |apply (H1 RESERVED_FROM_SECONDARY)|apply (H2 RESERVED_FROM_SECONDARY)
    |apply (H1 RESERVED_FROM_SPECIAL)|apply (H2 RESERVED_FROM_SPECIAL)|done].
Qed.

(** the tickets that were made to wait for memory never add up to more than
    the limit, which is the configured limit minus the 128 MB set aside; what the
    pool counts as taken exceeds it by the forced buffers in use at most. *)
Theorem limit_respected c w : reachable c w →
  mem_limit (config (pool w)) = memory_limit c - MB_TO_BYTES 128 ∧
  msum normal_bytes (tickets w) ≤ mem_limit (config (pool w)) ∧
  overall_taken (pool w) ≤ mem_limit (config (pool w)) + forced_used (pool w).
Proof.
  intros Hr. split; [by eapply reachable_limit|]. apply reachable_wf in Hr.
  pose proof (wf_inv _ _ (wf_world _ Hr)) as [Hc Ha _ _ _ _]. pose proof (tks_limit _ _ (acc_tickets _ _ Ha)).
  rewrite (overall_taken_sum _ _ Hc Ha), (acc_forced_used _ _ Ha). lia.
Qed.

(** C34: no assertion of the pool can fail as long as its users keep to three rules:
    they reserve sizes other than zero, their forced reservations stay below 2^63
    bytes together, and a forced ticket is released only after it was claimed.
    Then reserving, claiming and releasing a ticket that was handed out, and
    completing a reservation taken off the queue all return, or the process is out
    of memory. *)
Theorem no_assertion_fails c w : reachable c w →
  (∀ meta, uint 64 (meta_size meta) → meta_size meta ≠ 0 →
    (can_block meta = true → msum forced_bytes (tickets w) + meta_size meta < 2 ^ 63) →
    aws_s3_default_buffer_pool_reserve w meta ≠ FatalAssert) ∧
  (∀ id t, tickets w !! id = Some t → id ∉ (completing w).*2 →
    aws_s3_default_buffer_pool_acquire_buffer w id t ≠ FatalAssert) ∧
  (∀ id t, tickets w !! id = Some t → id ∉ (completing w).*2 → (ticket_forced t = true → ticket_ptr t ≠ NULL) →
    s_aws_ticket_wrapper_destroy w id t ≠ FatalAssert) ∧
  (∀ fut id, (fut, id) ∈ completing w → complete_pending w fut id ≠ FatalAssert).
Proof.
  intros Hr%reachable_wf. split_and!; intros; eapply res_post_safe;
    [by apply reserve_wf|by apply claim_wf|by apply destroy_wf|by apply complete_pending_wf].
Qed.

(** no reservation is forgotten: once every ticket has been returned, no
    reservation is waiting in the queue. *)
Theorem queue_drains c w : reachable c w → tickets w = ∅ → pending_reserves (pool w) = [].
Proof.
  intros Hr%reachable_wf Ht. destruct (pending_reserves (pool w)) eqn:Hq; [done|].
  by destruct (wf_progress _ Hr); rewrite ?Hq.
Qed.

(** releasing a ticket serves the queue first come, first served: of the
    reservations that were not cancelled a prefix, in order, gets new tickets, the
    rest keeps waiting in order, and the one then at the front does not fit. *)
Theorem release_serves_in_order c w id t w' : reachable c w → tickets w !! id = Some t →
  id ∉ (completing w).*2 → (ticket_forced t = true → ticket_ptr t ≠ NULL) →
  s_aws_ticket_wrapper_destroy w id t = Ok w' →
  ∃ served,
    filter (λ r, default false (future_is_done <$> futures w !! ticket_future r) = false)
      (pending_reserves (pool w)) = served ++ pending_reserves (pool w') ∧
    completing w' = completing w ++ zip (ticket_future <$> served) (seq (next_ticket w) (length served)) ∧
    match pending_reserves (pool w') with [] => True | r :: _ => ¬ fits (pool w') (tickets w') (pending_meta r) end.
Proof.
  intros Hr%reachable_wf Hid Hc Hforced ([p h] & Hrel & (l & Hl & [= <-])%res_bind_Ok)%res_bind_Ok.
  destruct (res_post_Ok _ _ _ (release_inv _ _ _ _ _ (wf_inv _ _ (wf_world _ Hr)) Hid Hforced) Hrel)
    as (Hinv & Hcfg & Hpend & _).
  pose proof (wf_with_release _ _ _ _ _ _ (wf_world _ Hr) Hid Hc Hinv Hcfg) as Hw. rewrite <-Hpend in Hw.
  destruct (res_post_Ok _ _ _ (drop_cancelled_wf _ _ Hw) Hl) as [Hwl ->].
  destruct (serve_pending_prefix _ _ Hwl) as (served & Hs & ? & ?). exists served. by rewrite <-Hpend.
Qed.

(** a reservation that may wait is granted at once exactly when it fits beside
    the live tickets; otherwise it joins the end of the queue and changes no
    counter.  One that exceeds the limit of the pool fails. *)
Theorem reserve_decision c w meta w' fut : reachable c w → uint 64 (meta_size meta) →
  can_block meta = false → s_find_preallocated_buffer (pool w) (meta_request meta) = None →
  aws_s3_default_buffer_pool_reserve w meta = Ok (w', fut) →
  if bool_decide (mem_limit (config (pool w)) < meta_size meta) then
    futures w' !! fut = Some (FutureError AWS_ERROR_S3_PART_SIZE_EXCEEDS_MEMORY_LIMIT) ∧
    pool w' = pool w ∧ tickets w' = tickets w
  else
    (fits (pool w) (tickets w) meta →
      ∃ t, futures w' !! fut = Some (FutureTicket (DefaultTicket (next_ticket w))) ∧
        tickets w' = <[next_ticket w := t]> (tickets w) ∧ ticket_size t = meta_size meta ∧
        ticket_ptr t = NULL ∧ pending_reserves (pool w') = pending_reserves (pool w)) ∧
    (¬ fits (pool w) (tickets w) meta →
      futures w' !! fut = Some FuturePending ∧ tickets w' = tickets w ∧
      pending_reserves (pool w') = pending_reserves (pool w) ++ [mkPending fut meta] ∧
      overall_taken (pool w') = overall_taken (pool w)).
Proof.
  intros [Hw _]%reachable_wf Hu Hb Hpre. unfold aws_s3_default_buffer_pool_reserve. rewrite Hpre, Hb.
  destruct (Z.eqb_spec (meta_size meta) 0) as [|Hz]; [done|]. simpl.
  destruct (Z.ltb_spec (mem_limit (config (pool w))) (meta_size meta)) as [Hgt|Hle].
  { intros [= <- <-]. rewrite bool_decide_true by done. simpl. by rewrite lookup_insert_eq. }
  rewrite bool_decide_false by lia. assert (0 < meta_size meta ≤ mem_limit (config (pool w))) as Hsz by machine.
  assert (tickets w !! next_ticket w = None) as Hnew.
  { apply eq_None_not_Some. intros Hs%(wf_ticket_ids _ _ Hw). lia. }
  destruct (s_try_reserve_synced _ _ _) as [[[t|] p] h] eqn:Ht;
    pose proof (try_reserve_fits _ _ _ _ _ _ _ (wf_inv _ _ Hw) Hsz Ht) as Hfits; intros [= <- <-]; simpl.
  - destruct (try_reserve_Some _ _ _ _ _ _ _ _ (wf_inv _ _ Hw) Hsz Hnew Ht) as (_ & (_ & Hp & _) & Hts & Hptr & _).
    split; [|intros []; by apply Hfits]. intros _. exists t. by rewrite lookup_insert_eq.
  - destruct (try_reserve_None _ _ _ _ _ _ (wf_inv _ _ Hw) Hsz Ht) as (_ & (_ & Hp & _) & Htr & _).
    split; [intros Hx%Hfits; by destruct Hx|]. intros _. rewrite lookup_insert_eq, Hp.
    split_and!; [done..|]. rewrite Htr. by destruct (pool w).
Qed.

(** claiming a ticket returns a buffer of exactly the size that was reserved,
    inside one live allocation; claiming it again returns the same buffer and
    changes nothing. *)
Theorem claim_buffer c w id t w' b : reachable c w → tickets w !! id = Some t → id ∉ (completing w).*2 →
  aws_s3_default_buffer_pool_acquire_buffer w id t = Ok (w', b) →
  buf_capacity b = ticket_size t ∧
  (∃ q x, mem w' !! q = Some x ∧ q ≤ buf_ptr b ∧ buf_ptr b + buf_capacity b ≤ q + cell_size x) ∧
  ∃ t', tickets w' !! id = Some t' ∧ aws_s3_default_buffer_pool_acquire_buffer w' id t' = Ok (w', b).
Proof.
  intros Hr%reachable_wf Hid Hc Ha.
  destruct (res_post_Ok _ _ _ (claim_wf _ _ _ Hr Hid Hc) Ha) as [Hw' (t' & Hid' & (Hsz & _ & _ & Hpos) & ->)].
  assert (ticket_ptr t' ≠ NULL) as Hn by (unfold NULL; lia). split; [done|]. split.
  - destruct (claimed_cell _ _ _ _ _ (wf_inv _ _ (wf_world _ Hw')) Hid' Hn) as (q & x & Hq & ? & ? & _).
    exists q, x. simpl. rewrite <-Hsz. done.
  - exists t'. split; [done|]. unfold aws_s3_default_buffer_pool_acquire_buffer.
    rewrite (proj2 (Z.eqb_neq _ _) Hn). simpl. by rewrite Hsz.
Qed.

(** once every ticket has been returned the pool can be destroyed: no block is
    found in use, no future is found waiting, and no memory is left behind. *)
Theorem destroy_clean c w : reachable c w → tickets w = ∅ → aws_s3_default_buffer_pool_destroy w = Ok ∅.
Proof. intros Hr%reachable_wf. by apply destroy_frees. Qed.

(** with no ticket live, trimming the pool frees every allocation the pool
    ever made, primary blocks, special-sized blocks and secondary buffers alike. *)
Theorem trim_no_leak c w : reachable c w → tickets w = ∅ →
  mem (aws_s3_default_buffer_pool_trim w) = ∅.
Proof.
  intros Hr%reachable_wf Ht. pose proof (wf_inv _ _ (wf_world _ Hr)) as Hinv.
  unfold aws_s3_default_buffer_pool_trim. destruct (s_buffer_pool_trim_synced _ _) as [p h] eqn:Htr.
  destruct (trim_inv _ _ _ _ _ Hinv Htr) as (Hinv' & _ & Hb & Hl). simpl. rewrite Ht in Hinv'.
  by eapply trimmed_empty.
Qed.
End guarantees.

(** * Construction, alignment and caller-owned buffers *)

(** a pool is built exactly when the limit is at least 256 MB, a maximum part
    size, if given, covers the part size and fits in the limit less 128 MB.  Its
    chunk is the part size when 16 of them fit and it is at most 64 MB, and
    otherwise primary storage is off. *)
Theorem new_pool_decision c : uint 64 (part_size c) → uint 64 (max_part_size c) → uint 64 (memory_limit c) →
  let limit := memory_limit c - MB_TO_BYTES 128 in
  match aws_s3_default_buffer_pool_new c with
  | Failure AWS_ERROR_S3_PART_SIZE_EXCEEDS_MEMORY_LIMIT =>
      MB_TO_BYTES 256 ≤ memory_limit c ∧ 0 < max_part_size c < part_size c
  | Failure e => e = AWS_ERROR_S3_INVALID_MEMORY_LIMIT_CONFIG ∧
      (memory_limit c < MB_TO_BYTES 256 ∨ limit < max_part_size c)
  | Success p =>
      MB_TO_BYTES 256 ≤ memory_limit c ∧ max_part_size c ≤ limit ∧
      (max_part_size c = 0 ∨ part_size c ≤ max_part_size c) ∧
      mem_limit (config p) = limit ∧
      chunk_size (config p) = (if bool_decide (part_size c ≤ MB_TO_BYTES 64 ∧ 16 * part_size c ≤ limit)
                               then part_size c else 0) ∧
      pool_block_size (config p) = 16 * chunk_size (config p) ∧
      primary_size_cutoff (config p) = 4 * chunk_size (config p) ∧
      overall_taken p = 0 ∧ pending_reserves p = []
  end.
Proof.
  intros Hp Hm Hl limit. unfold aws_s3_default_buffer_pool_new.
  destruct (Z.ltb_spec (memory_limit c) (MB_TO_BYTES 256)); [by auto|].
  destruct (Z.ltb_spec 0 (max_part_size c)), (Z.ltb_spec (max_part_size c) (part_size c)); simpl; try (by split_and!; lia).
  all: replace (memory_limit c -[64] s_buffer_pool_reserved_mem) with limit
    by (symmetry; apply wrap_small; unfold s_buffer_pool_reserved_mem; machine).
  all: destruct (Z.ltb_spec limit (max_part_size c)); [by auto|]; simpl.
  all: unfold s_max_chunk_size_for_buffer_reuse, s_chunks_per_block.
  all: destruct (Z.ltb_spec (MB_TO_BYTES 64) (part_size c)); simpl;
    [rewrite (bool_decide_false (_ ∧ _)) by lia; split_and!; try done; machine|].
  all: rewrite (wrap_small 64 (part_size c * 16)) by machine.
  all: destruct (Z.ltb_spec limit (part_size c * 16));
    [rewrite (bool_decide_false (_ ∧ _)) by lia; split_and!; try done; machine|].
  all: rewrite bool_decide_true by lia; rewrite !wrap_small by machine; split_and!; try done; machine.
Qed.

(** the aligned size is the least multiple of the chunk that holds [n] bytes, as
    long as rounding up stays within 64 bits, and [n] itself without primary
    storage. *)
Theorem derive_aligned_least p n : 0 < chunk_size (config p) → 0 ≤ n → n + chunk_size (config p) ≤ 2 ^ 64 →
  let r := s_default_pool_derive_aligned_buffer_size p n in
  (∃ k, r = k * chunk_size (config p)) ∧ n ≤ r ∧ ∀ k, n ≤ k * chunk_size (config p) → r ≤ k * chunk_size (config p).
Proof.
  intros Hc Hn Hb. unfold s_default_pool_derive_aligned_buffer_size. set (ch := chunk_size (config p)) in *.
  rewrite (proj2 (Z.eqb_neq ch 0)) by lia.
  pose proof (Z.div_mod n ch). pose proof (Z.mod_pos_bound n ch).
  assert (0 ≤ n / ch ≤ n) by (split; [apply Z.div_pos; lia|apply Z.div_le_upper_bound; nia]).
  destruct (Z.eqb_spec (n mod ch) 0) as [Hz|Hz]; simpl.
  - rewrite wrap_small by (unfold uint; nia). split; [by eexists|]. split; [lia|]. intros k Hk. nia.
  - rewrite (wrap_small 64 (n / ch + 1)) by (unfold uint; lia). rewrite wrap_small by (unfold uint; nia).
    split; [by eexists|]. split; [nia|]. intros k Hk. assert (n / ch < k) by nia. nia.
Qed.

(** a reservation of a request with a caller-owned buffer never touches the
    pool: it gets the view of [meta_size] bytes at its offset when the view lies
    inside the buffer, and AWS_ERROR_SHORT_BUFFER otherwise. *)
Theorem preallocated_view `{!AwsMath, !AwsAllocator} w meta b : uint 64 (meta_size meta) → meta_size meta ≠ 0 →
  uint 64 (local_offset meta) → uint 64 (buf_capacity b) →
  s_find_preallocated_buffer (pool w) (meta_request meta) = Some b →
  ∃ w', aws_s3_default_buffer_pool_reserve w meta = Ok (w', next_future w) ∧
    pool w' = pool w ∧ tickets w' = tickets w ∧ mem w' = mem w ∧
    futures w' !! next_future w = Some
      (if bool_decide (local_offset meta + meta_size meta ≤ buf_capacity b)
       then FutureTicket (PreallocatedTicket (buf_ptr b + local_offset meta) (meta_size meta))
       else FutureError AWS_ERROR_SHORT_BUFFER).
Proof.
  intros Hs Hz Ho Hcap Hf. unfold aws_s3_default_buffer_pool_reserve. rewrite Hf, (proj2 (Z.eqb_neq _ _) Hz). simpl.
  eexists. split; [done|]. split_and!; try done. simpl. rewrite lookup_insert_eq. f_equal.
  unfold s_reserve_from_preallocated_buffer. destruct (Z.ltb_spec (buf_capacity b) (local_offset meta)); simpl.
  - rewrite bool_decide_false; [done|]. machine.
  - rewrite wrap_small by machine. destruct (Z.ltb_spec (buf_capacity b - local_offset meta) (meta_size meta));
      [rewrite bool_decide_false by lia|rewrite bool_decide_true by lia]; done.
Qed.

(** a forced ticket that is released without having been claimed takes its size
    off a counter that was never charged for it: on a pool with nothing reserved the
    counter wraps around, and the pool then counts [2^64 - n] bytes as taken although
    no ticket is live. *)
Theorem unclaimed_forced_release_underflows p h n : inv p h ∅ → 0 < n ≤ mem_limit (config p) →
  ∃ p', release_ticket_synced p h (forced_ticket p n) = Ok (p', h) ∧
    reserved_of (ticket_from (forced_ticket p n)) p' = 2 ^ 64 - n ∧
    overall_taken p' = 2 ^ 64 - n.
Proof.
  intros [Hc Ha _ _ _ _] Hn. pose proof (ok_limit _ Hc).
  destruct Ha as [_ Hr Hu _ _ _].
  pose proof (Hr RESERVED_FROM_PRIMARY) as Hr1. pose proof (Hr RESERVED_FROM_SECONDARY) as Hr2.
  pose proof (Hr RESERVED_FROM_SPECIAL) as Hr3. pose proof (Hu RESERVED_FROM_PRIMARY) as Hu1.
  pose proof (Hu RESERVED_FROM_SECONDARY) as Hu2. pose proof (Hu RESERVED_FROM_SPECIAL) as Hu3.
  rewrite !msum_empty in *. simpl in *.
  assert (wrap 64 (0 - n) = 2 ^ 64 - n) as Hw.
  { unfold wrap. symmetry. apply (Zmod_unique _ _ (-1)); lia. }
  unfold release_ticket_synced, forced_ticket, overall_taken. simpl.
  destruct (_ && _); (eexists; split; [done|]); simpl;
    rewrite ?Hr1, ?Hr2, ?Hr3, ?Hu1, ?Hu2, ?Hu3, Hw; (split; [done|]);
    repeat (rewrite wrap_add_l, <-?Z.add_assoc); rewrite wrap_small by (unfold uint; lia); lia.
Qed.

#[local] Existing Instances aws_math_ref aws_math_ref_laws bump_allocator bump_allocator_laws.

(** * A concrete run *)

(** A pool with 8 MB parts under a 1 GB limit; three reservations, two of them
    claimed, with the machine's arithmetic and a bump allocator. *)
Module Demo.
Definition conf : buffer_pool_config := mkPoolConfig (MB_TO_BYTES 8) (MB_TO_BYTES 8) (GB_TO_BYTES 1).
Definition ask (n : Z) : reserve_meta := mkMeta None n false 0.
Definition must (n : Z) : reserve_meta := mkMeta None n true 0.

Definition ok_or {A} (d : A) (m : res A) : A := match m with Ok a => a | _ => d end.
Definition pool0 : buffer_pool :=
  match aws_s3_default_buffer_pool_new conf with
  | Success p => p
  | Failure _ => mkPool (mkConfig 0 0 0 0 0) 0 0 0 0 0 0 0 0 0 [] [] ∅ ∅ false
  end.
Definition reserve (m : reserve_meta) (w : world) : world :=
  (ok_or (w, O) (aws_s3_default_buffer_pool_reserve w m)).1.
Definition claim (id : nat) (w : world) : world :=
  match tickets w !! id with
  | Some t => (ok_or (w, mkBuf 0 0) (aws_s3_default_buffer_pool_acquire_buffer w id t)).1
  | None => w
  end.
Definition release (id : nat) (w : world) : world :=
  match tickets w !! id with
  | Some t => ok_or w (s_aws_ticket_wrapper_destroy w id t)
  | None => w
  end.

Definition w0 : world := new_world pool0.
Definition w1 : world := reserve (ask (MB_TO_BYTES 8)) w0.
Definition w2 : world := reserve (ask (MB_TO_BYTES 20)) w1.
Definition w3 : world := reserve (ask (MB_TO_BYTES 100)) w2.
Definition w4 : world := claim 0 w3.
Definition w5 : world := claim 1 w4.

Notation reach := (reachable conf).

Definition is_ok {A} (m : res A) : bool := match m with Ok _ => true | _ => false end.

Lemma reach_reserve m w : reach w →
  bool_decide (uint 64 (meta_size m)) && negb (can_block m) && is_ok (aws_s3_default_buffer_pool_reserve w m) = true →
  reach (reserve m w).
Proof.
  intros Hr [[Hu%bool_decide_eq_true Hb%negb_true_iff]%andb_true_iff Hok]%andb_true_iff. unfold reserve.
  destruct (aws_s3_default_buffer_pool_reserve w m) as [[w' f]| |] eqn:Hw; [|done..].
  eapply reachable_step; [done|]. eapply step_reserve; [done| |done]. by rewrite Hb.
Qed.

Lemma reach_must n w : reach w →
  bool_decide (uint 64 n) && bool_decide (msum forced_bytes (tickets w) + n < 2 ^ 63)
    && is_ok (aws_s3_default_buffer_pool_reserve w (must n)) = true →
  reach (reserve (must n) w).
Proof.
  intros Hr [[Hu%bool_decide_eq_true Hb%bool_decide_eq_true]%andb_true_iff Hok]%andb_true_iff. unfold reserve.
  destruct (aws_s3_default_buffer_pool_reserve w (must n)) as [[w' f]| |] eqn:Hw; [|done..].
  eapply reachable_step; [done|]. eapply (step_reserve w (must n)); [exact Hu|intros _; exact Hb|exact Hw].
Qed.

Lemma reach_claim id w : reach w →
  bool_decide (id ∉ (completing w).*2) && match tickets w !! id with
    | Some t => is_ok (aws_s3_default_buffer_pool_acquire_buffer w id t) | None => false end = true →
  reach (claim id w).
Proof.
  intros Hr [Hc%bool_decide_eq_true Hok]%andb_true_iff. unfold claim.
  destruct (tickets w !! id) as [t|] eqn:Ht; [|done].
  destruct (aws_s3_default_buffer_pool_acquire_buffer w id t) as [[w' b]| |] eqn:Hw; [|done..].
  eapply reachable_step; [done|]. by eapply step_claim.
Qed.

Lemma reach_release id w : reach w →
  bool_decide (id ∉ (completing w).*2) && match tickets w !! id with
    | Some t => (negb (ticket_forced t) || negb (ticket_ptr t =? NULL)) && is_ok (s_aws_ticket_wrapper_destroy w id t)
    | None => false end = true →
  reach (release id w).
Proof.
  intros Hr [Hc%bool_decide_eq_true Hok]%andb_true_iff. unfold release.
  destruct (tickets w !! id) as [t|] eqn:Ht; [|done]. apply andb_true_iff in Hok as [Hf Hok].
  destruct (s_aws_ticket_wrapper_destroy w id t) as [w'| |] eqn:Hw; [|done..].
  eapply reachable_step; [done|]. eapply step_release; [done..| |done].
  intros Hforced. rewrite Hforced in Hf. by apply Z.eqb_neq, negb_true_iff.
Qed.

Lemma reach_w0 : reach w0.
Proof. apply reachable_new; [vm_compute; discriminate|vm_compute; discriminate|reflexivity]. Qed.

Lemma reach_w3 : reach w3.
Proof. do 3 (apply reach_reserve; [|vm_compute; reflexivity]). exact reach_w0. Qed.

Lemma reach_w5 : reach w5.
Proof. do 2 (apply reach_claim; [|vm_compute; reflexivity]). exact reach_w3. Qed.

(** All tickets of [w5] returned. *)
Definition w8 : world := release 2 (release 1 (release 0 w5)).
Lemma reach_w8 : reach w8.
Proof. do 3 (apply reach_release; [|vm_compute; reflexivity]). exact reach_w5. Qed.

(** 800 of the 896 MB taken, and a reservation of 200 MB waiting. *)
Definition full : world := reserve (ask (MB_TO_BYTES 200)) (claim 0 (reserve (ask (MB_TO_BYTES 800)) w0)).
Lemma reach_full : reach full.
Proof.
  apply reach_reserve; [|vm_compute; reflexivity]. apply reach_claim; [|vm_compute; reflexivity].
  apply reach_reserve; [|vm_compute; reflexivity]. exact reach_w0.
Qed.
End Demo.

Lemma claimed_buffers_disjoint_witness :
  range_disjoint 4096 (MB_TO_BYTES 8) (4096 + MB_TO_BYTES 8) (MB_TO_BYTES 20).
Proof.
  refine (claimed_buffers_disjoint Demo.conf Demo.w5 0 1
    (mkTicket (MB_TO_BYTES 8) 4096 1 false RESERVED_FROM_PRIMARY)
    (mkTicket (MB_TO_BYTES 20) (4096 + MB_TO_BYTES 8) 3 false RESERVED_FROM_PRIMARY) Demo.reach_w5 _ _ _ _ _);
    [discriminate|vm_compute; reflexivity|vm_compute; reflexivity|discriminate|discriminate].
Defined.

Lemma usage_exact_witness :
  stat_primary_used (aws_s3_default_buffer_pool_get_usage (pool Demo.w5)) = MB_TO_BYTES 28 ∧
  stat_primary_used (aws_s3_default_buffer_pool_get_usage (pool Demo.w5))
    = msum (used_bytes RESERVED_FROM_PRIMARY) (tickets Demo.w5).
Proof. split; [vm_compute; reflexivity|apply (usage_exact Demo.conf Demo.w5 Demo.reach_w5)]. Defined.

Lemma limit_respected_witness :
  msum normal_bytes (tickets Demo.full) = MB_TO_BYTES 800 ∧
  msum normal_bytes (tickets Demo.full) ≤ mem_limit (config (pool Demo.full)).
Proof. split; [vm_compute; reflexivity|apply (limit_respected Demo.conf Demo.full Demo.reach_full)]. Defined.

Lemma no_assertion_fails_witness :
  aws_s3_default_buffer_pool_reserve Demo.full (Demo.ask 1) ≠ FatalAssert.
Proof.
  apply (no_assertion_fails Demo.conf Demo.full Demo.reach_full); [vm_compute; split; congruence|discriminate..].
Defined.

Lemma queue_drains_witness : tickets Demo.w8 = ∅ ∧ pending_reserves (pool Demo.w8) = [].
Proof.
  assert (tickets Demo.w8 = ∅) as Ht by (vm_compute; reflexivity).
  split; [exact Ht|exact (queue_drains Demo.conf Demo.w8 Demo.reach_w8 Ht)].
Defined.

Lemma destroy_clean_witness : aws_s3_default_buffer_pool_destroy Demo.w8 = Ok ∅.
Proof. apply (destroy_clean Demo.conf Demo.w8 Demo.reach_w8). vm_compute. reflexivity. Defined.

Lemma trim_no_leak_witness :
  mem Demo.w8 ≠ ∅ ∧ mem (aws_s3_default_buffer_pool_trim Demo.w8) = ∅.
Proof.
  split; [intros Hm; vm_compute in Hm; discriminate Hm|].
  apply (trim_no_leak Demo.conf Demo.w8 Demo.reach_w8). vm_compute. reflexivity.
Defined.

Lemma release_serves_in_order_witness : ∃ served, length served = 1%nat ∧
  completing (Demo.release 0 Demo.full) = completing Demo.full ++
    zip (ticket_future <$> served) (seq (next_ticket Demo.full) (length served)).
Proof.
  destruct (release_serves_in_order Demo.conf Demo.full 0
    (mkTicket (MB_TO_BYTES 800) 4096 0 false RESERVED_FROM_SECONDARY) (Demo.release 0 Demo.full)
    Demo.reach_full) as (served & Hs & Hc & _);
    [vm_compute; reflexivity|vm_compute; apply not_elem_of_nil|discriminate|vm_compute; reflexivity|].
  exists served. split; [|exact Hc].
  assert (pending_reserves (pool (Demo.release 0 Demo.full)) = []) as Hp by (vm_compute; reflexivity).
  rewrite Hp, app_nil_r in Hs. rewrite <-Hs. vm_compute. reflexivity.
Defined.

Lemma reserve_decision_witness :
  ¬ fits (pool Demo.full) (tickets Demo.full) (Demo.ask (MB_TO_BYTES 100)) ∧
  pending_reserves (pool (Demo.reserve (Demo.ask (MB_TO_BYTES 100)) Demo.full))
    = pending_reserves (pool Demo.full) ++ [mkPending 2 (Demo.ask (MB_TO_BYTES 100))].
Proof.
  pose proof (reserve_decision Demo.conf Demo.full (Demo.ask (MB_TO_BYTES 100))
    (Demo.reserve (Demo.ask (MB_TO_BYTES 100)) Demo.full) 2 Demo.reach_full) as Hd.
  rewrite bool_decide_false in Hd by (vm_compute; discriminate).
  destruct Hd as [_ Hd]; [vm_compute; split; congruence|reflexivity|reflexivity|vm_compute; reflexivity|].
  assert (¬ fits (pool Demo.full) (tickets Demo.full) (Demo.ask (MB_TO_BYTES 100))) as Hn by (vm_compute; congruence).
  split; [exact Hn|]. apply (Hd Hn).
Defined.

Lemma claim_buffer_witness : ∃ b,
  aws_s3_default_buffer_pool_acquire_buffer Demo.w3 0 (mkTicket (MB_TO_BYTES 8) 0 0 false RESERVED_FROM_PRIMARY)
    = Ok (Demo.w4, b) ∧ buf_capacity b = MB_TO_BYTES 8.
Proof.
  exists (mkBuf 4096 (MB_TO_BYTES 8)).
  assert (aws_s3_default_buffer_pool_acquire_buffer Demo.w3 0 (mkTicket (MB_TO_BYTES 8) 0 0 false RESERVED_FROM_PRIMARY)
    = Ok (Demo.w4, mkBuf 4096 (MB_TO_BYTES 8))) as Ha by (vm_compute; reflexivity).
  split; [exact Ha|]. refine (proj1 (claim_buffer Demo.conf Demo.w3 0 _ Demo.w4 _ Demo.reach_w3 _ _ Ha));
    [vm_compute; reflexivity|vm_compute; apply not_elem_of_nil].
Defined.

Lemma new_pool_decision_witness :
  mem_limit (config Demo.pool0) = MB_TO_BYTES 896.
Proof.
  pose proof (new_pool_decision Demo.conf) as Hn. cbv zeta in Hn.
  assert (aws_s3_default_buffer_pool_new Demo.conf = Success Demo.pool0) as Hp by (vm_compute; reflexivity).
  rewrite Hp in Hn. destruct Hn as (_ & _ & _ & Hl & _); [vm_compute; split; congruence..|]. exact Hl.
Defined.

Lemma derive_aligned_least_witness :
  s_default_pool_derive_aligned_buffer_size Demo.pool0 (MB_TO_BYTES 20) = MB_TO_BYTES 24 ∧
  MB_TO_BYTES 20 ≤ s_default_pool_derive_aligned_buffer_size Demo.pool0 (MB_TO_BYTES 20).
Proof.
  split; [vm_compute; reflexivity|].
  apply (derive_aligned_least Demo.pool0 (MB_TO_BYTES 20)); vm_compute; congruence.
Defined.

Lemma preallocated_view_witness :
  ∃ w', aws_s3_default_buffer_pool_reserve
      (s_default_pool_add_preallocated_buffer Demo.w0 7 (mkBuf 1000 100)) (mkMeta (Some 7) 40 false 60) = Ok (w', 0%nat) ∧
    futures w' !! 0%nat = Some (FutureTicket (PreallocatedTicket 1060 40)).
Proof.
  destruct (preallocated_view (s_default_pool_add_preallocated_buffer Demo.w0 7 (mkBuf 1000 100))
    (mkMeta (Some 7) 40 false 60) (mkBuf 1000 100)) as (w' & Hr & _ & _ & _ & Hf);
    [vm_compute; split; congruence|discriminate|vm_compute; split; congruence|vm_compute; split; congruence|reflexivity|].
  exists w'. split; [exact Hr|exact Hf].
Defined.

Lemma unclaimed_forced_release_underflows_witness :
  ∃ p', release_ticket_synced Demo.pool0 ∅ (forced_ticket Demo.pool0 (MB_TO_BYTES 8)) = Ok (p', ∅) ∧
    overall_taken p' = 2 ^ 64 - MB_TO_BYTES 8.
Proof.
  destruct (unclaimed_forced_release_underflows Demo.pool0 ∅ (MB_TO_BYTES 8)) as (p' & Hr & _ & Ho).
  - apply (new_pool_inv Demo.conf); [vm_compute; discriminate|vm_compute; discriminate|vm_compute; reflexivity].
  - vm_compute. split; congruence.
  - exists p'. split; [exact Hr|exact Ho].
Defined.
