(* ===== verification/PartMath.v ===== *)
(** How objects are cut into parts (source/s3_util.c): the number of parts of a
    ranged download and the byte range of each, the part size of a multipart upload,
    the optimal range sizes, and who decides that parts may be delivered out of
    order. *)

From S2P Require Import Prelude AwsCommon.

(** * Constants of s3_util.c *)

Definition g_s3_max_num_upload_parts : Z := 10000.
Definition g_s3_min_upload_part_size : Z := MB_TO_BYTES 5.
Definition g_default_part_size_fallback : Z := MB_TO_BYTES 8.
Definition g_default_max_part_size : Z := 5368709120.
Definition s_optimal_range_size_memory_divisor : Z := 3.
Definition g_s3express_connection_limitation : Z := 75.
Definition g_s3express_connection_limitation_part_size_threshold : Z :=
  g_default_max_part_size / g_s3express_connection_limitation.
Definition g_s3express_connection_limitation_object_size_threshold : Z := TB_TO_BYTES 4.

(** * Ranged downloads *)

Definition aws_s3_calculate_auto_ranged_get_num_parts
    (part_size first_part_size object_range_start object_range_end : Z) : Z :=
  let num_parts := 1 in
  if first_part_size =? 0 then num_parts
  else
    let second_part_start := object_range_start +[64] first_part_size in
    if second_part_start <=? object_range_end then
      let aligned_range_remainder := (object_range_end +[64] 1) -[64] second_part_start in
      let num_parts := num_parts +[32] wrap 32 (aligned_range_remainder / part_size) in
      if 0 <? aligned_range_remainder mod part_size then num_parts +[32] 1 else num_parts
    else num_parts.

(** The first and the last byte of part [part_number], both inclusive. *)
Definition aws_s3_calculate_auto_ranged_get_part_range
    (object_range_start object_range_end part_size first_part_size part_number : Z) : Z * Z :=
  let part_index := part_number -[32] 1 in
  let '(part_range_start, part_range_end) :=
    if part_index =? 0 then
      (object_range_start, object_range_start +[64] first_part_size -[64] 1)
    else
      let part_range_start :=
        object_range_start +[64] ((part_index -[32] 1) *[64] part_size) +[64] first_part_size in
      (part_range_start, part_range_start +[64] part_size -[64] 1) in
  (part_range_start,
   if object_range_end <? part_range_end then object_range_end else part_range_end).

(** * Multipart uploads *)

(** The part size and the number of parts.  [part_size_uint64 > SIZE_MAX] can only
    hold where [size_t] is narrower than 64 bits. *)
Definition aws_s3_calculate_optimal_mpu_part_size_and_num_parts
    (content_length client_part_size client_max_part_size : Z) : result aws_error (Z * Z) :=
  if content_length =? 0 then Success (0, 0)
  else
    let part_size := content_length / g_s3_max_num_upload_parts in
    let part_size :=
      if 0 <? content_length mod g_s3_max_num_upload_parts then part_size +[64] 1 else part_size in
    if SIZE_MAX <? part_size then Failure AWS_ERROR_INVALID_ARGUMENT
    else
      let part_size := if part_size <? client_part_size then client_part_size else part_size in
      let part_size := if content_length <? part_size then content_length else part_size in
      let num_parts := wrap 32 (content_length / part_size) in
      let num_parts := if 0 <? content_length mod part_size then num_parts +[32] 1 else num_parts in
      Success (part_size, num_parts).

(** * Optimal range sizes *)

Definition aws_s3_calculate_client_optimal_range_size (memory_limit_in_bytes max_connections : Z)
    : result aws_error Z :=
  if (memory_limit_in_bytes =? 0) || (max_connections =? 0) then Failure AWS_ERROR_INVALID_ARGUMENT
  else
    let optimal_size := memory_limit_in_bytes / max_connections / s_optimal_range_size_memory_divisor in
    let optimal_size :=
      if optimal_size <? g_default_part_size_fallback then g_default_part_size_fallback else optimal_size in
    Success (if g_default_max_part_size <? optimal_size then g_default_max_part_size else optimal_size).

Section range_size.
Context `{!AwsMath}.

Definition aws_s3_calculate_request_optimal_range_size
    (client_optimal_range_size estimated_object_stored_part_size : Z) (is_express : bool) : result aws_error Z :=
  if client_optimal_range_size =? 0 then Failure AWS_ERROR_INVALID_ARGUMENT
  else
    let optimal_size :=
      if (0 <? estimated_object_stored_part_size)
         && (estimated_object_stored_part_size <? client_optimal_range_size)
      then estimated_object_stored_part_size else client_optimal_range_size in
    let optimal_size :=
      if optimal_size <? g_default_part_size_fallback then g_default_part_size_fallback else optimal_size in
    Success (if is_express then aws_min_u64 optimal_size (MB_TO_BYTES 128)
             else aws_min_u64 optimal_size (GB_TO_BYTES 2)).
End range_size.

(** * Out-of-order delivery *)

(** [enum aws_tribool] *)
Inductive aws_tribool := AWS_TRIBOOL_UNSET | AWS_TRIBOOL_FALSE | AWS_TRIBOOL_TRUE.

#[export] Instance aws_tribool_eq_dec : EqDecision aws_tribool.
Proof. solve_decision. Defined.

Definition aws_s3_allow_out_of_order_delivery (file_sink callback_sink : bool)
    (request_override client_setting env_setting : aws_tribool) : bool :=
  if negb file_sink && negb callback_sink then false
  else
    let out_of_order := file_sink in
    let preference := request_override in
    let preference := if decide (preference = AWS_TRIBOOL_UNSET) then client_setting else preference in
    let preference := if decide (preference = AWS_TRIBOOL_UNSET) then env_setting else preference in
    if decide (preference = AWS_TRIBOOL_UNSET) then out_of_order
    else bool_decide (preference = AWS_TRIBOOL_TRUE).

(** * Tiling *)

(** [tiles s e l]: the ranges of [l], each with its two ends inclusive, cover
    [[s, e]] one after the other, without gap or overlap. *)
Fixpoint tiles (s e : Z) (l : list (Z * Z)) : Prop :=
  match l with
  | [] => s = e + 1
  | (a, b) :: l => a = s ∧ a ≤ b ≤ e ∧ tiles (b + 1) e l
  end.

(** The ranges of the parts [part_number, ..., part_number + count - 1]. *)
Definition part_ranges (object_range_start object_range_end part_size first_part_size part_number : Z) (count : nat)
    : list (Z * Z) :=
  (λ i, aws_s3_calculate_auto_ranged_get_part_range object_range_start object_range_end part_size first_part_size
          (part_number + Z.of_nat i)) <$> seq 0 count.

(** * Theorems on ranged downloads *)

Section download.
Context (part_size first_part_size s e : Z).
Context (Hps : 0 < part_size) (Hfirst : 0 < first_part_size) (Hs : 0 ≤ s) (Hse : s ≤ e).
Context (Hend : e + part_size < 2 ^ 64) (Hend' : e + first_part_size < 2 ^ 64).
Context (Hcount : (e - s) / part_size + 2 < 2 ^ 32).

Notation num_parts := (aws_s3_calculate_auto_ranged_get_num_parts part_size first_part_size s e).
Notation range k := (aws_s3_calculate_auto_ranged_get_part_range s e part_size first_part_size k).

(** The bytes after the first part, and how many parts they take. *)
Let rest := e + 1 - (s + first_part_size).

Lemma num_parts_cases :
  (rest ≤ 0 ∧ num_parts = 1) ∨
  (0 < rest ∧ 2 ≤ num_parts < 2 ^ 32 ∧ (num_parts - 2) * part_size < rest ≤ (num_parts - 1) * part_size).
Proof using All.
  unfold aws_s3_calculate_auto_ranged_get_num_parts. rewrite (proj2 (Z.eqb_neq first_part_size 0)) by lia.
  rewrite (wrap_small 64 (s + _)) by machine. destruct (Z.leb_spec (s + first_part_size) e); [right|left; unfold rest in *; lia].
  rewrite (wrap_small 64 (e + 1)) by machine. rewrite (wrap_small 64 (e + 1 - _)) by machine. fold rest.
  assert (0 < rest ≤ e - s) by (unfold rest in *; lia).
  pose proof (Z.div_mod rest part_size ltac:(lia)). pose proof (Z.mod_pos_bound rest part_size Hps).
  assert (0 ≤ rest / part_size ≤ (e - s) / part_size) by (split; [apply Z.div_pos|apply Z.div_le_mono]; lia).
  rewrite (wrap_small 32 (rest / part_size)) by machine. rewrite (wrap_small 32 (1 + _)) by machine.
  destruct (Z.ltb_spec 0 (rest mod part_size)); [rewrite wrap_small by machine|]; split_and!; nia.
Qed.

(** Part [k] starts where the parts before it end. *)
Definition part_start (k : Z) : Z := if k =? 1 then s else s + first_part_size + (k - 2) * part_size.

Lemma part_start_bound k : 1 ≤ k ≤ num_parts → part_start k ≤ e ∧ num_parts < 2 ^ 32.
Proof using All.
  intros Hk. unfold part_start. pose proof num_parts_cases as Hn. unfold rest in *.
  destruct (Z.eqb_spec k 1); [lia|]. nia.
Qed.

Lemma part_range_spec k : 1 ≤ k ≤ num_parts →
  range k = (part_start k, Z.min e (part_start k + (if k =? 1 then first_part_size else part_size) - 1)).
Proof using All.
  intros Hk. pose proof (part_start_bound k Hk) as [Hb Hn]. unfold part_start in *.
  unfold aws_s3_calculate_auto_ranged_get_part_range.
  assert (∀ x, (if e <? x then e else x) = Z.min e x) as Hmin by (intros x; destruct (Z.ltb_spec e x); lia).
  rewrite (wrap_small 32 (k - 1)) by machine. destruct (Z.eqb_spec k 1) as [->|Hk1]; simpl.
  - rewrite (wrap_small 64 (s + first_part_size)) by machine. rewrite wrap_small by machine. by rewrite Hmin.
  - rewrite (proj2 (Z.eqb_neq (k - 1) 0)) by lia. rewrite (wrap_small 32 (k - 1 - 1)) by machine.
    assert (0 ≤ (k - 1 - 1) * part_size) by nia.
    rewrite (wrap_small 64 ((k - 1 - 1) * part_size)) by machine.
    rewrite (wrap_small 64 (s + _)) by machine. rewrite (wrap_small 64 (s + _ + _)) by machine.
    replace (s + (k - 1 - 1) * part_size + first_part_size) with (s + first_part_size + (k - 2) * part_size) by lia.
    rewrite (wrap_small 64 (_ + part_size)) by machine. rewrite wrap_small by machine. by rewrite Hmin.
Qed.

Lemma part_ranges_cons k count : part_ranges s e part_size first_part_size k (S count)
  = range k :: part_ranges s e part_size first_part_size (k + 1) count.
Proof.
  unfold part_ranges. simpl. f_equal; [f_equal; lia|]. rewrite <-fmap_S_seq, <-list_fmap_compose.
  apply list_fmap_ext. intros _ i _. simpl. f_equal. lia.
Qed.

Lemma part_ranges_tile (count : nat) k : 1 ≤ k → k + Z.of_nat count = num_parts + 1 →
  tiles (if k =? num_parts + 1 then e + 1 else part_start k) e (part_ranges s e part_size first_part_size k count).
Proof using All.
  revert k. induction count as [|count IH]; intros k Hk Hc.
  - simpl. by rewrite (proj2 (Z.eqb_eq k (num_parts + 1))) by lia.
  - rewrite (proj2 (Z.eqb_neq k (num_parts + 1))) by lia. rewrite part_ranges_cons, part_range_spec by lia. simpl.
    pose proof (part_start_bound k ltac:(lia)) as [Hb _].
    split; [done|]. split; [destruct (Z.eqb_spec k 1); lia|].
    specialize (IH (k + 1) ltac:(lia) ltac:(lia)). pose proof num_parts_cases as Hn. unfold rest in *.
    destruct (Z.eqb_spec (k + 1) (num_parts + 1)) as [Hlast|Hmore].
    + replace (Z.min e _) with e; [done|]. unfold part_start. destruct (Z.eqb_spec k 1); [lia|nia].
    + pose proof (part_start_bound (k + 1) ltac:(lia)) as [Hb' _]. unfold part_start in *.
      rewrite (proj2 (Z.eqb_neq (k + 1) 1)) in * by lia.
      replace (Z.min e _ + 1) with (s + first_part_size + (k + 1 - 2) * part_size); [done|].
      destruct (Z.eqb_spec k 1) as [->|]; lia.
Qed.

(** C35: the parts of a ranged download, numbered from 1, cover the object range byte
    for byte: part 1 starts at the start of the range, each next part starts right
    after the one before, no part is empty, and the last ends at the end. *)
Theorem download_parts_tile :
  tiles s e (part_ranges s e part_size first_part_size 1 (Z.to_nat num_parts)).
Proof using All.
  pose proof (part_ranges_tile (Z.to_nat num_parts) 1 ltac:(lia)) as Ht. pose proof num_parts_cases as Hn. unfold rest in *.
  rewrite (proj2 (Z.eqb_neq 1 (num_parts + 1))) in Ht by lia. apply Ht. lia.
Qed.

(** part 1 has the first-part size and every later part the part size, except
    that the last part stops at the end of the range. *)
Theorem download_part_sizes k : 1 ≤ k ≤ num_parts →
  let '(a, b) := range k in
  let full := if k =? 1 then first_part_size else part_size in
  0 < b - a + 1 ≤ full ∧ (k < num_parts → b - a + 1 = full).
Proof using All.
  intros Hk. rewrite part_range_spec by done. cbn beta iota zeta. pose proof (part_start_bound k Hk) as [Hb _].
  pose proof num_parts_cases as Hn. unfold rest in *. unfold part_start in *. split.
  - destruct (Z.eqb_spec k 1); lia.
  - intros Hlt. destruct (Z.eqb_spec k 1); nia.
Qed.
End download.

(** * Theorems on uploads and sizes *)

(** Dividing [n] bytes into parts of [p] rounded up. *)
Lemma ceil_div_bounds n p : 0 < n → 0 < p →
  let k := n / p + (if 0 <? n mod p then 1 else 0) in 1 ≤ k ≤ n ∧ (k - 1) * p < n ≤ k * p.
Proof.
  intros Hn Hp. pose proof (Z.div_mod n p ltac:(lia)). pose proof (Z.mod_pos_bound n p Hp).
  assert (0 ≤ n / p) by (apply Z.div_pos; lia). destruct (Z.ltb_spec 0 (n mod p)); cbn zeta; nia.
Qed.

(** for every content length and client part size the upload gets between 1 and
    10,000 parts of one size, all full but the last; the size is at least the
    client's unless the whole content is smaller.  No arithmetic wraps around. *)
Theorem mpu_part_size content_length client_part_size client_max_part_size :
  0 < content_length < 2 ^ 64 → uint 64 client_part_size →
  ∃ part_size num_parts,
    aws_s3_calculate_optimal_mpu_part_size_and_num_parts content_length client_part_size client_max_part_size
      = Success (part_size, num_parts) ∧
    1 ≤ num_parts ≤ g_s3_max_num_upload_parts ∧
    (num_parts - 1) * part_size < content_length ≤ num_parts * part_size ∧
    Z.min client_part_size content_length ≤ part_size ≤ content_length.
Proof.
  intros Hn Hc. unfold aws_s3_calculate_optimal_mpu_part_size_and_num_parts, g_s3_max_num_upload_parts.
  rewrite (proj2 (Z.eqb_neq content_length 0)) by lia.
  pose proof (ceil_div_bounds content_length 10000 ltac:(lia) ltac:(lia)) as Hmin. cbv zeta in Hmin.
  replace (if 0 <? content_length mod 10000 then content_length / 10000 +[64] 1 else content_length / 10000)
    with (content_length / 10000 + (if 0 <? content_length mod 10000 then 1 else 0)).
  2:{ destruct (0 <? content_length mod 10000); [|lia]. symmetry. apply wrap_small. machine. }
  set (least := content_length / 10000 + _) in *. clearbody least.
  rewrite (proj2 (Z.ltb_ge SIZE_MAX least)) by machine.
  set (size := if content_length <? _ then _ else _).
  assert (least ≤ size ∧ Z.min client_part_size content_length ≤ size ≤ content_length) as [Hl Hsize].
  { subst size. destruct (Z.ltb_spec least client_part_size);
      [destruct (Z.ltb_spec content_length client_part_size)|destruct (Z.ltb_spec content_length least)]; lia. }
  clearbody size. pose proof (ceil_div_bounds content_length size ltac:(lia) ltac:(lia)) as Hk. cbv zeta in Hk.
  exists size, (content_length / size + (if 0 <? content_length mod size then 1 else 0)).
  set (k := content_length / size + _) in *. assert (k ≤ 10000) by nia. split; [|split_and!; lia].
  do 2 f_equal. subst k. assert (0 ≤ content_length / size) by (apply Z.div_pos; lia).
  rewrite (wrap_small 32 (content_length / size)) by (destruct (0 <? content_length mod size); machine).
  destruct (0 <? content_length mod size); rewrite ?wrap_small by machine; lia.
Qed.

(** the client's range size lies between 8 MB and 5 GB and is
    [memory / connections / 3] inside these bounds; three ranges for every
    connection fit in memory whenever the lower bound does not apply. *)
Theorem client_range_size memory connections : 0 < memory < 2 ^ 64 → 0 < connections < 2 ^ 32 →
  ∃ r, aws_s3_calculate_client_optimal_range_size memory connections = Success r ∧
    r = Z.min g_default_max_part_size (Z.max g_default_part_size_fallback (memory / connections / 3)) ∧
    (g_default_part_size_fallback ≤ memory / connections / 3 → 3 * connections * r ≤ memory).
Proof.
  intros Hm Hc. unfold aws_s3_calculate_client_optimal_range_size, s_optimal_range_size_memory_divisor.
  rewrite (proj2 (Z.eqb_neq memory 0)), (proj2 (Z.eqb_neq connections 0)) by lia. simpl.
  eexists. split; [done|]. set (q := memory / connections / 3).
  assert (3 * connections * q ≤ memory) as Hq.
  { subst q. rewrite Z.div_div by lia. pose proof (Z.mul_div_le memory (connections * 3)). lia. }
  split.
  - unfold g_default_max_part_size, g_default_part_size_fallback, MB_TO_BYTES. clear. repeat case_match; lia.
  - intros Hge. rewrite (proj2 (Z.ltb_ge q g_default_part_size_fallback)) by done.
    destruct (Z.ltb_spec g_default_max_part_size q); nia.
Qed.

(** the range size of a request is at least 8 MB, at most the client's or 8 MB,
    and at most 128 MB for S3 Express and 2 GB otherwise. *)
Theorem request_range_size `{!AwsMath, !AwsMathLaws _} client_size part_size is_express :
  0 < client_size < 2 ^ 64 → uint 64 part_size →
  ∃ r, aws_s3_calculate_request_optimal_range_size client_size part_size is_express = Success r ∧
    g_default_part_size_fallback ≤ r ≤ Z.max client_size g_default_part_size_fallback ∧
    r ≤ (if is_express then MB_TO_BYTES 128 else GB_TO_BYTES 2) ∧
    (0 < part_size → r ≤ Z.max part_size g_default_part_size_fallback).
Proof.
  intros Hc Hp. unfold aws_s3_calculate_request_optimal_range_size.
  rewrite (proj2 (Z.eqb_neq client_size 0)) by lia. eexists. split; [done|].
  set (r := if _ <? g_default_part_size_fallback then _ else _).
  assert (g_default_part_size_fallback ≤ r ≤ Z.max client_size g_default_part_size_fallback ∧
    (0 < part_size → r ≤ Z.max part_size g_default_part_size_fallback)) as [Hr Hr'].
  { subst r. destruct (Z.ltb_spec 0 part_size), (Z.ltb_spec part_size client_size); simpl;
      match goal with |- context [?x <? g_default_part_size_fallback] =>
        destruct (Z.ltb_spec x g_default_part_size_fallback) end; lia. }
  clearbody r. unfold g_default_part_size_fallback in *.
  destruct is_express; rewrite aws_min_u64_spec by machine; machine.
Qed.

(** without a sink nothing is delivered out of order; otherwise the request's
    preference wins over the client's and the client's over the environment's, and
    with no preference a file is written out of order and a callback is not. *)
Theorem out_of_order_preference file_sink callback_sink request client env :
  aws_s3_allow_out_of_order_delivery file_sink callback_sink request client env =
    (file_sink || callback_sink) &&
    match request, client, env with
    | AWS_TRIBOOL_TRUE, _, _ | AWS_TRIBOOL_UNSET, AWS_TRIBOOL_TRUE, _
    | AWS_TRIBOOL_UNSET, AWS_TRIBOOL_UNSET, AWS_TRIBOOL_TRUE => true
    | AWS_TRIBOOL_UNSET, AWS_TRIBOOL_UNSET, AWS_TRIBOOL_UNSET => file_sink
    | _, _, _ => false
    end.
Proof. by destruct file_sink, callback_sink, request, client, env. Qed.

(** * Witnesses *)

#[local] Existing Instances aws_math_ref aws_math_ref_laws.

(** 100 MB in 8 MB parts after a first part of 5 MB, from byte 1000. *)
Lemma download_parts_tile_witness :
  tiles 1000 (999 + MB_TO_BYTES 100)
    (part_ranges 1000 (999 + MB_TO_BYTES 100) (MB_TO_BYTES 8) (MB_TO_BYTES 5) 1
       (Z.to_nat (aws_s3_calculate_auto_ranged_get_num_parts (MB_TO_BYTES 8) (MB_TO_BYTES 5) 1000 (999 + MB_TO_BYTES 100)))).
Proof. apply (download_parts_tile (MB_TO_BYTES 8) (MB_TO_BYTES 5) 1000); vm_compute; congruence. Defined.

Lemma download_part_sizes_witness :
  let '(a, b) := aws_s3_calculate_auto_ranged_get_part_range 1000 (999 + MB_TO_BYTES 100) (MB_TO_BYTES 8) (MB_TO_BYTES 5) 13 in
  0 < b - a + 1 ≤ MB_TO_BYTES 8.
Proof.
  pose proof (download_part_sizes (MB_TO_BYTES 8) (MB_TO_BYTES 5) 1000 (999 + MB_TO_BYTES 100)
    ltac:(vm_compute; congruence) ltac:(vm_compute; congruence) ltac:(vm_compute; congruence) ltac:(vm_compute; congruence)
    ltac:(vm_compute; congruence) ltac:(vm_compute; congruence) ltac:(vm_compute; congruence) 13
    ltac:(vm_compute; split; congruence)) as H.
  exact (proj1 H).
Defined.

Lemma mpu_part_size_witness : ∃ part_size num_parts,
  aws_s3_calculate_optimal_mpu_part_size_and_num_parts (TB_TO_BYTES 5) (MB_TO_BYTES 8) 0 = Success (part_size, num_parts) ∧
  1 ≤ num_parts ≤ g_s3_max_num_upload_parts.
Proof.
  destruct (mpu_part_size (TB_TO_BYTES 5) (MB_TO_BYTES 8) 0) as (p & n & He & Hn & _);
    [vm_compute; split; congruence..|]. exists p, n. split; [exact He|exact Hn].
Defined.

Lemma client_range_size_witness : ∃ r,
  aws_s3_calculate_client_optimal_range_size (GB_TO_BYTES 8) 100 = Success r ∧ 3 * 100 * r ≤ GB_TO_BYTES 8.
Proof.
  destruct (client_range_size (GB_TO_BYTES 8) 100) as (r & Hr & _ & Hm); [vm_compute; split; congruence..|].
  exists r. split; [exact Hr|]. apply Hm. vm_compute. congruence.
Defined.

Lemma request_range_size_witness : ∃ r,
  aws_s3_calculate_request_optimal_range_size (GB_TO_BYTES 4) 0 false = Success r ∧ r ≤ GB_TO_BYTES 2.
Proof.
  destruct (request_range_size (GB_TO_BYTES 4) 0 false)
    as (r & Hr & _ & Hm & _); [vm_compute; split; congruence..|].
  exists r. split; [exact Hr|exact Hm].
Defined.
