(* ===== verification/ByteCursor.v ===== *)
(** Byte strings: what the client relies on from aws/common/byte_buf.h, which is not part
    of the repository, as a class of operations with a class of laws stating their
    documented behaviour; and the decimal numbers that the C library prints and scans. *)

From Stdlib Require Import Init.Byte String.
From S2P Require Import Prelude.

#[export] Instance byte_eq_dec : EqDecision byte := Byte.byte_eq_dec.

(** The bytes of a C string literal. *)
Definition lit (s : string) : list byte := String.list_byte_of_string s.
Arguments lit s%_string.

Definition byte_Z (b : byte) : Z := Z.of_N (Byte.to_N b).
Definition byte_of (z : Z) : byte := default x00%byte (Byte.of_N (Z.to_N z)).

(** * Decimal numbers *)

Definition is_digit (b : byte) : bool := (48 <=? byte_Z b) && (byte_Z b <=? 57).
Definition digit_val (b : byte) : Z := byte_Z b - 48.
Definition decimal (l : list byte) : Z := foldl (λ acc b, 10 * acc + digit_val b) 0 l.

(** [printf] with [PRIu64]; twenty digits hold every 64-bit number. *)
Fixpoint print_digits (fuel : nat) (n : Z) : list byte :=
  match fuel with
  | O => []
  | S fuel => if n <? 10 then [byte_of (48 + n)] else print_digits fuel (n / 10) ++ [byte_of (48 + n mod 10)]
  end.
Definition print_u64 (n : Z) : list byte := print_digits 20 n.

(** [snprintf] into a buffer of [size] bytes, the last one for the terminator. *)
Definition snprintf (size : nat) (text : list byte) : list byte := take (size - 1) text.

Lemma byte_of_Z z : 0 ≤ z < 256 → byte_Z (byte_of z) = z.
Proof.
  intros Hz. unfold byte_Z, byte_of. destruct (Byte.of_N (Z.to_N z)) as [b|] eqn:Hb.
  - apply Byte.to_of_N in Hb. simpl. rewrite Hb. lia.
  - apply Byte.of_N_None_iff in Hb. lia.
Qed.

Lemma byte_of_digit d : 0 ≤ d < 10 → is_digit (byte_of (48 + d)) = true ∧ digit_val (byte_of (48 + d)) = d.
Proof.
  intros Hd. unfold is_digit, digit_val. rewrite byte_of_Z by lia.
  rewrite andb_true_iff, !Z.leb_le. lia.
Qed.

Lemma decimal_snoc l b : decimal (l ++ [b]) = 10 * decimal l + digit_val b.
Proof. unfold decimal. by rewrite foldl_app. Qed.

(** Printing is faithful: digits only, at least one, and of the right value. *)
Lemma print_digits_spec fuel n : 0 ≤ n < 10 ^ Z.of_nat (S fuel) →
  forallb is_digit (print_digits (S fuel) n) = true ∧ print_digits (S fuel) n ≠ [] ∧
  decimal (print_digits (S fuel) n) = n.
Proof.
  revert n. induction fuel as [|fuel IH]; intros n Hn.
  - simpl. change (10 ^ Z.of_nat 1) with 10 in Hn. rewrite (proj2 (Z.ltb_lt n 10)) by lia.
    destruct (byte_of_digit n ltac:(lia)) as [Hd Hv]. unfold decimal. simpl. rewrite Hd, Hv. by split_and!; [..|lia].
  - remember (S fuel) as f. cbn [print_digits]. subst f. destruct (Z.ltb_spec n 10).
    + destruct (byte_of_digit n ltac:(lia)) as [Hd Hv]. unfold decimal. cbn [forallb foldl]. rewrite Hd, Hv.
      by split_and!; [..|lia].
    + assert (0 ≤ n / 10 < 10 ^ Z.of_nat (S fuel)).
      { split; [apply Z.div_pos; lia|]. apply Z.div_lt_upper_bound; [lia|].
        rewrite <-Z.pow_succ_r, <-Nat2Z.inj_succ by lia. lia. }
      destruct (IH (n / 10)) as (Hd & Hne & Hv); [done|].
      pose proof (Z.mod_pos_bound n 10 ltac:(lia)).
      destruct (byte_of_digit (n mod 10) ltac:(lia)) as [Hd' Hv'].
      rewrite forallb_app, decimal_snoc, Hd, Hv, Hv'. cbn [forallb]. rewrite Hd'.
      pose proof (Z.div_mod n 10 ltac:(lia)). split_and!; [done| |lia]. by destruct (print_digits (S fuel) (n / 10)).
Qed.

Lemma print_digits_len fuel k n : 0 ≤ n < 10 ^ Z.of_nat k → (0 < k)%nat → (length (print_digits fuel n) ≤ k)%nat.
Proof.
  revert k n. induction fuel as [|fuel IH]; intros k n Hn Hk; simpl; [lia|].
  destruct (Z.ltb_spec n 10); [simpl; lia|]. rewrite length_app. simpl.
  destruct k as [|[|k]]; [lia|change (10 ^ Z.of_nat 1) with 10 in Hn; lia|].
  assert (length (print_digits fuel (n / 10)) ≤ S k)%nat; [|lia]. apply IH; [|lia].
  split; [apply Z.div_pos; lia|]. apply Z.div_lt_upper_bound; [lia|].
  rewrite <-Z.pow_succ_r, <-Nat2Z.inj_succ by lia. lia.
Qed.

Lemma print_u64_spec n : uint 64 n →
  forallb is_digit (print_u64 n) = true ∧ print_u64 n ≠ [] ∧ decimal (print_u64 n) = n.
Proof. intros Hn. apply print_digits_spec. unfold uint in Hn. simpl. lia. Qed.

(** * aws/common/byte_buf.h *)

(** [aws_byte_cursor_split] is the sequence of substrings that repeated calls of
    [aws_byte_cursor_next_split] yield. *)
Class AwsByteCursor := {
  aws_byte_cursor_starts_with : list byte → list byte → bool;
  aws_byte_cursor_split : list byte → byte → list (list byte);
  aws_byte_cursor_utf8_parse_u64 : list byte → option Z;
  aws_byte_cursor_trim_pred : list byte → (byte → bool) → list byte;
  aws_byte_cursor_eq_ignore_case : list byte → list byte → bool;
  aws_byte_cursor_starts_with_ignore_case : list byte → list byte → bool;
}.

(** A number is parsed if it consists of digits only, at least one, and fits. *)
Definition is_u64 (l : list byte) (n : Z) : Prop :=
  l ≠ [] ∧ forallb is_digit l = true ∧ n = decimal l ∧ n < 2 ^ 64.

Lemma decimal_nonneg l : forallb is_digit l = true → 0 ≤ decimal l.
Proof.
  induction l as [|b l IH] using rev_ind; [done|]. rewrite forallb_app, decimal_snoc. intros [Hl Hb]%andb_true_iff.
  specialize (IH Hl). cbn [forallb] in Hb. unfold is_digit in Hb. rewrite !andb_true_iff, !Z.leb_le in Hb. unfold digit_val. lia.
Qed.

Lemma is_u64_range l n : is_u64 l n → uint 64 n.
Proof. intros (_ & Hd & -> & Hn). split; [by apply decimal_nonneg|done]. Qed.

Definition lower (b : byte) : byte :=
  if (65 <=? byte_Z b) && (byte_Z b <=? 90) then byte_of (byte_Z b + 32) else b.

Class AwsByteCursorLaws (B : AwsByteCursor) : Prop := {
  starts_with_spec l p : aws_byte_cursor_starts_with l p = true ↔ p `prefix_of` l;
  split_last l c : c ∉ l → aws_byte_cursor_split l c = [l];
  split_first l k c : c ∉ l → aws_byte_cursor_split (l ++ c :: k) c = l :: aws_byte_cursor_split k c;
  parse_u64_spec l n : aws_byte_cursor_utf8_parse_u64 l = Some n ↔ is_u64 l n;
  trim_pred_spec l k r p : forallb p l = true → forallb p r = true →
    (∀ b, head k = Some b → p b = false) → (∀ b, list.last k = Some b → p b = false) →
    aws_byte_cursor_trim_pred (l ++ k ++ r) p = k;
  eq_ignore_case_spec l k : aws_byte_cursor_eq_ignore_case l k = true ↔ lower <$> l = lower <$> k;
  starts_with_ignore_case_spec l p :
    aws_byte_cursor_starts_with_ignore_case l p = true ↔ (lower <$> p) `prefix_of` (lower <$> l);
}.

(** Past its end a cursor does not advance. *)
Definition aws_byte_cursor_advance (body : list byte) (n : Z) : list byte :=
  if n <=? Z.of_nat (length body) then drop (Z.to_nat n) body else body.

Section facts.
Context `{B : !AwsByteCursor} `{!AwsByteCursorLaws B}.

Lemma parse_print n : uint 64 n → aws_byte_cursor_utf8_parse_u64 (print_u64 n) = Some n.
Proof.
  intros Hn. apply parse_u64_spec. destruct (print_u64_spec n Hn) as (Hd & Hne & Hv).
  unfold uint in Hn. split_and!; [done..|lia].
Qed.

Lemma parse_bound l n : aws_byte_cursor_utf8_parse_u64 l = Some n → uint 64 n.
Proof.
  intros (Hne & Hd & -> & Hlt)%parse_u64_spec. split; [|done]. clear -Hd. unfold decimal.
  assert (∀ acc, 0 ≤ acc → 0 ≤ foldl (λ acc b, 10 * acc + digit_val b) acc l) as Hall; [|by apply Hall].
  induction l as [|b l IH]; intros acc Hacc; simpl in *; [done|]. apply andb_true_iff in Hd as [Hb Hd].
  apply IH; [done|]. unfold is_digit in Hb. rewrite andb_true_iff, !Z.leb_le in Hb. unfold digit_val. lia.
Qed.

Lemma digits_no_sep l c : forallb is_digit l = true → is_digit c = false → c ∉ l.
Proof.
  intros Hl Hc Hin. rewrite forallb_forall in Hl. apply list_elem_of_In, Hl in Hin. congruence.
Qed.

Lemma print_no_sep n c : uint 64 n → is_digit c = false → c ∉ print_u64 n.
Proof. intros Hn. apply digits_no_sep, print_u64_spec, Hn. Qed.

Lemma advance_app (l k : list byte) n : n = Z.of_nat (length l) → aws_byte_cursor_advance (l ++ k) n = k.
Proof.
  intros ->. unfold aws_byte_cursor_advance. rewrite length_app, (proj2 (Z.leb_le _ _)) by lia.
  by rewrite Nat2Z.id, drop_app_length.
Qed.
End facts.

(** * An instance *)

Fixpoint split_ref (l : list byte) (c : byte) : list (list byte) :=
  match l with
  | [] => [[]]
  | b :: l =>
      if decide (b = c) then [] :: split_ref l c
      else match split_ref l c with
           | [] => [[b]]
           | x :: xs => (b :: x) :: xs
           end
  end.

Fixpoint trim_left (l : list byte) (p : byte → bool) : list byte :=
  match l with
  | [] => []
  | b :: l' => if p b then trim_left l' p else l
  end.

Fixpoint prefixb (p l : list byte) : bool :=
  match p, l with
  | [], _ => true
  | b :: p, b' :: l => bool_decide (b = b') && prefixb p l
  | _ :: _, [] => false
  end.

Definition parse_ref (l : list byte) : option Z :=
  if negb (bool_decide (l = [])) && forallb is_digit l && (decimal l <? 2 ^ 64) then Some (decimal l) else None.

#[local] Instance byte_cursor_ref : AwsByteCursor := {|
  aws_byte_cursor_starts_with l p := prefixb p l;
  aws_byte_cursor_split := split_ref;
  aws_byte_cursor_utf8_parse_u64 := parse_ref;
  aws_byte_cursor_trim_pred l p := rev (trim_left (rev (trim_left l p)) p);
  aws_byte_cursor_eq_ignore_case l k := bool_decide (lower <$> l = lower <$> k);
  aws_byte_cursor_starts_with_ignore_case l p := prefixb (lower <$> p) (lower <$> l);
|}.

Lemma prefixb_spec p l : prefixb p l = true ↔ p `prefix_of` l.
Proof.
  revert l. induction p as [|b p IH]; intros [|b' l]; simpl.
  - split; [intros _; by exists []|done].
  - split; [intros _; by apply prefix_nil|done].
  - split; [done|]. by intros ?%prefix_nil_not.
  - rewrite andb_true_iff, bool_decide_eq_true, IH. split.
    + intros [-> ?]. by apply prefix_cons.
    + intros Hp. split; [by apply prefix_cons_inv_1 in Hp|by apply prefix_cons_inv_2 in Hp].
Qed.

Lemma split_ref_last l c : c ∉ l → split_ref l c = [l].
Proof.
  induction l as [|b l IH]; intros Hc; simpl; [done|]. rewrite decide_False by set_solver. by rewrite IH by set_solver.
Qed.

Lemma split_ref_first l k c : c ∉ l → split_ref (l ++ c :: k) c = l :: split_ref k c.
Proof.
  induction l as [|b l IH]; intros Hc; simpl; [by rewrite decide_True|].
  rewrite decide_False by set_solver. by rewrite IH by set_solver.
Qed.

Lemma trim_left_app l k p : forallb p l = true → (∀ b, head k = Some b → p b = false) → trim_left (l ++ k) p = k.
Proof.
  intros Hl Hk. induction l as [|b l IH]; simpl in *.
  - destruct k as [|b k]; [done|]. simpl. by rewrite Hk.
  - apply andb_true_iff in Hl as [Hb Hl]. rewrite Hb. by apply IH.
Qed.

Lemma trim_ref l k r p : forallb p l = true → forallb p r = true →
  (∀ b, head k = Some b → p b = false) → (∀ b, list.last k = Some b → p b = false) →
  rev (trim_left (rev (trim_left (l ++ k ++ r) p)) p) = k.
Proof.
  intros Hl Hr Hh Hlast. destruct k as [|b k].
  - simpl. rewrite <-(app_nil_r (l ++ r)), trim_left_app; [done| |done]. by rewrite forallb_app, Hl, Hr.
  - rewrite trim_left_app by (done || intros b' [= <-]; by apply Hh). rewrite rev_app_distr, trim_left_app.
    + by rewrite rev_involutive.
    + rewrite forallb_forall in *. intros x Hx. by apply Hr, in_rev.
    + intros b' Hb'. apply Hlast. rewrite <-head_reverse. by rewrite rev_alt in Hb'.
Qed.

#[local] Instance byte_cursor_ref_laws : AwsByteCursorLaws byte_cursor_ref.
Proof.
  split; simpl.
  - intros. apply prefixb_spec.
  - apply split_ref_last.
  - intros. by apply split_ref_first.
  - intros l n. unfold parse_ref, is_u64. destruct l as [|b l]; [simpl; naive_solver|].
    rewrite bool_decide_false by done. simpl negb. rewrite andb_true_l.
    destruct (forallb is_digit (b :: l)); simpl; [|naive_solver].
    destruct (Z.ltb_spec (decimal (b :: l)) (2 ^ 64)); naive_solver lia.
  - apply trim_ref.
  - intros. apply bool_decide_eq_true.
  - intros. apply prefixb_spec.
Qed.
