(* ===== verification/HttpHeaders.v ===== *)
(** The headers the client reads and writes (source/s3_util.c, source/s3_request_messages.c,
    source/s3_auto_ranged_get.c): ranges, content ranges, lengths, ETags, and the error
    codes a server may name. *)

From Stdlib Require Import Init.Byte String.
From S2P Require Import Prelude AwsCommon ByteCursor PartMath.

Section headers.
Context `{B : !AwsByteCursor}.

(** * Printing *)

(** The value of the Range header of a ranged request, in a buffer of 128 bytes. *)
Definition range_header_value (part_range_start part_range_end : Z) : list byte :=
  snprintf 128 (lit "bytes=" ++ print_u64 part_range_start ++ lit "-" ++ print_u64 part_range_end).

(** The Content-Range the caller of a ranged download sees, in a buffer of 64 bytes. *)
Definition content_range_value (object_range_start object_range_end object_size : Z) : list byte :=
  snprintf 64 (lit "bytes " ++ print_u64 object_range_start ++ lit "-" ++ print_u64 object_range_end
                 ++ lit "/" ++ print_u64 object_size).

Definition content_length_value (object_range_length : Z) : list byte := snprintf 64 (print_u64 object_range_length).

(** * Parsing *)

Definition aws_s3_parse_content_range_cursor (cursor : list byte) : result aws_error (Z * Z * Z) :=
  let invalid := Failure AWS_ERROR_S3_INVALID_CONTENT_RANGE_HEADER in
  let prefix := lit "bytes " in
  if negb (aws_byte_cursor_starts_with cursor prefix) then invalid
  else
    let cursor := aws_byte_cursor_advance cursor (Z.of_nat (length prefix)) in
    match aws_byte_cursor_split cursor "-"%byte with
    | [] => invalid
    | range_start_cursor :: _ =>
        match aws_byte_cursor_utf8_parse_u64 range_start_cursor with
        | None => invalid
        | Some range_start =>
            let cursor := aws_byte_cursor_advance cursor (Z.of_nat (length range_start_cursor) + 1) in
            match aws_byte_cursor_split cursor "/"%byte with
            | [] => invalid
            | range_end_cursor :: _ =>
                match aws_byte_cursor_utf8_parse_u64 range_end_cursor with
                | None => invalid
                | Some range_end =>
                    let cursor := aws_byte_cursor_advance cursor (Z.of_nat (length range_end_cursor) + 1) in
                    match aws_byte_cursor_utf8_parse_u64 cursor with
                    | None => invalid
                    | Some object_size => Success (range_start, range_end, object_size)
                    end
                end
            end
        end
    end.

(** The argument is the value of the header, if there is one. *)
Definition aws_s3_parse_content_range_response_header (header : option (list byte)) : result aws_error (Z * Z * Z) :=
  match header with
  | None => Failure AWS_ERROR_S3_MISSING_CONTENT_RANGE_HEADER
  | Some value => aws_s3_parse_content_range_cursor value
  end.

(** [sscanf] with [PRIu64]: white space, a sign, and as many digits as there are; the
    number is the greatest one when it does not fit. *)
Definition is_space (b : byte) : bool := (byte_Z b =? 32) || (9 <=? byte_Z b) && (byte_Z b <=? 13).

Fixpoint skip_spaces (l : list byte) : list byte :=
  match l with
  | b :: l' => if is_space b then skip_spaces l' else l
  | [] => []
  end.

Fixpoint take_digits (l : list byte) : list byte :=
  match l with
  | b :: l => if is_digit b then b :: take_digits l else []
  | [] => []
  end.

Definition sscanf_u64 (l : list byte) : option Z :=
  let l := skip_spaces l in
  let '(negative, l) :=
    match l with
    | b :: l' => if bool_decide (b = "-"%byte) then (true, l') else if bool_decide (b = "+"%byte) then (false, l')
                 else (false, l)
    | [] => (false, [])
    end in
  match take_digits l with
  | [] => None
  | ds => Some (if U64_MAX <? decimal ds then U64_MAX else if negative : bool then 0 -[64] decimal ds else decimal ds)
  end.

Definition aws_s3_parse_content_length_response_header (header : option (list byte)) : result aws_error Z :=
  match header with
  | None => Failure AWS_ERROR_S3_MISSING_CONTENT_LENGTH_HEADER
  | Some value =>
      match sscanf_u64 value with
      | Some content_length => Success content_length
      | None => Failure AWS_ERROR_S3_INVALID_CONTENT_LENGTH_HEADER
      end
  end.

(** One end of a range: absent when empty. *)
Definition parse_range_end (substr : list byte) : result aws_error (option Z) :=
  match substr with
  | [] => Success None
  | _ => match aws_byte_cursor_utf8_parse_u64 substr with
         | Some n => Success (Some n)
         | None => Failure AWS_ERROR_S3_INVALID_RANGE_HEADER
         end
  end.

(** [has_start_range], [has_end_range], [start_range] and [end_range]. *)
Definition aws_s3_parse_request_range_header (header : option (list byte)) : result aws_error (bool * bool * Z * Z) :=
  let invalid := Failure AWS_ERROR_S3_INVALID_RANGE_HEADER in
  match header with
  | None => invalid
  | Some value =>
      let prefix := lit "bytes=" in
      if negb (aws_byte_cursor_starts_with value prefix) then invalid
      else
        let value := aws_byte_cursor_advance value (Z.of_nat (length prefix)) in
        match aws_byte_cursor_split value "-"%byte with
        | [] => invalid
        | start :: rest =>
            start_range ← parse_range_end start;
            match rest with
            | [] => invalid
            | stop :: rest =>
                end_range ← parse_range_end stop;
                match rest with
                | _ :: _ => invalid
                | [] =>
                    let has_start := bool_decide (start_range ≠ None) in
                    let has_end := bool_decide (end_range ≠ None) in
                    let start_range := default 0 start_range in
                    let end_range := default 0 end_range in
                    if has_end && (end_range <? start_range) then invalid
                    else if negb has_start && negb has_end then invalid
                    else Success (has_start, has_end, start_range, end_range)
                end
            end
        end
  end.

(** * ETags *)

Definition s_is_quote_or_space_char (c : byte) : bool := (byte_Z c =? 34) || (byte_Z c =? 32).

(** The loop over the substrings: their number, up to three, and the second one. *)
Fixpoint count_splits (splits : list (list byte)) (split_count : Z) (parts_count : list byte)
    : result aws_error (Z * list byte) :=
  match splits with
  | [] => Success (split_count, parts_count)
  | substr :: splits =>
      let split_count := split_count + 1 in
      let parts_count := if split_count =? 2 then substr else parts_count in
      if 2 <? split_count then Failure AWS_ERROR_INVALID_ARGUMENT else count_splits splits split_count parts_count
  end.

Definition aws_s3_extract_parts_from_etag (etag_header_value : list byte) : result aws_error Z :=
  let etag := aws_byte_cursor_trim_pred etag_header_value s_is_quote_or_space_char in
  if bool_decide (etag = []) then Failure AWS_ERROR_INVALID_ARGUMENT
  else
    '(split_count, parts_count) ← count_splits (aws_byte_cursor_split etag "-"%byte) 0 [];
    if split_count =? 1 then Success 1
    else if split_count =? 2 then
      match aws_byte_cursor_utf8_parse_u64 parts_count with
      | None => Failure AWS_ERROR_INVALID_ARGUMENT
      | Some num_parts =>
          if (num_parts =? 0) || (g_s3_max_num_upload_parts <? num_parts) then Failure AWS_ERROR_INVALID_ARGUMENT
          else Success num_parts
      end
    else Failure AWS_ERROR_INVALID_ARGUMENT.

(** * Names *)

Definition aws_s3_crt_error_code_from_recoverable_server_error_code_string (s : list byte) : aws_error :=
  if aws_byte_cursor_eq_ignore_case s (lit "SlowDown") then AWS_ERROR_S3_SLOW_DOWN
  else if aws_byte_cursor_eq_ignore_case s (lit "InternalError")
          || aws_byte_cursor_eq_ignore_case s (lit "InternalErrors") then AWS_ERROR_S3_INTERNAL_ERROR
  else if aws_byte_cursor_eq_ignore_case s (lit "RequestTimeTooSkewed") then AWS_ERROR_S3_REQUEST_TIME_TOO_SKEWED
  else if aws_byte_cursor_eq_ignore_case s (lit "RequestTimeout") then AWS_ERROR_S3_REQUEST_TIMEOUT
  else AWS_ERROR_UNKNOWN.

Definition aws_s3_is_checksum_value_header_name (header_name : list byte) : bool :=
  aws_byte_cursor_starts_with_ignore_case header_name (lit "x-amz-checksum-") &&
  negb (aws_byte_cursor_eq_ignore_case header_name (lit "x-amz-checksum-type")) &&
  negb (aws_byte_cursor_eq_ignore_case header_name (lit "x-amz-checksum-mode")) &&
  negb (aws_byte_cursor_eq_ignore_case header_name (lit "x-amz-checksum-algorithm")).
End headers.

(** * Round trips *)

Section theorems.
Context `{B : !AwsByteCursor} `{!AwsByteCursorLaws B}.

Lemma starts_with_app p l : aws_byte_cursor_starts_with (p ++ l) p = true.
Proof. apply starts_with_spec. by exists l. Qed.

Lemma snprintf_fits size text : (length text < size)%nat → snprintf size text = text.
Proof. intros. unfold snprintf. apply take_ge. lia. Qed.

Lemma print_u64_len n k : 0 ≤ n < 10 ^ Z.of_nat k → (0 < k)%nat → (length (print_u64 n) ≤ k)%nat.
Proof. apply print_digits_len. Qed.

Lemma parse_range_end_print n : uint 64 n → parse_range_end (print_u64 n) = Success (Some n).
Proof.
  intros Hn. unfold parse_range_end. rewrite parse_print by done. destruct (print_u64_spec n Hn) as (_ & Hne & _).
  by destruct (print_u64 n).
Qed.

(** A list has a first occurrence of [c], or none. *)
Lemma first_occurrence (l : list byte) c : c ∉ l ∨ ∃ l1 l2, l = l1 ++ c :: l2 ∧ c ∉ l1.
Proof.
  destruct (decide (c ∈ l)) as [Hin|]; [right|by left].
  apply list_elem_of_split_l in Hin as (l1 & l2 & -> & ?). eauto.
Qed.

(** the Range header of every ranged request the client sends is read back as the
    same range by its own parser of range headers; nothing is cut off by the buffer the
    header is printed to. *)
Theorem range_header_roundtrip a b : 0 ≤ a ≤ b → b < 2 ^ 64 →
  aws_s3_parse_request_range_header (Some (range_header_value a b)) = Success (true, true, a, b).
Proof.
  intros Ha Hb. assert (uint 64 a ∧ uint 64 b) as [Hua Hub] by machine. unfold range_header_value. rewrite snprintf_fits.
  2:{ pose proof (print_u64_len a 20 ltac:(lia) ltac:(lia)). pose proof (print_u64_len b 20 ltac:(lia) ltac:(lia)).
      rewrite !length_app. simpl. lia. }
  unfold aws_s3_parse_request_range_header. rewrite starts_with_app, advance_app by done. simpl negb. cbv iota.
  change (lit "-" ++ print_u64 b) with ("-"%byte :: print_u64 b).
  rewrite split_first, split_last by (by apply print_no_sep).
  rewrite !parse_range_end_print by done. simpl. by rewrite (proj2 (Z.ltb_ge b a)) by lia.
Qed.

(** C36: the Content-Range that a ranged download reports for the whole range is read back
    as the same three numbers, for objects of up to 10^18 bytes (S3 objects are a million
    times smaller); beyond that the 64-byte buffer could cut it off. *)
Theorem content_range_roundtrip a b n : 0 ≤ a < 10 ^ 18 → 0 ≤ b < 10 ^ 18 → 0 ≤ n < 10 ^ 18 →
  aws_s3_parse_content_range_response_header (Some (content_range_value a b n)) = Success (a, b, n).
Proof.
  intros Ha Hb Hn. assert (uint 64 a ∧ uint 64 b ∧ uint 64 n) as (Hua & Hub & Hun) by machine.
  unfold content_range_value. rewrite snprintf_fits.
  2:{ pose proof (print_u64_len a 18 ltac:(lia) ltac:(lia)). pose proof (print_u64_len b 18 ltac:(lia) ltac:(lia)).
      pose proof (print_u64_len n 18 ltac:(lia) ltac:(lia)). rewrite !length_app. simpl. lia. }
  unfold aws_s3_parse_content_range_response_header, aws_s3_parse_content_range_cursor.
  rewrite starts_with_app, advance_app by done. simpl negb. cbv iota.
  set (rest := lit "/" ++ print_u64 n).
  change (lit "-" ++ print_u64 b ++ rest) with ("-"%byte :: print_u64 b ++ rest).
  rewrite split_first by (by apply print_no_sep). rewrite parse_print by done.
  rewrite cons_middle, app_assoc, advance_app by (rewrite length_app; simpl; lia).
  subst rest. change (lit "/" ++ print_u64 n) with ("/"%byte :: print_u64 n).
  rewrite split_first by (by apply print_no_sep). rewrite parse_print by done.
  rewrite cons_middle, app_assoc, advance_app by (rewrite length_app; simpl; lia).
  by rewrite parse_print.
Qed.

(** What one end of a range may look like, and what it means. *)
Definition range_end_is (l : list byte) (present : bool) (n : Z) : Prop :=
  if present then is_u64 l n else l = [] ∧ n = 0.

Lemma parse_range_end_spec l x : parse_range_end l = Success x ↔
  range_end_is l (bool_decide (x ≠ None)) (default 0 x).
Proof.
  unfold parse_range_end, range_end_is. destruct l as [|b l].
  - destruct x as [n|]; simpl; [|naive_solver].
    split; [done|]. intros (? & _). done.
  - destruct (aws_byte_cursor_utf8_parse_u64 (b :: l)) as [n|] eqn:Hp.
    + apply parse_u64_spec in Hp. destruct x as [m|]; simpl.
      * destruct Hp as (H1 & H2 & H3 & H4). split; [by intros [= <-]|].
        intros (_ & _ & -> & _). by rewrite H3.
      * split; [done|]. by intros [? _].
    + split; [done|]. destruct x as [m|]; simpl.
      * intros Hm%parse_u64_spec. congruence.
      * by intros [? _].
Qed.

Lemma parse_range_end_is l present n : range_end_is l present n →
  ∃ x, parse_range_end l = Success x ∧ bool_decide (x ≠ None) = present ∧ default 0 x = n.
Proof.
  destruct present; simpl.
  - intros Hn. exists (Some n). split; [|done]. by apply parse_range_end_spec.
  - intros [-> ->]. by exists None.
Qed.

(** The two substrings of a cursor with one separator. *)
Lemma split_two v c x y : aws_byte_cursor_split v c = [x; y] ↔ v = x ++ c :: y ∧ c ∉ x ∧ c ∉ y.
Proof.
  split.
  - destruct (first_occurrence v c) as [Hno|(l1 & l2 & -> & Hl1)]; [by rewrite split_last|].
    rewrite split_first by done. destruct (first_occurrence l2 c) as [Hno|(l3 & l4 & -> & Hl3)].
    + rewrite split_last by done. intros [= -> ->]. done.
    + rewrite split_first by done. destruct (first_occurrence l4 c) as [Hno|(l5 & l6 & -> & Hl5)];
        [by rewrite split_last|by rewrite split_first].
  - intros (-> & Hx & Hy). by rewrite split_first, split_last.
Qed.

Lemma range_end_no_dash l present n : range_end_is l present n → "-"%byte ∉ l.
Proof.
  destruct present; simpl; [|intros [-> _]; apply not_elem_of_nil].
  intros (_ & Hd & _). by apply digits_no_sep.
Qed.

(** a Range header is accepted exactly when it is [bytes=], an optional number, a dash
    and an optional number that is not smaller, with at least one of the two numbers;
    numbers are decimal, without sign or space, and fit 64 bits. *)
Theorem range_header_exact v has_start has_end s e :
  aws_s3_parse_request_range_header (Some v) = Success (has_start, has_end, s, e) ↔
  ∃ x y, v = lit "bytes=" ++ x ++ lit "-" ++ y ∧ range_end_is x has_start s ∧ range_end_is y has_end e ∧
    (has_end = true → s ≤ e) ∧ (has_start = true ∨ has_end = true).
Proof.
  unfold aws_s3_parse_request_range_header. split.
  - destruct (aws_byte_cursor_starts_with v (lit "bytes=")) eqn:Hpre; [|done]. apply starts_with_spec in Hpre as [w ->].
    rewrite advance_app by done. simpl negb. cbv iota.
    destruct (aws_byte_cursor_split w "-"%byte) as [|x [|y [|z l]]] eqn:Hsplit; [done|..];
      (destruct (parse_range_end x) as [sx|] eqn:Hx; simpl; [|done]); [done|..];
      (destruct (parse_range_end y) as [sy|] eqn:Hy; simpl; [|done]); [|done].
    apply split_two in Hsplit as (-> & _ & _). apply parse_range_end_spec in Hx, Hy.
    destruct (bool_decide (sy ≠ None) && _) eqn:Hle; [done|].
    destruct (negb _ && _) eqn:Hsome; [done|]. intros [= <- <- <- <-]. exists x, y. split_and!; try done.
    + intros Hhas. rewrite Hhas in Hle. simpl in Hle. by apply Z.ltb_ge in Hle.
    + apply andb_false_iff in Hsome as [?%negb_false_iff|?%negb_false_iff]; auto.
  - intros (x & y & -> & Hx & Hy & Hle & Hsome). rewrite starts_with_app, advance_app by done. simpl negb. cbv iota.
    change (lit "-" ++ y) with ("-"%byte :: y).
    rewrite (proj2 (split_two _ _ x y)) by (split_and!; [done|by eapply range_end_no_dash..]).
    apply parse_range_end_is in Hx as (sx & -> & Hsx & Hdx). apply parse_range_end_is in Hy as (sy & -> & Hsy & Hdy).
    destruct sx as [sx|], sy as [sy|]; simpl in *; subst; try done;
      first [by rewrite (proj2 (Z.ltb_ge _ _)) by (by apply Hle)|by destruct Hsome].
Qed.

(** the ETag of a multipart upload, quoted, tells its number of parts; any ETag with
    the number that is accepted tells a number of parts that S3 allows. *)
Theorem etag_parts hash n : 1 ≤ n ≤ g_s3_max_num_upload_parts →
  "-"%byte ∉ hash → (∀ b, head hash = Some b → s_is_quote_or_space_char b = false) →
  let quote := byte_of 34 in
  aws_s3_extract_parts_from_etag ([quote] ++ (hash ++ lit "-" ++ print_u64 n) ++ [quote]) = Success n.
Proof.
  intros Hn Hhash Hhead. unfold g_s3_max_num_upload_parts in *. cbv zeta.
  assert (uint 64 n) as Hu by machine. destruct (print_u64_spec n Hu) as (Hd & Hne & _).
  assert (∀ b, is_digit b = true → s_is_quote_or_space_char b = false) as Hdig.
  { intros b Hb. unfold is_digit, s_is_quote_or_space_char in *. rewrite andb_true_iff, !Z.leb_le in Hb.
    rewrite orb_false_iff, !Z.eqb_neq. lia. }
  unfold aws_s3_extract_parts_from_etag. rewrite trim_pred_spec; [|done|done|..].
  - rewrite bool_decide_false by (by destruct hash). change (lit "-" ++ print_u64 n) with ("-"%byte :: print_u64 n).
    rewrite (proj2 (split_two _ _ hash (print_u64 n))) by (split_and!; [done..|by apply print_no_sep]).
    simpl. rewrite parse_print by done. unfold g_s3_max_num_upload_parts.
    rewrite (proj2 (Z.eqb_neq n 0)), (proj2 (Z.ltb_ge 10000 n)) by lia. done.
  - destruct hash as [|b hash]; simpl; [by intros b [= <-]|done].
  - intros b Hb. rewrite app_assoc, last_app_Some in Hb. apply Hdig. rewrite forallb_forall in Hd. apply Hd.
    destruct Hb as [Hb|[Hb _]]; [|by apply last_None in Hb]. by apply list_elem_of_In, last_Some_elem_of.
Qed.

Lemma etag_bounds v n : aws_s3_extract_parts_from_etag v = Success n → 1 ≤ n ≤ g_s3_max_num_upload_parts.
Proof.
  unfold aws_s3_extract_parts_from_etag, g_s3_max_num_upload_parts. case_bool_decide; [done|].
  destruct (count_splits _ _ _) as [[k parts]|]; simpl; [|done].
  destruct (k =? 1); [intros [= <-]; lia|]. destruct (k =? 2); [|done].
  destruct (aws_byte_cursor_utf8_parse_u64 parts) as [m|] eqn:Hm; [|done]. apply parse_bound in Hm. unfold uint in Hm.
  destruct (Z.eqb_spec m 0), (Z.ltb_spec 10000 m); simpl; try done. intros [= <-]. lia.
Qed.

Lemma skip_spaces_digits l : forallb is_digit l = true → l ≠ [] → skip_spaces l = l ∧ take_digits l = l.
Proof.
  intros Hd Hne. split.
  - destruct l as [|b l]; [done|]. simpl in *. apply andb_true_iff in Hd as [Hb _]. unfold is_digit in Hb.
    rewrite andb_true_iff, !Z.leb_le in Hb. unfold is_space. rewrite (proj2 (Z.eqb_neq _ 32)) by lia.
    rewrite (proj2 (Z.leb_gt _ 13)) by lia. by rewrite andb_false_r.
  - clear Hne. induction l as [|b l IH]; [done|]. simpl in *. apply andb_true_iff in Hd as [-> Hd]. by rewrite IH.
Qed.

(** The Content-Length that a download reports is read back as the same length. *)
Lemma content_length_roundtrip n : uint 64 n →
  aws_s3_parse_content_length_response_header (Some (content_length_value n)) = Success n.
Proof.
  intros Hn. destruct (print_u64_spec n Hn) as (Hd & Hne & Hv). unfold content_length_value. rewrite snprintf_fits.
  2:{ pose proof (print_u64_len n 20 ltac:(unfold uint in *; lia) ltac:(lia)). lia. }
  unfold aws_s3_parse_content_length_response_header, sscanf_u64.
  destruct (skip_spaces_digits _ Hd Hne) as [-> Htake].
  destruct (print_u64 n) as [|b l] eqn:Hp; [done|]. pose proof Hd as Hd'. simpl in Hd'. apply andb_true_iff in Hd' as [Hb _].
  do 2 (rewrite bool_decide_false by (intros ->; by vm_compute in Hb)). rewrite Htake, Hv.
  rewrite (proj2 (Z.ltb_ge _ _)) by machine. done.
Qed.

(** A Content-Range with one number and nothing else is accepted, and taken for all three:
    past the end of the header the cursor does not advance. *)
Lemma content_range_incomplete n : uint 64 n →
  aws_s3_parse_content_range_cursor (lit "bytes " ++ print_u64 n) = Success (n, n, n).
Proof.
  intros Hn. unfold aws_s3_parse_content_range_cursor. rewrite starts_with_app, advance_app by done. simpl negb. cbv iota.
  assert (aws_byte_cursor_advance (print_u64 n) (Z.of_nat (length (print_u64 n)) + 1) = print_u64 n) as Hstay.
  { unfold aws_byte_cursor_advance. by rewrite (proj2 (Z.leb_gt _ _)) by lia. }
  rewrite split_last, parse_print by (by try apply print_no_sep). rewrite Hstay.
  rewrite split_last, parse_print by (by try apply print_no_sep). by rewrite Hstay, parse_print.
Qed.
End theorems.

(** * Witnesses *)

#[local] Existing Instances byte_cursor_ref byte_cursor_ref_laws.

Lemma range_header_roundtrip_witness :
  range_header_value 8388608 16777215 = lit "bytes=8388608-16777215" ∧
  aws_s3_parse_request_range_header (Some (range_header_value 8388608 16777215))
    = Success (true, true, 8388608, 16777215).
Proof. split; [vm_compute; reflexivity|]. apply (range_header_roundtrip 8388608 16777215); lia. Defined.

Lemma content_range_roundtrip_witness :
  content_range_value 0 9 1000 = lit "bytes 0-9/1000" ∧
  aws_s3_parse_content_range_response_header (Some (content_range_value 0 9 1000)) = Success (0, 9, 1000).
Proof. split; [vm_compute; reflexivity|]. apply (content_range_roundtrip 0 9 1000); lia. Defined.

Lemma etag_parts_witness :
  aws_s3_extract_parts_from_etag ([byte_of 34] ++ (lit "d41d8cd98f" ++ lit "-" ++ print_u64 17) ++ [byte_of 34])
    = Success 17.
Proof.
  apply (etag_parts (lit "d41d8cd98f") 17); unfold g_s3_max_num_upload_parts; [lia| |by intros b [= <-]].
  vm_compute. intros H. repeat (apply elem_of_cons in H as [?|H]; [done|]). by apply elem_of_nil in H.
Defined.

Lemma range_header_exact_witness :
  aws_s3_parse_request_range_header (Some (lit "bytes=-500")) = Success (false, true, 0, 500).
Proof.
  apply (proj2 (range_header_exact (lit "bytes=-500") false true 0 500)). exists [], (lit "500").
  split; [vm_compute; reflexivity|]. split; [by split|]. split; [by vm_compute|]. split; [lia|by right].
Defined.
