(* ===== verification/HttpMessage.v ===== *)
(** HTTP headers: what the client relies on from aws-c-http, which is not part of the
    repository, and the copying of headers between messages (source/s3_util.c,
    source/s3_request_messages.c). *)

From Stdlib Require Import Init.Byte String.
From S2P Require Import Prelude AwsCommon ByteCursor HttpHeaders.

(** Names and values in the order they were added. *)
Notation http_headers := (list (list byte * list byte)).

(** * aws/http/request_response.h *)

Class AwsHttpHeaders := {
  aws_http_headers_get : http_headers → list byte → option (list byte);
  aws_http_headers_set : http_headers → list byte → list byte → http_headers;
}.

(** Names are compared without regard to case.  [get] finds the first value, and [set]
    replaces all values of a name. *)
Class AwsHttpHeadersLaws (H : AwsHttpHeaders) : Prop := {
  headers_get_spec h n :
    aws_http_headers_get h n = snd <$> head (filter (λ kv, lower <$> kv.1 = lower <$> n) h);
  headers_get_set h n v m :
    aws_http_headers_get (aws_http_headers_set h n v) m =
      if decide (lower <$> m = lower <$> n) then Some v else aws_http_headers_get h m;
}.

Section messages.
Context `{B : !AwsByteCursor} `{H : !AwsHttpHeaders}.

(** [copy_http_headers]: each header of [src] is set in [dest]. *)
Definition copy_http_headers (src dest : http_headers) : http_headers :=
  foldl (λ dest kv, aws_http_headers_set dest (fst kv) (snd kv)) dest src.

(** [aws_s3_message_util_copy_headers]: all but the excluded headers are added. *)
Definition is_excluded (excluded : list (list byte)) (exclude_x_amz_meta exclude_x_checksum : bool) (name : list byte)
    : bool :=
  existsb (aws_byte_cursor_eq_ignore_case name) excluded
  || (exclude_x_amz_meta && aws_byte_cursor_starts_with_ignore_case name (lit "x-amz-meta-"))
  || (exclude_x_checksum && aws_s3_is_checksum_value_header_name name).

Definition aws_s3_message_util_copy_headers (excluded : list (list byte)) (exclude_x_amz_meta exclude_x_checksum : bool)
    (source dest : http_headers) : http_headers :=
  dest ++ filter (λ kv, is_excluded excluded exclude_x_amz_meta exclude_x_checksum (fst kv) = false) source.

(** Loops that copy the named headers a message has. *)
Fixpoint copy_named_headers (names : list (list byte)) (source dest : http_headers) : http_headers :=
  match names with
  | [] => dest
  | n :: names =>
      copy_named_headers names source
        (match aws_http_headers_get source n with Some v => aws_http_headers_set dest n v | None => dest end)
  end.
End messages.

Section facts.
Context `{H : !AwsHttpHeaders} `{!AwsHttpHeadersLaws H}.

Lemma headers_get_set_eq h n v : aws_http_headers_get (aws_http_headers_set h n v) n = Some v.
Proof using Type*. rewrite headers_get_set. by case_decide. Qed.

Lemma headers_get_set_ne h n v m : lower <$> m ≠ lower <$> n →
  aws_http_headers_get (aws_http_headers_set h n v) m = aws_http_headers_get h m.
Proof using Type*. intros. rewrite headers_get_set. by case_decide. Qed.

(** Copying named headers: the ones the source has are taken over, others stay. *)
Lemma copy_named_headers_get names source dest m :
  aws_http_headers_get (copy_named_headers names source dest) m =
    match aws_http_headers_get source m with
    | Some v => if decide ((lower <$> m) ∈ ((fmap lower <$> names) : list (list byte))) then Some v
                else aws_http_headers_get dest m
    | None => aws_http_headers_get dest m
    end.
Proof using Type*.
  revert dest. induction names as [|n names IH]; intros dest;
    cbn [copy_named_headers fmap list_fmap].
  { destruct (aws_http_headers_get source m); [|done]. by rewrite decide_False by set_solver. }
  rewrite IH. destruct (decide (lower <$> m = lower <$> n)) as [Heq|Hne].
  - assert (aws_http_headers_get source n = aws_http_headers_get source m) as ->.
    { rewrite !headers_get_spec. by rewrite Heq. }
    destruct (aws_http_headers_get source m) as [v|]; [|done].
    rewrite headers_get_set. repeat case_decide; set_solver.
  - destruct (aws_http_headers_get source n) as [v|]; destruct (aws_http_headers_get source m) as [v'|];
      rewrite ?headers_get_set_ne by done; repeat case_decide; set_solver.
Qed.
End facts.

(** * An instance *)

#[local] Instance headers_ref : AwsHttpHeaders := {|
  aws_http_headers_get h n := snd <$> head (filter (λ kv, lower <$> kv.1 = lower <$> n) h);
  aws_http_headers_set h n v := filter (λ kv, lower <$> kv.1 ≠ lower <$> n) h ++ [(n, v)];
|}.

#[local] Instance headers_ref_laws : AwsHttpHeadersLaws headers_ref.
Proof.
  split; simpl; [done|]. intros h n v m. rewrite list.filter_app. case_decide as Hm.
  - assert (filter (λ kv, lower <$> kv.1 = lower <$> m) (filter (λ kv, lower <$> kv.1 ≠ lower <$> n) h) = []) as ->.
    { induction h as [|kv h IH]; [done|]. rewrite !filter_cons. repeat case_decide; rewrite ?filter_cons; repeat case_decide;
        try done; congruence. }
    by rewrite app_nil_l, filter_cons, decide_True.
  - rewrite (filter_cons _ (n, v)), decide_False by (simpl; congruence). rewrite filter_nil, app_nil_r.
    f_equal. f_equal. induction h as [|kv h IH]; [done|]. rewrite !filter_cons.
    repeat case_decide; rewrite ?filter_cons; repeat case_decide; try done; try congruence; by rewrite IH.
Qed.
