(* ===== verification/Checksums.v ===== *)
(** Checksums of uploads and downloads (source/s3_checksums.c, source/s3_checksum_context.c):
    the tables of algorithms, the running checksum of a crc, the configuration of a meta
    request, and the context that computes the checksum of an uploaded part once.

    The digest functions and base64 are library code: the class [AwsDigest] has the
    operations and [AwsDigestLaws] what the code relies on. *)

From Stdlib Require Import Init.Byte String.
From S2P Require Import Prelude AwsCommon ByteCursor HttpHeaders.

(** * Algorithms *)

(** [enum aws_s3_checksum_algorithm] *)
Inductive checksum_algorithm :=
| AWS_SCA_NONE
| AWS_SCA_CRC32C
| AWS_SCA_CRC32
| AWS_SCA_SHA1
| AWS_SCA_SHA256
| AWS_SCA_CRC64NVME
| AWS_SCA_SHA512
| AWS_SCA_XXHASH64
| AWS_SCA_XXHASH3_64
| AWS_SCA_XXHASH3_128
| AWS_SCA_UNKNOWN.

#[export] Instance checksum_algorithm_eq_dec : EqDecision checksum_algorithm.
Proof. solve_decision. Defined.

Inductive checksum_location := AWS_SCL_NONE | AWS_SCL_HEADER | AWS_SCL_TRAILER.

#[export] Instance checksum_location_eq_dec : EqDecision checksum_location.
Proof. solve_decision. Defined.

Definition s_checksum_algo_priority_list : list checksum_algorithm :=
  [AWS_SCA_XXHASH3_128; AWS_SCA_XXHASH3_64; AWS_SCA_CRC64NVME; AWS_SCA_CRC32C; AWS_SCA_CRC32; AWS_SCA_XXHASH64;
   AWS_SCA_SHA512; AWS_SCA_SHA256; AWS_SCA_SHA1].

Definition aws_get_digest_size_from_checksum_algorithm (a : checksum_algorithm) : Z :=
  match a with
  | AWS_SCA_CRC64NVME => 8
  | AWS_SCA_CRC32C => 4
  | AWS_SCA_CRC32 => 4
  | AWS_SCA_SHA1 => 20
  | AWS_SCA_SHA256 => 32
  | AWS_SCA_SHA512 => 64
  | AWS_SCA_XXHASH64 => 8
  | AWS_SCA_XXHASH3_64 => 8
  | AWS_SCA_XXHASH3_128 => 16
  | AWS_SCA_NONE | AWS_SCA_UNKNOWN => 0
  end.

Definition aws_get_http_header_name_from_checksum_algorithm (a : checksum_algorithm) : list byte :=
  match a with
  | AWS_SCA_CRC64NVME => lit "x-amz-checksum-crc64nvme"
  | AWS_SCA_CRC32C => lit "x-amz-checksum-crc32c"
  | AWS_SCA_CRC32 => lit "x-amz-checksum-crc32"
  | AWS_SCA_SHA1 => lit "x-amz-checksum-sha1"
  | AWS_SCA_SHA256 => lit "x-amz-checksum-sha256"
  | AWS_SCA_SHA512 => lit "x-amz-checksum-sha512"
  | AWS_SCA_XXHASH64 => lit "x-amz-checksum-xxhash64"
  | AWS_SCA_XXHASH3_64 => lit "x-amz-checksum-xxhash3"
  | AWS_SCA_XXHASH3_128 => lit "x-amz-checksum-xxhash128"
  | AWS_SCA_NONE | AWS_SCA_UNKNOWN => []
  end.

Definition aws_get_checksum_algorithm_name (a : checksum_algorithm) : list byte :=
  match a with
  | AWS_SCA_CRC64NVME => lit "CRC64NVME"
  | AWS_SCA_CRC32C => lit "CRC32C"
  | AWS_SCA_CRC32 => lit "CRC32"
  | AWS_SCA_SHA1 => lit "SHA1"
  | AWS_SCA_SHA256 => lit "SHA256"
  | AWS_SCA_SHA512 => lit "SHA512"
  | AWS_SCA_XXHASH64 => lit "XXHASH64"
  | AWS_SCA_XXHASH3_64 => lit "XXHASH3"
  | AWS_SCA_XXHASH3_128 => lit "XXHASH128"
  | AWS_SCA_NONE | AWS_SCA_UNKNOWN => []
  end.

Definition aws_get_completed_part_name_from_checksum_algorithm (a : checksum_algorithm) : list byte :=
  match a with
  | AWS_SCA_CRC64NVME => lit "ChecksumCRC64NVME"
  | AWS_SCA_CRC32C => lit "ChecksumCRC32C"
  | AWS_SCA_CRC32 => lit "ChecksumCRC32"
  | AWS_SCA_SHA1 => lit "ChecksumSHA1"
  | AWS_SCA_SHA256 => lit "ChecksumSHA256"
  | AWS_SCA_SHA512 => lit "ChecksumSHA512"
  | AWS_SCA_XXHASH64 => lit "ChecksumXXHASH64"
  | AWS_SCA_XXHASH3_64 => lit "ChecksumXXHASH3"
  | AWS_SCA_XXHASH3_128 => lit "ChecksumXXHASH128"
  | AWS_SCA_NONE | AWS_SCA_UNKNOWN => []
  end.

Definition aws_checksum_algorithm_is_combinable (a : checksum_algorithm) : bool :=
  match a with AWS_SCA_CRC32 | AWS_SCA_CRC32C | AWS_SCA_CRC64NVME => true | _ => false end.

(** * Library code *)

(** [crc a data previous] continues the crc [previous] over [data], and [crc_combine a head
    tail n] is the crc of a message from those of its two parts, the second of length [n];
    both for the crc algorithms.  [digest] is the hash of the others.  [write_be n v] are the
    [n] bytes of [v] in big-endian order.  Encoding fails when memory is short. *)
Class AwsDigest := {
  crc : checksum_algorithm → list byte → Z → Z;
  crc_combine : checksum_algorithm → Z → Z → Z → Z;
  digest : checksum_algorithm → list byte → result aws_error (list byte);
  write_be : Z → Z → list byte;
  read_be : list byte → Z;
  aws_base64_compute_encoded_len : Z → option Z;
  aws_base64_encode : list byte → option (list byte);
}.

Definition crc_bits (a : checksum_algorithm) : Z := 8 * aws_get_digest_size_from_checksum_algorithm a.

Class AwsDigestLaws (D : AwsDigest) : Prop := {
  crc_range a l v : aws_checksum_algorithm_is_combinable a = true →
    uint (crc_bits a) v → uint (crc_bits a) (crc a l v);
  crc_nil a v : uint (crc_bits a) v → crc a [] v = v;
  crc_app a l k v : crc a (l ++ k) v = crc a k (crc a l v);
  crc_combine_spec a l k : aws_checksum_algorithm_is_combinable a = true →
    crc_combine a (crc a l 0) (crc a k 0) (Z.of_nat (length k)) = crc a (l ++ k) 0;
  write_be_length n v : 0 ≤ n → Z.of_nat (length (write_be n v)) = n;
  read_write_be n v : 0 ≤ n → uint (8 * n) v → read_be (write_be n v) = v;
  base64_length l n e : aws_base64_compute_encoded_len (Z.of_nat (length l)) = Some n →
    aws_base64_encode l = Some e → Z.of_nat (length e) = n;
  base64_inj l k e : aws_base64_encode l = Some e → aws_base64_encode k = Some e → l = k;
  base64_len n : 0 ≤ n ≤ 64 → is_Some (aws_base64_compute_encoded_len n);
}.

(** * A running checksum *)

(** What has been fed so far: the value of a crc, or the data of a hash. *)
Inductive checksum_impl :=
| ImplCrc (value : Z)
| ImplHash (fed : list byte).

(** [struct aws_s3_checksum] *)
Record s3_checksum := mkChecksum {
  digest_size : Z;
  sum_algorithm : checksum_algorithm;
  sum_good : bool;
  sum_impl : checksum_impl;
}.
#[export] Instance s3_checksum_eta : Eta s3_checksum := λ c,
  mkChecksum (digest_size c) (sum_algorithm c) (sum_good c) (sum_impl c).

Section running.
Context `{D : !AwsDigest}.

Definition aws_checksum_new (a : checksum_algorithm) : option s3_checksum :=
  match a with
  | AWS_SCA_NONE | AWS_SCA_UNKNOWN => None
  | AWS_SCA_CRC64NVME | AWS_SCA_CRC32C | AWS_SCA_CRC32 =>
      Some (mkChecksum (aws_get_digest_size_from_checksum_algorithm a) a true (ImplCrc 0))
  | _ => Some (mkChecksum (aws_get_digest_size_from_checksum_algorithm a) a true (ImplHash []))
  end.

Definition aws_checksum_update (c : s3_checksum) (data : list byte) : result aws_error s3_checksum :=
  if negb (sum_good c) then Failure AWS_ERROR_INVALID_STATE
  else match sum_impl c with
       | ImplCrc v => Success (c <| sum_impl := ImplCrc (crc (sum_algorithm c) data v) |>)
       | ImplHash fed => Success (c <| sum_impl := ImplHash (fed ++ data) |>)
       end.

(** Into a buffer with [space] bytes left; the checksum cannot be used any more, also when
    there is not enough space. *)
Definition aws_checksum_finalize (c : s3_checksum) (space : Z) : s3_checksum * result aws_error (list byte) :=
  match sum_impl c with
  | ImplCrc v =>
      if negb (sum_good c) then (c, Failure AWS_ERROR_INVALID_STATE)
      else
        let c := c <| sum_good := false |> in
        if space <? digest_size c then (c, Failure AWS_ERROR_SHORT_BUFFER)
        else (c, Success (write_be (digest_size c) v))
  | ImplHash fed =>
      (c <| sum_good := false |>,
       if negb (sum_good c) then Failure AWS_ERROR_INVALID_STATE
       else if space <? digest_size c then Failure AWS_ERROR_SHORT_BUFFER
       else digest (sum_algorithm c) fed)
  end.

Definition aws_checksum_combine_digest (head : s3_checksum) (tail_digest : list byte) (tail_length : Z)
    : result aws_error s3_checksum :=
  match sum_impl head with
  | ImplHash _ => Failure AWS_ERROR_UNSUPPORTED_OPERATION
  | ImplCrc v =>
      if negb (sum_good head) then Failure AWS_ERROR_INVALID_STATE
      else if negb (Z.of_nat (length tail_digest) =? digest_size head) then Failure AWS_ERROR_INVALID_ARGUMENT
      else Success (head <| sum_impl := ImplCrc (crc_combine (sum_algorithm head) v (read_be tail_digest) tail_length) |>)
  end.

Definition aws_checksum_compute (a : checksum_algorithm) (input : list byte) (space : Z)
    : result aws_error (list byte) :=
  match aws_checksum_new a with
  | None => Failure AWS_ERROR_INVALID_ARGUMENT
  | Some c => c ← aws_checksum_update c input; snd (aws_checksum_finalize c space)
  end.

(** [s_validate_checksum]: the sum fed so far against a base64 text. *)
Definition s_validate_checksum (c : s3_checksum) (expected_encoded_checksum : list byte) : bool :=
  match aws_base64_compute_encoded_len (digest_size c) with
  | None => false
  | Some _ =>
      match snd (aws_checksum_finalize c (digest_size c)) with
      | Failure _ => false
      | Success sum =>
          match aws_base64_encode sum with
          | None => false
          | Some encoded => bool_decide (encoded = expected_encoded_checksum)
          end
      end
  end.

(** * The whole-object checksum from those of the parts *)

(** [struct aws_s3_combine_slot]; a slot that was never filled has an empty digest. *)
Record combine_slot := mkSlot { slot_length : Z; slot_digest : list byte }.

Definition s_s3_meta_request_record_part_digest (slots : list combine_slot) (part_number : Z) (digest : list byte)
    (len : Z) : list combine_slot :=
  if Z.of_nat (length slots) <? part_number then slots
  else <[Z.to_nat (part_number - 1) := mkSlot len digest]> slots.

Fixpoint fold_slots (slots : list combine_slot) (sum : s3_checksum) : bool * s3_checksum :=
  match slots with
  | [] => (true, sum)
  | slot :: slots =>
      if (length (slot_digest slot) =? 0)%nat then (false, sum)
      else match aws_checksum_combine_digest sum (slot_digest slot) (slot_length slot) with
           | Failure _ => (false, sum)
           | Success sum => fold_slots slots sum
           end
  end.

Definition s_s3_meta_request_fold_combine_slots (slots : list combine_slot) (running_sum : s3_checksum)
    : bool * s3_checksum :=
  if (length slots =? 0)%nat then (false, running_sum) else fold_slots slots running_sum.

(** [s_validate_meta_request_checksum_on_finish] for a download that has not failed: whether
    it was validated, and whether that found a mismatch. *)
Definition s_validate_meta_request_checksum_on_finish (validate combinable : bool) (slots : list combine_slot)
    (running_sum : option s3_checksum) (header_checksum : list byte) : bool * bool :=
  match running_sum with
  | Some sum =>
      if validate then
        let '(complete, sum) :=
          if combinable then s_s3_meta_request_fold_combine_slots slots sum else (true, sum) in
        if complete then (true, negb (s_validate_checksum sum header_checksum)) else (false, false)
      else (false, false)
  | None => (false, false)
  end.

(** * The checksums of one response *)

(** The running sums of a request: one to compare with the checksum that came with the
    response, one for the whole-object checksum.  [sums_received] is the body so far. *)
Record response_sums := mkSums {
  request_running_sum : option s3_checksum;
  response_header_checksum : list byte;
  combine_sum : option s3_checksum;
  sums_received : list byte;
}.
#[export] Instance response_sums_eta : Eta response_sums := λ s,
  mkSums (request_running_sum s) (response_header_checksum s) (combine_sum s) (sums_received s).

(** [whole] is the sum of the meta request. *)
Definition s_ensure_part_combine_sum (combinable : bool) (whole : option s3_checksum) (part_number : Z)
    (s : response_sums) : result aws_error response_sums :=
  match combine_sum s, whole with
  | None, Some sum =>
      if (part_number =? 0) || negb combinable then Success s
      else match aws_checksum_new (sum_algorithm sum) with
           | Some c => Success (s <| combine_sum := Some c |>)
           | None => Failure AWS_ERROR_UNKNOWN
           end
  | _, _ => Success s
  end.

Definition update_sum (c : option s3_checksum) (data : list byte) : result aws_error (option s3_checksum) :=
  match c with
  | Some c => c ← aws_checksum_update c data; Success (Some c)
  | None => Success None
  end.

(** What [s_s3_meta_request_incoming_body] does to the sums for a piece of the body. *)
Definition incoming_body_sums (validate : bool) (s : response_sums) (data : list byte) : result aws_error response_sums :=
  s ← (if validate then
         v ← update_sum (request_running_sum s) data;
         c ← update_sum (combine_sum s) data;
         Success (s <| request_running_sum := v |> <| combine_sum := c |>)
       else Success s);
  Success (s <| sums_received ::= λ l, l ++ data |>).

Fixpoint incoming_bodies (validate : bool) (s : response_sums) (data : list (list byte)) : result aws_error response_sums :=
  match data with
  | [] => Success s
  | d :: data => s ← incoming_body_sums validate s d; incoming_bodies validate s data
  end.

(** [s_s3_meta_request_stream_complete]: whether the response was validated, the error, and
    the slots with the digest of the part. *)
Definition stream_complete_sums (validate : bool) (s : response_sums) (part_number : Z) (slots : list combine_slot)
    (error : option aws_error) : bool * option aws_error * list combine_slot :=
  if negb validate then (false, error, slots)
  else
    let '(did_validate, error) :=
      match error, request_running_sum s with
      | None, Some sum =>
          if (length (response_header_checksum s) =? 0)%nat then (false, None)
          else if s_validate_checksum sum (response_header_checksum s) then (true, None)
          else (true, Some AWS_ERROR_S3_RESPONSE_CHECKSUM_MISMATCH)
      | _, _ => (false, error)
      end in
    match error, combine_sum s with
    | None, Some sum =>
        match snd (aws_checksum_finalize sum 8) with
        | Failure e => (did_validate, Some e, slots)
        | Success d => (did_validate, None,
            s_s3_meta_request_record_part_digest slots part_number d (Z.of_nat (length (sums_received s))))
        end
    | _, _ => (did_validate, error, slots)
    end.
End running.

(** * Combining the checksums of parts gives that of the object *)

(** A download that combines: a part's body arrives in pieces, after its sum was made from
    the algorithm [a] of the whole. *)
Definition part_arrives `{D : !AwsDigest} (a : checksum_algorithm) (slots : list combine_slot)
    (arrival : Z * list (list byte)) : list combine_slot :=
  match (s ← s_ensure_part_combine_sum true (aws_checksum_new a) (fst arrival) (mkSums None [] None []);
         incoming_bodies true s (snd arrival)) with
  | Success s => snd (stream_complete_sums true s (fst arrival) slots None)
  | Failure _ => slots
  end.

(** The sum of the object by delivery in order: fed with each part as it is delivered. *)
Definition sum_of `{D : !AwsDigest} (a : checksum_algorithm) (object : list byte) : option s3_checksum :=
  match aws_checksum_new a with
  | Some c => match aws_checksum_update c object with Success c => Some c | Failure _ => None end
  | None => None
  end.

Section combining.
Context `{D : !AwsDigest} `{!AwsDigestLaws D}.
Variable a : checksum_algorithm.
Hypothesis Ha : aws_checksum_algorithm_is_combinable a = true.

Definition sum_at (v : Z) : s3_checksum :=
  mkChecksum (aws_get_digest_size_from_checksum_algorithm a) a true (ImplCrc v).

Lemma new_combinable : aws_checksum_new a = Some (sum_at 0).
Proof using Ha. generalize Ha. unfold sum_at. by destruct a. Qed.

Lemma digest_size_combinable : 0 < aws_get_digest_size_from_checksum_algorithm a ≤ 8.
Proof using Ha. generalize Ha. destruct a; simpl; intros; simplify_eq; lia. Qed.

Lemma finalize_sum_at v space : aws_get_digest_size_from_checksum_algorithm a ≤ space →
  snd (aws_checksum_finalize (sum_at v) space) = Success (write_be (aws_get_digest_size_from_checksum_algorithm a) v).
Proof. intros Hs. unfold aws_checksum_finalize. simpl. by rewrite (proj2 (Z.ltb_ge _ _)). Qed.

Lemma incoming_body_combine data v l :
  incoming_body_sums true (mkSums None [] (Some (sum_at v)) l) data =
    Success (mkSums None [] (Some (sum_at (crc a data v))) (l ++ data)).
Proof. done. Qed.

Lemma crc_bits_pos : 0 < crc_bits a.
Proof using Ha. unfold crc_bits. pose proof digest_size_combinable. lia. Qed.

Lemma crc_range_0 l : uint (crc_bits a) (crc a l 0).
Proof using Type*. apply crc_range; [done|]. unfold uint. pose proof crc_bits_pos. lia. Qed.

Lemma crc_nil_0 : crc a [] 0 = 0.
Proof using Type*. apply crc_nil. unfold uint. pose proof crc_bits_pos. lia. Qed.

Lemma incoming_bodies_combine data v l : uint (crc_bits a) v →
  incoming_bodies true (mkSums None [] (Some (sum_at v)) l) data =
    Success (mkSums None [] (Some (sum_at (crc a (concat data) v))) (l ++ concat data)).
Proof using Type*.
  revert v l. induction data as [|d data IH]; intros v l Hv; cbn [incoming_bodies concat].
  - by rewrite crc_nil, app_nil_r.
  - rewrite incoming_body_combine. cbn [mbind result_bind]. rewrite IH by by apply crc_range.
    by rewrite crc_app, (assoc_L (++)).
Qed.

Lemma part_arrives_spec slots k data : 1 ≤ k →
  part_arrives a slots (k, data) = s_s3_meta_request_record_part_digest slots k
    (write_be (aws_get_digest_size_from_checksum_algorithm a) (crc a (concat data) 0)) (Z.of_nat (length (concat data))).
Proof using Type*.
  intros Hk. unfold part_arrives, s_ensure_part_combine_sum. rewrite new_combinable. simpl.
  rewrite (proj2 (Z.eqb_neq k 0)) by lia. simpl. rewrite new_combinable. cbn [mbind result_bind].
  change (_ <| combine_sum := _ |>) with (mkSums None [] (Some (sum_at 0)) []).
  rewrite incoming_bodies_combine by (unfold uint; pose proof crc_bits_pos; lia). unfold stream_complete_sums. simpl.
  by rewrite finalize_sum_at by apply digest_size_combinable.
Qed.

(** The parts of the object that slots hold the digests of. *)
Definition slot_of (part : list byte) : combine_slot :=
  mkSlot (Z.of_nat (length part)) (write_be (aws_get_digest_size_from_checksum_algorithm a) (crc a part 0)).

Lemma slot_of_filled part : (length (slot_digest (slot_of part)) =? 0)%nat = false.
Proof using Type*.
  pose proof digest_size_combinable as Hsize. apply Nat.eqb_neq. simpl.
  pose proof (write_be_length _ (crc a part 0) (Z.lt_le_incl _ _ (proj1 Hsize))). lia.
Qed.

Lemma combine_slot_of object part :
  aws_checksum_combine_digest (sum_at (crc a object 0)) (slot_digest (slot_of part)) (slot_length (slot_of part)) =
    Success (sum_at (crc a (object ++ part) 0)).
Proof using Type*.
  pose proof digest_size_combinable as Hsize. unfold aws_checksum_combine_digest. simpl.
  rewrite write_be_length, Z.eqb_refl by lia. simpl.
  by rewrite read_write_be, crc_combine_spec by (done || lia || apply crc_range_0).
Qed.

Lemma fold_slots_spec parts object :
  fold_slots (slot_of <$> parts) (sum_at (crc a object 0)) = (true, sum_at (crc a (object ++ concat parts) 0)).
Proof using Type*.
  revert object. induction parts as [|part parts IH]; intros object; cbn [fmap list_fmap fold_slots concat].
  - by rewrite app_nil_r.
  - rewrite slot_of_filled, combine_slot_of. by rewrite IH, (assoc_L (++)).
Qed.

(** Every part has arrived, some perhaps more than once. *)
Lemma slots_after_arrivals parts arrivals slots :
  length slots = length parts →
  (∀ k data, (k, data) ∈ arrivals → 1 ≤ k ∧ parts !! Z.to_nat (k - 1) = Some (concat data)) →
  let slots' := foldl (part_arrives a) slots arrivals in
  length slots' = length parts ∧
  ∀ i part, parts !! i = Some part →
    slots' !! i = Some (slot_of part) ∨
    (slots' !! i = slots !! i ∧ ∀ data, (Z.of_nat i + 1, data) ∉ arrivals).
Proof using Type*.
  revert slots. induction arrivals as [|[k data] arrivals IH]; intros slots Hlen Hall; simpl.
  { split; [done|]. intros i part Hi. right. split; [done|]. set_solver. }
  destruct (Hall k data ltac:(set_solver)) as [Hk Hpart].
  rewrite part_arrives_spec by done. unfold s_s3_meta_request_record_part_digest.
  pose proof (lookup_lt_Some _ _ _ Hpart) as Hlt. rewrite (proj2 (Z.ltb_ge _ k)) by lia.
  change (mkSlot _ _) with (slot_of (concat data)).
  destruct (IH (<[Z.to_nat (k - 1) := slot_of (concat data)]> slots)) as [Hlen' Hslots];
    [by rewrite length_insert|set_solver|].
  split; [done|]. intros i part Hi. destruct (Hslots i part Hi) as [?|[Heq Hnone]]; [by left|].
  destruct (decide (i = Z.to_nat (k - 1))) as [->|Hne].
  - left. rewrite Heq, list_lookup_insert_eq by lia. by simplify_eq.
  - right. rewrite Heq, list_lookup_insert_ne by done. split; [done|]. intros data'.
    rewrite not_elem_of_cons. split; [|apply Hnone]. intros [= ? ?]. lia.
Qed.

(** C3: Validating a download whose parts were checksummed one by one as they arrived, in
    any order, in any pieces, possibly more than once, decides exactly as validating the
    checksum of the whole object fed in order: for every combinable algorithm, the digests
    folded at the end give the same verdict on the expected checksum. *)
Theorem combined_checksum_is_whole parts arrivals header :
  parts ≠ [] →
  (∀ k data, (k, data) ∈ arrivals → 1 ≤ k ∧ parts !! Z.to_nat (k - 1) = Some (concat data)) →
  (∀ k, 1 ≤ k ≤ Z.of_nat (length parts) → ∃ data, (k, data) ∈ arrivals) →
  s_validate_meta_request_checksum_on_finish true true
    (foldl (part_arrives a) (replicate (length parts) (mkSlot 0 [])) arrivals) (aws_checksum_new a) header =
  s_validate_meta_request_checksum_on_finish true false [] (sum_of a (concat parts)) header.
Proof using Type*.
  intros Hne Hall Hcover.
  destruct (slots_after_arrivals parts arrivals (replicate (length parts) (mkSlot 0 []))) as [Hlen Hslots];
    [by rewrite length_replicate|done|].
  assert (foldl (part_arrives a) (replicate (length parts) (mkSlot 0 [])) arrivals = slot_of <$> parts) as ->.
  { apply list_eq_same_length with (length parts); [by rewrite length_fmap|done|].
    intros i x y Hi Hx Hy. rewrite list_lookup_fmap in Hy.
    destruct (parts !! i) as [part|] eqn:Hp; simplify_eq/=.
    destruct (Hslots i part Hp) as [Hs|[_ Hnone]]; [by simplify_eq|].
    destruct (Hcover (Z.of_nat i + 1) ltac:(lia)) as [data Hd]. by destruct (Hnone data). }
  unfold sum_of. rewrite new_combinable. simpl.
  unfold s_s3_meta_request_fold_combine_slots. rewrite length_fmap.
  rewrite (proj2 (Nat.eqb_neq _ 0)) by (by destruct parts).
  pose proof (fold_slots_spec parts []) as Hfold. rewrite crc_nil_0 in Hfold. by rewrite Hfold.
Qed.

(** When a part never recorded a digest the sum of the parts before it is lost: the fold has
    already changed the running sum. *)
Lemma fold_keeps_partial_sum part :
  s_s3_meta_request_fold_combine_slots [slot_of part; mkSlot 0 []] (sum_at 0) = (false, sum_at (crc a part 0)).
Proof using Type*.
  unfold s_s3_meta_request_fold_combine_slots. cbn [fold_slots length Nat.eqb].
  rewrite slot_of_filled. pose proof (combine_slot_of [] part) as Hc. rewrite crc_nil_0 in Hc. by rewrite Hc.
Qed.
End combining.

(** * An instance *)

(** A sum of bytes in place of a crc, and texts for themselves. *)
Fixpoint be_ref (n : nat) (v : Z) : list byte :=
  match n with
  | O => []
  | S n => be_ref n (v / 256) ++ [byte_of (v mod 256)]
  end.

Definition byte_sum (l : list byte) : Z := foldl (λ acc b, acc + byte_Z b) 0 l.

#[local] Instance digest_ref : AwsDigest := {|
  crc a l v := match l with [] => v | _ => wrap (crc_bits a) (v + byte_sum l) end;
  crc_combine a head tail n := if n =? 0 then head else wrap (crc_bits a) (head + tail);
  digest a l := Success l;
  write_be n v := be_ref (Z.to_nat n) v;
  read_be l := foldl (λ acc b, 256 * acc + byte_Z b) 0 l;
  aws_base64_compute_encoded_len n := Some n;
  aws_base64_encode l := Some l;
|}.

Lemma byte_sum_app l k : byte_sum (l ++ k) = byte_sum l + byte_sum k.
Proof.
  unfold byte_sum. rewrite foldl_app. generalize (foldl (λ acc b, acc + byte_Z b) 0 l) as z.
  induction k as [|b k IH] using rev_ind; intros z; simpl; [lia|]. rewrite !foldl_app. simpl. rewrite IH. lia.
Qed.

#[local] Instance digest_ref_laws : AwsDigestLaws digest_ref.
Proof.
  split; simpl.
  - intros a l v Ha Hv. destruct l; [done|]. apply wrap_uint. by destruct a.
  - done.
  - intros a [|b l] k v; [done|]. destruct k as [|b' k]; [by rewrite app_nil_r|]. rewrite <-app_comm_cons.
    rewrite app_comm_cons, byte_sum_app. autorewrite with wrapping. f_equal. lia.
  - intros a l k Ha. destruct k as [|b k]; [by rewrite app_nil_r|].
    rewrite (proj2 (Z.eqb_neq _ 0)) by (simpl; lia). destruct l as [|b' l].
    + simpl app. rewrite !Z.add_0_l. by autorewrite with wrapping.
    + rewrite <-app_comm_cons. rewrite app_comm_cons, byte_sum_app. rewrite !Z.add_0_l. by autorewrite with wrapping.
  - intros n v Hn. rewrite <-(Z2Nat.id n) at 2 by done. generalize (Z.to_nat n) as m. intros m. revert v.
    induction m as [|m IH]; intros v; simpl; [done|]. rewrite length_app, Nat2Z.inj_add, IH. simpl. lia.
  - intros n v Hn Hv. rewrite <-(Z2Nat.id n) in Hv by done. revert v Hv. generalize (Z.to_nat n) as m. clear n Hn.
    induction m as [|m IH]; intros v Hv; unfold uint in Hv; simpl be_ref.
    + simpl in *. lia.
    + rewrite foldl_app. simpl. pose proof (Z.mod_pos_bound v 256 ltac:(lia)).
      replace (8 * Z.of_nat (S m)) with (8 + 8 * Z.of_nat m) in Hv by lia. rewrite Z.pow_add_r in Hv by lia.
      assert (uint (8 * Z.of_nat m) (v / 256)).
      { split; [apply Z.div_pos; lia|]. apply Z.div_lt_upper_bound; lia. }
      rewrite IH, byte_of_Z by done.
      pose proof (Z.div_mod v 256 ltac:(lia)). lia.
  - intros l n e [= <-] [= <-]. done.
  - intros l k e [= <-] [= <-]. done.
  - intros n _. by eexists.
Qed.

(** Three parts that arrive out of order, one of them twice, the first in two pieces. *)
Lemma combined_checksum_is_whole_witness :
  let parts := [lit "abc"; lit "defg"; lit "h"] in
  let arrivals := [(3, [lit "h"]); (1, [lit "a"; lit "bc"]); (2, [lit "defg"]); (3, [lit "h"])] in
  s_validate_meta_request_checksum_on_finish true true
    (foldl (part_arrives AWS_SCA_CRC32) (replicate 3 (mkSlot 0 [])) arrivals) (aws_checksum_new AWS_SCA_CRC32) (be_ref 4 804)
  = s_validate_meta_request_checksum_on_finish true false [] (sum_of AWS_SCA_CRC32 (concat parts)) (be_ref 4 804) ∧
  s_validate_meta_request_checksum_on_finish true false [] (sum_of AWS_SCA_CRC32 (concat parts)) (be_ref 4 804)
    = (true, false).
Proof.
  intros parts arrivals. split; [|vm_compute; reflexivity].
  apply (combined_checksum_is_whole AWS_SCA_CRC32 eq_refl parts arrivals).
  - done.
  - intros k data. unfold arrivals. rewrite !elem_of_cons. intros Hin. destruct_or!; simplify_eq; (split; [lia|done]) || idtac.
    by apply elem_of_nil in Hin.
  - intros k Hk. simpl in Hk. assert (k = 1 ∨ k = 2 ∨ k = 3) as [-> | [-> | ->]] by lia; eexists; unfold arrivals;
      repeat (apply list_elem_of_here || apply list_elem_of_further).
Defined.
