(* ===== verification/ChecksumContext.v ===== *)
(** The checksum of an uploaded part (source/s3_checksum_context.c) and the checksum
    configuration of a meta request (source/s3_checksums.c). *)

From Stdlib Require Import Init.Byte String.
From S2P Require Import Prelude AwsCommon ByteCursor HttpHeaders HttpMessage Checksums.

(** * The configuration of a meta request *)

(** [enum aws_s3_checksum_validation_mode], as the integer that a caller may set it to. *)
Definition SCVM_DEFAULT : Z := 0.
Definition SCVM_REQUEST_ONLY : Z := 1.
Definition SCVM_FULL_OBJECT : Z := 2.

(** [struct aws_s3_meta_request_checksum_config_storage]; the flags of
    [response_checksum_algorithms] are the list of algorithms that are on. *)
Record checksum_config := mkChecksumConfig {
  full_object_checksum : list byte;
  has_full_object_checksum : bool;
  has_full_object_checksum_callback : bool;
  config_location : checksum_location;
  config_algorithm : checksum_algorithm;
  unknown_checksum_algo : list byte;
  config_validate_response : bool;
  config_validation_mode : Z;
  response_checksum_algorithms : list checksum_algorithm;
}.
#[export] Instance checksum_config_eta : Eta checksum_config := λ c,
  mkChecksumConfig (full_object_checksum c) (has_full_object_checksum c) (has_full_object_checksum_callback c)
    (config_location c) (config_algorithm c) (unknown_checksum_algo c) (config_validate_response c)
    (config_validation_mode c) (response_checksum_algorithms c).

Definition no_checksum_config : checksum_config := mkChecksumConfig [] false false AWS_SCL_NONE AWS_SCA_NONE [] false SCVM_DEFAULT [].

(** The options of the caller, [struct aws_s3_checksum_config]. *)
Record checksum_options := mkChecksumOptions {
  option_location : checksum_location;
  option_algorithm : checksum_algorithm;
  option_full_object_checksum_callback : bool;
  option_validate_response : bool;
  option_validation_mode : Z;
  option_validate_algorithms : option (list checksum_algorithm);
}.

Section config.
Context `{B : !AwsByteCursor} `{H : !AwsHttpHeaders}.

(** Library code: [aws_byte_cursor_find_exact]. *)
Variable aws_byte_cursor_find_exact : list byte → list byte → bool.

Definition s_byte_to_upper (b : byte) : byte :=
  if (97 <=? byte_Z b) && (byte_Z b <=? 122) then byte_of (byte_Z b - 32) else b.

(** The algorithms whose header the message has, with its value. *)
Definition header_algorithms (headers : http_headers) : list (checksum_algorithm * list byte) :=
  omap (λ a, v ← aws_http_headers_get headers (aws_get_http_header_name_from_checksum_algorithm a); Some (a, v))
    s_checksum_algo_priority_list.

Definition s_init_and_verify_checksum_config_from_headers (c : checksum_config) (headers : http_headers)
    : result aws_error checksum_config :=
  match list_find (λ kv, aws_s3_is_checksum_value_header_name (fst kv) = true) headers with
  | None => Success c
  | Some (_, (checksum_header_name, _)) =>
      let found :=
        match header_algorithms headers with
        | [] => Some (AWS_SCA_UNKNOWN, [])
        | [(a, v)] => Some (a, v)
        | _ => None
        end in
      match found with
      | None => Failure AWS_ERROR_INVALID_ARGUMENT
      | Some (header_algo, header_value) =>
          if has_full_object_checksum c then Failure AWS_ERROR_INVALID_ARGUMENT
          else
            let c := c <| config_algorithm := header_algo |> <| config_location := AWS_SCL_NONE |> in
            let c :=
              if decide (header_algo = AWS_SCA_UNKNOWN) then
                c <| unknown_checksum_algo :=
                  s_byte_to_upper <$> aws_byte_cursor_advance checksum_header_name (Z.of_nat (length (lit "x-amz-checksum-"))) |>
              else c in
            Success (c <| full_object_checksum := header_value |> <| has_full_object_checksum := true |>)
      end
  end.

Definition is_known_algorithm (a : checksum_algorithm) : bool := bool_decide (a ∈ s_checksum_algo_priority_list).

Definition aws_s3_meta_request_checksum_config_storage_init (config : option checksum_options) (headers : http_headers)
    : result aws_error checksum_config :=
  match config with
  | None => Success no_checksum_config
  | Some o =>
      let chunked :=
        match aws_http_headers_get headers (lit "Content-Encoding") with
        | Some encoding => aws_byte_cursor_find_exact encoding (lit "aws-chunked")
        | None => false
        end in
      if bool_decide (option_location o = AWS_SCL_TRAILER) && chunked then Failure AWS_ERROR_INVALID_ARGUMENT
      else if negb (bool_decide (option_location o = AWS_SCL_NONE)) && bool_decide (option_algorithm o = AWS_SCA_NONE) then
        Failure AWS_ERROR_INVALID_ARGUMENT
      else if (option_validation_mode o <? SCVM_DEFAULT) || (SCVM_FULL_OBJECT <? option_validation_mode o) then
        Failure AWS_ERROR_INVALID_ARGUMENT
      else
        let algorithms :=
          match option_validate_algorithms o with
          | Some l => filter (λ a, is_known_algorithm a = true) l
          | None => if option_validate_response o then s_checksum_algo_priority_list else []
          end in
        s_init_and_verify_checksum_config_from_headers
          (mkChecksumConfig [] (option_full_object_checksum_callback o) (option_full_object_checksum_callback o)
             (option_location o) (option_algorithm o) [] (option_validate_response o) (option_validation_mode o) algorithms)
          headers
  end.
End config.

(** * The context of a part *)

(** [struct aws_s3_upload_request_checksum_context]; [checksum_calculated] is whether there is
    a checksum. *)
Record checksum_context := mkContext {
  context_algorithm : checksum_algorithm;
  context_location : checksum_location;
  encoded_checksum_size : Z;
  has_review_callback : bool;
  base64_checksum : option (list byte);
}.
#[export] Instance checksum_context_eta : Eta checksum_context := λ c,
  mkContext (context_algorithm c) (context_location c) (encoded_checksum_size c) (has_review_callback c) (base64_checksum c).

Section context.
Context `{D : !AwsDigest}.

Definition s_s3_upload_request_checksum_context_new_base (config : option checksum_config) (review : bool)
    : option checksum_context :=
  match config with
  | None => Some (mkContext AWS_SCA_NONE AWS_SCL_NONE 0 false None)
  | Some c =>
      if decide (config_algorithm c = AWS_SCA_NONE) then Some (mkContext AWS_SCA_NONE AWS_SCL_NONE 0 false None)
      else
        match aws_base64_compute_encoded_len (aws_get_digest_size_from_checksum_algorithm (config_algorithm c)) with
        | None => None
        | Some encoded_size => Some (mkContext (config_algorithm c) (config_location c) encoded_size review None)
        end
  end.

Definition aws_s3_upload_request_checksum_context_new (config : option checksum_config) (review : bool)
    : option checksum_context :=
  s_s3_upload_request_checksum_context_new_base config review.

Definition aws_s3_upload_request_checksum_context_new_with_existing_base64_checksum (config : option checksum_config)
    (existing_base64_checksum : list byte) (review : bool) : option checksum_context :=
  match s_s3_upload_request_checksum_context_new_base config review with
  | None => None
  | Some c =>
      if negb (encoded_checksum_size c =? Z.of_nat (length existing_base64_checksum)) then None
      else Some (c <| base64_checksum := Some existing_base64_checksum |>)
  end.

Definition aws_s3_upload_request_checksum_context_should_calculate (context : option checksum_context) : bool :=
  match context with
  | None => false
  | Some c =>
      if bool_decide (context_algorithm c = AWS_SCA_NONE) || bool_decide (context_algorithm c = AWS_SCA_UNKNOWN)
         || (bool_decide (context_location c = AWS_SCL_NONE) && negb (has_review_callback c)) then false
      else negb (bool_decide (is_Some (base64_checksum c)))
  end.

Definition aws_s3_upload_request_checksum_context_should_add_header (context : option checksum_context) : bool :=
  match context with
  | None => false
  | Some c => bool_decide (context_location c = AWS_SCL_HEADER) && negb (bool_decide (context_algorithm c = AWS_SCA_NONE))
  end.

Definition aws_s3_upload_request_checksum_context_should_add_trailer (context : option checksum_context) : bool :=
  match context with
  | None => false
  | Some c => bool_decide (context_location c = AWS_SCL_TRAILER) && negb (bool_decide (context_algorithm c = AWS_SCA_NONE))
  end.

Definition aws_s3_upload_request_checksum_context_finalize_checksum (context : option checksum_context)
    (raw_checksum : list byte) : result aws_error (option checksum_context) :=
  match context with
  | None => Failure AWS_ERROR_INVALID_ARGUMENT
  | Some c =>
      match base64_checksum c with
      | Some _ => Success (Some c)
      | None =>
          match aws_base64_encode raw_checksum with
          | None => Failure AWS_ERROR_SHORT_BUFFER
          | Some encoded => Success (Some (c <| base64_checksum := Some encoded |>))
          end
      end
  end.

Definition aws_s3_upload_request_checksum_context_get_checksum_cursor (context : option checksum_context) : list byte :=
  match context with
  | None => []
  | Some c => default [] (base64_checksum c)
  end.
End context.

(** * The checksum of a part is computed once *)

Section once.
Context `{D : !AwsDigest}.

(** What retries of a part do to its context: each attempt may finalize again. *)
Fixpoint finalize_all (context : checksum_context) (raws : list (list byte)) : checksum_context :=
  match raws with
  | [] => context
  | raw :: raws =>
      match aws_s3_upload_request_checksum_context_finalize_checksum (Some context) raw with
      | Success (Some c) => finalize_all c raws
      | _ => finalize_all context raws
      end
  end.

Lemma finalize_all_kept context raws e : base64_checksum context = Some e → finalize_all context raws = context.
Proof. intros He. induction raws as [|raw raws IH]; simpl; [done|]. by rewrite He. Qed.

(** A part whose context was finalized keeps that checksum through every retry: later
    attempts neither ask for a new computation nor change what is sent and reported, even
    if the body read again has changed. *)
Theorem checksum_of_first_attempt context raw e raws :
  base64_checksum context = None → aws_base64_encode raw = Some e →
  let context' := finalize_all context (raw :: raws) in
  aws_s3_upload_request_checksum_context_get_checksum_cursor (Some context') = e ∧
  aws_s3_upload_request_checksum_context_should_calculate (Some context') = false ∧
  context_algorithm context' = context_algorithm context ∧ context_location context' = context_location context.
Proof.
  intros Hnone He. cbn [finalize_all aws_s3_upload_request_checksum_context_finalize_checksum]. rewrite Hnone, He.
  rewrite (finalize_all_kept (context <| base64_checksum := Some e |>) raws e) by done. simpl. split_and!; [done| |done..].
  by case_match.
Qed.

(** A context made from a checksum that a server listed is never computed anew. *)
Lemma existing_checksum_kept config existing review c :
  aws_s3_upload_request_checksum_context_new_with_existing_base64_checksum config existing review = Some c →
  aws_s3_upload_request_checksum_context_should_calculate (Some c) = false ∧
  aws_s3_upload_request_checksum_context_get_checksum_cursor (Some c) = existing ∧
  Z.of_nat (length existing) = encoded_checksum_size c.
Proof.
  unfold aws_s3_upload_request_checksum_context_new_with_existing_base64_checksum.
  destruct (s_s3_upload_request_checksum_context_new_base config review) as [c'|]; [|done].
  destruct (Z.eqb_spec (encoded_checksum_size c') (Z.of_nat (length existing))); simpl; [|done].
  intros [= <-]. simpl. split_and!; [|done|done]. by case_match.
Qed.
End once.

(** * The configuration is consistent *)

Section consistent.
Context `{B : !AwsByteCursor} `{H : !AwsHttpHeaders}.
Variable find_exact : list byte → list byte → bool.

(** What the users of a configuration rely on: a checksum is only placed if an algorithm is
    chosen, the full-object checksum is either the caller's callback or a header of the
    message, in which case the client adds none of its own, the validation mode is one of the
    enumeration, and responses are validated with known algorithms. *)
Definition config_ok (c : checksum_config) : Prop :=
  (config_location c ≠ AWS_SCL_NONE → config_algorithm c ≠ AWS_SCA_NONE) ∧
  (has_full_object_checksum c = true → has_full_object_checksum_callback c = false →
     config_location c = AWS_SCL_NONE ∧ config_algorithm c ≠ AWS_SCA_NONE) ∧
  (has_full_object_checksum_callback c = true → has_full_object_checksum c = true ∧ full_object_checksum c = []) ∧
  SCVM_DEFAULT ≤ config_validation_mode c ≤ SCVM_FULL_OBJECT ∧
  (∀ a, a ∈ response_checksum_algorithms c → is_known_algorithm a = true).

Lemma header_algorithms_known headers a v : (a, v) ∈ header_algorithms headers → a ∈ s_checksum_algo_priority_list.
Proof.
  intros (a' & Ha & Hv)%list_elem_of_omap. by destruct (aws_http_headers_get _ _); simplify_eq/=.
Qed.

Lemma from_headers_ok c headers c' :
  (config_location c ≠ AWS_SCL_NONE → config_algorithm c ≠ AWS_SCA_NONE) →
  has_full_object_checksum c = has_full_object_checksum_callback c → full_object_checksum c = [] →
  SCVM_DEFAULT ≤ config_validation_mode c ≤ SCVM_FULL_OBJECT →
  (∀ a, a ∈ response_checksum_algorithms c → is_known_algorithm a = true) →
  s_init_and_verify_checksum_config_from_headers c headers = Success c' → config_ok c'.
Proof.
  intros Hloc Hcb Hfull Hmode Hknown. unfold s_init_and_verify_checksum_config_from_headers.
  destruct (list_find _ headers) as [[i [name value]]|]; [|intros [= <-]; unfold config_ok; split_and!; (done || congruence || apply Hmode || idtac)].
  2: { rewrite Hcb. intros Hb. by rewrite Hb. }
  assert (∀ a v, match header_algorithms headers with
                 | [] => Some (AWS_SCA_UNKNOWN, [])
                 | [(a, v)] => Some (a, v)
                 | _ => None
                 end = Some (a, v) → a ≠ AWS_SCA_NONE) as Hne.
  { intros a v. destruct (header_algorithms headers) as [|[a' v'] [|??]] eqn:Hl; [naive_solver| |done].
    intros [= -> ->] ->. assert ((AWS_SCA_NONE, v) ∈ header_algorithms headers) as Hin by (rewrite Hl; set_solver).
    apply header_algorithms_known in Hin. unfold s_checksum_algo_priority_list in Hin. set_solver. }
  destruct (match header_algorithms headers with [] => _ | _ => _ end) as [[a v]|] eqn:Hm; [|done].
  pose proof (Hne a v eq_refl) as Hav. clear Hne. destruct (has_full_object_checksum c) eqn:Hhas; [done|].
  case_decide; intros [= <-]; (split_and!; [done|done|simpl; congruence|apply Hmode..|done]).
Qed.

(** C39: Every configuration that [aws_s3_meta_request_checksum_config_storage_init] accepts is
    consistent, for all options of the caller and all headers of the message: a location comes with
    an algorithm, a full-object checksum has one source, the validation mode is one of the
    enumeration, and responses are validated with known algorithms. *)
Theorem checksum_config_consistent config headers c :
  aws_s3_meta_request_checksum_config_storage_init find_exact config headers = Success c → config_ok c.
Proof.
  unfold aws_s3_meta_request_checksum_config_storage_init. destruct config as [o|].
  - destruct (bool_decide (option_location o = AWS_SCL_TRAILER) && _); [done|].
    destruct (negb _ && _) eqn:Halg; [done|]. destruct (_ || _) eqn:Hmode; [done|].
    apply orb_false_iff in Hmode as [?%Z.ltb_ge ?%Z.ltb_ge]. apply from_headers_ok; simpl; [|done|done|lia|].
    + intros Hloc Hnone. rewrite (bool_decide_true (option_algorithm o = _)) in Halg by done.
      by rewrite bool_decide_false in Halg by done.
    + intros a. destruct (option_validate_algorithms o) as [l|].
      * by intros [? _]%list_elem_of_filter.
      * destruct (option_validate_response o); [|by intros ?%elem_of_nil]. intros. by apply bool_decide_eq_true.
  - intros [= <-]. split_and!; simpl; try done. set_solver.
Qed.

(** The value of a checksum header that the client does not know is not kept. *)
Lemma unknown_checksum_value_dropped c headers c' :
  has_full_object_checksum c = false →
  s_init_and_verify_checksum_config_from_headers c headers = Success c' →
  config_algorithm c' = AWS_SCA_UNKNOWN → config_algorithm c ≠ AWS_SCA_UNKNOWN →
  has_full_object_checksum c' = true ∧ full_object_checksum c' = [].
Proof.
  intros Hhas. unfold s_init_and_verify_checksum_config_from_headers.
  destruct (list_find _ headers) as [[i [name value]]|]; [|naive_solver].
  destruct (header_algorithms headers) as [|[a v] [|??]] eqn:Hl; [| |done].
  - rewrite Hhas. case_decide; [|done]. by intros [= <-].
  - rewrite Hhas. assert (a ∈ s_checksum_algo_priority_list) as Ha.
    { apply (header_algorithms_known headers a v). rewrite Hl. set_solver. }
    case_decide; intros [= <-]; simpl; intros ->; unfold s_checksum_algo_priority_list in Ha; set_solver.
Qed.
End consistent.

(** * Instances *)

#[local] Existing Instances byte_cursor_ref byte_cursor_ref_laws headers_ref headers_ref_laws digest_ref digest_ref_laws.

Lemma checksum_of_first_attempt_witness :
  let context := mkContext AWS_SCA_CRC32 AWS_SCL_TRAILER 4 false None in
  aws_s3_upload_request_checksum_context_get_checksum_cursor (Some (finalize_all context [lit "abcd"; lit "efgh"]))
    = lit "abcd".
Proof.
  intros context. by apply (checksum_of_first_attempt context (lit "abcd") (lit "abcd") [lit "efgh"]).
Defined.

Lemma checksum_config_consistent_witness :
  let headers := [(lit "Host", lit "x"); (lit "x-amz-checksum-crc32", lit "AAAA")] in
  let c := mkChecksumConfig (lit "AAAA") true false AWS_SCL_NONE AWS_SCA_CRC32 [] false SCVM_REQUEST_ONLY [] in
  config_ok c.
Proof.
  intros headers c.
  apply (checksum_config_consistent (λ _ _, false)
    (Some (mkChecksumOptions AWS_SCL_HEADER AWS_SCA_SHA1 false false SCVM_REQUEST_ONLY None)) headers c).
  vm_compute. reflexivity.
Defined.
