(* ===== verification/Listing.v ===== *)
(** Listings (source/s3_paginator.c, source/s3_list_parts.c, source/s3_list_objects.c) and
    looking up elements of XML responses (source/s3_util.c).

    Parsing XML is library code: [AwsXml] turns a document into a tree of the elements its
    parser reports, with whether it was well-formed to the end. *)

From Stdlib Require Import Init.Byte String.
From S2P Require Import Prelude AwsCommon ByteCursor Checksums.

(** * Documents *)

(** An element: its name, its body as [aws_xml_node_as_body] returns it, and its children in
    document order. *)
Inductive xml_node := XmlNode (name : list byte) (body : option (list byte)) (children : list xml_node).

Definition xml_name (n : xml_node) : list byte := let '(XmlNode name _ _) := n in name.
Definition xml_body (n : xml_node) : option (list byte) := let '(XmlNode _ body _) := n in body.
Definition xml_children (n : xml_node) : list xml_node := let '(XmlNode _ _ children) := n in children.

Class AwsXml := {
  (** the root element, and whether the rest of the document was parsed *)
  aws_xml_parse : list byte → option (xml_node * bool);
  aws_byte_buf_append_unescaped_xml : list byte → option (list byte);
  aws_date_time_init_from_str_cursor : list byte → bool;
  aws_byte_buf_append_encoding_uri_param : list byte → list byte;
}.

(** [aws_xml_node_traverse]: the callback sees each child until one fails. *)
Fixpoint xml_traverse {A} (on_node : xml_node → A → A * bool) (nodes : list xml_node) (a : A) : A * bool :=
  match nodes with
  | [] => (a, true)
  | n :: nodes => let '(a, ok) := on_node n a in if ok then xml_traverse on_node nodes a else (a, false)
  end.

(** * Pages *)

(** An operation that lists: the name of the root element of its pages, that of the
    continuation token, the request for a page (its path) with a token, and what it does with
    the other elements of a page, [A] being what the callbacks of the caller have seen. *)
Record paginated_operation (A : Type) := mkOperation {
  result_xml_node_name : list byte;
  continuation_xml_node_name : list byte;
  next_http_message : option (list byte) → result aws_error (list byte);
  on_result_node_encountered : xml_node → A → A * bool;
}.
Arguments mkOperation {A} _ _ _ _.
Arguments result_xml_node_name {A} _.
Arguments continuation_xml_node_name {A} _.
Arguments next_http_message {A} _ _.
Arguments on_result_node_encountered {A} _ _ _.

(** [struct parser_wrapper] with the state of the callbacks. *)
Record parser_wrapper (A : Type) := mkWrapper {
  next_continuation_token : option (list byte);
  wrapper_has_more_results : bool;
  wrapper_seen : A;
}.
Arguments mkWrapper {A} _ _ _.
Arguments next_continuation_token {A} _.
Arguments wrapper_has_more_results {A} _.
Arguments wrapper_seen {A} _.

Inductive operation_state := OS_NOT_STARTED | OS_INITIATED | OS_COMPLETED | OS_ERROR.

#[export] Instance operation_state_eq_dec : EqDecision operation_state.
Proof. solve_decision. Defined.

(** [struct aws_s3_paginator]: where it lists, its state, the body of the page so far, whether it
    has the request of a page, and its reference count; for the statements, the references to
    meta requests that it holds, whether it was freed, and what the callbacks of the caller have
    seen, pages that finished with their error included. *)
Record paginator (A : Type) := mkPaginator {
  paginator_bucket_name : list byte;
  paginator_endpoint : list byte;
  continuation_token : option (list byte);
  op_state : operation_state;
  has_more_results : bool;
  result_body : list byte;
  current_request : bool;
  ref_count : Z;
  meta_request_refs : Z;
  paginator_freed : bool;
  seen : A;
  pages_finished : list (option aws_error);
}.
Arguments mkPaginator {A} _ _ _ _ _ _ _ _ _ _ _ _.
Arguments paginator_bucket_name {A} _.
Arguments paginator_endpoint {A} _.
Arguments continuation_token {A} _.
Arguments op_state {A} _.
Arguments has_more_results {A} _.
Arguments result_body {A} _.
Arguments current_request {A} _.
Arguments ref_count {A} _.
Arguments meta_request_refs {A} _.
Arguments paginator_freed {A} _.
Arguments seen {A} _.
Arguments pages_finished {A} _.
#[export] Instance paginator_eta {A} : Eta (paginator A) := λ p,
  mkPaginator (paginator_bucket_name p) (paginator_endpoint p) (continuation_token p) (op_state p) (has_more_results p)
    (result_body p) (current_request p) (ref_count p) (meta_request_refs p) (paginator_freed p) (seen p) (pages_finished p).

(** What other code answers when a page is asked for: the errors of buffers and of adding the
    header, and of the client when it does not take the request. *)
Record continue_env := mkContinueEnv {
  ce_host_buf : option aws_error;
  ce_add_header : option aws_error;
  ce_make_meta_request : option aws_error;
}.

(** The request of a page: the host and the path. *)
Record page_request := mkPageRequest { page_host : list byte; page_path : list byte }.

Section listing.
Context `{B : !AwsByteCursor} `{X : !AwsXml}.

Notation name_is n s := (aws_byte_cursor_eq_ignore_case (xml_name n) (lit s)).

(** [aws_xml_parse] with a callback for the root. *)
Definition xml_parse_with {A} (doc : list byte) (on_root : xml_node → A → A * bool) (a : A) : A * bool :=
  match aws_xml_parse doc with
  | None => (a, false)
  | Some (root, well_formed) => let '(a, ok) := on_root root a in (a, ok && well_formed)
  end.

(** [s_xml_get_body_at_path_on_node], with the names still to be found; the state is the body
    that was found. *)
Fixpoint xml_get_body_on_node (path : list (list byte)) (n : xml_node) (found : option (list byte))
    : option (list byte) * bool :=
  match found, path with
  | Some _, _ => (found, true)
  | None, [] => (None, true)
  | None, name :: rest =>
      if aws_byte_cursor_eq_ignore_case (xml_name n) name then
        match rest with
        | [] => match xml_body n with Some body => (Some body, true) | None => (None, false) end
        | _ => xml_traverse (xml_get_body_on_node rest) (xml_children n) None
        end
      else (None, true)
  end.

Definition aws_xml_get_body_at_path (doc : list byte) (path : list (list byte)) : option (list byte) :=
  match xml_parse_with doc (xml_get_body_on_node path) None with
  | (Some body, true) => Some body
  | _ => None
  end.

Definition s_on_result_node_encountered {A} (op : paginated_operation A) (n : xml_node) (w : parser_wrapper A)
    : parser_wrapper A * bool :=
  if aws_byte_cursor_eq_ignore_case (xml_name n) (continuation_xml_node_name op) then
    match xml_body n with
    | None => (w, false)
    | Some token => (mkWrapper (Some token) (wrapper_has_more_results w) (wrapper_seen w), true)
    end
  else if name_is n "IsTruncated" then
    match xml_body n with
    | None => (w, false)
    | Some truncated =>
        (mkWrapper (next_continuation_token w)
           (aws_byte_cursor_eq_ignore_case truncated (lit "true") || wrapper_has_more_results w) (wrapper_seen w), true)
    end
  else
    let '(seen, ok) := on_result_node_encountered op n (wrapper_seen w) in
    (mkWrapper (next_continuation_token w) (wrapper_has_more_results w) seen, ok).

Definition s_on_root_node_encountered {A} (op : paginated_operation A) (n : xml_node) (w : parser_wrapper A)
    : parser_wrapper A * bool :=
  if aws_byte_cursor_eq_ignore_case (xml_name n) (result_xml_node_name op)
  then xml_traverse (s_on_result_node_encountered op) (xml_children n) w else (w, false).

(** What the callbacks saw, and the continuation token with whether there are more results. *)
Definition aws_s3_paginated_operation_on_response {A} (op : paginated_operation A) (response_body : list byte) (seen : A)
    : A * result aws_error (option (list byte) * bool) :=
  let '(w, ok) := xml_parse_with response_body (s_on_root_node_encountered op) (mkWrapper None false seen) in
  (wrapper_seen w,
   if ok then Success (next_continuation_token w, wrapper_has_more_results w) else Failure AWS_ERROR_INVALID_XML).

Definition aws_s3_initiate_paginator {A} (bucket_name endpoint : list byte) (seen : A) : paginator A :=
  mkPaginator bucket_name endpoint None OS_NOT_STARTED false [] false 1 0 false seen [].

(** The part of [s_paginator_ref_count_zero_callback] that concerns the request. *)
Definition s_paginator_ref_count_zero_callback {A} (p : paginator A) : paginator A :=
  let p := p <| result_body := [] |> in
  let p := if current_request p then p <| meta_request_refs ::= Z.pred |> else p in
  p <| current_request := false |> <| continuation_token := None |> <| paginator_freed := true |>.

Definition aws_s3_paginator_acquire {A} (p : paginator A) : paginator A := p <| ref_count ::= Z.succ |>.

Definition aws_s3_paginator_release {A} (p : paginator A) : paginator A :=
  let p := p <| ref_count ::= Z.pred |> in
  if ref_count p =? 0 then s_paginator_ref_count_zero_callback p else p.

Definition s_set_paginator_state_if_legal {A} (p : paginator A) (expected state : operation_state)
    : result aws_error (paginator A) :=
  if decide (op_state p = expected) then Success (p <| op_state := state |>) else Failure AWS_ERROR_INVALID_STATE.

Definition set_state_if_legal {A} (p : paginator A) (expected state : operation_state) : paginator A :=
  match s_set_paginator_state_if_legal p expected state with Success p => p | Failure _ => p end.

(** A piece of the body of a page. *)
Definition s_receive_body_callback {A} (p : paginator A) (body : list byte) : paginator A :=
  match body with [] => p | _ => p <| result_body ::= λ l, l ++ body |> end.

(** The next page is asked for; the answer is the request that the client takes. *)
Definition aws_s3_paginator_continue {A} (op : paginated_operation A) (p : paginator A) (env : continue_env)
    : paginator A * result aws_error page_request :=
  match s_set_paginator_state_if_legal p OS_NOT_STARTED OS_INITIATED with
  | Failure e => (p, Failure e)
  | Success p =>
      match ce_host_buf env with
      | Some e => (p, Failure e)
      | None =>
          let host := paginator_bucket_name p ++ lit "." ++ paginator_endpoint p in
          match next_http_message op (continuation_token p) with
          | Failure e => (p, Failure e)
          | Success path =>
              match ce_add_header env with
              | Some e => (p, Failure e)
              | None =>
                  let p := p <| result_body := [] |> in
                  let p := aws_s3_paginator_acquire p in
                  let p := if current_request p then p <| meta_request_refs ::= Z.pred |> else p in
                  match ce_make_meta_request env with
                  | Some e => (set_state_if_legal (p <| current_request := false |>) OS_INITIATED OS_ERROR, Failure e)
                  | None =>
                      (p <| current_request := true |> <| meta_request_refs ::= Z.succ |>, Success (mkPageRequest host path))
                  end
              end
          end
      end
  end.

(** [s_on_request_finished]: a page has arrived, or the request for it has failed. *)
Definition s_on_request_finished {A} (op : paginated_operation A) (p : paginator A) (response_status : Z)
    (error_code : option aws_error) : paginator A :=
  let p :=
    if response_status =? 200 then
      let p := match continuation_token p with
               | Some _ => p <| continuation_token := None |> <| has_more_results := false |>
               | None => p
               end in
      let '(seen', parsed) := aws_s3_paginated_operation_on_response op (result_body p) (seen p) in
      let '(token, more) := match parsed with Success page => page | Failure _ => (None, false) end in
      let p := p <| seen := seen' |> <| continuation_token := token |> <| has_more_results := more |> in
      if more then set_state_if_legal p OS_INITIATED OS_NOT_STARTED else set_state_if_legal p OS_INITIATED OS_COMPLETED
    else set_state_if_legal p OS_INITIATED OS_ERROR in
  aws_s3_paginator_release (p <| pages_finished ::= λ l, l ++ [error_code] |>).

(** * ListParts *)

(** [struct aws_s3_part_info], with the checksum of each algorithm that is listed. *)
Record listed_part := mkListed {
  listed_size : Z;
  listed_part_number : Z;
  listed_e_tag : list byte;
  listed_checksum : checksum_algorithm → list byte;
}.
#[export] Instance listed_part_eta : Eta listed_part := λ i,
  mkListed (listed_size i) (listed_part_number i) (listed_e_tag i) (listed_checksum i).

Definition no_part : listed_part := mkListed 0 0 [] (λ _, []).

Definition with_checksum (i : listed_part) (a : checksum_algorithm) (body : option (list byte)) : listed_part * bool :=
  match body with
  | Some v => (i <| listed_checksum ::= λ f a', if decide (a' = a) then v else f a' |>, true)
  | None => (i, false)
  end.

Definition s_xml_on_Part_child (n : xml_node) (i : listed_part) : listed_part * bool :=
  if name_is n "ETag" then
    match xml_body n with Some v => (i <| listed_e_tag := v |>, true) | None => (i, false) end
  else if name_is n "LastModified" then
    match xml_body n with Some v => (i, aws_date_time_init_from_str_cursor v) | None => (i, false) end
  else if name_is n "Size" then
    match xml_body n with
    | Some v => match aws_byte_cursor_utf8_parse_u64 v with Some z => (i <| listed_size := z |>, true) | None => (i, false) end
    | None => (i, false)
    end
  else if name_is n "PartNumber" then
    match xml_body n with
    | Some v =>
        match aws_byte_cursor_utf8_parse_u64 v with
        | Some z => if U32_MAX <? z then (i, false) else (i <| listed_part_number := z |>, true)
        | None => (i, false)
        end
    | None => (i, false)
    end
  else if name_is n "ChecksumCRC32" then with_checksum i AWS_SCA_CRC32 (xml_body n)
  else if name_is n "ChecksumCRC32C" then with_checksum i AWS_SCA_CRC32C (xml_body n)
  else if name_is n "ChecksumSHA1" then with_checksum i AWS_SCA_SHA1 (xml_body n)
  else if name_is n "ChecksumSHA256" then with_checksum i AWS_SCA_SHA256 (xml_body n)
  else (i, true).

(** The part that an element of the page describes. *)
Definition part_of_node (n : xml_node) : option listed_part :=
  let '(i, ok) := xml_traverse s_xml_on_Part_child (xml_children n) no_part in
  if ok then Some match aws_byte_buf_append_unescaped_xml (listed_e_tag i) with
                  | Some e_tag => i <| listed_e_tag := e_tag |>
                  | None => i
                  end
  else None.

(** Each part goes to the callback [on_part] of the operation. *)
Definition s_xml_on_ListPartsResult_child {A} (on_part : listed_part → A → A * bool) (n : xml_node) (a : A) : A * bool :=
  if name_is n "Part" then
    match part_of_node n with Some i => on_part i a | None => (a, false) end
  else (a, true).


Definition list_parts_request_path (key upload_id : list byte) (token : option (list byte)) : list byte :=
  key ++ lit "?uploadId=" ++ upload_id ++
  match token with
  | Some t => lit "&part-number-marker=" ++ aws_byte_buf_append_encoding_uri_param t
  | None => []
  end.

Definition aws_s3_list_parts_operation_new {A} (key upload_id : list byte) (on_part : listed_part → A → A * bool)
    : paginated_operation A :=
  mkOperation (lit "ListPartsResult") (lit "NextPartNumberMarker")
    (λ token, Success (list_parts_request_path key upload_id token)) (s_xml_on_ListPartsResult_child on_part).

(** * ListObjectsV2 *)

(** [struct aws_s3_object_info]; a common prefix has no key. *)
Record object_info := mkObject {
  object_prefix : list byte;
  object_key : list byte;
  object_listed_size : Z;
  object_e_tag : list byte;
}.
#[export] Instance object_info_eta : Eta object_info := λ o,
  mkObject (object_prefix o) (object_key o) (object_listed_size o) (object_e_tag o).

Definition s_on_contents_node (n : xml_node) (o : object_info) : object_info * bool :=
  if name_is n "ETag" then
    match xml_body n with Some v => (o <| object_e_tag := v |>, true) | None => (o, false) end
  else if name_is n "Key" then
    match xml_body n with Some v => (o <| object_key := v |>, true) | None => (o, false) end
  else if name_is n "LastModified" then
    match xml_body n with Some v => (o, aws_date_time_init_from_str_cursor v) | None => (o, false) end
  else if name_is n "Size" then
    match xml_body n with
    | Some v => match aws_byte_cursor_utf8_parse_u64 v with
                | Some z => (o <| object_listed_size := z |>, true)
                | None => (o, false)
                end
    | None => (o, false)
    end
  else (o, true).

Definition s_on_common_prefixes_node (n : xml_node) (o : object_info) : object_info * bool :=
  if name_is n "Prefix" then
    match xml_body n with Some v => (o <| object_prefix := v |>, true) | None => (o, false) end
  else (o, true).

Definition s_on_list_bucket_result_node_encountered {A} (prefix : option (list byte))
    (on_object : object_info → A → A * bool) (n : xml_node) (a : A) : A * bool :=
  if name_is n "Contents" then
    let '(o, ok) := xml_traverse s_on_contents_node (xml_children n) (mkObject [] [] 0 []) in
    if ok then
      let o := match prefix with
               | Some p => if (length (object_prefix o) =? 0)%nat then o <| object_prefix := p |> else o
               | None => o
               end in
      let o := match aws_byte_buf_append_unescaped_xml (object_e_tag o) with
               | Some e_tag => o <| object_e_tag := e_tag |>
               | None => o
               end in
      on_object o a
    else (a, false)
  else if name_is n "CommonPrefixes" then
    let '(o, ok) := xml_traverse s_on_common_prefixes_node (xml_children n) (mkObject [] [] 0 []) in
    if ok then on_object o a else (a, false)
  else (a, true).

Definition list_objects_request_path (prefix delimiter token : option (list byte)) : list byte :=
  lit "/?list-type=2" ++
  match prefix with Some p => lit "&prefix=" ++ aws_byte_buf_append_encoding_uri_param p | None => [] end ++
  match delimiter with Some d => lit "&delimiter=" ++ d | None => [] end ++
  match token with Some t => lit "&continuation-token=" ++ aws_byte_buf_append_encoding_uri_param t | None => [] end.

(** An empty prefix or delimiter is none. *)
Definition list_objects_operation {A} (prefix delimiter : list byte) (on_object : object_info → A → A * bool)
    : paginated_operation A :=
  let prefix := match prefix with [] => None | _ => Some prefix end in
  let delimiter := match delimiter with [] => None | _ => Some delimiter end in
  mkOperation (lit "ListBucketResult") (lit "NextContinuationToken")
    (λ token, Success (list_objects_request_path prefix delimiter token))
    (s_on_list_bucket_result_node_encountered prefix on_object).
End listing.

(** What the callbacks of an operation keep true, a response keeps true. *)
Lemma xml_traverse_inv {A} (I : A → Prop) (on_node : xml_node → A → A * bool) nodes a :
  (∀ n a, n ∈ nodes → I a → I (fst (on_node n a))) → I a → I (fst (xml_traverse on_node nodes a)).
Proof.
  revert a. induction nodes as [|n nodes IH]; intros a Hn Ha; simpl; [done|].
  pose proof (Hn n a ltac:(left) Ha) as Hna. destruct (on_node n a) as [a' [|]]; simpl in *; [|done].
  apply IH; [|done]. intros n' a'' Hin. apply Hn. by right.
Qed.

(** The elements of a page. *)
Definition page_elements `{X : !AwsXml} (body : list byte) : list xml_node :=
  match aws_xml_parse body with Some (root, _) => xml_children root | None => [] end.

Lemma on_response_inv `{B : !AwsByteCursor} `{X : !AwsXml} {A} (I : A → Prop) (op : paginated_operation A) body seen :
  (∀ n a, n ∈ page_elements body → I a → I (fst (on_result_node_encountered op n a))) → I seen →
  I (fst (aws_s3_paginated_operation_on_response op body seen)).
Proof.
  intros Hop Hs. unfold aws_s3_paginated_operation_on_response, xml_parse_with, page_elements in *.
  destruct (aws_xml_parse body) as [[root ok]|]; [|done].
  assert (I (wrapper_seen (fst (s_on_root_node_encountered op root (mkWrapper None false seen))))) as Hroot.
  { unfold s_on_root_node_encountered. case_match; [|done].
    apply (xml_traverse_inv (λ w, I (wrapper_seen w))); [|done]. intros n w Hin Hw. unfold s_on_result_node_encountered.
    case_match; [by case_match|]. case_match; [by case_match|].
    specialize (Hop n _ Hin Hw). by destruct (on_result_node_encountered op n (wrapper_seen w)). }
  destruct (s_on_root_node_encountered _ _ _) as [w' ok']. by destruct (ok' && ok).
Qed.

(** * All pages are listed *)

Section pages.
Context `{B : !AwsByteCursor} `{X : !AwsXml} {A : Type}.
Variable op : paginated_operation A.

Definition is_token_node (n : xml_node) : bool := aws_byte_cursor_eq_ignore_case (xml_name n) (continuation_xml_node_name op).
Definition is_truncated_node (n : xml_node) : bool :=
  negb (is_token_node n) && aws_byte_cursor_eq_ignore_case (xml_name n) (lit "IsTruncated").
Definition is_item_node (n : xml_node) : bool := negb (is_token_node n) && negb (is_truncated_node n).

(** What a page with these elements says: its items in order, the token of the next page, and
    whether there is one. *)
Definition page_items (children : list xml_node) : list xml_node := filter (λ n, is_item_node n = true) children.
Definition page_token (children : list xml_node) : option (list byte) :=
  list.last (omap (λ n, if is_token_node n then xml_body n else None) children).
Definition page_truncated (children : list xml_node) : bool :=
  existsb (λ n, is_truncated_node n &&
    match xml_body n with Some t => aws_byte_cursor_eq_ignore_case t (lit "true") | None => false end) children.

(** A page the parser reads to its end: the elements are well-formed and the operation takes
    its items. *)
Definition page_readable (children : list xml_node) : Prop :=
  (∀ n, n ∈ children → is_item_node n = false → is_Some (xml_body n)) ∧
  (∀ n a, n ∈ children → is_item_node n = true → snd (on_result_node_encountered op n a) = true).

Definition take_items (children : list xml_node) (a : A) : A :=
  foldl (λ a n, fst (on_result_node_encountered op n a)) a (page_items children).

Lemma traverse_page children w : page_readable children →
  xml_traverse (s_on_result_node_encountered op) children w =
    (mkWrapper (match page_token children with Some t => Some t | None => next_continuation_token w end)
       (page_truncated children || wrapper_has_more_results w) (take_items children (wrapper_seen w)), true).
Proof.
  revert w. induction children as [|n children IH]; intros w [Hbody Hitem]; simpl; [by destruct w|].
  assert (page_readable children) as Hread.
  { split; intros; [eapply Hbody|eapply Hitem]; eauto; set_solver. }
  unfold s_on_result_node_encountered at 1.
  fold (is_token_node n). destruct (is_token_node n) eqn:Htok.
  { destruct (Hbody n ltac:(set_solver)) as [t Ht]; [by unfold is_item_node; rewrite Htok|]. rewrite Ht.
    rewrite IH by done. unfold page_token, page_truncated, take_items, page_items, is_truncated_node, is_item_node. simpl.
    rewrite filter_cons. rewrite Htok, Ht. simpl. f_equal. f_equal.
    rewrite last_cons. by destruct (list.last _). }
  assert (aws_byte_cursor_eq_ignore_case (xml_name n) (lit "IsTruncated") = is_truncated_node n) as ->.
  { unfold is_truncated_node. by rewrite Htok. }
  destruct (is_truncated_node n) eqn:Htr.
  - destruct (Hbody n ltac:(set_solver)) as [t Ht]; [unfold is_item_node; by rewrite Htok, Htr|]. rewrite Ht.
    rewrite IH by done. unfold page_token, page_truncated, take_items, page_items. simpl. rewrite Htok, ?Htr, ?Ht. simpl.
    rewrite filter_cons, decide_False by (unfold is_item_node; rewrite Htok, Htr; done). f_equal. f_equal.
    by destruct (aws_byte_cursor_eq_ignore_case t (lit "true")), (existsb _ children).
  - assert (is_item_node n = true) as Hit by (unfold is_item_node; by rewrite Htok, Htr).
    pose proof (Hitem n (wrapper_seen w) ltac:(set_solver) Hit) as Hok.
    destruct (on_result_node_encountered op n (wrapper_seen w)) as [a ok] eqn:Hn. simpl in Hok. subst ok.
    rewrite IH by done. unfold page_token, page_truncated, take_items, page_items. simpl. rewrite Htok, ?Htr.
    rewrite filter_cons, decide_True by done. simpl. by rewrite Hn.
Qed.

(** A server, from a request to the status of its response and the pieces its body arrives in. *)
Variable server : page_request → Z * list (list byte).
Variables bucket_name endpoint : list byte.

Definition page_at (token : option (list byte)) (children : list xml_node) : Prop :=
  ∃ path pieces name body, next_http_message op token = Success path ∧
    server (mkPageRequest (bucket_name ++ lit "." ++ endpoint) path) = (200, pieces) ∧
    aws_xml_parse (concat pieces) = Some (XmlNode name body children, true) ∧
    aws_byte_cursor_eq_ignore_case name (result_xml_node_name op) = true ∧ page_readable children.

(** The pages of a listing, from the request with [token] on. *)
Inductive serves : option (list byte) → list (list xml_node) → Prop :=
| serves_last token children :
    page_at token children → page_truncated children = false → serves token [children]
| serves_more token children pages :
    page_at token children → page_truncated children = true → serves (page_token children) pages →
    serves token (children :: pages).

(** Nothing else fails. *)
Definition no_failure : continue_env := mkContinueEnv None None None.

(** A caller who continues until there are no more results; [fuel] bounds the pages. *)
Fixpoint list_all (fuel : nat) (p : paginator A) : option (paginator A) :=
  match fuel with
  | O => None
  | S fuel =>
      match aws_s3_paginator_continue op p no_failure with
      | (_, Failure _) => None
      | (p, Success request) =>
          let '(status, pieces) := server request in
          let p := s_on_request_finished op (foldl s_receive_body_callback p pieces) status None in
          if has_more_results p then list_all fuel p else Some p
      end
  end.

Lemma on_response_page doc name body children a : aws_xml_parse doc = Some (XmlNode name body children, true) →
  aws_byte_cursor_eq_ignore_case name (result_xml_node_name op) = true → page_readable children →
  aws_s3_paginated_operation_on_response op doc a =
    (take_items children a, Success (page_token children, page_truncated children)).
Proof.
  intros Hparse Hname Hread. unfold aws_s3_paginated_operation_on_response, xml_parse_with. rewrite Hparse.
  unfold s_on_root_node_encountered. simpl. rewrite Hname, traverse_page by done. simpl.
  rewrite orb_false_r. by destruct (page_token children).
Qed.

(** The body of a page is what arrived, in order. *)
Lemma receive_pieces (p : paginator A) pieces :
  foldl s_receive_body_callback p pieces = p <| result_body ::= λ l, l ++ concat pieces |>.
Proof.
  revert p. induction pieces as [|piece pieces IH]; intros p; simpl; [destruct p; simpl; by rewrite app_nil_r|].
  rewrite IH. unfold s_receive_body_callback. destruct piece as [|b piece]; [done|]. simpl. by rewrite <-(assoc_L (++)).
Qed.

(** A paginator between pages. *)
Record between (p : paginator A) : Prop := {
  bt_bucket : paginator_bucket_name p = bucket_name;
  bt_endpoint : paginator_endpoint p = endpoint;
  bt_state : op_state p = OS_NOT_STARTED;
  bt_refs : ref_count p = 1;
  bt_requests : meta_request_refs p = (if current_request p then 1 else 0);
  bt_freed : paginator_freed p = false;
}.

(** One page: the next state of the paginator. *)
Lemma one_page p children : between p → page_at (continuation_token p) children →
  ∃ p1 request pieces, aws_s3_paginator_continue op p no_failure = (p1, Success request) ∧ server request = (200, pieces) ∧
    s_on_request_finished op (foldl s_receive_body_callback p1 pieces) 200 None =
      mkPaginator bucket_name endpoint (page_token children) (if page_truncated children then OS_NOT_STARTED else OS_COMPLETED)
        (page_truncated children) (concat pieces) true 1 1 false (take_items children (seen p)) (pages_finished p ++ [None]).
Proof.
  intros [Hb He Hst Hrc Hrq Hfr] (path & pieces & name & body & Hpath & Hs & Hparse & Hname & Hread).
  exists (mkPaginator bucket_name endpoint (continuation_token p) OS_INITIATED (has_more_results p) [] true 2 1 false (seen p)
            (pages_finished p)), (mkPageRequest (bucket_name ++ lit "." ++ endpoint) path), pieces.
  split_and!; [|done|].
  - unfold aws_s3_paginator_continue, s_set_paginator_state_if_legal. rewrite decide_True by done. simpl.
    rewrite Hpath, Hb, He, Hfr. destruct (current_request p); simpl; by rewrite Hrc, Hrq.
  - rewrite receive_pieces. unfold s_on_request_finished. cbn [Z.eqb Pos.eqb]. destruct (continuation_token p) as [t|] eqn:Ht; simpl;
      rewrite (on_response_page _ name body children) by done; simpl;
      destruct (page_truncated children); unfold set_state_if_legal, s_set_paginator_state_if_legal; done.
Qed.

Lemma serves_page token pages : serves token pages → ∃ children rest, pages = children :: rest ∧ page_at token children.
Proof. destruct 1; eauto. Qed.

(** All pages from the next one on. *)
Lemma list_pages pages fuel p : between p → serves (continuation_token p) pages → (length pages ≤ fuel)%nat →
  ∃ body, list_all fuel p =
    Some (mkPaginator bucket_name endpoint (page_token (default [] (list.last pages))) OS_COMPLETED false body true 1 1 false
            (foldl (λ a children, take_items children a) (seen p) pages)
            (pages_finished p ++ replicate (length pages) None)).
Proof.
  revert fuel p. induction pages as [|children pages IH]; intros fuel p Hp Hs Hfuel; [inversion Hs|].
  destruct fuel as [|fuel]; simpl in Hfuel; [lia|].
  destruct (serves_page _ _ Hs) as (children' & rest & [= <- <-] & Hpage).
  destruct (one_page p children Hp Hpage) as (p1 & request & pieces & Hc & Hsrv & Hf).
  cbn [list_all]. rewrite Hc, Hsrv, Hf. cbn [has_more_results].
  inversion Hs as [? ? _ Htr|? ? ? _ Htr Hrest]; subst; rewrite Htr; [by eexists|].
  edestruct (IH fuel) as [body Hl]; [| |lia|exists body; rewrite Hl]; [done|done|]. simpl.
  destruct (serves_page _ _ Hrest) as (children' & rest & -> & _). rewrite <-(assoc_L (++)). done.
Qed.

(** C33: Listing with a paginator until it has no more results, against any server that cuts a
    listing into pages whose bodies arrive in any pieces, terminates after one request per page and
    shows the caller's callback every element of every page exactly once, in order; the paginator
    is then completed, refuses to continue, and has one reference left, whose release frees it with
    the last meta request. *)
Theorem list_all_pages pages fuel a :
  serves None pages → (length pages ≤ fuel)%nat →
  ∃ p, list_all fuel (aws_s3_initiate_paginator bucket_name endpoint a) = Some p ∧
    op_state p = OS_COMPLETED ∧ seen p = foldl (λ a children, take_items children a) a pages ∧ ref_count p = 1 ∧
    pages_finished p = replicate (length pages) None ∧
    aws_s3_paginator_continue op p no_failure = (p, Failure AWS_ERROR_INVALID_STATE) ∧
    paginator_freed (aws_s3_paginator_release p) = true ∧ meta_request_refs (aws_s3_paginator_release p) = 0.
Proof.
  intros Hserves Hfuel. destruct (list_pages pages fuel (aws_s3_initiate_paginator bucket_name endpoint a)) as [body Hl];
    [done|done|done|]. eexists. split; [exact Hl|]. done.
Qed.
End pages.

(** * What goes wrong *)

Section flaws.
Context `{B : !AwsByteCursor} `{X : !AwsXml} {A : Type}.

(** A page that cannot be parsed ends the listing as if it were complete, and the caller is
    told of no error. *)
Lemma unparsable_page_completes (op : paginated_operation A) (p : paginator A) :
  op_state p = OS_INITIATED → ref_count p = 2 → aws_xml_parse (result_body p) = None →
  let p' := s_on_request_finished op p 200 None in
  op_state p' = OS_COMPLETED ∧ has_more_results p' = false ∧ pages_finished p' = pages_finished p ++ [None].
Proof.
  intros Hst Hrc Hdoc. unfold s_on_request_finished, aws_s3_paginated_operation_on_response, xml_parse_with, aws_s3_paginator_release.
  simpl. destruct (continuation_token p); simpl; rewrite Hdoc; unfold set_state_if_legal, s_set_paginator_state_if_legal; simpl;
    rewrite decide_True by done; simpl; rewrite Hrc; done.
Qed.

(** When the client refuses the request for a page, the reference taken for it is not given
    back. *)
Lemma refused_page_keeps_reference (op : paginated_operation A) (p : paginator A) path e :
  op_state p = OS_NOT_STARTED → next_http_message op (continuation_token p) = Success path →
  let p' := fst (aws_s3_paginator_continue op p (mkContinueEnv None None (Some e))) in
  ref_count p' = ref_count p + 1 ∧ op_state p' = OS_ERROR.
Proof.
  intros Hst Hpath. unfold aws_s3_paginator_continue, s_set_paginator_state_if_legal. rewrite decide_True by done.
  simpl. rewrite Hpath. destruct (current_request p); done.
Qed.

(** When something fails before that, the paginator stays in the state of a request that is under
    way: it can neither go on nor be asked again. *)
Lemma failed_page_stays_initiated (op : paginated_operation A) (p : paginator A) env e env' :
  op_state p = OS_NOT_STARTED → ce_host_buf env = Some e →
  let p' := fst (aws_s3_paginator_continue op p env) in
  snd (aws_s3_paginator_continue op p env) = Failure e ∧ op_state p' = OS_INITIATED ∧
  aws_s3_paginator_continue op p' env' = (p', Failure AWS_ERROR_INVALID_STATE).
Proof.
  intros Hst He. unfold aws_s3_paginator_continue, s_set_paginator_state_if_legal. rewrite decide_True by done. by rewrite He.
Qed.
End flaws.

(** * A listing of two pages *)

#[local] Existing Instances byte_cursor_ref byte_cursor_ref_laws.

Module ListingDemo.
Definition text (name body : list byte) : xml_node := XmlNode name (Some body) [].
Definition contents (key : list byte) : xml_node := XmlNode (lit "Contents") None [text (lit "Key") key].
Definition page1 : list xml_node :=
  [text (lit "IsTruncated") (lit "true"); contents (lit "a"); contents (lit "b"); text (lit "NextContinuationToken") (lit "t")].
Definition page2 : list xml_node := [text (lit "IsTruncated") (lit "false"); contents (lit "c")].

(** Two documents, named by a byte. *)
#[local] Instance xml_demo : AwsXml := {|
  aws_xml_parse doc :=
    if decide (doc = lit "1") then Some (XmlNode (lit "ListBucketResult") None page1, true)
    else if decide (doc = lit "2") then Some (XmlNode (lit "ListBucketResult") None page2, true) else None;
  aws_byte_buf_append_unescaped_xml l := Some l;
  aws_date_time_init_from_str_cursor l := true;
  aws_byte_buf_append_encoding_uri_param l := l;
|}.

Definition keys : paginated_operation (list (list byte)) :=
  list_objects_operation [] [] (λ o l, (l ++ [object_key o], true)).

(** The first page arrives in two pieces. *)
Definition server (request : page_request) : Z * list (list byte) :=
  if decide (page_path request = lit "/?list-type=2") then (200, [lit "1"; []]) else (200, [lit "2"]).
Lemma keys_readable page : page = page1 ∨ page = page2 → page_readable keys page.
Proof.
  intros Hpage. split.
  - intros n Hn. destruct Hpage as [-> | ->]; unfold page1, page2 in Hn;
      repeat (apply elem_of_cons in Hn as [-> | Hn]); try (by apply elem_of_nil in Hn); vm_compute; intros; done || by eexists.
  - intros n a Hn. destruct Hpage as [-> | ->]; unfold page1, page2 in Hn;
      repeat (apply elem_of_cons in Hn as [-> | Hn]); try (by apply elem_of_nil in Hn); intros Hit; vm_compute in Hit; done.
Qed.
End ListingDemo.

Lemma list_all_pages_witness :
  ∃ p, list_all (X := ListingDemo.xml_demo) ListingDemo.keys ListingDemo.server 2
         (aws_s3_initiate_paginator (lit "bucket") (lit "endpoint") []) = Some p ∧
    seen p = [lit "a"; lit "b"; lit "c"].
Proof.
  destruct (list_all_pages (X := ListingDemo.xml_demo) ListingDemo.keys ListingDemo.server (lit "bucket") (lit "endpoint")
    [ListingDemo.page1; ListingDemo.page2] 2 []) as (p & Hl & _ & Hseen & _).
  - apply serves_more; [|vm_compute; reflexivity|apply serves_last; [|vm_compute; reflexivity]].
    + eexists _, _, (lit "ListBucketResult"), None. split_and!; [reflexivity|vm_compute; reflexivity|vm_compute; reflexivity|done|].
      apply ListingDemo.keys_readable. by left.
    + eexists _, _, (lit "ListBucketResult"), None. split_and!; [reflexivity|vm_compute; reflexivity|vm_compute; reflexivity|done|].
      apply ListingDemo.keys_readable. by right.
  - done.
  - exists p. split; [done|]. rewrite Hseen. vm_compute. reflexivity.
Defined.
