(* ===== verification/BodyStream.v ===== *)
(** The body of an upload (source/s3_meta_request.c, source/s3_parallel_input_stream.c):
    reading the part at an offset from a stream of the caller or from a file, and the
    writes of a caller who pushes the data ([aws_s3_meta_request_poll_write]).

    Streams are library code or the caller's: [AwsStreams] has the operations and
    [AwsStreamsLaws] what the documentation of aws_input_stream promises. *)

From Stdlib Require Import Init.Byte.
From S2P Require Import Prelude AwsCommon ByteCursor.

(** * Streams *)

(** [stream_content] is what the stream will still deliver; for a file it is the file.
    Reading returns the stream after the call, also when it fails. *)
Class AwsStreams := {
  input_stream : Type;
  stream_content : input_stream → list byte;
  aws_input_stream_read : input_stream → Z → input_stream * result aws_error (list byte);
  aws_input_stream_get_status : input_stream → result aws_error bool;
  aws_async_input_stream_read_to_fill : input_stream → Z → input_stream * result aws_error (list byte * bool);
  aws_file_path_read_from_offset : input_stream → Z → Z → result aws_error (list byte);
  aws_file_path_read_from_offset_direct_io : input_stream → Z → Z → result aws_error (list byte);
}.

(** A read delivers the next bytes, at most as many as asked for; at the end of the stream
    nothing is left.  [read_to_fill] fills the buffer or reaches the end.  Reading a file
    yields the bytes at the offset, up to its end. *)
Class AwsStreamsLaws (St : AwsStreams) : Prop := {
  stream_read_spec s n s' data : aws_input_stream_read s n = (s', Success data) →
    stream_content s = data ++ stream_content s' ∧ Z.of_nat (length data) ≤ n;
  stream_status_spec s : aws_input_stream_get_status s = Success true → stream_content s = [];
  stream_fill_spec s n s' data eof : aws_async_input_stream_read_to_fill s n = (s', Success (data, eof)) →
    stream_content s = data ++ stream_content s' ∧ Z.of_nat (length data) ≤ n ∧
    (Z.of_nat (length data) < n → eof = true) ∧ (eof = true → stream_content s' = []);
  file_read_spec s off n data : aws_file_path_read_from_offset s off n = Success data →
    data = take (Z.to_nat n) (drop (Z.to_nat off) (stream_content s));
  file_read_direct_spec s off n data : aws_file_path_read_from_offset_direct_io s off n = Success data →
    data = take (Z.to_nat n) (drop (Z.to_nat off) (stream_content s));
}.

(** * Writes of the caller *)

(** [synced_data.async_write]; a ticket, the future of a deferred reservation, and the waker
    of a pending write are there or not. *)
Record async_write := mkAsyncWrite {
  ready_to_send : bool;
  buffered_data : list byte;
  buffered_data_ticket : bool;
  buffered_data_ticket_future : bool;
  write_waker : bool;
  write_eof : bool;
}.
#[export] Instance async_write_eta : Eta async_write := λ w,
  mkAsyncWrite (ready_to_send w) (buffered_data w) (buffered_data_ticket w) (buffered_data_ticket_future w)
    (write_waker w) (write_eof w).

Definition no_writes : async_write := mkAsyncWrite false [] false false false false.

(** How the buffer pool answers the reservation that [poll_write] makes. *)
Inductive reservation := Granted | Refused | Deferred.

(** [struct aws_s3_meta_request_poll_write_result] *)
Inductive poll_write_result :=
| WritePending
| WriteError (error_code : aws_error)
| WriteProcessed (bytes_processed : Z).

(** The reservation of a buffer, if there is none: [None] when the pool refused it. *)
Definition poll_write_buffer (w : async_write) (r : reservation) : option (bool * async_write) :=
  if buffered_data_ticket w then Some (false, w)
  else match r with
       | Refused => None
       | Granted => Some (false, w <| buffered_data_ticket := true |> <| buffered_data := [] |>)
       | Deferred => Some (true, w <| buffered_data_ticket_future := true |> <| write_waker := true |>)
       end.

(** Copying into the buffer, whose capacity is [part_size]: what was copied. *)
Definition poll_write_copy (part_size : Z) (w : async_write) (data : list byte) (eof : bool) : list byte * async_write :=
  let room := part_size - Z.of_nat (length (buffered_data w)) in
  let processed := take (Z.to_nat room) data in
  let w := w <| buffered_data ::= λ l, l ++ processed |> in
  let w := if (length (drop (Z.to_nat room) data) =? 0)%nat && eof then w <| write_eof := true |> else w in
  let w := if write_eof w || (Z.of_nat (length (buffered_data w)) =? part_size)
           then w <| ready_to_send := true |> else w in
  (processed, w).

(** The result, and the error the meta request fails with.  [part_size] is the capacity of
    the buffer. *)
Definition aws_s3_meta_request_poll_write (finished using_async_writes : bool) (part_size : Z) (w : async_write)
    (data : list byte) (eof : bool) (r : reservation) : poll_write_result * async_write * option aws_error :=
  let illegal := (WriteError AWS_ERROR_INVALID_STATE, w, Some AWS_ERROR_INVALID_STATE) in
  if finished then (WriteError AWS_ERROR_S3_REQUEST_HAS_COMPLETED, w, None)
  else if negb using_async_writes then illegal
  else if write_waker w then illegal
  else if write_eof w then illegal
  else if Z.of_nat (length (buffered_data w)) =? part_size then (WritePending, w <| write_waker := true |>, None)
  else
    match poll_write_buffer w r with
    | None => illegal
    | Some (true, w) => (WritePending, w, None)
    | Some (false, w) =>
        let '(processed, w) := poll_write_copy part_size w data eof in
        (WriteProcessed (Z.of_nat (length processed)), w, None)
    end.

(** [s_s3_meta_request_on_async_write_buffer_reserved]: the deferred reservation is answered;
    the error the meta request fails with, if any. *)
Definition s_s3_meta_request_on_async_write_buffer_reserved (finished : bool) (w : async_write) (error : option aws_error)
    : async_write * option aws_error :=
  let w := w <| buffered_data_ticket_future := false |> <| write_waker := false |> in
  match error with
  | None => if finished then (w, None) else (w <| buffered_data_ticket := true |> <| buffered_data := [] |>, None)
  | Some e => (w, Some e)
  end.

(** [s_s3_meta_request_read_from_pending_async_writes]: the buffer has become the body of a
    part; whether it was the last. *)
Definition s_s3_meta_request_read_from_pending_async_writes (w : async_write) : bool * async_write :=
  (write_eof w, w <| ready_to_send := false |> <| buffered_data := [] |> <| write_waker := false |>).

(** * Reading a part *)

(** Where the data comes from. *)
Inductive body_source := BodyAsyncStream | BodyParallelStream | BodyAsyncWrites | BodyStream.

#[export] Instance body_source_eq_dec : EqDecision body_source.
Proof. solve_decision. Defined.

Section reading.
Context `{St : !AwsStreams}.

(** The reader's state: the stream, the offset of the last read
    ([io_threaded_data.next_read_offset]), and whether direct I/O is still tried. *)
Record reader := mkReader {
  source : input_stream;
  next_read_offset : Z;
  direct_io_read : bool;
}.
#[export] Instance reader_eta : Eta reader := λ r, mkReader (source r) (next_read_offset r) (direct_io_read r).

(** The loop that calls [read] until the buffer is full or the stream ends; it has no bound,
    [fuel] is the number of reads it is given. *)
Fixpoint read_to_fill (fuel : nat) (s : input_stream) (capacity : Z) (buffer : list byte) (is_end_of_stream : bool)
    : option (input_stream * result aws_error (list byte * bool)) :=
  if (Z.of_nat (length buffer) <? capacity) && negb is_end_of_stream then
    match fuel with
    | O => None
    | S fuel =>
        match aws_input_stream_read s (capacity - Z.of_nat (length buffer)) with
        | (s, Failure e) => Some (s, Failure e)
        | (s, Success data) =>
            match aws_input_stream_get_status s with
            | Failure e => Some (s, Failure e)
            | Success eof => read_to_fill fuel s capacity (buffer ++ data) eof
            end
        end
    end
  else Some (s, Success (buffer, is_end_of_stream)).

(** The file behind a parallel stream: direct I/O first, as long as it works. *)
Definition s_s3_parallel_from_file_read_task (r : reader) (offset len : Z) : reader * result aws_error (list byte * bool) :=
  let finish (r : reader) (res : result aws_error (list byte)) :=
    (r, data ← res; Success (data, Z.of_nat (length data) <? len)) in
  if direct_io_read r then
    match aws_file_path_read_from_offset_direct_io (source r) offset len with
    | Success data => finish r (Success data)
    | Failure _ => finish (r <| direct_io_read := false |>) (aws_file_path_read_from_offset (source r) offset len)
    end
  else finish r (aws_file_path_read_from_offset (source r) offset len).

Definition s_parallel_from_file_read (r : reader) (offset max_length available_space : Z)
    : reader * result aws_error (list byte * bool) :=
  let len := Z.min available_space max_length in
  if len =? 0 then (r, Success ([], false)) else s_s3_parallel_from_file_read_task r offset len.

(** Into an empty buffer of [capacity] bytes. *)
Definition aws_parallel_input_stream_read (r : reader) (offset max_length capacity : Z)
    : reader * result aws_error (list byte * bool) :=
  if capacity =? 0 then (r, Failure AWS_ERROR_SHORT_BUFFER)
  else s_parallel_from_file_read r offset max_length capacity.

(** [aws_s3_meta_request_read_body] into [buffer], which is empty unless the data was written
    by the caller; the data, and whether the source has ended. *)
Definition aws_s3_meta_request_read_body (kind : body_source) (fuel : nat) (r : reader) (w : async_write)
    (offset : Z) (buffer : list byte) (capacity : Z)
    : option (reader * async_write * result aws_error (list byte * bool)) :=
  match kind with
  | BodyAsyncStream =>
      let '(s, res) := aws_async_input_stream_read_to_fill (source r) capacity in
      Some (r <| source := s |>, w, res)
  | BodyParallelStream =>
      let '(r, res) := aws_parallel_input_stream_read r offset capacity capacity in
      Some (r, w, res)
  | BodyAsyncWrites =>
      if offset <? next_read_offset r then Some (r, w, Failure AWS_ERROR_INVALID_STATE)
      else
        let '(eof, w) := s_s3_meta_request_read_from_pending_async_writes w in
        Some (r <| next_read_offset := offset +[64] Z.of_nat (length buffer) |>, w, Success (buffer, eof))
  | BodyStream =>
      if offset <? next_read_offset r then Some (r, w, Failure AWS_ERROR_INVALID_STATE)
      else
        match read_to_fill fuel (source r) capacity buffer false with
        | None => None
        | Some (s, Failure e) => Some (r <| source := s |>, w, Failure e)
        | Some (s, Success res) => Some (r <| source := s |> <| next_read_offset := offset |>, w, Success res)
        end
  end.
End reading.

(** * What a read delivers *)

Section facts.
Context `{St : !AwsStreams} `{!AwsStreamsLaws St}.

Lemma read_to_fill_spec fuel s capacity buffer eof s' data eof' :
  Z.of_nat (length buffer) ≤ capacity → (eof = true → stream_content s = []) →
  read_to_fill fuel s capacity buffer eof = Some (s', Success (data, eof')) →
  buffer ++ stream_content s = data ++ stream_content s' ∧ Z.of_nat (length data) ≤ capacity ∧
  (Z.of_nat (length data) < capacity → eof' = true) ∧ (eof' = true → stream_content s' = []).
Proof using Type*.
  revert s buffer eof. induction fuel as [|fuel IH]; intros s buffer eof Hlen Heof; simpl.
  - destruct (Z.ltb_spec (Z.of_nat (length buffer)) capacity), eof; simpl; intros [= <- <- <-] || intros; simplify_eq;
      split_and!; auto; lia.
  - destruct (Z.ltb_spec (Z.of_nat (length buffer)) capacity) as [Hlt|Hge], eof; simpl;
      try (intros [= <- <- <-]; split_and!; auto; lia).
    destruct (aws_input_stream_read s _) as [s1 [d|e]] eqn:Hread; [|done].
    apply stream_read_spec in Hread as [Hc Hd].
    destruct (aws_input_stream_get_status s1) as [eof1|] eqn:Hst; [|done]. intros Hrec.
    apply IH in Hrec as (Happ & Hrest).
    + split; [|done]. rewrite Hc, (assoc_L (++)). done.
    + rewrite length_app. lia.
    + intros ->. by apply stream_status_spec.
Qed.

(** Reading a file in parallel gives the bytes at the offset. *)
Lemma parallel_read_spec r offset n capacity r' data eof : 0 ≤ n →
  aws_parallel_input_stream_read r offset n capacity = (r', Success (data, eof)) →
  data = take (Z.to_nat (Z.min capacity n)) (drop (Z.to_nat offset) (stream_content (source r))) ∧
  stream_content (source r') = stream_content (source r) ∧ next_read_offset r' = next_read_offset r.
Proof using Type*.
  intros Hn. unfold aws_parallel_input_stream_read, s_parallel_from_file_read.
  destruct (Z.eqb_spec capacity 0); [done|].
  destruct (Z.eqb_spec (Z.min capacity n) 0) as [->|Hne]; [by intros [= <- <- <-]|].
  unfold s_s3_parallel_from_file_read_task. destruct (direct_io_read r).
  - destruct (aws_file_path_read_from_offset_direct_io _ _ _) as [d|] eqn:Hd.
    + intros [= <- <- <-]. apply file_read_direct_spec in Hd. by subst.
    + destruct (aws_file_path_read_from_offset _ _ _) as [d|] eqn:Hd'; [|done].
      intros [= <- <- <-]. apply file_read_spec in Hd'. by subst.
  - destruct (aws_file_path_read_from_offset _ _ _) as [d|] eqn:Hd'; [|done].
    intros [= <- <- <-]. apply file_read_spec in Hd'. by subst.
Qed.
End facts.

(** * Writes are cut into parts without loss *)

(** The writes of a caller and the parts made of them: [accepted] are the bytes that writes
    reported as processed, [handed] the buffer that an update made the body of a part that
    is not read yet, and [taken] the bodies of the parts read. *)
Record writing := mkWriting {
  writing_state : async_write;
  accepted : list byte;
  handed : option (list byte);
  taken : list (list byte);
}.

Inductive write_step (part_size : Z) : writing → writing → Prop :=
| step_poll s finished data eof r result w error :
    aws_s3_meta_request_poll_write finished true part_size (writing_state s) data eof r = (result, w, error) →
    write_step part_size s
      (mkWriting w (accepted s ++ match result with WriteProcessed n => take (Z.to_nat n) data | _ => [] end)
         (handed s) (taken s))
| step_reserved s finished error :
    buffered_data_ticket_future (writing_state s) = true →
    write_step part_size s
      (mkWriting (fst (s_s3_meta_request_on_async_write_buffer_reserved finished (writing_state s) error))
         (accepted s) (handed s) (taken s))
| step_hand s :
    ready_to_send (writing_state s) = true → handed s = None →
    write_step part_size s
      (mkWriting (writing_state s <| buffered_data_ticket := false |>) (accepted s)
         (Some (buffered_data (writing_state s))) (taken s))
| step_read s body :
    handed s = Some body →
    write_step part_size s
      (mkWriting (snd (s_s3_meta_request_read_from_pending_async_writes (writing_state s))) (accepted s) None
         (taken s ++ [body])).

Definition write_reachable (part_size : Z) : writing → Prop :=
  rtc (write_step part_size) (mkWriting no_writes [] None []).

Definition full (part_size : Z) (part : list byte) : Prop := Z.of_nat (length part) = part_size.

Definition writing_ok (part_size : Z) (s : writing) : Prop :=
  let w := writing_state s in
  accepted s = concat (taken s) ++ buffered_data w ∧
  Z.of_nat (length (buffered_data w)) ≤ part_size ∧
  (ready_to_send w = true → full part_size (buffered_data w) ∨ write_eof w = true) ∧
  (write_eof w = false → Forall (full part_size) (taken s)) ∧
  (Forall (full part_size) (taken s) ∨
     ready_to_send w = false ∧ buffered_data w = [] ∧
     ∃ parts part, taken s = parts ++ [part] ∧ Forall (full part_size) parts ∧ Z.of_nat (length part) ≤ part_size) ∧
  (write_eof w = true → ready_to_send w = true ∨ buffered_data w = []) ∧
  match handed s with
  | Some body => ready_to_send w = true ∧ body = buffered_data w ∧ buffered_data_ticket w = false ∧
                 buffered_data_ticket_future w = false
  | None => (ready_to_send w = true → buffered_data_ticket w = true) ∧
            (buffered_data_ticket w = false → buffered_data w = []) ∧
            (buffered_data_ticket_future w = true → write_waker w = true ∧ buffered_data_ticket w = false)
  end.

Section writes.
Variable part_size : Z.

Lemma writing_ok_wake s w : writing_ok part_size s →
  w = writing_state s <| write_waker := true |> →
  writing_ok part_size (mkWriting w (accepted s) (handed s) (taken s)).
Proof.
  intros (Hacc & Hlen & Hready & Hfull & Hparts & Heof & Hhand) ->. split_and!; try done. simpl.
  destruct (handed s); [done|]. destruct Hhand as (? & ? & ?). split_and!; try done. simpl. intros. naive_solver.
Qed.

(** A write that is accepted goes behind what is buffered. *)
Lemma writing_ok_accept s w processed :
  writing_ok part_size s → handed s = None → write_eof (writing_state s) = false →
  Z.of_nat (length (buffered_data (writing_state s) ++ processed)) ≤ part_size →
  buffered_data w = buffered_data (writing_state s) ++ processed → buffered_data_ticket w = true →
  buffered_data_ticket_future w = false →
  ready_to_send w = write_eof w || (Z.of_nat (length (buffered_data w)) =? part_size) →
  writing_ok part_size (mkWriting w (accepted s ++ processed) (handed s) (taken s)).
Proof.
  intros (Hacc & Hlen & Hready & Hfull & Hparts & Heof & Hhand) Hh Hneof Hle Hb Ht Hf Hr.
  unfold writing_ok. simpl. rewrite Hh, Hb in *. split_and!; auto.
  - by rewrite Hacc, (assoc_L (++)).
  - rewrite Hr, orb_true_iff, Z.eqb_eq. intros [?|?]; [by right|by left].
  - rewrite Hr. intros ->. by left.
  - congruence.
  - congruence.
Qed.

(** Copying into the buffer, once there is one. *)
Lemma poll_copy_ok s w data eof :
  writing_ok part_size s → handed s = None → write_eof (writing_state s) = false →
  ready_to_send (writing_state s) = false →
  buffered_data w = buffered_data (writing_state s) → buffered_data_ticket w = true →
  buffered_data_ticket_future w = false → write_eof w = false → ready_to_send w = false →
  let '(processed, w') := poll_write_copy part_size w data eof in
  writing_ok part_size
    (mkWriting w' (accepted s ++ take (Z.to_nat (Z.of_nat (length processed))) data) (handed s) (taken s)).
Proof.
  intros Hok Hh Hneof Hnr Hb Ht Hf Hw Hr. unfold poll_write_copy.
  set (room := part_size - Z.of_nat (length (buffered_data w))). set (processed := take (Z.to_nat room) data). cbv zeta.
  assert (take (Z.to_nat (Z.of_nat (length processed))) data = processed) as ->.
  { subst processed. by rewrite Nat2Z.id, length_take, <-take_take, (take_ge data) by done. }
  assert (Z.of_nat (length (buffered_data (writing_state s) ++ processed)) ≤ part_size) as Hle.
  { destruct Hok as (_ & Hlen & _). rewrite length_app. subst processed room. rewrite length_take, Hb. lia. }
  destruct (_ && eof); simpl; [|rewrite Hw; simpl; destruct (Z.eqb_spec (Z.of_nat (length (buffered_data w ++ processed))) part_size)];
    (apply writing_ok_accept; simpl; rewrite ?Hb, ?Hw, ?Hr; try done).
  - by rewrite (proj2 (Z.eqb_eq _ _)) by by rewrite <-Hb.
  - by rewrite (proj2 (Z.eqb_neq _ _)) by by rewrite <-Hb.
Qed.

Lemma poll_ok s finished data eof r result w error :
  aws_s3_meta_request_poll_write finished true part_size (writing_state s) data eof r = (result, w, error) →
  writing_ok part_size s →
  writing_ok part_size (mkWriting w
    (accepted s ++ match result with WriteProcessed n => take (Z.to_nat n) data | _ => [] end) (handed s) (taken s)).
Proof.
  intros Hpoll Hok. revert Hpoll. unfold aws_s3_meta_request_poll_write. cbn [negb].
  destruct finished; [intros [= <- <- <-]; rewrite app_nil_r; by destruct s|].
  destruct (write_waker (writing_state s)) eqn:Hwk; [intros [= <- <- <-]; rewrite app_nil_r; by destruct s|].
  destruct (write_eof (writing_state s)) eqn:Hwe; [intros [= <- <- <-]; rewrite app_nil_r; by destruct s|].
  destruct (Z.eqb_spec (Z.of_nat (length (buffered_data (writing_state s)))) part_size) as [Hps|Hps].
  { intros [= <- <- <-]. rewrite app_nil_r. by apply writing_ok_wake. }
  pose proof Hok as (Hacc & Hlen & Hready & Hfull & Hparts & Heof & Hhand).
  assert (ready_to_send (writing_state s) = false) as Hnr.
  { destruct (ready_to_send (writing_state s)); [|done]. destruct (Hready eq_refl); unfold full in *; congruence. }
  destruct (handed s) as [body|] eqn:Hh; [destruct Hhand; congruence|]. destruct Hhand as (Hh1 & Hh2 & Hh3).
  assert (buffered_data_ticket_future (writing_state s) = false) as Hfut.
  { destruct (buffered_data_ticket_future (writing_state s)); [|done]. destruct Hh3; congruence. }
  unfold poll_write_buffer. destruct (buffered_data_ticket (writing_state s)) eqn:Htk; [|destruct r].
  - pose proof (poll_copy_ok s (writing_state s) data eof) as Hcopy.
    destruct (poll_write_copy _ _ _ _) as [processed w']. intros [= <- <- <-]. rewrite <-Hh. by apply Hcopy.
  - pose proof (poll_copy_ok s (writing_state s <| buffered_data_ticket := true |> <| buffered_data := [] |>) data eof) as Hcopy.
    destruct (poll_write_copy _ _ _ _) as [processed w']. intros [= <- <- <-]. rewrite <-Hh. apply Hcopy; try done.
    simpl. by rewrite Hh2.
  - intros [= <- <- <-]. rewrite app_nil_r, <-Hh. by destruct s.
  - intros [= <- <- <-]. rewrite app_nil_r. unfold writing_ok. simpl. rewrite Hnr in *. split_and!; auto; done.
Qed.

Lemma write_step_ok s s' : write_step part_size s s' → writing_ok part_size s → writing_ok part_size s'.
Proof.
  intros Hstep Hok. destruct Hstep as [s finished data eof r result w error Hpoll|s finished error Hfut|s Hr Hh|s body Hh].
  - by eapply poll_ok.
  - pose proof Hok as (Hacc & Hlen & Hready & Hfull & Hparts & Heof & Hhand).
    destruct (handed s) as [body|] eqn:Hh; [destruct Hhand as (_ & _ & _ & ?); congruence|].
    destruct Hhand as (Hh1 & Hh2 & Hh3). destruct (Hh3 Hfut) as [_ Htk]. specialize (Hh2 Htk).
    assert (ready_to_send (writing_state s) = false) as Hnr.
    { destruct (ready_to_send (writing_state s)); [|done]. specialize (Hh1 eq_refl). congruence. }
    rewrite Hh2 in *. unfold s_s3_meta_request_on_async_write_buffer_reserved, writing_ok.
    destruct error as [e|]; [|destruct finished]; simpl; rewrite Hnr, ?Hh2 in *; split_and!; auto; done.
  - destruct Hok as (Hacc & Hlen & Hready & Hfull & Hparts & Heof & Hhand). rewrite Hh in Hhand.
    destruct Hhand as (Hh1 & Hh2 & Hh3). unfold writing_ok. simpl. split_and!; auto.
    destruct (buffered_data_ticket_future (writing_state s)); [|done]. specialize (Hh1 Hr). destruct Hh3; congruence.
  - destruct Hok as (Hacc & Hlen & Hready & Hfull & Hparts & Heof & Hhand). rewrite Hh in Hhand.
    destruct Hhand as (Hr & -> & Htk & Hfut). destruct Hparts as [Hparts|[? _]]; [|congruence].
    unfold writing_ok. simpl. rewrite Htk, Hfut. split_and!; auto; try done.
    + by rewrite concat_app, Hacc; simpl; rewrite !app_nil_r.
    + simpl in *. lia.
    + intros Hneof. apply list.Forall_app. split; [done|]. apply list.Forall_singleton.
      destruct (Hready Hr); [done|congruence].
    + right. split_and!; [done|done|]. by eexists _, _.
Qed.
End writes.

(** C32: Data that a caller pushes with writes is cut into parts without loss: in any
    interleaving of writes, deferred reservations, updates and reads, the bodies of the
    parts followed by what is still buffered are exactly the bytes the writes accepted;
    every part is full, except perhaps the last one after the end was announced; and an
    update that takes the buffer finds its ticket. *)
Theorem writes_cut_losslessly part_size s :
  0 ≤ part_size → write_reachable part_size s →
  accepted s = concat (taken s) ++ buffered_data (writing_state s) ∧
  (Forall (full part_size) (taken s) ∨
     write_eof (writing_state s) = true ∧ buffered_data (writing_state s) = [] ∧
     ∃ parts part, taken s = parts ++ [part] ∧ Forall (full part_size) parts ∧ Z.of_nat (length part) ≤ part_size) ∧
  (ready_to_send (writing_state s) = true → handed s = None → buffered_data_ticket (writing_state s) = true) ∧
  (∀ body, handed s = Some body → body = buffered_data (writing_state s)).
Proof.
  intros Hps Hreach. assert (writing_ok part_size s) as (Hacc & Hlen & Hready & Hfull & Hparts & Heof & Hhand).
  { unfold write_reachable in Hreach. remember (mkWriting no_writes [] None []) as s0 eqn:H0.
    assert (writing_ok part_size s0) as Hok.
    { subst. unfold writing_ok. simpl. split_and!; done || auto using list.Forall_nil_2. }
    clear H0. induction Hreach; eauto using write_step_ok. }
  split_and!; [done| | |].
  - destruct Hparts as [?|(_ & Hb & Hlast)]; [by left|]. destruct (write_eof (writing_state s)); [by right|auto].
  - intros Hr Hh. rewrite Hh in Hhand. by apply Hhand.
  - intros body Hh. rewrite Hh in Hhand. by destruct Hhand as (_ & -> & _).
Qed.

(** Three bytes in parts of two: two writes, each taken as soon as it is ready to send. *)
Lemma writes_cut_losslessly_witness :
  let s := mkWriting (mkAsyncWrite false [] false false false true) [x01; x02; x03]%byte None [[x01; x02]; [x03]]%byte in
  accepted s = concat (taken s) ++ buffered_data (writing_state s).
Proof.
  intros s. apply (writes_cut_losslessly 2 s); [done|]. unfold write_reachable.
  eapply rtc_l; [eapply (step_poll 2 _ false [x01; x02]%byte false Granted); reflexivity|]. simpl.
  eapply rtc_l; [apply step_hand; reflexivity|]. simpl.
  eapply rtc_l; [apply (step_read 2 _ [x01; x02]%byte); reflexivity|]. simpl.
  eapply rtc_l; [eapply (step_poll 2 _ false [x03]%byte true Granted); reflexivity|]. simpl.
  eapply rtc_l; [apply step_hand; reflexivity|]. simpl.
  eapply rtc_l; [apply (step_read 2 _ [x03]%byte); reflexivity|]. simpl. apply rtc_refl.
Defined.

(** A stream over a list of bytes. *)
#[local] Instance streams_ref : AwsStreams := {|
  input_stream := list byte;
  stream_content s := s;
  aws_input_stream_read s n :=
    if 0 <=? n then (drop (Z.to_nat n) s, Success (take (Z.to_nat n) s)) else (s, Failure AWS_ERROR_INVALID_ARGUMENT);
  aws_input_stream_get_status s := Success (bool_decide (s = []));
  aws_async_input_stream_read_to_fill s n :=
    if 0 <=? n then (drop (Z.to_nat n) s, Success (take (Z.to_nat n) s, bool_decide (drop (Z.to_nat n) s = [])))
    else (s, Failure AWS_ERROR_INVALID_ARGUMENT);
  aws_file_path_read_from_offset s offset n := Success (take (Z.to_nat n) (drop (Z.to_nat offset) s));
  aws_file_path_read_from_offset_direct_io s offset n := Success (take (Z.to_nat n) (drop (Z.to_nat offset) s));
|}.

#[local] Instance streams_ref_laws : AwsStreamsLaws streams_ref.
Proof.
  split; simpl.
  - intros s n s' data. destruct (Z.leb_spec 0 n); [|done]. intros [= <- <-]. rewrite take_drop, length_take. split; [done|lia].
  - intros s [= Hs]. by apply bool_decide_eq_true in Hs.
  - intros s n s' data eof. destruct (Z.leb_spec 0 n); [|done]. intros [= <- <- <-]. rewrite take_drop, length_take.
    split_and!; [done|lia| |by intros ?%bool_decide_eq_true].
    intros Hlt. apply bool_decide_eq_true, nil_length_inv. rewrite length_drop. lia.
  - by intros s off n data [= <-].
  - by intros s off n data [= <-].
Qed.
