(* ===== verification/PriorityQueue.v ===== *)
(** The priority queue of aws/common/priority_queue.h, which the client keeps parts
    in by part number: what the sources rely on, and an instance. *)

From Stdlib Require Import Sorted.
From S2P Require Import Prelude.

(** A min-queue of [A] by [key].  [pq_elems] lists what it holds, in no order that
    anything may depend on. *)
Class AwsPriorityQueue (A : Type) (key : A → Z) := {
  pq : Type;
  pq_elems : pq → list A;
  pq_empty : pq;
  (** [None] when the queue could not grow. *)
  aws_priority_queue_push : pq → A → option pq;
  aws_priority_queue_top : pq → option A;
  aws_priority_queue_pop : pq → option (A * pq);
}.
Arguments pq A key {_}.

Class AwsPriorityQueueLaws (A : Type) (key : A → Z) (Q : AwsPriorityQueue A key) : Prop := {
  pq_elems_empty : pq_elems pq_empty = [];
  pq_push_elems q a q' : aws_priority_queue_push q a = Some q' → pq_elems q' ≡ₚ a :: pq_elems q;
  pq_top_None q : aws_priority_queue_top q = None ↔ pq_elems q = [];
  pq_top_min q a b : aws_priority_queue_top q = Some a → b ∈ pq_elems q → key a ≤ key b;
  pq_pop_top q a : aws_priority_queue_top q = Some a →
    ∃ q', aws_priority_queue_pop q = Some (a, q') ∧ pq_elems q ≡ₚ a :: pq_elems q';
}.

(** A queue kept sorted. *)
Section sorted.
Context {A : Type} (key : A → Z).

Fixpoint insert_sorted (a : A) (l : list A) : list A :=
  match l with
  | [] => [a]
  | b :: l' => if key a <=? key b then a :: l else b :: insert_sorted a l'
  end.

Lemma insert_sorted_perm a l : insert_sorted a l ≡ₚ a :: l.
Proof.
  induction l as [|b l IH]; simpl; [done|]. destruct (key a <=? key b); [done|]. rewrite IH. constructor.
Qed.

Definition key_le (a b : A) : Prop := key a ≤ key b.

Lemma insert_sorted_sorted a l : StronglySorted key_le l → StronglySorted key_le (insert_sorted a l).
Proof.
  unfold key_le. induction 1 as [|b l Hl IH Hb]; simpl; [by repeat constructor|].
  destruct (Z.leb_spec (key a) (key b)).
  - constructor; [by constructor|]. constructor; [done|]. rewrite list.Forall_forall in *. intros c Hc. specialize (Hb c Hc). lia.
  - constructor; [done|]. rewrite insert_sorted_perm. constructor; [lia|done].
Qed.

Definition sorted_queue : Type := { l : list A | StronglySorted key_le l }.

#[local] Instance sorted_pq : AwsPriorityQueue A key := {|
  pq := sorted_queue;
  pq_elems q := proj1_sig q;
  pq_empty := exist _ [] (SSorted_nil _);
  aws_priority_queue_push q a := Some (exist _ (insert_sorted a (proj1_sig q)) (insert_sorted_sorted _ _ (proj2_sig q)));
  aws_priority_queue_top q := head (proj1_sig q);
  aws_priority_queue_pop q :=
    match q with
    | exist _ [] _ => None
    | exist _ (a :: l) H => Some (a, exist _ l (proj1 (StronglySorted_inv H)))
    end;
|}.

#[local] Instance sorted_pq_laws : AwsPriorityQueueLaws A key sorted_pq.
Proof.
  split; [done|..].
  - intros [l Hl] a q' [= <-]. simpl. apply insert_sorted_perm.
  - intros [[|a l] Hl]; simpl; by split.
  - intros [[|b l] Hl] a c; simpl; [done|]. intros [= ->] [->|Hc]%elem_of_cons; [done|].
    apply StronglySorted_inv in Hl as [_ Hl]. rewrite list.Forall_forall in Hl. by apply Hl.
  - intros [[|b l] Hl] a; simpl; [done|]. intros [= ->]. eexists. by split.
Qed.
End sorted.
