(* ===== verification/Tracking.v ===== *)
(** What a download has delivered (source/s3_meta_request.c): the mask with one bit
    per part that is checked before a download reports success, and the contiguous
    prefix with the parts that reached their sink ahead of an earlier one. *)

From S2P Require Import Prelude AwsCommon PriorityQueue.

(** * Data *)

(** [struct aws_s3_delivery_tracking_record]; [range_end] is inclusive. *)
Record delivery_tracking_record := mkTrack {
  track_part_number : Z;
  track_range_start : Z;
  track_range_end : Z;
  track_bytes : Z;
}.

(** * The mask of delivered parts *)

(** The fields of [synced_data] that the mask is made of; [mask] is [NULL] for meta
    requests that do not split a download into parts. *)
Record delivered_mask := mkMask {
  parts_delivered_mask : option (list Z);
  parts_delivered_mask_length : Z;
  parts_delivered_mask_num_parts : Z;
}.
#[export] Instance delivered_mask_eta : Eta delivered_mask := λ m,
  mkMask (parts_delivered_mask m) (parts_delivered_mask_length m) (parts_delivered_mask_num_parts m).

Definition s_byte_with_lowest_bits_set (count : Z) : Z := wrap 8 (Z.shiftl 1 count -[32] 1).
Definition s_byte_index_holding_part (part_number : Z) : Z := (part_number -[32] 1) / 8.
Definition s_bit_mask_for_part (part_number : Z) : Z := wrap 8 (Z.shiftl 1 ((part_number -[32] 1) mod 8)).

Definition s_mark_part_delivered (m : delivered_mask) (part_number : Z) : result aws_error delivered_mask :=
  match parts_delivered_mask m with
  | None => Success m
  | Some mask =>
      if (part_number <? 1) || (parts_delivered_mask_num_parts m <? part_number) then
        Failure AWS_ERROR_INVALID_STATE
      else
        let byte_index := s_byte_index_holding_part part_number in
        if parts_delivered_mask_length m <=? byte_index then Failure AWS_ERROR_INVALID_STATE
        else
          let part_bit_mask := s_bit_mask_for_part part_number in
          let byte := nth (Z.to_nat byte_index) mask 0 in
          if negb (Z.land byte part_bit_mask =? 0) then Failure AWS_ERROR_INVALID_STATE
          else Success (m <| parts_delivered_mask :=
                 Some (<[Z.to_nat byte_index := Z.lor byte part_bit_mask]> mask) |>)
  end.

(** The walk over the mask, from byte [byte] on. *)
Fixpoint walk_mask (mask : list Z) (num_parts num_full_bytes byte : Z) : result aws_error unit :=
  match mask with
  | [] => Success tt
  | b :: mask =>
      let required :=
        if num_full_bytes <=? byte then s_byte_with_lowest_bits_set (num_parts mod 8) else 255 in
      if Z.land b required =? required then walk_mask mask num_parts num_full_bytes (byte + 1)
      else Failure AWS_ERROR_INVALID_STATE
  end.

Definition aws_s3_meta_request_validate_parts_delivered_synced (m : delivered_mask) : result aws_error unit :=
  match parts_delivered_mask m with
  | None => Success tt
  | Some mask =>
      let num_parts := parts_delivered_mask_num_parts m in
      let num_bytes := parts_delivered_mask_length m in
      if negb (num_bytes =? (num_parts +[32] 7) / 8) then Failure AWS_ERROR_INVALID_STATE
      else walk_mask (take (Z.to_nat num_bytes) mask) num_parts (num_parts / 8) 0
  end.

(** * The delivered prefix *)

Section prefix.
Context `{Q : !AwsPriorityQueue delivery_tracking_record track_part_number}.

(** The fields of [synced_data] that the prefix is made of. *)
Record delivered_prefix := mkPrefix {
  num_bytes_delivered : Z;
  num_bytes_delivered_total : Z;
  next_contiguous_delivered_part : Z;
  next_contiguous_delivered_range_start : Z;
  completed_deliveries_tracker : pq delivery_tracking_record track_part_number;
}.
#[export] Instance delivered_prefix_eta : Eta delivered_prefix := λ p,
  mkPrefix (num_bytes_delivered p) (num_bytes_delivered_total p) (next_contiguous_delivered_part p)
    (next_contiguous_delivered_range_start p) (completed_deliveries_tracker p).

(** As [aws_s3_meta_request_init_base] leaves it. *)
Definition prefix_init : delivered_prefix := mkPrefix 0 0 1 0 pq_empty.

Definition s_s3_meta_request_extend_delivered_prefix_synced (p : delivered_prefix) (r : delivery_tracking_record)
    : result aws_error delivered_prefix :=
  let expected_range_start :=
    if next_contiguous_delivered_part p =? 1 then track_range_start r
    else next_contiguous_delivered_range_start p in
  if negb (track_range_start r =? expected_range_start) then Failure AWS_ERROR_INVALID_STATE
  else
    Success (p <| num_bytes_delivered ::= λ x, x +[64] track_bytes r |>
               <| next_contiguous_delivered_range_start := track_range_end r +[64] 1 |>
               <| next_contiguous_delivered_part ::= λ x, x +[32] 1 |>).

(** The loop that folds in the parts that were waiting; [fuel] bounds the number of
    parts that wait. *)
Fixpoint drain_tracker (fuel : nat) (p : delivered_prefix) : result aws_error delivered_prefix :=
  match fuel, aws_priority_queue_top (completed_deliveries_tracker p) with
  | S fuel, Some top =>
      if track_part_number top =? next_contiguous_delivered_part p then
        match aws_priority_queue_pop (completed_deliveries_tracker p) with
        | Some (entry, q) =>
            p ← s_s3_meta_request_extend_delivered_prefix_synced (p <| completed_deliveries_tracker := q |>) entry;
            drain_tracker fuel p
        | None => Success p
        end
      else Success p
  | _, _ => Success p
  end.

Definition s_s3_meta_request_record_delivered_part_synced (p : delivered_prefix) (r : delivery_tracking_record)
    : result aws_error delivered_prefix :=
  let p := p <| num_bytes_delivered_total ::= λ x, x +[64] track_bytes r |> in
  if negb (track_part_number r =? next_contiguous_delivered_part p) then
    match aws_priority_queue_push (completed_deliveries_tracker p) r with
    | Some q => Success (p <| completed_deliveries_tracker := q |>)
    | None => Failure AWS_ERROR_OOM
    end
  else
    p ← s_s3_meta_request_extend_delivered_prefix_synced p r;
    drain_tracker (length (pq_elems (completed_deliveries_tracker p))) p.
End prefix.

(** * The mask holds the set of delivered parts *)

(** Bit [(k - 1) mod 8] of byte [(k - 1) / 8]. *)
Definition is_delivered (m : delivered_mask) (k : Z) : bool :=
  match parts_delivered_mask m with
  | None => false
  | Some mask => Z.testbit (nth (Z.to_nat ((k - 1) / 8)) mask 0) ((k - 1) mod 8)
  end.

(** A mask of [n] parts, as it is allocated once the number of parts is known. *)
Definition mask_ok (n : Z) (m : delivered_mask) : Prop :=
  1 ≤ n < 2 ^ 32 - 8 ∧ parts_delivered_mask_num_parts m = n ∧ parts_delivered_mask_length m = (n + 7) / 8 ∧
  ∃ mask, parts_delivered_mask m = Some mask ∧ Z.of_nat (length mask) = (n + 7) / 8 ∧
    ∀ b, b ∈ mask → uint 8 b.

Definition mask_new (n : Z) : delivered_mask :=
  mkMask (Some (replicate (Z.to_nat ((n + 7) / 8)) 0)) ((n + 7) / 8) n.

Lemma bit_mask_testbit k j : 1 ≤ k < 2 ^ 32 → 0 ≤ j < 8 →
  Z.testbit (s_bit_mask_for_part k) j = (j =? (k - 1) mod 8).
Proof.
  intros Hk Hj. unfold s_bit_mask_for_part, wrap at 1. rewrite (wrap_small 32) by (unfold uint; lia).
  pose proof (Z.mod_pos_bound (k - 1) 8 ltac:(lia)).
  rewrite Z.mod_pow2_bits_low by lia. rewrite Z.shiftl_spec by lia.
  destruct (Z.eqb_spec j ((k - 1) mod 8)) as [->|Hne]; [by rewrite Z.sub_diag|].
  destruct (Z.ltb_spec j ((k - 1) mod 8)); [apply Z.testbit_neg_r; lia|]. apply (Z.bits_above_log2 1); simpl; lia.
Qed.

(** [land] with a single bit is zero exactly when the bit is clear. *)
Lemma land_bit_mask b k : 1 ≤ k < 2 ^ 32 →
  (Z.land b (s_bit_mask_for_part k) =? 0) = negb (Z.testbit b ((k - 1) mod 8)).
Proof.
  intros Hk. pose proof (Z.mod_pos_bound (k - 1) 8 ltac:(lia)).
  destruct (Z.testbit b ((k - 1) mod 8)) eqn:Hb; simpl.
  - apply Z.eqb_neq. intros Hz. apply (f_equal (λ x, Z.testbit x ((k - 1) mod 8))) in Hz.
    rewrite Z.land_spec, Hb, bit_mask_testbit, Z.eqb_refl, Z.bits_0 in Hz by lia. done.
  - apply Z.eqb_eq, Z.bits_inj'. intros j Hj. rewrite Z.land_spec, Z.bits_0.
    destruct (Z.ltb_spec j 8).
    + rewrite bit_mask_testbit by lia. destruct (Z.eqb_spec j ((k - 1) mod 8)) as [->|]; [by rewrite Hb|apply andb_false_r].
    + unfold s_bit_mask_for_part, wrap at 1. rewrite Z.mod_pow2_bits_high by lia. apply andb_false_r.
Qed.

Lemma mask_index n k : 1 ≤ k ≤ n → 0 ≤ (k - 1) / 8 < (n + 7) / 8.
Proof.
  intros. split; [apply Z.div_pos; lia|]. apply Z.div_lt_upper_bound; [lia|].
  pose proof (Z.div_mod (n + 7) 8 ltac:(lia)). pose proof (Z.mod_pos_bound (n + 7) 8 ltac:(lia)). lia.
Qed.

(** Two parts share a byte and a bit only if they are the same part. *)
Lemma part_position j k : (j - 1) / 8 = (k - 1) / 8 → (j - 1) mod 8 = (k - 1) mod 8 → j = k.
Proof. intros. pose proof (Z.div_mod (j - 1) 8). pose proof (Z.div_mod (k - 1) 8). lia. Qed.

Section mark.
Context (n : Z) (m : delivered_mask) (Hm : mask_ok n m).

Lemma mark_range k : ¬ (1 ≤ k ≤ n) → s_mark_part_delivered m k = Failure AWS_ERROR_INVALID_STATE.
Proof using Hm.
  destruct Hm as (_ & Hn & _ & mask & Hmask & _). intros Hk. unfold s_mark_part_delivered. rewrite Hmask, Hn.
  destruct (Z.ltb_spec k 1), (Z.ltb_spec n k); simpl; try done. lia.
Qed.

Lemma mark_in_range k : 1 ≤ k ≤ n →
  s_mark_part_delivered m k =
    if is_delivered m k then Failure AWS_ERROR_INVALID_STATE
    else Success (m <| parts_delivered_mask ::= fmap (λ mask,
           <[Z.to_nat ((k - 1) / 8) := Z.lor (nth (Z.to_nat ((k - 1) / 8)) mask 0) (s_bit_mask_for_part k)]> mask) |>).
Proof using Hm.
  destruct Hm as (Hb & Hn & Hl & mask & Hmask & _). intros Hk. unfold s_mark_part_delivered, is_delivered.
  rewrite Hmask, Hn, Hl. rewrite (proj2 (Z.ltb_ge k 1)), (proj2 (Z.ltb_ge n k)) by lia. simpl.
  unfold s_byte_index_holding_part. rewrite (wrap_small 32) by machine.
  rewrite (proj2 (Z.leb_gt ((n + 7) / 8) ((k - 1) / 8))) by (by apply mask_index).
  rewrite land_bit_mask, negb_involutive by lia. by rewrite Hmask.
Qed.

(** Marking a part adds it to the delivered ones and nothing else. *)
Lemma mark_delivers k m' : s_mark_part_delivered m k = Success m' →
  1 ≤ k ≤ n ∧ is_delivered m k = false ∧ mask_ok n m' ∧
  ∀ j, 1 ≤ j ≤ n → is_delivered m' j = (j =? k) || is_delivered m j.
Proof using Hm.
  intros Hs. assert (1 ≤ k ≤ n) as Hk.
  { destruct (decide (1 ≤ k ≤ n)); [done|]. by rewrite mark_range in Hs. }
  rewrite mark_in_range in Hs by done. destruct (is_delivered m k) eqn:Hd; [done|]. injection Hs as <-.
  destruct Hm as (Hb & Hn & Hl & mask & Hmask & Hlen & Hu). pose proof (mask_index n k Hk) as Hi.
  set (i := Z.to_nat ((k - 1) / 8)). assert (i < length mask)%nat as Hlt by (subst i; lia).
  split_and!; [lia..| |].
  - split_and!; [lia..|done|done|]. eexists. simpl. rewrite Hmask. split; [done|]. rewrite length_insert.
    split; [done|]. intros b [j Hj]%list_elem_of_lookup. destruct (decide (j = i)) as [->|].
    + rewrite list_lookup_insert_eq in Hj by done. injection Hj as <-.
      assert (uint 8 (nth i mask 0)) as [Hlo Hhi] by (apply Hu, list_elem_of_In, nth_In; lia).
      split; [apply Z.lor_nonneg; split; [done|apply wrap_uint; lia]|].
      apply Z.log2_lt_cancel. rewrite Z.log2_lor by (done || (apply wrap_uint; lia)).
      rewrite Z.log2_pow2 by lia. apply Z.max_lub_lt.
      * destruct (Z.eq_dec (nth i mask 0) 0) as [->|]; [done|]. apply Z.log2_lt_pow2; lia.
      * pose proof (wrap_uint 8 (Z.shiftl 1 ((k -[32] 1) mod 8)) ltac:(lia)) as [Hx Hy].
        fold (s_bit_mask_for_part k) in *.
        destruct (Z.eq_dec (s_bit_mask_for_part k) 0) as [->|]; [done|]. apply Z.log2_lt_pow2; lia.
    + rewrite list_lookup_insert_ne in Hj by done. by eapply Hu, list_elem_of_lookup_2.
  - intros j Hj. unfold is_delivered. simpl. rewrite Hmask. simpl. fold i. pose proof (mask_index n j Hj) as Hij.
    destruct (decide (Z.to_nat ((j - 1) / 8) = i)) as [Heq|Hne].
    + rewrite Heq, nth_lookup, list_lookup_insert_eq by done. simpl.
      rewrite Z.lor_spec, bit_mask_testbit by (try apply Z.mod_pos_bound; lia). rewrite orb_comm. f_equal.
      destruct (Z.eqb_spec ((j - 1) mod 8) ((k - 1) mod 8)), (Z.eqb_spec j k) as [|Hjk]; subst; try done.
      destruct Hjk. apply part_position; [subst i; lia|done].
    + rewrite !nth_lookup, list_lookup_insert_ne by done. destruct (Z.eqb_spec j k) as [->|]; [by destruct Hne|done].
Qed.
End mark.

(** * Validation *)

Lemma lowest_bits_ones c : 0 ≤ c ≤ 8 → s_byte_with_lowest_bits_set c = Z.ones c.
Proof.
  intros Hc. unfold s_byte_with_lowest_bits_set. rewrite Z.ones_equiv, Z.shiftl_1_l.
  assert (1 ≤ 2 ^ c ≤ 2 ^ 8) by (split; [lia|apply Z.pow_le_mono_r; lia]).
  rewrite (wrap_small 32) by (unfold uint; lia). rewrite wrap_small by (unfold uint; lia). lia.
Qed.

Lemma land_required b c : 0 ≤ c →
  (Z.land b (Z.ones c) =? Z.ones c) = true ↔ ∀ i, 0 ≤ i < c → Z.testbit b i = true.
Proof.
  intros Hc. rewrite Z.eqb_eq. split.
  - intros He i Hi. apply (f_equal (λ x, Z.testbit x i)) in He.
    rewrite Z.land_spec, Z.ones_spec_low, andb_true_r in He by lia. done.
  - intros Hb. apply Z.bits_inj'. intros i Hi. rewrite Z.land_spec, Z.testbit_ones_nonneg by lia.
    destruct (Z.ltb_spec i c); [|by rewrite andb_false_r]. by rewrite Hb.
Qed.

(** The bits of byte [j] that stand for a part. *)
Definition required_bits (n j : Z) : Z := if n / 8 <=? j then n mod 8 else 8.

Lemma walk_mask_ok n mask j : 0 ≤ n → 0 ≤ j →
  walk_mask mask n (n / 8) j = Success tt ↔
  ∀ t i, (t < length mask)%nat → 0 ≤ i < required_bits n (j + Z.of_nat t) → Z.testbit (nth t mask 0) i = true.
Proof.
  intros Hn. revert j. induction mask as [|b mask IH]; intros j Hj; cbn [walk_mask].
  { split; [intros _ t i Ht; simpl in Ht; lia|done]. }
  pose proof (Z.mod_pos_bound n 8 ltac:(lia)).
  assert ((if n / 8 <=? j then s_byte_with_lowest_bits_set (n mod 8) else 255) = Z.ones (required_bits n j)) as ->.
  { unfold required_bits. destruct (n / 8 <=? j); [apply lowest_bits_ones; lia|done]. }
  assert (0 ≤ required_bits n j) by (unfold required_bits; destruct (n / 8 <=? j); lia).
  destruct (Z.land b _ =? _) eqn:Hreq.
  - rewrite land_required in Hreq by done. rewrite IH by lia. split; intros Hall.
    + intros [|t] i Ht Hi; [apply Hreq; by rewrite Z.add_0_r in Hi|]. simpl in *. apply (Hall t); [lia|].
      by replace (j + 1 + Z.of_nat t) with (j + Z.of_nat (S t)) by lia.
    + intros t i Ht Hi. apply (Hall (S t)); [simpl; lia|]. by replace (j + Z.of_nat (S t)) with (j + 1 + Z.of_nat t) by lia.
  - split; [done|]. intros Hall. apply not_true_iff_false in Hreq. destruct Hreq. apply land_required; [done|].
    intros i Hi. apply (Hall 0%nat); [simpl; lia|]. by rewrite Z.add_0_r.
Qed.

(** The parts of byte [t] are those whose bit is required. *)
Lemma required_part n t i : 1 ≤ n → 0 ≤ t < (n + 7) / 8 → 0 ≤ i < 8 →
  i < required_bits n t ↔ 8 * t + i + 1 ≤ n.
Proof.
  intros Hn Ht Hi. unfold required_bits. pose proof (Z.div_mod n 8 ltac:(lia)). pose proof (Z.mod_pos_bound n 8 ltac:(lia)).
  pose proof (Z.div_mod (n + 7) 8 ltac:(lia)). pose proof (Z.mod_pos_bound (n + 7) 8 ltac:(lia)).
  destruct (Z.leb_spec (n / 8) t); lia.
Qed.

Lemma validate_all n m : mask_ok n m →
  aws_s3_meta_request_validate_parts_delivered_synced m = Success tt ↔ ∀ k, 1 ≤ k ≤ n → is_delivered m k = true.
Proof.
  intros (Hn & Hnp & Hl & mask & Hmask & Hlen & _).
  unfold aws_s3_meta_request_validate_parts_delivered_synced, is_delivered. rewrite Hmask, Hnp, Hl.
  rewrite (wrap_small 32) by (unfold uint; lia). rewrite Z.eqb_refl. simpl.
  rewrite take_ge by lia. rewrite walk_mask_ok by lia. split.
  - intros Hall k Hk. pose proof (mask_index n k Hk). pose proof (Z.mod_pos_bound (k - 1) 8 ltac:(lia)).
    apply Hall; [lia|]. split; [lia|]. rewrite Z.add_0_l, Z2Nat.id by lia. apply required_part; [lia..|].
    pose proof (Z.div_mod (k - 1) 8). lia.
  - intros Hall t i Ht Hi. rewrite Z.add_0_l in Hi.
    assert (i < 8) by (unfold required_bits in Hi; pose proof (Z.mod_pos_bound n 8); destruct (n / 8 <=? _); lia).
    assert (8 * Z.of_nat t + i + 1 ≤ n) as Hk by (apply required_part; lia).
    specialize (Hall (8 * Z.of_nat t + i + 1) ltac:(lia)).
    replace (8 * Z.of_nat t + i + 1 - 1) with (i + Z.of_nat t * 8) in Hall by lia.
    rewrite Z.div_add, Z.mod_add, Z.div_small, Z.mod_small, Z.add_0_l, Nat2Z.id in Hall by lia. done.
Qed.

(** * Sequences of deliveries *)

Fixpoint mark_all (m : delivered_mask) (ks : list Z) : result aws_error delivered_mask :=
  match ks with
  | [] => Success m
  | k :: ks => m ← s_mark_part_delivered m k; mark_all m ks
  end.

Lemma mark_all_spec n m ks : mask_ok n m →
  match mark_all m ks with
  | Success m' => mask_ok n m' ∧ NoDup ks ∧ (∀ k, k ∈ ks → 1 ≤ k ≤ n ∧ is_delivered m k = false) ∧
      ∀ j, 1 ≤ j ≤ n → is_delivered m' j = bool_decide (j ∈ ks) || is_delivered m j
  | Failure e => e = AWS_ERROR_INVALID_STATE ∧
      ¬ (NoDup ks ∧ ∀ k, k ∈ ks → 1 ≤ k ≤ n ∧ is_delivered m k = false)
  end.
Proof.
  revert m. induction ks as [|k ks IH]; intros m Hm; cbn [mark_all].
  { split_and!; [done|apply NoDup_nil_2|by intros k ?%elem_of_nil|]. intros j Hj. by rewrite bool_decide_false by apply not_elem_of_nil. }
  destruct (s_mark_part_delivered m k) as [m1|e] eqn:Hk; simpl.
  - destruct (mark_delivers n m Hm k m1 Hk) as (Hkn & Hkd & Hm1 & Hd1). specialize (IH m1 Hm1).
    assert (∀ j, 1 ≤ j ≤ n → is_delivered m1 j = false ↔ j ≠ k ∧ is_delivered m j = false) as Hd1'.
    { intros j Hj. rewrite Hd1 by done. rewrite orb_false_iff, Z.eqb_neq. done. }
    destruct (mark_all m1 ks) as [m'|e].
    + destruct IH as (Hm' & Hnd & Hks & Hd'). split_and!; [done| | |].
      * apply list.NoDup_cons. split; [|done]. intros Hin. destruct (Hks k Hin) as [? []%Hd1']; done.
      * intros j [->|Hj]%elem_of_cons; [done|]. destruct (Hks j Hj) as [? []%Hd1']; done.
      * intros j Hj. rewrite Hd', Hd1 by done. destruct (Z.eqb_spec j k) as [->|].
        -- rewrite orb_true_r, (bool_decide_true (k ∈ k :: ks)) by left. done.
        -- f_equal. apply bool_decide_ext. rewrite elem_of_cons. naive_solver.
    + destruct IH as [-> Hno]. split; [done|]. intros [[Hk' Hnd]%list.NoDup_cons Hall]. apply Hno. split; [done|].
      intros j Hj. destruct (Hall j) as [??]; [by right|]. split; [done|]. apply Hd1'; [done|]. split; [|done]. by intros ->.
  - assert (e = AWS_ERROR_INVALID_STATE ∧ ¬ (1 ≤ k ≤ n ∧ is_delivered m k = false)) as [-> Hno].
    { destruct (decide (1 ≤ k ≤ n)) as [Hin|Hout].
      - rewrite (mark_in_range n) in Hk by done. destruct (is_delivered m k); [|done]. simplify_eq. split; [done|]. by intros [].
      - rewrite (mark_range n) in Hk by done. simplify_eq. split; [done|]. by intros []. }
    split; [done|]. intros [_ Hall]. apply Hno, Hall. left.
Qed.

(** * The prefix is what was delivered without a gap *)

Section record.
Context `{Q : !AwsPriorityQueue delivery_tracking_record track_part_number, !AwsPriorityQueueLaws _ _ Q}.

(** A download of [n] parts: [R k] is what part [k] reports.  Each part starts where
    the one before it ends. *)
Context (n : Z) (R : Z → delivery_tracking_record).
Context (Hn : 1 ≤ n < 2 ^ 32 - 1).
Context (Hnum : ∀ k, track_part_number (R k) = k).
Context (Htile : ∀ k, 1 ≤ k < n → track_range_start (R (k + 1)) = track_range_end (R k) + 1).
Context (Hend : ∀ k, 1 ≤ k ≤ n → 0 ≤ track_range_end (R k) < 2 ^ 64 - 1).
Context (Hbytes : ∀ k, 1 ≤ k ≤ n → 0 ≤ track_bytes (R k)).
Context (Hsum : zsum (λ k, track_bytes (R k)) (seqZ 1 n) < 2 ^ 64).

Notation bytes_of ks := (zsum (λ k, track_bytes (R k)) ks).

(** After the parts [ord] have been recorded, the prefix is the parts [1..k]. *)
Record prefix_at (ord : list Z) (k : Z) (p : delivered_prefix) : Prop := {
  pre_bound : 0 ≤ k ≤ n;
  pre_next : next_contiguous_delivered_part p = k + 1;
  pre_members j : 1 ≤ j ≤ k → j ∈ ord;
  pre_bytes : num_bytes_delivered p = bytes_of (seqZ 1 k);
  pre_total : num_bytes_delivered_total p = bytes_of ord;
  pre_start : 1 ≤ k → next_contiguous_delivered_range_start p = track_range_end (R k) + 1;
  pre_tracker : pq_elems (completed_deliveries_tracker p) ≡ₚ R <$> filter (λ j, k < j) ord;
}.

(** ... and cannot be extended. *)
Definition prefix_ok (ord : list Z) (p : delivered_prefix) : Prop :=
  ∃ k, prefix_at ord k p ∧ k + 1 ∉ ord.

Definition orders (ord : list Z) : Prop := NoDup ord ∧ ∀ j, j ∈ ord → 1 ≤ j ≤ n.

Lemma bytes_of_mono ks : orders ks → 0 ≤ bytes_of ks ≤ bytes_of (seqZ 1 n).
Proof using Hbytes.
  intros [Hnd Hks]. split; [apply zsum_nonneg; intros k Hk; by apply Hbytes, Hks|].
  assert (ks ⊆+ seqZ 1 n) as [ks' Hp]%submseteq_Permutation.
  { apply NoDup_submseteq; [done|]. intros k Hk. apply elem_of_seqZ. apply Hks in Hk. lia. }
  rewrite (zsum_perm _ _ _ Hp), zsum_app.
  assert (0 ≤ bytes_of ks'); [|lia]. apply zsum_nonneg. intros k Hk. apply Hbytes.
  assert (k ∈ seqZ 1 n) as ?%elem_of_seqZ by (rewrite Hp; apply elem_of_app; by right). lia.
Qed.

Lemma orders_upto k : 0 ≤ k ≤ n → orders (seqZ 1 k).
Proof. intros. split; [apply NoDup_seqZ|]. intros j Hj%elem_of_seqZ. lia. Qed.

Lemma bytes_upto_S k : 0 ≤ k → bytes_of (seqZ 1 (k + 1)) = bytes_of (seqZ 1 k) + track_bytes (R (k + 1)).
Proof.
  intros. rewrite seqZ_app by lia. rewrite zsum_app, (seqZ_cons (1 + k) 1) by lia. rewrite zsum_cons.
  replace (1 + k) with (k + 1) by lia. simpl. lia.
Qed.

(** Folding part [k + 1] into the prefix [1..k]. *)
Lemma extend_prefix k p : 0 ≤ k < n → next_contiguous_delivered_part p = k + 1 →
  num_bytes_delivered p = bytes_of (seqZ 1 k) →
  (1 ≤ k → next_contiguous_delivered_range_start p = track_range_end (R k) + 1) →
  s_s3_meta_request_extend_delivered_prefix_synced p (R (k + 1))
    = Success (p <| num_bytes_delivered := bytes_of (seqZ 1 (k + 1)) |>
                 <| next_contiguous_delivered_range_start := track_range_end (R (k + 1)) + 1 |>
                 <| next_contiguous_delivered_part := k + 1 + 1 |>).
Proof using Hn Htile Hend Hbytes Hsum.
  intros Hk Hnext Hb Hst. unfold s_s3_meta_request_extend_delivered_prefix_synced. rewrite Hnext.
  assert ((if k + 1 =? 1 then track_range_start (R (k + 1)) else next_contiguous_delivered_range_start p)
    = track_range_start (R (k + 1))) as ->.
  { destruct (Z.eqb_spec (k + 1) 1); [done|]. rewrite Hst, Htile by lia. done. }
  rewrite Z.eqb_refl. simpl. rewrite Hnext, Hb, <-bytes_upto_S by lia.
  pose proof (bytes_of_mono _ (orders_upto (k + 1) ltac:(lia))). pose proof (Hend (k + 1) ltac:(lia)).
  rewrite !wrap_small by (unfold uint; lia). done.
Qed.

(** The part after the prefix, once recorded, is at the top of the tracker. *)
Lemma tracker_top ord k p : orders ord → prefix_at ord k p →
  match aws_priority_queue_top (completed_deliveries_tracker p) with
  | Some top => if track_part_number top =? k + 1 then top = R (k + 1) ∧ k + 1 ∈ ord else k + 1 ∉ ord
  | None => k + 1 ∉ ord
  end.
Proof using All.
  intros Hord [Hk Hnext Hmem _ _ _ Htr].
  assert (k + 1 ∈ ord → R (k + 1) ∈ pq_elems (completed_deliveries_tracker p)) as Hin.
  { intros Hin. rewrite Htr. apply list_elem_of_fmap_2, list_elem_of_filter. split; [lia|done]. }
  assert (∀ r, r ∈ pq_elems (completed_deliveries_tracker p) → ∃ j, r = R j ∧ k < j ∧ j ∈ ord) as Hel.
  { intros r. rewrite Htr. intros (j & -> & [??]%list_elem_of_filter)%list_elem_of_fmap. eauto. }
  destruct (aws_priority_queue_top _) as [top|] eqn:Ht.
  - destruct (pq_pop_top _ _ Ht) as (q' & _ & Hp).
    destruct (Hel top) as (j & -> & Hj & Hjo); [rewrite Hp; left|]. rewrite Hnum.
    destruct (Z.eqb_spec j (k + 1)) as [->|Hne]; [done|]. intros Hk1%Hin.
    pose proof (pq_top_min _ _ _ Ht Hk1) as Hmin. rewrite !Hnum in Hmin. lia.
  - apply pq_top_None in Ht. intros Hk1%Hin. rewrite Ht in Hk1. by apply elem_of_nil in Hk1.
Qed.

(** Popping the part after the prefix. *)
Lemma filter_tracker ord k : orders ord → k + 1 ∈ ord →
  R <$> filter (λ j, k < j) ord ≡ₚ R (k + 1) :: (R <$> filter (λ j, k + 1 < j) ord).
Proof.
  intros [Hnd _] Hin. rewrite <-fmap_cons. apply fmap_Permutation. apply list.NoDup_Permutation.
  - by apply list.NoDup_filter.
  - apply list.NoDup_cons. split; [intros [? _]%list_elem_of_filter; lia|by apply list.NoDup_filter].
  - intros j. rewrite elem_of_cons, !list_elem_of_filter. split.
    + intros [??]. destruct (decide (j = k + 1)); [by left|]. right. split; [lia|done].
    + intros [->|[??]]; [split; [lia|done]|split; [lia|done]].
Qed.

Lemma drain_prefix fuel ord k p : orders ord → prefix_at ord k p →
  (length (pq_elems (completed_deliveries_tracker p)) ≤ fuel)%nat →
  ∃ p', drain_tracker fuel p = Success p' ∧ prefix_ok ord p'.
Proof using All.
  revert k p. induction fuel as [|fuel IH]; intros k p Hord Hp Hfuel; cbn [drain_tracker].
  - exists p. split; [done|]. exists k. split; [done|]. pose proof (tracker_top _ _ _ Hord Hp) as Ht.
    destruct (aws_priority_queue_top _) as [top|] eqn:Htop; [|done].
    destruct (pq_pop_top _ _ Htop) as (q' & _ & Hq). rewrite Hq in Hfuel. simpl in Hfuel. lia.
  - pose proof (tracker_top _ _ _ Hord Hp) as Ht. pose proof (pre_next _ _ _ Hp) as Hnext. rewrite Hnext.
    destruct (aws_priority_queue_top _) as [top|] eqn:Htop; [|by exists p; split; [done|exists k]].
    destruct (track_part_number top =? k + 1); [|by exists p; split; [done|exists k]].
    destruct Ht as [-> Hin]. destruct (pq_pop_top _ _ Htop) as (q & -> & Hq).
    destruct Hp as [Hk _ Hmem Hb Htot Hst Htr]. pose proof (proj2 Hord _ Hin) as Hk1.
    rewrite (extend_prefix k) by (try done; lia). cbn [mbind result_bind]. apply (IH (k + 1)); [done| |].
    + split; simpl; try done; [lia| |].
      * intros j Hj. destruct (decide (j = k + 1)) as [->|]; [done|]. apply Hmem. lia.
      * rewrite filter_tracker, Hq in Htr by done. by apply Permutation_cons_inv in Htr.
    + simpl. rewrite Hq in Hfuel. simpl in Hfuel. lia.
Qed.

(** Recording one more part. *)
Lemma record_prefix ord p j : orders (j :: ord) → prefix_ok ord p →
  match s_s3_meta_request_record_delivered_part_synced p (R j) with
  | Success p' => prefix_ok (j :: ord) p'
  | Failure e => e = AWS_ERROR_OOM ∧ aws_priority_queue_push (completed_deliveries_tracker p) (R j) = None
  end.
Proof using All.
  intros Hord (k & [Hk Hnext Hmem Hb Htot Hst Htr] & Hmax). pose proof Hord as [Hnd Hall].
  apply list.NoDup_cons in Hnd as [Hj Hnd]. pose proof (Hall j (list_elem_of_here _ _)) as Hjn.
  assert (wrap 64 (num_bytes_delivered_total p + track_bytes (R j)) = bytes_of (j :: ord)) as Htot'.
  { pose proof (bytes_of_mono _ Hord) as Hm. simpl in *. rewrite Htot. rewrite wrap_small by (unfold uint; lia). lia. }
  unfold s_s3_meta_request_record_delivered_part_synced. simpl. rewrite Hnum, Hnext, Htot'.
  destruct (Z.eqb_spec j (k + 1)) as [->|Hne]; simpl.
  - rewrite (extend_prefix k) by (try done; lia). cbn [mbind result_bind].
    match goal with |- context [drain_tracker ?f ?p] => destruct (drain_prefix f (k + 1 :: ord) (k + 1) p)
      as (p' & Hd & Hok); [done| |done|by rewrite Hd] end.
    split; simpl; try done; [lia| |].
    + intros i Hi. destruct (decide (i = k + 1)) as [->|]; [left|]. right. apply Hmem. lia.
    + rewrite Htr. rewrite filter_cons, decide_False by lia. apply fmap_Permutation.
      apply list.NoDup_Permutation; [by apply list.NoDup_filter..|]. intros i. rewrite !list_elem_of_filter. split.
      * intros [??]. split; [|done]. assert (i ≠ k + 1) by (by intros ->). lia.
      * intros [??]. split; [lia|done].
  - destruct (aws_priority_queue_push _ (R j)) as [q|] eqn:Hq; [|done].
    assert (k < j) as Hkj.
    { destruct (decide (k < j)); [done|]. destruct Hj. apply Hmem. lia. }
    exists k. split; [|by intros [|]%elem_of_cons]. split; simpl; try done.
    + intros i Hi. right. by apply Hmem.
    + rewrite (pq_push_elems _ _ _ Hq), Htr. by rewrite filter_cons, decide_True by done.
Qed.

Fixpoint record_all (p : delivered_prefix) (rs : list delivery_tracking_record) : result aws_error delivered_prefix :=
  match rs with
  | [] => Success p
  | r :: rs => p ← s_s3_meta_request_record_delivered_part_synced p r; record_all p rs
  end.

Lemma record_all_prefix ks ord p : orders (reverse ks ++ ord) → prefix_ok ord p →
  match record_all p (R <$> ks) with
  | Success p' => prefix_ok (reverse ks ++ ord) p'
  | Failure e => e = AWS_ERROR_OOM
  end.
Proof using All.
  revert ord p. induction ks as [|k ks IH]; intros ord p Hord Hp; [done|].
  rewrite fmap_cons. cbn [record_all]. rewrite reverse_cons, <-app_assoc in *. simpl in *.
  assert (orders (k :: ord)) as Hk.
  { destruct Hord as [Hnd Hall]. apply list.NoDup_app in Hnd as (_ & _ & Hnd).
    split; [done|]. intros j Hj. apply Hall, elem_of_app. by right. }
  pose proof (record_prefix ord p k Hk Hp) as Hr.
  destruct (s_s3_meta_request_record_delivered_part_synced p (R k)) as [p'|e]; [by apply IH|apply Hr].
Qed.

(** in whatever order distinct parts reach their sink, recording them fails only
    when the queue cannot grow, the delivered total is the sum of all of them, and
    the length a resume token reports is the sum of the parts up to the first that is
    still missing: it never counts a byte past a gap and never stops short of one. *)
Theorem prefix_any_order ks : NoDup ks → (∀ j, j ∈ ks → 1 ≤ j ≤ n) →
  match record_all prefix_init (R <$> ks) with
  | Success p => ∃ k, (∀ j, 1 ≤ j ≤ k → j ∈ ks) ∧ k + 1 ∉ ks ∧
      next_contiguous_delivered_part p = k + 1 ∧
      num_bytes_delivered p = zsum (λ j, track_bytes (R j)) (seqZ 1 k) ∧
      num_bytes_delivered_total p = zsum (λ j, track_bytes (R j)) ks
  | Failure e => e = AWS_ERROR_OOM
  end.
Proof using All.
  intros Hnd Hks. assert (orders (reverse ks ++ [])) as Hord.
  { rewrite app_nil_r. split; [by rewrite reverse_Permutation|]. intros j Hj. apply Hks. by apply elem_of_reverse. }
  assert (prefix_ok [] prefix_init) as Hinit.
  { exists 0. split; [|apply not_elem_of_nil]. split; simpl; try done; try lia. by rewrite pq_elems_empty. }
  pose proof (record_all_prefix ks [] prefix_init Hord Hinit) as Hr.
  destruct (record_all _ _) as [p|e]; [|done]. destruct Hr as (k & [_ Hnext Hmem Hb Htot _ _] & Hmax).
  exists k. rewrite app_nil_r in *. split_and!; [| |done|done|].
  - intros j Hj. apply elem_of_reverse. by apply Hmem.
  - intros Hj. apply Hmax. by apply elem_of_reverse.
  - rewrite Htot. apply zsum_perm, reverse_Permutation.
Qed.
End record.

Lemma mask_new_ok n : 1 ≤ n < 2 ^ 32 - 8 → mask_ok n (mask_new n).
Proof.
  intros Hn. assert (0 ≤ (n + 7) / 8) by (apply Z.div_pos; lia). split_and!; [lia..|done|done|].
  eexists. split; [done|]. rewrite length_replicate, Z2Nat.id by done. split; [done|].
  intros b [-> _]%elem_of_replicate. done.
Qed.

Lemma mask_new_none n k : is_delivered (mask_new n) k = false.
Proof.
  unfold is_delivered, mask_new. simpl. rewrite nth_lookup. destruct (replicate _ 0 !! _) eqn:Hr; simpl; [|apply Z.bits_0].
  apply lookup_replicate in Hr as [-> _]. apply Z.bits_0.
Qed.

(** a download passes the final validation exactly when every part was delivered
    once: a part delivered twice or outside the range is refused, and the deliveries
    that were accepted validate exactly when they are a rearrangement of all parts. *)
Theorem validation_exact n ks : 1 ≤ n < 2 ^ 32 - 8 →
  match mark_all (mask_new n) ks with
  | Success m =>
      NoDup ks ∧ (∀ k, k ∈ ks → 1 ≤ k ≤ n) ∧
      (aws_s3_meta_request_validate_parts_delivered_synced m = Success tt ↔ ks ≡ₚ seqZ 1 n)
  | Failure e => e = AWS_ERROR_INVALID_STATE ∧ ¬ (NoDup ks ∧ ∀ k, k ∈ ks → 1 ≤ k ≤ n)
  end.
Proof.
  intros Hn. pose proof (mark_all_spec n (mask_new n) ks (mask_new_ok n Hn)) as Hspec.
  destruct (mark_all (mask_new n) ks) as [m|e].
  - destruct Hspec as (Hm & Hnd & Hks & Hd). split; [done|]. split; [by intros k Hk; apply Hks|].
    rewrite (validate_all n) by done. split.
    + intros Hall. apply list.NoDup_Permutation; [done|apply NoDup_seqZ|]. intros k. rewrite elem_of_seqZ. split.
      * intros Hk%Hks. lia.
      * intros Hk. specialize (Hall k ltac:(lia)). rewrite Hd, mask_new_none, orb_false_r in Hall by lia.
        by apply bool_decide_eq_true in Hall.
    + intros Hp k Hk. rewrite Hd by done. apply orb_true_iff. left. apply bool_decide_eq_true.
      rewrite Hp. apply elem_of_seqZ. lia.
  - destruct Hspec as [-> Hno]. split; [done|]. intros [Hnd Hks]. apply Hno. split; [done|].
    intros k Hk. split; [by apply Hks|]. apply mask_new_none.
Qed.

(** * Witnesses *)

#[local] Existing Instances sorted_pq sorted_pq_laws.

Lemma validation_exact_witness :
  aws_s3_meta_request_validate_parts_delivered_synced
    (match mark_all (mask_new 11) [3; 11; 1; 2; 10; 4; 5; 9; 6; 7; 8] with Success m => m | Failure _ => mask_new 1 end)
    = Success tt.
Proof.
  pose proof (validation_exact 11 [3; 11; 1; 2; 10; 4; 5; 9; 6; 7; 8] ltac:(lia)) as Hv.
  destruct (mark_all (mask_new 11) [3; 11; 1; 2; 10; 4; 5; 9; 6; 7; 8]) as [m|e] eqn:Hm;
    [|vm_compute in Hm; discriminate Hm].
  destruct Hv as (_ & _ & Hv). apply Hv.
  change (seqZ 1 11) with [1; 2; 3; 4; 5; 6; 7; 8; 9; 10; 11]. solve_Permutation.
Defined.

(** Four parts of 100 bytes; parts 3, 1 and 4 have arrived. *)
Definition demo_part (k : Z) : delivery_tracking_record := mkTrack k (100 * (k - 1)) (100 * k - 1) 100.
Definition demo_prefix : delivered_prefix :=
  match record_all prefix_init (demo_part <$> [3; 1; 4]) with Success p => p | Failure _ => prefix_init end.

Lemma prefix_any_order_witness : num_bytes_delivered demo_prefix = 100 ∧ ∃ k,
  k + 1 ∉ [3; 1; 4] ∧ num_bytes_delivered demo_prefix = zsum (λ j, track_bytes (demo_part j)) (seqZ 1 k).
Proof.
  split; [vm_compute; reflexivity|].
  assert (match record_all prefix_init (demo_part <$> [3; 1; 4]) with
    | Success p => ∃ k, (∀ j, 1 ≤ j ≤ k → j ∈ [3; 1; 4]) ∧ k + 1 ∉ [3; 1; 4] ∧
        next_contiguous_delivered_part p = k + 1 ∧
        num_bytes_delivered p = zsum (λ j, track_bytes (demo_part j)) (seqZ 1 k) ∧
        num_bytes_delivered_total p = zsum (λ j, track_bytes (demo_part j)) [3; 1; 4]
    | Failure e => e = AWS_ERROR_OOM end) as Hp.
  { apply (prefix_any_order 4 demo_part).
    - lia.
    - intros k. reflexivity.
    - intros k Hk. simpl. lia.
    - intros k Hk. simpl. lia.
    - intros k Hk. simpl. lia.
    - vm_compute. reflexivity.
    - apply (bool_decide_unpack _). vm_compute. reflexivity.
    - intros j Hj. repeat (apply elem_of_cons in Hj as [->|Hj]; [lia|]). by apply elem_of_nil in Hj. }
  unfold demo_prefix. destruct (record_all prefix_init (demo_part <$> [3; 1; 4])) as [p|e] eqn:Hr;
    [|vm_compute in Hr; discriminate Hr].
  destruct Hp as (k & _ & Hk & _ & Hb & _). exists k. split; [exact Hk|exact Hb].
Defined.
