(* ===== verification/Delivery.v ===== *)
(** Delivering the parts of a download to their sink (source/s3_meta_request.c): the
    queue that puts received parts in order, the event delivery task with its
    flow-control window, the write workers of out-of-order delivery to a file, and
    the operations other threads run meanwhile.

    A critical section of the meta request's mutex is one operation.  The event
    delivery task is cut at its critical sections: [task_begin] is the first one,
    [task_event] handles one event on the io thread, and [task_end] is the last one;
    operations of other threads may come in between. *)

From Stdlib Require Import Init.Byte.
From S2P Require Import Prelude AwsCommon ByteCursor PriorityQueue Tracking.

(** * Data *)

(** The part of [struct aws_s3_request] that delivery uses. *)
Record s3_request := mkRequest {
  part_number : Z;
  part_range_start : Z;
  part_range_end : Z;
  response_body : list byte;
}.

(** [struct aws_s3_meta_request_event] *)
Inductive meta_request_event :=
| EVENT_RESPONSE_BODY (completed_request : s3_request) (bytes_delivered : Z)
| EVENT_PROGRESS (bytes_transferred : Z)
| EVENT_TELEMETRY.

(** Where bodies go: the caller's buffer, which the body was received into, a file
    with [recv_file_base_offset] and the origin of the requested range, or a body
    callback. *)
Inductive recv_sink :=
| RecvBuffer
| RecvFile (recv_file_base_offset requested_range_start : Z) (requested_range_start_resolved : bool)
| RecvCallback.

(** The immutable part of the meta request. *)
Record delivery_config := mkDelivery {
  out_of_order_delivery : bool;
  enable_read_backpressure : bool;
  has_body_callback : bool;
  is_get_object : bool;
  has_telemetry_callback : bool;
  (** a running whole-object checksum that is not combinable *)
  feeds_running_checksum : bool;
  sink : recv_sink;
}.

#[export] Instance delivery_config_eta : Eta delivery_config := λ c,
  mkDelivery (out_of_order_delivery c) (enable_read_backpressure c) (has_body_callback c) (is_get_object c)
    (has_telemetry_callback c) (feeds_running_checksum c) (sink c).

(** The locals of a running event delivery task. *)
Record delivery_task := mkTask {
  incomplete_deliver_events : list meta_request_event;
  error_code : option aws_error;
  num_parts_delivered : Z;
  task_bytes_delivered : Z;
  bytes_allowed_to_deliver : Z;
  completed_deliveries : list delivery_tracking_record;
}.
#[export] Instance delivery_task_eta : Eta delivery_task := λ t,
  mkTask (incomplete_deliver_events t) (error_code t) (num_parts_delivered t)
    (task_bytes_delivered t) (bytes_allowed_to_deliver t) (completed_deliveries t).


Section delivery.
Context {Q1 : AwsPriorityQueue s3_request part_number}.
Context {Q2 : AwsPriorityQueue delivery_tracking_record track_part_number}.

(** [synced_data] and [io_threaded_data], as far as delivery goes.  [finish_result]
    is unset, success, or an error.  [running_sum] is what the running checksum has
    been fed, [sunk] what the sink has accepted, at which byte of the object, and
    [file_writes] at which offset of the file; [streamed] are the parts handed to
    delivery.  [pending_writes] are the scheduled write tasks, and [finished_writes]
    those that wait for their critical section, with the error of the write.
    [io_event_delivery_array] holds the events the running task has not handled. *)
Record delivery := mkState {
  pending_body_streaming_requests : pq s3_request part_number;
  read_window_running_total : Z;
  next_streaming_part : Z;
  num_parts_delivery_sent : Z;
  num_parts_delivery_completed : Z;
  mask : delivered_mask;
  prefix : delivered_prefix;
  event_delivery_array : list meta_request_event;
  event_delivery_task_scheduled : bool;
  event_delivery_active : bool;
  finish_result : option (option aws_error);
  io_event_delivery_array : list meta_request_event;
  next_deliver_range_start : Z;
  num_bytes_delivery_completed : Z;
  running_sum : list byte;
  task : option delivery_task;
  sunk : list (Z * list byte);
  file_writes : list (Z * list byte);
  streamed : list s3_request;
  pending_writes : list s3_request;
  finished_writes : list (s3_request * option aws_error);
}.
#[export] Instance delivery_eta : Eta delivery := λ d,
  mkState (pending_body_streaming_requests d) (read_window_running_total d) (next_streaming_part d)
    (num_parts_delivery_sent d) (num_parts_delivery_completed d) (mask d) (prefix d)
    (event_delivery_array d) (event_delivery_task_scheduled d) (event_delivery_active d) (finish_result d)
    (io_event_delivery_array d) (next_deliver_range_start d) (num_bytes_delivery_completed d) (running_sum d) (task d)
    (sunk d) (file_writes d) (streamed d) (pending_writes d) (finished_writes d).

(** As [aws_s3_meta_request_init_base] leaves it, with the mask [m] the download
    allocates once it knows its parts. *)
Definition delivery_init (initial_read_window : Z) (m : delivered_mask) : delivery :=
  mkState pq_empty initial_read_window 1 0 0 m prefix_init [] false false None
    [] 0 0 [] None [] [] [] [] [].

(** * Results *)

Definition aws_s3_meta_request_set_fail_synced (d : delivery) (e : aws_error) : delivery :=
  match finish_result d with
  | Some _ => d
  | None => d <| finish_result := Some (Some e) |>
  end.

Definition aws_s3_meta_request_set_success_synced (d : delivery) : delivery :=
  match finish_result d with
  | Some _ => d
  | None => d <| finish_result := Some None |>
  end.

(** The critical section of [aws_s3_meta_request_cancel], without the http streams and
    buffer reservations it cancels. *)
Definition aws_s3_meta_request_cancel (d : delivery) : delivery :=
  aws_s3_meta_request_set_fail_synced d AWS_ERROR_S3_CANCELED.

(** * Queueing events *)

Definition aws_s3_meta_request_add_event_for_delivery_synced (d : delivery) (event : option meta_request_event)
    : delivery :=
  let d := match event with
           | Some ev => d <| event_delivery_array ::= λ l, l ++ [ev] |>
           | None => d
           end in
  if negb (event_delivery_task_scheduled d) && (0 <? length (event_delivery_array d))%nat
  then d <| event_delivery_task_scheduled := true |> else d.

Definition aws_s3_meta_request_are_events_out_for_delivery_synced (d : delivery) : bool :=
  (0 <? length (event_delivery_array d))%nat || event_delivery_active d.

Definition s_s3_meta_request_body_streaming_push_synced (d : delivery) (r : s3_request) : delivery :=
  match aws_priority_queue_push (pending_body_streaming_requests d) r with
  | Some q => d <| pending_body_streaming_requests := q |>
  | None => d
  end.

Definition s_s3_meta_request_body_streaming_pop_next_synced (d : delivery) : option (s3_request * delivery) :=
  top ← aws_priority_queue_top (pending_body_streaming_requests d);
  if negb (part_number top =? next_streaming_part d) then None
  else
    '(r, q) ← aws_priority_queue_pop (pending_body_streaming_requests d);
    Some (r, d <| pending_body_streaming_requests := q |> <| next_streaming_part ::= λ x, x +[32] 1 |>).

(** The loop that sends the parts that are next in order; [fuel] bounds the parts in
    the queue. *)
Fixpoint stream_ready (fuel : nat) (d : delivery) : delivery :=
  match fuel, s_s3_meta_request_body_streaming_pop_next_synced d with
  | S fuel, Some (r, d) =>
      let d := aws_s3_meta_request_add_event_for_delivery_synced d (Some (EVENT_RESPONSE_BODY r 0)) in
      stream_ready fuel (d <| num_parts_delivery_sent ::= λ x, x +[32] 1 |> <| streamed ::= λ l, l ++ [r] |>)
  | _, _ => d
  end.

Definition is_recv_file (s : recv_sink) : bool := match s with RecvFile _ _ _ => true | _ => false end.

Definition aws_s3_meta_request_stream_response_body_synced (c : delivery_config) (d : delivery) (r : s3_request)
    : delivery :=
  if out_of_order_delivery c then
    let d := d <| num_parts_delivery_sent ::= λ x, x +[32] 1 |> <| streamed ::= λ l, l ++ [r] |> in
    if is_recv_file (sink c) then d <| pending_writes ::= λ l, l ++ [r] |>
    else aws_s3_meta_request_add_event_for_delivery_synced d (Some (EVENT_RESPONSE_BODY r 0))
  else
    let d := s_s3_meta_request_body_streaming_push_synced d r in
    stream_ready (length (pq_elems (pending_body_streaming_requests d))) d.

(** * The flow-control window *)

Context `{!AwsMath}.

Definition aws_s3_meta_request_increment_read_window (c : delivery_config) (d : delivery) (bytes : Z) : delivery :=
  if (bytes =? 0) || negb (enable_read_backpressure c) then d
  else
    aws_s3_meta_request_add_event_for_delivery_synced
      (d <| read_window_running_total ::= λ total, aws_add_u64_saturating bytes total |>) None.

Definition s_should_apply_backpressure (c : delivery_config) : bool :=
  enable_read_backpressure c && has_body_callback c && is_get_object c.

(** * Sinks *)

Definition s_s3_recv_file_offset (base origin : Z) (resolved : bool) (object_range_start : Z) : result aws_error Z :=
  if negb resolved then Failure AWS_ERROR_INVALID_STATE
  else
    match aws_sub_u64_checked object_range_start origin with
    | None => Failure AWS_ERROR_INVALID_STATE
    | Some offset_from_base =>
        match aws_add_u64_checked base offset_from_base with
        | None => Failure AWS_ERROR_OVERFLOW_DETECTED
        | Some offset => Success offset
        end
    end.

(** What the caller's body callback, or the write to the file, answers: [None] for
    success.  It may depend on everything delivered before. *)
Context (accept : list (Z * list byte) → Z → list byte → option aws_error).

(** The bytes reach the sink, and the window opens for them when the caller has no
    callback to open it from. *)
Definition sink_accepted (d : delivery) (start : Z) (body : list byte) : delivery :=
  d <| sunk ::= λ l, l ++ [(start, body)] |>.

Definition open_window (c : delivery_config) (d : delivery) (body : list byte) : delivery :=
  if enable_read_backpressure c
  then aws_s3_meta_request_increment_read_window c d (Z.of_nat (length body)) else d.

Definition deliver_body_to_file (c : delivery_config) (base origin : Z) (resolved : bool)
    (d : delivery) (body : list byte) (delivery_range_start : Z) : option aws_error * delivery :=
  match s_s3_recv_file_offset base origin resolved delivery_range_start with
  | Failure e => (Some e, d)
  | Success file_offset =>
      match accept (sunk d) file_offset body with
      | Some e => (Some e, d)
      | None =>
          (None, open_window c
            (sink_accepted d delivery_range_start body <| file_writes ::= λ l, l ++ [(file_offset, body)] |>) body)
      end
  end.

Definition s_deliver_body_to_sink (c : delivery_config) (d : delivery) (body : list byte) (delivery_range_start : Z)
    : option aws_error * delivery :=
  match sink c with
  | RecvBuffer => (None, open_window c (sink_accepted d delivery_range_start body) body)
  | RecvFile base origin resolved => deliver_body_to_file c base origin resolved d body delivery_range_start
  | RecvCallback =>
      match accept (sunk d) delivery_range_start body with
      | Some e => (Some e, d)
      | None => (None, sink_accepted d delivery_range_start body)
      end
  end.

(** What updating the running checksum answers, after the bytes fed to it so far. *)
Context (checksum_update : list byte → list byte → option aws_error).

(** * The event delivery task *)

(** Up to the end of the first critical section. *)
Definition task_begin (d : delivery) : res delivery :=
  _ ← assert_fatal (bool_decide (io_event_delivery_array d = []));
  let t := mkTask []
    (match finish_result d with Some _ => Some AWS_ERROR_S3_CANCELED | None => None end)
    0 0 (Z.min (read_window_running_total d -[64] num_bytes_delivery_completed d) SIZE_MAX) [] in
  Ok (d <| io_event_delivery_array := event_delivery_array d |> <| event_delivery_array := [] |>
        <| event_delivery_active := true |> <| event_delivery_task_scheduled := false |> <| task := Some t |>).

Definition body_len (body : list byte) : Z := Z.of_nat (length body).

(** The record of a part that is entirely delivered. *)
Definition completed_record (r : s3_request) (bytes : Z) : delivery_tracking_record :=
  mkTrack (part_number r) (part_range_start r) (part_range_end r) bytes.

Definition part_delivered (t : delivery_task) (r : s3_request) (bytes : Z) : delivery_task :=
  let t := t <| num_parts_delivered ::= λ x, x +[32] 1 |> in
  match error_code t with
  | None => t <| completed_deliveries ::= λ l, l ++ [completed_record r bytes] |>
  | Some _ => t
  end.

(** Step 2 of a response body: what the window lets through, the window left, and
    whether the body is cut short. *)
Definition apply_backpressure (c : delivery_config) (body : list byte) (bytes_delivered allowed : Z)
    : res (list byte * Z * bool) :=
  if s_should_apply_backpressure c then
    let body := aws_byte_cursor_advance body bytes_delivered in
    let delivery_incomplete := allowed <? body_len body in
    let body := if delivery_incomplete then take (Z.to_nat allowed) body else body in
    Ok (body, allowed -[64] body_len body, delivery_incomplete)
  else
    _ ← assert_fatal (bytes_delivered =? 0);
    Ok (body, allowed, false).

(** Step 3: the check that ordered delivery is contiguous; the error of the task and
    where the next body has to start. *)
Definition check_sequential (c : delivery_config) (r : s3_request) (delivery_range_start len next : Z)
    (e : option aws_error) : option aws_error * Z :=
  if out_of_order_delivery c then (e, next)
  else
    let next := if part_number r =? 1 then delivery_range_start else next in
    (if negb (delivery_range_start =? next) then Some AWS_ERROR_INVALID_STATE else e, next +[64] len).

(** Step 4. *)
Definition feed_checksum (c : delivery_config) (sum body : list byte) (e : option aws_error)
    : option aws_error * list byte :=
  match e with
  | None =>
      if feeds_running_checksum c then
        match checksum_update sum body with
        | Some e => (Some e, sum)
        | None => (None, sum ++ body)
        end
      else (None, sum)
  | Some e => (Some e, sum)
  end.

(** Step 5. *)
Definition deliver_unless_failed (c : delivery_config) (d : delivery) (body : list byte) (start : Z)
    (e : option aws_error) : option aws_error * delivery :=
  match e with
  | None => s_deliver_body_to_sink c d body start
  | Some _ => (e, d)
  end.

(** Steps 3 to 6, for a body with bytes to deliver. *)
Definition deliver_body (c : delivery_config) (d : delivery) (t : delivery_task) (r : s3_request)
    (bytes_delivered : Z) (body : list byte) (delivery_incomplete : bool) : delivery * delivery_task :=
  let start := part_range_start r +[64] bytes_delivered in
  let '(e, next) := check_sequential c r start (body_len body) (next_deliver_range_start d) (error_code t) in
  let d := d <| next_deliver_range_start := next |> in
  let '(e, sum) := feed_checksum c (running_sum d) body e in
  let d := d <| running_sum := sum |> in
  let '(e, d) := deliver_unless_failed c d body start e in
  let bytes_delivered := bytes_delivered +[64] body_len body in
  let d := d <| num_bytes_delivery_completed ::= λ x, x +[64] body_len body |> in
  let t := t <| error_code := e |> in
  match e with
  | None =>
      let t := t <| task_bytes_delivered ::= λ x, x +[64] body_len body |> in
      if delivery_incomplete
      then (d, t <| incomplete_deliver_events ::= λ l, EVENT_RESPONSE_BODY r bytes_delivered :: l |>)
      else (d, part_delivered t r bytes_delivered)
  | Some _ => (d, part_delivered t r bytes_delivered)
  end.

(** One event of the loop. *)
Definition handle_event (c : delivery_config) (d : delivery) (t : delivery_task) (ev : meta_request_event)
    : res (delivery * delivery_task) :=
  match ev with
  | EVENT_RESPONSE_BODY r bytes_delivered =>
      if bool_decide (response_body r = []) then Ok (d, part_delivered t r 0)
      else
        '(body, allowed, delivery_incomplete) ←
          apply_backpressure c (response_body r) bytes_delivered (bytes_allowed_to_deliver t);
        let t := t <| bytes_allowed_to_deliver := allowed |> in
        if bool_decide (body = []) then Ok (d, t <| incomplete_deliver_events ::= λ l, ev :: l |>)
        else Ok (deliver_body c d t r bytes_delivered body delivery_incomplete)
  | EVENT_PROGRESS _ => Ok (d, t)
  | EVENT_TELEMETRY => _ ← assert_fatal (has_telemetry_callback c); Ok (d, t)
  end.

Definition task_event (c : delivery_config) (d : delivery) : res delivery :=
  match task d, io_event_delivery_array d with
  | Some t, ev :: evs =>
      '(d, t) ← handle_event c (d <| io_event_delivery_array := evs |>) t ev;
      Ok (d <| task := Some t |>)
  | _, _ => Ok d
  end.

(** A mark in the mask that fails the meta request when the mask rejects it. *)
Definition mark_or_fail (d : delivery) (part : Z) : delivery :=
  match s_mark_part_delivered (mask d) part with
  | Success m => d <| mask := m |>
  | Failure e => aws_s3_meta_request_set_fail_synced d e
  end.

(** The loop over the parts the task delivered. *)
Fixpoint record_completed (c : delivery_config) (d : delivery) (l : list delivery_tracking_record) : delivery :=
  match l with
  | [] => d
  | completed :: l =>
      let d := mark_or_fail d (track_part_number completed) in
      if out_of_order_delivery c then
        match s_s3_meta_request_record_delivered_part_synced (prefix d) completed with
        | Success p => record_completed c (d <| prefix := p |>) l
        | Failure e => aws_s3_meta_request_set_fail_synced d e
        end
      else record_completed c d l
  end.

(** Events of [incomplete_deliver_events] go back to the front of the queue, one by
    one. *)
Definition requeue_incomplete (d : delivery) (t : delivery_task) : res delivery :=
  match incomplete_deliver_events t with
  | [] => Ok d
  | _ :: _ =>
      _ ← assert_fatal (bytes_allowed_to_deliver t =? 0);
      let d := d <| event_delivery_array ::= λ l, foldl (λ l ev, ev :: l) l (incomplete_deliver_events t) |> in
      let bytes_allowed := read_window_running_total d -[64] num_bytes_delivery_completed d in
      Ok (if (0 <? bytes_allowed) && bool_decide (error_code t = None)
          then aws_s3_meta_request_add_event_for_delivery_synced d None else d)
  end.

(** The last critical section. *)
Definition task_end (c : delivery_config) (d : delivery) : res delivery :=
  match task d with
  | Some t =>
      let d := d <| io_event_delivery_array := [] |> in
      let d := match error_code t with
               | Some e => aws_s3_meta_request_set_fail_synced d e
               | None => d
               end in
      d ← requeue_incomplete d t;
      let d := d <| num_parts_delivery_completed ::= λ x, x +[32] num_parts_delivered t |> in
      let d := record_completed c d (completed_deliveries t) in
      let d := if out_of_order_delivery c then d
               else d <| prefix ::= λ p, p <| num_bytes_delivered ::= λ x, x +[64] task_bytes_delivered t |>
                                           <| num_bytes_delivered_total ::= λ x, x +[64] task_bytes_delivered t |> |> in
      Ok (d <| event_delivery_active := false |> <| task := None |>)
  | None => Ok d
  end.

(** * Write workers *)

(** [s_s3_body_write_task], up to its critical section, for a pending write [r];
    [run_ready] is the status of the task.  Write tasks are made for files only. *)
Definition body_write_run (c : delivery_config) (d : delivery) (r : s3_request) (run_ready : bool) : delivery :=
  let '(e, d) :=
    match sink c, run_ready with
    | RecvFile base origin resolved, true =>
        deliver_body_to_file c base origin resolved d (response_body r) (part_range_start r)
    | _, _ => (Some AWS_ERROR_S3_CANCELED, d)
    end in
  d <| finished_writes ::= λ l, l ++ [(r, e)] |>.

(** Its critical section.  A request carries metrics whenever there is a telemetry
    callback to give them to. *)
Definition body_write_complete (c : delivery_config) (d : delivery) (r : s3_request) (e : option aws_error) : delivery :=
  let d := d <| num_parts_delivery_completed ::= λ x, x +[32] 1 |> in
  let d :=
    match e with
    | None =>
        let d := mark_or_fail d (part_number r) in
        match s_s3_meta_request_record_delivered_part_synced (prefix d)
                (completed_record r (body_len (response_body r))) with
        | Success p => d <| prefix := p |>
        | Failure e => aws_s3_meta_request_set_fail_synced d e
        end
    | Some e => aws_s3_meta_request_set_fail_synced d e
    end in
  if has_telemetry_callback c
  then aws_s3_meta_request_add_event_for_delivery_synced d (Some EVENT_TELEMETRY) else d.
End delivery.
