(* ===== verification/DeliveryInv.v ===== *)
(** Ordered delivery as a transition system over the operations of the meta request's
    threads, and what every reachable state satisfies. *)

From Stdlib Require Import Init.Byte Sorted.
From S2P Require Import Prelude AwsCommon ByteCursor PriorityQueue Tracking Delivery.

(** * The events that wait for delivery *)

Definition ev_body (ev : meta_request_event) : option (s3_request * Z) :=
  match ev with
  | EVENT_RESPONSE_BODY r k => Some (r, k)
  | _ => None
  end.

Definition bodies (l : list meta_request_event) : list (s3_request * Z) := omap ev_body l.

(** What is left of a body that has been delivered up to byte [p.2]. *)
Definition rest (p : s3_request * Z) : list byte := drop (Z.to_nat p.2) (response_body p.1).

Lemma bodies_app l k : bodies (l ++ k) = bodies l ++ bodies k.
Proof. apply omap_app. Qed.

Lemma foldl_push_front {A} (k l : list A) : foldl (λ l x, x :: l) l k = reverse k ++ l.
Proof.
  revert l. induction k as [|x k IH]; intros l; simpl; [done|]. rewrite IH, reverse_cons, <-app_assoc. done.
Qed.

(** The chunks of a list, each with its offset, lie end to end. *)
Fixpoint contiguous (l : list (Z * list byte)) : Prop :=
  match l with
  | (s, b) :: (((s', _) :: _) as l') => s' = s + body_len b ∧ contiguous l'
  | _ => True
  end.

Lemma contiguous_snoc l s b :
  contiguous l → (∀ s' b', list.last l = Some (s', b') → s = s' + body_len b') → contiguous (l ++ [(s, b)]).
Proof.
  induction l as [|[s1 b1] l IH]; simpl; [done|]. destruct l as [|[s2 b2] l].
  - simpl. intros _ Hs. split; [|done]. by apply Hs.
  - intros [Hs2 Hl] Hlast. split; [done|]. apply IH; [done|]. intros s' b' Hl'. by apply Hlast.
Qed.

Section steps.
Context `{Q1 : !AwsPriorityQueue s3_request part_number}.
Context `{Q2 : !AwsPriorityQueue delivery_tracking_record track_part_number}.
Context `{M : !AwsMath}.
Context (accept : list (Z * list byte) → Z → list byte → option aws_error).
Context (checksum_update : list byte → list byte → option aws_error).
Context (c : delivery_config) (n : Z).

(** A part of a download of [n] parts; its range lies in the address space of the
    object and its body is no longer than memory. *)
Record request_ok (r : s3_request) : Prop := {
  request_part : 1 ≤ part_number r ≤ n;
  request_start : 0 ≤ part_range_start r;
  request_end : part_range_start r + body_len (response_body r) < 2 ^ 64;
}.

(** The critical sections and io-thread steps of a download, apart from the arrival of
    parts and of success.  The event delivery task runs when it is scheduled, one at a
    time, and ends when it has handled its events. *)
Inductive io_step (d : delivery) : delivery → Prop :=
| step_window bytes : uint 64 bytes → io_step d (aws_s3_meta_request_increment_read_window c d bytes)
| step_fail e : io_step d (aws_s3_meta_request_set_fail_synced d e)
| step_progress bytes :
    io_step d (aws_s3_meta_request_add_event_for_delivery_synced d (Some (EVENT_PROGRESS bytes)))
| step_telemetry : has_telemetry_callback c = true →
    io_step d (aws_s3_meta_request_add_event_for_delivery_synced d (Some EVENT_TELEMETRY))
| step_begin d' : event_delivery_task_scheduled d = true → task d = None →
    task_begin d = Ok d' → io_step d d'
| step_event d' : task d ≠ None → io_event_delivery_array d ≠ [] →
    task_event accept checksum_update c d = Ok d' → io_step d d'
| step_end d' : task d ≠ None → io_event_delivery_array d = [] →
    task_end c d = Ok d' → io_step d d'.

(** The steps of a download.  A part is received once. *)
Inductive step (d : delivery) : delivery → Prop :=
| step_stream r : request_ok r →
    part_number r ∉ part_number <$> streamed d →
    part_number r ∉ part_number <$> pq_elems (pending_body_streaming_requests d) →
    step d (aws_s3_meta_request_stream_response_body_synced c d r)
| step_success : step d (aws_s3_meta_request_set_success_synced d)
| step_io d' : io_step d d' → step d d'.

(** The events not delivered yet, first one first: those the running task puts
    back, those it has not handled, and those queued since. *)
Definition undelivered (d : delivery) : list meta_request_event :=
  match task d with Some t => reverse (incomplete_deliver_events t) | None => [] end
  ++ io_event_delivery_array d ++ event_delivery_array d.

Definition sunk_bytes (d : delivery) : list byte := concat (sunk d).*2.
Definition streamed_bytes (d : delivery) : list byte := concat (response_body <$> streamed d).

(** No part was given up so far: the task, if it runs, has no error, and otherwise
    the next one will have none. *)
Definition clean (d : delivery) : Prop :=
  match task d with Some t => error_code t = None | None => finish_result d = None end.

Definition throttled : bool := s_should_apply_backpressure c.

Record event_ok (p : s3_request * Z) : Prop := {
  event_request : request_ok p.1;
  event_bytes : (response_body p.1 = [] ∧ p.2 = 0) ∨ 0 ≤ p.2 < body_len (response_body p.1);
  event_partial : p.2 ≠ 0 → throttled = true;
}.

(** * Handling one event *)

(** What handling the event [ev] does, by case. *)
Inductive event_result (d : delivery) (t : delivery_task) (ev : meta_request_event) : delivery → delivery_task → Prop :=
| ev_other : ev_body ev = None → event_result d t ev d t
| ev_empty r : ev = EVENT_RESPONSE_BODY r 0 → response_body r = [] →
    event_result d t ev d (part_delivered t r 0)
| ev_blocked r k : ev = EVENT_RESPONSE_BODY r k → response_body r ≠ [] → throttled = true →
    bytes_allowed_to_deliver t = 0 →
    event_result d t ev d (t <| incomplete_deliver_events ::= λ l, ev :: l |>)
| ev_failed r k m next sum e allowed : ev = EVENT_RESPONSE_BODY r k →
    0 < m ≤ body_len (response_body r) - k →
    (throttled = true → m ≤ bytes_allowed_to_deliver t ∧ allowed = bytes_allowed_to_deliver t - m) →
    event_result d t ev
      (d <| next_deliver_range_start := next |> <| running_sum := sum |>
         <| num_bytes_delivery_completed ::= λ x, x +[64] m |>)
      (t <| bytes_allowed_to_deliver := allowed |> <| error_code := Some e |>
         <| num_parts_delivered ::= λ x, x +[32] 1 |>)
| ev_delivered r k body files window scheduled allowed t' :
    let m := body_len body in
    let start := part_range_start r + k in
    ev = EVENT_RESPONSE_BODY r k →
    0 < m ≤ body_len (response_body r) - k →
    body = take (Z.to_nat m) (rest (r, k)) →
    (throttled = true → m ≤ bytes_allowed_to_deliver t ∧ allowed = bytes_allowed_to_deliver t - m) →
    (throttled = false → k = 0 ∧ m = body_len (response_body r)) →
    error_code t = None →
    (part_number r ≠ 1 → start = next_deliver_range_start d) →
    read_window_running_total d ≤ window ≤ U64_MAX →
    (event_delivery_task_scheduled d = true → scheduled = true) →
    (event_delivery_array d ≠ [] → window ≠ read_window_running_total d → scheduled = true) →
    (event_delivery_array d = [] → scheduled = event_delivery_task_scheduled d) →
    files = match sink c with
            | RecvFile base origin _ => [(base + (start - origin), body)]
            | _ => []
            end →
    (∀ base origin resolved, sink c = RecvFile base origin resolved →
      origin ≤ start ∧ base + (start - origin) ≤ U64_MAX) →
    (k + m < body_len (response_body r) ∧ throttled = true ∧ allowed = 0 ∧
       t' = t <| bytes_allowed_to_deliver := allowed |> <| task_bytes_delivered ::= λ x, x +[64] m |>
              <| incomplete_deliver_events ::= λ l, EVENT_RESPONSE_BODY r (k + m) :: l |>
     ∨ k + m = body_len (response_body r) ∧
       t' = t <| bytes_allowed_to_deliver := allowed |> <| task_bytes_delivered ::= λ x, x +[64] m |>
              <| num_parts_delivered ::= λ x, x +[32] 1 |>
              <| completed_deliveries ::= λ l, l ++ [completed_record r (k + m)] |>) →
    event_result d t ev
      (d <| next_deliver_range_start := start + m |>
         <| running_sum := if feeds_running_checksum c then running_sum d ++ body else running_sum d |>
         <| sunk := sunk d ++ [(start, body)] |> <| file_writes := file_writes d ++ files |>
         <| read_window_running_total := window |> <| event_delivery_task_scheduled := scheduled |>
         <| num_bytes_delivery_completed ::= λ x, x +[64] m |>)
      t'.

Context `{!AwsMathLaws M}.

Lemma body_len_nonneg b : 0 ≤ body_len b.
Proof. unfold body_len. lia. Qed.

Lemma body_len_nil b : body_len b = 0 ↔ b = [].
Proof. unfold body_len. destruct b; simpl; split; intros; first [done | lia]. Qed.

Lemma body_len_take k b : 0 ≤ k ≤ body_len b → body_len (take (Z.to_nat k) b) = k.
Proof. unfold body_len. intros. rewrite length_take. lia. Qed.

Lemma rest_len r k : 0 ≤ k ≤ body_len (response_body r) → body_len (rest (r, k)) = body_len (response_body r) - k.
Proof. unfold rest, body_len. simpl. intros. rewrite length_drop. lia. Qed.

Lemma event_in_range r k : event_ok (r, k) → 0 ≤ k ≤ body_len (response_body r).
Proof. intros [_ Hb _]; simpl in Hb. destruct Hb as [[-> ->]|?]; [unfold body_len; simpl|]; lia. Qed.

Lemma apply_backpressure_spec r k allowed : event_ok (r, k) → response_body r ≠ [] →
  (throttled = true → uint 64 allowed) →
  ∃ m allowed' incomplete,
    apply_backpressure c (response_body r) k allowed =
      Ok (take (Z.to_nat m) (rest (r, k)), allowed', incomplete) ∧
    0 ≤ m ≤ body_len (response_body r) - k ∧
    (throttled = true → m ≤ allowed ∧ allowed' = allowed - m) ∧
    (throttled = false → k = 0 ∧ m = body_len (response_body r)) ∧
    (m = 0 → throttled = true ∧ allowed = 0 ∧ allowed' = 0) ∧
    (if (incomplete : bool) then k + m < body_len (response_body r) ∧ throttled = true ∧ allowed' = 0
     else k + m = body_len (response_body r)).
Proof.
  intros Hev Hbody Hallowed. pose proof (event_in_range _ _ Hev) as Hk.
  destruct Hev as [Hr Hbytes Hpartial]; simpl in *.
  destruct Hbytes as [[? _]|Hk']; [done|]. pose proof (rest_len r k Hk) as Hrest.
  pose proof (request_start _ Hr). pose proof (request_end _ Hr).
  unfold apply_backpressure. fold throttled. destruct throttled eqn:Hth.
  - unfold aws_byte_cursor_advance. fold (body_len (response_body r)).
    destruct (Z.leb_spec k (body_len (response_body r))); [|lia].
    change (drop (Z.to_nat k) (response_body r)) with (rest (r, k)).
    specialize (Hallowed eq_refl). unfold uint in *. destruct (Z.ltb_spec allowed (body_len (rest (r, k)))).
    + exists allowed, 0, true. rewrite body_len_take by lia.
      rewrite Z.sub_diag, wrap_0. split_and!; try done; lia.
    + exists (body_len (rest (r, k))), (allowed - body_len (rest (r, k))), false.
      rewrite wrap_small by (unfold uint; lia). rewrite take_ge by (unfold body_len; lia).
      split_and!; try done; lia.
  - assert (k = 0) as -> by (destruct (decide (k = 0)); [done|naive_solver]). simpl.
    exists (body_len (response_body r)), allowed, false. unfold rest; simpl.
    rewrite drop_0, take_ge by (unfold body_len; lia). split_and!; try done; lia.
Qed.

Lemma add_event_None d : aws_s3_meta_request_add_event_for_delivery_synced d None =
  d <| event_delivery_task_scheduled :=
         event_delivery_task_scheduled d || bool_decide (event_delivery_array d ≠ []) |>.
Proof.
  unfold aws_s3_meta_request_add_event_for_delivery_synced. destruct d as [??????? evs sched]; simpl.
  destruct sched; [done|]. simpl. by destruct evs.
Qed.

Lemma add_event_Some d ev : aws_s3_meta_request_add_event_for_delivery_synced d (Some ev) =
  d <| event_delivery_array := event_delivery_array d ++ [ev] |> <| event_delivery_task_scheduled := true |>.
Proof.
  unfold aws_s3_meta_request_add_event_for_delivery_synced. destruct d as [??????? evs sched]; simpl.
  destruct sched; [done|]. simpl. by destruct evs.
Qed.

Lemma increment_read_window_spec d bytes : uint 64 bytes → uint 64 (read_window_running_total d) →
  ∃ window scheduled,
    aws_s3_meta_request_increment_read_window c d bytes =
      d <| read_window_running_total := window |> <| event_delivery_task_scheduled := scheduled |> ∧
    read_window_running_total d ≤ window ≤ U64_MAX ∧
    (event_delivery_task_scheduled d = true → scheduled = true) ∧
    (event_delivery_array d ≠ [] → window ≠ read_window_running_total d → scheduled = true) ∧
    (event_delivery_array d = [] → scheduled = event_delivery_task_scheduled d).
Proof.
  intros Hbytes Hw. unfold aws_s3_meta_request_increment_read_window.
  destruct (_ || _).
  - exists (read_window_running_total d), (event_delivery_task_scheduled d).
    split_and!; [by destruct d|machine..|done|done|done].
  - rewrite add_event_None. eexists _, _. split; [reflexivity|]. simpl.
    rewrite aws_add_u64_saturating_spec by done. machine.
    split_and!; [lia|lia|by intros ->|..].
    + intros Harr _. rewrite bool_decide_true by done. by rewrite orb_true_r.
    + intros ->. rewrite bool_decide_false by naive_solver. by rewrite orb_false_r.
Qed.

Lemma recv_file_offset_success base origin resolved start offset :
  uint 64 base → uint 64 origin → uint 64 start →
  s_s3_recv_file_offset base origin resolved start = Success offset →
  origin ≤ start ∧ offset = base + (start - origin) ∧ offset ≤ U64_MAX.
Proof.
  intros Hb Ho Hs. unfold s_s3_recv_file_offset. destruct resolved; [|done]. simpl.
  rewrite aws_sub_u64_checked_spec by done. case_bool_decide; [|done].
  rewrite aws_add_u64_checked_spec by (done || machine). case_bool_decide; [|done].
  intros [= <-]. lia.
Qed.

Context (Hordered : out_of_order_delivery c = false).
Context (Hsink : ∀ base origin resolved, sink c = RecvFile base origin resolved → uint 64 base ∧ uint 64 origin).

(** What handing a body to the sink does when it succeeds. *)
Lemma deliver_body_to_sink_success d body start d' :
  uint 64 (read_window_running_total d) → uint 64 start → uint 64 (body_len body) →
  s_deliver_body_to_sink accept c d body start = (None, d') →
  ∃ window scheduled,
    d' = d <| sunk := sunk d ++ [(start, body)] |>
           <| file_writes := file_writes d ++
                match sink c with RecvFile base origin _ => [(base + (start - origin), body)] | _ => [] end |>
           <| read_window_running_total := window |> <| event_delivery_task_scheduled := scheduled |> ∧
    read_window_running_total d ≤ window ≤ U64_MAX ∧
    (event_delivery_task_scheduled d = true → scheduled = true) ∧
    (event_delivery_array d ≠ [] → window ≠ read_window_running_total d → scheduled = true) ∧
    (event_delivery_array d = [] → scheduled = event_delivery_task_scheduled d) ∧
    (∀ base origin resolved, sink c = RecvFile base origin resolved →
      origin ≤ start ∧ base + (start - origin) ≤ U64_MAX).
Proof.
  intros Hw Hstart Hlen. unfold s_deliver_body_to_sink.
  assert (∀ d0 : delivery, uint 64 (read_window_running_total d0) → ∃ window scheduled,
    open_window c d0 body =
      d0 <| read_window_running_total := window |> <| event_delivery_task_scheduled := scheduled |> ∧
    read_window_running_total d0 ≤ window ≤ U64_MAX ∧
    (event_delivery_task_scheduled d0 = true → scheduled = true) ∧
    (event_delivery_array d0 ≠ [] → window ≠ read_window_running_total d0 → scheduled = true) ∧
    (event_delivery_array d0 = [] → scheduled = event_delivery_task_scheduled d0)) as Hopen.
  { intros d0 Hd0. unfold open_window. destruct (enable_read_backpressure c).
    - by apply increment_read_window_spec.
    - exists (read_window_running_total d0), (event_delivery_task_scheduled d0).
      split_and!; [by destruct d0|machine..|done|done|done]. }
  destruct (sink c) as [|base origin resolved|] eqn:Hs.
  - intros [= <-]. destruct (Hopen (sink_accepted d start body)) as (w & sch & -> & Hrest); [done|].
    exists w, sch. rewrite app_nil_r. split; [by destruct d|]. naive_solver.
  - unfold deliver_body_to_file.
    destruct (s_s3_recv_file_offset _ _ _ _) as [offset|] eqn:Hoff; [|done].
    destruct (Hsink base origin resolved) as [Hb Ho]; [done|].
    apply recv_file_offset_success in Hoff as (? & -> & ?); [|done..].
    destruct (accept _ _ _); [done|]. intros [= <-].
    match goal with |- context [open_window c ?d0 body] => destruct (Hopen d0) as (w & sch & -> & Hrest) end;
      [done|].
    exists w, sch. split; [by destruct d|]. naive_solver.
  - destruct (accept _ _ _); [done|]. intros [= <-].
    exists (read_window_running_total d), (event_delivery_task_scheduled d).
    rewrite app_nil_r. split_and!; [by destruct d|machine..|done|done|done|done].
Qed.

Lemma deliver_body_to_sink_failure d body start e d' :
  s_deliver_body_to_sink accept c d body start = (Some e, d') → d' = d.
Proof.
  unfold s_deliver_body_to_sink, deliver_body_to_file. repeat case_match; intros; by simplify_eq.
Qed.

(** Handling a body with bytes to deliver. *)
Lemma deliver_body_cases d t r k m allowed incomplete d' t' :
  event_ok (r, k) → uint 64 (read_window_running_total d) →
  0 < m ≤ body_len (response_body r) - k →
  (throttled = true → m ≤ bytes_allowed_to_deliver t ∧ allowed = bytes_allowed_to_deliver t - m) →
  (throttled = false → k = 0 ∧ m = body_len (response_body r)) →
  (if (incomplete : bool) then k + m < body_len (response_body r) ∧ throttled = true ∧ allowed = 0
   else k + m = body_len (response_body r)) →
  deliver_body accept checksum_update c d (t <| bytes_allowed_to_deliver := allowed |>) r k
    (take (Z.to_nat m) (rest (r, k))) incomplete = (d', t') →
  event_result d t (EVENT_RESPONSE_BODY r k) d' t'.
Proof.
  intros Hev Hw Hm Hth Hnth Hinc. pose proof (event_in_range _ _ Hev) as Hk.
  pose proof (request_start _ (event_request _ Hev)). pose proof (request_end _ (event_request _ Hev)). simpl in *.
  set (body := take (Z.to_nat m) (rest (r, k))).
  assert (body_len body = m) as Hlen by (apply body_len_take; rewrite rest_len; lia).
  unfold deliver_body, check_sequential. rewrite Hordered, Hlen. simpl.
  rewrite (wrap_small 64 (part_range_start r + k)), (wrap_small 64 (k + m)) by (unfold uint; lia).
  set (start := part_range_start r + k).
  set (next := if part_number r =? 1 then start else next_deliver_range_start d).
  destruct (if negb _ then _ else _) as [e|] eqn:He; simpl.
  { intros [= <- <-]. unfold part_delivered; simpl. by eapply (ev_failed d t _ r k m). }
  assert (error_code t = None ∧ start = next) as [Ht Hnext].
  { destruct (Z.eqb_spec start next); [done|]. done. }
  unfold feed_checksum. destruct (if feeds_running_checksum c then _ else _) as [[e|] sum] eqn:Hsum; simpl.
  { intros [= <- <-]. unfold part_delivered; simpl. by eapply (ev_failed d t _ r k m). }
  assert (sum = if feeds_running_checksum c then running_sum d ++ body else running_sum d) as ->.
  { destruct (feeds_running_checksum c); [|by simplify_eq]. by destruct (checksum_update _ _); simplify_eq. }
  destruct (s_deliver_body_to_sink _ _ _ _ _) as [[e|] d1] eqn:Hd1.
  { apply deliver_body_to_sink_failure in Hd1 as ->. intros [= <- <-]. unfold part_delivered; simpl.
    by eapply (ev_failed d t _ r k m). }
  apply deliver_body_to_sink_success in Hd1
    as (window & scheduled & -> & Hwin & Hs1 & Hs2 & Hs3 & Hfile); [|done|unfold uint; lia..].
  simpl in *. rewrite (wrap_small 64 (next + m)) by (unfold uint; lia).
  rewrite <-Hnext. intros Heq.
  assert (d' = d <| next_deliver_range_start := start + body_len body |>
         <| running_sum := if feeds_running_checksum c then running_sum d ++ body else running_sum d |>
         <| sunk := sunk d ++ [(start, body)] |>
         <| file_writes := file_writes d ++
              match sink c with RecvFile base origin _ => [(base + (start - origin), body)] | _ => [] end |>
         <| read_window_running_total := window |> <| event_delivery_task_scheduled := scheduled |>
         <| num_bytes_delivery_completed ::= λ x, x +[64] body_len body |>) as ->.
  { rewrite Hlen. apply (f_equal fst) in Heq. destruct incomplete; simpl in Heq; rewrite <-Heq; by destruct d. }
  eapply (ev_delivered d t _ r k body); rewrite ?Hlen; try done.
  - intros Hp. unfold start, next in *. destruct (Z.eqb_spec (part_number r) 1); [done|]. done.
  - apply (f_equal snd) in Heq. destruct incomplete; simpl in Heq; rewrite <-Heq; [left|right].
    + destruct Hinc as (? & ? & ?). split_and!; [done..|]. destruct t; simpl in *. by rewrite Ht.
    + split; [done|]. unfold part_delivered; simpl. destruct t; simpl in *. by rewrite Ht.
Qed.

Lemma handle_event_cases d t ev : Forall event_ok (bodies [ev]) → uint 64 (read_window_running_total d) →
  (throttled = true → uint 64 (bytes_allowed_to_deliver t)) →
  (ev = EVENT_TELEMETRY → has_telemetry_callback c = true) →
  ∃ d' t', handle_event accept checksum_update c d t ev = Ok (d', t') ∧ event_result d t ev d' t'.
Proof.
  intros Hev Hw Hallowed Htel. destruct ev as [r k|bytes|]; simpl in *.
  - apply Forall_inv in Hev. case_bool_decide as Hbody.
    + eexists _, _. split; [done|]. assert (k = 0) as -> by (pose proof (event_in_range _ _ Hev); rewrite Hbody in *; unfold body_len in *; simpl in *; lia).
      by eapply ev_empty.
    + destruct (apply_backpressure_spec r k (bytes_allowed_to_deliver t))
        as (m & allowed & inc & -> & Hm & Hth & Hnth & Hzero & Hinc); [done..|]. simpl.
      pose proof (event_in_range _ _ Hev).
      assert (body_len (take (Z.to_nat m) (rest (r, k))) = m) as Hlen by (apply body_len_take; rewrite rest_len; lia).
      case_bool_decide as Hnil.
      * assert (m = 0) as Hm0 by (by rewrite <-Hlen, Hnil). destruct (Hzero Hm0) as (Hthr & Ha & ->).
        eexists _, _. split; [done|].
        pose proof (ev_blocked d t (EVENT_RESPONSE_BODY r k) r k eq_refl Hbody Hthr Ha) as Hb.
        simpl in Hb. by rewrite Ha in Hb.
      * assert (m ≠ 0) by (intros ->; by apply body_len_nil in Hlen).
        destruct (deliver_body _ _ _ _ _ _ _ _) as [d' t'] eqn:Hd. exists d', t'. split; [done|].
        by eapply deliver_body_cases; [..|exact Hd]; [|done|lia|..].
  - eexists _, _. split; [done|]. by apply ev_other.
  - rewrite Htel by done. eexists _, _. split; [done|]. by apply ev_other.
Qed.
End steps.
