(* ===== verification/DeliveryOrder.v ===== *)
(** The invariant of ordered delivery, and that every operation preserves it. *)

From Stdlib Require Import Init.Byte Sorted.
From S2P Require Import Prelude AwsCommon PriorityQueue Tracking Delivery DeliveryInv.

Section invariant.
Context `{Q1 : !AwsPriorityQueue s3_request part_number}.
Context `{Q2 : !AwsPriorityQueue delivery_tracking_record track_part_number}.
Context `{M : !AwsMath}.
Context (accept : list (Z * list byte) → Z → list byte → option aws_error).
Context (checksum_update : list byte → list byte → option aws_error).
Context (c : delivery_config) (n : Z).

Definition waiting (d : delivery) : list (s3_request * Z) := bodies (undelivered d).
Definition waiting_parts (d : delivery) : list Z := (λ p, part_number p.1) <$> waiting d.

(** Flow control: what waits is well formed, and the window is respected. *)
Record flow (d : delivery) : Prop := {
  flow_events : Forall (event_ok c n) (waiting d);
  flow_telemetry : EVENT_TELEMETRY ∈ undelivered d → has_telemetry_callback c = true;
  flow_idle : task d = None → io_event_delivery_array d = [];
  flow_active : event_delivery_active d = bool_decide (is_Some (task d));
  flow_window : uint 64 (read_window_running_total d);
  flow_bytes : throttled c = true → 0 ≤ num_bytes_delivery_completed d ≤ read_window_running_total d;
  flow_sunk : throttled c = true → body_len (sunk_bytes d) ≤ num_bytes_delivery_completed d;
  flow_task t : task d = Some t →
    (incomplete_deliver_events t ≠ [] → throttled c = true ∧ bytes_allowed_to_deliver t = 0) ∧
    (throttled c = true → 0 ≤ bytes_allowed_to_deliver t ∧
      num_bytes_delivery_completed d + bytes_allowed_to_deliver t ≤ read_window_running_total d);
}.

(** Order: parts were streamed in order, and wait in order. *)
Record in_order (d : delivery) : Prop := {
  order_waiting : StronglySorted Z.lt (waiting_parts d);
  order_streamed : part_number <$> streamed d = seqZ 1 (next_streaming_part d - 1);
  order_next : 1 ≤ next_streaming_part d ≤ n + 1;
  order_before k : k ∈ waiting_parts d → k < next_streaming_part d;
  order_queue : Forall (request_ok n) (pq_elems (pending_body_streaming_requests d));
}.

(** Content: what the sink got is a contiguous prefix of what was streamed, and
    together with what waits it is all of it unless a part was given up. *)
Record content (d : delivery) : Prop := {
  content_prefix : sunk_bytes d `prefix_of` streamed_bytes d;
  content_chunks : contiguous (sunk d);
  content_nonempty : Forall (λ chunk, chunk.2 ≠ []) (sunk d);
  content_all : clean d → sunk_bytes d ++ concat (rest <$> waiting d) = streamed_bytes d;
  content_next s b : clean d → list.last (sunk d) = Some (s, b) → next_deliver_range_start d = s + body_len b;
  content_first r k : clean d → (r, k) ∈ waiting d → part_number r = 1 →
    ∀ s b, list.last (sunk d) = Some (s, b) → part_range_start r + k = s + body_len b;
  content_sum : clean d → feeds_running_checksum c = true → running_sum d = sunk_bytes d;
  content_files : file_writes d =
    match sink c with
    | RecvFile base origin _ => (λ chunk, (base + (chunk.1 - origin), chunk.2)) <$> sunk d
    | _ => []
    end;
  content_offsets base origin resolved : sink c = RecvFile base origin resolved →
    Forall (λ chunk, origin ≤ chunk.1 ∧ base + (chunk.1 - origin) ≤ U64_MAX) (sunk d);
}.

(** Counts: every part sent for delivery waits, or is counted as completed. *)
Definition task_parts (d : delivery) : Z :=
  match task d with Some t => num_parts_delivered t | None => 0 end.

Record counts (d : delivery) : Prop := {
  counts_sent : num_parts_delivery_sent d = Z.of_nat (length (streamed d));
  counts_completed : num_parts_delivery_completed d + task_parts d + Z.of_nat (length (waiting d)) =
    num_parts_delivery_sent d;
  counts_nonneg : 0 ≤ num_parts_delivery_completed d ∧ 0 ≤ task_parts d;
}.

(** The mask: the parts the task has delivered and not marked yet, and those that
    wait, are not marked; unless a part was given up, all others are. *)
Definition task_completed (d : delivery) : list Z :=
  match task d with Some t => track_part_number <$> completed_deliveries t | None => [] end.

Record masks (d : delivery) : Prop := {
  masks_ok : mask_ok n (mask d);
  masks_nodup : NoDup (task_completed d ++ waiting_parts d);
  masks_before k : k ∈ task_completed d → 1 ≤ k < next_streaming_part d;
  masks_marked k : 1 ≤ k ≤ n → is_delivered (mask d) k = true →
    k < next_streaming_part d ∧ k ∉ task_completed d ++ waiting_parts d;
  masks_all k : clean d → 1 ≤ k < next_streaming_part d →
    is_delivered (mask d) k = true ∨ k ∈ task_completed d ++ waiting_parts d;
}.

(** The bytes the prefix and the total report. *)
Definition task_bytes (d : delivery) : Z :=
  match task d with Some t => task_bytes_delivered t | None => 0 end.

Definition totals (d : delivery) : Prop :=
  num_bytes_delivered (prefix d) +[64] task_bytes d = wrap 64 (body_len (sunk_bytes d)) ∧
  num_bytes_delivered_total (prefix d) +[64] task_bytes d = wrap 64 (body_len (sunk_bytes d)).

(** Scheduling: queued events have a task scheduled, unless the window is used up or
    the meta request has a result. *)
Definition scheduled_ok (d : delivery) : Prop :=
  event_delivery_array d ≠ [] →
  event_delivery_task_scheduled d = true ∨ finish_result d ≠ None ∨
  throttled c = true ∧ read_window_running_total d = num_bytes_delivery_completed d.

Record inv (d : delivery) : Prop := {
  inv_flow : flow d;
  inv_order : in_order d;
  inv_content : content d;
  inv_counts : counts d;
  inv_masks : masks d;
  inv_totals : totals d;
  inv_scheduled : scheduled_ok d;
}.

(** * Operations that leave what waits and what was delivered alone *)

Context `{!AwsPriorityQueueLaws s3_request part_number Q1}.
Context `{!AwsMathLaws M}.

Lemma inv_init w m : mask_ok n m → (∀ k, is_delivered m k = false) → uint 64 w → inv (delivery_init w m).
Proof.
  intros Hm Hnone Hw. unfold uint in *.
  assert (1 ≤ n) by (destruct Hm; lia).
  split; [split|split|split|split|split|split|]; simpl; try done;
    try (by inversion 1); try (by constructor); try lia.
  - rewrite pq_elems_empty. constructor.
  - by destruct (sink c).
  - intros k. by rewrite Hnone.
Qed.

Lemma inv_finish d x : inv d → finish_result d = None → inv (d <| finish_result := Some x |>).
Proof.
  intros Hinv Hnone.
  assert (clean (d <| finish_result := Some x |>) → clean d) as Hclean.
  { unfold clean; simpl. by destruct (task d). }
  destruct Hinv as [[] [] [] [] [] [] ?]; split; [split|split|split|split|split|split|]; try done; try (by eauto).
  intros _. right. by left.
Qed.

Lemma inv_grow_window d window scheduled : inv d →
  read_window_running_total d ≤ window ≤ U64_MAX →
  (event_delivery_task_scheduled d = true → scheduled = true) →
  (event_delivery_array d ≠ [] → window ≠ read_window_running_total d → scheduled = true) →
  inv (d <| read_window_running_total := window |> <| event_delivery_task_scheduled := scheduled |>).
Proof.
  intros [[] [] [] [] [] [] Hsched] Hw Hs1 Hs2.
  split; [split|split|split|split|split|split|]; try done; simpl.
  - machine.
  - intros Hth. specialize (flow_bytes0 Hth). lia.
  - intros t Ht. destruct (flow_task0 t Ht) as [? Hth]. split; [done|]. intros Hth'. specialize (Hth Hth'). lia.
  - intros Harr. simpl in *. destruct (Hsched Harr) as [?|[?|[Hth Heq]]]; [by left; auto|by right; left|].
    destruct (decide (window = read_window_running_total d)) as [->|]; [by right; right|left; by apply Hs2].
Qed.

Lemma waiting_add d ev : waiting (d <| event_delivery_array := event_delivery_array d ++ [ev] |>
    <| event_delivery_task_scheduled := true |>) = waiting d ++ bodies [ev].
Proof. unfold waiting, undelivered. simpl. by rewrite !app_assoc, bodies_app. Qed.

Lemma inv_add_event d ev : inv d → ev_body ev = None → (ev = EVENT_TELEMETRY → has_telemetry_callback c = true) →
  inv (aws_s3_meta_request_add_event_for_delivery_synced d (Some ev)).
Proof.
  intros [[] [] [] [] [] [] ?] Hev Htel. rewrite add_event_Some.
  pose proof (waiting_add d ev) as Hwait.
  assert (bodies [ev] = []) as Hnil by (unfold bodies; simpl; by rewrite Hev). rewrite Hnil, app_nil_r in Hwait.
  split; [split|split|split|split|split|split|]; unfold waiting_parts; rewrite ?Hwait; try done; simpl.
  - unfold undelivered. simpl. rewrite !app_assoc, elem_of_app, <-app_assoc.
    intros [?| <-%list_elem_of_singleton]; auto.
  - intros _. by left.
Qed.

Lemma inv_push d q r : inv d → request_ok n r → pq_elems q ≡ₚ r :: pq_elems (pending_body_streaming_requests d) →
  inv (d <| pending_body_streaming_requests := q |>).
Proof.
  intros [[] [] [] [] [] [] ?] Hr Hq. split; [split|split|split|split|split|split|]; try done; simpl.
  rewrite Hq. by constructor.
Qed.

(** * Streaming a part *)

Lemma sorted_snoc l x : StronglySorted Z.lt l → (∀ y, y ∈ l → y < x) → StronglySorted Z.lt (l ++ [x]).
Proof.
  induction 1 as [|y l Hl IH Hy]; simpl; intros Hx; [by repeat constructor|].
  constructor; [apply IH; intros z Hz; apply Hx; by right|].
  rewrite list.Forall_forall in *. intros z [Hz| ->%list_elem_of_singleton]%elem_of_app; [by apply Hy|].
  apply Hx. left.
Qed.

Lemma sunk_nil d : content d → sunk_bytes d = [] → sunk d = [].
Proof.
  intros Hc. pose proof (content_nonempty _ Hc) as Hne. unfold sunk_bytes.
  destruct Hne as [|[s b] l Hb _]; [done|].
  simpl in *. by destruct b.
Qed.

Definition popped (d : delivery) (q : pq s3_request part_number) (r : s3_request) : delivery :=
  d <| pending_body_streaming_requests := q |> <| next_streaming_part ::= λ x, x +[32] 1 |>
    <| event_delivery_array := event_delivery_array d ++ [EVENT_RESPONSE_BODY r 0] |>
    <| event_delivery_task_scheduled := true |>
    <| num_parts_delivery_sent ::= λ x, x +[32] 1 |> <| streamed ::= λ l, l ++ [r] |>.

Lemma waiting_popped d q r : waiting (popped d q r) = waiting d ++ [(r, 0)].
Proof. unfold waiting, undelivered. simpl. by rewrite !app_assoc, bodies_app. Qed.

Lemma streamed_bytes_popped d q r : streamed_bytes (popped d q r) = streamed_bytes d ++ response_body r.
Proof. unfold streamed_bytes. simpl. rewrite fmap_app, concat_app. simpl. by rewrite app_nil_r. Qed.

Lemma streamed_len d : in_order d → Z.of_nat (length (streamed d)) = next_streaming_part d - 1.
Proof.
  intros Ho. rewrite <-(length_fmap part_number), (order_streamed _ Ho), length_seqZ.
  pose proof (order_next _ Ho). lia.
Qed.

Section pop.
Context (d : delivery) (q : pq s3_request part_number) (r : s3_request).
Context (Hinv : inv d) (Hr : part_number r = next_streaming_part d).
Context (Hq : pq_elems (pending_body_streaming_requests d) ≡ₚ r :: pq_elems q).

Lemma popped_request : request_ok n r ∧ Forall (request_ok n) (pq_elems q).
Proof using Hinv Hq.
  pose proof (order_queue _ (inv_order _ Hinv)) as H. rewrite Hq in H. by inversion H.
Qed.

Lemma popped_next : next_streaming_part (popped d q r) = next_streaming_part d + 1 ∧
  1 ≤ next_streaming_part d ≤ n ∧ n < 2 ^ 32 - 8.
Proof using Hinv Hq Hr.
  destruct popped_request as [Hok _]. pose proof (request_part _ _ Hok). rewrite Hr in *.
  destruct (masks_ok _ (inv_masks _ Hinv)) as [Hn _]. simpl. rewrite wrap_small by (unfold uint; lia). lia.
Qed.

Lemma popped_flow : flow (popped d q r).
Proof using Hinv Hq.
  destruct popped_request as [Hok _]. destruct (inv_flow _ Hinv). split; try done.
  - rewrite waiting_popped. apply list.Forall_app; split; [done|]. constructor; [|constructor].
    split; simpl; [done| |done].
    destruct (response_body r) as [|b l]; [by left|right]. unfold body_len. simpl. lia.
  - unfold undelivered. simpl. rewrite !app_assoc, elem_of_app, <-app_assoc.
    intros [?|H]; [auto|]. by apply list_elem_of_singleton in H.
Qed.

Lemma popped_order : in_order (popped d q r).
Proof using Hinv Hq Hr.
  destruct popped_request as [_ Hrest]. destruct popped_next as (Hn & ? & ?).
  destruct (inv_order _ Hinv). split; rewrite ?Hn; try lia; [..|done].
  - unfold waiting_parts. rewrite waiting_popped, fmap_app. simpl. apply sorted_snoc; [done|].
    intros k Hk. rewrite Hr. by apply order_before0.
  - simpl. rewrite fmap_app, order_streamed0. simpl. rewrite Hr.
    replace (next_streaming_part d + 1 - 1) with (next_streaming_part d - 1 + 1) by lia.
    rewrite seqZ_app by lia. f_equal. replace (1 + (next_streaming_part d - 1)) with (next_streaming_part d) by lia. done.
  - intros k. unfold waiting_parts. rewrite waiting_popped, fmap_app, elem_of_app. simpl.
    intros [Hk| ->%list_elem_of_singleton]; [apply order_before0 in Hk; lia|lia].
Qed.

Lemma popped_content : content (popped d q r).
Proof using Hinv Hr.
  pose proof (inv_content _ Hinv) as Hcont. pose proof (inv_order _ Hinv) as Hord.
  destruct (inv_content _ Hinv). split; try done.
  - rewrite streamed_bytes_popped. by apply prefix_app_r.
  - intros Hc. rewrite waiting_popped, fmap_app, concat_app, streamed_bytes_popped, app_assoc.
    rewrite <-content_all0 by done. simpl. by rewrite app_nil_r.
  - intros r' k Hc. rewrite waiting_popped, elem_of_app. intros [Hin|Heq] Hp s b Hlast; [by eapply content_first0|].
    apply list_elem_of_singleton in Heq. injection Heq as -> ->.
    assert (sunk d = []) as Hs.
    { apply sunk_nil; [done|]. apply prefix_nil_inv.
      replace [] with (streamed_bytes d); [done|].
      pose proof (streamed_len _ Hord). unfold streamed_bytes. destruct (streamed d); [done|simpl in *; lia]. }
    simpl in Hlast. by rewrite Hs in Hlast.
Qed.

Lemma popped_counts : counts (popped d q r).
Proof using Hinv Hq Hr.
  destruct popped_next as (? & ? & ?). pose proof (streamed_len _ (inv_order _ Hinv)).
  destruct (inv_counts _ Hinv). split; rewrite ?waiting_popped; simpl in *; try done.
  - rewrite wrap_small by (unfold uint; lia). rewrite length_app. simpl. lia.
  - rewrite wrap_small by (unfold uint; lia). rewrite length_app. unfold task_parts in *. simpl. lia.
Qed.

Lemma popped_masks : masks (popped d q r).
Proof using Hinv Hq Hr.
  destruct popped_next as (Hn & ? & ?). pose proof (order_before _ (inv_order _ Hinv)) as Hbefore.
  destruct (inv_masks _ Hinv).
  assert (task_completed (popped d q r) ++ waiting_parts (popped d q r)
    = (task_completed d ++ waiting_parts d) ++ [next_streaming_part d]) as Heq.
  { unfold waiting_parts. rewrite waiting_popped, fmap_app. simpl. by rewrite Hr, app_assoc. }
  assert (∀ k, k ∈ task_completed d ++ waiting_parts d → k < next_streaming_part d) as Hlt.
  { intros k [Hk%masks_before0|Hk%Hbefore]%elem_of_app; lia. }
  split; rewrite ?Heq, ?Hn; try done.
  - apply list.NoDup_app. split_and!; [done| |apply list.NoDup_singleton].
    intros k Hk%Hlt ->%list_elem_of_singleton. lia.
  - intros k Hk. change (task_completed (popped d q r)) with (task_completed d) in Hk. apply masks_before0 in Hk. lia.
  - intros k Hk Hd. destruct (masks_marked0 k Hk Hd) as [? Hnot]. split; [lia|].
    intros [?| ->%list_elem_of_singleton]%elem_of_app; [done|lia].
  - intros k Hc Hk. rewrite elem_of_app, list_elem_of_singleton.
    destruct (decide (k = next_streaming_part d)); [tauto|].
    destruct (masks_all0 k) as [?|?]; [done|lia|by left|tauto].
Qed.

Lemma inv_popped : inv (popped d q r).
Proof using Hinv Hq Hr.
  split; [apply popped_flow|apply popped_order|apply popped_content|apply popped_counts|apply popped_masks|..].
  - by destruct (inv_totals _ Hinv).
  - intros _. by left.
Qed.
End pop.

Lemma pop_next_cases d :
  match s_s3_meta_request_body_streaming_pop_next_synced d with
  | Some (r, d') => part_number r = next_streaming_part d ∧ ∃ q,
      pq_elems (pending_body_streaming_requests d) ≡ₚ r :: pq_elems q ∧
      d' = d <| pending_body_streaming_requests := q |> <| next_streaming_part ::= λ x, x +[32] 1 |>
  | None => ∀ r, r ∈ pq_elems (pending_body_streaming_requests d) → part_number r = next_streaming_part d →
      ∃ r', r' ∈ pq_elems (pending_body_streaming_requests d) ∧ part_number r' < next_streaming_part d
  end.
Proof.
  unfold s_s3_meta_request_body_streaming_pop_next_synced.
  destruct (aws_priority_queue_top _) as [top|] eqn:Htop; simpl.
  - destruct (pq_pop_top _ _ Htop) as (q & Hpop & Hq). destruct (Z.eqb_spec (part_number top) (next_streaming_part d)); simpl.
    + rewrite Hpop. simpl. split; [done|]. by exists q.
    + intros r Hr Hp. exists top. rewrite Hq. split; [left|]. pose proof (pq_top_min _ _ r Htop Hr). lia.
  - apply pq_top_None in Htop. rewrite Htop. by intros r ?%not_elem_of_nil.
Qed.

Lemma inv_stream_ready fuel d : inv d → inv (stream_ready fuel d).
Proof.
  revert d. induction fuel as [|fuel IH]; intros d Hinv; [done|]. cbn [stream_ready].
  pose proof (pop_next_cases d) as Hpop.
  destruct (s_s3_meta_request_body_streaming_pop_next_synced d) as [[r d']|]; [|done].
  destruct Hpop as (Hr & q & Hq & ->). apply IH.
  rewrite add_event_Some. exact (inv_popped d q r Hinv Hr Hq).
Qed.

Context (Hordered : out_of_order_delivery c = false).

Lemma inv_stream d r : inv d → request_ok n r → inv (aws_s3_meta_request_stream_response_body_synced c d r).
Proof.
  intros Hinv Hr. unfold aws_s3_meta_request_stream_response_body_synced. rewrite Hordered.
  apply inv_stream_ready. unfold s_s3_meta_request_body_streaming_push_synced.
  destruct (aws_priority_queue_push _ _) as [q|] eqn:Hq; [|done].
  apply (inv_push _ _ r); [done..|]. by apply pq_push_elems.
Qed.

(** * The critical sections of the delivery task *)

Lemma inv_begin d : inv d → task d = None → ∃ d', task_begin d = Ok d' ∧ inv d'.
Proof.
  intros Hinv Htask. pose proof (flow_idle _ (inv_flow _ Hinv) Htask) as Hio.
  unfold task_begin. rewrite Hio, bool_decide_true by done. eexists. split; [reflexivity|].
  match goal with |- inv ?d0 => set (d' := d0) end.
  assert (undelivered d' = undelivered d) as Hund.
  { unfold undelivered. rewrite Htask, Hio. simpl. by rewrite app_nil_r. }
  assert (waiting d' = waiting d) as Hw by (unfold waiting; by rewrite Hund).
  assert (clean d' → clean d) as Hclean.
  { unfold clean. rewrite Htask. simpl. by destruct (finish_result d). }
  destruct Hinv as [[] [] [] [] [] [] ?]; unfold task_parts, task_completed, task_bytes in *; rewrite Htask in *.
  split; [split|split|split|split|split|split|]; unfold waiting_parts; rewrite ?Hund, ?Hw; try done; simpl; try tauto.
  - intros t [= <-]. simpl. split; [done|]. intros Hth. specialize (flow_bytes0 Hth).
    rewrite wrap_small by machine. machine.
  - eauto.
  - eauto.
  - eauto.
  - by intros ?.
Qed.

Lemma record_completed_spec d l : mask_ok n (mask d) → NoDup (track_part_number <$> l) →
  (∀ k, k ∈ track_part_number <$> l → 1 ≤ k ≤ n ∧ is_delivered (mask d) k = false) →
  ∃ m, record_completed c d l = d <| mask := m |> ∧ mask_ok n m ∧
    ∀ j, 1 ≤ j ≤ n → is_delivered m j = bool_decide (j ∈ track_part_number <$> l) || is_delivered (mask d) j.
Proof using Hordered.
  revert d. induction l as [|x l IH]; intros d Hm Hnd Hl; cbn [record_completed].
  - exists (mask d). split_and!; [by destruct d|done|]. intros j _. by rewrite bool_decide_false by apply not_elem_of_nil.
  - rewrite Hordered. rewrite fmap_cons in *. apply list.NoDup_cons in Hnd as [Hx Hnd].
    destruct (Hl (track_part_number x)) as [Hxn Hxd]; [left|].
    unfold mark_or_fail. destruct (s_mark_part_delivered _ _) as [m|] eqn:Hmark.
    + apply (mark_delivers n) in Hmark as (_ & _ & Hm' & Hdel); [|done].
      destruct (IH (d <| mask := m |>)) as (m' & -> & Hm'' & Hdel'); simpl; [done|done| |].
      { intros k Hk. destruct (Hl k) as [Hkn Hkd]; [by right|]. split; [done|]. rewrite Hdel by done.
        rewrite Hkd. destruct (Z.eqb_spec k (track_part_number x)); [by subst|done]. }
      exists m'. split_and!; [done..|]. intros j Hj. rewrite Hdel', Hdel by done. simpl.
      destruct (Z.eqb_spec j (track_part_number x)) as [->|Hne].
      * rewrite (bool_decide_true (_ ∈ _ :: _)) by left. by rewrite orb_true_r.
      * f_equal. apply bool_decide_ext. rewrite elem_of_cons. tauto.
    + exfalso. rewrite (mark_in_range n) in Hmark by done. by rewrite Hxd in Hmark.
Qed.

(** What the last critical section makes of the state. *)
Definition ended (d : delivery) (t : delivery_task) (finish : option (option aws_error)) (scheduled : bool)
    (m : delivered_mask) : delivery :=
  d <| io_event_delivery_array := [] |> <| finish_result := finish |>
    <| event_delivery_array := reverse (incomplete_deliver_events t) ++ event_delivery_array d |>
    <| event_delivery_task_scheduled := scheduled |>
    <| num_parts_delivery_completed ::= λ x, x +[32] num_parts_delivered t |> <| mask := m |>
    <| prefix ::= λ p, p <| num_bytes_delivered ::= λ x, x +[64] task_bytes_delivered t |>
                         <| num_bytes_delivered_total ::= λ x, x +[64] task_bytes_delivered t |> |>
    <| event_delivery_active := false |> <| task := None |>.

Lemma requeue_spec d t : task d = Some t → flow d → scheduled_ok d →
  (error_code t ≠ None → finish_result d ≠ None) →
  ∃ scheduled,
    requeue_incomplete d t =
      Ok (d <| event_delivery_array := reverse (incomplete_deliver_events t) ++ event_delivery_array d |>
            <| event_delivery_task_scheduled := scheduled |>) ∧
    (reverse (incomplete_deliver_events t) ++ event_delivery_array d ≠ [] →
     scheduled = true ∨ finish_result d ≠ None ∨
     throttled c = true ∧ read_window_running_total d = num_bytes_delivery_completed d).
Proof.
  intros Ht Hflow Hsched Herr. unfold requeue_incomplete.
  destruct (flow_task _ Hflow t Ht) as [Hinc Hth].
  destruct (incomplete_deliver_events t) as [|ev evs] eqn:He.
  { exists (event_delivery_task_scheduled d). split; [by destruct d|]. done. }
  destruct Hinc as [Hthr Hzero]; [done|]. rewrite Hzero. simpl. rewrite foldl_push_front.
  pose proof (flow_bytes _ Hflow Hthr). pose proof (flow_window _ Hflow).
  rewrite wrap_small by machine. rewrite reverse_cons, <-app_assoc. simpl.
  destruct (Z.ltb_spec 0 (read_window_running_total d - num_bytes_delivery_completed d)); simpl.
  - case_bool_decide as Hec.
    + exists true. split; [|by left]. rewrite add_event_None. simpl.
      rewrite bool_decide_true by (by destruct (reverse evs)). by rewrite orb_true_r.
    + exists (event_delivery_task_scheduled d). split; [by destruct d|]. intros _. right. left. by apply Herr.
  - exists (event_delivery_task_scheduled d). split; [by destruct d|]. intros _. right. right. split; [done|]. lia.
Qed.

Definition failed_with (d : delivery) (e : option aws_error) : option (option aws_error) :=
  match finish_result d, e with
  | Some x, _ => Some x
  | None, Some e => Some (Some e)
  | None, None => None
  end.

Lemma set_fail_finish d e : match e with Some e => aws_s3_meta_request_set_fail_synced d e | None => d end
  = d <| finish_result := failed_with d e |>.
Proof.
  unfold aws_s3_meta_request_set_fail_synced, failed_with. destruct d as [?????????? fr]; simpl.
  by destruct fr, e.
Qed.

Lemma task_end_spec d t : inv d → task d = Some t → ∃ scheduled m,
  let finish := failed_with d (error_code t) in
  task_end c d = Ok (ended d t finish scheduled m) ∧
  (reverse (incomplete_deliver_events t) ++ event_delivery_array d ≠ [] →
     scheduled = true ∨ finish ≠ None ∨
     throttled c = true ∧ read_window_running_total d = num_bytes_delivery_completed d) ∧
  mask_ok n m ∧
  ∀ j, 1 ≤ j ≤ n → is_delivered m j = bool_decide (j ∈ task_completed d) || is_delivered (mask d) j.
Proof using Hordered.
  intros Hinv Ht. unfold task_end. rewrite Ht. cbv zeta. rewrite set_fail_finish, Hordered.
  set (d1 := d <| io_event_delivery_array := [] |>).
  change (failed_with d1 (error_code t)) with (failed_with d (error_code t)).
  set (finish := failed_with d (error_code t)).
  destruct (requeue_spec (d1 <| finish_result := finish |>) t) as (s & Hs & Hsched).
  { done. }
  { destruct (inv_flow _ Hinv). split; try done; unfold d1.
    - unfold waiting, undelivered in *. simpl.
      rewrite !bodies_app, !list.Forall_app in *. tauto.
    - unfold undelivered in *. simpl. rewrite !elem_of_app in *. tauto. }
  { unfold d1, scheduled_ok; simpl. intros Harr.
    destruct (inv_scheduled _ Hinv Harr) as [?|[Hf|?]]; [by left| |by right; right].
    right; left. unfold finish, failed_with. by destruct (finish_result d). }
  { unfold finish, failed_with. simpl. by destruct (finish_result d), (error_code t). }
  rewrite Hs. simpl.
  match goal with |- context [record_completed c ?d0 _] => set (d2 := d0) end.
  destruct (inv_masks _ Hinv) as [Hok Hnd Hbefore Hmarked _]. unfold task_completed in *. rewrite Ht in *.
  pose proof (order_next _ (inv_order _ Hinv)).
  apply list.NoDup_app in Hnd as (Hnd & _).
  destruct (record_completed_spec d2 (completed_deliveries t)) as (m & -> & Hm & Hdel); [done|done| |].
  { intros k Hk. pose proof (Hbefore k Hk). split; [lia|]. apply not_true_is_false. intros Hd.
    destruct (Hmarked k) as [_ Hnot]; [lia|done|]. apply Hnot, elem_of_app. by left. }
  exists s, m. split_and!; done.
Qed.

Lemma waiting_ended d t finish s m : task d = Some t → io_event_delivery_array d = [] →
  waiting (ended d t finish s m) = waiting d.
Proof. intros Ht Hio. unfold waiting, undelivered. rewrite Ht, Hio. done. Qed.

Lemma inv_end d : inv d → task d ≠ None → io_event_delivery_array d = [] →
  ∃ d', task_end c d = Ok d' ∧ inv d'.
Proof using Hordered.
  intros Hinv Htask Hio. destruct (task d) as [t|] eqn:Ht; [|done].
  destruct (task_end_spec d t Hinv Ht) as (s & m & -> & Hsched & Hm & Hdel).
  eexists. split; [done|]. set (finish := failed_with d (error_code t)) in *.
  pose proof (waiting_ended d t finish s m Ht Hio) as Hwait.
  assert (undelivered (ended d t finish s m) = undelivered d) as Hund.
  { unfold undelivered. by rewrite Ht, Hio. }
  assert (clean (ended d t finish s m) → clean d) as Hclean.
  { unfold clean. rewrite Ht. simpl. unfold finish, failed_with. by destruct (finish_result d), (error_code t). }
  pose proof (streamed_len _ (inv_order _ Hinv)). pose proof (order_next _ (inv_order _ Hinv)).
  destruct (masks_ok _ (inv_masks _ Hinv)) as [Hn _].
  destruct Hinv as [[] [] [] [? Hcount ?] [? Hnd ? ? ?] [Ht1 Ht2] ?].
  unfold totals, task_parts, task_completed, task_bytes in *. rewrite Ht in *.
  split; [split|split|split|split|split|split|]; unfold waiting_parts; rewrite ?Hund, ?Hwait;
    try done; simpl; try (by eauto).
  - unfold task_parts. simpl. rewrite wrap_small by (unfold uint; lia). lia.
  - unfold task_parts. simpl. rewrite wrap_small by (unfold uint; lia). lia.
  - by apply list.NoDup_app in Hnd as (_ & _ & ?).
  - intros k ?%not_elem_of_nil. done.
  - intros k Hk. rewrite Hdel by done. intros [Hc|Hd]%orb_true_iff.
    + apply bool_decide_eq_true in Hc. apply list.NoDup_app in Hnd as (_ & Hdisj & _).
      split; [by apply masks_before0|]. by apply Hdisj.
    + destruct (masks_marked0 k Hk Hd) as [? Hnot]. split; [done|]. rewrite elem_of_app in Hnot. tauto.
  - intros k Hc Hk. rewrite Hdel by lia. destruct (masks_all0 k) as [->|Hin]; [by eauto|lia|left; apply orb_true_r|].
    apply elem_of_app in Hin as [Hin|Hin]; [left|by right]. by rewrite bool_decide_true.
  - by rewrite Z.add_0_r, wrap_wrap.
  - by rewrite Z.add_0_r, wrap_wrap.
Qed.
End invariant.
