(* ===== verification/DeliveryEvent.v ===== *)
(** Handling one event preserves the invariant of ordered delivery, and so do all
    steps of a download. *)

From Stdlib Require Import Init.Byte Sorted.
From S2P Require Import Prelude AwsCommon PriorityQueue Tracking Delivery DeliveryInv DeliveryOrder.

Lemma sorted_sublist (l k : list Z) : sublist l k → StronglySorted Z.lt k → StronglySorted Z.lt l.
Proof.
  induction 1 as [|x l k Hs IH|x l k Hs IH]; inversion 1; subst; [done|..].
  - constructor; [by apply IH|]. rewrite list.Forall_forall in *. intros y Hy.
    by eapply H3, elem_of_sublist.
  - by apply IH.
Qed.

Lemma sorted_nodup l : StronglySorted Z.lt l → NoDup l.
Proof.
  induction 1 as [|x l Hl IH Hx]; constructor; [|done]. rewrite list.Forall_forall in Hx.
  intros Hin. apply Hx in Hin. lia.
Qed.

Section event.
Context `{Q1 : !AwsPriorityQueue s3_request part_number}.
Context `{Q2 : !AwsPriorityQueue delivery_tracking_record track_part_number}.
Context `{M : !AwsMath}.
Context (c : delivery_config) (n : Z).

Section after.
Context (d : delivery) (t : delivery_task) (ev : meta_request_event) (evs : list meta_request_event).
Context (Hinv : inv c n d) (Ht : task d = Some t) (Hio : io_event_delivery_array d = ev :: evs).
Context (d1 : delivery) (t' : delivery_task).
Context (Hres : event_result c (d <| io_event_delivery_array := evs |>) t ev d1 t').

Notation d' := (d1 <| task := Some t' |>).
Notation W1 := (bodies (reverse (incomplete_deliver_events t))).
Notation W2 := (bodies (evs ++ event_delivery_array d)).

Lemma waiting_before : waiting d = W1 ++ bodies [ev] ++ W2.
Proof. unfold waiting, undelivered. rewrite Ht, Hio. by rewrite <-!bodies_app. Qed.

(** Delivering bytes needs window, so nothing is to be put back before it. *)
Lemma delivered_first m : 0 < m →
  (throttled c = true → m ≤ bytes_allowed_to_deliver t) → incomplete_deliver_events t = [].
Proof.
  intros Hm Hth. destruct (flow_task _ _ _ (inv_flow _ _ _ Hinv) t Ht) as [Hinc _].
  destruct (incomplete_deliver_events t); [done|]. destruct Hinc as [Hthr Hz]; [done|].
  specialize (Hth Hthr). lia.
Qed.

Lemma undelivered_after : undelivered d' = reverse (incomplete_deliver_events t') ++ evs ++ event_delivery_array d.
Proof. by destruct Hres. Qed.

Definition same_parts (t t' : delivery_task) : Prop :=
  num_parts_delivered t' = num_parts_delivered t ∧ completed_deliveries t' = completed_deliveries t.

Definition one_more_part (t t' : delivery_task) (r : s3_request) : Prop :=
  num_parts_delivered t' = num_parts_delivered t +[32] 1 ∧
  match error_code t' with
  | None => ∃ bytes, completed_deliveries t' = completed_deliveries t ++ [completed_record r bytes]
  | Some _ => completed_deliveries t' = completed_deliveries t
  end.

(** The event is still waiting, as it was or shorter, or it is gone. *)
Lemma waiting_after : ∃ X, waiting d' = W1 ++ X ++ W2 ∧
  (X = bodies [ev] ∧ same_parts t t' ∨
   (∃ r k m, bodies [ev] = [(r, k)] ∧ X = [(r, k + m)] ∧ 0 < m ∧ k + m < body_len (response_body r) ∧
     throttled c = true ∧ same_parts t t') ∨
   (∃ r k, bodies [ev] = [(r, k)] ∧ X = [] ∧ one_more_part t t' r)).
Proof.
  unfold waiting. rewrite undelivered_after, bodies_app.
  destruct Hres as [Hev|r -> Hr|r k -> Hr Hth Ha|r k m next sum e al -> Hm Hth
    |r k body files window sched al t1 m start -> Hm Hb Hth Hnth He Hn Hw Hs1 Hs2 Hs3 Hf Ho [(Hlt & Hthr & Hal & ->)|(Heq & ->)]].
  - exists []. split; [done|]. left. unfold bodies. simpl. by rewrite Hev.
  - exists []. unfold part_delivered. simpl. split; [by destruct (error_code t)|]. right. right.
    exists r, 0. split_and!; [done..|]. unfold one_more_part. destruct (error_code t) eqn:He; simpl; rewrite ?He; [done|].
    split; [done|]. by eexists.
  - exists (bodies [EVENT_RESPONSE_BODY r k]). split; [|by left]. simpl.
    by rewrite reverse_cons, bodies_app, <-app_assoc.
  - exists []. split; [done|]. right. right. by exists r, k.
  - exists [(r, k + m)]. split; [|right; left; exists r, k, m; split_and!; [done..|lia|done|done|done]].
    simpl. by rewrite (delivered_first m) by (lia || (intros; by apply Hth)).
  - exists []. split; [done|]. right. right. exists r, k. split_and!; [done..|]. unfold one_more_part. simpl.
    rewrite He. split; [done|]. by eexists.
Qed.

Lemma waiting_parts_after : sublist (waiting_parts d') (waiting_parts d).
Proof.
  destruct waiting_after as (X & HX & Hcases). unfold waiting_parts. rewrite HX, waiting_before, !fmap_app.
  apply sublist_app; [done|]. apply sublist_app; [|done].
  destruct Hcases as [[-> _]|[(r & k & m & -> & -> & _)|(r & k & _ & -> & _)]]; [done..|apply sublist_nil_l].
Qed.

Lemma incomplete_after x : x ∈ incomplete_deliver_events t' → x ∈ incomplete_deliver_events t ∨ ev_body x ≠ None.
Proof.
  destruct Hres as [|r -> ?|r k -> ? ? ?|r k m next sum e al -> ? ?
    |r k body files window sched al t1 m start -> ? ? ? ? ? ? ? ? ? ? ? ? [(_ & _ & _ & ->)|(_ & ->)]]; simpl;
    try (by left).
  - unfold part_delivered. simpl. destruct (error_code t); by left.
  - intros [->|?]%elem_of_cons; [by right|by left].
  - intros [->|?]%elem_of_cons; [by right|by left].
Qed.

Lemma task_incomplete_after : incomplete_deliver_events t' ≠ [] →
  throttled c = true ∧ bytes_allowed_to_deliver t' = 0.
Proof.
  destruct (flow_task _ _ _ (inv_flow _ _ _ Hinv) t Ht) as [Hinc _].
  destruct Hres as [|r -> ?|r k -> ? ? ?|r k m next sum e al -> Hm Hth
    |r k body files window sched al t1 m start -> Hm ? Hth ? ? ? ? ? ? ? ? ? [(_ & Hthr & Hal & ->)|(_ & ->)]]; simpl.
  - done.
  - unfold part_delivered. simpl. by destruct (error_code t).
  - done.
  - rewrite (delivered_first m) by (lia || (intros; by apply Hth)). done.
  - done.
  - rewrite (delivered_first m) by (lia || (intros; by apply Hth)). done.
Qed.

Lemma sunk_after : throttled c = true → body_len (sunk_bytes d') ≤ num_bytes_delivery_completed d'.
Proof.
  intros Hthr. destruct (inv_flow _ _ _ Hinv) as [_ _ _ _ Hwin Hbytes Hsunk Htask].
  destruct (Htask t Ht) as [_ Hallow]. specialize (Hbytes Hthr). specialize (Hallow Hthr). specialize (Hsunk Hthr).
  machine. unfold sunk_bytes in *.
  destruct Hres as [|r -> ?|r k -> ? ? ?|r k m next sum e al -> Hm Hth
    |r k body files window sched al t1 m start -> Hm ? Hth]; simpl in *; try done;
    specialize (Hth Hthr) as [? ?]; rewrite wrap_small by machine; [lia|].
  rewrite fmap_app, concat_app. simpl. rewrite app_nil_r. unfold m, body_len in *. rewrite length_app. lia.
Qed.

Lemma flow_after : flow c n d'.
Proof.
  pose proof waiting_after as (X & HX & Hcases). pose proof waiting_before as HW.
  pose proof (inv_flow _ _ _ Hinv) as [Hev Htel Hidle Hact Hwin Hbytes Hsunk Htask].
  destruct (Htask t Ht) as [Hinc Hallow].
  rewrite HW, !list.Forall_app in Hev. destruct Hev as (Hev1 & Hev2 & Hev3).
  split.
  - rewrite HX, !list.Forall_app. split_and!; [done| |done].
    destruct Hcases as [[-> _]|[(r & k & m & Hb & -> & ? & ? & ? & _)|(r & k & _ & -> & _)]]; [done| |constructor].
    rewrite Hb in Hev2. apply Forall_inv in Hev2. constructor; [|constructor].
    pose proof (event_in_range _ _ _ _ Hev2). destruct Hev2. split; simpl in *; [done|right; lia|done].
  - rewrite undelivered_after. intros Hin. apply Htel. unfold undelivered. rewrite Ht, Hio.
    apply elem_of_app in Hin as [Hin%elem_of_reverse%incomplete_after|Hin]; apply elem_of_app.
    + destruct Hin as [Hin|?]; [|done]. left. by apply elem_of_reverse.
    + right. by right.
  - done.
  - rewrite Ht in Hact. by destruct Hres.
  - destruct Hres; simpl in *; try done; machine.
  - intros Hthr. specialize (Hbytes Hthr). specialize (Hallow Hthr). machine.
    destruct Hres as [|r -> ?|r k -> ? ? ?|r k m next sum e al -> Hm Hth
      |r k body files window sched al t1 m start -> Hm ? Hth]; simpl in *; try lia;
      specialize (Hth Hthr) as [? ?]; rewrite wrap_small by machine; lia.
  - apply sunk_after.
  - intros t1 [= <-]. split; [apply task_incomplete_after|].
    intros Hthr. specialize (Hbytes Hthr). specialize (Hallow Hthr). machine.
    destruct Hres as [|r -> ?|r k -> ? ? ?|r k m next sum e al -> Hm Hth
      |r k body files window sched al t1 m start -> Hm ? Hth ? ? ? ? ? ? ? ? ? [(_ & _ & _ & ->)|(_ & ->)]]; simpl in *;
      try (specialize (Hth Hthr) as [? ?]; rewrite wrap_small by machine); try lia.
    unfold part_delivered. simpl. destruct (error_code t); simpl; lia.
Qed.

Lemma frame_after :
  streamed d' = streamed d ∧ next_streaming_part d' = next_streaming_part d ∧
  pending_body_streaming_requests d' = pending_body_streaming_requests d ∧ mask d' = mask d ∧ prefix d' = prefix d ∧
  num_parts_delivery_sent d' = num_parts_delivery_sent d ∧
  num_parts_delivery_completed d' = num_parts_delivery_completed d ∧
  event_delivery_array d' = event_delivery_array d ∧ finish_result d' = finish_result d.
Proof. by destruct Hres. Qed.

Lemma clean_after : clean d' → error_code t = None ∧ clean d.
Proof.
  unfold clean. rewrite Ht. simpl. destruct Hres as [|r -> ?| | |]; try done.
  unfold part_delivered. simpl. by destruct (error_code t).
Qed.

Lemma order_after : in_order n d'.
Proof.
  pose proof waiting_parts_after as Hsub. destruct (inv_order _ _ _ Hinv).
  destruct frame_after as (Hs & Hn & Hp & _). split; rewrite ?Hs, ?Hn, ?Hp; try done.
  - by eapply sorted_sublist.
  - intros k Hk. apply order_before. by eapply elem_of_sublist.
Qed.

Lemma counts_after : counts d'.
Proof.
  pose proof (streamed_len _ _ (inv_order _ _ _ Hinv)). pose proof (order_next _ _ (inv_order _ _ _ Hinv)).
  destruct (masks_ok _ _ (inv_masks _ _ _ Hinv)) as [Hn32 _].
  destruct (inv_counts _ _ _ Hinv) as [Hsent Hcompl Hnn].
  destruct frame_after as (Hs & _ & _ & _ & _ & Hse & Hco & _).
  destruct waiting_after as (X & HX & Hcases). unfold task_parts in *. rewrite Ht in *.
  rewrite waiting_before, !length_app in Hcompl.
  split; rewrite ?Hs, ?Hse, ?Hco, ?HX, ?length_app; [done|..]; unfold task_parts; simpl;
    destruct Hcases as [(-> & -> & _)|[(r & k & m & Hb & -> & _ & _ & _ & -> & _)|(r & k & Hb & -> & -> & _)]];
    rewrite ?Hb in *; simpl in *; try rewrite wrap_small by (unfold uint; lia); lia.
Qed.

(** Parts move from the waiting ones to the delivered ones, or are given up. *)
Lemma parts_after :
  (clean d' → task_completed d' ++ waiting_parts d' ≡ₚ task_completed d ++ waiting_parts d) ∧
  task_completed d' ++ waiting_parts d' ⊆+ task_completed d ++ waiting_parts d.
Proof.
  assert (task_completed d' ++ waiting_parts d' ≡ₚ task_completed d ++ waiting_parts d ∨
    ¬ clean d' ∧ task_completed d' ++ waiting_parts d' ⊆+ task_completed d ++ waiting_parts d) as [Hp|[??]];
    [|by split; [|rewrite Hp]|done].
  destruct waiting_after as (X & HX & Hcases). unfold waiting_parts, task_completed. rewrite HX, waiting_before, Ht.
  rewrite !fmap_app. change (task d') with (Some t').
  destruct Hcases as [(-> & _ & ->)|[(r & k & m & -> & -> & _ & _ & _ & _ & ->)|(r & k & -> & -> & _ & Hc)]];
    [by left|by left|].
  unfold clean. simpl. destruct (error_code t').
  - right. split; [done|]. rewrite Hc. simpl. apply submseteq_app; [done|]. apply submseteq_app; [done|].
    by apply submseteq_cons.
  - left. destruct Hc as [bytes ->]. rewrite fmap_app, <-app_assoc. simpl. apply Permutation_app; [done|].
    by rewrite Permutation_middle.
Qed.

Lemma waiting_parts_pos k : k ∈ waiting_parts d → 1 ≤ k < next_streaming_part d.
Proof.
  intros Hk. split; [|by apply (order_before _ _ (inv_order _ _ _ Hinv))].
  apply list_elem_of_fmap in Hk as (p & -> & Hp).
  pose proof (flow_events _ _ _ (inv_flow _ _ _ Hinv)) as Hev. rewrite list.Forall_forall in Hev.
  apply Hev in Hp as [[Hp _ _] _ _]. lia.
Qed.

Lemma masks_after : masks n d'.
Proof.
  destruct (inv_masks _ _ _ Hinv) as [Hok Hnd Hbefore Hmarked Hall].
  destruct frame_after as (_ & Hn & _ & Hm & _). destruct parts_after as [Hperm Hsub].
  assert (∀ k, k ∈ task_completed d' ++ waiting_parts d' → k ∈ task_completed d ++ waiting_parts d) as Hincl.
  { intros k Hk. by eapply elem_of_submseteq. }
  split; rewrite ?Hn, ?Hm; [done|..].
  - destruct (submseteq_Permutation _ _ Hsub) as [l Hl]. rewrite Hl in Hnd. by apply list.NoDup_app in Hnd as [? _].
  - intros k Hk. destruct (elem_of_app (task_completed d) (waiting_parts d) k) as [Helem _].
    destruct Helem as [?|?]; [apply Hincl, elem_of_app; by left|by apply Hbefore|by apply waiting_parts_pos].
  - intros k Hk Hd. destruct (Hmarked k Hk Hd) as [? Hnot]. split; [done|]. intros ?. by apply Hnot, Hincl.
  - intros k Hc Hk. rewrite Hperm by done. apply Hall; [by apply clean_after|done].
Qed.

Lemma totals_after : totals d'.
Proof.
  destruct (inv_totals _ _ _ Hinv) as [H1 H2]. unfold totals, task_bytes, sunk_bytes in *. rewrite Ht in *.
  destruct Hres as [|r -> ?|r k -> ? ? ?|r k m next sum e al -> Hm Hth
    |r k body files window sched al t1 m start -> Hm ? Hth ? ? ? ? ? ? ? ? ? Ht1]; simpl; try done.
  - unfold part_delivered. simpl. by destruct (error_code t).
  - assert (task_bytes_delivered t1 = task_bytes_delivered t +[64] m) as ->
      by (by destruct Ht1 as [(_ & _ & _ & ->)|(_ & ->)]).
    rewrite fmap_app, concat_app. simpl. rewrite app_nil_r. unfold body_len in *. rewrite length_app, Nat2Z.inj_add.
    rewrite !wrap_add_r, !Z.add_assoc.
    rewrite <-(wrap_add_l 64 (num_bytes_delivered (prefix d) + _)), H1.
    rewrite <-(wrap_add_l 64 (num_bytes_delivered_total (prefix d) + _)), H2. by rewrite wrap_add_l.
Qed.

Lemma scheduled_after : scheduled_ok c d'.
Proof.
  pose proof (inv_scheduled _ _ _ Hinv) as Hs. destruct (flow_task _ _ _ (inv_flow _ _ _ Hinv) t Ht) as [_ Hallow].
  unfold scheduled_ok in *.
  destruct Hres as [|r -> ?|r k -> ? ? ?|r k m next sum e al -> Hm Hth
    |r k body files window sched al t1 m start -> Hm ? Hth ? ? ? Hw Hs1 Hs2 ? ? ? Ht1]; simpl in *; try done;
    intros Harr; destruct (Hs Harr) as [?|[?|[Hthr Heq]]]; [by left|by right; left| |left; by apply Hs1|by right; left|].
  - specialize (Hth Hthr). specialize (Hallow Hthr). lia.
  - specialize (Hth Hthr). specialize (Hallow Hthr). lia.
Qed.

(** Nothing reaches the sink: the waiting bytes are the same, or a part was given up. *)
Lemma content_unchanged : sunk d' = sunk d → file_writes d' = file_writes d →
  (clean d' → next_deliver_range_start d' = next_deliver_range_start d ∧ running_sum d' = running_sum d ∧
     sublist (waiting d') (waiting d) ∧ concat (rest <$> waiting d') = concat (rest <$> waiting d)) →
  content c d'.
Proof.
  intros Hs Hf Hsame. destruct (inv_content _ _ _ Hinv) as [Hpre Hch Hne Hall Hnext Hfirst Hsum Hfiles Hoff].
  destruct frame_after as (Hst & _).
  assert (sunk_bytes d' = sunk_bytes d) as Hsb by (unfold sunk_bytes; by rewrite Hs).
  assert (streamed_bytes d' = streamed_bytes d) as Hstb by (unfold streamed_bytes; by rewrite Hst).
  split; rewrite ?Hs, ?Hf, ?Hsb, ?Hstb; try done.
  - intros Hc. destruct (Hsame Hc) as (_ & _ & _ & ->). apply Hall, clean_after, Hc.
  - intros s b Hc. destruct (Hsame Hc) as (-> & _). apply Hnext, clean_after, Hc.
  - intros r k Hc Hin. destruct (Hsame Hc) as (_ & _ & Hsub & _). apply Hfirst; [apply clean_after, Hc|].
    by eapply elem_of_sublist.
  - intros Hc. destruct (Hsame Hc) as (_ & -> & _). apply Hsum, clean_after, Hc.
Qed.

Lemma rest_split r k m : 0 ≤ k → 0 ≤ m → rest (r, k) = take (Z.to_nat m) (rest (r, k)) ++ rest (r, k + m).
Proof.
  intros. unfold rest. simpl. rewrite Z2Nat.inj_add, <-drop_drop by lia. by rewrite take_drop.
Qed.

(** A chunk of the first waiting part reaches the sink. *)
Section chunk.
Context (d2 : delivery) (Hd2 : streamed d2 = streamed d).
Context (r : s3_request) (k m : Z) (body : list byte) (X : list (s3_request * Z)).
Context (Hm : 0 < m ≤ body_len (response_body r) - k) (Hbody : body = take (Z.to_nat m) (rest (r, k))).
Context (Hlen : body_len body = m).
Context (Hwait : waiting d = (r, k) :: W2) (Hwait' : waiting d2 = X ++ W2).
Context (HX : X = [(r, k + m)] ∨ X = [] ∧ k + m = body_len (response_body r)).
Context (Herr : error_code t = None).
Context (Hstart : part_number r ≠ 1 → part_range_start r + k = next_deliver_range_start d).
Context (Hsunk : sunk d2 = sunk d ++ [(part_range_start r + k, body)]).
Context (Hnext : next_deliver_range_start d2 = part_range_start r + k + m).

Lemma chunk_clean : clean d.
Proof. unfold clean. by rewrite Ht. Qed.

Lemma chunk_event : event_ok c n (r, k).
Proof.
  pose proof (flow_events _ _ _ (inv_flow _ _ _ Hinv)) as Hev. rewrite Hwait in Hev. by apply Forall_inv in Hev.
Qed.

Lemma chunk_bytes : sunk_bytes d2 = sunk_bytes d ++ body.
Proof. unfold sunk_bytes. rewrite Hsunk, fmap_app, concat_app. simpl. by rewrite app_nil_r. Qed.

Lemma chunk_all : sunk_bytes d2 ++ concat (rest <$> waiting d2) = streamed_bytes d.
Proof.
  pose proof (event_in_range _ _ _ _ chunk_event).
  rewrite <-(content_all _ _ (inv_content _ _ _ Hinv) chunk_clean), Hwait, Hwait', chunk_bytes, <-app_assoc.
  f_equal. simpl. rewrite (rest_split r k m), <-Hbody, fmap_app, concat_app, <-app_assoc by lia. f_equal.
  destruct HX as [->|[-> Hend]]; simpl; [by rewrite app_nil_r|].
  assert (rest (r, k + m) = []) as ->; [|done]. apply body_len_nil. rewrite rest_len; lia.
Qed.

Lemma chunk_follows s b : list.last (sunk d) = Some (s, b) → part_range_start r + k = s + body_len b.
Proof.
  intros Hlast. destruct (inv_content _ _ _ Hinv) as [_ _ _ _ Hn Hfirst _ _ _].
  destruct (decide (part_number r = 1)).
  - eapply Hfirst; [apply chunk_clean|rewrite Hwait; left|done|done].
  - rewrite Hstart by done. apply Hn; [apply chunk_clean|done].
Qed.

Lemma chunk_first r' k' : (r', k') ∈ waiting d2 → part_number r' = 1 →
  part_range_start r' + k' = part_range_start r + k + m.
Proof.
  rewrite Hwait', elem_of_app. intros [Hin|Hin] Hp.
  - destruct HX as [->|[-> _]]; [|by apply not_elem_of_nil in Hin].
    apply list_elem_of_singleton in Hin. injection Hin as -> ->. lia.
  - exfalso. pose proof (order_waiting _ _ (inv_order _ _ _ Hinv)) as Hs. unfold waiting_parts in Hs.
    rewrite Hwait in Hs. simpl in Hs. apply StronglySorted_inv in Hs as [_ Hs]. rewrite list.Forall_forall in Hs.
    specialize (Hs 1). pose proof (request_part _ _ (event_request _ _ _ chunk_event)). simpl in *.
    assert (part_number r < 1); [|lia]. apply Hs. apply list_elem_of_fmap. by exists (r', k').
Qed.

Lemma content_chunk :
  running_sum d2 = (if feeds_running_checksum c then running_sum d ++ body else running_sum d) →
  file_writes d2 = file_writes d ++
    match sink c with RecvFile base origin _ => [(base + (part_range_start r + k - origin), body)] | _ => [] end →
  (∀ base origin resolved, sink c = RecvFile base origin resolved →
    origin ≤ part_range_start r + k ∧ base + (part_range_start r + k - origin) ≤ U64_MAX) →
  content c d2.
Proof.
  intros Hsum Hfiles Hoff. destruct (inv_content _ _ _ Hinv). pose proof chunk_all as Hall.
  assert (streamed_bytes d2 = streamed_bytes d) as Hstb by (unfold streamed_bytes; by rewrite Hd2).
  split; rewrite ?Hstb.
  - exists (concat (rest <$> waiting d2)). done.
  - rewrite Hsunk. apply contiguous_snoc; [done|]. apply chunk_follows.
  - rewrite Hsunk. apply list.Forall_app. split; [done|]. constructor; [|constructor]. simpl. intros ->.
    unfold body_len in Hlen. simpl in Hlen. lia.
  - done.
  - intros s b _. rewrite Hsunk, last_snoc. intros [= <- <-]. by rewrite Hnext, Hlen.
  - intros r' k' _ Hin Hp s b. rewrite Hsunk, last_snoc. intros [= <- <-]. rewrite Hlen. by apply chunk_first.
  - intros _ Hfeeds. rewrite Hsum, Hfeeds, chunk_bytes, content_sum; [done|apply chunk_clean|done].
  - rewrite Hfiles, Hsunk, content_files. destruct (sink c); [done| |done]. by rewrite fmap_app.
  - intros base origin resolved Hs. rewrite Hsunk. apply list.Forall_app. split; [by eapply content_offsets|].
    constructor; [|constructor]. by eapply Hoff.
Qed.
End chunk.

Lemma content_after : content c d'.
Proof.
  pose proof waiting_before as Hbefore. pose proof content_unchanged as Hsame.
  pose proof undelivered_after as Hund. pose proof (λ d2, content_chunk d2) as Hchunk.
  destruct Hres as [Hev|r -> Hr|r k -> Hr Hth Ha|r k m next sum e al -> Hm Hth
    |r k body files window sched al t1 m start -> Hm Hb Hth Hnth He Hn Hw Hs1 Hs2 Hs3 Hf Ho Ht1].
  - apply Hsame; [done..|]. intros _. split_and!; [done..| |].
    + rewrite Hbefore. unfold waiting. rewrite Hund, bodies_app. unfold bodies at 4. simpl. by rewrite Hev.
    + rewrite Hbefore. unfold waiting. rewrite Hund, bodies_app. unfold bodies at 4. simpl. by rewrite Hev.
  - assert (waiting (d <| io_event_delivery_array := evs |> <| task := Some (part_delivered t r 0) |>) = W1 ++ W2) as Hw.
    { unfold waiting. rewrite Hund, bodies_app. unfold part_delivered. simpl. by destruct (error_code t). }
    apply Hsame; [done..|]. intros _. rewrite Hw, Hbefore. split_and!; [done..| |].
    + apply sublist_app; [done|]. simpl. by apply sublist_cons.
    + rewrite !fmap_app, !concat_app. f_equal. simpl. unfold rest at 2. simpl. by rewrite Hr.
  - apply Hsame; [done..|]. intros _.
    assert (waiting (d <| io_event_delivery_array := evs |>
      <| task := Some (t <| incomplete_deliver_events ::= λ l, EVENT_RESPONSE_BODY r k :: l |>) |>) = waiting d) as ->; [|done].
    rewrite Hbefore. unfold waiting. rewrite Hund, bodies_app. simpl.
    by rewrite reverse_cons, bodies_app, <-app_assoc.
  - apply Hsame; [done..|]. unfold clean. done.
  - assert (incomplete_deliver_events t = []) as Hinc by (apply (delivered_first m); [lia|intros; by apply Hth]).
    rewrite Hinc in *. refine (Hchunk _ _ r k m body (bodies (reverse (incomplete_deliver_events t1))) _ _ _ _ _ _ _ _ _ _ _ _ _); try done.
    + unfold waiting. by rewrite Hund, bodies_app.
    + destruct Ht1 as [(Hlt & Hthr & Hal & ->)|(Heq & ->)]; simpl; rewrite Hinc; [by left|by right].
    + simpl. by rewrite Hf.
Qed.

Lemma inv_after : inv c n d'.
Proof.
  split; [apply flow_after|apply order_after|apply content_after|apply counts_after|apply masks_after
    |apply totals_after|apply scheduled_after].
Qed.
End after.

(** * Every step *)

Context `{!AwsPriorityQueueLaws s3_request part_number Q1} `{!AwsMathLaws M}.
Context (accept : list (Z * list byte) → Z → list byte → option aws_error).
Context (checksum_update : list byte → list byte → option aws_error).
Context (Hordered : out_of_order_delivery c = false).
Context (Hsink : ∀ base origin resolved, sink c = RecvFile base origin resolved → uint 64 base ∧ uint 64 origin).

Lemma task_event_spec d t ev evs : inv c n d → task d = Some t → io_event_delivery_array d = ev :: evs →
  ∃ d1 t', task_event accept checksum_update c d = Ok (d1 <| task := Some t' |>) ∧
    event_result c (d <| io_event_delivery_array := evs |>) t ev d1 t'.
Proof.
  intros Hinv Ht He. pose proof (inv_flow _ _ _ Hinv) as Hflow. unfold task_event. rewrite Ht, He.
  destruct (handle_event_cases accept checksum_update c n Hordered Hsink
    (d <| io_event_delivery_array := evs |>) t ev) as (d1 & t' & Hh & Hres).
  - pose proof (flow_events _ _ _ Hflow) as Hev. rewrite (waiting_before d t ev evs Ht He), !list.Forall_app in Hev.
    tauto.
  - apply (flow_window _ _ _ Hflow).
  - intros Hth. destruct (flow_task _ _ _ Hflow t Ht) as [_ Ha]. specialize (Ha Hth).
    pose proof (flow_bytes _ _ _ Hflow Hth). pose proof (flow_window _ _ _ Hflow). machine.
  - intros ->. apply (flow_telemetry _ _ _ Hflow). unfold undelivered. rewrite Ht, He, !elem_of_app, elem_of_cons. tauto.
  - rewrite Hh. by exists d1, t'.
Qed.

Lemma inv_event d : inv c n d → task d ≠ None → io_event_delivery_array d ≠ [] →
  ∃ d', task_event accept checksum_update c d = Ok d' ∧ inv c n d'.
Proof.
  intros Hinv Htask Hio. destruct (task d) as [t|] eqn:Ht; [|done].
  destruct (io_event_delivery_array d) as [|ev evs] eqn:He; [done|].
  destruct (task_event_spec d t ev evs Hinv Ht He) as (d1 & t' & -> & Hres).
  eexists. split; [done|]. by apply (inv_after d t ev evs Hinv Ht He d1 t').
Qed.

Lemma inv_set_fail d e : inv c n d → inv c n (aws_s3_meta_request_set_fail_synced d e).
Proof.
  intros Hinv. unfold aws_s3_meta_request_set_fail_synced. destruct (finish_result d) eqn:He; [done|]. by apply inv_finish.
Qed.

Lemma inv_set_success d : inv c n d → inv c n (aws_s3_meta_request_set_success_synced d).
Proof.
  intros Hinv. unfold aws_s3_meta_request_set_success_synced. destruct (finish_result d) eqn:He; [done|]. by apply inv_finish.
Qed.

Lemma inv_increment d bytes : inv c n d → uint 64 bytes → inv c n (aws_s3_meta_request_increment_read_window c d bytes).
Proof.
  intros Hinv Hb. destruct (increment_read_window_spec c d bytes Hb) as (w & s & -> & Hw & Hs1 & Hs2 & _).
  - apply (flow_window _ _ _ (inv_flow _ _ _ Hinv)).
  - by apply inv_grow_window.
Qed.

Lemma inv_io_step d d' : inv c n d → io_step accept checksum_update c d d' → inv c n d'.
Proof.
  intros Hinv Hstep. destruct Hstep as [| | | |d' Hs Ht Hok|d' Ht Hio Hok|d' Ht Hio Hok].
  - by apply inv_increment.
  - by apply inv_set_fail.
  - by apply inv_add_event.
  - by apply inv_add_event.
  - destruct (inv_begin c n d Hinv) as (d1 & Hb & ?); [done..|]. rewrite Hb in Hok. by injection Hok as <-.
  - destruct (inv_event d Hinv) as (d1 & Hb & ?); [done..|]. rewrite Hb in Hok. by injection Hok as <-.
  - destruct (inv_end c n Hordered d Hinv) as (d1 & Hb & ?); [done..|]. rewrite Hb in Hok. by injection Hok as <-.
Qed.

Lemma inv_step d d' : inv c n d → step accept checksum_update c n d d' → inv c n d'.
Proof.
  intros Hinv Hstep. destruct Hstep.
  - by apply inv_stream.
  - by apply inv_set_success.
  - by apply inv_io_step with d.
Qed.

(** The states a download of [n] parts passes through. *)
Definition reachable (initial_read_window : Z) (d : delivery) : Prop :=
  rtc (step accept checksum_update c n) (delivery_init initial_read_window (mask_new n)) d.

Lemma reachable_inv w d : 1 ≤ n < 2 ^ 32 - 8 → uint 64 w → reachable w d → inv c n d.
Proof.
  intros Hn Hw Hd. unfold reachable in Hd.
  assert (inv c n (delivery_init w (mask_new n))) as Hinit.
  { apply inv_init; [done|by apply mask_new_ok|apply mask_new_none|done]. }
  induction Hd as [|d1 d2 d3 Hstep _ IH]; [done|]. apply IH. by eapply inv_step.
Qed.
End event.
