(* ===== verification/DeliveryProps.v ===== *)
(** What ordered delivery guarantees, in every state a download passes through. *)

From Stdlib Require Import Init.Byte Sorted.
From S2P Require Import Prelude AwsCommon PriorityQueue Tracking Delivery DeliveryInv DeliveryOrder DeliveryEvent.

Section properties.
Context `{Q1 : !AwsPriorityQueue s3_request part_number} `{!AwsPriorityQueueLaws s3_request part_number Q1}.
Context `{Q2 : !AwsPriorityQueue delivery_tracking_record track_part_number}.
Context `{M : !AwsMath} `{!AwsMathLaws M}.
Context (accept : list (Z * list byte) → Z → list byte → option aws_error).
Context (checksum_update : list byte → list byte → option aws_error).
Context (c : delivery_config) (n w : Z).

(** An ordered download of [n] parts, with an initial window of [w] bytes. *)
Record download_ok : Prop := {
  download_ordered : out_of_order_delivery c = false;
  download_sink base origin resolved : sink c = RecvFile base origin resolved → uint 64 base ∧ uint 64 origin;
  download_parts : 1 ≤ n < 2 ^ 32 - 8;
  download_window : uint 64 w;
}.

Notation reachable := (reachable c n accept checksum_update w).

Lemma download_inv d : download_ok → reachable d → inv c n d.
Proof. intros [Ho Hs Hn Hw] Hd. by eapply reachable_inv. Qed.

(** C4: In ordered delivery (to a callback, a buffer, or a file with out-of-order delivery
    turned off) of a download of less than 2^32 - 8 parts, what the sink has accepted is
    always a prefix of the bodies of parts 1, 2, 3, ... in this order, in chunks that lie end to end in the object: no byte is skipped, repeated
    or swapped, whatever the order in which parts arrive, threads interleave and the
    window opens. *)
Theorem delivery_in_order d : download_ok → reachable d →
  part_number <$> streamed d = seqZ 1 (Z.of_nat (length (streamed d))) ∧
  sunk_bytes d `prefix_of` streamed_bytes d ∧ contiguous (sunk d) ∧
  (clean d → sunk_bytes d ++ concat (rest <$> waiting d) = streamed_bytes d).
Proof.
  intros Hok Hd. apply download_inv in Hd as [_ Hord [] _ _ _ _]; [|done].
  rewrite (streamed_len _ _ Hord). split_and!; [apply (order_streamed _ _ Hord)|done..].
Qed.

(** In ordered delivery with read backpressure, a body callback never receives more bytes
    than the flow-control window has ever allowed. *)
Theorem window_bounds_delivery d : download_ok → reachable d → throttled c = true →
  body_len (sunk_bytes d) ≤ read_window_running_total d.
Proof.
  intros Hok Hd Hth. apply download_inv in Hd as [[] _ _ _ _ _ _]; [|done].
  specialize (flow_bytes Hth). specialize (flow_sunk Hth). lia.
Qed.

(** The event delivery task stops at none of its assertions: its first critical
    section, each event and its last critical section return. *)
Theorem delivery_never_aborts d : download_ok → reachable d →
  match task d with
  | None => ∃ d', task_begin d = Ok d'
  | Some _ =>
      match io_event_delivery_array d with
      | _ :: _ => ∃ d', task_event accept checksum_update c d = Ok d'
      | [] => ∃ d', task_end c d = Ok d'
      end
  end.
Proof.
  intros Hok Hd. pose proof (download_inv d Hok Hd) as Hinv. destruct Hok as [Ho Hs _ _].
  destruct (task d) as [t|] eqn:Ht; [destruct (io_event_delivery_array d) as [|ev evs] eqn:Hio|].
  - destruct (inv_end c n Ho d Hinv) as (d' & ? & _); [by rewrite Ht|done|by exists d'].
  - destruct (inv_event c n accept checksum_update Ho Hs d Hinv) as (d' & ? & _);
      [by rewrite Ht|by rewrite Hio|by exists d'].
  - destruct (inv_begin c n d Hinv Ht) as (d' & ? & _). by exists d'.
Qed.

(** C6: In ordered delivery the check before success is exact.  While no part was given up, it passes only
    when all [n] parts were streamed and every byte of them reached the sink; and when
    all of them are counted as delivered, it passes. *)
Theorem validated_download_complete d : download_ok → reachable d → clean d →
  (aws_s3_meta_request_validate_parts_delivered_synced (mask d) = Success tt →
   part_number <$> streamed d = seqZ 1 n ∧ sunk_bytes d = streamed_bytes d) ∧
  (task d = None → num_parts_delivery_completed d = n →
   aws_s3_meta_request_validate_parts_delivered_synced (mask d) = Success tt).
Proof.
  intros Hok Hd Hc. pose proof (download_inv d Hok Hd) as Hinv. destruct (Hinv) as [_ Hord Hcont Hcount Hmask _ _].
  pose proof (order_next _ _ Hord). pose proof (streamed_len _ _ Hord).
  pose proof (masks_ok _ _ Hmask) as Hm. assert (1 ≤ n) by (destruct Hm; lia).
  rewrite (validate_all n) by done. split.
  - intros Hall. destruct (masks_marked _ _ Hmask n) as [Hn _]; [lia|apply Hall; lia|].
    split; [rewrite (order_streamed _ _ Hord); f_equal; lia|].
    rewrite <-(content_all _ _ Hcont Hc).
    destruct (waiting d) as [|p l] eqn:Hw; [by rewrite app_nil_r|exfalso].
    assert (part_number p.1 ∈ waiting_parts d) as Hp by (unfold waiting_parts; rewrite Hw; left).
    pose proof (waiting_parts_pos c n d Hinv _ Hp).
    destruct (masks_marked _ _ Hmask (part_number p.1)) as [_ Hnot]; [lia|apply Hall; lia|].
    apply Hnot, elem_of_app. by right.
  - intros Ht Hdone k Hk. destruct Hcount as [Hsent Hcount _]. unfold task_parts in Hcount. rewrite Ht in Hcount.
    assert (waiting d = []) as Hw by (apply length_zero_iff_nil; lia).
    destruct (masks_all _ _ Hmask k Hc) as [?|Hin]; [lia|done|].
    unfold task_completed, waiting_parts in Hin. rewrite Ht, Hw in Hin. by apply not_elem_of_nil in Hin.
Qed.

(** A download to a file writes its chunks end to end in the file too, each at the
    base offset plus its distance from the start of the requested range, without
    wrapping around. *)
Theorem file_written_contiguously d base origin resolved : download_ok → reachable d →
  sink c = RecvFile base origin resolved →
  contiguous (file_writes d) ∧ (file_writes d).*2 = (sunk d).*2 ∧
  (file_writes d).*1 = (λ start, base + (start - origin)) <$> (sunk d).*1 ∧
  Forall (λ offset, base ≤ offset ≤ U64_MAX) (file_writes d).*1.
Proof.
  intros Hok Hd Hs. apply download_inv in Hd as [_ _ [] _ _ _ _]; [|done]. rewrite Hs in content_files.
  specialize (content_offsets _ _ _ Hs). rewrite content_files. split_and!.
  - clear -content_chunks. induction (sunk d) as [|[s b] l IH]; [done|]. destruct l as [|[s' b'] l]; [done|].
    destruct content_chunks as [-> Hl]. simpl. split; [lia|]. by apply IH.
  - by rewrite <-list_fmap_compose.
  - by rewrite <-!list_fmap_compose.
  - rewrite <-list_fmap_compose, Forall_fmap. eapply list.Forall_impl; [exact content_offsets|].
    intros [s b]; simpl. lia.
Qed.

(** While no part was given up, a whole-object checksum that needs its bytes in order
    has been fed exactly the bytes the sink has accepted. *)
Theorem checksum_covers_delivery d : download_ok → reachable d → clean d → feeds_running_checksum c = true →
  running_sum d = sunk_bytes d.
Proof. intros Hok Hd Hc Hf. apply download_inv in Hd as [_ _ [] _ _ _ _]; [|done]. auto. Qed.

(** Queued events of a download with no result are delivered without further help:
    the delivery task is scheduled, unless backpressure applies and the window is used up. *)
Theorem delivery_scheduled d : download_ok → reachable d →
  event_delivery_array d ≠ [] → finish_result d = None →
  (throttled c = true → num_bytes_delivery_completed d < read_window_running_total d) →
  event_delivery_task_scheduled d = true.
Proof.
  intros Hok Hd Harr Hf Hw. apply download_inv in Hd as [_ _ _ _ _ _ Hs]; [|done].
  destruct (Hs Harr) as [?|[?|[Hth ?]]]; [done..|]. specialize (Hw Hth). lia.
Qed.

(** Between runs of the delivery task the counters are exact: the parts sent and not
    completed are those that wait, and the reported prefix is the number of bytes the
    sink has accepted. *)
Theorem delivery_accounting d : download_ok → reachable d → task d = None →
  num_parts_delivery_sent d = Z.of_nat (length (streamed d)) ∧
  num_parts_delivery_sent d - num_parts_delivery_completed d = Z.of_nat (length (waiting d)) ∧
  num_bytes_delivered (prefix d) mod 2 ^ 64 = body_len (sunk_bytes d) mod 2 ^ 64 ∧
  num_bytes_delivered_total (prefix d) mod 2 ^ 64 = body_len (sunk_bytes d) mod 2 ^ 64.
Proof.
  intros Hok Hd Ht. apply download_inv in Hd as [_ _ _ [] _ [H1 H2] _]; [|done].
  unfold task_parts, task_bytes in *. rewrite Ht, ?Z.add_0_r in *. split_and!; [done|lia|done..].
Qed.

(** * A used-up window *)

(** Steps that leave the window as it is. *)
Definition quiet_step (d d' : delivery) : Prop :=
  step accept checksum_update c n d d' ∧ read_window_running_total d' = read_window_running_total d.

(** A body that waits while the window is used up. *)
Definition stalled (p : s3_request * Z) (d : delivery) : Prop :=
  num_bytes_delivery_completed d = read_window_running_total d ∧ p ∈ waiting d.

Lemma stalled_stream p fuel d : stalled p d → stalled p (stream_ready fuel d).
Proof.
  revert d. induction fuel as [|fuel IH]; intros d Hd; [done|]. cbn [stream_ready].
  pose proof (pop_next_cases d) as Hpop.
  destruct (s_s3_meta_request_body_streaming_pop_next_synced d) as [[r d1]|]; [|done].
  destruct Hpop as (_ & q & _ & ->). apply IH. rewrite add_event_Some. destruct Hd as [Hw Hp].
  split; [done|]. change (p ∈ waiting (popped d q r)). rewrite waiting_popped, elem_of_app. by left.
Qed.

Lemma stalled_event p d d' : download_ok → inv c n d → throttled c = true → response_body p.1 ≠ [] → stalled p d →
  task d ≠ None → io_event_delivery_array d ≠ [] →
  task_event accept checksum_update c d = Ok d' → stalled p d'.
Proof.
  intros [Ho Hs _ _] Hinv Hth Hbody [Hw Hp] Ht He Hev.
  destruct (task d) as [t|] eqn:Htask; [|done]. destruct (io_event_delivery_array d) as [|ev evs] eqn:Hio; [done|].
  destruct (flow_task _ _ _ (inv_flow _ _ _ Hinv) t Htask) as [_ Hallow]. specialize (Hallow Hth).
  destruct (task_event_spec c n accept checksum_update Ho Hs d t ev evs Hinv Htask Hio) as (d1 & t' & Hev' & Hres).
  rewrite Hev' in Hev. apply Ok_inj in Hev as <-. rewrite (waiting_before d t ev evs Htask Hio) in Hp.
  unfold stalled, waiting. rewrite (undelivered_after c d t ev evs d1 t' Hres).
  destruct Hres as [Hev|r -> Hr|r k -> Hr _ Ha|r k m next sum e al -> Hm Hm2
    |r k body files window sched al t1 m start -> Hm _ Hm2]; simpl.
  - split; [done|]. rewrite bodies_app. unfold bodies at 2 in Hp. simpl in Hp. by rewrite Hev in Hp.
  - split; [done|]. rewrite bodies_app.
    replace (incomplete_deliver_events (part_delivered t r 0)) with (incomplete_deliver_events t)
      by (unfold part_delivered; simpl; by destruct (error_code t)).
    revert Hp. simpl. rewrite !elem_of_app, elem_of_cons. intros [?|[->|?]]; [by left|by simpl in Hbody|by right].
  - split; [done|]. by rewrite reverse_cons, !bodies_app, <-app_assoc, <-bodies_app.
  - specialize (Hm2 Hth). lia.
  - specialize (Hm2 Hth). lia.
Qed.

Lemma stalled_step p d d' : download_ok → inv c n d → throttled c = true → response_body p.1 ≠ [] →
  stalled p d → quiet_step d d' → stalled p d'.
Proof.
  intros Hok Hinv Hth Hbody Hst [Hstep Hwin]. pose proof (download_ordered Hok) as Ho.
  destruct Hstep as [r Hr _ _| |d' [b Hb|e|b|Htel|d0 Hs Ht He|d0 Ht Hio He|d0 Ht Hio He]].
  - unfold aws_s3_meta_request_stream_response_body_synced. rewrite Ho. apply stalled_stream.
    unfold s_s3_meta_request_body_streaming_push_synced. by destruct (aws_priority_queue_push _ _).
  - unfold aws_s3_meta_request_set_success_synced. by destruct (finish_result d).
  - destruct (increment_read_window_spec c d b Hb) as (w' & s & Heq & _);
      [apply (flow_window _ _ _ (inv_flow _ _ _ Hinv))|].
    rewrite Heq in *. simpl in Hwin. destruct Hst. by split; simpl; rewrite ?Hwin.
  - unfold aws_s3_meta_request_set_fail_synced. by destruct (finish_result d).
  - destruct Hst. rewrite add_event_Some. split; [done|]. rewrite waiting_add. apply elem_of_app. by left.
  - destruct Hst. rewrite add_event_Some. split; [done|]. rewrite waiting_add. apply elem_of_app. by left.
  - destruct Hst as [Hw Hp]. unfold task_begin in He.
    rewrite (flow_idle _ _ _ (inv_flow _ _ _ Hinv) Ht), bool_decide_true in He by done.
    apply Ok_inj in He as <-. split; [done|].
    unfold waiting, undelivered in *. rewrite Ht, (flow_idle _ _ _ (inv_flow _ _ _ Hinv) Ht) in Hp.
    simpl in *. by rewrite app_nil_r.
  - by eapply stalled_event.
  - destruct (task d) as [t|] eqn:Htask; [|done].
    destruct (task_end_spec c n Ho d t Hinv Htask) as (s & m & He' & _). rewrite He' in He. apply Ok_inj in He as <-.
    destruct Hst as [Hw Hp]. split; [done|]. change (p ∈ waiting (ended d t (failed_with d (error_code t)) s m)).
    by rewrite (waiting_ended d t _ s m Htask Hio).
Qed.

Lemma stream_finish fuel d : finish_result (stream_ready fuel d) = finish_result d.
Proof.
  revert d. induction fuel as [|fuel IH]; intros d; [done|]. cbn [stream_ready].
  pose proof (pop_next_cases d) as Hpop.
  destruct (s_s3_meta_request_body_streaming_pop_next_synced d) as [[r d1]|]; [|done].
  destruct Hpop as (_ & q & _ & ->). rewrite IH. by rewrite add_event_Some.
Qed.

Lemma finish_result_stays d d' : download_ok → inv c n d → step accept checksum_update c n d d' →
  finish_result d ≠ None → finish_result d' ≠ None.
Proof.
  intros Hok Hinv Hstep Hf. destruct Hok as [Ho Hs _ _].
  destruct Hstep as [r Hr _ _| |d' [b Hb|e|b|Htel|d0 Hsc Ht He|d0 Ht Hio He|d0 Ht Hio He]].
  - unfold aws_s3_meta_request_stream_response_body_synced. rewrite Ho.
    rewrite stream_finish. unfold s_s3_meta_request_body_streaming_push_synced. by destruct (aws_priority_queue_push _ _).
  - unfold aws_s3_meta_request_set_success_synced. by destruct (finish_result d) eqn:Hd; rewrite ?Hd.
  - destruct (increment_read_window_spec c d b Hb) as (w' & s & -> & _);
      [apply (flow_window _ _ _ (inv_flow _ _ _ Hinv))|done].
  - unfold aws_s3_meta_request_set_fail_synced. by destruct (finish_result d) eqn:Hd; rewrite ?Hd.
  - by rewrite add_event_Some.
  - by rewrite add_event_Some.
  - unfold task_begin in He. destruct (bool_decide _); [|done]. by apply Ok_inj in He as <-.
  - destruct (task d) as [t|] eqn:Htask; [|done]. destruct (io_event_delivery_array d) as [|ev evs] eqn:Hi; [done|].
    destruct (task_event_spec c n accept checksum_update Ho Hs d t ev evs Hinv Htask Hi) as (d1 & t' & He' & Hres).
    rewrite He' in He. apply Ok_inj in He as <-. by destruct Hres.
  - destruct (task d) as [t|] eqn:Htask; [|done].
    destruct (task_end_spec c n Ho d t Hinv Htask) as (s & m & He' & _). rewrite He' in He. apply Ok_inj in He as <-.
    simpl. unfold failed_with. by destruct (finish_result d).
Qed.

(** A body that waits while the window is used up is not given up when the download is
    cancelled or fails: however long the download runs, and whatever else happens, it
    waits until the window is incremented, the part is not counted as completed, and so
    the meta request, which waits for its parts, does not finish. *)
Theorem cancel_waits_for_window d d' p : download_ok → reachable d →
  throttled c = true → num_bytes_delivery_completed d = read_window_running_total d →
  p ∈ waiting d → response_body p.1 ≠ [] →
  rtc quiet_step (aws_s3_meta_request_cancel d) d' →
  finish_result d' ≠ None ∧ p ∈ waiting d' ∧ num_parts_delivery_completed d' < num_parts_delivery_sent d'.
Proof.
  intros Hok Hd Hth Hw Hp Hbody Hsteps. pose proof (download_inv d Hok Hd) as Hinv.
  assert (inv c n (aws_s3_meta_request_cancel d)) as Hinv' by by apply inv_set_fail.
  assert (stalled p (aws_s3_meta_request_cancel d) ∧ finish_result (aws_s3_meta_request_cancel d) ≠ None) as [Hst Hf].
  { unfold aws_s3_meta_request_cancel, aws_s3_meta_request_set_fail_synced.
    destruct (finish_result d) eqn:He; (split; [done|]); [by rewrite He|done]. }
  assert (inv c n d' ∧ stalled p d' ∧ finish_result d' ≠ None) as ([_ _ _ Hc _ _ _] & [_ Hp'] & Hf').
  { clear Hp Hw Hinv Hd. induction Hsteps as [|d1 d2 d3 Hq _ IH]; [done|].
    apply IH.
    - destruct Hok. destruct Hq. by eapply inv_step.
    - by eapply stalled_step.
    - destruct Hq as [Hq _]. by eapply finish_result_stays. }
  split_and!; [done..|]. destruct Hc as [_ Hc ?].
  destruct (waiting d'); [by apply not_elem_of_nil in Hp'|]. simpl in Hc. lia.
Qed.
End properties.

(** * A download, step by step *)

Inductive op :=
| OpStream (r : s3_request)
| OpWindow (bytes : Z)
| OpCancel
| OpBegin
| OpEvent
| OpEnd.

Section run.
Context `{Q1 : !AwsPriorityQueue s3_request part_number}.
Context `{Q2 : !AwsPriorityQueue delivery_tracking_record track_part_number}.
Context `{M : !AwsMath}.
Context (accept : list (Z * list byte) → Z → list byte → option aws_error).
Context (checksum_update : list byte → list byte → option aws_error).
Context (c : delivery_config) (n : Z).

Definition request_okb (r : s3_request) : bool :=
  (1 <=? part_number r) && (part_number r <=? n) && (0 <=? part_range_start r) &&
  (part_range_start r + body_len (response_body r) <? 2 ^ 64).

Definition of_res {A} (m : res A) : option A := match m with Ok a => Some a | _ => None end.

Definition run_op (d : delivery) (o : op) : option delivery :=
  match o with
  | OpStream r =>
      if request_okb r && negb (bool_decide (part_number r ∈ part_number <$> streamed d)) &&
         negb (bool_decide (part_number r ∈ part_number <$> pq_elems (pending_body_streaming_requests d)))
      then Some (aws_s3_meta_request_stream_response_body_synced c d r) else None
  | OpWindow bytes =>
      if (0 <=? bytes) && (bytes <? 2 ^ 64) then Some (aws_s3_meta_request_increment_read_window c d bytes) else None
  | OpCancel => Some (aws_s3_meta_request_cancel d)
  | OpBegin => match task d with
               | None => if event_delivery_task_scheduled d then of_res (task_begin d) else None
               | Some _ => None
               end
  | OpEvent => match task d, io_event_delivery_array d with
               | Some _, _ :: _ => of_res (task_event accept checksum_update c d)
               | _, _ => None
               end
  | OpEnd => match task d, io_event_delivery_array d with
             | Some _, [] => of_res (task_end c d)
             | _, _ => None
             end
  end.

Fixpoint run (d : delivery) (ops : list op) : option delivery :=
  match ops with
  | [] => Some d
  | o :: ops => d ← run_op d o; run d ops
  end.

Lemma of_res_Some {A} (m : res A) a : of_res m = Some a → m = Ok a.
Proof. destruct m; simpl; [by intros [= ->]|done..]. Qed.

Lemma run_op_step d o d' : run_op d o = Some d' → step accept checksum_update c n d d'.
Proof.
  destruct o as [r|bytes| | | |]; simpl.
  - destruct (request_okb r) eqn:Hr; simpl; [|done]. do 2 (case_bool_decide; simpl; [done|]).
    intros Heq. apply (inj Some) in Heq as <-. apply step_stream; [|done..].
    unfold request_okb in Hr. rewrite !andb_true_iff, !Z.leb_le, Z.ltb_lt in Hr. split; lia.
  - destruct (_ && _) eqn:Hb; [|done]. intros Heq. apply (inj Some) in Heq as <-. apply step_io, step_window.
    rewrite andb_true_iff, Z.leb_le, Z.ltb_lt in Hb. done.
  - intros Heq. apply (inj Some) in Heq as <-. apply step_io, step_fail.
  - destruct (task d) eqn:Ht; [done|]. destruct (event_delivery_task_scheduled d) eqn:Hs; [|done].
    intros Heq%of_res_Some. by apply step_io, step_begin.
  - destruct (task d) eqn:Ht; [|done]. destruct (io_event_delivery_array d) eqn:Hio; [done|].
    intros Heq%of_res_Some. apply step_io, step_event; [by rewrite Ht|by rewrite Hio|done].
  - destruct (task d) eqn:Ht; [|done]. destruct (io_event_delivery_array d) eqn:Hio; [|done].
    intros Heq%of_res_Some. apply step_io, step_end; [by rewrite Ht|done|done].
Qed.

Lemma run_steps d ops d' : run d ops = Some d' → rtc (step accept checksum_update c n) d d'.
Proof.
  revert d. induction ops as [|o ops IH]; intros d; simpl; [by intros [= ->]|].
  destruct (run_op d o) as [d1|] eqn:Ho; simpl; [|done]. intros Hr. eapply rtc_l; [by apply run_op_step in Ho|by apply IH].
Qed.
End run.

#[local] Existing Instances aws_math_ref aws_math_ref_laws sorted_pq sorted_pq_laws.

Module DeliveryDemo.
Definition accept_all (_ : list (Z * list byte)) (_ : Z) (_ : list byte) : option aws_error := None.
Definition checksum_ok (_ _ : list byte) : option aws_error := None.

(** A callback with backpressure and a whole-object checksum, and a file. *)
Definition conf : delivery_config := mkDelivery false true true true false true RecvCallback.
Definition file_conf : delivery_config := mkDelivery false false false true false false (RecvFile 100 10 true).

Definition p1 : s3_request := mkRequest 1 10 11 [x61; x62]%byte.
Definition p2 : s3_request := mkRequest 2 12 14 [x63; x64; x65]%byte.
Definition p3 : s3_request := mkRequest 3 15 15 [x66]%byte.

Definition start : delivery := delivery_init 3 (mask_new 3).
Definition go (c : delivery_config) (d : delivery) (ops : list op) : delivery :=
  default d (run accept_all checksum_ok c 3 d ops).

(** Part 2 arrives first; the window of 3 bytes ends inside of it. *)
Definition ops1 : list op := [OpStream p2; OpStream p1; OpBegin; OpEvent; OpEvent; OpEnd].
Definition ops2 : list op := [OpWindow 10; OpStream p3; OpBegin; OpEvent; OpEvent; OpEnd].
Definition ops3 : list op := [OpStream p3; OpBegin; OpEvent; OpEvent; OpEnd].
Definition mid : delivery := go conf start ops1.
Definition full : delivery := go conf mid ops2.
Definition to_file : delivery := go file_conf start (ops1 ++ [OpStream p3; OpBegin; OpEvent; OpEnd]).
(** Before the first event is handled. *)
Definition running : delivery := go conf start [OpStream p2; OpStream p1; OpBegin].

Lemma go_steps c d ops :
  (match run accept_all checksum_ok c 3 d ops with Some _ => true | None => false end) = true →
  rtc (step accept_all checksum_ok c 3) d (go c d ops).
Proof.
  intros Hr. apply (run_steps _ _ _ _ _ ops). unfold go. by destruct (run _ _ _ _ _ _).
Qed.

Fixpoint quietb (c : delivery_config) (d : delivery) (ops : list op) : bool :=
  match ops with
  | [] => true
  | o :: ops =>
      match run_op accept_all checksum_ok c 3 d o with
      | Some d1 => (read_window_running_total d1 =? read_window_running_total d) && quietb c d1 ops
      | None => false
      end
  end.

Lemma go_quiet c d ops : quietb c d ops = true → rtc (quiet_step accept_all checksum_ok c 3) d (go c d ops).
Proof.
  unfold go. revert d. induction ops as [|o ops IH]; intros d; cbn [quietb run]; [done|].
  destruct (run_op _ _ _ _ _ _) as [d1|] eqn:Ho; [|done]. rewrite andb_true_iff, Z.eqb_eq. intros [Hw Hq].
  eapply rtc_l; [split; [by eapply run_op_step|done]|]. specialize (IH d1 Hq). simpl.
  destruct (run _ _ _ _ d1 ops) eqn:Hr; [done|]. exfalso. clear -Hq Hr. revert d1 Hq Hr.
  induction ops as [|o ops IH]; intros d1; cbn [quietb run]; [done|].
  destruct (run_op _ _ _ _ _ _) as [d2|]; [|done]. rewrite andb_true_iff. intros [_ Hq] Hr. by eapply IH.
Qed.

Lemma conf_ok : download_ok conf 3 3.
Proof. by split. Qed.
Lemma file_ok : download_ok file_conf 3 3.
Proof. split; [done| |done|done]. intros ? ? ? [= <- <- <-]. done. Qed.

Lemma mid_reachable : reachable conf 3 accept_all checksum_ok 3 mid.
Proof. apply go_steps. vm_compute. reflexivity. Qed.
Lemma full_reachable : reachable conf 3 accept_all checksum_ok 3 full.
Proof. unfold reachable. transitivity mid; [apply mid_reachable|]. apply go_steps. vm_compute. reflexivity. Qed.
Lemma file_reachable : reachable file_conf 3 accept_all checksum_ok 3 to_file.
Proof. apply go_steps. vm_compute. reflexivity. Qed.
Lemma running_reachable : reachable conf 3 accept_all checksum_ok 3 running.
Proof. apply go_steps. vm_compute. reflexivity. Qed.
End DeliveryDemo.

Import DeliveryDemo.

Lemma delivery_in_order_witness :
  sunk mid = [(10, [x61; x62]); (12, [x63])]%byte ∧ sunk_bytes mid `prefix_of` streamed_bytes mid.
Proof.
  split; [vm_compute; reflexivity|]. exact (proj1 (proj2 (delivery_in_order _ _ _ _ _ mid conf_ok mid_reachable))).
Defined.

Lemma window_bounds_delivery_witness :
  body_len (sunk_bytes mid) = 3 ∧ body_len (sunk_bytes mid) ≤ read_window_running_total mid.
Proof.
  split; [vm_compute; reflexivity|]. exact (window_bounds_delivery _ _ _ _ _ mid conf_ok mid_reachable eq_refl).
Defined.

Lemma delivery_never_aborts_witness : ∃ d', task_event accept_all checksum_ok conf running = Ok d'.
Proof.
  pose proof (delivery_never_aborts _ _ _ _ _ running conf_ok running_reachable) as H.
  destruct (task running) eqn:Ht; [|vm_compute in Ht; discriminate].
  destruct (io_event_delivery_array running) eqn:Hio; [vm_compute in Hio; discriminate|]. exact H.
Defined.

Lemma validated_download_complete_witness :
  sunk_bytes full = [x61; x62; x63; x64; x65; x66]%byte ∧ sunk_bytes full = streamed_bytes full.
Proof.
  split; [vm_compute; reflexivity|].
  assert (clean full) as Hc by (vm_compute; reflexivity).
  refine (proj2 (proj1 (validated_download_complete _ _ _ _ _ full conf_ok full_reachable Hc) _)).
  vm_compute. reflexivity.
Defined.

Lemma file_written_contiguously_witness :
  file_writes to_file = [(100, [x61; x62]); (102, [x63; x64; x65]); (105, [x66])]%byte ∧ contiguous (file_writes to_file).
Proof.
  split; [vm_compute; reflexivity|].
  exact (proj1 (file_written_contiguously _ _ _ _ _ to_file 100 10 true file_ok file_reachable eq_refl)).
Defined.

Lemma checksum_covers_delivery_witness : running_sum mid = [x61; x62; x63]%byte ∧ running_sum mid = sunk_bytes mid.
Proof.
  split; [vm_compute; reflexivity|].
  assert (clean mid) as Hc by (vm_compute; reflexivity).
  exact (checksum_covers_delivery _ _ _ _ _ mid conf_ok mid_reachable Hc eq_refl).
Defined.

Definition queued : delivery := go conf start [OpStream p1].
Lemma queued_reachable : reachable conf 3 accept_all checksum_ok 3 queued.
Proof. apply go_steps. vm_compute. reflexivity. Qed.

Lemma delivery_scheduled_witness : event_delivery_task_scheduled queued = true.
Proof.
  refine (delivery_scheduled _ _ _ _ _ queued conf_ok queued_reachable _ _ _).
  - vm_compute. discriminate.
  - vm_compute. reflexivity.
  - intros _. vm_compute. reflexivity.
Defined.

Lemma delivery_accounting_witness :
  num_parts_delivery_sent mid = 2 ∧ num_parts_delivery_sent mid - num_parts_delivery_completed mid = 1.
Proof.
  split; [vm_compute; reflexivity|].
  transitivity (Z.of_nat (length (waiting mid))); [|vm_compute; reflexivity].
  assert (task mid = None) as Ht by (vm_compute; reflexivity).
  exact (proj1 (proj2 (delivery_accounting _ _ _ _ _ mid conf_ok mid_reachable Ht))).
Defined.

(** The cancelled download runs its delivery task to the end, in vain. *)
Definition cancelled : delivery := go conf (aws_s3_meta_request_cancel mid) ops3.

Lemma cancelled_quiet : rtc (quiet_step accept_all checksum_ok conf 3) (aws_s3_meta_request_cancel mid) cancelled.
Proof. apply go_quiet. vm_compute. reflexivity. Qed.

Lemma cancel_waits_for_window_witness :
  num_parts_delivery_sent cancelled = 3 ∧ num_parts_delivery_completed cancelled < num_parts_delivery_sent cancelled.
Proof.
  split; [vm_compute; reflexivity|].
  refine (proj2 (proj2 (cancel_waits_for_window accept_all checksum_ok conf 3 3 mid cancelled (p2, 1)
    conf_ok mid_reachable _ _ _ _ _))).
  - reflexivity.
  - vm_compute. reflexivity.
  - vm_compute. left.
  - discriminate.
  - apply cancelled_quiet.
Defined.
