(* ===== verification/AutoRangedPut.v ===== *)
(** Uploads in parts (source/s3_auto_ranged_put.c): a new upload and one that resumes, the
    update that asks for the next request or finishes the upload, the preparation of the
    requests, the handler of finished requests, and pausing. *)

From Stdlib Require Import Init.Byte String.
From S2P Require Import Prelude AwsCommon ByteCursor HttpHeaders HttpMessage Checksums ChecksumContext Listing BodyStream.
From S2P Require Import PriorityQueue PartMath Tracking Delivery.

(** * Data *)

Inductive put_request_tag :=
| TAG_LIST_PARTS
| TAG_CREATE_MULTIPART_UPLOAD
| TAG_PART
| TAG_ABORT_MULTIPART_UPLOAD
| TAG_COMPLETE_MULTIPART_UPLOAD.

#[export] Instance put_request_tag_eq_dec : EqDecision put_request_tag.
Proof. solve_decision. Defined.

Inductive meta_request_type := TYPE_DEFAULT | TYPE_GET_OBJECT | TYPE_PUT_OBJECT | TYPE_COPY_OBJECT.

#[export] Instance meta_request_type_eq_dec : EqDecision meta_request_type.
Proof. solve_decision. Defined.

(** [struct aws_s3_meta_request_resume_token], the fields of uploads. *)
Record resume_token := mkToken {
  token_type : meta_request_type;
  token_multipart_upload_id : option (list byte);
  token_part_size : Z;
  token_total_num_parts : Z;
  token_num_parts_completed : Z;
}.

(** [struct aws_s3_mpu_part_info] *)
Record mpu_part_info := mkPartInfo {
  info_size : Z;
  info_etag : option (list byte);
  info_checksum_context : option checksum_context;
  info_was_previously_uploaded : bool;
}.
#[export] Instance mpu_part_info_eta : Eta mpu_part_info := λ i,
  mkPartInfo (info_size i) (info_etag i) (info_checksum_context i) (info_was_previously_uploaded i).

(** The part of [struct aws_s3_request] that uploads use.  [put_parts] is the payload of a
    CompleteMultipartUpload, the number and ETag of each part; [put_body_stream] what a
    part that streams from its file will send. *)
Record put_request := mkPutRequest {
  put_tag : put_request_tag;
  put_part_number : Z;
  put_range_start : Z;
  put_range_end : Z;
  put_content_length : Z;
  put_was_previously_uploaded : bool;
  put_is_noop : bool;
  put_always_send : bool;
  put_from_pool : bool;
  put_ticket : bool;
  put_body : list byte;
  put_body_capacity : Z;
  put_buffer_size : Z;
  put_fio_streaming : bool;
  put_body_stream : option (list byte);
  put_num_times_prepared : Z;
  put_parts : list (Z * list byte);
}.
#[export] Instance put_request_eta : Eta put_request := λ r,
  mkPutRequest (put_tag r) (put_part_number r) (put_range_start r) (put_range_end r) (put_content_length r)
    (put_was_previously_uploaded r) (put_is_noop r) (put_always_send r) (put_from_pool r) (put_ticket r) (put_body r)
    (put_body_capacity r) (put_buffer_size r) (put_fio_streaming r) (put_body_stream r) (put_num_times_prepared r)
    (put_parts r).

(** What is fixed when the meta request is made. *)
Record put_config := mkPutConfig {
  has_content_length : bool;
  content_length : Z;
  total_num_parts_from_content_length : Z;
  put_part_size : Z;
  put_resume_token : option resume_token;
  body_kind : body_source;
  should_stream : bool;
  max_parts_pending_read : Z;
  put_checksum_config : checksum_config;
  has_upload_review_callback : bool;
  put_has_progress_callback : bool;
  put_has_telemetry_callback : bool;
  has_headers_callback : bool;
  put_request_path : list byte;
  put_debug_build : bool;
}.
#[export] Instance put_config_eta : Eta put_config := λ c,
  mkPutConfig (has_content_length c) (content_length c) (total_num_parts_from_content_length c) (put_part_size c)
    (put_resume_token c) (body_kind c) (should_stream c) (max_parts_pending_read c) (put_checksum_config c)
    (has_upload_review_callback c) (put_has_progress_callback c) (put_has_telemetry_callback c) (has_headers_callback c)
    (put_request_path c) (put_debug_build c).

(** [AWS_ASSERT], which only builds for debugging evaluate; [assert_fatal] is
    [AWS_FATAL_ASSERT], which all do. *)
Definition aws_assert (c : put_config) (b : bool) : res unit := if put_debug_build c then assert_fatal b else Ok tt.

Section state.
Context `{St : !AwsStreams}.

(** [synced_data] and [threaded_update_data] of the meta request, the reader of the body and
    the writes of the caller, the headers given to the headers callback, and the checksum of
    the object that the completing request carries. *)
Record put_state := mkPut {
  upload_id : option (list byte);
  next_part_number : Z;
  part_list : list (option mpu_part_info);
  list_parts_continuation_token : option (list byte);
  put_num_parts_started : Z;
  put_num_parts_completed : Z;
  put_num_parts_successful : Z;
  put_num_parts_failed : Z;
  put_num_parts_noop : Z;
  put_num_parts_pending_read : Z;
  needed_response_headers : option http_headers;
  is_body_stream_at_end : bool;
  list_parts_error_code : option aws_error;
  create_multipart_upload_error_code : option aws_error;
  complete_multipart_upload_error_code : option aws_error;
  abort_multipart_upload_error_code : option aws_error;
  list_parts_started : bool;
  list_parts_continues : bool;
  list_parts_completed : bool;
  create_multipart_upload_sent : bool;
  create_multipart_upload_completed : bool;
  complete_multipart_upload_sent : bool;
  complete_multipart_upload_completed : bool;
  abort_multipart_upload_sent : bool;
  abort_multipart_upload_completed : bool;
  put_writes : async_write;
  put_reader : reader;
  reported_headers : option http_headers;
  put_full_object_checksum : list byte;
}.
#[export] Instance put_state_eta : Eta put_state := λ s,
  mkPut (upload_id s) (next_part_number s) (part_list s) (list_parts_continuation_token s) (put_num_parts_started s)
    (put_num_parts_completed s) (put_num_parts_successful s) (put_num_parts_failed s) (put_num_parts_noop s)
    (put_num_parts_pending_read s) (needed_response_headers s) (is_body_stream_at_end s) (list_parts_error_code s)
    (create_multipart_upload_error_code s) (complete_multipart_upload_error_code s) (abort_multipart_upload_error_code s)
    (list_parts_started s) (list_parts_continues s) (list_parts_completed s) (create_multipart_upload_sent s)
    (create_multipart_upload_completed s) (complete_multipart_upload_sent s) (complete_multipart_upload_completed s)
    (abort_multipart_upload_sent s) (abort_multipart_upload_completed s) (put_writes s) (put_reader s) (reported_headers s)
    (put_full_object_checksum s).
End state.

(** * A new upload *)

Definition g_streaming_buffer_size : Z := MB_TO_BYTES 1.

(** [s_max_parts_pending_read_init]: the environment variable, if it is set and not empty. *)
Definition s_max_parts_pending_read_init `{!AwsByteCursor} (from_env : option (list byte)) : Z :=
  match from_env with
  | Some text =>
      match aws_byte_cursor_utf8_parse_u64 text with
      | Some parsed => if (0 <? parsed) && (parsed <=? U32_MAX) then parsed else 5
      | None => 5
      end
  | None => 5
  end.

(** The part size and number of parts of an upload, from the resume token if there is one. *)
Definition s_try_update_part_info_from_resume_token (content_len : Z) (token : option resume_token)
    (part_size total_num_parts : Z) : result aws_error (Z * Z) :=
  let invalid := Failure AWS_ERROR_INVALID_ARGUMENT in
  match token with
  | None => Success (part_size, total_num_parts)
  | Some t =>
      if negb (bool_decide (token_type t = TYPE_PUT_OBJECT)) then invalid
      else if bool_decide (token_multipart_upload_id t = None) then invalid
      else if token_part_size t <? g_s3_min_upload_part_size then invalid
      else if g_s3_max_num_upload_parts <? wrap 32 (token_total_num_parts t) then invalid
      else
        let num_parts := wrap 32 (content_len / token_part_size t) in
        let num_parts := if 0 <? content_len mod token_part_size t then num_parts +[32] 1 else num_parts in
        if negb (token_total_num_parts t =? num_parts) then invalid
        else Success (token_part_size t, wrap 32 (token_total_num_parts t))
  end.

Definition s_create_multipart_upload_copy_headers : list (list byte) :=
  [lit "x-amz-server-side-encryption-customer-algorithm";
   lit "x-amz-server-side-encryption-customer-key-MD5";
   lit "x-amz-server-side-encryption-context"].

Section put.
Context `{B : !AwsByteCursor} `{H : !AwsHttpHeaders} `{D : !AwsDigest} `{X : !AwsXml} `{St : !AwsStreams}.
Context `{M : !AwsMath}.
Context {Q1 : AwsPriorityQueue s3_request part_number}.
Context {Q2 : AwsPriorityQueue delivery_tracking_record track_part_number}.

(** As the allocation leaves it, with the body to read from. *)
Definition put_state_new (c : put_config) (r : reader) : put_state :=
  mkPut None 1 [] None 0 0 0 0 0 0 None false None None None None
    false false false false false false false false false no_writes r None
    (full_object_checksum (put_checksum_config c)).

(** [request_path] and [initial_headers] are those of the message of the caller. *)
Definition s_try_init_resume_state_from_persisted_data (c : put_config) (s : put_state) (token : option resume_token)
    (request_path : option (list byte)) (initial_headers : http_headers) : res (result aws_error put_state) :=
  match token with
  | None => Ok (Success (s <| list_parts_completed := true |> <| list_parts_started := true |>))
  | Some t =>
      _ ← assert_fatal (has_content_length c);
      match request_path with
      | None => Ok (Failure AWS_ERROR_INVALID_ARGUMENT)
      | Some path =>
          let s := s <| put_num_parts_started := 0 |> <| put_num_parts_completed := 0 |> <| put_num_parts_noop := 0 |>
                     <| create_multipart_upload_sent := true |> <| create_multipart_upload_completed := true |> in
          let s := match token_multipart_upload_id t with
                   | Some id => s <| upload_id := Some id |>
                   | None => s
                   end in
          _ ← assert_fatal (0 <? length path)%nat;
          _ ← assert_fatal (0 <? length (default [] (upload_id s)))%nat;
          Ok (Success (s <| needed_response_headers :=
            Some (copy_named_headers s_create_multipart_upload_copy_headers initial_headers []) |>))
      end
  end.

(** The configuration [c] holds the options of the caller; what is computed here replaces
    its part size, length and number of parts. *)
Definition aws_s3_meta_request_auto_ranged_put_new (c : put_config) (client_max_part_size part_size : Z) (has_length : bool)
    (length num_parts : Z) (request_path : option (list byte)) (initial_headers : http_headers) (r : reader)
    : res (result aws_error (put_config * put_state)) :=
  match s_try_update_part_info_from_resume_token length (put_resume_token c) part_size num_parts with
  | Failure e => Ok (Failure e)
  | Success (part_size, num_parts) =>
      let file_streaming := should_stream c && bool_decide (body_kind c = BodyParallelStream) in
      if negb file_streaming && (client_max_part_size <? part_size) then
        Ok (Failure AWS_ERROR_S3_PART_SIZE_EXCEEDS_MEMORY_LIMIT)
      else
        let c := c <| put_part_size := part_size |> <| has_content_length := has_length |>
                   <| content_length := if has_length then length else 0 |>
                   <| total_num_parts_from_content_length := if has_length then num_parts else 0 |> in
        s ← s_try_init_resume_state_from_persisted_data c (put_state_new c r) (put_resume_token c) request_path initial_headers;
        match s with
        | Failure e => Ok (Failure e)
        | Success s =>
            let c := if (0 <? Datatypes.length (full_object_checksum (put_checksum_config c)))%nat
                     then c <| put_checksum_config ::= λ k, k <| config_location := AWS_SCL_TRAILER |> |> else c in
            Ok (Success (c, s))
        end
  end.

(** * Making requests *)

(** [aws_s3_request_new] *)
Definition put_request_new (c : put_config) (tag : put_request_tag) (from_pool always_send : bool) : put_request :=
  mkPutRequest tag 0 0 0 0 false false always_send from_pool false [] 0
    (if should_stream c && bool_decide (body_kind c = BodyParallelStream)
     then Z.min (put_part_size c) (2 *[64] g_streaming_buffer_size) else put_part_size c)
    false None 0 [].

(** The request with its range and length, and whether that could be computed. *)
Definition s_compute_request_body_size (c : put_config) (r : put_request) : put_request * result aws_error unit :=
  let request_body_size :=
    if has_content_length c && (put_part_number r =? total_num_parts_from_content_length c) then
      let content_remainder := content_length c mod put_part_size c in
      if 0 <? content_remainder then content_remainder else put_part_size c
    else put_part_size c in
  match aws_mul_u64_checked (put_part_number r -[32] 1) (put_part_size c) with
  | None => (r, Failure AWS_ERROR_OVERFLOW_DETECTED)
  | Some start =>
      let r := r <| put_range_start := start |> in
      match aws_add_u64_checked start (request_body_size -[64] 1) with
      | None => (r, Failure AWS_ERROR_OVERFLOW_DETECTED)
      | Some last => (r <| put_range_end := last |> <| put_content_length := request_body_size |>, Success tt)
      end
  end.

Definition s_should_skip_scheduling_more_parts_based_on_flags (c : put_config) (s : put_state) (conservative : bool)
    : bool :=
  match body_kind c with
  | BodyAsyncStream => 0 <? put_num_parts_pending_read s
  | BodyAsyncWrites => negb (ready_to_send (put_writes s)) || (0 <? put_num_parts_pending_read s)
  | _ => if conservative then 0 <? put_num_parts_pending_read s
         else max_parts_pending_read c <=? put_num_parts_pending_read s
  end.

(** * Update *)

(** The request for the next part; a buffer filled by writes comes with its ticket. *)
Definition create_next_part_request (c : put_config) (s : put_state) (previously_uploaded : bool)
    : res (put_request * put_state) :=
  let ready := ready_to_send (put_writes s) in
  _ ← assert_fatal (negb ready || buffered_data_ticket (put_writes s));
  let r := put_request_new c TAG_PART (negb ready) false in
  let r := r <| put_part_number := next_part_number s |> in
  let r := fst (s_compute_request_body_size c r) in
  let r := r <| put_was_previously_uploaded := previously_uploaded |> <| put_ticket := ready |> in
  let r := if ready then r <| put_body := buffered_data (put_writes s) |> <| put_body_capacity := put_part_size c |> else r in
  let s := if ready then s <| put_writes ::= λ w, w <| buffered_data_ticket := false |> |> else s in
  Ok (r, s <| next_part_number ::= λ n, n +[32] 1 |> <| put_num_parts_started ::= λ n, n +[32] 1 |>
           <| put_num_parts_pending_read ::= λ n, n +[32] 1 |>).

(** The outcome of an update: whether there is work left, and the request to send. *)
Notation update_result := (res (bool * option put_request * put_state)).

(** After all parts are asked for: wait for them, then complete the upload. *)
Definition update_complete (c : put_config) (s : put_state) : bool * option put_request * put_state :=
  let parts_done :=
    if has_content_length c then put_num_parts_completed s =? total_num_parts_from_content_length c
    else is_body_stream_at_end s && (put_num_parts_completed s =? put_num_parts_started s) in
  if negb parts_done then (true, None, s)
  else if negb (complete_multipart_upload_sent s) then
    (true, Some (put_request_new c TAG_COMPLETE_MULTIPART_UPLOAD false false),
     s <| complete_multipart_upload_sent := true |>)
  else (negb (complete_multipart_upload_completed s), None, s).

(** The upload has been created: ask for the next part if there is one. *)
Definition update_parts (c : put_config) (s : put_state) (conservative : bool) : update_result :=
  let skip := s_should_skip_scheduling_more_parts_based_on_flags c s conservative in
  if has_content_length c && (put_num_parts_started s <? total_num_parts_from_content_length c) then
    let part := match part_list s !! Z.to_nat (next_part_number s - 1) with Some part => part | None => None end in
    _ ← aws_assert c match part with Some info => info_was_previously_uploaded info | None => true end;
    if skip then Ok (true, None, s)
    else '(r, s) ← create_next_part_request c s (bool_decide (is_Some part)); Ok (true, Some r, s)
  else if negb (has_content_length c) && negb (is_body_stream_at_end s) then
    if skip then Ok (true, None, s)
    else '(r, s) ← create_next_part_request c s false; Ok (true, Some r, s)
  else Ok (update_complete c s).

Definition update_running (c : put_config) (s : put_state) (conservative : bool) : update_result :=
  if negb (list_parts_started s) then
    Ok (true, Some (put_request_new c TAG_LIST_PARTS false false), s <| list_parts_started := true |>)
  else if list_parts_continues s then
    _ ← aws_assert c (bool_decide (is_Some (list_parts_continuation_token s)));
    Ok (true, Some (put_request_new c TAG_LIST_PARTS false false), s <| list_parts_continues := false |>)
  else if negb (list_parts_completed s) then Ok (true, None, s)
  else if negb (create_multipart_upload_sent s) then
    Ok (true, Some (put_request_new c TAG_CREATE_MULTIPART_UPLOAD false false), s <| create_multipart_upload_sent := true |>)
  else if negb (create_multipart_upload_completed s) then Ok (true, None, s)
  else update_parts c s conservative.

(** The meta request has a result: wait for what is on its way, then abort the upload. *)
Definition update_finishing (c : put_config) (s : put_state) (result : option aws_error)
    : bool * option put_request * put_state :=
  if negb (create_multipart_upload_sent s) then (false, None, s)
  else if negb (create_multipart_upload_completed s) then (true, None, s)
  else if put_num_parts_completed s <? put_num_parts_started s then (true, None, s)
  else if complete_multipart_upload_sent s && negb (complete_multipart_upload_completed s) then (true, None, s)
  else if bool_decide (result = Some AWS_ERROR_S3_PAUSED) || bool_decide (result = Some AWS_ERROR_S3_RESUME_FAILED) then
    (false, None, s)
  else if complete_multipart_upload_completed s && bool_decide (complete_multipart_upload_error_code s = None) then
    (false, None, s)
  else if negb (abort_multipart_upload_sent s) then
    if bool_decide (upload_id s = None) then (false, None, s)
    else if bool_decide (result = None) then (false, None, s)
    else (true, Some (put_request_new c TAG_ABORT_MULTIPART_UPLOAD false true), s <| abort_multipart_upload_sent := true |>)
  else (negb (abort_multipart_upload_completed s), None, s).

(** [s_s3_auto_ranged_put_update]: without work left and events delivered, the result is
    success unless there is one already. *)
Definition s_s3_auto_ranged_put_update (c : put_config) (s : put_state) (d : delivery) (conservative : bool)
    : res (bool * option put_request * put_state * delivery) :=
  '(work_remaining, request, s) ←
    match finish_result d with
    | None => update_running c s conservative
    | Some result => Ok (update_finishing c s result)
    end;
  let work_remaining := work_remaining || aws_s3_meta_request_are_events_out_for_delivery_synced d in
  if work_remaining then Ok (true, request, s, d)
  else Ok (false, None, s, aws_s3_meta_request_set_success_synced d).

(** * Part infos *)

(** An array list grown with [NULL] to hold the part, and the part stored in it. *)
Definition set_part (l : list (option mpu_part_info)) (part_number : Z) (part : mpu_part_info) : list (option mpu_part_info) :=
  <[Z.to_nat (part_number - 1) := Some part]> (l ++ replicate (Z.to_nat part_number - length l) None).

Definition aws_strip_quotes (l : list byte) : list byte :=
  if (2 <=? length l)%nat && bool_decide (head l = Some x22) && bool_decide (list.last l = Some x22)
  then take (length l - 2) (drop 1 l) else l.

(** Which of the listed checksums is used: none for the algorithms that are not expected in a
    listing. *)
Definition listed_checksum_cursor (c : put_config) (info : listed_part) : res (option (list byte)) :=
  match config_algorithm (put_checksum_config c) with
  | (AWS_SCA_CRC32 | AWS_SCA_CRC32C | AWS_SCA_SHA1 | AWS_SCA_SHA256) as a => Ok (Some (listed_checksum info a))
  | AWS_SCA_NONE => Ok None
  | _ => _ ← aws_assert c false; Ok None
  end.

Definition s_process_part_info_synced (c : put_config) (s : put_state) (info : listed_part)
    : res (result aws_error put_state) :=
  if listed_part_number info =? 0 then Ok (Failure AWS_ERROR_S3_LIST_PARTS_PARSE_FAILED)
  else
    checksum_cur ← listed_checksum_cursor c info;
    let context :=
      match checksum_cur with
      | Some (b :: checksum) =>
          aws_s3_upload_request_checksum_context_new_with_existing_base64_checksum (Some (put_checksum_config c))
            (b :: checksum) (has_upload_review_callback c)
      | _ => aws_s3_upload_request_checksum_context_new (Some (put_checksum_config c)) (has_upload_review_callback c)
      end in
    match context with
    | None => Ok (Failure AWS_ERROR_UNKNOWN)
    | Some context =>
        Ok (Success (s <| part_list ::= λ l,
          set_part l (listed_part_number info)
            (mkPartInfo (listed_size info) (Some (aws_strip_quotes (listed_e_tag info))) (Some context) true) |>))
    end.

(** * Preparing a part *)

Definition s_verify_part_matches_checksum (body : list byte) (a : checksum_algorithm) (part_checksum : list byte)
    : result aws_error unit :=
  if decide (a = AWS_SCA_NONE) then Success tt
  else
    match aws_base64_compute_encoded_len (aws_get_digest_size_from_checksum_algorithm a) with
    | None => Failure AWS_ERROR_S3_RESUME_FAILED
    | Some _ =>
        match aws_checksum_compute a body (aws_get_digest_size_from_checksum_algorithm a) with
        | Failure _ => Failure AWS_ERROR_S3_RESUME_FAILED
        | Success checksum =>
            match aws_base64_encode checksum with
            | None => Failure AWS_ERROR_S3_RESUME_FAILED
            | Some encoded =>
                if decide (part_checksum = encoded) then Success tt
                else Failure AWS_ERROR_S3_RESUMED_PART_CHECKSUM_MISMATCH
            end
        end
    end.

(** What a part that was uploaded earlier is compared with: its size, and its checksum if it
    is known. *)
Definition verify_previously_uploaded (c : put_config) (r : put_request) (info : mpu_part_info) : result aws_error unit :=
  if negb (Z.of_nat (length (put_body r)) =? info_size info) then Failure AWS_ERROR_S3_RESUME_FAILED
  else
    match info_checksum_context info with
    | None => Success tt
    | Some context =>
        if aws_s3_upload_request_checksum_context_should_calculate (Some context) then Success tt
        else s_verify_part_matches_checksum (put_body r) (config_algorithm (put_checksum_config c))
               (aws_s3_upload_request_checksum_context_get_checksum_cursor (Some context))
    end.

(** The critical section after the body was read, and the comparison after it. *)
Definition s_s3_new_upload_part_info_after_body (c : put_config) (s : put_state) (r : put_request) (at_end : bool)
    : res (put_request * put_state * result aws_error unit) :=
  let s := s <| is_body_stream_at_end := at_end |> <| put_num_parts_pending_read ::= λ n, n -[32] 1 |> in
  let previous :=
    if put_was_previously_uploaded r
    then match part_list s !! Z.to_nat (put_part_number r - 1) with Some info => info | None => None end else None in
  _ ← aws_assert c (negb (put_was_previously_uploaded r) ||
                    match previous with Some info => info_was_previously_uploaded info | None => false end);
  let r := if put_was_previously_uploaded r then r <| put_is_noop := true |> else r in
  let s :=
    if put_is_noop r then s
    else s <| part_list ::= λ l,
           set_part l (put_part_number r)
             (mkPartInfo (Z.of_nat (length (put_body r))) None
                (aws_s3_upload_request_checksum_context_new (Some (put_checksum_config c)) (has_upload_review_callback c))
                false) |> in
  Ok (r, s, match previous with Some info => verify_previously_uploaded c r info | None => Success tt end).

(** The end of the preparation: a part that is sent takes its checksum context from its info,
    and a missing info would be dereferenced.  The message that is made next is the input of
    [s_s3_auto_ranged_put_prepare_request]. *)
Definition s_s3_prepare_upload_part_finish (c : put_config) (r : put_request) (s : put_state) (prepared : result aws_error unit)
    : res (put_request * put_state * result aws_error unit) :=
  match prepared with
  | Failure e => Ok (r, s, Failure e)
  | Success _ =>
      if put_is_noop r then Ok (r, s, Success tt)
      else
        match part_list s !! Z.to_nat (put_part_number r - 1) with
        | Some (Some info) => _ ← aws_assert c (bool_decide (is_Some (info_checksum_context info))); Ok (r, s, Success tt)
        | _ => FatalAssert
        end
  end.

(** [s_s3_prepare_upload_part_on_read_done], with what was read into the buffer. *)
Definition s_s3_prepare_upload_part_on_read_done (c : put_config) (s : put_state) (r : put_request)
    (read : result aws_error (list byte * bool)) : res (put_request * put_state * result aws_error unit) :=
  match read with
  | Failure e => s_s3_prepare_upload_part_finish c r s (Failure e)
  | Success (data, at_end) =>
      let r := r <| put_body := data |> in
      let len := Z.of_nat (length data) in
      if has_content_length c && (len <? put_content_length r) then
        s_s3_prepare_upload_part_finish c r s (Failure AWS_ERROR_S3_INCORRECT_CONTENT_LENGTH)
      else
        let r :=
          if negb (has_content_length c) && (len <? put_content_length r)
          then r <| put_content_length := len |> <| put_range_end := (put_range_start r +[64] len) -[64] 1 |> else r in
        let r := r <| put_is_noop := (1 <? put_part_number r) && (len =? 0) |> in
        '(r, s, checked) ← s_s3_new_upload_part_info_after_body c s r at_end;
        s_s3_prepare_upload_part_finish c r s checked
  end.

(** [s_s3_auto_ranged_put_schedule_prepare_request]: a part of a file that does not fit its
    buffer is streamed. *)
Definition s_s3_auto_ranged_put_schedule_prepare_request (c : put_config) (r : put_request) : put_request :=
  let parallel_prepare := bool_decide (body_kind c = BodyParallelStream) && bool_decide (put_tag r = TAG_PART) in
  if parallel_prepare && should_stream c && (put_buffer_size r <? put_content_length r)
  then r <| put_fio_streaming := true |> else r.

(** [s_s3_prepare_upload_part] for the first attempt of the part; [None] while the stream
    does not fill the buffer within [fuel] reads.  What a part sends that streams from its
    file is [part_stream]. *)
Definition s_s3_prepare_upload_part (c : put_config) (fuel : nat) (s : put_state) (r : put_request)
    (part_stream : Z → Z → result aws_error (list byte)) : option (res (put_request * put_state * result aws_error unit)) :=
  match s_compute_request_body_size c r with
  | (r, Failure e) => Some (Ok (r, s, Failure e))
  | (r, Success _) =>
      if put_fio_streaming r then
        match part_stream (put_range_start r) (put_content_length r) with
        | Failure e => Some (Ok (r, s, Failure e))
        | Success stream =>
            Some ('(r, s, checked) ← s_s3_new_upload_part_info_after_body c s (r <| put_body_stream := Some stream |>) false;
                  s_s3_prepare_upload_part_finish c r s checked)
        end
      else if (put_body_capacity r =? 0) && negb (put_ticket r) then Some FatalAssert
      else
        let r := if put_body_capacity r =? 0 then r <| put_body_capacity := put_content_length r |> else r in
        match aws_s3_meta_request_read_body (body_kind c) fuel (put_reader s) (put_writes s) (put_range_start r)
                (put_body r) (put_body_capacity r) with
        | None => None
        | Some (reader, writes, read) =>
            Some (s_s3_prepare_upload_part_on_read_done c
                    (s <| put_reader := reader |> <| put_writes := writes |>) r read)
        end
  end.

(** * Preparing the other requests *)

(** The payload of CompleteMultipartUpload: each part must be there and have its ETag. *)
Fixpoint complete_payload (l : list (option mpu_part_info)) (part_number : Z) : res (list (Z * list byte)) :=
  match l with
  | [] => Ok []
  | None :: _ => FatalAssert
  | Some info :: l =>
      match info_etag info with
      | None => FatalAssert
      | Some etag => rest ← complete_payload l (part_number + 1); Ok ((part_number, etag) :: rest)
      end
  end.

(** The review of a caller who registered one sees the sizes of the parts; a missing part
    would be dereferenced. *)
Fixpoint review_sizes (l : list (option mpu_part_info)) : res (list Z) :=
  match l with
  | [] => Ok []
  | None :: _ => FatalAssert
  | Some info :: l => rest ← review_sizes l; Ok (info_size info :: rest)
  end.

(** [s_s3_prepare_complete_multipart_upload], first attempt; [review] and [full_checksum] are
    the callbacks of the caller. *)
Definition s_s3_prepare_complete_multipart_upload (c : put_config) (s : put_state) (r : put_request)
    (review : list Z → result aws_error unit) (full_checksum : result aws_error (list byte))
    : res (put_request * put_state * result aws_error unit) :=
  _ ← assert_fatal (bool_decide (is_Some (upload_id s)));
  reviewed ←
    (if has_upload_review_callback c then sizes ← review_sizes (part_list s); Ok (review sizes) else Ok (Success tt));
  match reviewed with
  | Failure e => Ok (r, s, Failure e)
  | Success _ =>
      match (if has_full_object_checksum_callback (put_checksum_config c) then full_checksum
             else Success (put_full_object_checksum s)) with
      | Failure e => Ok (r, s, Failure e)
      | Success checksum =>
          payload ← complete_payload (part_list s) 1;
          Ok (r <| put_parts := payload |>, s <| put_full_object_checksum := checksum |>, Success tt)
      end
  end.

(** [s_s3_auto_ranged_put_prepare_request]: by the tag.  A message that cannot be made is the
    input [message]. *)
Definition s_s3_auto_ranged_put_prepare_request (c : put_config) (fuel : nat) (s : put_state) (r : put_request)
    (part_stream : Z → Z → result aws_error (list byte)) (review : list Z → result aws_error unit)
    (full_checksum : result aws_error (list byte)) (message : result aws_error unit)
    : option (res (put_request * put_state * result aws_error unit)) :=
  let made (r : put_request) (s : put_state) (prepared : result aws_error unit) :=
    (r <| put_num_times_prepared ::= λ n, n + 1 |>, s, match prepared with Success _ => message | Failure e => Failure e end) in
  match put_tag r with
  | TAG_PART =>
      match s_s3_prepare_upload_part c fuel s r part_stream with
      | None => None
      | Some p => Some ('(r, s, prepared) ← p; Ok (made r s prepared))
      end
  | TAG_COMPLETE_MULTIPART_UPLOAD =>
      Some ('(r, s, prepared) ← s_s3_prepare_complete_multipart_upload c s r review full_checksum; Ok (made r s prepared))
  | TAG_ABORT_MULTIPART_UPLOAD =>
      Some (_ ← assert_fatal (bool_decide (is_Some (upload_id s))); Ok (made r s (Success tt)))
  | TAG_LIST_PARTS | TAG_CREATE_MULTIPART_UPLOAD => Some (Ok (made r s (Success tt)))
  end.

(** * Finished requests *)

(** The response of a request, and what the headers callback of the caller returns. *)
Record put_response := mkPutResponse {
  response_status : Z;
  response_headers : http_headers;
  response_xml : list byte;
  headers_callback_error : option aws_error;
}.

(** The parts of the page go to the part list; the state, and whether there are more. *)
Definition list_parts_on_response (c : put_config) (s : put_state) (body : list byte)
    : res (put_state * result aws_error (option (list byte) * bool)) :=
  let on_part info (s : res put_state) :=
    match (s ← s; processed ← s_process_part_info_synced c s info; Ok (s, processed)) with
    | Ok (_, Success s) => (Ok s, true)
    | Ok (s, Failure _) => (Ok s, false)
    | OutOfMemory => (OutOfMemory, false)
    | FatalAssert => (FatalAssert, false)
    end in
  let '(s, parsed) :=
    aws_s3_paginated_operation_on_response
      (aws_s3_list_parts_operation_new (put_request_path c) (default [] (upload_id s)) on_part) body (Ok s) in
  s ← s; Ok (s, parsed).

(** The bytes of the parts that were uploaded earlier. *)
Definition bytes_previously_uploaded (l : list (option mpu_part_info)) : Z :=
  foldl (λ n part, match part with Some info => n +[64] info_size info | None => n end) 0 l.

Definition add_progress_event (c : put_config) (d : delivery) (bytes : Z) : delivery :=
  if put_has_progress_callback c
  then aws_s3_meta_request_add_event_for_delivery_synced d (Some (EVENT_PROGRESS bytes)) else d.

(** A page of the listing: its parts are taken over, and the last one reports progress. *)
Definition list_parts_page (c : put_config) (s : put_state) (d : delivery) (resp : put_response)
    : res (put_state * delivery * option aws_error * bool) :=
  '(s, parsed) ← list_parts_on_response c (s <| list_parts_continuation_token := None |>) (response_xml resp);
  match parsed with
  | Failure _ => Ok (s, d, Some AWS_ERROR_S3_LIST_PARTS_PARSE_FAILED, false)
  | Success (token, more) =>
      let s := s <| list_parts_continuation_token := token |> in
      let bytes := bytes_previously_uploaded (part_list s) in
      Ok (s, if negb more && (0 <? bytes) then add_progress_event c d bytes else d, None, more)
  end.

Definition list_parts_finished (c : put_config) (s : put_state) (d : delivery) (error : option aws_error) (resp : put_response)
    : res (put_state * delivery) :=
  '(s, d, error, has_more_results) ←
    match error with Some e => Ok (s, d, Some e, false) | None => list_parts_page c s d resp end;
  let s := s <| list_parts_continues := has_more_results |> <| list_parts_completed := negb has_more_results |>
             <| list_parts_error_code := error |> in
  match error with
  | None => Ok (s, d)
  | Some e =>
      let nothing_to_resume :=
        (response_status resp =? 404) &&
        match put_resume_token c with
        | Some t => token_num_parts_completed t =? token_total_num_parts t
        | None => false
        end in
      Ok (s, if nothing_to_resume then aws_s3_meta_request_set_success_synced d
             else aws_s3_meta_request_set_fail_synced d e)
  end.

Definition create_finished (c : put_config) (s : put_state) (d : delivery) (error : option aws_error) (resp : put_response)
    : res (put_state * delivery) :=
  let '(s, error, headers) :=
    match error with
    | Some e => (s, Some e, None)
    | None =>
        let headers := copy_named_headers s_create_multipart_upload_copy_headers (response_headers resp) [] in
        match aws_xml_get_body_at_path (response_xml resp) [lit "InitiateMultipartUploadResult"; lit "UploadId"] with
        | Some (b :: id) => (s <| upload_id := Some (b :: id) |>, None, Some headers)
        | _ => (s, Some AWS_ERROR_S3_MISSING_UPLOAD_ID, Some headers)
        end
    end in
  _ ← aws_assert c (bool_decide (needed_response_headers s = None));
  let s := s <| needed_response_headers := headers |> <| create_multipart_upload_completed := true |>
             <| list_parts_error_code := error |> in
  Ok (s, match error with Some e => aws_s3_meta_request_set_fail_synced d e | None => d end).

(** The ETag of a part is stored in its info; a missing info would be dereferenced. *)
Definition set_etag (c : put_config) (l : list (option mpu_part_info)) (part_number : Z) (etag : list byte)
    : res (list (option mpu_part_info)) :=
  match l !! Z.to_nat (part_number - 1) with
  | Some (Some info) =>
      _ ← aws_assert c (bool_decide (info_etag info = None));
      Ok (<[Z.to_nat (part_number - 1) := Some (info <| info_etag := Some etag |>)]> l)
  | _ => FatalAssert
  end.

Definition upload_part_finished (c : put_config) (s : put_state) (d : delivery) (r : put_request) (error : option aws_error)
    (resp : put_response) : res (put_state * delivery) :=
  _ ← assert_fatal (0 <? put_part_number r);
  let s := s <| put_num_parts_completed ::= λ n, n +[32] 1 |> in
  if put_is_noop r then Ok (s <| put_num_parts_noop ::= λ n, n +[32] 1 |>, d)
  else
    let etag :=
      match error with
      | Some e => Failure e
      | None => match aws_http_headers_get (response_headers resp) (lit "ETag") with
                | Some etag_within_quotes => Success (aws_strip_quotes etag_within_quotes)
                | None => Failure AWS_ERROR_S3_MISSING_ETAG
                end
      end in
    match etag with
    | Success etag =>
        l ← set_etag c (part_list s) (put_part_number r) etag;
        Ok (s <| put_num_parts_successful ::= λ n, n +[32] 1 |> <| part_list := l |>,
            add_progress_event c d (put_content_length r))
    | Failure e =>
        Ok (s <| put_num_parts_failed ::= λ n, n +[32] 1 |>, aws_s3_meta_request_set_fail_synced d e)
    end.

(** The headers of the response with those kept from the first response and the ETag of the
    object; [needed] was set when the upload was created, and would be dereferenced. *)
Definition completed_headers (needed : http_headers) (resp : put_response) : http_headers :=
  let headers := copy_http_headers needed (response_headers resp) in
  match aws_xml_get_body_at_path (response_xml resp) [lit "CompleteMultipartUploadResult"; lit "ETag"] with
  | Some (b :: etag) =>
      aws_http_headers_set headers (lit "ETag") (default (b :: etag) (aws_byte_buf_append_unescaped_xml (b :: etag)))
  | _ => headers
  end.

Definition complete_finished (c : put_config) (s : put_state) (d : delivery) (error : option aws_error) (resp : put_response)
    : res (put_state * delivery) :=
  '(s, error) ←
    match error with
    | None =>
        if has_headers_callback c then
          match needed_response_headers s with
          | None => FatalAssert
          | Some needed => Ok (s <| reported_headers := Some (completed_headers needed resp) |>, headers_callback_error resp)
          end
        else Ok (s, None)
    | Some e => Ok (s, Some e)
    end;
  let s := s <| complete_multipart_upload_completed := true |> <| complete_multipart_upload_error_code := error |> in
  Ok (s, match error with Some e => aws_s3_meta_request_set_fail_synced d e | None => d end).

(** [aws_s3_request_finish_up_metrics_synced]: a request has its metrics from its creation
    until it is finished. *)
Definition aws_s3_request_finish_up_metrics_synced (telemetry : bool) (d : delivery) : delivery :=
  if telemetry then aws_s3_meta_request_add_event_for_delivery_synced d (Some EVENT_TELEMETRY) else d.

Definition s_s3_auto_ranged_put_request_finished (c : put_config) (s : put_state) (d : delivery) (r : put_request)
    (error : option aws_error) (resp : put_response) : res (put_state * delivery) :=
  '(s, d) ←
    match put_tag r with
    | TAG_LIST_PARTS => list_parts_finished c s d error resp
    | TAG_CREATE_MULTIPART_UPLOAD => create_finished c s d error resp
    | TAG_PART => upload_part_finished c s d r error resp
    | TAG_COMPLETE_MULTIPART_UPLOAD => complete_finished c s d error resp
    | TAG_ABORT_MULTIPART_UPLOAD =>
        Ok (s <| abort_multipart_upload_error_code := error |> <| abort_multipart_upload_completed := true |>, d)
    end;
  Ok (s, aws_s3_request_finish_up_metrics_synced (put_has_telemetry_callback c) d).

(** * Pausing *)

Definition s_s3_auto_ranged_put_build_resume_token_synced (c : put_config) (s : put_state) : option resume_token :=
  if negb (has_content_length c) || negb (create_multipart_upload_completed s) then None
  else Some (mkToken TYPE_PUT_OBJECT (upload_id s) (put_part_size c) (total_num_parts_from_content_length c)
               (put_num_parts_completed s)).

Definition s_s3_auto_ranged_put_pause (c : put_config) (s : put_state) (d : delivery)
    : result aws_error (option resume_token * delivery) :=
  if negb (has_content_length c) then Failure AWS_ERROR_UNSUPPORTED_OPERATION
  else Success (s_s3_auto_ranged_put_build_resume_token_synced c s,
                aws_s3_meta_request_set_fail_synced d AWS_ERROR_S3_PAUSED).
End put.
