(* ===== verification/PutSystem.v ===== *)
(** An upload in parts as a whole (source/s3_auto_ranged_put.c with the steps of
    source/s3_client.c and source/s3_meta_request.c around it): updates, the preparation of
    requests, a server that stores parts and puts them together, answers, writes of the
    caller and the delivery of events, in any order. *)

From Stdlib Require Import Init.Byte String.
From S2P Require Import Prelude AwsCommon ByteCursor HttpMessage Checksums ChecksumContext Listing BodyStream.
From S2P Require Import PriorityQueue PartMath Tracking Delivery DeliveryInv AutoRangedPut.

(** * The server *)

(** The parts of the upload, each with the ETag it was given, and the object once the upload
    is completed. *)
Record server := mkServer {
  server_parts : gmap Z (list byte * list byte);
  server_object : option (list byte);
}.

(** What a request that was prepared sends. *)
Definition request_body (r : put_request) : list byte := default (put_body r) (put_body_stream r).

(** A request that reaches the server: a part replaces an earlier one of its number, an upload
    is completed with the listed parts if they are there with their ETags, and an abort
    removes the parts.  A request may be served more than once. *)
Inductive serves (r : put_request) (sv : server) : server → Prop :=
| serve_part etag :
    put_tag r = TAG_PART → put_is_noop r = false →
    serves r sv (mkServer (<[put_part_number r := (etag, request_body r)]> (server_parts sv)) (server_object sv))
| serve_complete bodies :
    put_tag r = TAG_COMPLETE_MULTIPART_UPLOAD →
    Forall2 (λ part body, server_parts sv !! part.1 = Some (part.2, body)) (put_parts r) bodies →
    serves r sv (mkServer (server_parts sv) (Some (concat bodies)))
| serve_abort :
    put_tag r = TAG_ABORT_MULTIPART_UPLOAD →
    serves r sv (mkServer ∅ (server_object sv)).

(** * The steps *)

Section upload.
Context `{B : !AwsByteCursor} `{H : !AwsHttpHeaders} `{D : !AwsDigest} `{X : !AwsXml} `{St : !AwsStreams}.
Context `{M : !AwsMath}.
Context {Q1 : AwsPriorityQueue s3_request part_number}.
Context {Q2 : AwsPriorityQueue delivery_tracking_record track_part_number}.

(** Requests wait to be prepared, could not be prepared, or are on their way.  The rest is
    for the statements: all requests that updates made, the bytes that writes accepted, and
    the parts that were read, in the order of the reads. *)
Record upload := mkUpload {
  up_put : put_state;
  up_delivery : delivery;
  up_finished : bool;
  up_queued : list put_request;
  up_failed : list put_request;
  up_sent : list put_request;
  up_server : server;
  up_requested : list put_request;
  up_accepted : list byte;
  up_reads : list (Z * list byte);
}.
#[export] Instance upload_eta : Eta upload := λ u,
  mkUpload (up_put u) (up_delivery u) (up_finished u) (up_queued u) (up_failed u) (up_sent u) (up_server u)
    (up_requested u) (up_accepted u) (up_reads u).

Context (accept : list (Z * list byte) → Z → list byte → option aws_error).
Context (checksum_update : list byte → list byte → option aws_error).
Context (c : put_config) (dc : delivery_config).

(** * What a server lists *)

(** The base64 text of the checksum of a part, by the algorithm of the upload. *)
Definition part_checksum (body : list byte) : option (list byte) :=
  let a := config_algorithm (put_checksum_config c) in
  match aws_checksum_compute a body (aws_get_digest_size_from_checksum_algorithm a) with
  | Success checksum => aws_base64_encode checksum
  | Failure _ => None
  end.

(** The parts of a page. *)
Definition listed_parts (page : list byte) : list listed_part :=
  omap part_of_node (filter (λ n, aws_byte_cursor_eq_ignore_case (xml_name n) (lit "Part") = true) (page_elements page)).

(** A part of the upload, with its size, and with its checksum if one of the algorithm is
    listed. *)
Definition truthful (sv : server) (info : listed_part) : Prop :=
  listed_part_number info ≠ 0 →
  1 ≤ listed_part_number info ≤ total_num_parts_from_content_length c ∧
  match server_parts sv !! listed_part_number info with
  | Some (_, body) =>
      listed_size info = Z.of_nat (length body) ∧
      (listed_checksum info (config_algorithm (put_checksum_config c)) ≠ [] →
       part_checksum body = Some (listed_checksum info (config_algorithm (put_checksum_config c))))
  | None => False
  end.

#[global] Instance truthful_dec sv info : Decision (truthful sv info).
Proof. unfold truthful. destruct (server_parts sv !! listed_part_number info) as [[etag body]|]; solve_decision. Defined.

Definition has_result (d : delivery) : bool := bool_decide (finish_result d ≠ None).

(** [s_acquire_mem_and_prepare_request] gives a request its buffer, if it needs one. *)
Definition with_buffer (r : put_request) : put_request :=
  if put_from_pool r then r <| put_ticket := true |> else r.

Definition prepare (fuel : nat) (s : put_state) (r : put_request) (part_stream : Z → Z → result aws_error (list byte))
    (review : list Z → result aws_error unit) (full_checksum : result aws_error (list byte))
    (message : result aws_error unit) : option (res (put_request * put_state * result aws_error unit)) :=
  s_s3_auto_ranged_put_prepare_request c fuel s (s_s3_auto_ranged_put_schedule_prepare_request c (with_buffer r))
    part_stream review full_checksum message.

(** A stream over a part of a file, for parts that do not fit their buffer, delivers the bytes
    of its range. *)
Definition streams_part (file : list byte) (part_stream : Z → Z → result aws_error (list byte)) : Prop :=
  ∀ offset len data, part_stream offset len = Success data →
    data = take (Z.to_nat len) (drop (Z.to_nat offset) file).

(** The answers of the server: the success of a completed upload means that there is an
    object, that of a part that it is stored, and what is listed for an upload that resumes is
    the truth about some of its parts. *)
Definition answers (u : upload) (r : put_request) (error : option aws_error) (resp : put_response) : Prop :=
  match put_tag r with
  | TAG_COMPLETE_MULTIPART_UPLOAD => error = None → server_object (up_server u) ≠ None
  | TAG_PART =>
      error = None → put_is_noop r = false → snd <$> server_parts (up_server u) !! put_part_number r = Some (request_body r)
  | TAG_LIST_PARTS => error = None → Forall (truthful (up_server u)) (listed_parts (response_xml resp))
  | _ => True
  end.

#[global] Instance answers_dec u r error resp : Decision (answers u r error resp).
Proof. unfold answers. destruct (put_tag r); solve_decision. Defined.

(** The result of a write adds to the accepted bytes. *)
Definition written (result : poll_write_result) (data : list byte) : list byte :=
  match result with WriteProcessed n => take (Z.to_nat n) data | _ => [] end.

Definition fail_with (d : delivery) (error : option aws_error) : delivery :=
  match error with Some e => aws_s3_meta_request_set_fail_synced d e | None => d end.

(** The steps of an upload of fewer than 2^32 - 2 parts; S3 allows ten thousand.  A request that
    is dropped got no buffer. *)
Inductive put_step (u : upload) : upload → Prop :=
| put_updated conservative request s d :
    up_finished u = false → put_num_parts_started (up_put u) < U32_MAX - 1 →
    s_s3_auto_ranged_put_update c (up_put u) (up_delivery u) conservative = Ok (true, request, s, d) →
    put_step u (u <| up_put := s |> <| up_delivery := d |> <| up_queued ::= λ l, l ++ option_list request |>
                  <| up_requested ::= λ l, l ++ option_list request |>)
| put_ended conservative s d :
    up_finished u = false →
    s_s3_auto_ranged_put_update c (up_put u) (up_delivery u) conservative = Ok (false, None, s, d) →
    put_step u (u <| up_put := s |> <| up_delivery := d |> <| up_finished := true |>)
| put_prepared l1 r l2 fuel part_stream review full_checksum message r' s :
    up_queued u = l1 ++ r :: l2 →
    streams_part (stream_content (source (put_reader (up_put u)))) part_stream →
    prepare fuel (up_put u) r part_stream review full_checksum message = Some (Ok (r', s, Success tt)) →
    put_step u (u <| up_put := s |> <| up_queued := l1 ++ l2 |> <| up_sent ::= λ l, l ++ [r'] |>
                  <| up_reads ::= λ l, l ++ (if decide (put_tag r = TAG_PART)
                                             then [(put_part_number r', request_body r')] else []) |>)
| put_unprepared l1 r l2 fuel part_stream review full_checksum message r' s e :
    up_queued u = l1 ++ r :: l2 →
    prepare fuel (up_put u) r part_stream review full_checksum message = Some (Ok (r', s, Failure e)) →
    put_step u (u <| up_put := s |> <| up_queued := l1 ++ l2 |> <| up_failed ::= λ l, l ++ [r'] |>
                  <| up_delivery ::= λ d, aws_s3_meta_request_set_fail_synced d e |>)
| put_dropped l1 r l2 e :
    up_queued u = l1 ++ r :: l2 →
    put_step u (u <| up_queued := l1 ++ l2 |> <| up_failed ::= λ l, l ++ [r] |>
                  <| up_delivery ::= λ d, aws_s3_meta_request_set_fail_synced d e |>)
| put_served r sv :
    r ∈ up_sent u → serves r (up_server u) sv → put_step u (u <| up_server := sv |>)
| put_answered l1 r l2 error resp s d :
    up_sent u = l1 ++ r :: l2 →
    s_s3_auto_ranged_put_request_finished c (up_put u) (up_delivery u) r error resp = Ok (s, d) →
    answers u r error resp →
    put_step u (u <| up_put := s |> <| up_delivery := d |> <| up_sent := l1 ++ l2 |>)
| put_gave_up l1 r l2 e resp s d :
    up_failed u = l1 ++ r :: l2 →
    s_s3_auto_ranged_put_request_finished c (up_put u) (up_delivery u) r (Some e) resp = Ok (s, d) →
    put_step u (u <| up_put := s |> <| up_delivery := d |> <| up_failed := l1 ++ l2 |>)
| put_io d : io_step accept checksum_update dc (up_delivery u) d → put_step u (u <| up_delivery := d |>)
| put_written data eof r result w error :
    aws_s3_meta_request_poll_write (has_result (up_delivery u)) (bool_decide (body_kind c = BodyAsyncWrites))
      (put_part_size c) (put_writes (up_put u)) data eof r = (result, w, error) →
    put_step u (u <| up_put ::= λ s, s <| put_writes := w |> |> <| up_delivery ::= λ d, fail_with d error |>
                  <| up_accepted ::= λ l, l ++ written result data |>)
| put_reserved error w failure :
    buffered_data_ticket_future (put_writes (up_put u)) = true →
    s_s3_meta_request_on_async_write_buffer_reserved (has_result (up_delivery u)) (put_writes (up_put u)) error = (w, failure) →
    put_step u (u <| up_put ::= λ s, s <| put_writes := w |> |> <| up_delivery ::= λ d, fail_with d failure |>).

(** A new upload, or one that resumes and whose earlier parts the server has. *)
Definition upload_new (s : put_state) (d : delivery) (parts : gmap Z (list byte * list byte)) : upload :=
  mkUpload s d false [] [] [] (mkServer parts None) [] [] [].
End upload.
