(* ===== verification/PutInv.v ===== *)
(** What an update of an upload does, what finished requests change, and the invariant that
    ties the flags and counters of an upload to the requests that are outstanding. *)

From Stdlib Require Import Init.Byte.
From S2P Require Import Prelude AwsCommon ByteCursor HttpMessage Checksums ChecksumContext Listing BodyStream.
From S2P Require Import PriorityQueue PartMath Tracking Delivery DeliveryInv AutoRangedPut PutSystem.

(** * The outcomes of an update *)

Section outcomes.
Context `{B : !AwsByteCursor} `{H : !AwsHttpHeaders} `{D : !AwsDigest} `{X : !AwsXml} `{St : !AwsStreams}.
Context `{M : !AwsMath}.
Context {Q1 : AwsPriorityQueue s3_request part_number}.
Context {Q2 : AwsPriorityQueue delivery_tracking_record track_part_number}.
Context (c : put_config).
Implicit Types (s : put_state) (d : delivery).

Definition listed s : Prop :=
  list_parts_started s = true ∧ list_parts_continues s = false ∧ list_parts_completed s = true.

(** The upload exists and its earlier parts are known. *)
Definition created s : Prop :=
  listed s ∧ create_multipart_upload_sent s = true ∧ create_multipart_upload_completed s = true.

Definition more_parts s : Prop :=
  if has_content_length c then put_num_parts_started s < total_num_parts_from_content_length c
  else is_body_stream_at_end s = false.

Definition parts_done s : Prop :=
  if has_content_length c then put_num_parts_completed s = total_num_parts_from_content_length c
  else is_body_stream_at_end s = true ∧ put_num_parts_completed s = put_num_parts_started s.

(** The info of the next part, if it was uploaded earlier. *)
Definition next_info s : option mpu_part_info :=
  match part_list s !! Z.to_nat (next_part_number s - 1) with Some part => part | None => None end.

Definition previously_uploaded s : bool := has_content_length c && bool_decide (is_Some (next_info s)).

(** The multipart upload stays on the server, or is completed. *)
Definition keeps_upload s (result : option aws_error) : Prop :=
  result = Some AWS_ERROR_S3_PAUSED ∨ result = Some AWS_ERROR_S3_RESUME_FAILED ∨
  complete_multipart_upload_completed s = true ∧ complete_multipart_upload_error_code s = None.

(** No part and no completing request is on its way. *)
Definition settled s : Prop :=
  create_multipart_upload_sent s = true ∧ create_multipart_upload_completed s = true ∧
  put_num_parts_started s ≤ put_num_parts_completed s ∧
  (complete_multipart_upload_sent s = true → complete_multipart_upload_completed s = true).

(** Why an update makes no request although there is work left. *)
Inductive waits s d (conservative : bool) : Prop :=
| wait_listing : finish_result d = None → list_parts_started s = true → list_parts_continues s = false →
    list_parts_completed s = false → waits s d conservative
| wait_created : create_multipart_upload_sent s = true → create_multipart_upload_completed s = false →
    waits s d conservative
| wait_reads : finish_result d = None → created s → more_parts s →
    s_should_skip_scheduling_more_parts_based_on_flags c s conservative = true → waits s d conservative
| wait_parts : finish_result d = None → created s → ¬ more_parts s → ¬ parts_done s → waits s d conservative
| wait_parts_finishing : put_num_parts_completed s < put_num_parts_started s → waits s d conservative
| wait_completed : complete_multipart_upload_sent s = true → complete_multipart_upload_completed s = false →
    waits s d conservative
| wait_aborted : abort_multipart_upload_sent s = true → abort_multipart_upload_completed s = false →
    waits s d conservative
| wait_events : aws_s3_meta_request_are_events_out_for_delivery_synced d = true → waits s d conservative.

(** When there is no work left. *)
Inductive ends s d : Prop :=
| end_completed : finish_result d = None → created s → ¬ more_parts s → parts_done s →
    complete_multipart_upload_sent s = true → complete_multipart_upload_completed s = true → ends s d
| end_not_created result : finish_result d = Some result → create_multipart_upload_sent s = false → ends s d
| end_kept result : finish_result d = Some result → settled s → keeps_upload s result → ends s d
| end_nothing result : finish_result d = Some result → settled s → abort_multipart_upload_sent s = false →
    upload_id s = None ∨ result = None → ends s d
| end_aborted result : finish_result d = Some result → settled s → abort_multipart_upload_sent s = true →
    abort_multipart_upload_completed s = true → ends s d.

Inductive update_outcome s d (conservative : bool) : res (bool * option put_request * put_state * delivery) → Prop :=
| out_list : finish_result d = None → list_parts_started s = false →
    update_outcome s d conservative
      (Ok (true, Some (put_request_new c TAG_LIST_PARTS false false), s <| list_parts_started := true |>, d))
| out_list_more : finish_result d = None → list_parts_started s = true → list_parts_continues s = true →
    update_outcome s d conservative
      (Ok (true, Some (put_request_new c TAG_LIST_PARTS false false), s <| list_parts_continues := false |>, d))
| out_create : finish_result d = None → listed s → create_multipart_upload_sent s = false →
    update_outcome s d conservative
      (Ok (true, Some (put_request_new c TAG_CREATE_MULTIPART_UPLOAD false false),
           s <| create_multipart_upload_sent := true |>, d))
| out_part r s' : finish_result d = None → created s → more_parts s →
    s_should_skip_scheduling_more_parts_based_on_flags c s conservative = false →
    create_next_part_request c s (previously_uploaded s) = Ok (r, s') →
    update_outcome s d conservative (Ok (true, Some r, s', d))
| out_complete : finish_result d = None → created s → ¬ more_parts s → parts_done s →
    complete_multipart_upload_sent s = false →
    update_outcome s d conservative
      (Ok (true, Some (put_request_new c TAG_COMPLETE_MULTIPART_UPLOAD false false),
           s <| complete_multipart_upload_sent := true |>, d))
| out_abort e : finish_result d = Some (Some e) → settled s → ¬ keeps_upload s (Some e) →
    abort_multipart_upload_sent s = false → upload_id s ≠ None →
    update_outcome s d conservative
      (Ok (true, Some (put_request_new c TAG_ABORT_MULTIPART_UPLOAD false true),
           s <| abort_multipart_upload_sent := true |>, d))
| out_wait : waits s d conservative → update_outcome s d conservative (Ok (true, None, s, d))
| out_end : ends s d → update_outcome s d conservative (Ok (false, None, s, aws_s3_meta_request_set_success_synced d))
| out_assert_token : put_debug_build c = true → finish_result d = None → list_parts_started s = true →
    list_parts_continues s = true → list_parts_continuation_token s = None → update_outcome s d conservative FatalAssert
| out_assert_part info : finish_result d = None → created s → has_content_length c = true → more_parts s →
    next_info s = Some info → info_was_previously_uploaded info = false → update_outcome s d conservative FatalAssert
| out_assert : finish_result d = None → created s → more_parts s →
    s_should_skip_scheduling_more_parts_based_on_flags c s conservative = false →
    ready_to_send (put_writes s) = true → buffered_data_ticket (put_writes s) = false →
    update_outcome s d conservative FatalAssert.

Lemma aws_assert_cases b : aws_assert c b = Ok tt ∨ aws_assert c b = FatalAssert ∧ put_debug_build c = true ∧ b = false.
Proof. unfold aws_assert. destruct (put_debug_build c), b; auto. Qed.

(** No work is left, unless events are out for delivery. *)
Lemma outcome_no_work s d conservative : ends s d →
  update_outcome s d conservative
    (let work := false || aws_s3_meta_request_are_events_out_for_delivery_synced d in
     if work then Ok (true, None, s, d) else Ok (false, None, s, aws_s3_meta_request_set_success_synced d)).
Proof.
  intros He. simpl. destruct (aws_s3_meta_request_are_events_out_for_delivery_synced d) eqn:Hev.
  - by apply out_wait, wait_events.
  - by apply out_end.
Qed.

Lemma create_next_cases s prev :
  (∃ r s', create_next_part_request c s prev = Ok (r, s')) ∨
  create_next_part_request c s prev = FatalAssert ∧ ready_to_send (put_writes s) = true ∧
    buffered_data_ticket (put_writes s) = false.
Proof.
  unfold create_next_part_request. destruct (ready_to_send (put_writes s)), (buffered_data_ticket (put_writes s)); cbn [negb orb];
    try (left; by eexists _, _). by right.
Qed.

Lemma update_complete_outcome s d conservative : finish_result d = None → created s → ¬ more_parts s →
  update_outcome s d conservative
    (let '(work, request, s) := update_complete c s in
     if work || aws_s3_meta_request_are_events_out_for_delivery_synced d then Ok (true, request, s, d)
     else Ok (false, None, s, aws_s3_meta_request_set_success_synced d)).
Proof.
  intros Hf Hc Hm. unfold update_complete.
  set (done := if has_content_length c then _ else _).
  assert (done = true ↔ parts_done s) as Hdone.
  { subst done. unfold parts_done. destruct (has_content_length c); rewrite ?andb_true_iff, Z.eqb_eq; tauto. }
  destruct done; simpl; [|by apply out_wait, wait_parts; naive_solver].
  assert (parts_done s) as Hp by tauto.
  destruct (complete_multipart_upload_sent s) eqn:Hs; simpl; [|by apply out_complete].
  destruct (complete_multipart_upload_completed s) eqn:Hcc; simpl; [|by apply out_wait, wait_completed].
  by apply outcome_no_work, end_completed.
Qed.

Lemma update_parts_outcome s d conservative :
  finish_result d = None → created s →
  update_outcome s d conservative
    ('(work, request, s) ← update_parts c s conservative;
     if work || aws_s3_meta_request_are_events_out_for_delivery_synced d then Ok (true, request, s, d)
     else Ok (false, None, s, aws_s3_meta_request_set_success_synced d)).
Proof.
  intros Hf Hc. pose proof (update_complete_outcome s d conservative Hf Hc) as Hcomp.
  assert (∀ prev, prev = previously_uploaded s → more_parts s →
    update_outcome s d conservative
      ('(work, request, s) ←
         (if s_should_skip_scheduling_more_parts_based_on_flags c s conservative then Ok (true, None, s)
          else '(r, s) ← create_next_part_request c s prev; Ok (true, Some r, s));
       if work || aws_s3_meta_request_are_events_out_for_delivery_synced d then Ok (true, request, s, d)
       else Ok (false, None, s, aws_s3_meta_request_set_success_synced d))) as Hnext.
  { intros prev -> Hm. destruct (s_should_skip_scheduling_more_parts_based_on_flags c s conservative) eqn:Hskip; simpl.
    - by apply out_wait, wait_reads.
    - destruct (create_next_cases s (previously_uploaded s)) as [(r & s' & Hr)|(Hr & Hrd & Ht)]; rewrite Hr; simpl;
        [by apply out_part|by apply out_assert]. }
  unfold update_parts, more_parts, previously_uploaded in *. fold (next_info s). destruct (has_content_length c) eqn:Hl; simpl.
  - destruct (Z.ltb_spec (put_num_parts_started s) (total_num_parts_from_content_length c)); simpl; [|apply Hcomp; lia].
    match goal with |- context [aws_assert c ?b] => destruct (aws_assert_cases b) as [-> |(-> & _ & Hb)] end; [by apply Hnext|].
    destruct (next_info s) as [info|] eqn:Hi; [|done]. eapply out_assert_part; try done. unfold more_parts. by rewrite Hl.
  - destruct (is_body_stream_at_end s); simpl; [by apply Hcomp|by apply Hnext].
Qed.

Lemma update_finishing_outcome s d conservative result : finish_result d = Some result →
  update_outcome s d conservative
    (let '(work, request, s) := update_finishing c s result in
     if work || aws_s3_meta_request_are_events_out_for_delivery_synced d then Ok (true, request, s, d)
     else Ok (false, None, s, aws_s3_meta_request_set_success_synced d)).
Proof.
  intros Hf. unfold update_finishing.
  destruct (create_multipart_upload_sent s) eqn:Hcs; cbn [negb andb orb]; [|by eapply outcome_no_work, end_not_created].
  destruct (create_multipart_upload_completed s) eqn:Hcc; cbn [negb andb orb]; [|by apply out_wait, wait_created].
  destruct (Z.ltb_spec (put_num_parts_completed s) (put_num_parts_started s)) as [Hlt|Hge]; cbn [negb andb orb];
    [by apply out_wait, wait_parts_finishing|].
  destruct (complete_multipart_upload_sent s && negb (complete_multipart_upload_completed s)) eqn:Hcp; cbn [negb andb orb].
  { apply andb_true_iff in Hcp as [? ?%negb_true_iff]. by apply out_wait, wait_completed. }
  assert (settled s) as Hset.
  { split_and!; [done..|]. intros Hs. rewrite Hs in Hcp. by destruct (complete_multipart_upload_completed s). }
  destruct (bool_decide (result = Some AWS_ERROR_S3_PAUSED) || _) eqn:Hk; cbn [negb andb orb].
  { eapply outcome_no_work, end_kept; [done..|]. apply orb_true_iff in Hk as [?%bool_decide_eq_true|?%bool_decide_eq_true];
      unfold keeps_upload; naive_solver. }
  apply orb_false_iff in Hk as [Hk1%bool_decide_eq_false Hk2%bool_decide_eq_false].
  destruct (complete_multipart_upload_completed s && _) eqn:Hk; cbn [negb andb orb].
  { eapply outcome_no_work, end_kept; [done..|]. apply andb_true_iff in Hk as [? ?%bool_decide_eq_true].
    unfold keeps_upload; naive_solver. }
  destruct (abort_multipart_upload_sent s) eqn:Has; cbn [negb andb orb].
  { destruct (abort_multipart_upload_completed s) eqn:Hac; cbn [negb andb orb]; [by eapply outcome_no_work, end_aborted|].
    by apply out_wait, wait_aborted. }
  destruct (bool_decide (upload_id s = None)) eqn:Hid; cbn [negb andb orb].
  { apply bool_decide_eq_true in Hid. by eapply outcome_no_work, end_nothing; [..|left]. }
  apply bool_decide_eq_false in Hid. destruct result as [e|]; cbn [negb andb orb]; [|by eapply outcome_no_work, end_nothing; [..|right]].
  apply (out_abort s d conservative e); [done..| |done|done]. unfold keeps_upload. intros [?|[?|[Hx Hy]]]; [congruence..|].
  by rewrite Hx, bool_decide_eq_true_2 in Hk.
Qed.

(** An update is one of its outcomes. *)
Lemma update_spec s d conservative : update_outcome s d conservative (s_s3_auto_ranged_put_update c s d conservative).
Proof.
  unfold s_s3_auto_ranged_put_update. destruct (finish_result d) as [result|] eqn:Hf.
  { by apply update_finishing_outcome. }
  unfold update_running.
  destruct (list_parts_started s) eqn:Hls; cbn [negb andb orb]; [|by apply out_list].
  destruct (list_parts_continues s) eqn:Hlc; cbn [negb andb orb]; 
    [destruct (aws_assert_cases (bool_decide (is_Some (list_parts_continuation_token s)))) as [-> |(-> & Hd & Hb)];
       [by apply out_list_more|]; apply out_assert_token; try done; apply eq_None_not_Some; by apply bool_decide_eq_false in Hb|].
  destruct (list_parts_completed s) eqn:Hld; cbn [negb andb orb]; [|by apply out_wait, wait_listing].
  destruct (create_multipart_upload_sent s) eqn:Hcs; cbn [negb andb orb]; [|by apply out_create].
  destruct (create_multipart_upload_completed s) eqn:Hcc; cbn [negb andb orb]; [|by apply out_wait, wait_created].
  by apply update_parts_outcome.
Qed.
End outcomes.

(** * Requests by tag *)

Notation request_key := (put_request_tag * Z)%type.

Definition key (r : put_request) : request_key := (put_tag r, put_part_number r).

Definition tally (t : put_request_tag) (ks : list request_key) : Z :=
  zsum (λ k, if decide (k.1 = t) then 1 else 0) ks.

Definition part_numbers (ks : list request_key) : list Z :=
  omap (λ k, if decide (k.1 = TAG_PART) then Some k.2 else None) ks.

Lemma tally_app t ks ks' : tally t (ks ++ ks') = tally t ks + tally t ks'.
Proof. apply zsum_app. Qed.

Lemma tally_cons t k ks : tally t (k :: ks) = (if decide (k.1 = t) then 1 else 0) + tally t ks.
Proof. done. Qed.

Lemma tally_nonneg t ks : 0 ≤ tally t ks.
Proof. apply zsum_nonneg. intros k _. case_decide; lia. Qed.

Lemma tally_perm t ks ks' : ks ≡ₚ ks' → tally t ks = tally t ks'.
Proof. apply zsum_perm. Qed.

Lemma part_numbers_app ks ks' : part_numbers (ks ++ ks') = part_numbers ks ++ part_numbers ks'.
Proof. apply omap_app. Qed.

Lemma part_numbers_length ks : Z.of_nat (length (part_numbers ks)) = tally TAG_PART ks.
Proof.
  induction ks as [|[t k] ks IH]; [done|]. rewrite tally_cons. unfold part_numbers in *. cbn [omap list_omap fst snd].
  destruct (decide (t = TAG_PART)); cbn [length]; rewrite <-IH; unfold omap; lia.
Qed.

Lemma elem_of_part_numbers k ks : k ∈ part_numbers ks ↔ (TAG_PART, k) ∈ ks.
Proof.
  unfold part_numbers. rewrite list_elem_of_omap. split.
  - intros ([t j] & Hin & Hj). simpl in Hj. case_decide; simplify_eq/=. done.
  - intros Hin. exists (TAG_PART, k). split; [done|]. by rewrite decide_True.
Qed.

Lemma tally_zero t ks : tally t ks = 0 → ∀ k, (t, k) ∉ ks.
Proof.
  induction ks as [|[t' k'] ks IH]; rewrite ?tally_cons; simpl; intros Ht k Hin; [by apply elem_of_nil in Hin|].
  pose proof (tally_nonneg t ks). case_decide; [lia|]. apply elem_of_cons in Hin as [?|Hin]; [congruence|].
  by apply (IH ltac:(lia) k).
Qed.

Lemma tally_pos t k ks : (t, k) ∈ ks → 0 < tally t ks.
Proof.
  intros Hin. destruct (Z.eq_dec (tally t ks) 0) as [H0|]; [by destruct (tally_zero t ks H0 k)|].
  pose proof (tally_nonneg t ks). lia.
Qed.

(** * Flags and counters *)

Section flags.
Context `{B : !AwsByteCursor} `{H : !AwsHttpHeaders} `{D : !AwsDigest} `{X : !AwsXml} `{St : !AwsStreams}.
Context `{M : !AwsMath}.
Context {Q1 : AwsPriorityQueue s3_request part_number}.
Context {Q2 : AwsPriorityQueue delivery_tracking_record track_part_number}.
Context (c : put_config).
Implicit Types (s : put_state) (d : delivery) (fr : option (option aws_error)) (ks log : list request_key).

Definition failed fr : Prop := ∃ e, fr = Some (Some e).

Definition resumes : Prop := put_resume_token c ≠ None.

(** The multipart upload of a finished meta request: there is none, it was completed or
    aborted, or it is left for a resumption. *)
Definition wound_up s fr : Prop :=
  upload_id s = None ∨
  complete_multipart_upload_completed s = true ∧ complete_multipart_upload_error_code s = None ∨
  abort_multipart_upload_completed s = true ∨
  fr = Some (Some AWS_ERROR_S3_PAUSED) ∨ fr = Some (Some AWS_ERROR_S3_RESUME_FAILED) ∨
  fr = Some None ∧ resumes.

(** [ks] are the requests that are outstanding, [log] those that were made, of an upload with
    the result [fr]. *)
Record flags_ok s fr ks log (finished : bool) : Prop := {
  fl_list : tally TAG_LIST_PARTS ks =
    Z.b2z (list_parts_started s && negb (list_parts_continues s) && negb (list_parts_completed s));
  fl_continues : list_parts_continues s = true → list_parts_started s = true ∧ list_parts_completed s = false;
  fl_listed : list_parts_completed s = true → list_parts_started s = true;
  fl_create : tally TAG_CREATE_MULTIPART_UPLOAD ks =
    Z.b2z (create_multipart_upload_sent s && negb (create_multipart_upload_completed s));
  fl_created : create_multipart_upload_completed s = true → create_multipart_upload_sent s = true;
  fl_complete : tally TAG_COMPLETE_MULTIPART_UPLOAD ks =
    Z.b2z (complete_multipart_upload_sent s && negb (complete_multipart_upload_completed s));
  fl_completed : complete_multipart_upload_completed s = true → complete_multipart_upload_sent s = true;
  fl_abort : tally TAG_ABORT_MULTIPART_UPLOAD ks =
    Z.b2z (abort_multipart_upload_sent s && negb (abort_multipart_upload_completed s));
  fl_aborted : abort_multipart_upload_completed s = true → abort_multipart_upload_sent s = true;
  fl_parts : put_num_parts_completed s + tally TAG_PART ks = put_num_parts_started s;
  fl_bounds : 0 ≤ put_num_parts_completed s ∧ put_num_parts_started s ≤ U32_MAX - 1;
  fl_next : next_part_number s = put_num_parts_started s + 1;
  fl_numbers : NoDup (part_numbers ks) ∧ ∀ k, k ∈ part_numbers ks → 1 ≤ k ≤ put_num_parts_started s;
  fl_started : 0 < put_num_parts_started s → created s;
  fl_total : has_content_length c = true → put_num_parts_started s ≤ total_num_parts_from_content_length c;
  fl_complete_sent : complete_multipart_upload_sent s = true →
    created s ∧ parts_done c s ∧ ¬ more_parts c s ∧ upload_id s ≠ None ∧ needed_response_headers s ≠ None;
  fl_no_id : create_multipart_upload_sent s = false → upload_id s = None;
  fl_id : create_multipart_upload_completed s = true →
    upload_id s ≠ None ∧ needed_response_headers s ≠ None ∨ failed fr;
  fl_no_headers : create_multipart_upload_completed s = false → needed_response_headers s = None;
  fl_new : ¬ resumes → listed s;
  fl_resumes : resumes → create_multipart_upload_completed s = true;
  fl_abort_sent : abort_multipart_upload_sent s = true →
    upload_id s ≠ None ∧ settled s ∧ ∃ e, fr = Some (Some e) ∧ ¬ keeps_upload s (Some e);
  fl_success : fr = Some None →
    complete_multipart_upload_completed s = true ∧ complete_multipart_upload_error_code s = None ∨
    resumes ∧ complete_multipart_upload_sent s = false ∧ put_num_parts_started s = 0;
  fl_complete_error e : complete_multipart_upload_completed s = true → complete_multipart_upload_error_code s = Some e →
    failed fr;
  fl_log_create : tally TAG_CREATE_MULTIPART_UPLOAD log ≤ Z.b2z (create_multipart_upload_sent s);
  fl_log_complete : tally TAG_COMPLETE_MULTIPART_UPLOAD log = Z.b2z (complete_multipart_upload_sent s);
  fl_log_abort : tally TAG_ABORT_MULTIPART_UPLOAD log = Z.b2z (abort_multipart_upload_sent s);
  fl_log_parts : part_numbers log = seqZ 1 (put_num_parts_started s);
  fl_finished : finished = true → fr ≠ None ∧ wound_up s fr ∧ ∀ k, k ∈ ks → k.1 = TAG_LIST_PARTS;
}.

(** Only the order of the outstanding requests changes. *)
Lemma flags_perm s fr ks ks' log fin : ks ≡ₚ ks' → flags_ok s fr ks log fin → flags_ok s fr ks' log fin.
Proof.
  intros Hp []. split; try done; rewrite <-?(tally_perm _ _ _ Hp); try done.
  - unfold part_numbers in *. split; [rewrite <-Hp; tauto|]. intros k. rewrite <-Hp. naive_solver.
  - intros Hf. destruct (fl_finished0 Hf) as (? & ? & Hk). split_and!; [done..|]. intros k. rewrite <-Hp. apply Hk.
Qed.

(** A failure is only recorded if there is no result yet. *)
Lemma flags_fail s d ks log fin e : flags_ok s (finish_result d) ks log fin →
  flags_ok s (finish_result (aws_s3_meta_request_set_fail_synced d e)) ks log fin.
Proof.
  unfold aws_s3_meta_request_set_fail_synced. destruct (finish_result d) as [r|] eqn:Hf; [by rewrite Hf|].
  intros []. simpl. assert (failed (Some (Some e))) by by eexists. split; try done.
  - intros Hc. by right.
  - intros Ha. by destruct (fl_abort_sent0 Ha) as (_ & _ & ? & ? & _).
  - intros Hfin. by destruct (fl_finished0 Hfin) as (? & _).
Qed.

(** The request for the next part. *)
Lemma compute_body_size_frame r :
  let r' := fst (s_compute_request_body_size c r) in
  put_tag r' = put_tag r ∧ put_part_number r' = put_part_number r ∧ put_is_noop r' = put_is_noop r ∧
  put_was_previously_uploaded r' = put_was_previously_uploaded r ∧ put_from_pool r' = put_from_pool r ∧
  put_ticket r' = put_ticket r ∧ put_body r' = put_body r ∧ put_body_capacity r' = put_body_capacity r ∧
  put_fio_streaming r' = put_fio_streaming r ∧ put_body_stream r' = put_body_stream r.
Proof.
  unfold s_compute_request_body_size. cbv zeta. destruct (aws_mul_u64_checked _ _); [|done].
  by destruct (aws_add_u64_checked _ _).
Qed.

Lemma create_next_spec s prev r s' : create_next_part_request c s prev = Ok (r, s') →
  put_tag r = TAG_PART ∧ put_part_number r = next_part_number s ∧ put_was_previously_uploaded r = prev ∧
  put_is_noop r = false ∧ put_fio_streaming r = false ∧ put_body_stream r = None ∧
  ∃ w, s' = s <| put_writes := w |> <| next_part_number ::= λ n, n +[32] 1 |>
             <| put_num_parts_started ::= λ n, n +[32] 1 |> <| put_num_parts_pending_read ::= λ n, n +[32] 1 |> ∧
  if ready_to_send (put_writes s) then
    w = put_writes s <| buffered_data_ticket := false |> ∧ put_from_pool r = false ∧ put_ticket r = true ∧
    put_body r = buffered_data (put_writes s) ∧ put_body_capacity r = put_part_size c
  else w = put_writes s ∧ put_from_pool r = true ∧ put_ticket r = false ∧ put_body r = [] ∧ put_body_capacity r = 0.
Proof.
  unfold create_next_part_request. cbv zeta.
  set (r0 := put_request_new c TAG_PART _ false <| put_part_number := _ |>).
  pose proof (compute_body_size_frame r0) as Hr. cbv zeta in Hr.
  set (r1 := fst (s_compute_request_body_size c r0)) in *. clearbody r1.
  destruct Hr as (Ht & Hn & Hno & Hp & Hf & Htk & Hb & Hc & Hs & Hst).
  destruct (ready_to_send (put_writes s)); cbn [negb orb].
  - destruct (buffered_data_ticket (put_writes s)); [|done]. intros [= <- <-]. cbn. split_and!; try done.
    by exists (put_writes s <| buffered_data_ticket := false |>).
  - intros [= <- <-]. cbn. split_and!; try done. by exists (put_writes s).
Qed.

(** * Updates *)

Lemma flag_false (a b : bool) : (a = true → b = true) → b = false → a = false.
Proof. destruct a; [|done]. intros Ha Hb. by rewrite Ha in Hb. Qed.

(** Requests without a part number. *)
Lemma tally_new t t' b1 b2 ks :
  tally t (ks ++ [key (put_request_new c t' b1 b2)]) = tally t ks + (if decide (t' = t) then 1 else 0).
Proof. rewrite tally_app. unfold tally. simpl. lia. Qed.

Lemma part_numbers_new t b1 b2 ks : t ≠ TAG_PART → part_numbers (ks ++ [key (put_request_new c t b1 b2)]) = part_numbers ks.
Proof.
  intros Ht. rewrite part_numbers_app. unfold part_numbers at 2. simpl. rewrite decide_False by done. apply app_nil_r.
Qed.

Lemma flags_out_list s fr ks log :
  flags_ok s fr ks log false → fr = None → list_parts_started s = false →
  let k := key (put_request_new c TAG_LIST_PARTS false false) in
  flags_ok (s <| list_parts_started := true |>) fr (ks ++ [k]) (log ++ [k]) false.
Proof.
  intros [] -> Hs k. assert (list_parts_completed s = false ∧ list_parts_continues s = false) as [Hc1 Hc2].
  { split; (eapply flag_false; [|exact Hs]); [exact fl_listed0|]. intros ?. by apply fl_continues0. }
  assert (¬ created s) as Hnc by (intros [(? & _) _]; congruence).
  subst k. split; simpl; rewrite ?tally_new, ?part_numbers_new by done; simpl; rewrite ?Z.add_0_r; auto; try done.
  - rewrite fl_list0, Hs, Hc1, Hc2. done.
  - intros ?. by destruct Hnc, fl_started0.
  - intros ?. by destruct Hnc, fl_complete_sent0.
  - intros (? & _)%fl_new0. congruence.
Qed.

Lemma flags_out_list_more s fr ks log :
  flags_ok s fr ks log false → fr = None → list_parts_started s = true → list_parts_continues s = true →
  let k := key (put_request_new c TAG_LIST_PARTS false false) in
  flags_ok (s <| list_parts_continues := false |>) fr (ks ++ [k]) (log ++ [k]) false.
Proof.
  intros [] -> Hs Hc k. destruct (fl_continues0 Hc) as [_ Hcomp].
  assert (¬ created s) as Hnc by (intros [(_ & ? & _) _]; congruence).
  subst k. split; simpl; rewrite ?tally_new, ?part_numbers_new by done; simpl; rewrite ?Z.add_0_r; auto; try done.
  - rewrite fl_list0, Hs, Hc, Hcomp. done.
  - intros ?. by destruct Hnc, fl_started0.
  - intros ?. by destruct Hnc, fl_complete_sent0.
  - intros (_ & ? & _)%fl_new0. congruence.
Qed.

Lemma flags_out_create s fr ks log :
  flags_ok s fr ks log false → fr = None → create_multipart_upload_sent s = false →
  let k := key (put_request_new c TAG_CREATE_MULTIPART_UPLOAD false false) in
  flags_ok (s <| create_multipart_upload_sent := true |>) fr (ks ++ [k]) (log ++ [k]) false.
Proof.
  intros [] -> Hs k. assert (create_multipart_upload_completed s = false) as Hcc.
  { by eapply flag_false. }
  assert (¬ created s) as Hnc by (intros (_ & ? & _); congruence).
  subst k. split; simpl; rewrite ?tally_new, ?part_numbers_new by done; simpl; rewrite ?Z.add_0_r; auto; try done.
  - rewrite fl_create0, Hs, Hcc. done.
  - intros ?. by destruct Hnc, fl_started0.
  - intros ?. by destruct Hnc, fl_complete_sent0.
  - intros Ha. destruct (fl_abort_sent0 Ha) as (_ & _ & e & ? & _). done.
  - rewrite Hs in fl_log_create0. simpl in *. lia.
Qed.

Lemma flags_out_complete s fr ks log :
  flags_ok s fr ks log false → fr = None → created s → ¬ more_parts c s → parts_done c s →
  complete_multipart_upload_sent s = false →
  let k := key (put_request_new c TAG_COMPLETE_MULTIPART_UPLOAD false false) in
  flags_ok (s <| complete_multipart_upload_sent := true |>) fr (ks ++ [k]) (log ++ [k]) false.
Proof.
  intros [] -> Hcr Hmore Hdone Hs k. assert (complete_multipart_upload_completed s = false) as Hcc.
  { by eapply flag_false. }
  subst k. split; simpl; rewrite ?tally_new, ?part_numbers_new by done; simpl; rewrite ?Z.add_0_r; auto; try done.
  - rewrite fl_complete0, Hs, Hcc. done.
  - intros _. destruct (fl_id0 (proj2 (proj2 Hcr))) as [[Hid Hh]|[e ?]]; [|done]. by split_and!.
  - intros Ha. destruct (fl_abort_sent0 Ha) as (_ & _ & e & ? & _). done.
  - rewrite fl_log_complete0, Hs. done.
Qed.

Lemma flags_out_abort s fr ks log e :
  flags_ok s fr ks log false → fr = Some (Some e) → settled s → ¬ keeps_upload s (Some e) →
  abort_multipart_upload_sent s = false → upload_id s ≠ None →
  let k := key (put_request_new c TAG_ABORT_MULTIPART_UPLOAD false true) in
  flags_ok (s <| abort_multipart_upload_sent := true |>) fr (ks ++ [k]) (log ++ [k]) false.
Proof.
  intros [] -> Hset Hk Hs Hid k. assert (abort_multipart_upload_completed s = false) as Hac.
  { by eapply flag_false. }
  subst k. split; simpl; rewrite ?tally_new, ?part_numbers_new by done; simpl; rewrite ?Z.add_0_r; auto; try done.
  - rewrite fl_abort0, Hs, Hac. done.
  - intros _. split_and!; [done..|]. by exists e.
  - rewrite fl_log_abort0, Hs. done.
Qed.

Lemma part_numbers_part r : put_tag r = TAG_PART → part_numbers [key r] = [put_part_number r].
Proof. intros Ht. unfold part_numbers, key. simpl. by rewrite Ht, decide_True. Qed.

Lemma tally_single t r : tally t [key r] = if decide (put_tag r = t) then 1 else 0.
Proof. unfold tally. simpl. lia. Qed.

Lemma flags_out_part s fr ks log prev r s' :
  flags_ok s fr ks log false → fr = None → created s → more_parts c s → put_num_parts_started s < U32_MAX - 1 →
  create_next_part_request c s prev = Ok (r, s') →
  flags_ok s' fr (ks ++ [key r]) (log ++ [key r]) false.
Proof.
  intros [] -> Hcr Hmore Hlt Hnext.
  apply create_next_spec in Hnext as (Ht & Hnum & _ & _ & _ & _ & w & -> & _).
  assert (put_num_parts_started s +[32] 1 = put_num_parts_started s + 1) as HN.
  { pose proof (tally_nonneg TAG_PART ks). unfold U32_MAX in *. rewrite wrap_small by (unfold uint; lia). done. }
  assert (next_part_number s +[32] 1 = put_num_parts_started s + 1 + 1) as HN'.
  { pose proof (tally_nonneg TAG_PART ks). unfold U32_MAX in *. rewrite fl_next0, wrap_small by (unfold uint; lia). done. }
  assert (0 ≤ put_num_parts_started s) as HN0 by (pose proof (tally_nonneg TAG_PART ks); lia).
  split; simpl; rewrite ?HN, ?HN', ?tally_app, ?part_numbers_app, ?part_numbers_part, ?tally_single, ?Ht by done;
    simpl; rewrite ?Z.add_0_r; auto; try done.
  - lia.
  - lia.
  - rewrite Hnum, fl_next0. destruct fl_numbers0 as [Hnd Hr]. split.
    + apply list.NoDup_app. split_and!; [done| |apply list.NoDup_singleton].
      intros k Hk ->%list_elem_of_singleton. apply Hr in Hk. lia.
    + intros k [Hk|Hk]%elem_of_app; [apply Hr in Hk; lia|]. apply list_elem_of_singleton in Hk as ->. lia.
  - intros Hl. unfold more_parts in Hmore. rewrite Hl in Hmore. lia.
  - intros Hc. by destruct (fl_complete_sent0 Hc) as (_ & _ & ? & _).
  - intros Ha. destruct (fl_abort_sent0 Ha) as (_ & _ & e & ? & _). done.
  - rewrite Hnum, fl_next0, fl_log_parts0. rewrite seqZ_app by lia. f_equal. by rewrite (Z.add_comm 1).
Qed.

(** With no other request on its way, an upload may be finished. *)
Lemma only_listing ks : tally TAG_CREATE_MULTIPART_UPLOAD ks = 0 → tally TAG_PART ks = 0 →
  tally TAG_COMPLETE_MULTIPART_UPLOAD ks = 0 → tally TAG_ABORT_MULTIPART_UPLOAD ks = 0 →
  ∀ k, k ∈ ks → k.1 = TAG_LIST_PARTS.
Proof.
  intros H1 H2 H3 H4 [t k] Hk. pose proof (tally_pos t k ks Hk). destruct t; simpl; (done || lia).
Qed.

Lemma settled_tally s fr ks log fin : flags_ok s fr ks log fin → settled s →
  tally TAG_CREATE_MULTIPART_UPLOAD ks = 0 ∧ tally TAG_PART ks = 0 ∧ tally TAG_COMPLETE_MULTIPART_UPLOAD ks = 0.
Proof.
  intros [] (Hs & Hc & Hp & Hcc). pose proof (tally_nonneg TAG_PART ks). rewrite fl_create0, fl_complete0, Hs, Hc.
  split_and!; [done|lia|]. destruct (complete_multipart_upload_sent s); [|done]. by rewrite Hcc.
Qed.

Lemma abort_idle s fr ks log fin : flags_ok s fr ks log fin →
  (abort_multipart_upload_sent s = true → abort_multipart_upload_completed s = true) → tally TAG_ABORT_MULTIPART_UPLOAD ks = 0.
Proof. intros [] Ha. rewrite fl_abort0. destruct (abort_multipart_upload_sent s); [|done]. by rewrite Ha. Qed.

Lemma flags_finish s fr ks log : flags_ok s fr ks log false → fr ≠ None → wound_up s fr →
  (∀ k, k ∈ ks → k.1 = TAG_LIST_PARTS) → flags_ok s fr ks log true.
Proof. intros [] Hfr Hw Hk. by split. Qed.

Lemma ends_completed_flags s ks log : flags_ok s None ks log false → created s → ¬ more_parts c s → parts_done c s →
  complete_multipart_upload_sent s = true → complete_multipart_upload_completed s = true →
  flags_ok s (Some None) ks log true.
Proof.
  intros Hok Hcr Hm Hp Hcs Hcc.
  assert (abort_multipart_upload_sent s = false) as Has.
  { destruct (abort_multipart_upload_sent s) eqn:Ha; [|done].
    destruct (fl_abort_sent _ _ _ _ _ Hok Ha) as (_ & _ & e & ? & _). done. }
  assert (complete_multipart_upload_error_code s = None) as Hce.
  { destruct (complete_multipart_upload_error_code s) as [e|] eqn:He; [|done].
    by destruct (fl_complete_error _ _ _ _ _ Hok e Hcc He). }
  assert (settled s) as Hset.
  { destruct Hcr as (_ & ? & ?). split_and!; [done..| |done]. unfold parts_done in Hp.
    pose proof (fl_total _ _ _ _ _ Hok). destruct (has_content_length c); [|lia].
    rewrite Hp. auto. }
  destruct (settled_tally _ _ _ _ _ Hok Hset) as (? & ? & ?).
  assert (tally TAG_ABORT_MULTIPART_UPLOAD ks = 0) by (eapply abort_idle; [done|]; congruence).
  apply flags_finish; [|done|unfold wound_up; auto|by apply only_listing].
  destruct Hok. split; try done; rewrite ?Has, ?Hce; try done.
  - intros Hc. destruct (fl_id0 Hc) as [?|[e ?]]; [by left|done].
  - intros _. by left.
Qed.

Lemma ends_flags s d ks log : flags_ok s (finish_result d) ks log false → ends c s d →
  flags_ok s (finish_result (aws_s3_meta_request_set_success_synced d)) ks log true.
Proof.
  intros Hok He. unfold aws_s3_meta_request_set_success_synced.
  destruct He as [Hf Hcr Hm Hp Hcs Hcc|result Hf Hcs|result Hf Hset Hk|result Hf Hset Has Hn|result Hf Hset Has Hac];
    rewrite ?Hf in *; rewrite ?Hf; cbn [finish_result].
  - by apply ends_completed_flags.
  - apply flags_finish; [done..|left; by apply (fl_no_id _ _ _ _ _ Hok)|].
    assert (¬ created s) as Hnc by (intros (_ & ? & _); congruence).
    assert (tally TAG_PART ks = 0).
    { pose proof (fl_started _ _ _ _ _ Hok). pose proof (fl_parts _ _ _ _ _ Hok). pose proof (fl_bounds _ _ _ _ _ Hok).
      pose proof (tally_nonneg TAG_PART ks). destruct (Z_lt_dec 0 (put_num_parts_started s)); [|lia]. by destruct Hnc; auto. }
    apply only_listing; [by rewrite (fl_create _ _ _ _ _ Hok), Hcs|done| |].
    + rewrite (fl_complete _ _ _ _ _ Hok). destruct (complete_multipart_upload_sent s) eqn:Hc; [|done].
      by destruct Hnc, (fl_complete_sent _ _ _ _ _ Hok Hc).
    + rewrite (fl_abort _ _ _ _ _ Hok). destruct (abort_multipart_upload_sent s) eqn:Ha; [|done].
      destruct (fl_abort_sent _ _ _ _ _ Hok Ha) as (_ & (? & _) & _). congruence.
  - destruct (settled_tally _ _ _ _ _ Hok Hset) as (? & ? & ?).
    apply flags_finish; [done..| |apply only_listing; try done].
    + destruct Hk as [->|[->|?]]; unfold wound_up; tauto.
    + eapply abort_idle; [done|]. intros Ha. destruct (fl_abort_sent _ _ _ _ _ Hok Ha) as (_ & _ & e & [= ->] & []). done.
  - destruct (settled_tally _ _ _ _ _ Hok Hset) as (? & ? & ?).
    apply flags_finish; [done..| |apply only_listing; try done].
    + destruct Hn as [?| ->]; unfold wound_up; [tauto|]. destruct (fl_success _ _ _ _ _ Hok eq_refl) as [?|(? & _)]; tauto.
    + eapply abort_idle; [done|]. congruence.
  - destruct (settled_tally _ _ _ _ _ Hok Hset) as (? & ? & ?).
    apply flags_finish; [done..| |apply only_listing; try done]; [unfold wound_up; tauto|by eapply abort_idle].
Qed.

(** Every update keeps the flags and counters in step with the requests. *)
Lemma flags_update s d ks log conservative work request s' d' :
  flags_ok s (finish_result d) ks log false → put_num_parts_started s < U32_MAX - 1 ∨ work = false →
  update_outcome c s d conservative (Ok (work, request, s', d')) →
  flags_ok s' (finish_result d') (ks ++ (key <$> option_list request)) (log ++ (key <$> option_list request)) (negb work).
Proof.
  intros Hok Hlt Hout. inversion Hout; subst; cbn [option_list fmap list_fmap negb]; rewrite ?app_nil_r.
  - by apply flags_out_list.
  - by apply flags_out_list_more.
  - by apply flags_out_create.
  - destruct Hlt; [|done]. by eapply flags_out_part.
  - by apply flags_out_complete.
  - by eapply flags_out_abort.
  - done.
  - by apply ends_flags.
Qed.

(** * Finished requests *)

Lemma progress_result d bytes : finish_result (add_progress_event c d bytes) = finish_result d.
Proof. unfold add_progress_event. destruct (put_has_progress_callback c); [by rewrite add_event_Some|done]. Qed.

Lemma metrics_result telemetry d : finish_result (aws_s3_request_finish_up_metrics_synced telemetry d) = finish_result d.
Proof. unfold aws_s3_request_finish_up_metrics_synced. destruct telemetry; [by rewrite add_event_Some|done]. Qed.

(** The info that is made of a listed part: it has an ETag, the size and, for the algorithm of
    the upload, the checksum of the listing. *)
Definition info_of (li : listed_part) (info : mpu_part_info) : Prop :=
  is_Some (info_etag info) ∧ info_was_previously_uploaded info = true ∧ info_size info = listed_size li ∧
  ∀ context checksum, info_checksum_context info = Some context → base64_checksum context = Some checksum →
    checksum ≠ [] ∧ checksum = listed_checksum li (config_algorithm (put_checksum_config c)).

(** The infos that are added are of the listing. *)
Record listing_extends (parts : list listed_part) (l l' : list (option mpu_part_info)) : Prop := {
  le_new : ∀ i info, l' !! i = Some (Some info) → l !! i = Some (Some info) ∨
    ∃ li, li ∈ parts ∧ listed_part_number li ≠ 0 ∧ i = Z.to_nat (listed_part_number li - 1) ∧ info_of li info;
  le_length : ∀ n, Z.of_nat (length l) ≤ n → (∀ li, li ∈ parts → listed_part_number li ≤ n) → Z.of_nat (length l') ≤ n;
}.

Lemma set_part_lookup l k part i : 1 ≤ k →
  set_part l k part !! i =
    if decide (i = Z.to_nat (k - 1)) then Some (Some part)
    else match l !! i with
         | Some o => Some o
         | None => if decide (i < Z.to_nat k)%nat then Some None else None
         end.
Proof.
  intros Hk. unfold set_part. destruct (decide (i = Z.to_nat (k - 1))) as [->|Hne].
  - apply list_lookup_insert_eq. rewrite length_app, length_replicate. lia.
  - rewrite list_lookup_insert_ne by done. destruct (l !! i) as [o|] eqn:Hi.
    + by apply lookup_app_l_Some.
    + apply lookup_ge_None in Hi. rewrite lookup_app_r by done. case_decide.
      * apply lookup_replicate_2. lia.
      * apply lookup_ge_None. rewrite length_replicate. lia.
Qed.

Lemma listing_extends_refl parts l : listing_extends parts l l.
Proof. split; eauto. Qed.

Lemma listing_extends_trans parts l1 l2 l3 :
  listing_extends parts l1 l2 → listing_extends parts l2 l3 → listing_extends parts l1 l3.
Proof.
  intros [H1 Hl1] [H2 Hl2]. split.
  - intros i info Hi. destruct (H2 i info Hi) as [Hi'|?]; eauto.
  - auto.
Qed.

Lemma set_part_extends parts l li part : li ∈ parts → listed_part_number li ≠ 0 → info_of li part →
  listing_extends parts l (set_part l (listed_part_number li) part).
Proof.
  intros Hin Hn Hp. set (k := listed_part_number li). unfold set_part. set (l' := l ++ _). split.
  - intros i info [(<- & [= <-] & _)|[_ Hi]]%list_lookup_insert_Some; [right; by exists li|].
    apply lookup_app_Some in Hi as [?|[_ Hi]]; [by left|]. by apply lookup_replicate in Hi as [? _].
  - intros n Hl Hk. specialize (Hk li Hin). rewrite length_insert. subst l'. rewrite length_app, length_replicate. lia.
Qed.

Lemma existing_context config existing review ctx :
  aws_s3_upload_request_checksum_context_new_with_existing_base64_checksum config existing review = Some ctx →
  base64_checksum ctx = Some existing.
Proof.
  unfold aws_s3_upload_request_checksum_context_new_with_existing_base64_checksum.
  destruct (s_s3_upload_request_checksum_context_new_base _ _) as [c'|]; [|done]. destruct (negb _); [done|]. by intros [= <-].
Qed.

Lemma new_context config review ctx :
  aws_s3_upload_request_checksum_context_new config review = Some ctx → base64_checksum ctx = None.
Proof.
  unfold aws_s3_upload_request_checksum_context_new, s_s3_upload_request_checksum_context_new_base.
  destruct config as [k|]; [|by intros [= <-]]. case_decide; [by intros [= <-]|].
  destruct (aws_base64_compute_encoded_len _); [|done]. by intros [= <-].
Qed.

Lemma cursor_spec info checksum : listed_checksum_cursor c info = Ok (Some checksum) →
  checksum = listed_checksum info (config_algorithm (put_checksum_config c)).
Proof.
  unfold listed_checksum_cursor, aws_assert. destruct (put_debug_build c), (config_algorithm (put_checksum_config c)); simpl; congruence.
Qed.

Lemma process_part_frame s li s' : s_process_part_info_synced c s li = Ok (Success s') →
  listed_part_number li ≠ 0 ∧ ∃ part, info_of li part ∧ s' = s <| part_list ::= λ l, set_part l (listed_part_number li) part |>.
Proof.
  unfold s_process_part_info_synced. destruct (Z.eqb_spec (listed_part_number li) 0); [done|].
  destruct (listed_checksum_cursor c li) as [cur| |] eqn:Hcur; [|done..]. cbn [mbind res_bind].
  match goal with |- context [match ?o with Some _ => _ | None => Ok (Failure AWS_ERROR_UNKNOWN) end] =>
    destruct o as [ctx|] eqn:Hctx end; [|done]. intros [= <-]. split; [done|]. eexists. split; [|done].
  unfold info_of. simpl. split_and!; [by eexists|done..|]. intros ctx' checksum [= <-] Hc.
  destruct cur as [[|b l]|]; [apply new_context in Hctx; congruence| |apply new_context in Hctx; congruence].
  apply existing_context in Hctx. apply cursor_spec in Hcur. rewrite Hctx in Hc. injection Hc as <-. done.
Qed.

Lemma list_parts_frame s body s' result : list_parts_on_response c s body = Ok (s', result) →
  ∃ l, s' = s <| part_list := l |> ∧ listing_extends (listed_parts body) (part_list s) l.
Proof.
  unfold list_parts_on_response. set (on_part := λ _ _, _). set (op := aws_s3_list_parts_operation_new _ _ on_part).
  set (I := λ a : res put_state, ∀ s', a = Ok s' →
    ∃ l, s' = s <| part_list := l |> ∧ listing_extends (listed_parts body) (part_list s) l).
  assert (I (fst (aws_s3_paginated_operation_on_response op body (Ok s)))) as Hinv.
  { apply on_response_inv.
    - intros n a Hn Ha. subst op. simpl. unfold s_xml_on_ListPartsResult_child.
      destruct (aws_byte_cursor_eq_ignore_case _ _) eqn:Hname; [|done].
      destruct (part_of_node n) as [li|] eqn:Hli; [|done]. unfold on_part. destruct a as [s1| |]; [|done..]. simpl.
      destruct (Ha s1 eq_refl) as (l & -> & Hl).
      destruct (s_process_part_info_synced c _ li) as [[s2|]| |] eqn:Hp; simpl; [|done..].
      intros s3 [= <-]. apply process_part_frame in Hp as (Hne & part & Hpart & ->). eexists. split; [done|].
      eapply listing_extends_trans; [exact Hl|]. apply set_part_extends; [|done..]. unfold listed_parts.
      apply list_elem_of_omap. exists n. split; [by apply list_elem_of_filter|done].
    - intros s1 [= <-]. exists (part_list s). split; [by destruct s|]. apply listing_extends_refl. }
  destruct (aws_s3_paginated_operation_on_response op body (Ok s)) as [[s1| |] parsed]; [|done..]. simpl.
  intros [= <- <-]. by apply Hinv.
Qed.

(** A request of a tag is outstanding. *)
Lemma live_b2z t k ks b : k.1 = t → tally t (k :: ks) = Z.b2z b → b = true ∧ tally t ks = 0.
Proof.
  intros Hk Ht. pose proof (tally_nonneg t ks). rewrite tally_cons, decide_True in Ht by done.
  destruct b; simpl in Ht; [|lia]. split; [done|lia].
Qed.

Lemma other_tally t k ks : k.1 ≠ t → tally t (k :: ks) = tally t ks.
Proof. intros Hk. rewrite tally_cons, decide_False by done. done. Qed.

Lemma part_numbers_other k ks : k.1 ≠ TAG_PART → part_numbers (k :: ks) = part_numbers ks.
Proof. intros Hk. unfold part_numbers. simpl. by rewrite decide_False. Qed.

Lemma finished_not_live s fr k ks log fin : flags_ok s fr (k :: ks) log fin → k.1 ≠ TAG_LIST_PARTS → fin = false.
Proof.
  intros Hok Hk. destruct fin; [|done]. destruct (fl_finished _ _ _ _ _ Hok eq_refl) as (_ & _ & Hks).
  destruct Hk. apply Hks. left.
Qed.

(** The result of a listing that fails. *)
Lemma flags_success s d ks log fin : flags_ok s (finish_result d) ks log fin → resumes →
  complete_multipart_upload_sent s = false → put_num_parts_started s = 0 →
  flags_ok s (finish_result (aws_s3_meta_request_set_success_synced d)) ks log fin.
Proof.
  unfold aws_s3_meta_request_set_success_synced. destruct (finish_result d) as [r|] eqn:Hf; [by rewrite Hf|].
  intros [] Hr Hc Hn. simpl. split; try done.
  - intros Hcc. destruct (fl_id0 Hcc) as [?|[e ?]]; [by left|done].
  - intros Ha. by destruct (fl_abort_sent0 Ha) as (_ & _ & e & ? & _).
  - intros _. by right.
  - intros e Hcc. rewrite (fl_completed0 Hcc) in Hc. done.
  - intros Hfin. by destruct (fl_finished0 Hfin) as (? & _).
Qed.

Lemma flags_list s fr k ks log fin l token more error :
  flags_ok s fr (k :: ks) log fin → k.1 = TAG_LIST_PARTS →
  flags_ok (s <| part_list := l |> <| list_parts_continuation_token := token |> <| list_parts_continues := more |>
              <| list_parts_completed := negb more |> <| list_parts_error_code := error |>) fr ks log fin.
Proof.
  intros Hok Hk. pose proof (live_b2z _ _ _ _ Hk (fl_list _ _ _ _ _ Hok)) as [Hb Ht].
  apply andb_true_iff in Hb as [[Hs Hc%negb_true_iff]%andb_true_iff Hd%negb_true_iff].
  assert (¬ created s) as Hnc by (intros [(_ & _ & ?) _]; congruence).
  destruct Hok. rewrite ?other_tally, ?part_numbers_other in * by by rewrite Hk.
  split; simpl; try done.
  - rewrite Ht, Hs. by destruct more.
  - intros ->. done.
  - intros ?. by destruct Hnc, fl_started0.
  - intros ?. by destruct Hnc, fl_complete_sent0.
  - intros (_ & _ & ?)%fl_new0. congruence.
  - intros Hfin. destruct (fl_finished0 Hfin) as (? & ? & Hks). split_and!; [done..|]. intros j Hj. apply Hks. by right.
Qed.

Lemma list_parts_page_frame s d resp s' d' error more : list_parts_page c s d resp = Ok (s', d', error, more) →
  ∃ l token, s' = s <| part_list := l |> <| list_parts_continuation_token := token |> ∧
    listing_extends (listed_parts (response_xml resp)) (part_list s) l ∧ finish_result d' = finish_result d.
Proof.
  unfold list_parts_page. destruct (list_parts_on_response c _ _) as [[s1 parsed]| |] eqn:Hr; [|done..]. simpl.
  apply list_parts_frame in Hr as (l & -> & Hl).
  destruct parsed as [[token b]|e]; cbv zeta; intros [= <- <- <- <-]; eexists l, _; split_and!; try done.
  by case_match; rewrite ?progress_result.
Qed.

(** What [list_parts_finished] leaves: the flags, the parts, and the result. *)
Lemma list_parts_finished_frame s d error resp s' d' : list_parts_finished c s d error resp = Ok (s', d') →
  ∃ l token more error', s' = s <| part_list := l |> <| list_parts_continuation_token := token |>
      <| list_parts_continues := more |> <| list_parts_completed := negb more |> <| list_parts_error_code := error' |> ∧
    (if error then l = part_list s else listing_extends (listed_parts (response_xml resp)) (part_list s) l) ∧
    ∃ d1, finish_result d1 = finish_result d ∧
    (d' = d1 ∨ resumes ∧ d' = aws_s3_meta_request_set_success_synced d1 ∨
     ∃ e, d' = aws_s3_meta_request_set_fail_synced d1 e).
Proof.
  unfold list_parts_finished.
  destruct (match error with Some e => _ | None => _ end) as [[[[s1 d1] error1] more]| |] eqn:Hm; [|done..]. simpl.
  assert (∃ l token, s1 = s <| part_list := l |> <| list_parts_continuation_token := token |> ∧
    (if error then l = part_list s else listing_extends (listed_parts (response_xml resp)) (part_list s) l) ∧
    finish_result d1 = finish_result d) as (l & token & -> & Hl & Hd).
  { destruct error as [e|].
    - injection Hm as <- <- _ _. exists (part_list s), (list_parts_continuation_token s). split_and!; [by destruct s|done..].
    - by eapply list_parts_page_frame. }
  intros Heq. exists l, token, more, error1. destruct error1 as [e|]; cbv zeta in Heq;
    injection Heq as <- <-; split_and!; try done; exists d1; split; try done; [|by left].
  right. unfold resumes. destruct (response_status resp =? 404); simpl; [|by right; eexists].
  destruct (put_resume_token c); [|by right; eexists]. destruct (_ =? _); [by left|by right; eexists].
Qed.

Lemma list_parts_finished_flags s d k ks log fin error resp s' d' :
  flags_ok s (finish_result d) (k :: ks) log fin → k.1 = TAG_LIST_PARTS →
  list_parts_finished c s d error resp = Ok (s', d') → flags_ok s' (finish_result d') ks log fin.
Proof.
  intros Hok Hk Hf. apply list_parts_finished_frame in Hf as (l & token & more & e' & -> & _ & d1 & Hd & Hd').
  pose proof (live_b2z _ _ _ _ Hk (fl_list _ _ _ _ _ Hok)) as [Hb _].
  apply andb_true_iff in Hb as [_ Hcomp%negb_true_iff].
  assert (¬ created s) as Hnc by (intros [(_ & _ & ?) _]; congruence).
  pose proof (flags_list _ _ _ _ _ _ l token more e' Hok Hk) as Hok'. rewrite <-Hd in Hok'.
  destruct Hd' as [->|[[Hr ->]|[e ->]]]; [done| |by apply flags_fail].
  apply flags_success; try done; simpl.
  - destruct (complete_multipart_upload_sent s) eqn:Hc; [|done]. by destruct Hnc, (fl_complete_sent _ _ _ _ _ Hok Hc).
  - pose proof (fl_parts _ _ _ _ _ Hok). pose proof (fl_bounds _ _ _ _ _ Hok). pose proof (tally_nonneg TAG_PART (k :: ks)).
    destruct (Z_lt_dec 0 (put_num_parts_started s)); [|lia]. by destruct Hnc, (fl_started _ _ _ _ _ Hok).
Qed.

Lemma create_finished_flags s d k ks log fin error resp s' d' :
  flags_ok s (finish_result d) (k :: ks) log fin → k.1 = TAG_CREATE_MULTIPART_UPLOAD →
  create_finished c s d error resp = Ok (s', d') → flags_ok s' (finish_result d') ks log fin.
Proof.
  intros Hok Hk Hf.
  assert (fin = false) as -> by (eapply finished_not_live; [done|by rewrite Hk]).
  pose proof (live_b2z _ _ _ _ Hk (fl_create _ _ _ _ _ Hok)) as [[Hs Hc%negb_true_iff]%andb_true_iff Ht].
  assert (¬ created s) as Hnc by (intros (_ & _ & ?); congruence).
  assert (abort_multipart_upload_sent s = false) as Has.
  { destruct (abort_multipart_upload_sent s) eqn:Ha; [|done].
    destruct (fl_abort_sent _ _ _ _ _ Hok Ha) as (_ & (_ & ? & _) & _). congruence. }
  assert (∃ id headers e, s' = s <| upload_id := id |> <| needed_response_headers := headers |>
      <| create_multipart_upload_completed := true |> <| list_parts_error_code := e |> ∧
    (e = None ∧ d' = d ∧ id ≠ None ∧ headers ≠ None ∨ ∃ e', d' = aws_s3_meta_request_set_fail_synced d e'))
    as (id & headers & e & -> & Hd').
  { unfold create_finished in Hf. destruct error as [e|]; cbv zeta in Hf.
    - destruct (aws_assert c _) as [[]| |]; [|done..]. simpl in Hf.
      injection Hf as <- <-. eexists (upload_id s), _, _. split; [by destruct s|]. right. by eexists.
    - destruct (aws_xml_get_body_at_path _ _) as [[|b id]|]; (destruct (aws_assert c _) as [[]| |]; [|done..]); simpl in Hf;
        injection Hf as <- <-.
      1, 3: eexists (upload_id s), _, _; split; [by destruct s|]; right; by eexists.
      eexists _, _, _. split; [done|]. left. done. }
  assert (∀ d', flags_ok s (finish_result d') (k :: ks) log false → (id ≠ None ∧ headers ≠ None ∨ failed (finish_result d')) →
    flags_ok (s <| upload_id := id |> <| needed_response_headers := headers |>
      <| create_multipart_upload_completed := true |> <| list_parts_error_code := e |>) (finish_result d') ks log false) as Hset.
  { clear Hok Hd'. intros d1 Hok Hid. destruct Hok. rewrite ?other_tally, ?part_numbers_other in * by by rewrite Hk.
    split; simpl; try done; rewrite ?Has; try done.
    - by rewrite Ht, Hs.
    - intros ?. by destruct Hnc, fl_started0.
    - intros ?. by destruct Hnc, fl_complete_sent0.
    - rewrite Hs. done. }
  destruct Hd' as [(_ & -> & ? & ?)|[e' ->]]; [by apply Hset; [|left]|].
  pose proof (flags_fail _ _ _ _ _ e' Hok) as Hok'. apply Hset; [done|].
  right. unfold aws_s3_meta_request_set_fail_synced in *. destruct (finish_result d) as [[e1|]|] eqn:Hf'.
  - rewrite Hf'. by eexists.
  - destruct (fl_success _ _ _ _ _ Hok eq_refl) as [[Hcc _]|[Hr _]].
    + by destruct Hnc, (fl_complete_sent _ _ _ _ _ Hok (fl_completed _ _ _ _ _ Hok Hcc)).
    + pose proof (fl_resumes _ _ _ _ _ Hok Hr). congruence.
  - by eexists.
Qed.

(** While a part is on its way, nothing follows the parts. *)
Lemma part_live s fr k ks log fin : flags_ok s fr (k :: ks) log fin → k.1 = TAG_PART →
  fin = false ∧ complete_multipart_upload_sent s = false ∧ abort_multipart_upload_sent s = false ∧
  put_num_parts_completed s + 1 + tally TAG_PART ks = put_num_parts_started s ∧ created s.
Proof.
  intros Hok Hk. pose proof (fl_parts _ _ _ _ _ Hok) as Hp. rewrite tally_cons, decide_True in Hp by done.
  pose proof (tally_nonneg TAG_PART ks). pose proof (fl_bounds _ _ _ _ _ Hok). pose proof (fl_total _ _ _ _ _ Hok).
  split_and!.
  - eapply finished_not_live; [done|by rewrite Hk].
  - destruct (complete_multipart_upload_sent s) eqn:Hc; [|done].
    destruct (fl_complete_sent _ _ _ _ _ Hok Hc) as (_ & Hd & _). unfold parts_done in Hd.
    destruct (has_content_length c); [lia|]. destruct Hd. lia.
  - destruct (abort_multipart_upload_sent s) eqn:Ha; [|done].
    destruct (fl_abort_sent _ _ _ _ _ Hok Ha) as (_ & (_ & _ & ? & _) & _). lia.
  - lia.
  - apply (fl_started _ _ _ _ _ Hok). lia.
Qed.

Lemma flags_part s fr k ks log fin noop successful nfailed l :
  flags_ok s fr (k :: ks) log fin → k.1 = TAG_PART →
  flags_ok (s <| put_num_parts_completed ::= λ n, n +[32] 1 |> <| put_num_parts_noop := noop |>
              <| put_num_parts_successful := successful |> <| put_num_parts_failed := nfailed |> <| part_list := l |>)
    fr ks log fin.
Proof.
  intros Hok Hk. destruct (part_live _ _ _ _ _ _ Hok Hk) as (-> & Hc & Ha & Hp & Hcr).
  pose proof (tally_nonneg TAG_PART ks) as Hnn. pose proof (fl_bounds _ _ _ _ _ Hok) as Hb.
  assert (put_num_parts_completed s +[32] 1 = put_num_parts_completed s + 1) as Hw.
  { unfold U32_MAX in *. rewrite wrap_small by (unfold uint; lia). done. }
  destruct Hok. rewrite ?(other_tally _ k) in * by by rewrite Hk.
  split; simpl; rewrite ?Hw, ?Hc, ?Ha; try done; rewrite ?Hc, ?Ha in *; try done; try lia.
  destruct fl_numbers0 as [Hnd Hr]. unfold part_numbers in *. simpl in *. rewrite Hk in *. simpl in *.
  apply list.NoDup_cons in Hnd as [_ ?]. split; [done|]. intros j Hj. apply Hr. by right.
Qed.

Lemma upload_part_finished_frame s d r error resp s' d' : upload_part_finished c s d r error resp = Ok (s', d') →
  ∃ noop successful nfailed l, s' = s <| put_num_parts_completed ::= λ n, n +[32] 1 |> <| put_num_parts_noop := noop |>
     <| put_num_parts_successful := successful |> <| put_num_parts_failed := nfailed |> <| part_list := l |> ∧
  (put_is_noop r = true ∧ l = part_list s ∧ d' = d ∨
   put_is_noop r = false ∧ error = None ∧ finish_result d' = finish_result d ∧
     (∃ etag, set_etag c (part_list s) (put_part_number r) etag = Ok l) ∨
   put_is_noop r = false ∧ l = part_list s ∧ ∃ e, d' = aws_s3_meta_request_set_fail_synced d e).
Proof.
  unfold upload_part_finished. destruct (0 <? put_part_number r); [|done]. cbn [assert_fatal]. simpl.
  destruct (put_is_noop r).
  { intros [= <- <-]. eexists _, _, _, (part_list s). split; [done|]. by left. }
  match goal with |- context [match ?o with Success _ => _ | Failure _ => _ end] => destruct o as [etag|e] eqn:Ho end.
  - destruct (set_etag _ _ _ _) as [l| |] eqn:Hl; try done. simpl. intros [= <- <-].
    eexists _, _, _, l. split; [done|]. right. left. destruct error; [done|]. rewrite progress_result. eauto.
  - intros [= <- <-]. eexists _, _, _, (part_list s). split; [done|]. right. right. eauto.
Qed.

Lemma upload_part_finished_flags s d r ks log fin error resp s' d' :
  flags_ok s (finish_result d) (key r :: ks) log fin → put_tag r = TAG_PART →
  upload_part_finished c s d r error resp = Ok (s', d') → flags_ok s' (finish_result d') ks log fin.
Proof.
  intros Hok Hk Hf. apply upload_part_finished_frame in Hf as (noop & succ & nf & l & -> & Hd).
  pose proof (flags_part _ _ _ _ _ _ noop succ nf l Hok Hk) as Hok'.
  destruct Hd as [(_ & _ & ->)|[(_ & _ & -> & _)|(_ & _ & e & ->)]]; [done..|]. by apply flags_fail.
Qed.

Lemma complete_finished_frame s d error resp s' d' : complete_finished c s d error resp = Ok (s', d') →
  ∃ headers e, s' = s <| reported_headers := headers |> <| complete_multipart_upload_completed := true |>
      <| complete_multipart_upload_error_code := e |> ∧
    d' = match e with Some e => aws_s3_meta_request_set_fail_synced d e | None => d end ∧ (e = None → error = None).
Proof.
  unfold complete_finished. destruct error as [e|]; [|destruct (has_headers_callback c)].
  - simpl. intros [= <- <-]. exists (reported_headers s), (Some e). split_and!; done.
  - destruct (needed_response_headers s); [|done]. simpl. intros [= <- <-]. eexists _, _. split_and!; done.
  - simpl. intros [= <- <-]. exists (reported_headers s), None. split_and!; done.
Qed.

Lemma complete_finished_flags s d k ks log fin error resp s' d' :
  flags_ok s (finish_result d) (k :: ks) log fin → k.1 = TAG_COMPLETE_MULTIPART_UPLOAD →
  complete_finished c s d error resp = Ok (s', d') → flags_ok s' (finish_result d') ks log fin.
Proof.
  intros Hok Hk Hf. apply complete_finished_frame in Hf as (headers & e & -> & -> & _).
  assert (fin = false) as -> by (eapply finished_not_live; [done|by rewrite Hk]).
  pose proof (live_b2z _ _ _ _ Hk (fl_complete _ _ _ _ _ Hok)) as [[Hs Hc%negb_true_iff]%andb_true_iff Ht].
  assert (abort_multipart_upload_sent s = false) as Has.
  { destruct (abort_multipart_upload_sent s) eqn:Ha; [|done].
    destruct (fl_abort_sent _ _ _ _ _ Hok Ha) as (_ & (_ & _ & _ & Hx) & _). rewrite Hx in Hc; done. }
  assert (finish_result d ≠ Some None) as Hns.
  { intros Hd. destruct (fl_success _ _ _ _ _ Hok Hd) as [[? _]|(_ & ? & _)]; congruence. }
  set (d' := match e with Some e => _ | None => _ end).
  assert (flags_ok s (finish_result d') (k :: ks) log false) as Hok'.
  { subst d'. destruct e; [by apply flags_fail|done]. }
  assert (finish_result d' ≠ Some None ∧ (e ≠ None → failed (finish_result d'))) as [Hns' He].
  { subst d'. unfold aws_s3_meta_request_set_fail_synced, failed.
    destruct e as [e|]; [|done]. destruct (finish_result d) as [[e1|]|] eqn:Hd; rewrite ?Hd; simpl; eauto; done. }
  clearbody d'. clear Hok Hns. destruct Hok'. rewrite ?other_tally, ?part_numbers_other in * by by rewrite Hk.
  split; simpl; try done; rewrite ?Has; try done.
  - by rewrite Ht, Hs.
  - intros e' _ ->. by apply He.
Qed.

Lemma abort_finished_flags s fr k ks log fin error :
  flags_ok s fr (k :: ks) log fin → k.1 = TAG_ABORT_MULTIPART_UPLOAD →
  flags_ok (s <| abort_multipart_upload_error_code := error |> <| abort_multipart_upload_completed := true |>) fr ks log fin.
Proof.
  intros Hok Hk.
  assert (fin = false) as -> by (eapply finished_not_live; [done|by rewrite Hk]).
  pose proof (live_b2z _ _ _ _ Hk (fl_abort _ _ _ _ _ Hok)) as [[Hs Hc%negb_true_iff]%andb_true_iff Ht].
  destruct Hok. rewrite ?other_tally, ?part_numbers_other in * by by rewrite Hk.
  split; simpl; try done. by rewrite Ht, Hs.
Qed.

(** A finished request leaves the flags in step with the others. *)
Lemma flags_finished s d r ks log fin error resp s' d' :
  flags_ok s (finish_result d) (key r :: ks) log fin →
  s_s3_auto_ranged_put_request_finished c s d r error resp = Ok (s', d') → flags_ok s' (finish_result d') ks log fin.
Proof.
  intros Hok. unfold s_s3_auto_ranged_put_request_finished.
  match goal with |- (?t ≫= _) = _ → _ => set (m := t) end.
  assert (∀ s1 d1, m = Ok (s1, d1) → flags_ok s1 (finish_result d1) ks log fin) as Hm.
  { intros s1 d1. subst m. destruct (put_tag r) eqn:Ht.
    - intros Hf. by eapply list_parts_finished_flags.
    - intros Hf. by eapply create_finished_flags.
    - intros Hf. by eapply upload_part_finished_flags.
    - intros [= <- <-]. by eapply abort_finished_flags.
    - intros Hf. by eapply complete_finished_flags. }
  destruct m as [[s1 d1]| |]; try done. simpl. intros [= <- <-]. rewrite metrics_result. by apply Hm.
Qed.

(** * Preparation, writes and events *)

(** Only what belongs to the body and its parts changes. *)
Definition same_flags s s' : Prop :=
  ∃ l at_end pending w reader checksum, s' = s <| part_list := l |> <| is_body_stream_at_end := at_end |>
    <| put_num_parts_pending_read := pending |> <| put_writes := w |> <| put_reader := reader |>
    <| put_full_object_checksum := checksum |>.

Lemma flags_same s fr ks log fin s' : flags_ok s fr ks log fin → same_flags s s' →
  is_body_stream_at_end s' = is_body_stream_at_end s ∨ complete_multipart_upload_sent s = false →
  flags_ok s' fr ks log fin.
Proof.
  intros [] (l & at_end & pending & w & rd & checksum & ->) Hend. simpl in Hend. split; simpl; try done.
  intros Hc. destruct Hend as [->|?]; [|congruence]. by apply fl_complete_sent0.
Qed.

(** Delivery only ever adds a failure. *)
Definition result_grows fr fr' : Prop := fr' = fr ∨ fr = None ∧ failed fr'.

Lemma grows_trans fr1 fr2 fr3 : result_grows fr1 fr2 → result_grows fr2 fr3 → result_grows fr1 fr3.
Proof. unfold result_grows, failed. naive_solver. Qed.

Lemma grows_fail d e : result_grows (finish_result d) (finish_result (aws_s3_meta_request_set_fail_synced d e)).
Proof.
  unfold aws_s3_meta_request_set_fail_synced. destruct (finish_result d) eqn:Hd; [by left|]. right. split; [done|]. simpl. by eexists.
Qed.

Lemma flags_grows s fr fr' ks log fin : flags_ok s fr ks log fin → result_grows fr fr' → flags_ok s fr' ks log fin.
Proof.
  intros Hok [->|[-> [e ->]]]; [done|]. pose (d := delivery_init 0 (mask_new 1)).
  by apply (flags_fail s d ks log fin e).
Qed.

Lemma open_window_result dc d body : finish_result (open_window dc d body) = finish_result d.
Proof.
  unfold open_window. destruct (enable_read_backpressure dc); [|done].
  unfold aws_s3_meta_request_increment_read_window. destruct (_ || _); [done|]. by rewrite add_event_None.
Qed.

Lemma deliver_to_sink_result accept dc d body start e d' : s_deliver_body_to_sink accept dc d body start = (e, d') →
  finish_result d' = finish_result d.
Proof.
  unfold s_deliver_body_to_sink, deliver_body_to_file. destruct (sink dc).
  - intros [= <- <-]. by rewrite open_window_result.
  - destruct (s_s3_recv_file_offset _ _ _ _); [|by intros [= <- <-]].
    destruct (accept _ _ _); intros [= <- <-]; [done|]. by rewrite open_window_result.
  - destruct (accept _ _ _); by intros [= <- <-].
Qed.

Lemma handle_event_result accept checksum_update dc d t ev d' t' :
  handle_event accept checksum_update dc d t ev = Ok (d', t') → finish_result d' = finish_result d.
Proof.
  destruct ev as [r k|b|]; simpl; [|by intros [= <- <-]|destruct (has_telemetry_callback dc); by intros [= <- <-]].
  case_bool_decide; [by intros [= <- <-]|]. destruct (apply_backpressure _ _ _ _) as [[[body al] inc]| |]; [|done..]. simpl.
  case_bool_decide; [by intros [= <- <-]|]. intros [= Hd]. revert Hd. unfold deliver_body.
  destruct (check_sequential _ _ _ _ _ _) as [e next]. destruct (feed_checksum _ _ _ _ _) as [e1 sum].
  unfold deliver_unless_failed. destruct e1 as [e1|].
  - by intros [= <- <-].
  - destruct (s_deliver_body_to_sink _ _ _ _ _) as [e2 d2] eqn:Hs. apply deliver_to_sink_result in Hs.
    destruct e2; [by intros [= <- <-]|]. destruct inc; by intros [= <- <-].
Qed.

Lemma record_completed_result dc d l : result_grows (finish_result d) (finish_result (record_completed dc d l)).
Proof.
  revert d. induction l as [|r l IH]; intros d; [by left|]. cbn [record_completed].
  assert (result_grows (finish_result d) (finish_result (mark_or_fail d (track_part_number r)))) as Hm.
  { unfold mark_or_fail. destruct (s_mark_part_delivered _ _); [by left|apply grows_fail]. }
  eapply grows_trans; [exact Hm|]. destruct (out_of_order_delivery dc); [|apply IH].
  destruct (s_s3_meta_request_record_delivered_part_synced _ _); [|apply grows_fail].
  eapply grows_trans; [|apply IH]. by left.
Qed.

Lemma task_end_result dc d d' : task_end dc d = Ok d' → result_grows (finish_result d) (finish_result d').
Proof.
  unfold task_end. destruct (task d) as [t|]; [|intros [= <-]; by left].
  set (d1 := match error_code t with Some e => _ | None => _ end).
  assert (result_grows (finish_result d) (finish_result d1)) as Hd1.
  { subst d1. destruct (error_code t) as [e|]; [|by left]. eapply grows_trans; [|apply grows_fail]. by left. }
  clearbody d1. destruct (requeue_incomplete d1 t) as [d2| |] eqn:Hr; [|done..]. simpl. intros [= <-].
  assert (finish_result d2 = finish_result d1) as Hd2.
  { unfold requeue_incomplete in Hr. destruct (incomplete_deliver_events t); [by injection Hr as ->|].
    destruct (_ =? 0); [|done]. simpl in Hr. injection Hr as <-. destruct (_ && _); [by rewrite add_event_None|done]. }
  eapply grows_trans; [exact Hd1|]. rewrite <-Hd2.
  eapply grows_trans; [|destruct (out_of_order_delivery dc); apply record_completed_result]. by left.
Qed.

Lemma io_step_result accept checksum_update dc d d' : io_step accept checksum_update dc d d' →
  result_grows (finish_result d) (finish_result d').
Proof.
  intros Hstep. destruct Hstep as [b Hb|e|b|Htel|d' Hs Ht He|d' Ht Hio He|d' Ht Hio He].
  - left. unfold aws_s3_meta_request_increment_read_window. destruct (_ || _); [done|]. by rewrite add_event_None.
  - apply grows_fail.
  - left. by rewrite add_event_Some.
  - left. by rewrite add_event_Some.
  - left. unfold task_begin in He. destruct (bool_decide _); [|done]. by apply Ok_inj in He as <-.
  - left. unfold task_event in He. destruct (task d) as [t|]; [|by apply Ok_inj in He as <-].
    destruct (io_event_delivery_array d) as [|ev evs]; [by apply Ok_inj in He as <-|].
    destruct (handle_event _ _ _ _ _ _) as [[d1 t1]| |] eqn:Hh; [|done..]. apply Ok_inj in He as <-.
    by apply handle_event_result in Hh.
  - by eapply task_end_result.
Qed.
End flags.
