(* ===== verification/PutData.v ===== *)
(** The data of an upload: how the source is cut into parts, what preparing a part reads, and
    the invariant that ties what was read to the part list and to the server. *)

From Stdlib Require Import Init.Byte Sorted.
From S2P Require Import Prelude AwsCommon ByteCursor HttpMessage Checksums ChecksumContext Listing BodyStream.
From S2P Require Import PriorityQueue PartMath Tracking Delivery DeliveryInv AutoRangedPut PutSystem PutInv.

(** * Cutting the content into parts *)

Section pieces.
Context (c : put_config) (content : list byte).

(** The sizes fit their types, the number of parts is that of the content, only an upload of
    known length resumes, and the way the data comes fits what is known of its length. *)
Record put_setting : Prop := {
  ps_size : 0 < put_part_size c < 2 ^ 64;
  ps_known : has_content_length c = true →
    0 < content_length c < 2 ^ 64 ∧ 1 ≤ total_num_parts_from_content_length c < 2 ^ 32 - 2 ∧
    (total_num_parts_from_content_length c - 1) * put_part_size c < content_length c ≤
      total_num_parts_from_content_length c * put_part_size c;
  ps_unknown : has_content_length c = false → put_resume_token c = None ∧ total_num_parts_from_content_length c = 0;
  ps_writes : body_kind c = BodyAsyncWrites → has_content_length c = false;
  ps_parallel : body_kind c = BodyParallelStream → has_content_length c = true;
  ps_pending : 0 < max_parts_pending_read c;
}.

Notation total := (total_num_parts_from_content_length c).
Notation ps := (put_part_size c).

(** The length a part is asked for. *)
Definition part_len (k : Z) : Z :=
  if has_content_length c && (k =? total) then
    let content_remainder := content_length c mod ps in if 0 <? content_remainder then content_remainder else ps
  else ps.

Definition piece (k : Z) : list byte := take (Z.to_nat (part_len k)) (drop (Z.to_nat ((k - 1) * ps)) content).

Context (Hset : put_setting).

Lemma part_len_last : has_content_length c = true → part_len total = content_length c - (total - 1) * ps.
Proof.
  intros Hl. destruct (ps_known Hset Hl) as (Hc & Ht & Hlo & Hhi). pose proof (ps_size Hset).
  unfold part_len. rewrite Hl, Z.eqb_refl. cbn [andb]. cbv zeta.
  destruct (Z.eq_dec (content_length c) (total * ps)) as [Heq|Hne].
  - rewrite Heq, Z_mod_mult. simpl. lia.
  - rewrite <-(Z.mod_unique (content_length c) ps (total - 1) (content_length c - (total - 1) * ps)) by lia.
    destruct (Z.ltb_spec 0 (content_length c - (total - 1) * ps)); lia.
Qed.

Lemma part_len_pos k : 0 < part_len k ≤ ps.
Proof.
  pose proof (ps_size Hset). unfold part_len. destruct (has_content_length c) eqn:Hl; cbn [andb]; [|lia].
  destruct (k =? total); [|lia]. cbv zeta. pose proof (Z.mod_pos_bound (content_length c) ps ltac:(lia)).
  destruct (Z.ltb_spec 0 (content_length c mod ps)); lia.
Qed.

Lemma part_len_inner k : has_content_length c = true → k < total → part_len k = ps.
Proof. intros Hl Hk. unfold part_len. destruct (Z.eqb_spec k total); [lia|]. by rewrite andb_false_r. Qed.

Lemma part_len_unknown k : has_content_length c = false → part_len k = ps.
Proof. intros Hl. unfold part_len. by rewrite Hl. Qed.

(** The pieces of the first parts, and of all. *)
Lemma concat_pieces n : has_content_length c = true → 0 ≤ n ≤ total →
  concat (piece <$> seqZ 1 n) = take (Z.to_nat (Z.min (n * ps) (content_length c))) content.
Proof.
  intros Hl Hn. destruct (ps_known Hset Hl) as (Hc & Ht & Hlo & Hhi). pose proof (ps_size Hset).
  assert (0 ≤ n) as Hn0 by lia. revert Hn. pattern n. apply natlike_ind; [..|done].
  { intros _. rewrite Z.min_l by lia. done. }
  clear n Hn0. intros n Hn0 IH Hn. unfold Z.succ in *. rewrite seqZ_app, fmap_app, concat_app by lia.
  rewrite IH by lia. change (concat (piece <$> seqZ (1 + n) 1)) with (piece (1 + n) ++ []).
  rewrite app_nil_r. unfold piece. replace (1 + n - 1) with n by lia.
  rewrite (Z.min_l (n * ps)) by nia.
  rewrite take_take_drop. f_equal. destruct (Z.eq_dec (1 + n) total) as [Heq|Hne].
  - rewrite Heq, part_len_last by done. rewrite Z.min_r by nia. rewrite <-Heq. nia.
  - rewrite part_len_inner by (done || lia). rewrite Z.min_l by nia. nia.
Qed.

Lemma concat_all_pieces : has_content_length c = true →
  concat (piece <$> seqZ 1 total) = take (Z.to_nat (content_length c)) content.
Proof.
  intros Hl. destruct (ps_known Hset Hl) as (Hc & Ht & Hlo & Hhi). rewrite concat_pieces by (done || lia).
  by rewrite Z.min_r by lia.
Qed.
End pieces.

(** * Preparing requests *)

Section preparing.
Context `{B : !AwsByteCursor} `{H : !AwsHttpHeaders} `{D : !AwsDigest} `{X : !AwsXml} `{St : !AwsStreams}.
Context `{M : !AwsMath} `{!AwsMathLaws M}.
Context {Q1 : AwsPriorityQueue s3_request part_number}.
Context {Q2 : AwsPriorityQueue delivery_tracking_record track_part_number}.
Context (c : put_config) (Hset : put_setting c).
Implicit Types (s : put_state) (r : put_request).

Notation ps := (put_part_size c).

Lemma compute_size_spec r r1 : 1 ≤ put_part_number r < 2 ^ 32 → s_compute_request_body_size c r = (r1, Success tt) →
  put_range_start r1 = (put_part_number r - 1) * ps ∧ put_content_length r1 = part_len c (put_part_number r).
Proof.
  intros Hk. unfold s_compute_request_body_size. cbv zeta.
  change (if has_content_length c && _ then _ else ps) with (part_len c (put_part_number r)).
  pose proof (part_len_pos c Hset (put_part_number r)) as Hl. pose proof (ps_size c Hset).
  rewrite wrap_small by (unfold uint; lia). rewrite aws_mul_u64_checked_spec by (unfold uint; lia).
  case_bool_decide as Hm; [|done]. rewrite (wrap_small 64) by (unfold uint; lia).
  destruct (aws_add_u64_checked _ _) as [last|]; [|done]. by intros [= <-].
Qed.

(** A part whose body was read, or will be streamed: what it is, whether the source has ended,
    and what is left of the reader and of the writes. *)
Inductive part_read s r : list byte → bool → reader → async_write → Prop :=
| read_streamed part_stream data :
    body_kind c = BodyParallelStream →
    part_stream ((put_part_number r - 1) * ps) (part_len c (put_part_number r)) = Success data →
    streams_part (stream_content (source (put_reader s))) part_stream →
    part_read s r data false (put_reader s) (put_writes s)
| read_buffered fuel data at_end rd w :
    aws_s3_meta_request_read_body (body_kind c) fuel (put_reader s) (put_writes s) ((put_part_number r - 1) * ps)
      (put_body r) (if put_body_capacity r =? 0 then part_len c (put_part_number r) else put_body_capacity r) =
      Some (rd, w, Success (data, at_end)) →
    (has_content_length c = true → part_len c (put_part_number r) ≤ Z.of_nat (length data)) →
    part_read s r data at_end rd w.

(** The state after a part was prepared: one read fewer is pending, and the part has its info
    unless it is not sent. *)
Definition part_prepared s r (data : list byte) (at_end : bool) (rd : reader) (w : async_write) (noop : bool) s' : Prop :=
  ∃ info, info_etag info = None ∧ info_was_previously_uploaded info = false ∧
  s' = s <| put_reader := rd |> <| put_writes := w |> <| is_body_stream_at_end := at_end |>
         <| put_num_parts_pending_read ::= λ n, n -[32] 1 |>
         <| part_list ::= λ l, if noop then l else set_part l (put_part_number r) info |>.

(** A part that is not sent because the source, whose length was not known, has ended. *)
Definition skipped (k : Z) (data : list byte) : Prop := has_content_length c = false ∧ 1 < k ∧ data = [].

#[global] Instance skipped_dec k data : Decision (skipped k data).
Proof. unfold skipped. apply _. Defined.

(** What an info says of its part: the size, and the checksum if it has one. *)
Definition describes (info : mpu_part_info) (body : list byte) : Prop :=
  info_size info = Z.of_nat (length body) ∧
  ∀ context checksum, info_checksum_context info = Some context → base64_checksum context = Some checksum →
    config_algorithm (put_checksum_config c) ≠ AWS_SCA_NONE → part_checksum c body = Some checksum.

Lemma verify_spec r info : verify_previously_uploaded c r info = Success tt → describes info (put_body r).
Proof.
  unfold verify_previously_uploaded. destruct (Z.eqb_spec (Z.of_nat (length (put_body r))) (info_size info)); simpl; [|done].
  intros Hv. split; [done|]. intros context checksum Hc Hk Ha. rewrite Hc in Hv.
  unfold aws_s3_upload_request_checksum_context_should_calculate, aws_s3_upload_request_checksum_context_get_checksum_cursor in Hv.
  rewrite Hk, (bool_decide_eq_true_2 (is_Some (Some checksum))) in Hv by by eexists. cbn [negb default] in Hv.
  assert (s_verify_part_matches_checksum (put_body r) (config_algorithm (put_checksum_config c)) checksum = Success tt) as Hm.
  { by destruct (_ || _ || _). }
  clear Hv. unfold s_verify_part_matches_checksum, part_checksum in *. rewrite decide_False in Hm by done.
  destruct (aws_base64_compute_encoded_len _); [|done]. destruct (aws_checksum_compute _ _ _) as [sum|]; [|done].
  destruct (aws_base64_encode sum); [|done]. by case_decide; subst.
Qed.

(** A part that was uploaded earlier was compared with a body. *)
Definition compared s r (body : list byte) : Prop :=
  put_was_previously_uploaded r = true →
  ∀ info, part_list s !! Z.to_nat (put_part_number r - 1) = Some (Some info) → describes info body.

Lemma upload_part_finish_spec r s prepared result : s_s3_prepare_upload_part_finish c r s prepared = Ok result → result = (r, s, prepared).
Proof.
  unfold s_s3_prepare_upload_part_finish. destruct prepared as [[]|e]; [|by intros [= <-]].
  destruct (put_is_noop r); [by intros [= <-]|]. destruct (part_list s !! _) as [[info|]|]; [|done..].
  destruct (aws_assert c _) as [[]| |]; [|done..]. by intros [= <-].
Qed.

(** After the body: the request is not sent if it was uploaded before or is skipped. *)
Lemma after_body_spec s r at_end r' s' :
  s_s3_new_upload_part_info_after_body c s r at_end = Ok (r', s', Success tt) →
  let noop := put_was_previously_uploaded r || put_is_noop r in
  r' = r <| put_is_noop := noop |> ∧ part_prepared s r (put_body r) at_end (put_reader s) (put_writes s) noop s' ∧
  compared s r (put_body r).
Proof.
  unfold s_s3_new_upload_part_info_after_body. cbv zeta. destruct (aws_assert c _) as [[]| |]; [|done..]. cbn [mbind res_bind].
  intros Hr. apply Ok_inj in Hr. pose proof (f_equal snd Hr) as Hv.
  pose proof (f_equal (λ x, fst (fst x)) Hr) as Hr1. pose proof (f_equal (λ x, snd (fst x)) Hr) as Hr2. clear Hr.
  cbn [fst snd] in Hr1, Hr2, Hv. subst r' s'. apply and_assoc. split.
  2: { intros Hp info Hi. rewrite Hp in Hv. simpl in Hv. rewrite Hi in Hv. by apply verify_spec in Hv. }
  clear Hv. destruct (put_was_previously_uploaded r) eqn:Hp; [|destruct (put_is_noop r) eqn:Hn]; simpl; rewrite ?Hn.
  - split; [by destruct r; simpl in *; subst|]. exists (mkPartInfo 0 None None false). done.
  - split; [by destruct r; simpl in *; subst|]. exists (mkPartInfo 0 None None false). done.
  - split; [by destruct r; simpl in *; subst|]. eexists (mkPartInfo _ None _ false). done.
Qed.

Definition fresh r : Prop := put_is_noop r = false ∧ put_fio_streaming r = false ∧ put_body_stream r = None.

(** What is set on a request before it is prepared. *)
Lemma scheduled_spec r : put_tag r = TAG_PART → fresh r →
  ∃ fio, s_s3_auto_ranged_put_schedule_prepare_request c (with_buffer r) =
    r <| put_ticket := put_from_pool r || put_ticket r |> <| put_fio_streaming := fio |> ∧
    (fio = true → body_kind c = BodyParallelStream ∧ should_stream c = true).
Proof.
  intros Ht (_ & Hf & _). unfold s_s3_auto_ranged_put_schedule_prepare_request, with_buffer. cbv zeta.
  destruct (put_from_pool r) eqn:Hp; cbn [orb].
  - match goal with |- context [if ?b then _ else _] => destruct b eqn:Hb end.
    + apply andb_true_iff in Hb as [[[Hk _]%andb_true_iff Hss]%andb_true_iff _]. apply bool_decide_eq_true in Hk.
      exists true. done.
    + exists false. by destruct r; simpl in *; subst.
  - match goal with |- context [if ?b then _ else _] => destruct b eqn:Hb end.
    + apply andb_true_iff in Hb as [[[Hk _]%andb_true_iff Hss]%andb_true_iff _]. apply bool_decide_eq_true in Hk.
      exists true. by destruct r; simpl in *; subst.
    + exists false. by destruct r; simpl in *; subst.
Qed.

Lemma Some_Ok_inj {A} (a b : A) : Some (Ok a) = Some (Ok b) → a = b.
Proof. by intros [= ->]. Qed.

(** Requests that only differ in the range, the body, and whether they are sent. *)
Lemma on_read_done_spec s r data at_end r' s' :
  0 < put_content_length r → put_body_stream r = None →
  s_s3_prepare_upload_part_on_read_done c s r (Success (data, at_end)) = Ok (r', s', Success tt) →
  (has_content_length c = true → put_content_length r ≤ Z.of_nat (length data)) ∧
  put_tag r' = put_tag r ∧ put_part_number r' = put_part_number r ∧ request_body r' = data ∧
  let noop := put_was_previously_uploaded r || bool_decide (skipped (put_part_number r) data) in
  put_is_noop r' = noop ∧ part_prepared s r data at_end (put_reader s) (put_writes s) noop s' ∧ compared s r data.
Proof.
  intros Hlen Hb. unfold s_s3_prepare_upload_part_on_read_done. cbv zeta.
  destruct (has_content_length c && _) eqn:Hshort; [by intros [= ?]%upload_part_finish_spec|].
  assert (has_content_length c = true → put_content_length r ≤ Z.of_nat (length data)) as Hle.
  { intros Hl. rewrite Hl in Hshort. simpl in Hshort. by apply Z.ltb_ge in Hshort. }
  match goal with |- s_s3_new_upload_part_info_after_body _ _ (?r1 <| put_is_noop := ?b |>) _ ≫= _ = _ → _ =>
    set (b' := b); set (r1' := r1) end.
  assert (put_tag r1' = put_tag r ∧ put_part_number r1' = put_part_number r ∧ put_body r1' = data ∧ put_body_stream r1' = None ∧
    put_was_previously_uploaded r1' = put_was_previously_uploaded r) as (Ht & Hk & Hbody & Hst & Hprev).
  { subst r1'. destruct (negb (has_content_length c) && _); simpl; by rewrite Hb. }
  assert (b' = bool_decide (skipped (put_part_number r) data)) as Hskip.
  { subst b'. fold r1'. rewrite Hk. apply eq_bool_prop_intro. rewrite bool_decide_spec, andb_True. unfold skipped.
    rewrite !Is_true_true, Z.ltb_lt, Z.eqb_eq. destruct data; simpl in *.
    - split; [|naive_solver]. intros [? _]. destruct (has_content_length c); [|done]. specialize (Hle eq_refl). lia.
    - split; [lia|naive_solver]. }
  clearbody b' r1'. destruct (s_s3_new_upload_part_info_after_body _ _ _ _) as [[[r2 s2] checked]| |] eqn:Hr; [|done..].
  cbn [mbind res_bind]. intros Hfin. apply upload_part_finish_spec in Hfin as [= -> -> <-].
  apply after_body_spec in Hr as (-> & Hp & Hcmp). simpl in Hp, Hcmp.
  destruct Hp as (info & Hi1 & Hi2 & ->). unfold compared in *. unfold request_body. simpl in *.
  rewrite Hst, Hbody, Hprev, Hskip, Hk in *. split_and!; try done. exists info. done.
Qed.

Lemma upload_part_spec fuel s r part_stream r' s' :
  put_tag r = TAG_PART → 1 ≤ put_part_number r < 2 ^ 32 → put_is_noop r = false → put_body_stream r = None →
  (put_fio_streaming r = true → body_kind c = BodyParallelStream ∧ should_stream c = true) →
  streams_part (stream_content (source (put_reader s))) part_stream →
  s_s3_prepare_upload_part c fuel s r part_stream = Some (Ok (r', s', Success tt)) →
  ∃ data at_end rd w, part_read s r data at_end rd w ∧ put_tag r' = TAG_PART ∧ put_part_number r' = put_part_number r ∧
    request_body r' = data ∧
    let noop := put_was_previously_uploaded r || bool_decide (skipped (put_part_number r) data) in
    put_is_noop r' = noop ∧ part_prepared s r data at_end rd w noop s' ∧
    (compared s r data ∨ body_kind c = BodyParallelStream ∧ should_stream c = true ∧ compared s r (put_body r)).
Proof.
  intros Ht Hk Hn Hb Hfio Hstream. unfold s_s3_prepare_upload_part.
  pose proof (compute_body_size_frame c r) as Hfr. cbv zeta in Hfr.
  destruct (s_compute_request_body_size c r) as [r1 [[]|]] eqn:Hsize; [|done].
  apply compute_size_spec in Hsize as [Hs1 Hl1]; [|done]. cbn [fst] in Hfr.
  destruct Hfr as (Ht1 & Hk1 & Hn1 & Hp1 & _ & _ & Hb1 & Hc1 & Hf1 & Hst1). rewrite <-Hf1 in Hfio.
  destruct (put_fio_streaming r1) eqn:Hf.
  - destruct (Hfio eq_refl) as [Hkind Hss]. pose proof (ps_parallel c Hset Hkind) as Hl. rewrite Hs1, Hl1.
    destruct (part_stream _ _) as [data|] eqn:Hd; [|done].
    destruct (s_s3_new_upload_part_info_after_body _ _ _ _) as [[[r2 s2] checked]| |] eqn:Hr; [|done..]. cbn [mbind res_bind].
    intros Hfin. apply (inj Some) in Hfin. apply upload_part_finish_spec in Hfin as [= -> -> <-].
    apply after_body_spec in Hr as (-> & Hp & Hcmp). unfold compared in Hcmp. simpl in Hcmp.
    exists data, false, (put_reader s), (put_writes s).
    cbn [put_was_previously_uploaded put_is_noop put_body put_part_number put_tag put_body_stream fupd] in Hp |- *.
    rewrite Hp1, Hn1, Hn, ?orb_false_r in *. unfold part_prepared in Hp. simpl in Hp. rewrite Hk1 in Hp.
    rewrite (bool_decide_eq_false_2 (skipped _ _)), orb_false_r by (unfold skipped; intros [? _]; congruence).
    split_and!; try done; [by eapply read_streamed|by rewrite <-Ht, <-Ht1|]. right. split_and!; [done..|].
    by rewrite Hk1, Hb1 in Hcmp.
  - destruct (_ && negb _); [done|].
    set (r2 := if put_body_capacity _ =? 0 then _ else _).
    assert (put_tag r2 = put_tag r1 ∧ put_part_number r2 = put_part_number r1 ∧ put_range_start r2 = put_range_start r1 ∧
      put_content_length r2 = put_content_length r1 ∧ put_body r2 = put_body r1 ∧ put_body_stream r2 = put_body_stream r1 ∧
      put_was_previously_uploaded r2 = put_was_previously_uploaded r1 ∧
      put_body_capacity r2 = if put_body_capacity r1 =? 0 then put_content_length r1 else put_body_capacity r1)
      as (Ht2 & Hk2 & Hs2 & Hl2 & Hb2 & Hst2 & Hp2 & Hc2).
    { subst r2. by destruct (put_body_capacity r1 =? 0). }
    clearbody r2. cbv zeta. rewrite Hs2, Hb2, Hc2, Hs1, Hb1, Hc1, Hl1.
    destruct (aws_s3_meta_request_read_body _ _ _ _ _ _ _) as [[[rd w] [[data at_end]|e]]|] eqn:Hread; [| |done].
    2: { intros Hr. apply (inj Some), (upload_part_finish_spec r2 _ (Failure e)) in Hr. done. }
    intros Hr. apply (inj Some) in Hr. apply on_read_done_spec in Hr as (Hle & Ht' & Hk' & Hb' & Hn' & (info & Hi1 & Hi2 & ->) & Hcmp);
      [|rewrite Hl2, Hl1; by apply part_len_pos|congruence].
    unfold compared in Hcmp. simpl in Hcmp.
    rewrite Hk2, Hk1, Hp2, Hp1, Hl2, Hl1 in *. exists data, at_end, rd, w. split_and!; [|congruence|done..| |by left].
    + by eapply read_buffered.
    + exists info. split_and!; done.
Qed.

Lemma prepare_part_spec fuel s r part_stream review full_checksum message r' s' :
  put_tag r = TAG_PART → fresh r → 1 ≤ put_part_number r < 2 ^ 32 →
  streams_part (stream_content (source (put_reader s))) part_stream →
  prepare c fuel s r part_stream review full_checksum message = Some (Ok (r', s', Success tt)) →
  ∃ data at_end rd w, part_read s r data at_end rd w ∧ put_tag r' = TAG_PART ∧ put_part_number r' = put_part_number r ∧
    request_body r' = data ∧
    let noop := put_was_previously_uploaded r || bool_decide (skipped (put_part_number r) data) in
    put_is_noop r' = noop ∧ part_prepared s r data at_end rd w noop s' ∧
    (compared s r data ∨ body_kind c = BodyParallelStream ∧ should_stream c = true ∧ compared s r (put_body r)).
Proof.
  intros Ht Hfr Hk Hstream. destruct (scheduled_spec r Ht Hfr) as (fio & Hsch & Hfio). destruct Hfr as (Hn & Hf & Hb).
  unfold prepare, s_s3_auto_ranged_put_prepare_request. rewrite Hsch.
  set (r0 := r <| put_ticket := _ |> <| put_fio_streaming := fio |>). cbv zeta.
  change (put_tag r0) with (put_tag r). rewrite Ht.
  destruct (s_s3_prepare_upload_part c fuel s r0 part_stream) as [[[[r1 s1] prepared]| |]|] eqn:Hp; [|done..].
  intros Hr%Some_Ok_inj. destruct prepared as [[]|]; [|done].
  pose proof (f_equal (λ x, fst (fst x)) Hr) as Hr1. pose proof (f_equal (λ x, snd (fst x)) Hr) as Hr2.
  cbn [fst snd] in Hr1, Hr2. subst s1 r'. clear Hr.
  destruct (upload_part_spec fuel s r0 part_stream r1 s' Ht Hk Hn Hb Hfio Hstream Hp)
    as (data & at_end & rd & w & Hread & Ht' & Hk' & Hb' & Hn' & Hs' & Hcmp).
  exists data, at_end, rd, w. split_and!; try done. destruct Hread as [ps' data Hkind Hd Hps|fuel' data at_end rd w Hrb Hle].
  - by eapply read_streamed.
  - by eapply read_buffered.
Qed.

(** Preparing keeps the tag and number of a request, and changes nothing but the body, its
    parts and the checksum of the object. *)
Ltac same_flags_tac :=
  lazymatch goal with
  | |- same_flags _ ?s' =>
      exists (part_list s'), (is_body_stream_at_end s'), (put_num_parts_pending_read s'), (put_writes s'), (put_reader s'),
        (put_full_object_checksum s'); reflexivity
  end.

Lemma same_flags_refl s : same_flags s s.
Proof.
  exists (part_list s), (is_body_stream_at_end s), (put_num_parts_pending_read s), (put_writes s), (put_reader s),
    (put_full_object_checksum s). by destruct s.
Qed.

Lemma after_body_frame s r at_end r' s' res :
  s_s3_new_upload_part_info_after_body c s r at_end = Ok (r', s', res) → key r' = key r ∧ same_flags s s'.
Proof.
  unfold s_s3_new_upload_part_info_after_body. cbv zeta. destruct (aws_assert c _) as [[]| |]; [|done..]. cbn [mbind res_bind].
  intros Hr%Ok_inj.
  pose proof (f_equal (λ x, fst (fst x)) Hr) as Hr1. pose proof (f_equal (λ x, snd (fst x)) Hr) as Hr2. clear Hr.
  cbn [fst snd] in Hr1, Hr2. subst r' s'. split; [by destruct (put_was_previously_uploaded r)|].
  match goal with |- same_flags _ (if ?b then _ else _) => destruct b end; same_flags_tac.
Qed.

Lemma on_read_done_frame s r read r' s' res :
  s_s3_prepare_upload_part_on_read_done c s r read = Ok (r', s', res) → key r' = key r ∧ same_flags s s'.
Proof.
  unfold s_s3_prepare_upload_part_on_read_done. destruct read as [[data at_end]|e]; cbv zeta.
  - destruct (has_content_length c && _).
    + intros Hr%upload_part_finish_spec. pose proof (f_equal (λ x, fst (fst x)) Hr) as Hr1. pose proof (f_equal (λ x, snd (fst x)) Hr) as Hr2.
      cbn [fst snd] in Hr1, Hr2. subst r' s'. split; [done|apply same_flags_refl].
    + destruct (s_s3_new_upload_part_info_after_body _ _ _ _) as [[[r2 s2] checked]| |] eqn:Hr; [|done..]. cbn [mbind res_bind].
      intros Hfin. apply upload_part_finish_spec in Hfin as [= -> -> ->]. apply after_body_frame in Hr as [Hk Hs].
      split; [|done]. rewrite Hk. by destruct (negb (has_content_length c) && _).
  - intros Hfin. apply upload_part_finish_spec in Hfin as [= -> -> ->]. split; [done|apply same_flags_refl].
Qed.

Lemma upload_part_frame fuel s r part_stream r' s' res :
  s_s3_prepare_upload_part c fuel s r part_stream = Some (Ok (r', s', res)) → key r' = key r ∧ same_flags s s'.
Proof.
  unfold s_s3_prepare_upload_part. pose proof (compute_body_size_frame c r) as (Ht & Hk & _). unfold key in *.
  destruct (s_compute_request_body_size c r) as [r1 [[]|]]; cbn [fst] in *.
  - destruct (put_fio_streaming r1).
    + destruct (part_stream _ _) as [data|]; [|intros Hr%Some_Ok_inj].
      * destruct (s_s3_new_upload_part_info_after_body _ _ _ _) as [[[r2 s2] checked]| |] eqn:Hr; [|done..]. cbn [mbind res_bind].
        intros Hfin. apply (inj Some) in Hfin. apply upload_part_finish_spec in Hfin as [= -> -> ->].
        apply after_body_frame in Hr as [Hkey Hs]. unfold key in Hkey. split; [|done]. rewrite Hkey. simpl. congruence.
      * injection Hr as <- <- _. split; [congruence|apply same_flags_refl].
    + destruct (_ && negb _); [done|]. cbv zeta.
      destruct (aws_s3_meta_request_read_body _ _ _ _ _ _ _) as [[[rd w] read]|]; [|done]. intros Hr. apply (inj Some) in Hr.
      apply on_read_done_frame in Hr as [Hkey Hs]. split.
      * unfold key in Hkey. rewrite Hkey. destruct (put_body_capacity r1 =? 0); simpl; congruence.
      * destruct Hs as (l & e & p & w' & rd' & f & ->). same_flags_tac.
  - intros Hr%Some_Ok_inj. injection Hr as <- <- _. split; [congruence|apply same_flags_refl].
Qed.

Lemma complete_frame s r review full_checksum r' s' res :
  s_s3_prepare_complete_multipart_upload c s r review full_checksum = Ok (r', s', res) →
  key r' = key r ∧ ∃ checksum, s' = s <| put_full_object_checksum := checksum |> ∧
  (res = Success tt → complete_payload (part_list s) 1 = Ok (put_parts r')).
Proof.
  unfold s_s3_prepare_complete_multipart_upload. destruct (bool_decide _); [|done]. cbn [assert_fatal]. simpl.
  match goal with |- ?m ≫= _ = _ → _ => destruct m as [[[]|e]| |] end; [| |done..]; simpl.
  - match goal with |- match ?m with Success _ => _ | Failure _ => _ end = _ → _ => destruct m as [checksum|e] end.
    + destruct (complete_payload (part_list s) 1) as [payload| |]; [|done..]. simpl. intros [= <- <- <-].
      split; [done|]. by exists checksum.
    + intros [= <- <- <-]. split; [done|]. exists (put_full_object_checksum s). by destruct s.
  - intros [= <- <- <-]. split; [done|]. exists (put_full_object_checksum s). by destruct s.
Qed.

Lemma scheduled_key r : key (s_s3_auto_ranged_put_schedule_prepare_request c (with_buffer r)) = key r.
Proof.
  unfold s_s3_auto_ranged_put_schedule_prepare_request, with_buffer. cbv zeta.
  destruct (_ && _), (put_from_pool r); done.
Qed.

Lemma prepare_frame fuel s r part_stream review full_checksum message r' s' res :
  prepare c fuel s r part_stream review full_checksum message = Some (Ok (r', s', res)) →
  key r' = key r ∧ same_flags s s' ∧
  (put_tag r ≠ TAG_PART → ∃ checksum, s' = s <| put_full_object_checksum := checksum |>) ∧
  (put_tag r = TAG_COMPLETE_MULTIPART_UPLOAD → res = Success tt → complete_payload (part_list s) 1 = Ok (put_parts r')).
Proof.
  unfold prepare, s_s3_auto_ranged_put_prepare_request. cbv zeta.
  pose proof (scheduled_key r) as Hkey. set (r0 := s_s3_auto_ranged_put_schedule_prepare_request c _) in *. clearbody r0.
  injection Hkey as Ht Hk. rewrite <-Ht.
  assert (∀ b : put_request, put_tag b = put_tag r0 → put_part_number b = put_part_number r0 →
    key (b <| put_num_times_prepared ::= λ n, n + 1 |>) = key r) as Hkeys.
  { intros b Hb1 Hb2. unfold key. simpl. congruence. }
  assert (same_flags s s ∧ ∃ checksum, s = s <| put_full_object_checksum := checksum |>) as Hrefl.
  { split; [apply same_flags_refl|]. exists (put_full_object_checksum s). by destruct s. }
  assert (Some (Ok (r0 <| put_num_times_prepared ::= λ n, n + 1 |>, s, message)) = Some (Ok (r', s', res)) →
    key r' = key r ∧ same_flags s s' ∧ ∃ checksum, s' = s <| put_full_object_checksum := checksum |>) as Hplain.
  { intros Hr%Some_Ok_inj.
    pose proof (f_equal (λ x, fst (fst x)) Hr) as Hr1. pose proof (f_equal (λ x, snd (fst x)) Hr) as Hr2.
    cbn [fst snd] in Hr1, Hr2. subst r' s'. split; [by apply Hkeys|done]. }
  destruct (put_tag r0) eqn:Ht0.
  - intros Hr. destruct (Hplain Hr) as (? & ? & ?). by split_and!.
  - intros Hr. destruct (Hplain Hr) as (? & ? & ?). by split_and!.
  - destruct (s_s3_prepare_upload_part c fuel s r0 part_stream) as [[[[r1 s1] prepared]| |]|] eqn:Hp; [|done..].
    apply upload_part_frame in Hp as [[= Hp1 Hp2] Hs].
    intros Hr%Some_Ok_inj. pose proof (f_equal (λ x, fst (fst x)) Hr) as Hr1.
    pose proof (f_equal (λ x, snd (fst x)) Hr) as Hr2. cbn [fst snd] in Hr1, Hr2. subst r' s'.
    split; [by apply Hkeys; congruence|]. by split.
  - destruct (bool_decide _); [|done]. cbn [assert_fatal]. intros Hr. destruct (Hplain Hr) as (? & ? & ?). by split_and!.
  - destruct (s_s3_prepare_complete_multipart_upload c s r0 review full_checksum) as [[[r1 s1] prepared]| |] eqn:Hp; [|done..].
    apply complete_frame in Hp as ([= Hp1 Hp2] & checksum & -> & Hpay).
    intros Hr%Some_Ok_inj. pose proof (f_equal (λ x, fst (fst x)) Hr) as Hr1.
    pose proof (f_equal (λ x, snd (fst x)) Hr) as Hr2. pose proof (f_equal snd Hr) as Hr3. cbn [fst snd] in Hr1, Hr2, Hr3.
    subst r' s'. split; [by apply Hkeys; congruence|]. split; [same_flags_tac|]. split; [by eexists|].
    intros _ ->. apply Hpay. by destruct prepared as [[]|].
Qed.
End preparing.
