(* ===== verification/PutUpload.v ===== *)
(** The invariant of an upload: the parts that were read are the content in order, the part
    list and the server agree with them, and once the upload is being completed nothing of
    this changes any more. *)

From Stdlib Require Import Init.Byte Sorted.
From S2P Require Import Prelude AwsCommon ByteCursor HttpMessage Checksums ChecksumContext Listing BodyStream.
From S2P Require Import PriorityQueue PartMath Tracking Delivery DeliveryInv AutoRangedPut PutSystem PutInv PutData.

(** * Parts of a source whose length is not known *)

Section trail.
Context (part_size : Z).

(** Full parts, perhaps a shorter one, and then only empty ones. *)
Fixpoint trail (l : list (list byte)) : Prop :=
  match l with
  | [] => True
  | d :: l => full part_size d ∧ trail l ∨ Forall (λ d, d = []) l
  end.

Definition short (d : list byte) : Prop := Z.of_nat (length d) < part_size.

Lemma trail_snoc l d : trail l → Z.of_nat (length d) ≤ part_size → (Exists short l → d = []) →
  (∀ d', d' ∈ l → Z.of_nat (length d') ≤ part_size) → trail (l ++ [d]).
Proof.
  intros Hl Hd Hshort Hlens. induction l as [|d' l IH]; simpl in *; [right; constructor|].
  destruct (Z_lt_dec (Z.of_nat (length d')) part_size) as [Hs|Hs].
  - right. rewrite Hshort by (by left). destruct Hl as [[Hf _]|Hl]; [unfold full in Hf; lia|].
    apply list.Forall_app. split; [done|by repeat constructor].
  - left. assert (full part_size d') by (unfold full; specialize (Hlens d' ltac:(left)); lia). split; [done|].
    assert (trail l) as Hl'.
    { destruct Hl as [[_ ?]|Hl]; [done|]. clear -Hl. destruct l as [|e l]; [done|]. right. by inversion Hl. }
    apply IH; [done| |by intros; apply Hlens; right]. intros He. apply Hshort. by right.
Qed.

Lemma trail_full l : Forall (full part_size) l → trail l.
Proof. induction 1; simpl; auto. Qed.

Lemma trail_full_snoc l d : Forall (full part_size) l → trail (l ++ [d]).
Proof. induction 1; simpl; auto. Qed.

(** The parts that are sent: all but the empty ones at the end, and always the first. *)
Lemma trail_sent l : 0 < part_size → trail l → l ≠ [] →
  ∃ sent rest, l = sent ++ rest ∧ sent ≠ [] ∧ Forall (λ d, d = []) rest ∧ Forall (λ d, d ≠ []) (tail sent).
Proof.
  intros Hps Hl Hne. destruct l as [|d l]; [done|]. clear Hne. revert d Hl.
  induction l as [|e l IH]; intros d Hl.
  - exists [d], []. split_and!; [done|done|constructor|constructor].
  - simpl in Hl. destruct Hl as [[_ Hl]|Hl].
    + destruct (IH e Hl) as (sent & rest & Heq & Hs & Hr & Ht). destruct e as [|x e].
      * exists [d], ([] :: l). split_and!; [done|done| |constructor].
        destruct Hl as [[Hf _]|Hl]; [unfold full in Hf; simpl in Hf; lia|]. by constructor.
      * destruct sent as [|e' sent]; [done|]. simplify_eq/=. exists (d :: (x :: e) :: sent), rest.
        split_and!; [done|done|done|]. by constructor.
    + exists [d], (e :: l). split_and!; [done|done|done|constructor].
Qed.
End trail.

Lemma sorted_perm_eq (l k : list Z) : StronglySorted Z.lt l → StronglySorted Z.lt k → l ≡ₚ k → l = k.
Proof.
  intros Hl Hk Hp. revert k Hk Hp. induction Hl as [|x l Hl IH Hx]; intros k Hk Hp.
  { symmetry in Hp. by apply Permutation_nil_r in Hp. }
  destruct Hk as [|y k Hk Hy]; [by apply Permutation_nil_r in Hp|].
  rewrite list.Forall_forall in Hx, Hy.
  assert (x = y) as ->.
  { assert (x ∈ y :: k) as Hin by (rewrite <-Hp; left). apply elem_of_cons in Hin as [?|Hin]; [done|].
    assert (y ∈ x :: l) as Hin' by (rewrite Hp; left). apply elem_of_cons in Hin' as [?|Hin']; [done|].
    apply Hy in Hin. apply Hx in Hin'. lia. }
  f_equal. apply IH; [done|]. by apply Permutation_cons_inv in Hp.
Qed.

Lemma seqZ_sorted m n : StronglySorted Z.lt (seqZ m n).
Proof.
  destruct (Z_le_dec n 0) as [?|Hn]; [rewrite seqZ_nil by lia; constructor|].
  assert (0 ≤ n) as Hn' by lia. clear Hn. revert m. pattern n. apply natlike_ind; [..|done]; [intros m; constructor|].
  clear n Hn'. intros n Hn IH m. rewrite seqZ_cons by lia. constructor; [by rewrite Z.pred_succ|].
  apply list.Forall_forall. intros k Hk%elem_of_seqZ. lia.
Qed.

(** * The invariant *)

Section upload.
Context `{B : !AwsByteCursor} `{H : !AwsHttpHeaders} `{D : !AwsDigest} `{X : !AwsXml} `{St : !AwsStreams}.
Context `{M : !AwsMath}.
Context {Q1 : AwsPriorityQueue s3_request part_number}.
Context {Q2 : AwsPriorityQueue delivery_tracking_record track_part_number}.
Context (c : put_config) (content : list byte).
Implicit Types (u : upload) (r : put_request).

Notation ps := (put_part_size c).
Notation total := (total_num_parts_from_content_length c).

Definition live u : list put_request := up_queued u ++ up_failed u ++ up_sent u.

Definition is_part r : Prop := put_tag r = TAG_PART.
#[global] Instance is_part_dec r : Decision (is_part r).
Proof. unfold is_part. apply _. Defined.

Definition queued_parts u : list put_request := filter is_part (up_queued u).
Definition sent_parts u : list put_request := filter is_part (up_sent u).

(** The info of a part. *)
Definition entry (l : list (option mpu_part_info)) (k : Z) : option mpu_part_info := l !! Z.to_nat (k - 1) ≫= id.

(** A part that was uploaded earlier agrees with what was read for it now: with its size, and
    with its checksum if one was listed.  For a part that is streamed from its file an empty
    body is compared. *)
Definition checked (info : mpu_part_info) (data : list byte) : Prop :=
  describes c info data ∨ should_stream c = true ∧ info_size info = 0.

(** What is on the server for a part that was read. *)
Definition stands_for (l : list (option mpu_part_info)) (k : Z) (data body : list byte) : Prop :=
  body = data ∨
  ∃ info, entry l k = Some info ∧ info_was_previously_uploaded info = true ∧ describes c info body ∧ checked info data.

Definition started u : Z := put_num_parts_started (up_put u).
Definition left u : list byte := stream_content (source (put_reader (up_put u))).

(** At most one part waits to be read, the last one. *)
Definition one_pending u : Prop :=
  queued_parts u = [] ∨ ∃ r, queued_parts u = [r] ∧ put_part_number r = started u.

(** A source that is read from its beginning to its end. *)
Record sequential_ok u : Prop := {
  seq_content : concat (up_reads u).*2 ++ left u = content;
  seq_sorted : StronglySorted Z.lt (up_reads u).*1;
  seq_known : has_content_length c = true → ∀ k d, (k, d) ∈ up_reads u → Z.of_nat (length d) = part_len c k;
  seq_lens : ∀ d, d ∈ (up_reads u).*2 → Z.of_nat (length d) ≤ ps;
  seq_trail : has_content_length c = false → trail ps (up_reads u).*2;
  seq_short : has_content_length c = false → Exists (short ps) (up_reads u).*2 → left u = [];
  seq_end : has_content_length c = false → is_body_stream_at_end (up_put u) = true → left u = [];
}.

(** Writes of a caller that are not read yet: the end was announced with a buffer that is to be
    sent or was the last one, a full buffer is sent, and a write that waits is woken. *)
Record waking_ok (w : async_write) (at_end : bool) : Prop := {
  wk_end : at_end = true → write_eof w = true ∧ buffered_data w = [];
  wk_eof : write_eof w = true → ready_to_send w = true ∨ at_end = true;
  wk_full : Z.of_nat (length (buffered_data w)) = ps → ready_to_send w = true;
  wk_wake : write_waker w = true → ready_to_send w = true ∨ buffered_data_ticket_future w = true;
}.

(** What was read so far, by the way the data comes. *)
Definition source_ok u : Prop :=
  match body_kind c with
  | BodyParallelStream => left u = content ∧ ∀ k d, (k, d) ∈ up_reads u → d = piece c content k
  | BodyStream =>
      sequential_ok u ∧ ∀ k d, (k, d) ∈ up_reads u → (k - 1) * ps ≤ next_read_offset (put_reader (up_put u))
  | BodyAsyncStream => sequential_ok u ∧ one_pending u
  | BodyAsyncWrites =>
      StronglySorted Z.lt (up_reads u).*1 ∧ one_pending u ∧
      writing_ok ps (mkWriting (put_writes (up_put u)) (up_accepted u) (put_body <$> head (queued_parts u)) (up_reads u).*2) ∧
      waking_ok (put_writes (up_put u)) (is_body_stream_at_end (up_put u))
  end.

(** A request for a part that waits to be read. *)
Record queued_ok (l : list (option mpu_part_info)) r : Prop := {
  qu_buffer : if decide (body_kind c = BodyAsyncWrites) then put_body_capacity r = ps
              else put_body r = [] ∧ put_body_capacity r = 0;
  qu_previous : put_was_previously_uploaded r = true → has_content_length c = true ∧ entry l (put_part_number r) ≠ None;
}.

(** A part that was read and is on its way, or not sent. *)
Record sent_ok (reads : list (Z * list byte)) r : Prop := {
  st_read : (put_part_number r, request_body r) ∈ reads;
  st_noop : put_is_noop r = false → ¬ skipped c (put_part_number r) (request_body r);
}.

(** While the upload runs and is not being completed. *)
Record data_ok u : Prop := {
  da_pending : put_num_parts_pending_read (up_put u) = Z.of_nat (length (queued_parts u));
  da_keys : (put_part_number <$> queued_parts u) ++ (up_reads u).*1 ≡ₚ seqZ 1 (started u);
  da_queued : ∀ r, r ∈ queued_parts u → queued_ok (part_list (up_put u)) r;
  da_sent : ∀ r, r ∈ sent_parts u → sent_ok (up_reads u) r;
  da_read : ∀ k d, (k, d) ∈ up_reads u → skipped c k d ∨
    ∃ info, entry (part_list (up_put u)) k = Some info ∧
      (info_etag info = None → ∃ r, r ∈ sent_parts u ∧ put_part_number r = k ∧ put_is_noop r = false) ∧
      (info_was_previously_uploaded info = true → checked info d);
  da_unread : ∀ k info, 1 ≤ k → entry (part_list (up_put u)) k = Some info → k ∉ (up_reads u).*1 →
    is_Some (info_etag info) ∧ info_was_previously_uploaded info = true;
  da_length : if has_content_length c then Z.of_nat (length (part_list (up_put u))) ≤ total
              else part_list (up_put u) = [] ∨
                ∃ d, (Z.of_nat (length (part_list (up_put u))), d) ∈ up_reads u ∧
                  ¬ skipped c (Z.of_nat (length (part_list (up_put u)))) d;
  da_server : ∀ k etag b info, 1 ≤ k → server_parts (up_server u) !! k = Some (etag, b) →
    entry (part_list (up_put u)) k = Some info → is_Some (info_etag info) →
    if info_was_previously_uploaded info then describes c info b else (k, b) ∈ up_reads u ∧ ¬ skipped c k b;
  da_source : source_ok u;
  da_writes : body_kind c ≠ BodyAsyncWrites → put_writes (up_put u) = no_writes;
}.

(** The data that is uploaded. *)
Definition payload u : list byte :=
  if decide (body_kind c = BodyAsyncWrites) then up_accepted u
  else if has_content_length c then take (Z.to_nat (content_length c)) content else content.

Definition has_etag (o : option mpu_part_info) : Prop := ∃ info etag, o = Some info ∧ info_etag info = Some etag.

(** An object that the server made: its parts stand for the parts that were read, which
    together are the data. *)
Definition object_made u (o : list byte) : Prop :=
  ∃ pieces bodies, concat pieces = payload u ∧ concat bodies = o ∧ length bodies = length pieces ∧
    (has_content_length c = true → pieces = piece c content <$> seqZ 1 total) ∧
    ∀ i d b, pieces !! i = Some d → bodies !! i = Some b → stands_for (part_list (up_put u)) (Z.of_nat i + 1) d b.

(** Once the upload is being completed. *)
Record final u : Prop := {
  fi_entries : Forall has_etag (part_list (up_put u));
  fi_pieces : ∃ pieces, length pieces = length (part_list (up_put u)) ∧ concat pieces = payload u ∧
    (has_content_length c = true → pieces = piece c content <$> seqZ 1 total) ∧
    ∀ i d etag b, pieces !! i = Some d → server_parts (up_server u) !! (Z.of_nat i + 1) = Some (etag, b) →
      stands_for (part_list (up_put u)) (Z.of_nat i + 1) d b;
  fi_parts : ∀ r, r ∈ up_sent u → put_tag r = TAG_COMPLETE_MULTIPART_UPLOAD →
    (put_parts r).*1 = seqZ 1 (Z.of_nat (length (part_list (up_put u))));
  fi_object : ∀ o, server_object (up_server u) = Some o → object_made u o;
  fi_writes : body_kind c = BodyAsyncWrites → write_eof (put_writes (up_put u)) = true;
}.

Definition running u : Prop := finish_result (up_delivery u) = None ∧ complete_multipart_upload_sent (up_put u) = false.

Record upload_ok u : Prop := {
  up_flags : flags_ok c (up_put u) (finish_result (up_delivery u)) (key <$> live u) (key <$> up_requested u) (up_finished u);
  up_failing : up_failed u ≠ [] → finish_result (up_delivery u) ≠ None;
  up_buffers : ∀ r, r ∈ queued_parts u → fresh r ∧ (put_from_pool r = true ∨ put_ticket r = true);
  up_previous : ∀ r, r ∈ queued_parts u → put_was_previously_uploaded r = true →
    ∃ info, entry (part_list (up_put u)) (put_part_number r) = Some info ∧ info_was_previously_uploaded info = true;
  up_infos : ∀ r, r ∈ sent_parts u → put_is_noop r = false →
    ∃ info, entry (part_list (up_put u)) (put_part_number r) = Some info ∧ info_etag info = None ∧
      info_was_previously_uploaded info = false;
  up_resumed : ∀ k info, 1 ≤ k → entry (part_list (up_put u)) k = Some info → info_was_previously_uploaded info = true → resumes c;
  up_data : running u → data_ok u;
  up_no_object : complete_multipart_upload_sent (up_put u) = false → server_object (up_server u) = None;
  up_final : complete_multipart_upload_sent (up_put u) = true → final u;
  up_completed : complete_multipart_upload_completed (up_put u) = true → complete_multipart_upload_error_code (up_put u) = None →
    server_object (up_server u) ≠ None;
}.

(** * What the invariant depends on *)

Definition source_of u :=
  (queued_parts u, up_reads u, up_accepted u,
   (started u, put_reader (up_put u), put_writes (up_put u), is_body_stream_at_end (up_put u))).

Lemma source_frame u u' : source_of u' = source_of u → source_ok u → source_ok u'.
Proof.
  unfold source_of, started. intros [= Hq Hr Ha Hst Hrd Hw He].
  assert (left u' = left u) as Hleft by (unfold left; by rewrite Hrd).
  unfold source_ok. destruct (body_kind c) eqn:Hk.
  - intros [[] Ho]. split.
    + split; rewrite ?Hr, ?Hleft, ?He; done.
    + unfold one_pending, started in *. by rewrite Hq, Hst.
  - by rewrite Hleft, Hr.
  - unfold one_pending, started. by rewrite Hq, Hst, Ha, Hw, He, Hr.
  - intros [[] Ho]. split; [|by rewrite Hr, Hrd]. split; rewrite ?Hr, ?Hleft, ?He; done.
Qed.

Definition data_of u := (source_of u, sent_parts u, server_parts (up_server u), put_num_parts_pending_read (up_put u), part_list (up_put u)).

Lemma data_of_list u u' : data_of u' = data_of u → part_list (up_put u') = part_list (up_put u).
Proof. by intros Hd%(f_equal snd). Qed.

Lemma data_of_writes u u' : data_of u' = data_of u → put_writes (up_put u') = put_writes (up_put u).
Proof. by intros Hd%(f_equal (λ x, x.1.1.1.1.2.1.2)). Qed.

Lemma data_frame u u' : data_of u' = data_of u → data_ok u → data_ok u'.
Proof.
  intros Hd []. assert (source_ok u') as Hsource by (eapply source_frame; [|done]; by apply (f_equal (λ x, x.1.1.1.1)) in Hd).
  unfold data_of, source_of, started in Hd. injection Hd as Hq Hr Ha Hst Hrd Hw He Hs Hsv Hp Hl.
  split; rewrite ?Hp, ?Hq, ?Hr, ?Hl, ?Hs, ?Hsv, ?Hw; try done.
  unfold started in *. by rewrite Hst.
Qed.

Lemma final_frame u u' : final u → part_list (up_put u') = part_list (up_put u) →
  server_parts (up_server u') = server_parts (up_server u) → server_object (up_server u') = server_object (up_server u) →
  (∀ r, r ∈ up_sent u' → put_tag r = TAG_COMPLETE_MULTIPART_UPLOAD → r ∈ up_sent u) →
  up_accepted u' = up_accepted u → write_eof (put_writes (up_put u')) = write_eof (put_writes (up_put u)) → final u'.
Proof.
  intros [] Hl Hsp Hso Hs Ha Hw. assert (payload u' = payload u) as Hpay by (unfold payload; by rewrite Ha).
  split; unfold object_made; rewrite ?Hl, ?Hsp, ?Hso, ?Hpay, ?Hw; auto.
Qed.

(** A list of requests, in another order. *)
Lemma live_perm u u' : live u' ≡ₚ live u → up_put u' = up_put u → up_delivery u' = up_delivery u →
  up_requested u' = up_requested u → up_finished u' = up_finished u → upload_ok u →
  flags_ok c (up_put u') (finish_result (up_delivery u')) (key <$> live u') (key <$> up_requested u') (up_finished u').
Proof.
  intros Hp -> -> -> -> Hok. eapply flags_perm; [|apply Hok]. by rewrite Hp.
Qed.

(** * Events, the server and the writes of the caller *)

Lemma ok_delivery u d : upload_ok u → result_grows (finish_result (up_delivery u)) (finish_result d) →
  upload_ok (u <| up_delivery := d |>).
Proof.
  intros [] Hg.
  assert (finish_result d = None → finish_result (up_delivery u) = None) as Hnone.
  { intros Hd. destruct Hg as [Hg|[? _]]; [by rewrite <-Hg|done]. }
  split; try done.
  - simpl. by eapply flags_grows.
  - simpl. intros Hf Hd. by apply up_failing0, Hnone.
  - intros [Hd Hc]. eapply data_frame, up_data0; [done|]. split; [by apply Hnone|done].
  - intros Hc. eapply final_frame; [by apply up_final0|try done..]; by intros.
Qed.

(** A request that is on its way. *)
Lemma sent_live u r : r ∈ up_sent u → ∃ ks, key <$> live u ≡ₚ key r :: ks.
Proof.
  intros Hr. apply list_elem_of_split in Hr as (l1 & l2 & Hr). exists (key <$> up_queued u ++ up_failed u ++ l1 ++ l2).
  unfold live. rewrite Hr, !fmap_app. simpl. solve_Permutation.
Qed.

Lemma sent_part_live u r : upload_ok u → r ∈ sent_parts u →
  complete_multipart_upload_sent (up_put u) = false ∧ 1 ≤ put_part_number r ≤ started u.
Proof.
  intros Hok [Ht Hr]%list_elem_of_filter. destruct (sent_live u r Hr) as [ks Hks].
  pose proof (flags_perm _ _ _ _ _ _ _ Hks (up_flags u Hok)) as Hfl. split.
  - by apply (part_live c _ _ _ _ _ _ Hfl Ht).
  - apply (fl_numbers _ _ _ _ _ _ Hfl). apply elem_of_part_numbers. rewrite <-Ht. left.
Qed.

Lemma sent_complete_live u r : upload_ok u → r ∈ up_sent u → put_tag r = TAG_COMPLETE_MULTIPART_UPLOAD →
  complete_multipart_upload_sent (up_put u) = true.
Proof.
  intros Hok Hr Ht. destruct (sent_live u r Hr) as [ks Hks].
  pose proof (flags_perm _ _ _ _ _ _ _ Hks (up_flags u Hok)) as Hfl.
  by pose proof (live_b2z _ (key r) _ _ Ht (fl_complete _ _ _ _ _ _ Hfl)) as [[? _]%andb_true_iff _].
Qed.

(** The parts that are put together are all of them, in order. *)
Lemma object_complete u r bodies : final u → r ∈ up_sent u → put_tag r = TAG_COMPLETE_MULTIPART_UPLOAD →
  Forall2 (λ part body, server_parts (up_server u) !! part.1 = Some (part.2, body)) (put_parts r) bodies →
  object_made u (concat bodies).
Proof.
  intros [_ (l & Hlen & Hpay & Hpieces & Hsv) Hparts _ _] Hr Ht Hb.
  specialize (Hparts r Hr Ht). pose proof (Forall2_length Hb) as Hlb.
  assert (length (put_parts r) = length l) as Hlp.
  { rewrite <-(length_fmap fst), Hparts, length_seqZ, Hlen. lia. }
  exists l, bodies. split_and!; [done|done|congruence|done|]. intros i d b Hd Hx. pose proof (lookup_lt_Some _ _ _ Hd) as Hi.
  destruct (Forall2_lookup_r _ _ _ _ _ Hb Hx) as ([k etag] & Hk & Hsk). simpl in Hsk.
  assert (k = Z.of_nat i + 1) as ->.
  { apply (f_equal (lookup i)) in Hparts. rewrite list_lookup_fmap, Hk, lookup_seqZ_lt in Hparts by lia.
    injection Hparts as ->. lia. }
  by eapply Hsv.
Qed.

Lemma ok_served u r sv : upload_ok u → r ∈ up_sent u → serves r (up_server u) sv → upload_ok (u <| up_server := sv |>).
Proof.
  intros Hok Hr Hs. destruct Hs as [etag Ht Hn|bodies Ht Hb|Ht].
  - destruct (sent_part_live u r Hok) as [Hc Hk]; [by apply list_elem_of_filter|].
    destruct Hok. split; simpl; try done; [|by rewrite Hc].
    intros Hrun. destruct (up_data0 Hrun) as [Hp Hks Hq Hst Hrd Hu Hl Hsv Hsrc Hw]. split; try done;
      [|by apply (source_frame u)]. simpl.
    intros k etag' b info Hk1. destruct (decide (k = put_part_number r)) as [->|Hne].
    + destruct (up_infos0 r) as (info' & Hi & He & _); [by apply list_elem_of_filter|done|]. rewrite Hi. intros _ [= <-] [? ?]. congruence.
    + rewrite lookup_insert_ne by done. by apply Hsv.
  - pose proof (sent_complete_live u r Hok Hr Ht) as Hc. destruct Hok. split; simpl; try done.
    + intros [_ ?]. simpl in *. congruence.
    + congruence.
    + intros _. specialize (up_final0 Hc). pose proof (object_complete u r bodies up_final0 Hr Ht Hb) as Hobj.
      destruct up_final0. split; try done. simpl. intros o [= <-]. done.
  - destruct Hok. split; simpl; try done.
    + intros Hrun. destruct (up_data0 Hrun). split; try done. by apply (source_frame u).
    + intros Hc. destruct (up_final0 Hc) as [? (l & Hlen & Hpay & Hpieces & _) ? ? ?]. split; try done. simpl.
      exists l. split_and!; [done|done|done|]. intros i d etag b _. by rewrite lookup_empty.
Qed.

(** A write: refused, or taken while the upload runs. *)
Lemma poll_cases finished async part_size w data eof rv result w' error :
  aws_s3_meta_request_poll_write finished async part_size w data eof rv = (result, w', error) →
  w' = w ∧ written result data = [] ∧ (error ≠ None ∨ finished = true ∧ error = None) ∨
  finished = false ∧ async = true ∧ write_eof w = false ∧ error = None.
Proof.
  unfold aws_s3_meta_request_poll_write. destruct finished; [intros [= <- <- <-]; by left; auto|].
  destruct async; [|intros [= <- <- <-]; left; split_and!; auto].
  destruct (write_waker w); [intros [= <- <- <-]; left; split_and!; auto|].
  destruct (write_eof w); [intros [= <- <- <-]; left; split_and!; auto|]. cbn [negb].
  destruct (_ =? part_size); [intros [= <- <- <-]; by right|].
  destruct (poll_write_buffer w rv) as [[[] w1]|]; [intros [= <- <- <-]; by right| |intros [= <- <- <-]; left; split_and!; auto].
  destruct (poll_write_copy _ _ _ _) as [processed w2]. intros [= <- <- <-]. by right.
Qed.

Lemma poll_waking finished w at_end data eof rv result w' error :
  aws_s3_meta_request_poll_write finished true ps w data eof rv = (result, w', error) →
  waking_ok w at_end → waking_ok w' at_end.
Proof.
  intros Hp Hw. revert Hp. unfold aws_s3_meta_request_poll_write. cbn [negb].
  destruct finished; [by intros [= <- <- <-]|]. destruct (write_waker w) eqn:Hwk; [by intros [= <- <- <-]|].
  destruct (write_eof w) eqn:He; [by intros [= <- <- <-]|]. destruct Hw.
  assert (at_end = false) as -> by (destruct at_end; [|done]; destruct wk_end0; congruence).
  destruct (Z.eqb_spec (Z.of_nat (length (buffered_data w))) ps) as [Hfull|Hfull].
  { intros [= <- <- <-]. split; simpl; try done. auto. }
  assert (∀ w1 processed w2, write_waker w1 = false → write_eof w1 = false → poll_write_copy ps w1 data eof = (processed, w2) →
    waking_ok w2 false) as Hcopy.
  { intros w1 processed w2 Hw1 He1. unfold poll_write_copy. destruct (_ && eof); simpl; rewrite ?He1; simpl.
    - intros [= <- <-]. split; simpl; auto; congruence.
    - destruct (Z.eqb_spec (Z.of_nat (length (buffered_data w1 ++ take (Z.to_nat (ps - Z.of_nat (length (buffered_data w1)))) data))) ps);
        intros [= <- <-]; split; simpl; auto; congruence. }
  unfold poll_write_buffer. destruct (buffered_data_ticket w); [|destruct rv].
  - destruct (poll_write_copy _ _ _ _) as [processed w2] eqn:Hc. intros [= <- <- <-]. by eapply Hcopy.
  - destruct (poll_write_copy _ _ _ _) as [processed w2] eqn:Hc. intros [= <- <- <-]. by eapply Hcopy; [..|exact Hc].
  - intros [= <- <- <-]. split; congruence.
  - intros [= <- <- <-]. split; simpl; auto; congruence.
Qed.

Lemma reserved_waking w at_end : 0 < ps → waking_ok w at_end →
  waking_ok (fst (s_s3_meta_request_on_async_write_buffer_reserved false w None)) at_end.
Proof.
  intros Hps []. split; simpl; try done; [|lia]. intros Ha. by destruct (wk_end0 Ha).
Qed.

(** The writes have changed. *)
Lemma same_flags_writes (s : put_state) w : same_flags s (s <| put_writes := w |>).
Proof.
  exists (part_list s), (is_body_stream_at_end s), (put_num_parts_pending_read s), w, (put_reader s), (put_full_object_checksum s).
  by destruct s.
Qed.

Lemma ok_writes u w d more : upload_ok u → result_grows (finish_result (up_delivery u)) (finish_result d) →
  (complete_multipart_upload_sent (up_put u) = true → write_eof w = write_eof (put_writes (up_put u)) ∧ more = []) →
  (finish_result d = None → data_ok u → complete_multipart_upload_sent (up_put u) = false →
     data_ok (u <| up_put ::= λ s, s <| put_writes := w |> |> <| up_delivery := d |> <| up_accepted ::= λ l, l ++ more |>)) →
  upload_ok (u <| up_put ::= λ s, s <| put_writes := w |> |> <| up_delivery := d |> <| up_accepted ::= λ l, l ++ more |>).
Proof.
  intros Hok Hg Hc Hd.
  assert (finish_result d = None → finish_result (up_delivery u) = None) as Hnone.
  { intros Hd'. destruct Hg as [Hg|[? _]]; [by rewrite <-Hg|done]. }
  destruct Hok. split; try done.
  - eapply flags_grows; [|exact Hg]. eapply flags_same; [exact up_flags0|apply same_flags_writes|by left].
  - simpl. intros Hf Hd'. by apply up_failing0, Hnone.
  - intros [Hr Hs]. apply Hd; [done| |done]. apply up_data0. split; [by apply Hnone|done].
  - intros Hs. destruct (Hc Hs) as [He ->]. eapply final_frame; [by apply up_final0|try done..].
    simpl. apply app_nil_r.
Qed.

Lemma ok_written u data eof rv result w error : upload_ok u →
  aws_s3_meta_request_poll_write (has_result (up_delivery u)) (bool_decide (body_kind c = BodyAsyncWrites))
    ps (put_writes (up_put u)) data eof rv = (result, w, error) →
  upload_ok (u <| up_put ::= λ s, s <| put_writes := w |> |> <| up_delivery ::= λ d, fail_with d error |>
               <| up_accepted ::= λ l, l ++ written result data |>).
Proof.
  intros Hok Hp. pose proof (poll_cases _ _ _ _ _ _ _ _ _ _ Hp) as [(-> & -> & He)|(Hf & Hk & Heof & ->)].
  - eapply (ok_writes u (put_writes (up_put u)) (fail_with (up_delivery u) error) []); [done| |done|].
    + destruct error; [apply grows_fail|by left].
    + intros Hd Hda _. apply (data_frame u); [|done]. unfold data_of, source_of. simpl. by rewrite app_nil_r.
  - apply bool_decide_eq_true in Hk.
    eapply (ok_writes u w (up_delivery u) (written result data)); [done|by left| |].
    + intros Hc. pose proof (fi_writes u (up_final u Hok Hc) Hk). congruence.
    + intros Hd Hda _. destruct Hda. split; try done. revert da_source0. unfold source_ok. rewrite Hk.
      intros (Hs & Ho & Hw & Hwk). rewrite (bool_decide_eq_true_2 _ Hk) in Hp. split_and!; [done|done| |].
      * exact (poll_ok ps (mkWriting (put_writes (up_put u)) _ _ _) _ _ _ _ _ _ _ Hp Hw).
      * by eapply poll_waking.
Qed.

Lemma ok_reserved u error w failure : 0 < ps → upload_ok u → buffered_data_ticket_future (put_writes (up_put u)) = true →
  s_s3_meta_request_on_async_write_buffer_reserved (has_result (up_delivery u)) (put_writes (up_put u)) error = (w, failure) →
  upload_ok (u <| up_put ::= λ s, s <| put_writes := w |> |> <| up_delivery ::= λ d, fail_with d failure |>).
Proof.
  intros Hps Hok Hfut Hr.
  assert (upload_ok (u <| up_put ::= λ s, s <| put_writes := w |> |> <| up_delivery := fail_with (up_delivery u) failure |>
    <| up_accepted ::= λ l, l ++ [] |>)) as Hgoal.
  { eapply ok_writes; [done| | |].
    - destruct failure; [apply grows_fail|by left].
    - intros _. split; [|done]. unfold s_s3_meta_request_on_async_write_buffer_reserved in Hr.
      destruct error; [|destruct (has_result _)]; by injection Hr as <- <-.
    - intros Hd Hda _. destruct (decide (body_kind c = BodyAsyncWrites)) as [Hk|Hk];
        [|by rewrite (da_writes u Hda Hk) in Hfut].
      destruct Hda. split; try done. revert da_source0. unfold source_ok. rewrite Hk. simpl.
      intros (Hs & Ho & Hw & Hwk). rewrite app_nil_r.
      assert (has_result (up_delivery u) = false ∧ error = None) as [Hres ->].
      { unfold has_result, fail_with, aws_s3_meta_request_set_fail_synced in *. destruct error as [e|].
        - injection Hr as <- <-. destruct (finish_result (up_delivery u)) eqn:?; simpl in Hd; congruence.
        - split; [|done]. apply bool_decide_eq_false. intros []. destruct (bool_decide _); by injection Hr as <- <-. }
      rewrite Hres in Hr. split_and!; [done|done| |].
      + pose proof (write_step_ok ps _ _ (step_reserved ps (mkWriting (put_writes (up_put u)) _ _ _) false None Hfut) Hw) as Hw'.
        simpl in Hw'. by injection Hr as <- <-.
      + by apply reserved_waking in Hwk; [injection Hr as <- <-|]. }
  simpl in Hgoal. by rewrite app_nil_r in Hgoal.
Qed.

(** * Updates *)

Lemma live_asked u r s d : key <$> live (u <| up_put := s |> <| up_delivery := d |> <| up_queued ::= λ l, l ++ [r] |>
    <| up_requested ::= λ l, l ++ [r] |>) ≡ₚ (key <$> live u) ++ [key r].
Proof. unfold live. simpl. rewrite !fmap_app. simpl. solve_Permutation. Qed.

Lemma queued_parts_snoc l r : filter is_part (l ++ [r]) = filter is_part l ++ (if decide (is_part r) then [r] else []).
Proof. by rewrite list.filter_app. Qed.

(** A request other than a part, and not the completing one. *)
Lemma ok_asked u r s : upload_ok u → ¬ is_part r →
  flags_ok c s (finish_result (up_delivery u)) ((key <$> live u) ++ [key r]) ((key <$> up_requested u) ++ [key r]) (up_finished u) →
  (∀ u', up_put u' = s → up_queued u' = up_queued u → up_sent u' = up_sent u → up_reads u' = up_reads u →
     up_accepted u' = up_accepted u → up_server u' = up_server u → data_of u' = data_of u) →
  complete_multipart_upload_sent s = complete_multipart_upload_sent (up_put u) →
  complete_multipart_upload_completed s = complete_multipart_upload_completed (up_put u) →
  complete_multipart_upload_error_code s = complete_multipart_upload_error_code (up_put u) →
  upload_ok (u <| up_put := s |> <| up_queued ::= λ l, l ++ [r] |> <| up_requested ::= λ l, l ++ [r] |>).
Proof.
  intros Hok Hr Hfl Hd Hc1 Hc2 Hc3.
  pose proof (Hd (u <| up_put := s |>) eq_refl eq_refl eq_refl eq_refl eq_refl eq_refl) as Hda. clear Hd.
  assert (queued_parts (u <| up_put := s |> <| up_queued ::= λ l, l ++ [r] |> <| up_requested ::= λ l, l ++ [r] |>) =
    queued_parts u) as Hq.
  { unfold queued_parts. simpl. by rewrite queued_parts_snoc, decide_False, app_nil_r. }
  destruct Hok. pose proof (data_of_list _ _ Hda) as Hl. pose proof (data_of_writes _ _ Hda) as Hw. simpl in Hl, Hw.
  split; try done.
  - simpl. rewrite fmap_app. eapply flags_perm; [|exact Hfl]. symmetry. apply (live_asked u r s (up_delivery u)).
  - by rewrite Hq.
  - rewrite Hq. simpl. by rewrite Hl.
  - simpl. by rewrite Hl.
  - simpl. by rewrite Hl.
  - intros [Hf Hc]. apply (data_frame u).
    + unfold data_of, source_of in *. rewrite Hq. done.
    + apply up_data0. split; [done|]. simpl in Hc. congruence.
  - simpl. by rewrite Hc1.
  - simpl. rewrite Hc1. intros Hc. eapply final_frame; [by apply up_final0|try done..]. simpl. by rewrite Hw.
  - simpl. by rewrite Hc2, Hc3.
Qed.

(** The body of the next part. *)
Lemma next_buffer u conservative : data_ok u →
  s_should_skip_scheduling_more_parts_based_on_flags c (up_put u) conservative = false →
  if decide (body_kind c = BodyAsyncWrites)
  then ready_to_send (put_writes (up_put u)) = true ∧ queued_parts u = []
  else ready_to_send (put_writes (up_put u)) = false ∧ (body_kind c = BodyAsyncStream → queued_parts u = []).
Proof.
  intros Hda Hskip. unfold s_should_skip_scheduling_more_parts_based_on_flags in Hskip.
  assert ((0 <? put_num_parts_pending_read (up_put u)) = false → queued_parts u = []) as Hnil.
  { rewrite (da_pending u Hda). destruct (queued_parts u); [done|]. simpl length. intros ?%Z.ltb_ge. lia. }
  case_decide as Hk.
  - rewrite Hk in Hskip. apply orb_false_iff in Hskip as [?%negb_false_iff ?]. auto.
  - rewrite (da_writes u Hda Hk). split; [done|]. intros Hk'. rewrite Hk' in Hskip. auto.
Qed.

Lemma source_next u r s conservative : data_ok u →
  s_should_skip_scheduling_more_parts_based_on_flags c (up_put u) conservative = false →
  is_part r → put_part_number r = put_num_parts_started s →
  put_reader s = put_reader (up_put u) → is_body_stream_at_end s = is_body_stream_at_end (up_put u) →
  (if decide (body_kind c = BodyAsyncWrites)
   then put_writes s = put_writes (up_put u) <| buffered_data_ticket := false |> ∧ put_body r = buffered_data (put_writes (up_put u))
   else put_writes s = put_writes (up_put u)) →
  source_ok (u <| up_put := s |> <| up_queued ::= λ l, l ++ [r] |> <| up_requested ::= λ l, l ++ [r] |>).
Proof.
  intros Hda Hskip Hr Hn Hrd He Hw. pose proof (next_buffer u conservative Hda Hskip) as Hnext.
  pose proof (da_source u Hda) as Hsrc. revert Hsrc.
  set (u' := u <| up_put := s |> <| up_queued ::= λ l, l ++ [r] |> <| up_requested ::= λ l, l ++ [r] |>).
  assert (left u' = left u) as Hleft by (unfold left; simpl; by rewrite Hrd).
  assert (queued_parts u' = queued_parts u ++ [r]) as Hq.
  { unfold queued_parts. simpl. by rewrite queued_parts_snoc, decide_True. }
  assert (sequential_ok u → sequential_ok u') as Hseq.
  { intros []. split; simpl; rewrite ?Hleft, ?He; done. }
  assert (queued_parts u = [] → one_pending u') as Hone.
  { intros Hnil. right. exists r. by rewrite Hq, Hnil. }
  unfold source_ok. destruct (body_kind c) eqn:Hk; cbn in Hnext, Hw.
  - intros [Hs _]. split; [auto|]. apply Hone, Hnext. done.
  - by rewrite Hleft.
  - intros (Hs & Ho & Hwr & Hwk). destruct Hnext as [Hready Hnil]. destruct Hw as [Hw Hbody].
    split_and!; [done|auto| |].
    + rewrite Hq, Hnil in *. simpl. rewrite Hw, Hbody. simpl in Hwr.
      exact (write_step_ok ps _ _ (step_hand ps (mkWriting (put_writes (up_put u)) _ None _) Hready eq_refl) Hwr).
    + simpl. rewrite Hw, He. destruct Hwk. by split.
  - intros [Hs Ho]. split; [auto|]. simpl. by rewrite Hrd.
Qed.

Lemma keys_snoc (l l' : list Z) n : 0 ≤ n → l ++ l' ≡ₚ seqZ 1 n → (l ++ [n + 1]) ++ l' ≡ₚ seqZ 1 (n + 1).
Proof.
  intros Hn Hp. rewrite seqZ_app, <-Hp by lia. change (seqZ (1 + n) 1) with [1 + n]. rewrite (Z.add_comm 1 n).
  solve_Permutation.
Qed.

Lemma keys_length u : data_ok u → 0 ≤ started u → Z.of_nat (length (queued_parts u)) ≤ started u.
Proof.
  intros Hda Hn. pose proof (Permutation_length (da_keys u Hda)) as Hl.
  rewrite length_app, !length_fmap, length_seqZ in Hl. lia.
Qed.

(** A part that is asked for as one that was uploaded earlier is one. *)
Lemma next_previous u : data_ok u → 0 ≤ started u → next_part_number (up_put u) = started u + 1 →
  previously_uploaded c (up_put u) = true →
  ∃ info, entry (part_list (up_put u)) (started u + 1) = Some info ∧ info_was_previously_uploaded info = true.
Proof.
  intros Hda Hn Hnext [_ [info Hi]%bool_decide_eq_true]%andb_true_iff. unfold next_info in Hi. rewrite Hnext in Hi.
  assert (entry (part_list (up_put u)) (started u + 1) = Some info) as He.
  { unfold entry. by destruct (part_list (up_put u) !! _) as [[?|]|]. }
  exists info. split; [done|]. apply (da_unread u Hda (started u + 1)); [lia|done|]. intros Hin.
  assert (started u + 1 ∈ seqZ 1 (started u)) as Hin'%elem_of_seqZ by (rewrite <-(da_keys u Hda); set_solver). lia.
Qed.

(** The state after the next part was asked for. *)
Lemma data_next u r s conservative : data_ok u → running u → 0 ≤ started u < U32_MAX - 1 →
  next_part_number (up_put u) = started u + 1 →
  s_should_skip_scheduling_more_parts_based_on_flags c (up_put u) conservative = false →
  create_next_part_request c (up_put u) (previously_uploaded c (up_put u)) = Ok (r, s) →
  data_ok (u <| up_put := s |> <| up_queued ::= λ l, l ++ [r] |> <| up_requested ::= λ l, l ++ [r] |>).
Proof.
  intros Hda Hrun Hst Hnext Hskip Hr. pose proof (keys_length u Hda ltac:(lia)) as Hlen.
  apply create_next_spec in Hr as (Ht & Hn & Hprev & Hno & Hfio & Hstr & w & -> & Hw). rewrite Hnext in Hn.
  pose proof (next_buffer u conservative Hda Hskip) as Hbuf.
  assert (put_num_parts_started (up_put u) +[32] 1 = started u + 1) as Hst1.
  { unfold started, U32_MAX in *. rewrite wrap_small by (unfold uint; lia). done. }
  set (s := up_put u <| put_writes := w |> <| next_part_number ::= _ |> <| put_num_parts_started ::= _ |>
              <| put_num_parts_pending_read ::= _ |>).
  set (u' := u <| up_put := s |> <| up_queued ::= λ l, l ++ [r] |> <| up_requested ::= λ l, l ++ [r] |>).
  assert (queued_parts u' = queued_parts u ++ [r]) as Hq.
  { unfold queued_parts. simpl. by rewrite queued_parts_snoc, decide_True. }
  assert (source_ok u') as Hsrc.
  { eapply source_next; try done; [simpl; congruence|]. simpl. case_decide as Hk; destruct Hbuf as [Hb _]; rewrite Hb in Hw.
    - by destruct Hw as (-> & _ & _ & -> & _).
    - by destruct Hw as (-> & _). }
  split; try done.
  - simpl. rewrite Hq, length_app, (da_pending u Hda). simpl length. unfold U32_MAX in *.
    rewrite wrap_small by (unfold uint; lia). lia.
  - rewrite Hq, fmap_app. change (started u') with (put_num_parts_started (up_put u) +[32] 1). rewrite Hst1. simpl. rewrite Hn.
    apply keys_snoc; [lia|]. apply Hda.
  - rewrite Hq. intros r' [Hr'|Hr']%elem_of_app; [by apply (da_queued u Hda)|]. apply list_elem_of_singleton in Hr' as ->.
    split.
    + case_decide; destruct Hbuf as [Hb _]; rewrite Hb in Hw; by destruct Hw as (_ & _ & _ & ? & ?).
    + rewrite Hprev, Hn. unfold previously_uploaded, next_info, entry. simpl. rewrite Hnext.
      intros [? Hp%bool_decide_eq_true]%andb_true_iff. split; [done|].
      destruct (part_list _ !! _) as [[?|]|]; [done|by destruct Hp..].
  - apply Hda.
  - apply Hda.
  - apply Hda.
  - apply Hda.
  - apply Hda.
  - intros Hk. simpl. rewrite decide_False in Hbuf by done. destruct Hbuf as [Hb _]. rewrite Hb in Hw. destruct Hw as [-> _].
    by apply Hda.
Qed.

Lemma ok_next u r s conservative : upload_ok u → up_finished u = false → finish_result (up_delivery u) = None →
  started u < U32_MAX - 1 → more_parts c (up_put u) →
  s_should_skip_scheduling_more_parts_based_on_flags c (up_put u) conservative = false →
  create_next_part_request c (up_put u) (previously_uploaded c (up_put u)) = Ok (r, s) →
  flags_ok c s (finish_result (up_delivery u)) ((key <$> live u) ++ [key r]) ((key <$> up_requested u) ++ [key r]) (up_finished u) →
  upload_ok (u <| up_put := s |> <| up_queued ::= λ l, l ++ [r] |> <| up_requested ::= λ l, l ++ [r] |>).
Proof.
  intros Hok Hfin Hf Hst Hmore Hskip Hr Hfl. pose proof (up_flags u Hok) as Hflags.
  assert (complete_multipart_upload_sent (up_put u) = false) as Hc.
  { destruct (complete_multipart_upload_sent (up_put u)) eqn:Hc; [|done].
    by destruct (fl_complete_sent _ _ _ _ _ _ Hflags Hc) as (_ & _ & [] & _). }
  assert (data_ok (u <| up_put := s |> <| up_queued ::= λ l, l ++ [r] |> <| up_requested ::= λ l, l ++ [r] |>)) as Hda.
  { eapply data_next; try done; [by apply Hok| |by apply Hflags]. pose proof (fl_bounds _ _ _ _ _ _ Hflags).
    pose proof (fl_parts _ _ _ _ _ _ Hflags). pose proof (tally_nonneg TAG_PART (key <$> live u)). unfold started in *. lia. }
  assert (0 ≤ started u) as Hst0.
  { pose proof (fl_bounds _ _ _ _ _ _ Hflags). pose proof (fl_parts _ _ _ _ _ _ Hflags).
    pose proof (tally_nonneg TAG_PART (key <$> live u)). unfold started in *. lia. }
  pose proof (fl_next _ _ _ _ _ _ Hflags) as Hnext. fold (started u) in Hnext.
  pose proof (next_previous u (up_data u Hok (conj Hf Hc)) Hst0 Hnext) as Hnp.
  pose proof Hr as Hr'. apply create_next_spec in Hr' as (Ht & Hn & Hprev & Hno & Hfio & Hstr & w & -> & Hw).
  destruct Hok. split; try done.
  - simpl. rewrite fmap_app. eapply flags_perm; [|exact Hfl]. symmetry. apply (live_asked u r _ (up_delivery u)).
  - unfold queued_parts. simpl. rewrite queued_parts_snoc, decide_True by done.
    intros r' [Hr'|Hr']%elem_of_app; [by apply up_buffers0|]. apply list_elem_of_singleton in Hr' as ->.
    split; [done|]. destruct (ready_to_send _); [right|left]; by destruct Hw as (_ & ? & ? & _).
  - unfold queued_parts. simpl. rewrite queued_parts_snoc, decide_True by done.
    intros r' [Hr'|Hr']%elem_of_app; [by apply up_previous0|]. apply list_elem_of_singleton in Hr' as ->.
    by rewrite Hprev, Hn, Hnext.
  - simpl. by rewrite Hc.
Qed.
End upload.
