(* ===== verification/PutFinal.v ===== *)
(** When an upload is completed: the parts that were read are all there, each with its ETag,
    and together they are the payload. *)

From Stdlib Require Import Init.Byte Sorted.
From S2P Require Import Prelude AwsCommon ByteCursor HttpMessage Checksums ChecksumContext Listing BodyStream.
From S2P Require Import PriorityQueue PartMath Tracking Delivery DeliveryInv AutoRangedPut PutSystem PutInv PutData PutUpload.

(** * Reads by number *)

Lemma reads_lookup (reads : list (Z * list byte)) n k d : reads.*1 = seqZ 1 n → (k, d) ∈ reads →
  1 ≤ k ≤ n ∧ reads.*2 !! Z.to_nat (k - 1) = Some d.
Proof.
  intros Hk [i Hi]%list_elem_of_lookup.
  assert (seqZ 1 n !! i = Some k) as Hs by (rewrite <-Hk, list_lookup_fmap, Hi; done).
  apply lookup_seqZ in Hs as [-> Hlt]. split; [lia|]. rewrite list_lookup_fmap.
  replace (Z.to_nat (1 + Z.of_nat i - 1)) with i by lia. by rewrite Hi.
Qed.

Lemma reads_elem (reads : list (Z * list byte)) n i d : reads.*1 = seqZ 1 n → reads.*2 !! i = Some d →
  (Z.of_nat i + 1, d) ∈ reads.
Proof.
  intros Hk Hi. rewrite list_lookup_fmap in Hi. destruct (reads !! i) as [[k d']|] eqn:Hr; [|done]. injection Hi as ->.
  assert (seqZ 1 n !! i = Some k) as Hs by (rewrite <-Hk, list_lookup_fmap, Hr; done).
  apply lookup_seqZ in Hs as [-> Hlt]. apply list_elem_of_lookup. exists i. rewrite Hr. do 2 f_equal. lia.
Qed.

Section final.
Context `{B : !AwsByteCursor} `{H : !AwsHttpHeaders} `{D : !AwsDigest} `{X : !AwsXml} `{St : !AwsStreams}.
Context `{M : !AwsMath}.
Context {Q1 : AwsPriorityQueue s3_request part_number}.
Context {Q2 : AwsPriorityQueue delivery_tracking_record track_part_number}.
Context (c : put_config) (content : list byte) (Hset : put_setting c).
Implicit Types (u : upload) (r : put_request).

Notation ps := (put_part_size c).
Notation total := (total_num_parts_from_content_length c).

(** Reads of the lengths that were asked for, from the beginning on, are the pieces. *)
Lemma pieces_in_order (reads : list (Z * list byte)) m n rest : has_content_length c = true →
  reads.*1 = seqZ (m + 1) n → 0 ≤ m → m + n ≤ total →
  (∀ k d, (k, d) ∈ reads → Z.of_nat (length d) = part_len c k) →
  concat reads.*2 ++ rest = drop (Z.to_nat (m * ps)) content →
  ∀ k d, (k, d) ∈ reads → d = piece c content k.
Proof using Hset.
  intros Hl. pose proof (ps_size c Hset) as Hps. revert m n. induction reads as [|[k0 d0] reads IH];
    intros m n Hk Hm Hn Hlen Hc k d Hin; [by apply elem_of_nil in Hin|].
  assert (0 < n) as Hn0 by (destruct (Z_lt_dec 0 n); [done|by rewrite seqZ_nil in Hk by lia]).
  rewrite seqZ_cons in Hk by done. simpl in Hk, Hc. injection Hk as -> Hk.
  pose proof (Hlen (m + 1) d0 ltac:(left)) as Hd0. rewrite <-(assoc_L (++)) in Hc.
  assert (d0 = piece c content (m + 1)) as Hpiece.
  { unfold piece. replace (m + 1 - 1) with m by lia. rewrite <-Hc, <-Hd0, Nat2Z.id. by rewrite take_app_length. }
  apply elem_of_cons in Hin as [[= -> ->]|Hin]; [done|].
  apply (IH (m + 1) (Z.pred n)); [exact Hk|lia|lia|by intros; apply Hlen; right| |done].
  assert (m + 1 < total) as Hlt.
  { destruct reads; [by apply elem_of_nil in Hin|]. destruct (Z_lt_dec 0 (Z.pred n)); [lia|]. by rewrite seqZ_nil in Hk by lia. }
  rewrite part_len_inner in Hd0 by done.
  replace (Z.to_nat ((m + 1) * ps)) with (Z.to_nat (m * ps) + length d0)%nat by nia.
  by rewrite <-drop_drop, <-Hc, drop_app_length.
Qed.

(** All parts were asked for, read and answered. *)
Record all_done u : Prop := {
  ad_queued : queued_parts u = [];
  ad_sent : sent_parts u = [];
  ad_more : ¬ more_parts c (up_put u);
  ad_done : parts_done c (up_put u);
  ad_total : has_content_length c = true → started u = total;
}.

Lemma done_keys u : data_ok c content u → all_done u → (up_reads u).*1 ≡ₚ seqZ 1 (started u).
Proof. intros Hda Had. rewrite <-(da_keys _ _ _ Hda), (ad_queued u Had). done. Qed.

Lemma done_entry u k d : data_ok c content u → all_done u → (k, d) ∈ up_reads u → ¬ skipped c k d →
  ∃ info etag, entry (part_list (up_put u)) k = Some info ∧ info_etag info = Some etag.
Proof.
  intros Hda Had Hin Hns. destruct (da_read _ _ _ Hda k d Hin) as [?|(info & Hi & He)]; [done|].
  exists info. destruct (info_etag info) as [etag|]; [by exists etag|]. destruct (proj1 He eq_refl) as (r & Hr & _).
  rewrite (ad_sent u Had) in Hr. by apply elem_of_nil in Hr.
Qed.

(** What the server has of a part that was read and sent, or that was not sent since it was
    uploaded earlier. *)
Lemma server_stands u k d etag b : data_ok c content u → all_done u → 1 ≤ k → (k, d) ∈ up_reads u → ¬ skipped c k d →
  server_parts (up_server u) !! k = Some (etag, b) → stands_for c (part_list (up_put u)) k d b.
Proof.
  intros Hda Had Hk Hin Hns Hb. destruct (done_entry u k d Hda Had Hin Hns) as (info & e & Hi & He).
  pose proof (da_server _ _ _ Hda k etag b info Hk Hb Hi ltac:(by eexists)) as Hsv.
  destruct (info_was_previously_uploaded info) eqn:Hp.
  - right. exists info. split_and!; [done..|]. destruct (da_read _ _ _ Hda k d Hin) as [?|(info' & Hi' & _ & Hc)]; [done|].
    assert (info' = info) as -> by congruence. auto.
  - left. destruct Hsv as [Hin' _]. assert (NoDup (up_reads u).*1) as Hnd.
    { rewrite (done_keys u Hda Had). apply NoDup_seqZ. }
    apply list_elem_of_lookup in Hin as [i Hin]. apply list_elem_of_lookup in Hin' as [j Hin'].
    assert (i = j) as ->; [|congruence].
    eapply NoDup_lookup; [exact Hnd|..]; rewrite list_lookup_fmap; [by rewrite Hin|by rewrite Hin'].
Qed.

Lemma entry_lookup l k info : 1 ≤ k → entry l k = Some info → k ≤ Z.of_nat (length l) ∧ l !! Z.to_nat (k - 1) = Some (Some info).
Proof.
  intros Hk. unfold entry. destruct (l !! Z.to_nat (k - 1)) as [o|] eqn:Hl; [|done]. simpl. unfold id. intros ->.
  split; [|done]. apply lookup_lt_Some in Hl. lia.
Qed.

(** The parts that are sent, with their entries. *)
Lemma entries_complete u n : data_ok c content u → all_done u → Z.of_nat (length (part_list (up_put u))) = n →
  (∀ k, 1 ≤ k ≤ n → ∃ d, (k, d) ∈ up_reads u ∧ ¬ skipped c k d) → Forall has_etag (part_list (up_put u)).
Proof.
  intros Hda Had Hlen Hall. apply Forall_lookup. intros i o Hi. pose proof (lookup_lt_Some _ _ _ Hi) as Hlt.
  destruct (Hall (Z.of_nat i + 1) ltac:(lia)) as (d & Hd & Hns).
  destruct (done_entry u _ d Hda Had Hd Hns) as (info & etag & He & Het).
  apply entry_lookup in He as [_ He]; [|lia]. replace (Z.to_nat (Z.of_nat i + 1 - 1)) with i in He by lia.
  exists info, etag. split; [congruence|done].
Qed.

Lemma known_reads u : data_ok c content u → all_done u → has_content_length c = true →
  ∀ k d, (k, d) ∈ up_reads u → d = piece c content k.
Proof using Hset.
  intros Hda Had Hl. pose proof (ps_known c Hset Hl) as (_ & Ht & _). pose proof (da_source _ _ _ Hda) as Hsrc.
  assert (sequential_ok c content u → ∀ k d, (k, d) ∈ up_reads u → d = piece c content k) as Hseq.
  { intros Hs. pose proof (sorted_perm_eq _ _ (seq_sorted _ _ _ Hs) (seqZ_sorted _ _) (done_keys u Hda Had)) as Hk.
    rewrite (ad_total u Had Hl) in Hk.
    apply (pieces_in_order _ 0 total (left u)); [done|done|lia|lia|by apply Hs|]. rewrite (seq_content _ _ _ Hs). done. }
  unfold source_ok in Hsrc. destruct (body_kind c) eqn:Hk.
  - apply Hseq, Hsrc.
  - apply Hsrc.
  - rewrite (ps_writes c Hset Hk) in Hl. done.
  - apply Hseq, Hsrc.
Qed.

(** The data in the parts that were sent or uploaded earlier, and what the server has of them. *)
Definition server_pieces u : Prop :=
  ∃ pieces, length pieces = length (part_list (up_put u)) ∧ concat pieces = payload c content u ∧
    (has_content_length c = true → pieces = piece c content <$> seqZ 1 total) ∧
    ∀ i d etag b, pieces !! i = Some d → server_parts (up_server u) !! (Z.of_nat i + 1) = Some (etag, b) →
      stands_for c (part_list (up_put u)) (Z.of_nat i + 1) d b.

(** With a known length, the parts are the pieces of the content. *)
Lemma final_known u : data_ok c content u → all_done u → has_content_length c = true →
  Forall has_etag (part_list (up_put u)) ∧ server_pieces u.
Proof using Hset.
  intros Hda Had Hl. pose proof (ps_known c Hset Hl) as (_ & Ht & _).
  pose proof (done_keys u Hda Had) as Hk. rewrite (ad_total u Had Hl) in Hk.
  assert (∀ k, 1 ≤ k ≤ total → ∃ d, (k, d) ∈ up_reads u ∧ ¬ skipped c k d) as Hall.
  { intros k Hr. assert (k ∈ (up_reads u).*1) as Hin by (rewrite Hk; apply elem_of_seqZ; lia).
    apply list_elem_of_fmap in Hin as ([k' d] & -> & Hin). exists d. split; [done|]. intros [? _]. congruence. }
  assert (Z.of_nat (length (part_list (up_put u))) = total) as Hlen.
  { pose proof (da_length _ _ _ Hda) as Hle. rewrite Hl in Hle. destruct (Hall total ltac:(lia)) as (d & Hd & Hns).
    destruct (done_entry u _ d Hda Had Hd Hns) as (info & etag & He & _). apply entry_lookup in He as [? _]; lia. }
  split; [by eapply entries_complete|]. exists (piece c content <$> seqZ 1 total). split_and!.
  - rewrite length_fmap, length_seqZ. lia.
  - rewrite concat_all_pieces by done. unfold payload. rewrite decide_False, Hl by (intros ?%(ps_writes c Hset); congruence).
    done.
  - done.
  - intros i d etag b Hi Hb. pose proof (lookup_lt_Some _ _ _ Hi) as Hlt. rewrite length_fmap, length_seqZ in Hlt.
    destruct (Hall (Z.of_nat i + 1) ltac:(lia)) as (d' & Hd & Hns). pose proof (known_reads u Hda Had Hl _ _ Hd) as Hp.
    rewrite list_lookup_fmap, lookup_seqZ_lt in Hi by lia. injection Hi as <-. rewrite (Z.add_comm 1), <-Hp.
    by eapply server_stands; [..|lia|exact Hd|exact Hns|exact Hb].
Qed.

(** With an unknown length, the reads are the payload, cut into full parts, perhaps a shorter
    one, and empty ones that are not sent. *)
Lemma unknown_reads u : data_ok c content u → all_done u → has_content_length c = false →
  (up_reads u).*1 = seqZ 1 (started u) ∧ trail ps (up_reads u).*2 ∧ concat (up_reads u).*2 = payload c content u ∧
  (body_kind c = BodyAsyncWrites → write_eof (put_writes (up_put u)) = true).
Proof using Hset.
  intros Hda Had Hl. pose proof (da_source _ _ _ Hda) as Hsrc. pose proof (done_keys u Hda Had) as Hk.
  pose proof (ad_done u Had) as Hd. unfold parts_done in Hd. rewrite Hl in Hd. destruct Hd as [Hend _].
  assert (sequential_ok c content u → body_kind c ≠ BodyAsyncWrites → (up_reads u).*1 = seqZ 1 (started u) ∧
    trail ps (up_reads u).*2 ∧ concat (up_reads u).*2 = payload c content u ∧
    (body_kind c = BodyAsyncWrites → write_eof (put_writes (up_put u)) = true)) as Hseq.
  { intros [Hsc Hss _ _ Hstr _ Hse] Hnw. split_and!; [by apply sorted_perm_eq, Hk; [|apply seqZ_sorted]|auto| |done].
    unfold payload. rewrite decide_False, Hl by done. rewrite <-Hsc.
    by rewrite (Hse Hl Hend), app_nil_r. }
  unfold source_ok in Hsrc. destruct (body_kind c) eqn:Hkind.
  - by apply Hseq; [apply Hsrc|].
  - rewrite (ps_parallel c Hset Hkind) in Hl. done.
  - destruct Hsrc as (Hs & _ & (Hacc & _ & _ & _ & Hparts & _) & [Hwe _ _ _]). destruct (Hwe Hend) as [He Hb].
    simpl in Hacc, Hparts. split_and!; [by apply sorted_perm_eq, Hk; [|apply seqZ_sorted]| | |done].
    + destruct Hparts as [?|(_ & _ & parts & part & -> & ? & _)]; [by apply trail_full|by apply trail_full_snoc].
    + unfold payload. rewrite decide_True by done. by rewrite Hacc, Hb, app_nil_r.
  - by apply Hseq; [apply Hsrc|].
Qed.

Lemma concat_nils {A} (l : list (list A)) : Forall (λ d, d = []) l → concat l = [].
Proof. induction 1 as [|d l -> _ IH]; [done|]. done. Qed.

(** The read at an index is sent exactly if it is one of the first. *)
Lemma sent_index (sent rest : list (list byte)) i d :
  sent ≠ [] → Forall (λ d, d = []) rest → Forall (λ d, d ≠ []) (tail sent) → (sent ++ rest) !! i = Some d →
  has_content_length c = false → ¬ skipped c (Z.of_nat i + 1) d ↔ (i < length sent)%nat.
Proof.
  intros Hne Hr Ht Hi Hl. destruct sent as [|d0 sent]; [done|]. simpl in Ht. split.
  - intros Hns. destruct (decide (i < length (d0 :: sent))%nat) as [?|Hge]; [done|]. destruct Hns. simpl in Hge.
    rewrite lookup_app_r in Hi by (simpl; lia). split_and!; [done|lia|]. rewrite Forall_lookup in Hr. by eapply Hr.
  - intros Hlt (_ & Hgt & ->). rewrite lookup_app_l in Hi by done. destruct i as [|i]; [simpl in Hgt; lia|]. simpl in Hi.
    rewrite Forall_lookup in Ht. by eapply Ht.
Qed.

Lemma final_unknown u : data_ok c content u → all_done u → has_content_length c = false →
  Forall has_etag (part_list (up_put u)) ∧ server_pieces u.
Proof using Hset.
  intros Hda Had Hl. unfold server_pieces. destruct (unknown_reads u Hda Had Hl) as (Hk & Htrail & Hcat & _).
  pose proof (da_length _ _ _ Hda) as Hlen. rewrite Hl in Hlen.
  destruct (decide ((up_reads u).*2 = [])) as [Hnil|Hne].
  { apply fmap_nil_inv in Hnil. rewrite Hnil in *.
    assert (part_list (up_put u) = []) as ->.
    { destruct Hlen as [?|(d & Hd & _)]; [done|by apply elem_of_nil in Hd]. }
    split; [constructor|]. exists []. split_and!; [done|done|congruence|done]. }
  destruct (trail_sent ps _ (proj1 (ps_size c Hset)) Htrail Hne) as (sent & rest & Happ & Hsent & Hrest & Htail).
  assert (∀ i d, (up_reads u).*2 !! i = Some d → ¬ skipped c (Z.of_nat i + 1) d ↔ (i < length sent)%nat) as Hidx.
  { intros i d Hi. rewrite Happ in Hi. by eapply sent_index. }
  assert (∀ k d, (k, d) ∈ up_reads u → ¬ skipped c k d → 1 ≤ k ≤ Z.of_nat (length sent) ∧ sent !! Z.to_nat (k - 1) = Some d) as Hin.
  { intros k d Hd Hns. destruct (reads_lookup _ _ _ _ Hk Hd) as [Hr Hi]. replace k with (Z.of_nat (Z.to_nat (k - 1)) + 1) in Hns by lia.
    apply (Hidx _ _ Hi) in Hns. split; [lia|]. rewrite Happ in Hi. by rewrite lookup_app_l in Hi. }
  assert (∀ k, 1 ≤ k ≤ Z.of_nat (length sent) → ∃ d, (k, d) ∈ up_reads u ∧ ¬ skipped c k d) as Hall.
  { intros k Hr. destruct (lookup_lt_is_Some_2 sent (Z.to_nat (k - 1)) ltac:(lia)) as [d Hd]. exists d.
    assert ((up_reads u).*2 !! Z.to_nat (k - 1) = Some d) as Hi by (rewrite Happ; by apply lookup_app_l_Some).
    pose proof (reads_elem _ _ _ _ Hk Hi) as Hd'. pose proof (proj2 (Hidx _ _ Hi) ltac:(lia)) as Hns.
    replace (Z.of_nat (Z.to_nat (k - 1)) + 1) with k in * by lia. done. }
  assert (length sent = length (part_list (up_put u))) as Hlens.
  { assert (Z.of_nat (length sent) ≤ Z.of_nat (length (part_list (up_put u)))).
    { assert (length sent ≠ O) by by destruct sent. destruct (Hall (Z.of_nat (length sent)) ltac:(lia)) as (d & Hd & Hns).
      destruct (done_entry u _ d Hda Had Hd Hns) as (info & etag & He & _). apply entry_lookup in He as [? _]; lia. }
    destruct Hlen as [Hz|(d & Hd & Hns)]; [rewrite Hz in *; simpl in *; lia|]. apply Hin in Hd; [lia|done]. }
  split; [by apply (entries_complete u (Z.of_nat (length sent))); [done|done|by rewrite Hlens|]|]. exists sent. split_and!; [done| | |].
  - by rewrite <-Hcat, Happ, concat_app, (concat_nils rest), app_nil_r.
  - congruence.
  - intros i d etag b Hi Hb. pose proof (lookup_lt_Some _ _ _ Hi) as Hlt.
    destruct (Hall (Z.of_nat i + 1) ltac:(lia)) as (d' & Hd & Hns). destruct (Hin _ _ Hd Hns) as [_ Hd'].
    replace (Z.to_nat (Z.of_nat i + 1 - 1)) with i in Hd' by lia. assert (d' = d) as -> by congruence.
    by eapply server_stands; [..|lia|exact Hd|exact Hns|exact Hb].
Qed.

Lemma final_of_data u : data_ok c content u → all_done u → server_object (up_server u) = None →
  (∀ r, r ∈ up_sent u → put_tag r ≠ TAG_COMPLETE_MULTIPART_UPLOAD) → final c content u.
Proof using Hset.
  intros Hda Had Ho Hc. assert (Forall has_etag (part_list (up_put u)) ∧ server_pieces u) as [He Hl].
  { destruct (has_content_length c) eqn:Hl; [by apply final_known|by apply final_unknown]. }
  split; [done|done| | |].
  - intros r Hr Ht. by destruct (Hc r).
  - by rewrite Ho.
  - intros Hk. by apply (unknown_reads u Hda Had (ps_writes c Hset Hk)).
Qed.

(** * Updates *)

Lemma no_parts_live u : tally TAG_PART (key <$> live u) = 0 → queued_parts u = [] ∧ sent_parts u = [].
Proof.
  intros Ht. assert (∀ r, r ∈ live u → ¬ is_part r) as Hno.
  { intros r Hr Hp. apply (tally_zero _ _ Ht (put_part_number r)). apply list_elem_of_fmap. exists r. split; [|done].
    unfold key. by rewrite Hp. }
  unfold live in Hno. split; (apply elem_of_nil_inv; intros r [Hp Hr]%list_elem_of_filter; apply (Hno r); [rewrite !elem_of_app; auto|done]).
Qed.

Lemma all_done_of_flags u : flags_ok c (up_put u) (finish_result (up_delivery u)) (key <$> live u) (key <$> up_requested u) (up_finished u) →
  ¬ more_parts c (up_put u) → parts_done c (up_put u) → all_done u.
Proof.
  intros Hfl Hm Hd. assert (tally TAG_PART (key <$> live u) = 0 ∧ (has_content_length c = true → started u = total)) as [Ht Htot].
  { pose proof (fl_parts _ _ _ _ _ _ Hfl). pose proof (fl_total _ _ _ _ _ _ Hfl). pose proof (tally_nonneg TAG_PART (key <$> live u)).
    unfold more_parts, parts_done, started in *. destruct (has_content_length c); [|by destruct Hd; split; [lia|]].
    split; [|intros _]; specialize (H1 eq_refl); lia. }
  destruct (no_parts_live u Ht). by split.
Qed.

Lemma ok_complete u : upload_ok c content u → up_finished u = false → finish_result (up_delivery u) = None →
  ¬ more_parts c (up_put u) → parts_done c (up_put u) → complete_multipart_upload_sent (up_put u) = false →
  let r := put_request_new c TAG_COMPLETE_MULTIPART_UPLOAD false false in
  let s := up_put u <| complete_multipart_upload_sent := true |> in
  flags_ok c s (finish_result (up_delivery u)) ((key <$> live u) ++ [key r]) ((key <$> up_requested u) ++ [key r]) (up_finished u) →
  upload_ok c content (u <| up_put := s |> <| up_queued ::= λ l, l ++ [r] |> <| up_requested ::= λ l, l ++ [r] |>).
Proof using Hset.
  intros Hok Hfin Hf Hm Hd Hc r s Hfl. pose proof (up_flags _ _ _ Hok) as Hflags.
  assert (final c content u) as Hfinal.
  { apply final_of_data; [by apply Hok|by apply all_done_of_flags|by apply Hok|].
    intros r' Hr' Ht. pose proof (sent_complete_live c content u r' Hok Hr' Ht). congruence. }
  assert (complete_multipart_upload_completed (up_put u) = false) as Hcc.
  { eapply flag_false; [|exact Hc]. apply Hflags. }
  destruct Hok. split; try done.
  - simpl. rewrite fmap_app. eapply flags_perm; [|exact Hfl]. symmetry. apply (live_asked u r s (up_delivery u)).
  - unfold queued_parts. simpl. rewrite queued_parts_snoc, decide_False by done. by rewrite app_nil_r.
  - unfold queued_parts. simpl. rewrite queued_parts_snoc, decide_False by done. by rewrite app_nil_r.
  - intros [_ ?]. done.
  - intros _. eapply final_frame; [exact Hfinal|done..].
Qed.
End final.
