(* ===== verification/PutPrepare.v ===== *)
(** Preparing requests keeps the invariant of an upload: what a read of the source delivers, and
    the part list with the part that was read. *)

From Stdlib Require Import Init.Byte Sorted.
From S2P Require Import Prelude AwsCommon ByteCursor HttpMessage Checksums ChecksumContext Listing BodyStream.
From S2P Require Import PriorityQueue PartMath Tracking Delivery DeliveryInv AutoRangedPut PutSystem PutInv PutData PutUpload.

(** * The part list *)

Lemma entry_set_part l k info k' : 1 ≤ k → 1 ≤ k' →
  entry (set_part l k info) k' = if decide (k' = k) then Some info else entry l k'.
Proof.
  intros Hk Hk'. unfold entry. rewrite set_part_lookup by done. destruct (decide (k' = k)) as [->|Hne]; [by rewrite decide_True|].
  rewrite decide_False by lia. destruct (l !! Z.to_nat (k' - 1)); [done|]. by case_decide.
Qed.

Lemma length_set_part l k info : 1 ≤ k → Z.of_nat (length (set_part l k info)) = Z.max (Z.of_nat (length l)) k.
Proof. intros Hk. unfold set_part. rewrite length_insert, length_app, length_replicate. lia. Qed.

Lemma sorted_lt_snoc (l : list Z) k : StronglySorted Z.lt l → (∀ k', k' ∈ l → k' < k) → StronglySorted Z.lt (l ++ [k]).
Proof.
  induction 1 as [|x l Hl IH Hx]; intros Hk; simpl; [by repeat constructor|]. constructor; [apply IH; set_solver|].
  apply list.Forall_app. split; [done|]. apply list.Forall_singleton. apply Hk. left.
Qed.

Lemma complete_payload_numbers l k payload : complete_payload l k = Ok payload → payload.*1 = seqZ k (Z.of_nat (length l)).
Proof.
  revert k payload. induction l as [|[info|] l IH]; intros k payload; simpl; [by intros [= <-]| |done].
  destruct (info_etag info); [|done]. destruct (complete_payload l (k + 1)) as [rest| |] eqn:Hr; [|done..]. simpl.
  intros [= <-]. rewrite fmap_cons, (IH _ _ Hr), (seqZ_cons k) by lia. simpl. f_equal. f_equal; lia.
Qed.

Section prepare.
Context `{B : !AwsByteCursor} `{H : !AwsHttpHeaders} `{D : !AwsDigest} `{X : !AwsXml} `{St : !AwsStreams} `{!AwsStreamsLaws St}.
Context `{M : !AwsMath} `{!AwsMathLaws M}.
Context {Q1 : AwsPriorityQueue s3_request part_number}.
Context {Q2 : AwsPriorityQueue delivery_tracking_record track_part_number}.
Context (c : put_config) (content : list byte) (Hset : put_setting c).
Implicit Types (u : upload) (r : put_request).

Notation ps := (put_part_size c).
Notation total := (total_num_parts_from_content_length c).

(** * What a read delivers *)

(** A read from a source that is read in order. *)
Record next_read u r (data : list byte) (at_end : bool) (rd : reader) : Prop := {
  nr_content : left u = data ++ stream_content (source rd);
  nr_length : Z.of_nat (length data) ≤ part_len c (put_part_number r);
  nr_known : has_content_length c = true → part_len c (put_part_number r) ≤ Z.of_nat (length data);
  nr_short : Z.of_nat (length data) < part_len c (put_part_number r) → at_end = true;
  nr_end : at_end = true → stream_content (source rd) = [];
}.

Definition read_result u r (data : list byte) (at_end : bool) (rd : reader) (w : async_write) : Prop :=
  match body_kind c with
  | BodyParallelStream =>
      data = piece c (left u) (put_part_number r) ∧ stream_content (source rd) = left u ∧ w = put_writes (up_put u)
  | BodyStream =>
      next_read u r data at_end rd ∧ w = put_writes (up_put u) ∧ next_read_offset (put_reader (up_put u)) ≤ next_read_offset rd ∧
      next_read_offset rd = (put_part_number r - 1) * ps
  | BodyAsyncStream => next_read u r data at_end rd ∧ w = put_writes (up_put u)
  | BodyAsyncWrites =>
      data = put_body r ∧ at_end = write_eof (put_writes (up_put u)) ∧
      w = snd (s_s3_meta_request_read_from_pending_async_writes (put_writes (up_put u)))
  end.

Lemma read_result_spec u r data at_end rd w : queued_ok c (part_list (up_put u)) r →
  part_read c (up_put u) r data at_end rd w → read_result u r data at_end rd w.
Proof using All.
  intros [Hbuf _] Hr. pose proof (part_len_pos c Hset (put_part_number r)) as Hlen. unfold read_result.
  destruct Hr as [stream data Hk Hs Hps|fuel data at_end rd w Hr Hle].
  { rewrite Hk. split_and!; [|done|done]. by apply Hps in Hs. }
  assert (body_kind c ≠ BodyAsyncWrites → put_body r = [] ∧ put_body_capacity r = 0) as Hempty.
  { intros Hk. by rewrite decide_False in Hbuf. }
  destruct (body_kind c) eqn:Hk; simpl in Hr.
  - destruct Hempty as [Hb Hc]; [done|]. rewrite Hc in Hr. simpl in Hr.
    destruct (aws_async_input_stream_read_to_fill _ _) as [s' res] eqn:Hf. injection Hr as <- <- ->.
    apply stream_fill_spec in Hf as (? & ? & ? & ?). done.
  - destruct Hempty as [Hb Hc]; [done|]. rewrite Hc in Hr. simpl in Hr.
    destruct (aws_parallel_input_stream_read _ _ _ _) as [rd' res] eqn:Hf. injection Hr as <- <- ->.
    apply parallel_read_spec in Hf as (Hd & ? & _); [|lia]. rewrite Z.min_id in Hd. done.
  - destruct (_ <? _); [done|]. by injection Hr as <- <- <- <-.
  - destruct Hempty as [Hb Hc]; [done|]. rewrite Hc in Hr. simpl in Hr. destruct (Z.ltb_spec ((put_part_number r - 1) * ps)
      (next_read_offset (put_reader (up_put u)))) as [|Hoff]; [done|].
    destruct (read_to_fill _ _ _ _ _) as [[s' [[data' eof']|]]|] eqn:Hf; [|done..]. injection Hr as <- <- <- <-.
    rewrite Hb in Hf. apply read_to_fill_spec in Hf as (? & ? & ? & ?); [|simpl; lia|done]. done.
Qed.

(** * A part that was prepared *)

(** The upload after [r], one of those that waited, was read. *)
Definition read_by u q1 r r' q2 (s : put_state) : upload :=
  u <| up_put := s |> <| up_queued := q1 ++ q2 |> <| up_sent ::= λ l, l ++ [r'] |>
    <| up_reads ::= λ l, l ++ [(put_part_number r', request_body r')] |>.

Lemma filter_middle (l1 l2 : list put_request) r :
  filter is_part (l1 ++ r :: l2) = filter is_part l1 ++ (if decide (is_part r) then [r] else []) ++ filter is_part l2.
Proof. rewrite list.filter_app. f_equal. unfold filter at 1. simpl. by case_decide. Qed.

Section part.
Context (u : upload) (q1 q2 : list put_request) (r r' : put_request) (data : list byte) (at_end : bool).
Context (rd : reader) (w : async_write) (s : put_state).
Context (Hq : up_queued u = q1 ++ r :: q2) (Hpart : is_part r) (Hpart' : is_part r').
Context (Hda : data_ok c content u) (Hk' : put_part_number r' = put_part_number r) (Hbody : request_body r' = data).
Notation noop := (put_was_previously_uploaded r || bool_decide (skipped c (put_part_number r) data)).
Context (Hnoop : put_is_noop r' = noop) (Hs : part_prepared (up_put u) r data at_end rd w noop s).
Context (Hcmp : compared c (up_put u) r data ∨ should_stream c = true ∧ compared c (up_put u) r []).
Context (Hread : read_result u r data at_end rd w) (Hnum : 1 ≤ put_part_number r ≤ started u).
Context (Htotal : has_content_length c = true → started u ≤ total) (Hmax : started u ≤ U32_MAX).
Notation k := (put_part_number r).
Notation u' := (read_by u q1 r r' q2 s).

Lemma noop_cases : noop = true ∨ noop = false.
Proof. destruct noop; auto. Qed.

Lemma part_queued : queued_parts u = filter is_part q1 ++ r :: filter is_part q2 ∧
  queued_parts u' = filter is_part q1 ++ filter is_part q2.
Proof using All.
  unfold queued_parts. simpl. by rewrite Hq, filter_middle, decide_True, list.filter_app.
Qed.

Lemma part_sent : sent_parts u' = sent_parts u ++ [r'].
Proof using All. unfold sent_parts. simpl. by rewrite queued_parts_snoc, decide_True. Qed.

Lemma part_unread : k ∉ (up_reads u).*1.
Proof using All.
  intros Hin. pose proof (NoDup_seqZ 1 (started u)) as Hnd. rewrite <-(da_keys _ _ _ Hda), (proj1 part_queued) in Hnd.
  apply list.NoDup_app in Hnd as (_ & Hdis & _). apply (Hdis k); [|done]. rewrite fmap_app. set_solver.
Qed.

Lemma part_keys : (put_part_number <$> queued_parts u') ++ (up_reads u').*1 ≡ₚ seqZ 1 (started u').
Proof using All.
  pose proof Hs as (info & _ & _ & Hs'). assert (started u' = started u) as -> by (unfold started; simpl; by rewrite Hs').
  rewrite <-(da_keys _ _ _ Hda), (proj1 part_queued), (proj2 part_queued). simpl. rewrite !fmap_app. simpl. rewrite Hk'.
  solve_Permutation.
Qed.

Lemma part_entry k2 : 1 ≤ k2 → ∃ info, (info_etag info = None ∧ info_was_previously_uploaded info = false) ∧
  entry (part_list s) k2 = if decide (k2 = k ∧ noop = false) then Some info else entry (part_list (up_put u)) k2.
Proof using All.
  intros Hk2. pose proof Hs as (info & Hi & Hi2 & Hs'). exists info. split; [done|]. rewrite Hs'. simpl.
  destruct noop_cases as [Hno|Hno]; rewrite Hno; [by rewrite decide_False by naive_solver|]. rewrite entry_set_part by lia.
  destruct (decide (k2 = k)); [by rewrite decide_True|by rewrite decide_False by naive_solver].
Qed.

(** The entry of a part that is not sent was there before. *)
Lemma part_checked info : put_was_previously_uploaded r = true → entry (part_list (up_put u)) k = Some info → checked c info data.
Proof using All.
  intros Hp He. assert (part_list (up_put u) !! Z.to_nat (k - 1) = Some (Some info)) as Hl.
  { unfold entry in He. destruct (part_list (up_put u) !! _) as [[?|]|]; by simplify_eq/=. }
  destruct Hcmp as [Hc|[Hss Hc]]; [left; by apply Hc|]. right. split; [done|]. by destruct (Hc Hp info Hl) as [-> _].
Qed.

Lemma part_read_entry : skipped c k data ∨ ∃ info, entry (part_list s) k = Some info ∧
  (info_etag info = None → put_is_noop r' = false) ∧ (info_was_previously_uploaded info = true → checked c info data).
Proof using All.
  destruct (part_entry k ltac:(lia)) as (info & [Hi Hi2] & He). rewrite Hnoop. destruct noop_cases as [Hno|Hno]; rewrite Hno in He |- *.
  - apply orb_true_iff in Hno as [Hprev|Hsk%bool_decide_eq_true]; [|by left]. right.
    destruct (da_queued _ _ _ Hda r) as [_ Hqp]; [rewrite (proj1 part_queued); set_solver|].
    destruct (Hqp Hprev) as [_ Hent]. rewrite decide_False in He by naive_solver.
    destruct (entry (part_list (up_put u)) k) as [info'|] eqn:Hent'; [|done]. exists info'. split; [by rewrite He|].
    split; [|by intros _; apply part_checked].
    intros Hnone. destruct (da_unread _ _ _ Hda k info' ltac:(lia) Hent' part_unread) as [[? ?] _]. congruence.
  - right. exists info. rewrite He, decide_True by done. split_and!; [done..|congruence].
Qed.

Lemma part_length : if has_content_length c then Z.of_nat (length (part_list s)) ≤ total
  else part_list s = [] ∨ ∃ d, (Z.of_nat (length (part_list s)), d) ∈ up_reads u' ∧ ¬ skipped c (Z.of_nat (length (part_list s))) d.
Proof using All.
  pose proof Hs as (info & _ & _ & Hs'). rewrite Hs'. simpl. pose proof (da_length _ _ _ Hda) as Hlen.
  destruct noop_cases as [Hno|Hno]; rewrite Hno.
  - destruct (has_content_length c) eqn:Hl; [done|]. destruct Hlen as [?|(d & Hd & Hns)]; [by left|]. right. exists d.
    split; [set_solver|done].
  - pose proof (length_set_part (part_list (up_put u)) k info ltac:(lia)) as Hls.
    destruct (has_content_length c) eqn:Hl; [specialize (Htotal eq_refl); lia|]. right. rewrite Hls.
    apply orb_false_iff in Hno as [_ Hno%bool_decide_eq_false].
    destruct (Z_lt_dec (Z.of_nat (length (part_list (up_put u)))) k) as [Hlt|Hge].
    + rewrite Z.max_r by lia. exists data. rewrite Hk', Hbody. split; [set_solver|done].
    + rewrite Z.max_l by lia. destruct Hlen as [Hz|(d & Hd & Hns)]; [rewrite Hz in Hge; simpl in Hge; lia|].
      exists d. split; [set_solver|done].
Qed.

(** A source that is read in order. *)
Lemma part_sequential : sequential_ok c content u → next_read u r data at_end rd → (∀ k2, k2 ∈ (up_reads u).*1 → k2 < k) →
  sequential_ok c content u'.
Proof using All.
  intros [Hsc Hss Hsk Hsl Hst Hsh Hse] [Hnc Hnl Hnk Hns Hne] Hlt. pose proof Hs as (info & _ & _ & Hs').
  assert (left u' = stream_content (source rd)) as Hleft by (unfold left; simpl; by rewrite Hs').
  assert (Z.of_nat (length data) ≤ ps) as Hdl by (pose proof (part_len_pos c Hset k); lia).
  assert (has_content_length c = false → Exists (short ps) (up_reads u).*2 → data = [] ∧ stream_content (source rd) = []) as Hstop.
  { intros Hl He. specialize (Hsh Hl He). rewrite Hsh in Hnc. symmetry in Hnc. by apply app_eq_nil in Hnc. }
  split; simpl; rewrite ?fmap_app, ?Hleft; simpl; rewrite ?Hk', ?Hbody.
  - rewrite concat_app. simpl. by rewrite app_nil_r, <-(assoc_L (++)), <-Hnc.
  - by apply sorted_lt_snoc.
  - intros Hl k2 d [?|[= -> ->]%list_elem_of_singleton]%elem_of_app; [auto|]. specialize (Hnk Hl). lia.
  - intros d [?| ->%list_elem_of_singleton]%elem_of_app; [auto|done].
  - intros Hl. apply trail_snoc; [auto|done| |done]. intros He. by apply Hstop.
  - intros Hl [He|Hd]%Exists_app; [by apply Hstop|]. apply Exists_cons in Hd as [Hd|Hd%Exists_nil]; [|done].
    apply Hne, Hns. unfold short in Hd. by rewrite part_len_unknown.
  - intros Hl He. apply Hne. by rewrite Hs' in He.
Qed.

Lemma part_alone : one_pending u → queued_parts u' = [] ∧ k = started u ∧ queued_parts u = [r].
Proof using All.
  destruct part_queued as [Hq1 Hq2]. rewrite Hq2. intros [Hnil|(r2 & Hr2 & Hn)].
  - rewrite Hq1 in Hnil. by apply app_eq_nil in Hnil as [_ ?].
  - rewrite Hq1 in *. destruct (filter is_part q1) as [|? [|]]; [|done..]. simpl in *. injection Hr2 as -> ->. done.
Qed.

Lemma part_keys_below k2 : k2 ∈ (up_reads u).*1 → 1 ≤ k2 ≤ started u ∧ k2 ≠ k.
Proof using All.
  intros Hin. split; [|intros ->; by apply part_unread].
  assert (k2 ∈ seqZ 1 (started u)) as Hin' by (rewrite <-(da_keys _ _ _ Hda); set_solver).
  apply elem_of_seqZ in Hin'. lia.
Qed.

Lemma part_source : source_ok c content u'.
Proof using All.
  pose proof (da_source _ _ _ Hda) as Hsrc. pose proof Hs as (info & _ & _ & Hs'). pose proof (ps_size c Hset) as Hps.
  pose proof Hread as Hres. revert Hres Hsrc. unfold read_result, source_ok. destruct (body_kind c) eqn:Hkind.
  - intros [Hnr _] [Hseq Hone]. destruct (part_alone Hone) as (Hnil & Hst & _). split; [|by left].
    apply part_sequential; [done..|]. intros k2 [? ?]%part_keys_below. lia.
  - intros (Hd & Hrd & _) [Hl Hall]. split.
    + unfold left. simpl. by rewrite Hs', <-Hl.
    + simpl. rewrite Hk', Hbody. intros k2 d [?|[= -> ->]%list_elem_of_singleton]%elem_of_app; [auto|]. by rewrite Hd, Hl.
  - intros (Hd & He & Hw) (Hss & Hone & Hwr & Hwk). destruct (part_alone Hone) as (Hnil & Hst & Hq1).
    split_and!.
    + simpl. rewrite fmap_app. simpl. rewrite Hk'. apply sorted_lt_snoc; [done|]. intros k2 [? ?]%part_keys_below. lia.
    + by left.
    + rewrite Hnil. simpl. rewrite fmap_app, Hs'. simpl. rewrite Hbody, Hw, Hd. rewrite Hq1 in Hwr. simpl in Hwr.
      exact (write_step_ok ps _ _ (step_read ps (mkWriting (put_writes (up_put u)) _ (Some _) _) _ eq_refl) Hwr).
    + simpl. rewrite Hs'. simpl. rewrite Hw, He. destruct Hwk. split; simpl; [done|auto|lia|done].
  - intros (Hnr & _ & Hoff & Hoff') [Hseq Hall].
    assert (∀ k2, k2 ∈ (up_reads u).*1 → k2 < k) as Hlt.
    { intros k2 Hin. destruct (part_keys_below k2 Hin) as [_ Hne]. apply list_elem_of_fmap in Hin as ([k3 d] & -> & Hin).
      specialize (Hall k3 d Hin). simpl in *. nia. }
    split; [by apply part_sequential|]. simpl. rewrite Hs'. simpl. rewrite Hk', Hoff'.
    intros k2 d [Hin|[= -> ->]%list_elem_of_singleton]%elem_of_app; [|lia].
    assert (k2 ∈ (up_reads u).*1) as Hin' by (apply list_elem_of_fmap; by exists (k2, d)). specialize (Hlt k2 Hin'). nia.
Qed.

Lemma part_entry_other k2 : 1 ≤ k2 → k2 ≠ k → entry (part_list s) k2 = entry (part_list (up_put u)) k2.
Proof using All. intros Hk2 Hne. destruct (part_entry k2 Hk2) as (info & _ & ->). by rewrite decide_False by naive_solver. Qed.

Lemma part_writes : body_kind c ≠ BodyAsyncWrites → put_writes s = put_writes (up_put u).
Proof using All.
  intros Hk2. pose proof Hs as (info & _ & _ & Hs'). rewrite Hs'. simpl. pose proof Hread as Hres. unfold read_result in Hres.
  destruct (body_kind c); [apply Hres..|done|apply Hres].
Qed.

Lemma data_prepared : data_ok c content u'.
Proof using All.
  pose proof Hs as (info & _ & _ & Hs'). destruct part_queued as [Hq1 Hq2].
  assert (part_list (up_put u') = part_list s) as Hpl by done.
  split.
  - rewrite Hq2. simpl. rewrite Hs'. simpl. rewrite (da_pending _ _ _ Hda), Hq1, !length_app. simpl length.
    rewrite wrap_small; [lia|].
    pose proof (keys_length c content u Hda ltac:(lia)) as Hle. rewrite Hq1, length_app in Hle. simpl in Hle.
    unfold uint, U32_MAX in *. lia.
  - apply part_keys.
  - rewrite Hq2, Hpl. intros r2 Hr2. assert (r2 ∈ queued_parts u) as Hr2' by (rewrite Hq1; set_solver).
    destruct (da_queued _ _ _ Hda r2 Hr2') as [Hb Hp]. split; [done|]. intros Hpr. destruct (Hp Hpr) as [? He].
    split; [done|]. assert (put_part_number r2 ∈ seqZ 1 (started u)) as Hin.
    { rewrite <-(da_keys _ _ _ Hda). apply elem_of_app. left. by apply list_elem_of_fmap_2. }
    apply elem_of_seqZ in Hin. destruct (part_entry (put_part_number r2) ltac:(lia)) as (i2 & _ & ->). destruct (decide (_ ∧ _)); [done|exact He].
  - rewrite part_sent. simpl. intros r2 [Hr2| ->%list_elem_of_singleton]%elem_of_app.
    + destruct (da_sent _ _ _ Hda r2 Hr2) as [Hr3 ?]. split; [set_solver|done].
    + split; [set_solver|]. rewrite Hnoop, Hk', Hbody. by intros [_ ?%bool_decide_eq_false]%orb_false_iff.
  - rewrite part_sent, Hpl. simpl. rewrite Hk', Hbody. intros k2 d [Hin|[= -> ->]%list_elem_of_singleton]%elem_of_app.
    + assert (k2 ∈ (up_reads u).*1) as [Hr2 Hne]%part_keys_below by (apply list_elem_of_fmap; by exists (k2, d)).
      rewrite part_entry_other by (done || lia).
      destruct (da_read _ _ _ Hda k2 d Hin) as [?|(i2 & Hi2 & Hi3 & Hi4)]; [by left|]. right. exists i2. split_and!; [done| |done].
      intros Hn. destruct (Hi3 Hn) as (r2 & ? & ?). exists r2. set_solver.
    + destruct part_read_entry as [?|(i2 & Hi2 & Hi3 & Hi4)]; [by left|]. right. exists i2. split_and!; [done| |done].
      intros Hn. exists r'. split_and!; [set_solver|done|auto].
  - rewrite Hpl. simpl. rewrite fmap_app. simpl. rewrite Hk'. intros k2 i2 Hk2 Hi2 Hn. assert (k2 ≠ k) by set_solver.
    rewrite part_entry_other in Hi2 by done. apply (da_unread _ _ _ Hda k2); [done..|set_solver].
  - rewrite Hpl. apply part_length.
  - simpl. intros k2 etag b i2 Hk2 Hb. destruct (part_entry k2 Hk2) as (i3 & [Hi3 _] & ->).
    destruct (decide (_ ∧ _)); [intros [= <-] [? ?]; congruence|]. intros Hi2 He.
    pose proof (da_server _ _ _ Hda k2 etag b i2 Hk2 Hb Hi2 He) as Hsv. destruct (info_was_previously_uploaded i2); [done|].
    set_solver.
  - apply part_source.
  - intros Hk2. simpl. rewrite part_writes by done. by apply Hda.
Qed.
End part.

(** * The steps *)

(** Also when it fails, preparing keeps the infos that are there. *)
Definition list_grows (l l' : list (option mpu_part_info)) (k : Z) : Prop :=
  l' = l ∨ ∃ info, info_was_previously_uploaded info = false ∧ l' = set_part l k info.

Lemma after_body_list (s : put_state) r at_end r' s' res :
  s_s3_new_upload_part_info_after_body c s r at_end = Ok (r', s', res) → list_grows (part_list s) (part_list s') (put_part_number r).
Proof.
  unfold s_s3_new_upload_part_info_after_body. cbv zeta. destruct (aws_assert c _) as [[]| |]; [|done..]. cbn [mbind res_bind].
  intros Hr%Ok_inj. apply (f_equal (λ x, snd (fst x))) in Hr. cbn [fst snd] in Hr. subst s'.
  destruct (put_was_previously_uploaded r); simpl; [by left|]. destruct (put_is_noop r); simpl; [by left|]. right. eexists. split; [|done]. done.
Qed.

Lemma on_read_done_list (s : put_state) r read r' s' res :
  s_s3_prepare_upload_part_on_read_done c s r read = Ok (r', s', res) → list_grows (part_list s) (part_list s') (put_part_number r).
Proof.
  unfold s_s3_prepare_upload_part_on_read_done. destruct read as [[data at_end]|e]; cbv zeta.
  - destruct (has_content_length c && _); 
      [intros Hr%upload_part_finish_spec; apply (f_equal (λ x, snd (fst x))) in Hr; cbn [fst snd] in Hr; subst; by left|].
    destruct (s_s3_new_upload_part_info_after_body _ _ _ _) as [[[r2 s2] checked]| |] eqn:Hr; [|done..]. cbn [mbind res_bind].
    intros Hfin. apply upload_part_finish_spec in Hfin as [= -> -> ->]. apply after_body_list in Hr.
    by destruct (negb (has_content_length c) && _).
  - intros Hfin. apply upload_part_finish_spec in Hfin as [= -> -> ->]. by left.
Qed.

Lemma prepare_list fuel (s : put_state) r part_stream review full_checksum message r' s' res :
  prepare c fuel s r part_stream review full_checksum message = Some (Ok (r', s', res)) →
  list_grows (part_list s) (part_list s') (put_part_number r).
Proof.
  intros Hp. pose proof (prepare_frame c fuel s r part_stream review full_checksum message r' s' res Hp) as (_ & _ & Hother & _).
  destruct (decide (put_tag r = TAG_PART)) as [Ht|Ht]; [|destruct (Hother Ht) as [x ->]; by left]. clear Hother.
  revert Hp. unfold prepare, s_s3_auto_ranged_put_prepare_request. cbv zeta.
  pose proof (scheduled_key c r) as Hkey. set (r0 := s_s3_auto_ranged_put_schedule_prepare_request c _) in *. clearbody r0.
  injection Hkey as Ht0 Hk0. rewrite Ht0, Ht, <-Hk0. unfold s_s3_prepare_upload_part.
  pose proof (compute_body_size_frame c r0) as (_ & Hk1 & _).
  destruct (s_compute_request_body_size c r0) as [r1 [[]|e]]; cbn [fst] in Hk1.
  - rewrite <-Hk1. destruct (put_fio_streaming r1).
    + destruct (part_stream _ _) as [data|].
      * destruct (s_s3_new_upload_part_info_after_body _ _ _ _) as [[[r2 s2] res2]| |] eqn:Ha; [|done..]. cbn [mbind res_bind].
        destruct (s_s3_prepare_upload_part_finish _ _ _ _) as [[[r3 s3] res3]| |] eqn:Hfin; [|done..]. intros [= _ <- _].
        apply upload_part_finish_spec in Hfin as [= -> -> ->]. by apply after_body_list in Ha.
      * intros [= _ <- _]. by left.
    + destruct (_ && negb _); [done|]. cbv zeta.
      destruct (aws_s3_meta_request_read_body _ _ _ _ _ _ _) as [[[rd w] read]|]; [|done].
      destruct (s_s3_prepare_upload_part_on_read_done _ _ _ _) as [[[r2 s2] res2]| |] eqn:Ha; [|done..]. intros [= _ <- _].
      apply on_read_done_list in Ha. by destruct (put_body_capacity r1 =? 0).
  - intros [= _ <- _]. by left.
Qed.

Lemma grows_entry l l' k k2 : 1 ≤ k → 1 ≤ k2 → list_grows l l' k → k2 ≠ k → entry l' k2 = entry l k2.
Proof. intros Hk Hk2 [->|(info & _ & ->)] Hne; [done|]. rewrite entry_set_part by done. by rewrite decide_False. Qed.

Lemma grows_previous l l' k k2 info : 1 ≤ k → 1 ≤ k2 → list_grows l l' k → entry l' k2 = Some info →
  info_was_previously_uploaded info = true → entry l k2 = Some info.
Proof.
  intros Hk Hk2 [->|(info' & Hp & ->)]; [done|]. rewrite entry_set_part by done. case_decide; [|done]. intros [= <-]. congruence.
Qed.

(** A request that waited moves to another list, with the same key. *)
Lemma queued_live u l1 r l2 : up_queued u = l1 ++ r :: l2 →
  key <$> live u ≡ₚ key r :: (key <$> (l1 ++ l2) ++ up_failed u ++ up_sent u).
Proof. intros Hq. unfold live. rewrite Hq, !fmap_app. simpl. solve_Permutation. Qed.

Lemma queued_part_live u l1 r l2 : upload_ok c content u → up_queued u = l1 ++ r :: l2 → is_part r →
  complete_multipart_upload_sent (up_put u) = false ∧ 1 ≤ put_part_number r ≤ started u ∧ started u ≤ U32_MAX - 1 ∧
  (has_content_length c = true → started u ≤ total).
Proof.
  intros Hok Hq Ht. pose proof (flags_perm _ _ _ _ _ _ _ (queued_live u l1 r l2 Hq) (up_flags _ _ u Hok)) as Hfl.
  split_and!; [by apply (part_live c _ _ _ _ _ _ Hfl Ht)| | | |].
  1, 2: apply (fl_numbers _ _ _ _ _ _ Hfl), elem_of_part_numbers; rewrite <-Ht; left.
  - apply (fl_bounds _ _ _ _ _ _ Hfl).
  - apply (fl_total _ _ _ _ _ _ Hfl).
Qed.

(** No two parts have the same number. *)
Lemma part_number_other u l1 r l2 r2 : upload_ok c content u → up_queued u = l1 ++ r :: l2 → is_part r →
  r2 ∈ (l1 ++ l2) ++ up_failed u ++ up_sent u → is_part r2 → 1 ≤ put_part_number r2 ∧ put_part_number r2 ≠ put_part_number r.
Proof.
  intros Hok Hq Ht Hin Ht2. pose proof (flags_perm _ _ _ _ _ _ _ (queued_live u l1 r l2 Hq) (up_flags _ _ u Hok)) as Hfl.
  assert (put_part_number r2 ∈ part_numbers (key <$> (l1 ++ l2) ++ up_failed u ++ up_sent u)) as Hn.
  { apply elem_of_part_numbers. apply list_elem_of_fmap. exists r2. split; [|done]. unfold key. by rewrite Ht2. }
  destruct (fl_numbers _ _ _ _ _ _ Hfl) as [Hnd Hr].
  assert (part_numbers (key r :: (key <$> (l1 ++ l2) ++ up_failed u ++ up_sent u)) =
    put_part_number r :: part_numbers (key <$> (l1 ++ l2) ++ up_failed u ++ up_sent u)) as Hcons.
  { unfold part_numbers, key. simpl. unfold is_part in Ht. by rewrite Ht, decide_True. }
  rewrite Hcons in *. split; [apply Hr; by right|]. intros Heq. rewrite Heq in Hn. by apply list.NoDup_cons in Hnd as [? _].
Qed.

(** The infos of the parts other than the one that was prepared. *)
Lemma previous_kept u l1 r l2 s : upload_ok c content u → up_queued u = l1 ++ r :: l2 → is_part r →
  list_grows (part_list (up_put u)) (part_list s) (put_part_number r) → ∀ r2, r2 ∈ filter is_part (l1 ++ l2) →
  put_was_previously_uploaded r2 = true →
  ∃ info, entry (part_list s) (put_part_number r2) = Some info ∧ info_was_previously_uploaded info = true.
Proof.
  intros Hok Hq Ht Hl r2 [Ht2 Hin]%list_elem_of_filter Hp. destruct (queued_part_live u l1 r l2 Hok Hq Ht) as (_ & ? & _).
  destruct (part_number_other u l1 r l2 r2 Hok Hq Ht) as [? ?]; [set_solver|done|].
  rewrite (grows_entry (part_list (up_put u)) _ (put_part_number r)) by (done || lia). apply (up_previous _ _ _ Hok); [|done].
  unfold queued_parts. apply list_elem_of_filter. split; [done|]. rewrite Hq. set_solver.
Qed.

Lemma infos_kept u l1 r l2 s : upload_ok c content u → up_queued u = l1 ++ r :: l2 → is_part r →
  list_grows (part_list (up_put u)) (part_list s) (put_part_number r) → ∀ r2, r2 ∈ sent_parts u → put_is_noop r2 = false →
  ∃ info, entry (part_list s) (put_part_number r2) = Some info ∧ info_etag info = None ∧
    info_was_previously_uploaded info = false.
Proof.
  intros Hok Hq Ht Hl r2 Hin Hno. pose proof Hin as [Ht2 Hin2]%list_elem_of_filter.
  destruct (queued_part_live u l1 r l2 Hok Hq Ht) as (_ & ? & _).
  destruct (part_number_other u l1 r l2 r2 Hok Hq Ht) as [? ?]; [set_solver|done|].
  rewrite (grows_entry (part_list (up_put u)) _ (put_part_number r)) by (done || lia). by apply (up_infos _ _ _ Hok).
Qed.

(** The flags after a request has moved. *)
Lemma flags_moved u u' l1 r l2 r' : upload_ok c content u → up_queued u = l1 ++ r :: l2 → key r' = key r →
  key <$> live u' ≡ₚ key r' :: (key <$> (l1 ++ l2) ++ up_failed u ++ up_sent u) →
  same_flags (up_put u) (up_put u') →
  (is_body_stream_at_end (up_put u') = is_body_stream_at_end (up_put u) ∨ complete_multipart_upload_sent (up_put u) = false) →
  result_grows (finish_result (up_delivery u)) (finish_result (up_delivery u')) →
  up_requested u' = up_requested u → up_finished u' = up_finished u →
  flags_ok c (up_put u') (finish_result (up_delivery u')) (key <$> live u') (key <$> up_requested u') (up_finished u').
Proof.
  intros Hok Hq Hk Hp Hs He Hg -> ->. eapply flags_grows; [|exact Hg]. eapply flags_same; [|exact Hs|exact He].
  eapply flags_perm; [|apply Hok]. by rewrite Hp, Hk, (queued_live u l1 r l2).
Qed.

Lemma same_flags_sent (s s' : put_state) : same_flags s s' →
  complete_multipart_upload_sent s' = complete_multipart_upload_sent s ∧
  complete_multipart_upload_completed s' = complete_multipart_upload_completed s ∧
  complete_multipart_upload_error_code s' = complete_multipart_upload_error_code s.
Proof. by intros (l & e & p & w & rd & x & ->). Qed.

Lemma ok_prepared_part u l1 r l2 fuel part_stream review full_checksum message r' s :
  upload_ok c content u → up_queued u = l1 ++ r :: l2 → is_part r → streams_part (left u) part_stream →
  prepare c fuel (up_put u) r part_stream review full_checksum message = Some (Ok (r', s, Success tt)) →
  upload_ok c content (read_by u l1 r r' l2 s).
Proof using All.
  intros Hok Hq Ht Hst Hp. destruct (queued_part_live u l1 r l2 Hok Hq Ht) as (Hc & Hk & Hmax & Htot).
  assert (queued_parts u = filter is_part l1 ++ r :: filter is_part l2) as Hqp.
  { unfold queued_parts. by rewrite Hq, filter_middle, decide_True. }
  destruct (up_buffers _ _ _ Hok r) as [Hfr _]; [rewrite Hqp; set_solver|].
  pose proof (prepare_frame c fuel _ r _ _ _ _ r' s _ Hp) as (Hkey & Hsf & _ & _).
  pose proof (same_flags_sent _ _ Hsf) as (Hc1 & Hc2 & Hc3).
  destruct (prepare_part_spec c Hset fuel (up_put u) r part_stream review full_checksum message r' s Ht Hfr)
    as (data & at_end & rd & w & Hread & Ht' & Hk' & Hb' & Hn' & Hs' & Hcmp); [unfold U32_MAX in *; lia|done|done|].
  assert (sent_parts (read_by u l1 r r' l2 s) = sent_parts u ++ [r']) as Hsp.
  { unfold sent_parts. simpl. by rewrite queued_parts_snoc, decide_True. }
  split.
  - eapply (flags_moved u _ l1 r l2 r'); try done; [|simpl; by right|by left]. unfold live. simpl. rewrite !fmap_app. simpl.
    solve_Permutation.
  - apply Hok.
  - intros r2 Hr2. apply (up_buffers _ _ _ Hok). rewrite Hqp. unfold queued_parts in Hr2. simpl in Hr2.
    rewrite list.filter_app in Hr2. set_solver.
  - unfold queued_parts. simpl. intros r2 Hr2 Hp2. eapply previous_kept; try done. by eapply prepare_list.
  - rewrite Hsp. simpl. intros r2 [Hr2| ->%list_elem_of_singleton]%elem_of_app Hno.
    + eapply infos_kept; try done. by eapply prepare_list.
    + rewrite Hno in Hn'. destruct Hs' as (info & He & Hpv & ->). simpl. rewrite <-Hn', Hk', entry_set_part, decide_True by (done || lia).
      by exists info.
  - simpl. intros k info Hk1 Hi Hpr. apply (up_resumed _ _ _ Hok k info Hk1); [|done].
    eapply grows_previous; [..|by eapply prepare_list|exact Hi|done]; lia.
  - intros [Hf _]. simpl in Hf. assert (data_ok c content u) as Hda by by apply Hok.
    assert (queued_ok c (part_list (up_put u)) r) as Hqo by (apply (da_queued _ _ _ Hda); rewrite Hqp; set_solver).
    apply (data_prepared u l1 l2 r r' data at_end rd w s Hq Ht Ht' Hda Hk' Hb' Hn' Hs'); [| |exact Hk|exact Htot|lia].
    + destruct Hcmp as [?|(Hkind & Hss & Hcb)]; [by left|right]. destruct Hqo as [Hbuf _].
      rewrite decide_False in Hbuf by congruence. by rewrite (proj1 Hbuf) in Hcb.
    + by apply read_result_spec.
  - simpl. rewrite Hc1. apply Hok.
  - simpl. rewrite Hc1, Hc. done.
  - simpl. rewrite Hc2, Hc3. apply Hok.
Qed.

Lemma filter_other (l1 l2 : list put_request) r : ¬ is_part r → filter is_part (l1 ++ r :: l2) = filter is_part (l1 ++ l2).
Proof. intros Hr. by rewrite filter_middle, decide_False, list.filter_app. Qed.

Lemma ok_prepared_other u l1 r l2 fuel part_stream review full_checksum message r' s :
  upload_ok c content u → up_queued u = l1 ++ r :: l2 → ¬ is_part r →
  prepare c fuel (up_put u) r part_stream review full_checksum message = Some (Ok (r', s, Success tt)) →
  upload_ok c content (u <| up_put := s |> <| up_queued := l1 ++ l2 |> <| up_sent ::= λ l, l ++ [r'] |>).
Proof.
  intros Hok Hq Ht Hp. pose proof (prepare_frame c fuel _ r _ _ _ _ r' s _ Hp) as (Hkey & Hsf & Hother & Hpay).
  destruct (Hother Ht) as [x ->]. clear Hother. set (u' := u <| up_put := _ |> <| up_queued := _ |> <| up_sent ::= _ |>).
  assert (¬ is_part r') as Ht' by (injection Hkey; unfold is_part in *; congruence).
  assert (queued_parts u' = queued_parts u) as Hqp.
  { unfold queued_parts. simpl. by rewrite Hq, filter_other. }
  assert (sent_parts u' = sent_parts u) as Hsp.
  { unfold sent_parts. simpl. by rewrite queued_parts_snoc, decide_False, app_nil_r. }
  split; try (rewrite ?Hqp, ?Hsp; apply Hok).
  - apply (flags_moved u u' l1 r l2 r'); try done; [|by left|by left]. unfold live. simpl. rewrite !fmap_app. simpl.
    solve_Permutation.
  - intros Hrun. apply (data_frame c content u); [|by apply Hok].
    unfold data_of, source_of. rewrite Hqp, Hsp. done.
  - intros Hc. destruct (up_final _ _ _ Hok Hc) as [He Hl Hparts Ho Hw]. split; [done|done| |done|done].
    simpl. intros r2 [Hr2| ->%list_elem_of_singleton]%elem_of_app Ht2; [auto|].
    apply complete_payload_numbers, Hpay; [|done]. injection Hkey; congruence.
Qed.

Lemma fail_result d e : finish_result (aws_s3_meta_request_set_fail_synced d e) ≠ None.
Proof. unfold aws_s3_meta_request_set_fail_synced. destruct (finish_result d) eqn:Hd; simpl; congruence. Qed.

Lemma ok_unprepared u l1 r l2 r' s e : upload_ok c content u → up_queued u = l1 ++ r :: l2 → key r' = key r →
  same_flags (up_put u) s → (¬ is_part r → ∃ x, s = up_put u <| put_full_object_checksum := x |>) →
  list_grows (part_list (up_put u)) (part_list s) (put_part_number r) →
  upload_ok c content (u <| up_put := s |> <| up_queued := l1 ++ l2 |> <| up_failed ::= λ l, l ++ [r'] |>
    <| up_delivery ::= λ d, aws_s3_meta_request_set_fail_synced d e |>).
Proof.
  intros Hok Hq Hkey Hsf Hother Hlist. pose proof (same_flags_sent _ _ Hsf) as (Hc1 & Hc2 & Hc3).
  set (u' := u <| up_put := s |> <| up_queued := _ |> <| up_failed ::= _ |> <| up_delivery ::= _ |>).
  split.
  - apply (flags_moved u u' l1 r l2 r'); try done; [| |apply grows_fail].
    + unfold live. simpl. rewrite !fmap_app. simpl. solve_Permutation.
    + destruct (decide (is_part r)) as [Hr|Hr]; [right; by apply (queued_part_live u l1 r l2 Hok Hq Hr)|].
      destruct (Hother Hr) as [x ->]. by left.
  - intros _. apply fail_result.
  - intros r2 Hr2. apply (up_buffers _ _ _ Hok). unfold queued_parts in *. simpl in Hr2. rewrite Hq, filter_middle.
    rewrite list.filter_app in Hr2. set_solver.
  - unfold queued_parts. simpl. intros r2 Hr2 Hp2. destruct (decide (is_part r)) as [Hr|Hr]; [by eapply previous_kept|].
    destruct (Hother Hr) as [x ->]. apply (up_previous _ _ _ Hok r2); [|done]. unfold queued_parts. by rewrite Hq, filter_other.
  - simpl. intros r2 Hr2 Hno. destruct (decide (is_part r)) as [Hr|Hr]; [by eapply infos_kept|].
    destruct (Hother Hr) as [x ->]. by apply (up_infos _ _ _ Hok r2).
  - simpl. intros k info Hk1 Hi Hpr. apply (up_resumed _ _ _ Hok k info Hk1); [|done].
    destruct (decide (is_part r)) as [Hr|Hr]; [|by destruct (Hother Hr) as [x ->]].
    destruct (queued_part_live u l1 r l2 Hok Hq Hr) as (_ & ? & _). eapply grows_previous; [..|exact Hlist|exact Hi|done]; lia.
  - intros [Hf _]. by destruct (fail_result (up_delivery u) e).
  - simpl. rewrite Hc1. apply Hok.
  - simpl. rewrite Hc1. intros Hc. destruct (decide (is_part r)) as [Hr|Hr].
    + destruct (queued_part_live u l1 r l2 Hok Hq Hr). congruence.
    + destruct (Hother Hr) as [x ->]. eapply final_frame; [by apply Hok|done..].
  - simpl. rewrite Hc2, Hc3. apply Hok.
Qed.
End prepare.
