(* ===== verification/PutSteps.v ===== *)
(** Every step of an upload keeps the invariant. *)

From Stdlib Require Import Init.Byte Sorted.
From S2P Require Import Prelude AwsCommon ByteCursor HttpMessage Checksums ChecksumContext Listing BodyStream.
From S2P Require Import PriorityQueue PartMath Tracking Delivery DeliveryInv AutoRangedPut PutSystem PutInv PutData PutUpload.
From S2P Require Import PutFinal PutPrepare.

Section steps.
Context `{B : !AwsByteCursor} `{H : !AwsHttpHeaders} `{D : !AwsDigest} `{X : !AwsXml} `{St : !AwsStreams} `{!AwsStreamsLaws St}.
Context `{M : !AwsMath} `{!AwsMathLaws M}.
Context {Q1 : AwsPriorityQueue s3_request part_number}.
Context {Q2 : AwsPriorityQueue delivery_tracking_record track_part_number}.
Context (c : put_config) (content : list byte) (Hset : put_setting c).
Implicit Types (u : upload) (r : put_request).

Notation ps := (put_part_size c).
Notation total := (total_num_parts_from_content_length c).

(** * Finished requests *)

(** What a finished request does to the parts and to the result. *)
Record finish_effect (s : put_state) (d : delivery) r (error : option aws_error) (resp : put_response) (s' : put_state)
    (d' : delivery) : Prop := {
  fe_same : put_num_parts_pending_read s' = put_num_parts_pending_read s ∧ put_num_parts_started s' = put_num_parts_started s ∧
    put_reader s' = put_reader s ∧ put_writes s' = put_writes s ∧ is_body_stream_at_end s' = is_body_stream_at_end s ∧
    complete_multipart_upload_sent s' = complete_multipart_upload_sent s;
  fe_result : finish_result d' = None → finish_result d = None;
  fe_list : match put_tag r with
    | TAG_LIST_PARTS =>
        if error then part_list s' = part_list s
        else listing_extends c (listed_parts (response_xml resp)) (part_list s) (part_list s')
    | TAG_PART => part_list s' = part_list s ∧ (put_is_noop r = true ∨ finish_result d' ≠ None) ∨
        error = None ∧ put_is_noop r = false ∧ ∃ etag, set_etag c (part_list s) (put_part_number r) etag = Ok (part_list s')
    | _ => part_list s' = part_list s
    end;
  fe_completed : complete_multipart_upload_completed s' = true → complete_multipart_upload_error_code s' = None →
    complete_multipart_upload_completed s = true ∧ complete_multipart_upload_error_code s = None ∨
    put_tag r = TAG_COMPLETE_MULTIPART_UPLOAD ∧ error = None;
}.

Lemma finished_spec (s : put_state) d r error resp s' d' :
  s_s3_auto_ranged_put_request_finished c s d r error resp = Ok (s', d') → finish_effect s d r error resp s' d'.
Proof.
  unfold s_s3_auto_ranged_put_request_finished. match goal with |- (?t ≫= _) = _ → _ => set (m := t) end.
  assert (∀ s1 d1, m = Ok (s1, d1) → finish_effect s d r error resp s1 d1) as Hm.
  { intros s1 d1. subst m. pose proof fail_result as Hfail. destruct (put_tag r) eqn:Ht.
    - intros Hf. apply list_parts_finished_frame in Hf as (l & token & more & e' & -> & Hl & d2 & Hd & Hd').
      split; simpl; rewrite ?Ht; try done; [|by left]. rewrite <-Hd. destruct Hd' as [->|[[_ ->]|[e ->]]]; [done| |by intros ?%Hfail].
      unfold aws_s3_meta_request_set_success_synced. destruct (finish_result d2) eqn:?; [congruence|done].
    - unfold create_finished. destruct error as [e|]; cbv zeta.
      + destruct (aws_assert c _) as [[]| |]; [|done..]. cbn [mbind res_bind].
        intros [= <- <-]. split; simpl; rewrite ?Ht; try done; [by intros ?%Hfail|by left].
      + destruct (aws_xml_get_body_at_path _ _) as [[|b id]|]; (destruct (aws_assert c _) as [[]| |]; [|done..]); cbn [mbind res_bind];
          intros [= <- <-]; split; simpl; rewrite ?Ht; try done;
          first [by left|by intros ?%Hfail].
    - intros Hf. apply upload_part_finished_frame in Hf as (noop & succ & nf & l & -> & Hd).
      split; simpl; rewrite ?Ht; try done; [| |by left].
      + destruct Hd as [(_ & _ & ->)|[(_ & _ & -> & _)|(_ & _ & e & ->)]]; [done..|by intros ?%Hfail].
      + destruct Hd as [(? & ? & _)|[(? & ? & _ & ?)|(_ & ? & e & ->)]]; [by left; auto|by right|left]. auto.
    - intros [= <- <-]. split; simpl; rewrite ?Ht; try done. by left.
    - intros Hf. apply complete_finished_frame in Hf as (headers & e & -> & -> & He).
      split; simpl; rewrite ?Ht; try done; [destruct e; [by intros ?%Hfail|done]|]. intros _ He'. right. auto. }
  destruct m as [[s1 d1]| |]; try done. simpl. intros [= <- <-]. destruct (Hm s1 d1 eq_refl) as [H1 H2 H3 H4].
  split; rewrite ?metrics_result; done.
Qed.

(** Only flags change. *)
Lemma ok_frame u u' : upload_ok c content u →
  flags_ok c (up_put u') (finish_result (up_delivery u')) (key <$> live u') (key <$> up_requested u') (up_finished u') →
  data_of u' = data_of u → (∀ r, r ∈ up_sent u' → r ∈ up_sent u) → (up_failed u' ≠ [] → up_failed u ≠ []) →
  up_server u' = up_server u → up_accepted u' = up_accepted u →
  (finish_result (up_delivery u') = None → finish_result (up_delivery u) = None) →
  complete_multipart_upload_sent (up_put u') = complete_multipart_upload_sent (up_put u) →
  (complete_multipart_upload_completed (up_put u') = true → complete_multipart_upload_error_code (up_put u') = None →
     server_object (up_server u) ≠ None) →
  upload_ok c content u'.
Proof.
  intros Hok Hfl Hd Hs Hf Hsv Ha Hr Hc Hcc. pose proof (data_of_list _ _ Hd) as Hl. pose proof (data_of_writes _ _ Hd) as Hw.
  assert (queued_parts u' = queued_parts u ∧ sent_parts u' = sent_parts u) as [Hq Hsp].
  { split; [by apply (f_equal (λ x, x.1.1.1.1.1.1.1)) in Hd|by apply (f_equal (λ x, x.1.1.1.2)) in Hd]. }
  split; rewrite ?Hq, ?Hsp, ?Hl, ?Hc, ?Hsv; [done| |apply Hok..| | | |done].
  - intros Hf' Hr'. by apply (up_failing _ _ _ Hok); auto.
  - intros [Hr' Hc']. apply (data_frame c content u); [done|]. apply Hok. split; [auto|congruence].
  - apply Hok.
  - intros Hc'. eapply final_frame; [by apply Hok|done|by rewrite Hsv|by rewrite Hsv|auto|done|by rewrite Hw].
Qed.

Lemma set_etag_spec l k etag l' : 1 ≤ k → set_etag c l k etag = Ok l' →
  length l' = length l ∧ ∃ info, entry l k = Some info ∧
    ∀ k2, 1 ≤ k2 → entry l' k2 = if decide (k2 = k) then Some (info <| info_etag := Some etag |>) else entry l k2.
Proof.
  intros Hk. unfold set_etag. destruct (l !! Z.to_nat (k - 1)) as [[info|]|] eqn:Hl; [|done..].
  destruct (aws_assert c _) as [[]| |]; [|done..]. intros [= <-].
  split; [by rewrite length_insert|]. exists info. split; [unfold entry; by rewrite Hl|]. intros k2 Hk2. unfold entry.
  destruct (decide (k2 = k)) as [->|Hne].
  - rewrite list_lookup_insert_eq; [done|]. by eapply lookup_lt_Some.
  - rewrite list_lookup_insert_ne by lia. done.
Qed.

Definition answered_by u (l1 l2 : list put_request) (s : put_state) (d : delivery) : upload :=
  u <| up_put := s |> <| up_delivery := d |> <| up_sent := l1 ++ l2 |>.

Lemma answered_live u l1 r l2 s d : up_sent u = l1 ++ r :: l2 → key <$> live u ≡ₚ key r :: (key <$> live (answered_by u l1 l2 s d)).
Proof. intros Hs. unfold live. simpl. rewrite Hs, !fmap_app. simpl. solve_Permutation. Qed.

Lemma answered_flags u l1 r l2 error resp s d : upload_ok c content u → up_sent u = l1 ++ r :: l2 →
  s_s3_auto_ranged_put_request_finished c (up_put u) (up_delivery u) r error resp = Ok (s, d) →
  flags_ok c s (finish_result d) (key <$> live (answered_by u l1 l2 s d)) (key <$> up_requested u) (up_finished u).
Proof.
  intros Hok Hs Hf. eapply flags_finished; [|exact Hf]. eapply flags_perm; [|apply Hok]. by apply answered_live.
Qed.

(** Before the earlier parts are listed there is no part. *)
Lemma listing_no_parts u r : upload_ok c content u → r ∈ live u → put_tag r = TAG_LIST_PARTS →
  complete_multipart_upload_sent (up_put u) = false ∧ started u = 0 ∧ queued_parts u = [] ∧ sent_parts u = [].
Proof.
  intros Hok Hr Ht. apply list_elem_of_split in Hr as (l1 & l2 & Hl). pose proof (up_flags _ _ _ Hok) as Hfl.
  assert (key <$> live u ≡ₚ key r :: (key <$> l1 ++ l2)) as Hp by (rewrite Hl, !fmap_app; simpl; solve_Permutation).
  pose proof (flags_perm _ _ _ _ _ _ _ Hp Hfl) as Hfl'.
  pose proof (live_b2z _ (key r) _ _ Ht (fl_list _ _ _ _ _ _ Hfl')) as [[_ Hcomp%negb_true_iff]%andb_true_iff _].
  assert (¬ created (up_put u)) as Hnc by (intros [(_ & _ & ?) _]; congruence).
  pose proof (fl_parts _ _ _ _ _ _ Hfl). pose proof (fl_bounds _ _ _ _ _ _ Hfl).
  pose proof (tally_nonneg TAG_PART (key <$> live u)). unfold started.
  assert (put_num_parts_started (up_put u) = 0) as Hz.
  { destruct (Z_lt_dec 0 (put_num_parts_started (up_put u))); [|lia]. by destruct Hnc, (fl_started _ _ _ _ _ _ Hfl). }
  split_and!; [|done|apply (no_parts_live u); lia..].
  destruct (complete_multipart_upload_sent (up_put u)) eqn:Hc; [|done]. by destruct Hnc, (fl_complete_sent _ _ _ _ _ _ Hfl Hc).
Qed.

(** Only an upload that resumes lists its parts. *)
Lemma listing_resumes u r : upload_ok c content u → r ∈ live u → put_tag r = TAG_LIST_PARTS → resumes c.
Proof.
  intros Hok (l1 & l2 & Hl)%list_elem_of_split Ht. pose proof (up_flags _ _ _ Hok) as Hfl.
  assert (key <$> live u ≡ₚ key r :: (key <$> l1 ++ l2)) as Hp by (rewrite Hl, !fmap_app; simpl; solve_Permutation).
  pose proof (live_b2z _ (key r) _ _ Ht (fl_list _ _ _ _ _ _ (flags_perm _ _ _ _ _ _ _ Hp Hfl)))
    as [[_ Hcomp%negb_true_iff]%andb_true_iff _].
  unfold resumes. destruct (put_resume_token c) eqn:Htok; [done|]. destruct (fl_new _ _ _ _ _ _ Hfl) as (_ & _ & ?); [|congruence].
  unfold resumes. rewrite Htok. intros Hn. by apply Hn.
Qed.

(** An info is from the listing, which is truthful, or was there before. *)
Lemma listing_entry u parts l k info : Forall (truthful c (up_server u)) parts →
  listing_extends c parts (part_list (up_put u)) l → 1 ≤ k → entry l k = Some info →
  entry (part_list (up_put u)) k = Some info ∨
  is_Some (info_etag info) ∧ info_was_previously_uploaded info = true ∧
  ∀ etag b, server_parts (up_server u) !! k = Some (etag, b) → describes c info b.
Proof.
  unfold entry. intros Htrue Hl Hk Hi. destruct (l !! Z.to_nat (k - 1)) as [[i|]|] eqn:Hl'; [|done..]. simplify_eq/=.
  destruct (le_new _ _ _ _ Hl _ _ Hl') as [->|(li & Hin & Hn & Hidx & He & Hp & Hsz & Hcs)]; [by left|right].
  split_and!; [done..|]. intros etag b Hb. rewrite list.Forall_forall in Htrue. destruct (Htrue li Hin Hn) as [Hr Hsv].
  assert (listed_part_number li = k) as Hk' by lia. rewrite Hk', Hb in Hsv. destruct Hsv as [Hsize Hsum].
  split; [congruence|]. intros context checksum Hc1 Hc2 _. destruct (Hcs context checksum Hc1 Hc2) as [Hne ->]. auto.
Qed.

Lemma listing_length u parts l : Forall (truthful c (up_server u)) parts → listing_extends c parts (part_list (up_put u)) l →
  0 ≤ total → Z.of_nat (length (part_list (up_put u))) ≤ total → Z.of_nat (length l) ≤ total.
Proof.
  intros Htrue Hl Ht Hle. apply (le_length _ _ _ _ Hl); [done|]. intros li Hin. rewrite list.Forall_forall in Htrue.
  destruct (Z.eq_dec (listed_part_number li) 0) as [->|Hn]; [done|]. by destruct (Htrue li Hin Hn) as [[_ ?] _].
Qed.

(** The data after a page: nothing but the infos of listed parts is new. *)
Lemma data_listed u u' parts : data_ok c content u → Forall (truthful c (up_server u)) parts →
  listing_extends c parts (part_list (up_put u)) (part_list (up_put u')) → started u = 0 → queued_parts u = [] → sent_parts u = [] →
  source_of u' = source_of u → sent_parts u' = [] → server_parts (up_server u') = server_parts (up_server u) →
  put_num_parts_pending_read (up_put u') = put_num_parts_pending_read (up_put u) → data_ok c content u'.
Proof using Hset.
  intros Hda Htrue Hlist Hz Hq Hsp Hsrc Hsp' Hsv Hpend.
  assert (up_reads u = []) as Hreads.
  { pose proof (da_keys _ _ _ Hda) as Hk. rewrite Hq, Hz in Hk. apply Permutation_nil_r in Hk. by apply fmap_nil_inv in Hk. }
  pose proof (source_frame c content u u' Hsrc (da_source _ _ _ Hda)) as Hsrc'.
  unfold source_of, started in Hsrc. injection Hsrc as Hq' Hrd' Hacc' Hst' Hrr' Hw' Hend'.
  pose proof (da_length _ _ _ Hda) as Hlen. destruct Hda. split; rewrite ?Hpend, ?Hq', ?Hrd', ?Hsp', ?Hw', ?Hsv; try done.
  - unfold started in *. by rewrite Hst'.
  - rewrite Hq. intros r2 Hr2. by apply elem_of_nil in Hr2.
  - intros r2 Hr2. by apply elem_of_nil in Hr2.
  - rewrite Hreads. intros k d' Hin. by apply elem_of_nil in Hin.
  - intros k info Hk He Hn. destruct (listing_entry u parts _ k info Htrue Hlist Hk He) as [?|(? & ? & _)]; [by eapply da_unread|done].
  - destruct (has_content_length c) eqn:Hl.
    + destruct (ps_known c Hset Hl) as (_ & ? & _). eapply listing_length; try done. lia.
    + left. destruct (ps_unknown c Hset Hl) as [_ Ht0].
      destruct Hlen as [Hnil|(d & Hd & _)]; [|rewrite Hreads in Hd; by apply elem_of_nil in Hd].
      pose proof (listing_length u parts _ Htrue Hlist ltac:(lia)) as Hle. rewrite Hnil in Hle. simpl in Hle.
      destruct (part_list (up_put u')); [done|]. simpl in Hle. lia.
  - intros k etag b info Hk Hb He Het. destruct (listing_entry u parts _ k info Htrue Hlist Hk He) as [?|(_ & -> & Hd)];
      [by eapply da_server|by eapply Hd].
Qed.

Lemma ok_answered_list u l1 r l2 error resp s d : upload_ok c content u → up_sent u = l1 ++ r :: l2 →
  put_tag r = TAG_LIST_PARTS →
  s_s3_auto_ranged_put_request_finished c (up_put u) (up_delivery u) r error resp = Ok (s, d) →
  (error = None → Forall (truthful c (up_server u)) (listed_parts (response_xml resp))) →
  upload_ok c content (answered_by u l1 l2 s d).
Proof using All.
  intros Hok Hs Ht Hf Htrue. pose proof (answered_flags u l1 r l2 error resp s d Hok Hs Hf) as Hfl.
  apply finished_spec in Hf as [(Hpend & Hst & Hrd & Hw & Hend & Hcs) Hres Hlist Hcc]. rewrite Ht in Hlist.
  assert (r ∈ live u) as Hlive by (unfold live; rewrite Hs; set_solver).
  destruct (listing_no_parts u r Hok Hlive Ht) as (Hc & Hz & Hq & Hsp).
  set (u' := answered_by u l1 l2 s d) in *. assert (sent_parts u' = []) as Hsp'.
  { unfold sent_parts in *. simpl. rewrite Hs, filter_other in Hsp by (unfold is_part; congruence). done. }
  assert (∃ parts, Forall (truthful c (up_server u)) parts ∧ listing_extends c parts (part_list (up_put u)) (part_list s))
    as (parts & Htruth & Hext).
  { destruct error; [exists []; rewrite Hlist; split; [constructor|apply listing_extends_refl]|]. eauto. }
  split; try done.
  - intros Hf' Hr. by apply (up_failing _ _ _ Hok); auto.
  - apply Hok.
  - change (queued_parts u') with (queued_parts u). rewrite Hq. intros r2 Hr2. by apply elem_of_nil in Hr2.
  - rewrite Hsp'. intros r2 Hr2. by apply elem_of_nil in Hr2.
  - intros _ _ _ _ _. by eapply listing_resumes.
  - intros [Hr _]. apply (data_listed u u' parts); try done; [by apply Hok; split; auto|].
    unfold source_of, started. simpl. by rewrite Hst, Hrd, Hw, Hend.
  - simpl. rewrite Hcs. apply Hok.
  - simpl. congruence.
  - intros H1 H2. destruct (Hcc H1 H2) as [[? ?]|[? _]]; [by apply (up_completed _ _ _ Hok)|congruence].
Qed.

(** The ETag of a part that was answered. *)
Lemma data_answered_part u l1 r l2 error resp s d : data_ok c content u → up_sent u = l1 ++ r :: l2 → is_part r →
  1 ≤ put_part_number r ≤ started u → finish_result d = None →
  (put_is_noop r = false → ∃ info, entry (part_list (up_put u)) (put_part_number r) = Some info ∧
     info_was_previously_uploaded info = false) →
  (error = None → put_is_noop r = false → snd <$> server_parts (up_server u) !! put_part_number r = Some (request_body r)) →
  finish_effect (up_put u) (up_delivery u) r error resp s d → data_ok c content (answered_by u l1 l2 s d).
Proof.
  intros Hda Hs Ht Hk Hr Hinfo Hans [(Hpend & Hst & Hrd & Hw & Hend & Hcs) Hres Hlist Hcc]. rewrite Ht in Hlist.
  set (u' := answered_by u l1 l2 s d).
  assert (sent_parts u = filter is_part l1 ++ r :: filter is_part l2 ∧ sent_parts u' = filter is_part l1 ++ filter is_part l2)
    as [Hsp Hsp'].
  { unfold sent_parts. simpl. by rewrite Hs, filter_middle, decide_True, list.filter_app. }
  assert (source_ok c content u') as Hsrc.
  { apply (source_frame c content u); [|by apply Hda]. unfold source_of, started. simpl. by rewrite Hst, Hrd, Hw, Hend. }
  assert (length (part_list s) = length (part_list (up_put u)) ∧ ∀ k, 1 ≤ k →
    entry (part_list s) k = entry (part_list (up_put u)) k ∧ (k = put_part_number r → put_is_noop r = true) ∨
    (k = put_part_number r ∧ put_is_noop r = false ∧ error = None) ∧ ∃ info, entry (part_list s) k = Some info ∧
      is_Some (info_etag info) ∧ info_was_previously_uploaded info = false) as [Hlen Hent].
  { destruct Hlist as [[-> [Hn|?]]|(-> & Hn & etag & He)]; [|done|].
    - split; [done|]. intros k _. by left.
    - apply set_etag_spec in He as [? (info & Hi & He)]; [|lia]. split; [done|]. intros k Hk2. rewrite He by done.
      destruct (decide (k = put_part_number r)); [right|by left]. split; [done|]. eexists. split_and!; [done|by eexists|].
      destruct (Hinfo Hn) as (info' & Hi' & Hpv). simpl. congruence. }
  destruct Hda as [Hp Hkeys Hqd Hst' Hrd' Hun Hle Hsv _ Hw'].
  split; try done; rewrite ?Hsp'; simpl; rewrite ?Hpend, ?Hw, ?Hlen; try done.
  - unfold started in *. simpl. by rewrite Hst.
  - change (queued_parts u') with (queued_parts u). intros r2 Hr2. destruct (Hqd r2 Hr2) as [Hb Hprev]. split; [done|].
    intros Hpr. destruct (Hprev Hpr) as [? He]. split; [done|].
    assert (put_part_number r2 ∈ seqZ 1 (started u)) as Hin%elem_of_seqZ.
    { rewrite <-Hkeys. apply elem_of_app. left. by apply list_elem_of_fmap_2. }
    destruct (Hent (put_part_number r2) ltac:(lia)) as [[-> _]|(_ & info & -> & _)]; done.
  - intros r2 Hr2. apply Hst'. rewrite Hsp. set_solver.
  - intros k dt Hin. assert (k ∈ seqZ 1 (started u)) as Hk2%elem_of_seqZ.
    { rewrite <-Hkeys. apply elem_of_app. right. apply list_elem_of_fmap. by exists (k, dt). }
    destruct (Hrd' k dt Hin) as [?|(info & He & Hn & Hch)]; [by left|]. right.
    destruct (Hent k ltac:(lia)) as [[He' Hno]|(_ & info' & He' & Hs' & Hpv)].
    + exists info. split_and!; [congruence| |done]. intros Hnone. destruct (Hn Hnone) as (r2 & Hr2 & Hk3 & Hno2). exists r2.
      split_and!; [|done|done]. rewrite Hsp in Hr2. assert (r2 ≠ r) by (intros ->; specialize (Hno (eq_sym Hk3)); congruence).
      set_solver.
    + exists info'. split_and!; [done| |congruence]. intros Hnone. rewrite Hnone in Hs'. by destruct Hs'.
  - intros k info Hk2 He Hn. destruct (Hent k Hk2) as [[He' _]|((-> & _) & _)]; [rewrite He' in He; by eapply Hun|].
    destruct Hn. destruct (Hst' r) as [Hin _]; [rewrite Hsp; set_solver|]. apply list_elem_of_fmap. by eexists (_, _).
  - destruct (has_content_length c); [done|]. destruct Hle as [Hz|?]; [left|by right]. apply length_zero_iff_nil. by rewrite Hlen, Hz.
  - intros k etag b info Hk2 Hb He Het. destruct (Hent k Hk2) as [[He' _]|((-> & Hno & Herr) & info' & He' & _ & Hpv)].
    + rewrite He' in He. by eapply Hsv.
    + assert (info = info') as -> by congruence. rewrite Hpv. pose proof (Hans Herr Hno) as Hbody. rewrite Hb in Hbody. simpl in Hbody.
      injection Hbody as ->. destruct (Hst' r) as [? ?]; [rewrite Hsp; set_solver|auto].
Qed.

(** The infos of the parts other than the one that was answered. *)
Lemma answered_number_other u l1 r l2 r2 : upload_ok c content u → up_sent u = l1 ++ r :: l2 → is_part r →
  r2 ∈ up_queued u ++ up_failed u ++ l1 ++ l2 → is_part r2 → 1 ≤ put_part_number r2 ∧ put_part_number r2 ≠ put_part_number r.
Proof.
  intros Hok Hs Ht Hin Ht2. set (rest := up_queued u ++ up_failed u ++ l1 ++ l2) in *.
  assert (key <$> live u ≡ₚ key r :: (key <$> rest)) as Hp by (unfold live, rest; rewrite Hs, !fmap_app; simpl; solve_Permutation).
  destruct (fl_numbers _ _ _ _ _ _ (flags_perm _ _ _ _ _ _ _ Hp (up_flags _ _ u Hok))) as [Hnd Hr].
  assert (put_part_number r2 ∈ part_numbers (key <$> rest)) as Hn.
  { apply elem_of_part_numbers, list_elem_of_fmap. exists r2. split; [|done]. unfold key. by rewrite Ht2. }
  assert (part_numbers (key r :: (key <$> rest)) = put_part_number r :: part_numbers (key <$> rest)) as Hcons.
  { unfold part_numbers, key. simpl. unfold is_part in Ht. by rewrite Ht, decide_True. }
  rewrite Hcons in *. split; [apply Hr; by right|]. intros Heq. rewrite Heq in Hn. by apply list.NoDup_cons in Hnd as [? _].
Qed.

Lemma ok_answered_part u l1 r l2 error resp s d : upload_ok c content u → up_sent u = l1 ++ r :: l2 → is_part r →
  s_s3_auto_ranged_put_request_finished c (up_put u) (up_delivery u) r error resp = Ok (s, d) →
  (error = None → put_is_noop r = false → snd <$> server_parts (up_server u) !! put_part_number r = Some (request_body r)) →
  upload_ok c content (answered_by u l1 l2 s d).
Proof.
  intros Hok Hs Ht Hf Hans. pose proof (answered_flags u l1 r l2 error resp s d Hok Hs Hf) as Hfl.
  apply finished_spec in Hf as Hfe. pose proof Hfe as [(Hpend & Hst & Hrd & Hw & Hend & Hcs) Hres Hlist Hcc].
  rewrite Ht in Hlist.
  assert (r ∈ sent_parts u) as Hin by (apply list_elem_of_filter; split; [done|rewrite Hs; set_solver]).
  destruct (sent_part_live c content u r Hok Hin) as [Hc Hk].
  assert (∀ k, 1 ≤ k → k ≠ put_part_number r → entry (part_list s) k = entry (part_list (up_put u)) k) as Hother.
  { intros k Hk2 Hne. destruct Hlist as [[-> _]|(_ & _ & etag & He)]; [done|].
    apply set_etag_spec in He as [_ (info & _ & He)]; [|lia]. rewrite He by lia. by rewrite decide_False. }
  split; try done.
  - intros Hf' Hr. by apply (up_failing _ _ _ Hok); auto.
  - apply Hok.
  - intros r2 [Ht2 Hr2]%list_elem_of_filter Hp. simpl in *.
    destruct (answered_number_other u l1 r l2 r2 Hok Hs Ht) as [? ?]; [set_solver|done|]. rewrite Hother by done.
    apply (up_previous _ _ _ Hok); [by apply list_elem_of_filter|done].
  - intros r2 [Ht2 Hr2]%list_elem_of_filter Hno. simpl in *.
    destruct (answered_number_other u l1 r l2 r2 Hok Hs Ht) as [? ?]; [set_solver|done|]. rewrite Hother by done.
    apply (up_infos _ _ _ Hok); [|done]. apply list_elem_of_filter. split; [done|]. rewrite Hs. set_solver.
  - simpl. intros k info Hk1 Hi Hp. destruct Hlist as [[Heq _]|(_ & _ & etag & He)]; [rewrite Heq in Hi; by eapply (up_resumed _ _ _ Hok)|].
    apply set_etag_spec in He as [_ (info' & Hi' & He)]; [|lia]. rewrite He in Hi by done. case_decide; [|by eapply (up_resumed _ _ _ Hok)].
    subst k. injection Hi as <-. by eapply (up_resumed _ _ _ Hok).
  - intros [Hr _]. simpl in Hr. apply (data_answered_part u l1 r l2 error resp s d); try done; [apply Hok; split; auto|].
    intros Hno. destruct (up_infos _ _ _ Hok r Hin Hno) as (info & ? & _ & ?). by exists info.
  - simpl. rewrite Hcs. apply Hok.
  - simpl. rewrite Hcs, Hc. done.
  - intros H1 H2. destruct (Hcc H1 H2) as [[? ?]|[? _]]; [by apply (up_completed _ _ _ Hok)|congruence].
Qed.

Lemma ok_answered_other u l1 r l2 error resp s d : upload_ok c content u → up_sent u = l1 ++ r :: l2 →
  ¬ is_part r → put_tag r ≠ TAG_LIST_PARTS →
  s_s3_auto_ranged_put_request_finished c (up_put u) (up_delivery u) r error resp = Ok (s, d) →
  (put_tag r = TAG_COMPLETE_MULTIPART_UPLOAD → error = None → server_object (up_server u) ≠ None) →
  upload_ok c content (answered_by u l1 l2 s d).
Proof.
  intros Hok Hs Hp Hl Hf Hans. pose proof (answered_flags u l1 r l2 error resp s d Hok Hs Hf) as Hfl.
  apply finished_spec in Hf as [(Hpend & Hst & Hrd & Hw & Hend & Hcs) Hres Hlist Hcc].
  assert (part_list s = part_list (up_put u)) as Hpl by (unfold is_part in Hp; by destruct (put_tag r)).
  apply (ok_frame u); try done.
  - unfold data_of, source_of, started, sent_parts. simpl. by rewrite Hpend, Hst, Hrd, Hw, Hend, Hpl, Hs, filter_other.
  - simpl. rewrite Hs. set_solver.
  - intros H1 H2. destruct (Hcc H1 H2) as [[? ?]|[? ?]]; [by apply (up_completed _ _ _ Hok)|auto].
Qed.

Lemma ok_answered u l1 r l2 error resp s d : upload_ok c content u → up_sent u = l1 ++ r :: l2 →
  s_s3_auto_ranged_put_request_finished c (up_put u) (up_delivery u) r error resp = Ok (s, d) →
  answers c u r error resp → upload_ok c content (answered_by u l1 l2 s d).
Proof using All.
  intros Hok Hs Hf Hans. unfold answers in Hans.
  destruct (decide (is_part r)) as [Hp|Hp]; [rewrite Hp in Hans; by eapply ok_answered_part|].
  destruct (decide (put_tag r = TAG_LIST_PARTS)) as [Hl|Hl]; [rewrite Hl in Hans; by eapply ok_answered_list|].
  eapply ok_answered_other; try done. intros Ht. by rewrite Ht in Hans.
Qed.

(** A request that could not be prepared: the upload has failed already. *)
Lemma ok_gave_up u l1 r l2 e resp s d : upload_ok c content u → up_failed u = l1 ++ r :: l2 →
  s_s3_auto_ranged_put_request_finished c (up_put u) (up_delivery u) r (Some e) resp = Ok (s, d) →
  upload_ok c content (u <| up_put := s |> <| up_delivery := d |> <| up_failed := l1 ++ l2 |>).
Proof.
  intros Hok Hs Hf. set (u' := u <| up_put := s |> <| up_delivery := d |> <| up_failed := l1 ++ l2 |>).
  assert (key <$> live u ≡ₚ key r :: (key <$> live u')) as Hp.
  { unfold live. simpl. rewrite Hs, !fmap_app. simpl. solve_Permutation. }
  pose proof (flags_perm _ _ _ _ _ _ _ Hp (up_flags _ _ _ Hok)) as Hfl0.
  pose proof (flags_finished c _ _ _ _ _ _ _ _ _ _ Hfl0 Hf) as Hfl.
  apply finished_spec in Hf as [(Hpend & Hst & Hrd & Hw & Hend & Hcs) Hres Hlist Hcc].
  assert (finish_result d ≠ None) as Hnone.
  { intros Hd%Hres. apply (up_failing _ _ _ Hok); [|done]. rewrite Hs. by destruct l1. }
  assert (r ∈ live u) as Hin by (unfold live; rewrite Hs; set_solver).
  assert (part_list s = part_list (up_put u)) as Hpl.
  { destruct (put_tag r); try done. by destruct Hlist as [[? _]|[? _]]. }
  split; try done.
  - apply Hok.
  - simpl. rewrite Hpl. apply Hok.
  - simpl. rewrite Hpl. apply Hok.
  - simpl. rewrite Hpl. apply Hok.
  - by intros [? _].
  - simpl. rewrite Hcs. apply Hok.
  - simpl. rewrite Hcs. intros Hc. eapply final_frame; [by apply Hok|done..|simpl; by rewrite Hw].
  - intros H1 H2. destruct (Hcc H1 H2) as [[? ?]|[_ ?]]; [by apply (up_completed _ _ _ Hok)|done].
Qed.

(** * Updates *)

Lemma ok_updated u conservative request s d : upload_ok c content u → up_finished u = false →
  put_num_parts_started (up_put u) < U32_MAX - 1 →
  s_s3_auto_ranged_put_update c (up_put u) (up_delivery u) conservative = Ok (true, request, s, d) →
  upload_ok c content (u <| up_put := s |> <| up_delivery := d |> <| up_queued ::= λ l, l ++ option_list request |>
    <| up_requested ::= λ l, l ++ option_list request |>).
Proof using All.
  intros Hok Hfin Hlt Hup. pose proof (update_spec c (up_put u) (up_delivery u) conservative) as Hout. rewrite Hup in Hout.
  pose proof (up_flags _ _ _ Hok) as Hflags. rewrite Hfin in Hflags.
  pose proof (flags_update c _ _ _ _ _ _ _ _ _ Hflags (or_introl Hlt) Hout) as Hfl. cbn [negb] in Hfl. rewrite <-Hfin in Hfl.
  inversion Hout; subst; cbn [option_list fmap list_fmap] in Hfl.
  1, 2, 3, 6: refine (ok_asked c content u _ _ Hok _ Hfl _ eq_refl eq_refl eq_refl); [done|];
    intros u' Hu Hq Hsn Hrd Hac Hsv; unfold data_of, source_of, started, queued_parts, sent_parts; rewrite Hu, Hq, Hsn, Hrd, Hac, Hsv; done.
  - refine (ok_next c content u _ _ conservative Hok Hfin _ Hlt _ _ _ Hfl); done.
  - refine (ok_complete c content Hset u Hok Hfin _ _ _ _ Hfl); done.
  - rewrite ?app_nil_r in Hfl. eapply ok_frame; [exact Hok|..]; try done; simpl; rewrite ?app_nil_r; try done.
    apply Hok.
Qed.

Lemma ok_ended u conservative s d : upload_ok c content u → up_finished u = false →
  s_s3_auto_ranged_put_update c (up_put u) (up_delivery u) conservative = Ok (false, None, s, d) →
  upload_ok c content (u <| up_put := s |> <| up_delivery := d |> <| up_finished := true |>).
Proof.
  intros Hok Hfin Hup. pose proof (update_spec c (up_put u) (up_delivery u) conservative) as Hout. rewrite Hup in Hout.
  pose proof (up_flags _ _ _ Hok) as Hflags. rewrite Hfin in Hflags.
  pose proof (flags_update c _ _ _ _ _ _ _ _ _ Hflags (or_intror eq_refl) Hout) as Hfl. cbn [negb option_list fmap list_fmap] in Hfl.
  rewrite !app_nil_r in Hfl. inversion Hout; subst.
  eapply ok_frame; [exact Hok|..]; try done; simpl; [|apply Hok].
  unfold aws_s3_meta_request_set_success_synced. destruct (finish_result (up_delivery u)) eqn:Hd; simpl; congruence.
Qed.

(** * All steps *)

Lemma ok_new s d parts :
  flags_ok c s None [] [] false → finish_result d = None → put_num_parts_started s = 0 → put_num_parts_pending_read s = 0 →
  part_list s = [] → put_writes s = no_writes → next_read_offset (put_reader s) = 0 → is_body_stream_at_end s = false →
  complete_multipart_upload_sent s = false → complete_multipart_upload_completed s = false →
  stream_content (source (put_reader s)) = content →
  upload_ok c content (upload_new s d parts).
Proof using Hset.
  intros Hfl Hd Hst Hpend Hl Hw Hoff Hend Hc Hcc Hcont. pose proof (ps_size c Hset) as Hps.
  split; simpl; rewrite ?Hd, ?Hl, ?Hc, ?Hcc; try done.
  - intros r Hr. by apply elem_of_nil in Hr.
  - intros r Hr. by apply elem_of_nil in Hr.
  - intros r Hr. by apply elem_of_nil in Hr.
  - intros _. split; simpl; rewrite ?Hl, ?Hst; try done.
    + unfold started. simpl. by rewrite Hst.
    + intros r Hr. by apply elem_of_nil in Hr.
    + intros r Hr. by apply elem_of_nil in Hr.
    + intros k b Hin. by apply elem_of_nil in Hin.
    + destruct (has_content_length c) eqn:Hlen; [|by left]. destruct (ps_known c Hset Hlen) as (_ & ? & _). simpl. lia.
    + assert (sequential_ok c content (upload_new s d parts)) as Hseq.
      { split; simpl; try done; [constructor|intros Hx k b Hin; by apply elem_of_nil in Hin|intros b Hin; by apply elem_of_nil in Hin|
          intros _ Hx; by inversion Hx|congruence]. }
      assert (one_pending (upload_new s d parts)) as Hone by by left.
      unfold source_ok. destruct (body_kind c) eqn:Hk; [done| | |].
      * split; [done|]. intros k b Hin. by apply elem_of_nil in Hin.
      * split_and!; [constructor|done| |]; simpl; rewrite Hw.
        -- unfold writing_ok. simpl. split_and!; auto using list.Forall_nil_2; try done. lia.
        -- rewrite Hend. split; simpl; try done. lia.
      * split; [done|]. intros k b Hin. by apply elem_of_nil in Hin.
Qed.

Context (accept : list (Z * list byte) → Z → list byte → option aws_error).
Context (checksum_update : list byte → list byte → option aws_error).
Context (dc : delivery_config).

Lemma put_step_ok u u' : put_step accept checksum_update c dc u u' → upload_ok c content u → upload_ok c content u'.
Proof using All.
  intros Hstep Hok. destruct Hstep.
  - by eapply ok_updated.
  - by eapply ok_ended.
  - case_decide as Ht; [by eapply ok_prepared_part|].
    pose proof (ok_prepared_other c content u _ _ _ _ _ _ _ _ _ _ Hok H0 Ht H2) as Hok'. eapply ok_frame; [exact Hok'|..]; try done; simpl.
    + apply Hok'.
    + unfold data_of, source_of. simpl. by rewrite app_nil_r.
    + apply Hok'.
  - pose proof (prepare_frame c fuel _ r _ _ _ _ r' s _ H1) as (Hkey & Hsf & Hother & _).
    eapply ok_unprepared; try done. by eapply prepare_list.
  - assert (upload_ok c content (u <| up_put := up_put u |> <| up_queued := l1 ++ l2 |> <| up_failed ::= λ l, l ++ [r] |>
      <| up_delivery ::= λ d, aws_s3_meta_request_set_fail_synced d e |>)) as Hok'; [|exact Hok'].
    eapply ok_unprepared; try done; [apply same_flags_refl| |by left].
    intros _. exists (put_full_object_checksum (up_put u)). by destruct (up_put u).
  - by eapply ok_served.
  - by eapply ok_answered.
  - by eapply ok_gave_up.
  - apply ok_delivery; [done|]. by eapply io_step_result.
  - by eapply ok_written.
  - eapply ok_reserved; try done. apply (ps_size c Hset).
Qed.
End steps.
