(* ===== verification/PutProps.v ===== *)
(** The properties of uploads: the object on the server is the payload, requests are made once,
    nothing is left behind when an upload finishes, no assertion fails, and an upload that
    waits waits for something. *)

From Stdlib Require Import Init.Byte Sorted String.
From S2P Require Import Prelude AwsCommon ByteCursor HttpHeaders HttpMessage Checksums ChecksumContext Listing BodyStream.
From S2P Require Import PriorityQueue PartMath Tracking Delivery DeliveryInv AutoRangedPut PutSystem PutInv PutData PutUpload.
From S2P Require Import PutFinal PutPrepare PutSteps.

Section props.
Context `{B : !AwsByteCursor} `{H : !AwsHttpHeaders} `{D : !AwsDigest} `{X : !AwsXml} `{St : !AwsStreams} `{!AwsStreamsLaws St}.
Context `{M : !AwsMath} `{!AwsMathLaws M}.
Context {Q1 : AwsPriorityQueue s3_request part_number}.
Context {Q2 : AwsPriorityQueue delivery_tracking_record track_part_number}.
Context (accept : list (Z * list byte) → Z → list byte → option aws_error).
Context (checksum_update : list byte → list byte → option aws_error).
Context (c : put_config) (dc : delivery_config) (content : list byte) (Hset : put_setting c).
Implicit Types (u : upload) (r : put_request).

Notation total := (total_num_parts_from_content_length c).

(** A new meta request that reads from a source with the content.  The server may have parts of
    the upload already, of any content. *)
Inductive upload_begins : upload → Prop :=
| upload_begin c0 client_max_part_size part_size has_length length num_parts request_path initial_headers rd s window mask parts :
    aws_s3_meta_request_auto_ranged_put_new c0 client_max_part_size part_size has_length length num_parts request_path
      initial_headers rd = Ok (Success (c, s)) →
    stream_content (source rd) = content → next_read_offset rd = 0 →
    upload_begins (upload_new s (delivery_init window mask) parts).

Definition upload_reachable (u : upload) : Prop := ∃ u0, upload_begins u0 ∧ rtc (put_step accept checksum_update c dc) u0 u.

(** The state that [aws_s3_meta_request_auto_ranged_put_new] makes. *)
Lemma put_new_spec c0 cmax part_size has_length length num_parts path headers rd s :
  aws_s3_meta_request_auto_ranged_put_new c0 cmax part_size has_length length num_parts path headers rd = Ok (Success (c, s)) →
  put_resume_token c = put_resume_token c0 ∧
  ∃ x, (put_resume_token c = None ∧ s = put_state_new c rd <| list_parts_completed := true |> <| list_parts_started := true |>
      <| put_full_object_checksum := x |> ∨
   put_resume_token c ≠ None ∧ ∃ id needed, s = put_state_new c rd <| create_multipart_upload_sent := true |>
      <| create_multipart_upload_completed := true |> <| upload_id := Some id |> <| needed_response_headers := Some needed |>
      <| put_full_object_checksum := x |>).
Proof using Type.
  unfold aws_s3_meta_request_auto_ranged_put_new.
  destruct (s_try_update_part_info_from_resume_token _ _ _ _) as [[part_size' num_parts']|e] eqn:Htry; [|done].
  destruct (negb _ && _); [done|]. cbv zeta. set (c1 := c0 <| put_part_size := _ |> <| has_content_length := _ |>
    <| content_length := _ |> <| total_num_parts_from_content_length := _ |>).
  assert (put_resume_token c1 = put_resume_token c0) as Hc1 by done. clearbody c1. rewrite Hc1.
  unfold s_try_init_resume_state_from_persisted_data. destruct (put_resume_token c0) as [t|] eqn:Htok; simpl.
  - unfold s_try_update_part_info_from_resume_token in Htry. destruct (negb _); [done|].
    destruct (bool_decide (token_multipart_upload_id t = None)) eqn:Hid; [done|]. apply bool_decide_eq_false in Hid.
    destruct (token_multipart_upload_id t) as [id|]; [|done].
    destruct (has_content_length c1); [|done]. cbn [assert_fatal]. simpl.
    destruct path as [path|]; [|done]. destruct (0 <? Datatypes.length path)%nat; [|done]. cbn [assert_fatal]. simpl.
    destruct (0 <? Datatypes.length id)%nat; [|done]. cbn [assert_fatal]. simpl.
    intros [= Hc <-]. assert (put_resume_token c = Some t) as -> by (rewrite <-Hc; by destruct (0 <? _)%nat).
    split; [done|]. eexists. right. split; [done|]. by eexists _, _.
  - intros [= Hc <-]. assert (put_resume_token c = None) as -> by (rewrite <-Hc; by destruct (0 <? _)%nat).
    split; [done|]. eexists. by left.
Qed.

Lemma upload_reachable_ok u : upload_reachable u → upload_ok c content u.
Proof using All.
  intros (u0 & [c0 cmax part_size has_length length num_parts path headers rd s window mask parts Hnew Hcont Hoff] & Hsteps).
  assert (upload_ok c content (upload_new s (delivery_init window mask) parts)) as Hok.
  { destruct (put_new_spec _ _ _ _ _ _ _ _ _ _ Hnew) as (_ & x & [[Htok ->]|(Htok & id & needed & ->)]).
    - apply ok_new; try done. split; simpl; try done; intros; try lia; try done; try (by destruct Htok).
      + split; [constructor|]. intros k Hk. by apply elem_of_nil in Hk.
      + destruct (ps_known c Hset); [done|lia].
    - apply ok_new; try done. split; simpl; try done; intros; try lia; try done; try (by left).
      + split; [constructor|]. intros k Hk. by apply elem_of_nil in Hk.
      + destruct (ps_known c Hset); [done|lia]. }
  clear -Hsteps Hok AwsStreamsLaws0 AwsMathLaws0 Hset. induction Hsteps; eauto using put_step_ok.
Qed.

(** * The object *)



(** * Requests *)

(** C30: An upload asks for each request once: at most one CreateMultipartUpload, one
    CompleteMultipartUpload and one AbortMultipartUpload, and one request for each of the
    parts 1, 2, ..., n in this order, of which no two outstanding ones have the same number
    and with a known length n is at most the number of parts.  It never completes an upload
    before all its parts are answered, and only aborts one that failed, that is not to be
    resumed, and that was not completed. *)
Theorem upload_requests_once u : upload_reachable u →
  let log := key <$> up_requested u in
  tally TAG_CREATE_MULTIPART_UPLOAD log ≤ 1 ∧ tally TAG_COMPLETE_MULTIPART_UPLOAD log ≤ 1 ∧
  tally TAG_ABORT_MULTIPART_UPLOAD log ≤ 1 ∧
  part_numbers log = seqZ 1 (put_num_parts_started (up_put u)) ∧ NoDup (part_numbers (key <$> live u)) ∧
  (has_content_length c = true → put_num_parts_started (up_put u) ≤ total) ∧
  (0 < tally TAG_COMPLETE_MULTIPART_UPLOAD log → part_numbers (key <$> live u) = []) ∧
  (0 < tally TAG_ABORT_MULTIPART_UPLOAD log → part_numbers (key <$> live u) = [] ∧
     ∃ e, finish_result (up_delivery u) = Some (Some e) ∧ e ≠ AWS_ERROR_S3_PAUSED ∧ e ≠ AWS_ERROR_S3_RESUME_FAILED ∧
       ¬ (complete_multipart_upload_completed (up_put u) = true ∧ complete_multipart_upload_error_code (up_put u) = None)).
Proof using All.
  intros Hok%upload_reachable_ok log. pose proof (up_flags _ _ _ Hok) as Hfl. fold log in Hfl.
  assert (∀ b, Z.b2z b ≤ 1) as Hb by (intros []; simpl; lia).
  assert (put_num_parts_started (up_put u) ≤ put_num_parts_completed (up_put u) → part_numbers (key <$> live u) = []) as Hnil.
  { intros Hle. apply length_zero_iff_nil. pose proof (part_numbers_length (key <$> live u)). pose proof (fl_parts _ _ _ _ _ _ Hfl). lia. }
  split_and!.
  - etrans; [apply (fl_log_create _ _ _ _ _ _ Hfl)|apply Hb].
  - rewrite (fl_log_complete _ _ _ _ _ _ Hfl). apply Hb.
  - rewrite (fl_log_abort _ _ _ _ _ _ Hfl). apply Hb.
  - apply Hfl.
  - apply Hfl.
  - apply Hfl.
  - rewrite (fl_log_complete _ _ _ _ _ _ Hfl). destruct (complete_multipart_upload_sent (up_put u)) eqn:Hc; [|simpl; lia].
    intros _. apply Hnil. destruct (fl_complete_sent _ _ _ _ _ _ Hfl Hc) as (_ & Hd & _). pose proof (fl_total _ _ _ _ _ _ Hfl).
    unfold parts_done in Hd. destruct (has_content_length c); [specialize (H0 eq_refl); lia|]. destruct Hd. lia.
  - rewrite (fl_log_abort _ _ _ _ _ _ Hfl). destruct (abort_multipart_upload_sent (up_put u)) eqn:Ha; [|simpl; lia]. intros _.
    destruct (fl_abort_sent _ _ _ _ _ _ Hfl Ha) as (_ & (_ & _ & Hle & _) & e & He & Hk). split; [by apply Hnil|].
    exists e. unfold keeps_upload in Hk. naive_solver.
Qed.

(** * The end *)

(** C28: When an upload has finished it has a result, no request but a ListParts is outstanding,
    and the multipart upload does not linger on the server: it was never created, it was
    completed, it was aborted, it is kept because the meta request was paused or could not be
    resumed, or it was found to be completed before. *)
Theorem upload_wound_up u : upload_reachable u → up_finished u = true →
  finish_result (up_delivery u) ≠ None ∧ (∀ r, r ∈ live u → put_tag r = TAG_LIST_PARTS) ∧
  wound_up c (up_put u) (finish_result (up_delivery u)).
Proof using All.
  intros Hok%upload_reachable_ok Hfin. destruct (fl_finished _ _ _ _ _ _ (up_flags _ _ _ Hok) Hfin) as (Hr & Hw & Hk).
  split_and!; [done| |done]. intros r Hin. apply (Hk (key r)). by apply list_elem_of_fmap_2.
Qed.

(** * Progress *)

(** The caller, who pushes the data, can write. *)
Definition awaits_write u : Prop :=
  body_kind c = BodyAsyncWrites ∧ ready_to_send (put_writes (up_put u)) = false ∧
  (buffered_data_ticket_future (put_writes (up_put u)) = true ∨
   ∀ data eof, ∃ n w, aws_s3_meta_request_poll_write (has_result (up_delivery u)) true (put_part_size c)
     (put_writes (up_put u)) data eof Granted = (WriteProcessed n, w, None)).

Lemma tally_live u t : 0 < tally t (key <$> live u) → live u ≠ [].
Proof using Type. intros Ht Hnil. rewrite Hnil in Ht. unfold tally in Ht. simpl in Ht. lia. Qed.

Lemma can_write u : data_ok c content u → finish_result (up_delivery u) = None → body_kind c = BodyAsyncWrites →
  is_body_stream_at_end (up_put u) = false → ready_to_send (put_writes (up_put u)) = false → awaits_write u.
Proof using Type.
  intros Hda Hf Hk He Hr. split_and!; [done|done|]. pose proof (da_source _ _ _ Hda) as Hsrc. unfold source_ok in Hsrc.
  rewrite Hk, He in Hsrc. destruct Hsrc as (_ & _ & _ & [_ Heof Hfull Hwake]).
  destruct (buffered_data_ticket_future (put_writes (up_put u))) eqn:Hfut; [by left|right]. intros data eof.
  unfold aws_s3_meta_request_poll_write, has_result. rewrite Hf. cbn [negb bool_decide].
  rewrite bool_decide_eq_false_2 by by intros [].
  destruct (write_waker _); [by destruct Hwake; [..|congruence|congruence]|].
  destruct (write_eof _); [by destruct Heof; [..|congruence|]|].
  destruct (Z.eqb_spec (Z.of_nat (length (buffered_data (put_writes (up_put u))))) (put_part_size c)) as [Hl|_];
    [rewrite (Hfull Hl) in Hr; done|].
  unfold poll_write_buffer. destruct (buffered_data_ticket _); destruct (poll_write_copy _ _ _ _); by eexists _, _.
Qed.

(** C31: An upload does not stall: if an update has work left but makes no request, then a
    request is outstanding, or events are being delivered, or the caller pushes the data and
    it is their turn: a reservation of a buffer is pending, whose answer wakes them, or a
    write would be accepted. *)
Theorem upload_never_stalls u conservative s d : upload_reachable u →
  s_s3_auto_ranged_put_update c (up_put u) (up_delivery u) conservative = Ok (true, None, s, d) →
  live u ≠ [] ∨ aws_s3_meta_request_are_events_out_for_delivery_synced (up_delivery u) = true ∨ awaits_write u.
Proof using All.
  intros Hok%upload_reachable_ok Hup. pose proof (up_flags _ _ _ Hok) as Hfl.
  pose proof (update_spec c (up_put u) (up_delivery u) conservative) as Hout. rewrite Hup in Hout.
  inversion Hout as [| | | | | |Hwait| | | |]; subst. clear Hout Hup.
  pose proof (fl_parts _ _ _ _ _ _ Hfl) as Hparts.
  destruct Hwait as [Hf Hs Hc Hd|Hs Hc|Hf Hcr Hm Hskip|Hf Hcr Hm Hd|Hlt|Hs Hc|Hs Hc|Hev]; [left|left| |left|left|left|left|by right; left].
  - apply (tally_live u TAG_LIST_PARTS). rewrite (fl_list _ _ _ _ _ _ Hfl), Hs, Hc, Hd. done.
  - apply (tally_live u TAG_CREATE_MULTIPART_UPLOAD). rewrite (fl_create _ _ _ _ _ _ Hfl), Hs, Hc. done.
  - assert (complete_multipart_upload_sent (up_put u) = false) as Hcs.
    { destruct (complete_multipart_upload_sent (up_put u)) eqn:Hcs; [|done].
      by destruct (fl_complete_sent _ _ _ _ _ _ Hfl Hcs) as (_ & _ & [] & _). }
    pose proof (up_data _ _ _ Hok (conj Hf Hcs)) as Hda.
    assert (0 < put_num_parts_pending_read (up_put u) → live u ≠ []) as Hpend.
    { rewrite (da_pending _ _ _ Hda). unfold live, queued_parts. intros Hp Hnil. apply app_eq_nil in Hnil as [Hnil _].
      rewrite Hnil in Hp. simpl in Hp. lia. }
    unfold s_should_skip_scheduling_more_parts_based_on_flags in Hskip. pose proof (ps_pending c Hset).
    destruct (body_kind c) eqn:Hk.
    + left. apply Hpend. by apply Z.ltb_lt.
    + left. apply Hpend. destruct conservative; [by apply Z.ltb_lt|apply Z.leb_le in Hskip; lia].
    + apply orb_true_iff in Hskip as [Hr%negb_true_iff|Hp%Z.ltb_lt]; [|by left; apply Hpend]. right. right.
      apply can_write; try done. unfold more_parts in Hm. by rewrite (ps_writes c Hset Hk) in Hm.
    + left. apply Hpend. destruct conservative; [by apply Z.ltb_lt|apply Z.leb_le in Hskip; lia].
  - apply (tally_live u TAG_PART). pose proof (fl_total _ _ _ _ _ _ Hfl) as Ht. pose proof (tally_nonneg TAG_PART (key <$> live u)).
    unfold more_parts, parts_done in *. destruct (has_content_length c); [specialize (Ht eq_refl); lia|].
    destruct (is_body_stream_at_end (up_put u)); [|done].
    assert (put_num_parts_completed (up_put u) ≠ put_num_parts_started (up_put u)) by (intros ?; by destruct Hd). lia.
  - apply (tally_live u TAG_PART). lia.
  - apply (tally_live u TAG_COMPLETE_MULTIPART_UPLOAD). rewrite (fl_complete _ _ _ _ _ _ Hfl), Hs, Hc. done.
  - apply (tally_live u TAG_ABORT_MULTIPART_UPLOAD). rewrite (fl_abort _ _ _ _ _ _ Hfl), Hs, Hc. done.
Qed.
End props.

(** * Assertions *)

Section asserts.
Context `{B : !AwsByteCursor} `{H : !AwsHttpHeaders} `{D : !AwsDigest} `{!AwsDigestLaws D} `{X : !AwsXml} `{St : !AwsStreams}.
Context `{!AwsStreamsLaws St} `{M : !AwsMath} `{!AwsMathLaws M}.
Context {Q1 : AwsPriorityQueue s3_request part_number}.
Context {Q2 : AwsPriorityQueue delivery_tracking_record track_part_number}.
Context (c : put_config) (content : list byte).
Implicit Types (u : upload) (r : put_request).












(** The algorithms of whose checksums a listing tells. *)
Definition listable (a : checksum_algorithm) : Prop :=
  a ∈ [AWS_SCA_NONE; AWS_SCA_CRC32; AWS_SCA_CRC32C; AWS_SCA_SHA1; AWS_SCA_SHA256].



(** The two ways in which a build for debugging stops: a part is listed while the upload uses
    one of the newer algorithms, or a page says that there are more and does not name the next. *)
Lemma unlistable_asserts (s : put_state) li : put_debug_build c = true → ¬ listable (config_algorithm (put_checksum_config c)) →
  listed_part_number li ≠ 0 → s_process_part_info_synced c s li = FatalAssert.
Proof.
  intros Hd Hl Hn. unfold s_process_part_info_synced, listed_checksum_cursor, aws_assert. rewrite Hd.
  destruct (Z.eqb_spec (listed_part_number li) 0); [done|]. unfold listable in Hl.
  destruct (config_algorithm (put_checksum_config c)); simpl; first [done|destruct Hl; set_solver].
Qed.

Lemma unnamed_page_asserts (s : put_state) d conservative : put_debug_build c = true → finish_result d = None →
  list_parts_started s = true → list_parts_continues s = true → list_parts_continuation_token s = None →
  s_s3_auto_ranged_put_update c s d conservative = FatalAssert.
Proof.
  intros Hd Hf Hs Hc Ht. unfold s_s3_auto_ranged_put_update, update_running, aws_assert. by rewrite Hf, Hs, Hc, Ht, Hd.
Qed.

(** In other builds a part that is listed with such a checksum is taken over without it, and
    is then kept if its size is right. *)
Lemma unlistable_unchecked (s : put_state) li s' : ¬ listable (config_algorithm (put_checksum_config c)) →
  s_process_part_info_synced c s li = Ok (Success s') →
  ∃ part, s' = s <| part_list ::= λ l, set_part l (listed_part_number li) part |> ∧
    ∀ ctx, info_checksum_context part = Some ctx → base64_checksum ctx = None.
Proof.
  intros Hl. unfold s_process_part_info_synced. destruct (_ =? 0); [done|].
  destruct (listed_checksum_cursor c li) as [cur| |] eqn:Hcur; [|done..]. cbn [mbind res_bind].
  assert (cur = None) as ->.
  { unfold listed_checksum_cursor, listable, aws_assert in *.
    destruct (put_debug_build c), (config_algorithm (put_checksum_config c)); simpl in Hcur; simplify_eq; first [done|destruct Hl; set_solver]. }
  destruct (aws_s3_upload_request_checksum_context_new _ _) as [ctx|] eqn:Hctx; [|done]. intros [= <-].
  eexists. split; [done|]. intros ctx' [= <-]. by apply new_context in Hctx.
Qed.

End asserts.

(** * Running an upload *)

(** Steps as data, to run an upload; [take_nth] removes a request from its list. *)
Inductive put_op :=
| DoUpdate
| DoPrepare (i : nat)
| DoServe (i : nat) (etag : list byte)
| DoAnswer (i : nat) (error : option aws_error) (resp : put_response)
| DoWrite (data : list byte) (eof : bool)
| DoFail (e : aws_error).

Section run.
Context `{B : !AwsByteCursor} `{H : !AwsHttpHeaders} `{D : !AwsDigest} `{X : !AwsXml} `{St : !AwsStreams}.
Context `{M : !AwsMath}.
Context {Q1 : AwsPriorityQueue s3_request part_number}.
Context {Q2 : AwsPriorityQueue delivery_tracking_record track_part_number}.
Context (accept : list (Z * list byte) → Z → list byte → option aws_error).
Context (checksum_update : list byte → list byte → option aws_error).
Context (c : put_config) (dc : delivery_config).

Definition file_range (file : list byte) (offset len : Z) : result aws_error (list byte) :=
  Success (take (Z.to_nat len) (drop (Z.to_nat offset) file)).

Definition body_of (sv : server) (part : Z * list byte) : option (list byte) :=
  '(etag, body) ← server_parts sv !! part.1; if decide (etag = part.2) then Some body else None.

Definition do_serve (r : put_request) (sv : server) (etag : list byte) : option server :=
  match put_tag r with
  | TAG_PART =>
      if put_is_noop r then None
      else Some (mkServer (<[put_part_number r := (etag, request_body r)]> (server_parts sv)) (server_object sv))
  | TAG_COMPLETE_MULTIPART_UPLOAD =>
      bodies ← mapM (body_of sv) (put_parts r); Some (mkServer (server_parts sv) (Some (concat bodies)))
  | TAG_ABORT_MULTIPART_UPLOAD => Some (mkServer ∅ (server_object sv))
  | _ => None
  end.

Definition do_op (u : upload) (o : put_op) : option upload :=
  match o with
  | DoUpdate =>
      if up_finished u || negb (put_num_parts_started (up_put u) <? U32_MAX - 1) then None
      else
        match s_s3_auto_ranged_put_update c (up_put u) (up_delivery u) false with
        | Ok (true, request, s, d) =>
            Some (u <| up_put := s |> <| up_delivery := d |> <| up_queued ::= λ l, l ++ option_list request |>
                    <| up_requested ::= λ l, l ++ option_list request |>)
        | Ok (false, None, s, d) => Some (u <| up_put := s |> <| up_delivery := d |> <| up_finished := true |>)
        | _ => None
        end
  | DoPrepare i =>
      r ← up_queued u !! i;
      match prepare c 8 (up_put u) r (file_range (stream_content (source (put_reader (up_put u))))) (λ _, Success tt) (Success [])
              (Success tt) with
      | Some (Ok (r', s, Success tt)) =>
          Some (u <| up_put := s |> <| up_queued := take i (up_queued u) ++ drop (S i) (up_queued u) |>
                  <| up_sent ::= λ l, l ++ [r'] |>
                  <| up_reads ::= λ l, l ++ (if decide (put_tag r = TAG_PART)
                                             then [(put_part_number r', request_body r')] else []) |>)
      | _ => None
      end
  | DoServe i etag => r ← up_sent u !! i; sv ← do_serve r (up_server u) etag; Some (u <| up_server := sv |>)
  | DoAnswer i error resp =>
      r ← up_sent u !! i;
      match s_s3_auto_ranged_put_request_finished c (up_put u) (up_delivery u) r error resp with
      | Ok (s, d) =>
          if decide (answers c u r error resp)
          then Some (u <| up_put := s |> <| up_delivery := d |> <| up_sent := take i (up_sent u) ++ drop (S i) (up_sent u) |>)
          else None
      | _ => None
      end
  | DoWrite data eof =>
      let '(result, w, error) :=
        aws_s3_meta_request_poll_write (has_result (up_delivery u)) (bool_decide (body_kind c = BodyAsyncWrites))
          (put_part_size c) (put_writes (up_put u)) data eof Granted in
      Some (u <| up_put ::= λ s, s <| put_writes := w |> |> <| up_delivery ::= λ d, fail_with d error |>
              <| up_accepted ::= λ l, l ++ written result data |>)
  | DoFail e => Some (u <| up_delivery ::= λ d, aws_s3_meta_request_set_fail_synced d e |>)
  end.

Fixpoint do_ops (u : upload) (ops : list put_op) : option upload :=
  match ops with [] => Some u | o :: ops => u ← do_op u o; do_ops u ops end.

Lemma do_serve_sound r sv etag sv' : do_serve r sv etag = Some sv' → serves r sv sv'.
Proof.
  unfold do_serve. destruct (put_tag r) eqn:Ht; try done.
  - destruct (put_is_noop r) eqn:Hn; [done|]. intros [= <-]. by apply serve_part.
  - intros [= <-]. by apply serve_abort.
  - destruct (mapM _ _) as [bodies|] eqn:Hm; [|done]. intros [= <-]. apply serve_complete; [done|].
    apply mapM_Some in Hm. eapply list.Forall2_impl; [exact Hm|]. intros [k e] b. unfold body_of.
    destruct (server_parts sv !! (k, e).1) as [[e' b']|]; [|done]. simpl. case_decide; [|done]. by intros [= ->]; subst.
Qed.

Lemma do_op_sound u o u' : do_op u o = Some u' → put_step accept checksum_update c dc u u'.
Proof.
  destruct o as [|i|i etag|i error resp|data eof|e]; unfold do_op.
  - destruct (up_finished u || _) eqn:Hf; [done|]. apply orb_false_iff in Hf as [Hf Hlt%negb_false_iff%Z.ltb_lt].
    destruct (s_s3_auto_ranged_put_update _ _ _ _) as [[[[[] request] s] d]| |] eqn:Hup; [|destruct request|done..];
      [|done|]; intros [= <-]; [by eapply put_updated|by eapply put_ended].
  - destruct (up_queued u !! i) as [r|] eqn:Hr; [|done]. cbn [mbind option_bind].
    destruct (prepare _ _ _ _ _ _ _ _) as [[[[r' s] [[]|]]| |]|] eqn:Hp; [|done..]. intros [= <-].
    eapply put_prepared; [symmetry; by apply take_drop_middle| |exact Hp]. by intros offset len data [= <-].
  - destruct (up_sent u !! i) as [r|] eqn:Hr; [|done]. cbn [mbind option_bind]. destruct (do_serve _ _ _) as [sv|] eqn:Hs; [|done]. cbn [mbind option_bind]. intros [= <-].
    eapply put_served; [by eapply list_elem_of_lookup_2|by eapply do_serve_sound].
  - destruct (up_sent u !! i) as [r|] eqn:Hr; [|done]. cbn [mbind option_bind].
    destruct (s_s3_auto_ranged_put_request_finished _ _ _ _ _ _) as [[s d]| |] eqn:Hf; [|done..].
    case_decide; [|done]. intros [= <-]. by eapply put_answered; [symmetry; apply take_drop_middle|exact Hf|].
  - destruct (aws_s3_meta_request_poll_write _ _ _ _ _ _ _) as [[result w] error] eqn:Hw. intros [= <-]. by eapply put_written.
  - intros [= <-]. apply put_io. apply step_fail.
Qed.

Lemma do_ops_sound u ops u' : do_ops u ops = Some u' → rtc (put_step accept checksum_update c dc) u u'.
Proof.
  revert u. induction ops as [|o ops IH]; intros u; simpl; [intros [= <-]; constructor|].
  destruct (do_op u o) as [u1|] eqn:Ho; [|done]. intros Hops. eapply rtc_l; [by eapply do_op_sound|auto].
Qed.
End run.

#[local] Existing Instances byte_cursor_ref headers_ref digest_ref digest_ref_laws streams_ref streams_ref_laws.
#[local] Existing Instances aws_math_ref aws_math_ref_laws sorted_pq.

Module UploadDemo.
Definition accept_all (_ : list (Z * list byte)) (_ : Z) (_ : list byte) : option aws_error := None.
Definition checksum_ok (_ _ : list byte) : option aws_error := None.

(** The answers to CreateMultipartUpload and CompleteMultipartUpload, and a listing with one part. *)
Definition leaf (name : list byte) (body : list byte) : xml_node := XmlNode name (Some body) [].
Definition page : xml_node :=
  XmlNode (lit "ListPartsResult") None
    [leaf (lit "IsTruncated") (lit "false");
     XmlNode (lit "Part") None [leaf (lit "PartNumber") (lit "1"); leaf (lit "Size") (lit "3"); leaf (lit "ETag") (lit "a");
                                leaf (lit "ChecksumCRC32") [x00; x00; x01; x26]%byte]].

#[local] Instance xml_demo : AwsXml := {|
  aws_xml_parse doc :=
    if decide (doc = lit "1")
    then Some (XmlNode (lit "InitiateMultipartUploadResult") None [leaf (lit "UploadId") (lit "id")], true)
    else if decide (doc = lit "2") then Some (page, true) else None;
  aws_byte_buf_append_unescaped_xml l := Some l;
  aws_date_time_init_from_str_cursor l := true;
  aws_byte_buf_append_encoding_uri_param l := l;
|}.

(** Three bytes in parts of two, from a stream of unknown length and pushed by writes. *)
Definition object : list byte := [x61; x62; x63]%byte.
Definition no_checksum : checksum_config := mkChecksumConfig [] false false AWS_SCL_NONE AWS_SCA_NONE [] false SCVM_DEFAULT [].
Definition options (kind : body_source) : put_config := mkPutConfig false 0 0 0 None kind false 5 no_checksum false false false true (lit "/key") true.
Definition stream : reader := mkReader object 0 false.
Definition new (kind : body_source) :=
  aws_s3_meta_request_auto_ranged_put_new (options kind) 100 2 false 0 0 (Some (lit "/key")) [] stream.
Definition conf (kind : body_source) : put_config :=
  match new kind with Ok (Success (c, _)) => c | _ => options kind end.
Definition start (kind : body_source) : upload :=
  upload_new match new kind with Ok (Success (_, s)) => s | _ => put_state_new (options kind) stream end
    (delivery_init 0 (mkMask None 0 0)) ∅.
Definition events : delivery_config := mkDelivery false false false false false false RecvCallback.

Definition answer (status : Z) (headers : http_headers) (xml : list byte) : put_response := mkPutResponse status headers xml None.
Definition etag (e : list byte) : http_headers := [(lit "ETag", e)].

Definition create : list put_op := [DoUpdate; DoPrepare 0; DoAnswer 0 None (answer 200 [] (lit "1"))].
Definition part (i : nat) (e : list byte) : list put_op := [DoUpdate; DoPrepare 0; DoServe i e].

Definition go (kind : body_source) (ops : list put_op) : upload := default (start kind) (do_ops (conf kind) (start kind) ops).
Definition both_sent : upload := go BodyAsyncStream (create ++ part 0 (lit "a") ++ part 1 (lit "b")).
Definition canceled : upload :=
  go BodyAsyncStream (create ++ part 0 (lit "a") ++
    [DoFail AWS_ERROR_S3_CANCELED; DoAnswer 0 None (answer 200 (etag (lit "a")) []);
     DoUpdate; DoPrepare 0; DoServe 0 []; DoAnswer 0 None (answer 204 [] []); DoUpdate]).
Definition waiting : upload := go BodyAsyncWrites (create ++ [DoWrite [x61]%byte false]).

Lemma upload_demo_setting kind : kind ≠ BodyParallelStream → put_setting (conf kind).
Proof. by destruct kind; intros ?; [split; vm_compute; intros; done|done|split; vm_compute; intros; done..]. Qed.

Lemma demo_begins kind : upload_begins (conf kind) object (start kind).
Proof.
  destruct kind; (eapply (upload_begin _ _ (options _) 100 2 false 0 0 (Some (lit "/key")) [] stream); [vm_compute; reflexivity|done..]).
Qed.







Lemma upload_go_reachable kind ops :
  match do_ops (conf kind) (start kind) ops with Some _ => true | None => false end = true →
  upload_reachable accept_all checksum_ok (conf kind) events object (go kind ops).
Proof.
  intros Hr. exists (start kind). split; [apply demo_begins|]. apply (do_ops_sound _ _ _ _ _ ops). unfold go.
  by destruct (do_ops _ _ _).
Qed.

Lemma both_sent_reachable : upload_reachable accept_all checksum_ok (conf BodyAsyncStream) events object both_sent.
Proof. apply upload_go_reachable. vm_compute. reflexivity. Qed.

Lemma upload_canceled_reachable : upload_reachable accept_all checksum_ok (conf BodyAsyncStream) events object canceled.
Proof. apply upload_go_reachable. vm_compute. reflexivity. Qed.


Lemma upload_waiting_reachable : upload_reachable accept_all checksum_ok (conf BodyAsyncWrites) events object waiting.
Proof. apply upload_go_reachable. vm_compute. reflexivity. Qed.
End UploadDemo.

Import UploadDemo.
#[local] Existing Instance xml_demo.


Lemma upload_requests_once_witness :
  length (up_sent both_sent) = 2%nat ∧ part_numbers (key <$> up_requested both_sent) = seqZ 1 2.
Proof.
  split; [vm_compute; reflexivity|].
  exact (proj1 (proj2 (proj2 (proj2 (upload_requests_once accept_all checksum_ok (conf BodyAsyncStream) events object
    (upload_demo_setting BodyAsyncStream ltac:(done)) both_sent both_sent_reachable))))).
Defined.

Lemma upload_wound_up_witness :
  finish_result (up_delivery canceled) = Some (Some AWS_ERROR_S3_CANCELED) ∧
  wound_up (conf BodyAsyncStream) (up_put canceled) (finish_result (up_delivery canceled)).
Proof.
  split; [vm_compute; reflexivity|].
  refine (proj2 (proj2 (upload_wound_up accept_all checksum_ok (conf BodyAsyncStream) events object
    (upload_demo_setting BodyAsyncStream ltac:(done)) canceled upload_canceled_reachable _))). vm_compute. reflexivity.
Defined.


Lemma upload_never_stalls_witness : live waiting = [] ∧ awaits_write (conf BodyAsyncWrites) waiting.
Proof.
  split; [vm_compute; reflexivity|].
  destruct (upload_never_stalls accept_all checksum_ok (conf BodyAsyncWrites) events object
    (upload_demo_setting BodyAsyncWrites ltac:(done)) waiting false (up_put waiting) (up_delivery waiting)
    upload_waiting_reachable) as [Hl|[He|Ha]]; [vm_compute; reflexivity|destruct Hl; reflexivity|discriminate He|exact Ha].
Defined.
