(* ===== verification/AutoRangedGet.v ===== *)
(** Downloads in ranged parts (source/s3_auto_ranged_get.c): choosing and interpreting the
    request that discovers the object, handing out part numbers, the update that asks
    for the next request or finishes the download, and the handler of finished requests. *)

From Stdlib Require Import Init.Byte.
From S2P Require Import Prelude AwsCommon PriorityQueue PartMath Tracking Delivery.

(** * Data *)

Inductive get_request_type :=
| HEAD_OBJECT
| GET_OBJECT_WITH_RANGE
| GET_OBJECT_WITH_PART_NUMBER_1.

#[export] Instance get_request_type_eq_dec : EqDecision get_request_type.
Proof. solve_decision. Defined.

(** The requests that [update] makes. *)
Record get_request := mkGet {
  request_tag : get_request_type;
  get_part_number : Z;
  get_range_start : Z;
  get_range_end : Z;
  discovers_object_size : bool;
}.

Inductive checksum_validation_mode := AWS_SCVM_DEFAULT | AWS_SCVM_REQUEST_ONLY | AWS_SCVM_FULL_OBJECT.

(** What is fixed when the meta request is made: the options, the range header, and the
    settings of the client. *)
Record get_config := mkGetConfig {
  initial_message_has_range_header : bool;
  initial_message_has_start_range : bool;
  initial_message_has_end_range : bool;
  initial_range_start : Z;
  initial_range_end : Z;
  initial_message_has_if_match_header : bool;
  object_size_hint : option Z;
  recv_buffer_capacity : option Z;
  validate_response_checksum : bool;
  response_checksum_validation_mode : checksum_validation_mode;
  get_enable_read_backpressure : bool;
  force_sequential_requests : bool;
  has_progress_callback : bool;
  dynamic_part_size : bool;
  client_optimal_range_size : Z;
  is_express : bool;
  recv_file_direct_io : bool;
  page_size : Z;
  (** [ideal_connection_count] with the limits of the client *)
  max_active_connections : Z;
  file_sink : bool;
  callback_sink : bool;
  out_of_order_delivery_override : aws_tribool;
  client_out_of_order_delivery : aws_tribool;
  out_of_order_delivery_env : aws_tribool;
}.
#[export] Instance get_config_eta : Eta get_config := λ c,
  mkGetConfig (initial_message_has_range_header c) (initial_message_has_start_range c)
    (initial_message_has_end_range c) (initial_range_start c) (initial_range_end c)
    (initial_message_has_if_match_header c) (object_size_hint c) (recv_buffer_capacity c)
    (validate_response_checksum c) (response_checksum_validation_mode c) (get_enable_read_backpressure c)
    (force_sequential_requests c) (has_progress_callback c) (dynamic_part_size c) (client_optimal_range_size c)
    (is_express c) (recv_file_direct_io c) (page_size c) (max_active_connections c) (file_sink c) (callback_sink c)
    (out_of_order_delivery_override c) (client_out_of_order_delivery c) (out_of_order_delivery_env c).

(** The five fields of the spread. *)
Record spread := mkSpread {
  spread_num_regions : Z;
  spread_region_size : Z;
  spread_num_large_regions : Z;
  spread_first_part : Z;
  spread_parts_handed_out : Z;
}.
#[export] Instance spread_eta : Eta spread := λ s,
  mkSpread (spread_num_regions s) (spread_region_size s) (spread_num_large_regions s)
    (spread_first_part s) (spread_parts_handed_out s).

(** [synced_data] of the meta request, and the fields of the base type that the handler
    of finished requests sets. *)
Record get_state := mkGetState {
  part_size : Z;
  object_range_start : Z;
  object_range_end : Z;
  object_size : Z;
  first_part_size : Z;
  total_num_parts : Z;
  num_parts_requested : Z;
  num_parts_completed : Z;
  num_parts_successful : Z;
  num_parts_failed : Z;
  num_parts_checksum_validated : Z;
  object_range_known : bool;
  object_range_empty : bool;
  head_object_sent : bool;
  head_object_completed : bool;
  read_window_warning_issued : bool;
  spread_state : spread;
  (** [meta_request_level_running_response_sum != NULL], and whether its algorithm lets
      part checksums be combined *)
  running_response_sum : option bool;
  checksum_combinable : bool;
  out_of_order : bool;
  recv_buffer_expected_len : Z;
  requested_range_start : Z;
  requested_range_start_resolved : bool;
  estimated_object_stored_part_size : Z;
  num_stored_parts : Z;
  buffer_pool_optimized : bool;
  max_active_connections_override : Z;
  (** [finish_result.did_validate] *)
  did_validate : bool;
}.
#[export] Instance get_state_eta : Eta get_state := λ g,
  mkGetState (part_size g) (object_range_start g) (object_range_end g) (object_size g) (first_part_size g)
    (total_num_parts g) (num_parts_requested g) (num_parts_completed g) (num_parts_successful g)
    (num_parts_failed g) (num_parts_checksum_validated g) (object_range_known g) (object_range_empty g)
    (head_object_sent g) (head_object_completed g) (read_window_warning_issued g) (spread_state g)
    (running_response_sum g) (checksum_combinable g) (out_of_order g) (recv_buffer_expected_len g)
    (requested_range_start g) (requested_range_start_resolved g) (estimated_object_stored_part_size g)
    (num_stored_parts g) (buffer_pool_optimized g) (max_active_connections_override g)
    (did_validate g).

(** The limit of connections of this meta request: what the client's
    [aws_s3_client_get_max_active_connections] gives for it when it has no limit for disks of its
    own (ClientLimits.v). *)
Definition download_connections (c : get_config) (g : get_state) : Z :=
  if negb (max_active_connections_override g =? 0)
  then Z.min (max_active_connections_override g) (max_active_connections c) else max_active_connections c.

(** * A new download *)

Definition no_spread : spread := mkSpread 0 0 0 0 0.

(** The state of a new meta request, from the options [c], the caller's size hint, what the
    parser makes of a range header, and what [aws_s3_meta_request_init_base] sets: the part
    size, the sum of a caller who supplied the checksum, and the override of connections. *)
Definition aws_s3_meta_request_auto_ranged_get_new (c : get_config) (hint : option Z)
    (range_header : option (result aws_error (bool * bool * Z * Z))) (size : Z) (sum : option bool) (connections : Z)
    : result aws_error (get_config * get_state) :=
  c ← match range_header with
      | Some parsed =>
          '(has_start, has_end, range_start, range_end) ← parsed;
          Success (c <| initial_message_has_range_header := true |>
                     <| initial_message_has_start_range := has_start |> <| initial_message_has_end_range := has_end |>
                     <| initial_range_start := range_start |> <| initial_range_end := range_end |>)
      | None =>
          Success (c <| initial_message_has_range_header := false |>
                     <| initial_message_has_start_range := false |> <| initial_message_has_end_range := false |>
                     <| initial_range_start := 0 |> <| initial_range_end := 0 |>)
      end;
  let '(origin, resolved) :=
    if negb (initial_message_has_range_header c) then (0, true)
    else if initial_message_has_start_range c then (initial_range_start c, true) else (0, false) in
  let hint :=
    match hint, recv_buffer_capacity c with
    | None, Some capacity => if capacity <? size then Some capacity else None
    | _, _ => hint
    end in
  Success (c <| object_size_hint := hint |>,
    mkGetState size 0 0 0 size 0 0 0 0 0 0 false false false false false no_spread sum false false 0
      origin resolved 0 0 false connections false).

(** * Handing out part numbers *)

Definition s_init_spread_synced (c : get_config) (g : get_state) : get_state :=
  let g := g <| spread_state ::= λ s, s <| spread_num_regions := 0 |> |> in
  if force_sequential_requests c then g
  else if negb (out_of_order g) then g
  else
    let first_part := num_parts_requested g +[32] 1 in
    if total_num_parts g <? first_part then g
    else
      let parts_remaining := (total_num_parts g -[32] first_part) +[32] 1 in
      let num_regions := download_connections c g in
      if num_regions <=? 1 then g
      else if parts_remaining <=? num_regions then g
      else g <| spread_state :=
             mkSpread num_regions (parts_remaining / num_regions) (parts_remaining mod num_regions) first_part 0 |>.

Definition s_next_part_number_synced (g : get_state) : Z * get_state :=
  let s := spread_state g in
  let num_regions := spread_num_regions s in
  if num_regions <? 2 then (num_parts_requested g +[32] 1, g)
  else
    let i := spread_parts_handed_out s in
    let g := g <| spread_state ::= λ s, s <| spread_parts_handed_out ::= λ x, x +[32] 1 |> |> in
    let region := i mod num_regions in
    let step := i / num_regions in
    let region_size := spread_region_size s in
    let num_large_regions := spread_num_large_regions s in
    let first := spread_first_part s in
    let region_start :=
      if region <? num_large_regions then first +[32] (region *[32] (region_size +[32] 1))
      else (first +[32] (num_large_regions *[32] (region_size +[32] 1)))
             +[32] ((region -[32] num_large_regions) *[32] region_size) in
    (region_start +[32] step, g).

(** * Discovery *)

Definition s_should_validate_whole_download (c : get_config) : bool :=
  validate_response_checksum c &&
  match response_checksum_validation_mode c with
  | AWS_SCVM_DEFAULT | AWS_SCVM_FULL_OBJECT => true
  | _ => false
  end.

(** The type of the request that discovers the object; the note of an empty object is
    taken back when it decides. *)
Definition s_s3_get_request_type_for_discovering_object_size (c : get_config) (g : get_state)
    : get_request_type * get_state :=
  if object_range_empty g then (GET_OBJECT_WITH_PART_NUMBER_1, g <| object_range_empty := false |>)
  else if initial_message_has_range_header c then
    (if initial_message_has_start_range c then GET_OBJECT_WITH_RANGE else HEAD_OBJECT, g)
  else if match object_size_hint c with Some hint => (0 <? hint) && (hint <=? part_size g) | None => false end then
    (GET_OBJECT_WITH_PART_NUMBER_1, g)
  else if negb (s_should_validate_whole_download c) || bool_decide (running_response_sum g ≠ None) then
    (GET_OBJECT_WITH_RANGE, g)
  else (HEAD_OBJECT, g).

Section get.
Context {Q1 : AwsPriorityQueue s3_request part_number}.
Context {Q2 : AwsPriorityQueue delivery_tracking_record track_part_number}.
Context `{!AwsMath}.

(** The whole meta request: this type's fields and the delivery of bodies. *)
Record get_meta_request := mkGetMeta {
  get_data : get_state;
  get_delivery : delivery;
}.

(** * Update *)

Definition s_conservative_max_requests_in_flight : Z := 8.

(** The range of the discovering [GET_OBJECT_WITH_RANGE] request, and the size it fixes
    for the first part of a download with a range header. *)
Definition discover_with_range (c : get_config) (g : get_state) : get_request * get_state :=
  let '(start, size, g) :=
    if initial_message_has_range_header c then
      let size :=
        if initial_message_has_end_range c
        then aws_min_u64 (part_size g) ((initial_range_end c -[64] initial_range_start c) +[64] 1)
        else part_size g in
      let size := match recv_buffer_capacity c with Some cap => aws_min_u64 size cap | None => size end in
      (initial_range_start c, size, g <| first_part_size := size |>)
    else (0, part_size g, g) in
  (mkGet GET_OBJECT_WITH_RANGE 1 start ((start +[64] size) -[64] 1) true,
   g <| num_parts_requested ::= λ x, x +[32] 1 |>).

Definition discover_with_part_number_1 (c : get_config) (g : get_state) : get_request * get_state :=
  let range_end :=
    match object_size_hint c with
    | Some hint => if 0 <? hint then aws_min_u64 hint (part_size g) -[64] 1 else part_size g -[64] 1
    | None => part_size g -[64] 1
    end in
  (mkGet GET_OBJECT_WITH_PART_NUMBER_1 1 0 range_end true, g <| num_parts_requested ::= λ x, x +[32] 1 |>).

(** The request that discovers the object range, unless it is on its way. *)
Definition discover (c : get_config) (g : get_state) : option get_request * get_state :=
  if head_object_sent g || (0 <? num_parts_requested g) then (None, g)
  else
    let '(tag, g) := s_s3_get_request_type_for_discovering_object_size c g in
    let '(request, g) :=
      match tag with
      | HEAD_OBJECT => (mkGet HEAD_OBJECT 0 0 0 true, g <| head_object_sent := true |>)
      | GET_OBJECT_WITH_PART_NUMBER_1 => discover_with_part_number_1 c g
      | GET_OBJECT_WITH_RANGE => discover_with_range c g
      end in
    (Some request, g).

(** How much of the window the requested parts account for. *)
Definition read_data_requested (g : get_state) : Z :=
  if 0 <? num_parts_requested g
  then ((num_parts_requested g -[32] 1) *[64] part_size g) +[64] first_part_size g else 0.

Definition next_part_request (g : get_state) : get_request * get_state :=
  let '(number, g) := s_next_part_number_synced g in
  let '(range_start, range_end) :=
    aws_s3_calculate_auto_ranged_get_part_range (object_range_start g) (object_range_end g) (part_size g)
      (first_part_size g) number in
  (mkGet GET_OBJECT_WITH_RANGE number range_start range_end false, g <| num_parts_requested ::= λ x, x +[32] 1 |>).

(** The next part, unless the flow-control window has to open first. *)
Definition request_part (c : get_config) (d : delivery) (g : get_state) : option get_request * get_state :=
  if get_enable_read_backpressure c && (read_window_running_total d <=? read_data_requested g)
  then (None, g <| read_window_warning_issued := true |>)
  else
    let g := if get_enable_read_backpressure c then g <| read_window_warning_issued := false |> else g in
    let '(request, g) := next_part_request g in (Some request, g).

(** The first half of [s_s3_auto_ranged_get_update]: whether work remains, the request to
    send, and the state. *)
Definition update_work (c : get_config) (conservative : bool) (d : delivery) (g : get_state)
    : bool * option get_request * get_state :=
  match finish_result d with
  | None =>
      let num_requests_in_flight :=
        (num_parts_requested g -[32] num_parts_completed g)
          +[32] Z.of_nat (length (pq_elems (pending_body_streaming_requests d))) in
      if conservative && (s_conservative_max_requests_in_flight <? num_requests_in_flight) then (true, None, g)
      else if negb (object_range_known g) then
        let '(request, g) := discover c g in (true, request, g)
      else if num_parts_requested g <? total_num_parts g then
        let '(request, g) := request_part c d g in (true, request, g)
      else if (num_parts_delivery_completed d <? total_num_parts g) ||
              (num_parts_delivery_completed d <? num_parts_delivery_sent d) then (true, None, g)
      else (false, None, g)
  | Some _ =>
      if head_object_sent g && negb (head_object_completed g) then (true, None, g)
      else if num_parts_completed g <? num_parts_requested g then (true, None, g)
      else if num_parts_delivery_completed d <? num_parts_delivery_sent d then (true, None, g)
      else (false, None, g)
  end.

(** The end of a download that is not failed yet: success, if every part was delivered. *)
Definition update_finish (d : delivery) : delivery :=
  let d :=
    match finish_result d with
    | None =>
        let d := match aws_s3_meta_request_validate_parts_delivered_synced (mask d) with
                 | Success _ => d
                 | Failure e => aws_s3_meta_request_set_fail_synced d e
                 end in
        d <| mask ::= λ m, m <| parts_delivered_mask := None |> <| parts_delivered_mask_length := 0 |> |>
    | Some _ => d
    end in
  aws_s3_meta_request_set_success_synced d.

(** Whether work remains, the request to send, and the meta request.  When no work
    remains the meta request is finished. *)
Definition s_s3_auto_ranged_get_update (c : get_config) (conservative : bool) (m : get_meta_request)
    : bool * option get_request * get_meta_request :=
  let d := get_delivery m in
  let '(work_remaining, request, g) := update_work c conservative d (get_data m) in
  if work_remaining || aws_s3_meta_request_are_events_out_for_delivery_synced d
  then (true, request, mkGetMeta g d)
  else
    let g := if num_parts_checksum_validated g =? num_parts_requested g then g <| did_validate := true |> else g in
    (false, None, mkGetMeta g (update_finish d)).

(** * Finished requests *)

(** What the handler of finished requests gets from the request and its response: the
    error, the status and the body, what the parsers make of the headers, and the
    answers of checksum and callback functions. *)
Record get_response := mkResponse {
  resp_error : option aws_error;
  resp_status : Z;
  resp_body : list byte;
  resp_content_length : result aws_error Z;
  resp_content_range : result aws_error (Z * Z * Z);
  (** no ETag, an ETag without a number of parts, or the number of parts *)
  resp_etag : option (option Z);
  (** [s_check_empty_file_download_error] *)
  resp_empty_file : bool;
  resp_did_validate : bool;
  (** [aws_s3_check_headers_for_checksum]: the algorithm's combinability if it made a sum *)
  resp_checksum : result aws_error (option bool);
  (** an error in the sum of the discovery response's own body *)
  resp_part_sum_error : option aws_error;
  resp_headers_callback_error : option aws_error;
}.

Record discovery := mkDiscovery {
  found_range_start : Z;
  found_range_end : Z;
  found_object_size : Z;
  found_first_part_size : Z;
  empty_file_error : bool;
}.

Definition s_discover_object_range_and_size (c : get_config) (request : get_request) (resp : get_response)
    : result aws_error discovery :=
  match request_tag request with
  | HEAD_OBJECT =>
      match resp_error resp with
      | Some e => Failure e
      | None =>
          content_length ← resp_content_length resp;
          if negb (initial_message_has_range_header c) then
            Success (mkDiscovery 0 (if 0 <? content_length then content_length - 1 else 0) content_length 0 false)
          else
            '(range_start, range_end, size) ← resp_content_range resp;
            Success (mkDiscovery range_start range_end size 0 false)
      end
  | GET_OBJECT_WITH_PART_NUMBER_1 =>
      match resp_error resp with
      | None | Some AWS_ERROR_S3_INTERNAL_BUFFER_SIZE_MISMATCH_RETRYING_WITH_RANGE =>
          first_part_size ← resp_content_length resp;
          if 0 <? first_part_size then
            '(_, _, size) ← resp_content_range resp;
            Success (mkDiscovery 0 (size -[64] 1) size first_part_size false)
          else Success (mkDiscovery 0 0 0 first_part_size false)
      | Some e => Failure e
      end
  | GET_OBJECT_WITH_RANGE =>
      match resp_error resp with
      | Some e =>
          if negb (initial_message_has_range_header c) && resp_empty_file resp
          then Success (mkDiscovery 0 0 0 0 true) else Failure e
      | None =>
          '(range_start, range_end, size) ← resp_content_range resp;
          if initial_message_has_range_header c then
            let range_end := if initial_message_has_end_range c
                             then aws_min_u64 (size -[64] 1) (initial_range_end c) else size -[64] 1 in
            Success (mkDiscovery range_start range_end size 0 false)
          else Success (mkDiscovery 0 (size -[64] 1) size 0 false)
      end
  end.

Definition s_discovery_checksum_covers_download (request : get_request) (f : discovery) : bool :=
  if found_object_size f =? 0 then true
  else if negb (found_range_start f =? 0) || negb (found_range_end f =? found_object_size f -[64] 1) then false
  else
    match request_tag request with
    | HEAD_OBJECT => true
    | GET_OBJECT_WITH_PART_NUMBER_1 => found_first_part_size f =? found_object_size f
    | GET_OBJECT_WITH_RANGE => (get_range_start request =? 0) && (found_object_size f -[64] 1 <=? get_range_end request)
    end.

Definition s_request_body_is_entire_download (request : get_request) (f : discovery) : bool :=
  match request_tag request with
  | GET_OBJECT_WITH_PART_NUMBER_1 => (found_range_start f =? 0) && (found_range_end f <? found_first_part_size f)
  | GET_OBJECT_WITH_RANGE =>
      (get_range_start request <=? found_range_start f) && (found_range_end f <=? get_range_end request)
  | HEAD_OBJECT => false
  end.
(** The buffer pool's [derive_aligned_buffer_size]. *)
Context (derive_aligned_buffer_size : Z → Z).

Definition is_mismatch (e : option aws_error) : bool :=
  bool_decide (e = Some AWS_ERROR_S3_INTERNAL_BUFFER_SIZE_MISMATCH_RETRYING_WITH_RANGE).

(** The number of parts stored in S3 and their size, from the ETag. *)
Definition record_etag (g : get_state) (f : discovery) (parts : option Z) : get_state :=
  match parts with
  | Some n =>
      if 0 <? n then g <| estimated_object_stored_part_size := found_object_size f / n |> <| num_stored_parts := n |>
      else g <| estimated_object_stored_part_size := g_default_part_size_fallback |> <| num_stored_parts := 1 |>
  | None => g <| estimated_object_stored_part_size := g_default_part_size_fallback |> <| num_stored_parts := 1 |>
  end.

(** The part size chosen after discovery when the user set none. *)
Definition choose_part_size (c : get_config) (g : get_state) (request : get_request) (f : discovery)
    : get_state * discovery :=
  if dynamic_part_size c then
    match aws_s3_calculate_request_optimal_range_size (client_optimal_range_size c)
            (estimated_object_stored_part_size g) (is_express c) with
    | Success size =>
        let size := derive_aligned_buffer_size size in
        let size := if recv_file_direct_io c && negb (size mod page_size c =? 0)
                    then (size / page_size c +[64] 1) *[64] page_size c else size in
        let g := g <| part_size := size |> in
        let parts_threshold := aws_mul_u64_saturating (download_connections c g) 2 in
        let g := if parts_threshold <? num_stored_parts g then g <| buffer_pool_optimized := true |> else g in
        let f := if bool_decide (request_tag request = HEAD_OBJECT)
                 then mkDiscovery (found_range_start f) (found_range_end f) (found_object_size f) size (empty_file_error f)
                 else f in
        (g, f)
    | Failure _ => (g, f)
    end
  else (g, f).

(** The sum a whole-download checksum is compared with, when the response carries one. *)
Definition adopt_checksum (c : get_config) (g : get_state) (request : get_request) (resp : get_response) (f : discovery)
    : result aws_error get_state :=
  if s_should_validate_whole_download c && bool_decide (running_response_sum g = None) then
    if negb (s_discovery_checksum_covers_download request f) then Success g
    else if resp_did_validate resp && s_request_body_is_entire_download request f then Success g
    else
      sum ← resp_checksum resp;
      Success (g <| running_response_sum := sum |>)
  else Success g.

Definition limit_express_connections (c : get_config) (max_connections : Z) (g : get_state) (f : discovery) : get_state :=
  if is_express c && (part_size g <? g_s3express_connection_limitation_part_size_threshold) &&
     (g_s3express_connection_limitation_object_size_threshold <? found_object_size f) &&
     (Z.min g_s3express_connection_limitation max_connections <? max_connections)
  then g <| max_active_connections_override := Z.min g_s3express_connection_limitation max_connections |> else g.

(** The part of the handler before its critical section: what was discovered, the error
    code, and the state. *)
Definition request_finished_discovery (c : get_config) (g : get_state) (request : get_request) (resp : get_response)
    : option discovery * option aws_error * get_state :=
  match s_discover_object_range_and_size c request resp with
  | Failure e => (None, Some e, g)
  | Success f =>
      let keep (g : get_state) :=
        let max_connections := download_connections c g in
        let '(g, f) := choose_part_size c g request f in
        match adopt_checksum c g request resp f with
        | Failure e => (Some f, Some e, g)
        | Success g =>
            let g := limit_express_connections c max_connections g f in
            (Some f, if empty_file_error f then None else resp_headers_callback_error resp, g)
        end in
      if bool_decide (resp_error resp = None) || is_mismatch (resp_error resp) then
        match resp_etag resp with
        | None => (None, Some AWS_ERROR_S3_MISSING_ETAG, g)
        | Some parts => keep (record_etag g f parts)
        end
      else keep g
  end.

(** [aws_s3_meta_request_setup_checksum_combine_synced], as far as the delivery order
    depends on it. *)
Definition setup_checksum_combine (g : get_state) (request : get_request) (resp : get_response)
    : option aws_error * get_state :=
  let g := g <| checksum_combinable := false |> in
  match running_response_sum g with
  | Some true =>
      if total_num_parts g =? 0 then (None, g)
      else
        let g := g <| checksum_combinable := true |> in
        if (get_part_number request =? 0) || bool_decide (resp_body resp = []) then (None, g)
        else (resp_part_sum_error resp, g)
  | _ => (None, g)
  end.

Definition s_response_needs_ordered_body (g : get_state) : bool :=
  bool_decide (running_response_sum g ≠ None) && negb (checksum_combinable g).

Definition s_resolve_out_of_order_delivery (c : get_config) (g : get_state) : get_state :=
  let out := aws_s3_allow_out_of_order_delivery (file_sink c) (callback_sink c) (out_of_order_delivery_override c)
               (client_out_of_order_delivery c) (out_of_order_delivery_env c) in
  g <| out_of_order := out && negb (s_response_needs_ordered_body g) |>.

Definition object_range_length (f : discovery) : Z :=
  if found_object_size f =? 0 then 0 else (found_range_end f -[64] found_range_start f) +[64] 1.

(** The critical section, first half: the discovered range is recorded. *)
Definition record_discovery (c : get_config) (m : get_meta_request) (request : get_request) (resp : get_response)
    (f : discovery) (e : option aws_error) : option aws_error * get_meta_request :=
  let g := get_data m in
  let '(e, g) :=
    match recv_buffer_capacity c, e with
    | Some cap, None =>
        if cap <? object_range_length f then (Some AWS_ERROR_SHORT_BUFFER, g)
        else (None, g <| recv_buffer_expected_len := object_range_length f |>)
    | _, _ => (e, g)
    end in
  let g := g <| object_range_known := true |> <| object_range_empty := found_object_size f =? 0 |>
             <| object_range_start := found_range_start f |> <| object_range_end := found_range_end f |>
             <| object_size := found_object_size f |> <| requested_range_start_resolved := true |>
             <| requested_range_start := found_range_start f |> in
  let g := if negb (is_mismatch (resp_error resp)) && negb (found_first_part_size f =? 0)
           then g <| first_part_size := found_first_part_size f |> else g in
  let '(g, d) :=
    if object_range_empty g then (g, get_delivery m)
    else
      let n := aws_s3_calculate_auto_ranged_get_num_parts (part_size g) (first_part_size g)
                 (found_range_start f) (found_range_end f) in
      (g <| total_num_parts := n |>, get_delivery m <| mask := mask_new n |>) in
  let '(e, g) :=
    if s_should_validate_whole_download c && bool_decide (e = None)
    then setup_checksum_combine g request resp else (e, g) in
  (e, mkGetMeta (s_resolve_out_of_order_delivery c g) d).

(** A part has finished, with its body unless it failed. *)
Definition part_finished (c : get_config) (dc : delivery_config) (m : get_meta_request) (request : get_request)
    (resp : get_response) : get_meta_request :=
  let g := get_data m <| num_parts_completed ::= λ x, x +[32] 1 |> in
  match resp_error resp with
  | None =>
      let g := if resp_did_validate resp then g <| num_parts_checksum_validated ::= λ x, x +[32] 1 |> else g in
      let g := g <| num_parts_successful ::= λ x, x +[32] 1 |> in
      let d := if has_progress_callback c
               then aws_s3_meta_request_add_event_for_delivery_synced (get_delivery m)
                      (Some (EVENT_PROGRESS (body_len (resp_body resp))))
               else get_delivery m in
      mkGetMeta g (aws_s3_meta_request_stream_response_body_synced (dc <| out_of_order_delivery := out_of_order g |>) d
        (mkRequest (get_part_number request) (get_range_start request) (get_range_end request) (resp_body resp)))
  | Some _ => mkGetMeta (g <| num_parts_failed ::= λ x, x +[32] 1 |>) (get_delivery m)
  end.

(** The critical section, second half: by type of request. *)
Definition finish_by_type (c : get_config) (dc : delivery_config) (m : get_meta_request) (request : get_request)
    (resp : get_response) (found : option discovery) : get_meta_request :=
  match request_tag request with
  | HEAD_OBJECT => mkGetMeta (get_data m <| head_object_completed := true |>) (get_delivery m)
  | tag =>
      if bool_decide (tag = GET_OBJECT_WITH_PART_NUMBER_1) && is_mismatch (resp_error resp) &&
         bool_decide (found ≠ None)
      then mkGetMeta (get_data m <| num_parts_requested := 0 |>) (get_delivery m)
      else if match found with Some f => empty_file_error f | None => false end
      then mkGetMeta (get_data m <| num_parts_requested := 0 |> <| object_range_known := false |>) (get_delivery m)
      else part_finished c dc m request resp
  end.

Definition AWS_HTTP_STATUS_CODE_412_PRECONDITION_FAILED : Z := 412.

Definition s_s3_auto_ranged_get_request_finished (c : get_config) (dc : delivery_config) (m : get_meta_request)
    (request : get_request) (resp : get_response) : get_meta_request :=
  let '(found, e, g) :=
    if discovers_object_size request then request_finished_discovery c (get_data m) request resp
    else (None, resp_error resp, get_data m) in
  let m := mkGetMeta g (get_delivery m) in
  let '(e, m) := match found with
                 | Some f => record_discovery c m request resp f e
                 | None => (e, m)
                 end in
  let m := finish_by_type c dc m request resp found in
  let m :=
    match e with
    | Some e =>
        let e := if bool_decide (e = AWS_ERROR_S3_INVALID_RESPONSE_STATUS) &&
                    (resp_status resp =? AWS_HTTP_STATUS_CODE_412_PRECONDITION_FAILED) &&
                    negb (initial_message_has_if_match_header c)
                 then AWS_ERROR_S3_OBJECT_MODIFIED else e in
        let g := if bool_decide (e = AWS_ERROR_S3_RESPONSE_CHECKSUM_MISMATCH)
                 then get_data m <| did_validate := true |> else get_data m in
        mkGetMeta g (aws_s3_meta_request_set_fail_synced (get_delivery m) e)
    | None => m
    end in
  if discovers_object_size request && object_range_known (get_data m)
  then mkGetMeta (s_init_spread_synced c (get_data m)) (get_delivery m) else m.
End get.
