(* ===== verification/GetSpread.v ===== *)
(** The part numbers a ranged download hands out, in object order or spread over regions
    of the object: every part exactly once. *)

From S2P Require Import Prelude AwsCommon PartMath AutoRangedGet.

(** The part handed out at index [i] of a spread of [n] parts from [first] on over [r]
    regions: [n mod r] regions hold one part more than the others. *)
Definition handout (first n r i : Z) : Z :=
  first + (i mod r) * (n / r) + Z.min (i mod r) (n mod r) + i / r.

Section handout.
Context (first n r : Z) (Hr : 2 ≤ r) (Hn : r < n).

(** Where region [k] starts, relative to [first]. *)
Let region_start (k : Z) : Z := k * (n / r) + Z.min k (n mod r).

Lemma region_end k : 0 ≤ k < r → region_start (k + 1) = region_start k + n / r + (if k <? n mod r then 1 else 0).
Proof using Hr.
  intros Hk. unfold region_start. pose proof (Z.mod_pos_bound n r). destruct (Z.ltb_spec k (n mod r)); lia.
Qed.

Lemma region_start_mono j k : 0 ≤ j ≤ k → region_start j ≤ region_start k.
Proof using Hr Hn.
  intros Hjk. unfold region_start. assert (0 ≤ n / r) by (apply Z.div_pos; lia). nia.
Qed.

Lemma region_start_last : region_start r = n.
Proof using Hr.
  unfold region_start. pose proof (Z.div_mod n r). pose proof (Z.mod_pos_bound n r). lia.
Qed.

(** An index lies inside of its region. *)
Lemma handout_in_region i : 0 ≤ i < n →
  0 ≤ i mod r < r ∧ 0 ≤ i / r ∧ region_start (i mod r) + i / r < region_start (i mod r + 1).
Proof using Hr Hn.
  intros Hi. pose proof (Z.mod_pos_bound i r ltac:(lia)). pose proof (Z.div_mod i r ltac:(lia)).
  pose proof (Z.div_mod n r ltac:(lia)). pose proof (Z.mod_pos_bound n r ltac:(lia)).
  assert (0 ≤ i / r) by (apply Z.div_pos; lia). split; [lia|]. split; [lia|].
  rewrite region_end by lia. destruct (Z.ltb_spec (i mod r) (n mod r)); nia.
Qed.

Lemma handout_region i : handout first n r i = first + region_start (i mod r) + i / r.
Proof. unfold handout, region_start. lia. Qed.

Lemma handout_range i : 0 ≤ i < n → first ≤ handout first n r i < first + n.
Proof using Hr Hn.
  intros Hi. rewrite handout_region. destruct (handout_in_region i Hi) as (Hk & Hs & Hlt).
  pose proof (region_start_mono (i mod r + 1) r ltac:(lia)) as Hm. rewrite region_start_last in Hm.
  pose proof (region_start_mono 0 (i mod r) ltac:(lia)) as H0. unfold region_start at 1 in H0.
  pose proof (Z.mod_pos_bound n r). lia.
Qed.

Lemma handout_inj i j : 0 ≤ i < n → 0 ≤ j < n → handout first n r i = handout first n r j → i = j.
Proof using Hr Hn.
  intros Hi Hj. rewrite !handout_region. destruct (handout_in_region i Hi) as (Hki & Hsi & Hlti).
  destruct (handout_in_region j Hj) as (Hkj & Hsj & Hltj). intros Heq.
  assert (i mod r = j mod r) as Hmod.
  { destruct (Z.lt_trichotomy (i mod r) (j mod r)) as [Hlt|[?|Hlt]]; [|done|].
    - pose proof (region_start_mono (i mod r + 1) (j mod r) ltac:(lia)). lia.
    - pose proof (region_start_mono (j mod r + 1) (i mod r) ltac:(lia)). lia. }
  pose proof (Z.div_mod i r). pose proof (Z.div_mod j r). rewrite Hmod in *. lia.
Qed.

Lemma handout_all : handout first n r <$> seqZ 0 n ≡ₚ seqZ first n.
Proof using Hr Hn.
  assert (NoDup (handout first n r <$> seqZ 0 n)) as Hnd.
  { apply NoDup_fmap_2_strong; [|apply NoDup_seqZ].
    intros i j Hi%elem_of_seqZ Hj%elem_of_seqZ. apply handout_inj; lia. }
  apply submseteq_length_Permutation.
  - apply NoDup_submseteq; [done|]. intros k Hk. apply list_elem_of_fmap in Hk as (i & -> & Hi%elem_of_seqZ).
    apply elem_of_seqZ. apply handout_range. lia.
  - by rewrite length_fmap, !length_seqZ.
Qed.
End handout.

(** * The requests of a download *)

(** [count] parts requested one after the other. *)
Fixpoint request_parts (count : nat) (g : get_state) : list get_request * get_state :=
  match count with
  | O => ([], g)
  | S count =>
      let '(request, g) := next_part_request g in
      let '(requests, g) := request_parts count g in
      (request :: requests, g)
  end.

Section request_parts.
Context (n : Z) (Hn : 0 ≤ n < 2 ^ 32).

Lemma requests_in_order count g : spread_num_regions (spread_state g) < 2 →
  0 ≤ num_parts_requested g → num_parts_requested g + Z.of_nat count ≤ n →
  get_part_number <$> (request_parts count g).1 = seqZ (num_parts_requested g + 1) (Z.of_nat count).
Proof using Hn.
  revert g. induction count as [|count IH]; intros g Hs Hreq Hle; [done|]. cbn [request_parts].
  unfold next_part_request, s_next_part_number_synced. rewrite (proj2 (Z.ltb_lt _ 2)) by done.
  rewrite (wrap_small 32) by (unfold uint; lia).
  destruct (aws_s3_calculate_auto_ranged_get_part_range _ _ _ _ _) as [a b].
  match goal with |- context [request_parts count ?g1] => specialize (IH g1); destruct (request_parts count g1) as [l g2] end.
  simpl in IH. rewrite (wrap_small 32) in IH by (unfold uint; lia).
  cbn [fst]. rewrite fmap_cons, IH by (done || lia). rewrite (seqZ_cons (num_parts_requested g + 1)) by lia. f_equal. f_equal; lia.
Qed.

(** The arithmetic of one number: no 32-bit operation wraps around. *)
Lemma region_number first q L k step : 1 ≤ first → 0 ≤ q < n → 0 ≤ L → 0 ≤ k ≤ n → 0 ≤ step →
  first + k * q + Z.min k L + step ≤ n →
  (if k <? L then first +[32] (k *[32] (q +[32] 1))
   else (first +[32] (L *[32] (q +[32] 1))) +[32] ((k -[32] L) *[32] q)) +[32] step
  = first + k * q + Z.min k L + step.
Proof using Hn.
  intros Hf Hq HL Hk Hs Hle. assert (0 ≤ k * q) by nia.
  rewrite (wrap_small 32 (q + 1)) by (unfold uint; lia). rewrite !Z.mul_add_distr_l, !Z.mul_1_r.
  destruct (Z.ltb_spec k L).
  - rewrite (wrap_small 32 (k * q + k)) by (unfold uint; lia).
    rewrite (wrap_small 32 (first + _)) by (unfold uint; lia). rewrite wrap_small by (unfold uint; lia). lia.
  - assert (0 ≤ L * q ≤ k * q) by nia.
    rewrite (wrap_small 32 (L * q + L)), (wrap_small 32 (k - L)) by (unfold uint; lia).
    rewrite Z.mul_sub_distr_r, (wrap_small 32 (k * q - L * q)) by (unfold uint; lia).
    rewrite (wrap_small 32 (first + _)) by (unfold uint; lia).
    rewrite (wrap_small 32 (_ + (k * q - L * q))) by (unfold uint; lia). rewrite wrap_small by (unfold uint; lia). lia.
Qed.

Lemma next_part_number_spread g first parts r i :
  spread_state g = mkSpread r (parts / r) (parts mod r) first i →
  2 ≤ r → r < parts → 1 ≤ first → first + parts - 1 ≤ n → 0 ≤ i < parts →
  s_next_part_number_synced g =
    (handout first parts r i, g <| spread_state := mkSpread r (parts / r) (parts mod r) first (i + 1) |>).
Proof using Hn.
  intros Hs Hr Hp Hf Hle Hi. unfold s_next_part_number_synced. simpl. rewrite Hs. simpl.
  rewrite (proj2 (Z.ltb_ge r 2)) by lia.
  rewrite (wrap_small 32 (i + 1)) by (unfold uint; lia).
  pose proof (Z.mod_pos_bound i r ltac:(lia)). pose proof (Z.mod_pos_bound parts r ltac:(lia)).
  assert (0 ≤ parts / r < parts) by (split; [apply Z.div_pos; lia|apply Z.div_lt; lia]).
  assert (0 ≤ i / r) by (apply Z.div_pos; lia).
  pose proof (handout_range first parts r ltac:(lia) ltac:(lia) i Hi) as Hrange. unfold handout in *.
  f_equal. apply region_number; lia.
Qed.

Lemma requests_spread count g first parts r i :
  spread_state g = mkSpread r (parts / r) (parts mod r) first i →
  2 ≤ r → r < parts → 1 ≤ first → first + parts - 1 ≤ n → 0 ≤ i → i + Z.of_nat count ≤ parts →
  get_part_number <$> (request_parts count g).1 = handout first parts r <$> seqZ i (Z.of_nat count).
Proof using Hn.
  revert g i. induction count as [|count IH]; intros g i Hs Hr Hp Hf Hle Hi Hc; [done|]. cbn [request_parts].
  unfold next_part_request. rewrite (next_part_number_spread g first parts r i) by (done || lia).
  destruct (aws_s3_calculate_auto_ranged_get_part_range _ _ _ _ _) as [a b].
  match goal with |- context [request_parts count ?g1] => specialize (IH g1 (i + 1)); destruct (request_parts count g1) as [l g2] end.
  simpl in IH. cbn [fst]. rewrite fmap_cons, IH by (done || lia). rewrite (seqZ_cons i) by lia. rewrite fmap_cons.
  f_equal. f_equal. f_equal; lia.
Qed.
End request_parts.

(** After discovery the download requests every remaining part exactly once, in object
    order or rotating over regions of the object, for every number of connections. *)
Theorem each_part_requested_once c g :
  0 ≤ num_parts_requested g ≤ total_num_parts g → total_num_parts g < 2 ^ 32 - 1 →
  let rest := total_num_parts g - num_parts_requested g in
  get_part_number <$> (request_parts (Z.to_nat rest) (s_init_spread_synced c g)).1
    ≡ₚ seqZ (num_parts_requested g + 1) rest.
Proof.
  intros Hreq Htot rest.
  assert (spread_num_regions (spread_state (s_init_spread_synced c g)) < 2 →
    num_parts_requested (s_init_spread_synced c g) = num_parts_requested g →
    get_part_number <$> (request_parts (Z.to_nat rest) (s_init_spread_synced c g)).1
      ≡ₚ seqZ (num_parts_requested g + 1) rest) as Hoff.
  { intros Hs Heq. rewrite (requests_in_order (total_num_parts g)) by (done || lia).
    rewrite Heq, Z2Nat.id by lia. done. }
  assert (num_parts_requested g +[32] 1 = num_parts_requested g + 1) as Hfirst by (apply wrap_small; unfold uint; lia).
  unfold s_init_spread_synced in *. destruct (force_sequential_requests c); [by apply Hoff|].
  destruct (negb (out_of_order _)); [by apply Hoff|]. simpl in *. rewrite Hfirst in *.
  destruct (Z.ltb_spec (total_num_parts g) (num_parts_requested g + 1)); [by apply Hoff|].
  match goal with |- context [?x <=? 1] => set (r := x) in *; destruct (Z.leb_spec r 1) end; [by apply Hoff|].
  assert ((total_num_parts g -[32] (num_parts_requested g + 1)) +[32] 1 = rest) as Hrest.
  { unfold rest. rewrite (wrap_small 32 (_ - _)) by (unfold uint; lia). rewrite wrap_small by (unfold uint; lia). lia. }
  rewrite Hrest in *. destruct (Z.leb_spec rest r); [by apply Hoff|].
  rewrite (requests_spread (total_num_parts g) (ltac:(lia)) _ _ (num_parts_requested g + 1) rest r 0) by (done || lia).
  rewrite Z2Nat.id by lia. apply handout_all; lia.
Qed.

(** * Witnesses *)

(** Eleven parts of ten bytes, the first one requested by the discovery; three
    connections; a file that is written out of order. *)
Definition spread_config : get_config :=
  mkGetConfig false false false 0 0 false None None false AWS_SCVM_DEFAULT false false false false 0 false false 4096 3
    true false AWS_TRIBOOL_UNSET AWS_TRIBOOL_UNSET AWS_TRIBOOL_UNSET.

Definition spread_start : get_state :=
  mkGetState 10 0 109 110 10 11 1 1 1 0 0 true false false false false no_spread None false true 0 0 true 0 0 false 0
    false.

Lemma each_part_requested_once_witness :
  get_part_number <$> (request_parts 10 (s_init_spread_synced spread_config spread_start)).1
    = [2; 6; 9; 3; 7; 10; 4; 8; 11; 5] ∧
  get_part_number <$> (request_parts (Z.to_nat (11 - 1)) (s_init_spread_synced spread_config spread_start)).1
    ≡ₚ seqZ (1 + 1) (11 - 1).
Proof.
  split; [vm_compute; reflexivity|].
  exact (each_part_requested_once spread_config spread_start ltac:(simpl; lia) ltac:(simpl; lia)).
Defined.
