(* ===== verification/GetDownload.v ===== *)
(** A download as a whole: updates, responses of a server that serves one object, and the
    steps of delivery, in any order.  When the download finishes without a failure, the
    sink has received exactly the requested bytes of the object. *)

From Stdlib Require Import Init.Byte Sorted.
From S2P Require Import Prelude AwsCommon PriorityQueue PartMath Tracking.
From S2P Require Import Delivery DeliveryInv DeliveryOrder DeliveryEvent AutoRangedGet.

(** * The parts a download has received *)

Section received.
Context `{Q1 : !AwsPriorityQueue s3_request part_number} `{!AwsPriorityQueueLaws s3_request part_number Q1}.
Context `{Q2 : !AwsPriorityQueue delivery_tracking_record track_part_number}.
Context `{M : !AwsMath} `{!AwsMathLaws M}.
Context (accept : list (Z * list byte) → Z → list byte → option aws_error).
Context (checksum_update : list byte → list byte → option aws_error).
Context (dc : delivery_config).
Context (Hordered : out_of_order_delivery dc = false).
Context (Hsink : ∀ base origin resolved, sink dc = RecvFile base origin resolved → uint 64 base ∧ uint 64 origin).

Definition received (d : delivery) : list s3_request :=
  streamed d ++ pq_elems (pending_body_streaming_requests d).

Lemma stream_ready_received fuel d : received (stream_ready fuel d) ≡ₚ received d.
Proof.
  revert d. induction fuel as [|fuel IH]; intros d; [done|]. cbn [stream_ready].
  pose proof (pop_next_cases d) as Hpop.
  destruct (s_s3_meta_request_body_streaming_pop_next_synced d) as [[r d1]|]; [|done].
  destruct Hpop as (_ & q & Hq & ->). rewrite IH, add_event_Some. unfold received. simpl. rewrite Hq.
  by rewrite <-app_assoc.
Qed.

(** Only the part that arrives is added; it is lost when the queue cannot grow. *)
Lemma stream_received d r : received (aws_s3_meta_request_stream_response_body_synced dc d r) ≡ₚ received d ∨
  received (aws_s3_meta_request_stream_response_body_synced dc d r) ≡ₚ r :: received d.
Proof.
  unfold aws_s3_meta_request_stream_response_body_synced. rewrite Hordered. rewrite stream_ready_received.
  unfold s_s3_meta_request_body_streaming_push_synced, received.
  destruct (aws_priority_queue_push _ _) as [q|] eqn:Hq; [right|by left]. simpl.
  apply pq_push_elems in Hq. rewrite Hq. by rewrite Permutation_middle.
Qed.

Lemma io_step_received n d d' : inv dc n d → io_step accept checksum_update dc d d' →
  streamed d' = streamed d ∧ pending_body_streaming_requests d' = pending_body_streaming_requests d ∧
  (finish_result d' = None → finish_result d = None).
Proof.
  intros Hinv Hstep. destruct Hstep as [b Hb|e|b|Htel|d' Hs Ht He|d' Ht Hio He|d' Ht Hio He].
  - destruct (increment_read_window_spec dc d b Hb) as (w & s & -> & _);
      [apply (flow_window _ _ _ (inv_flow _ _ _ Hinv))|done].
  - unfold aws_s3_meta_request_set_fail_synced. destruct (finish_result d) eqn:Hf; [by rewrite Hf|done].
  - by rewrite add_event_Some.
  - by rewrite add_event_Some.
  - unfold task_begin in He. destruct (bool_decide _); [|done]. by apply Ok_inj in He as <-.
  - destruct (task d) as [t|] eqn:Htask; [|done]. destruct (io_event_delivery_array d) as [|ev evs] eqn:Hi; [done|].
    destruct (task_event_spec dc n accept checksum_update Hordered Hsink d t ev evs Hinv Htask Hi) as (d1 & t' & He' & Hres).
    rewrite He' in He. apply Ok_inj in He as <-. by destruct Hres.
  - destruct (task d) as [t|] eqn:Htask; [|done].
    destruct (task_end_spec dc n Hordered d t Hinv Htask) as (s & m & He' & _). rewrite He' in He. apply Ok_inj in He as <-.
    split_and!; [done..|]. simpl. unfold failed_with. by destruct (finish_result d).
Qed.

(** * Before the object is discovered *)

(** The mask is allocated with the discovery of the object.  Until then no part has
    arrived and the mask is not looked at. *)
Definition with_mask (n : Z) (d : delivery) : delivery := d <| mask := mask_new n |>.

Definition undiscovered (d : delivery) : Prop := inv dc 1 (with_mask 1 d) ∧ received d = [].

Lemma undiscovered_quiet d : undiscovered d →
  waiting d = [] ∧ next_streaming_part d = 1 ∧ ∀ t, task d = Some t → completed_deliveries t = [].
Proof.
  intros [Hinv Hr]. apply app_eq_nil in Hr as [Hst _].
  pose proof (inv_counts _ _ _ Hinv) as [Hsent Hc Hnn]. simpl in Hsent. rewrite Hst in Hsent. simpl in Hsent.
  assert (waiting (with_mask 1 d) = []) as Hw by (apply length_zero_iff_nil; simpl in *; lia).
  pose proof (streamed_len _ _ (inv_order _ _ _ Hinv)) as Hlen. simpl in Hlen. rewrite Hst in Hlen. simpl in Hlen.
  split_and!; [done|lia|].
  intros t Ht. destruct (completed_deliveries t) as [|x l] eqn:Hl; [done|].
  assert (track_part_number x ∈ task_completed (with_mask 1 d)) as Hk.
  { unfold task_completed. simpl. rewrite Ht, Hl. left. }
  apply (masks_before _ _ (inv_masks _ _ _ Hinv)) in Hk. simpl in Hk. lia.
Qed.

Lemma with_mask_add n d ev : with_mask n (aws_s3_meta_request_add_event_for_delivery_synced d ev) =
  aws_s3_meta_request_add_event_for_delivery_synced (with_mask n d) ev.
Proof. destruct ev; [by rewrite !add_event_Some|by rewrite !add_event_None]. Qed.

Lemma with_mask_increment n d bytes : with_mask n (aws_s3_meta_request_increment_read_window dc d bytes) =
  aws_s3_meta_request_increment_read_window dc (with_mask n d) bytes.
Proof.
  unfold aws_s3_meta_request_increment_read_window. destruct (_ || _); [done|]. by rewrite with_mask_add.
Qed.

Lemma with_mask_fail n d e : with_mask n (aws_s3_meta_request_set_fail_synced d e) =
  aws_s3_meta_request_set_fail_synced (with_mask n d) e.
Proof. unfold aws_s3_meta_request_set_fail_synced. simpl. by destruct (finish_result d). Qed.

Lemma with_mask_requeue n d t : requeue_incomplete (with_mask n d) t =
  match requeue_incomplete d t with Ok d' => Ok (with_mask n d') | OutOfMemory => OutOfMemory | FatalAssert => FatalAssert end.
Proof.
  unfold requeue_incomplete. destruct (incomplete_deliver_events t) as [|ev l]; [done|].
  destruct (_ =? _); [|done]. simpl. destruct (_ && _); [|done]. by rewrite with_mask_add.
Qed.

Lemma with_mask_end n d d' : (∀ t, task d = Some t → completed_deliveries t = []) →
  task_end dc d = Ok d' → task_end dc (with_mask n d) = Ok (with_mask n d').
Proof.
  unfold task_end. intros Hq. change (task (with_mask n d)) with (task d).
  destruct (task d) as [t|] eqn:Ht; [|by intros ->%Ok_inj].
  specialize (Hq t eq_refl). rewrite Hordered, Hq. simpl.
  set (d1 := match error_code t with Some e => _ | None => _ end).
  set (d2 := match error_code t with Some e => _ | None => _ end).
  assert (d2 = with_mask n d1) as ->.
  { unfold d1, d2. destruct (error_code t); [|done]. by rewrite with_mask_fail. }
  rewrite with_mask_requeue. destruct (requeue_incomplete d1 t) as [d3| |]; try done.
  intros <-%Ok_inj. done.
Qed.

Lemma io_step_with_mask d d' : undiscovered d → io_step accept checksum_update dc d d' →
  io_step accept checksum_update dc (with_mask 1 d) (with_mask 1 d').
Proof.
  intros Hun Hstep. destruct (undiscovered_quiet d Hun) as (Hw & _ & Hcomp).
  destruct Hstep as [b Hb|e|b|Htel|d' Hs Ht He|d' Ht Hio He|d' Ht Hio He].
  - rewrite with_mask_increment. by constructor.
  - rewrite with_mask_fail. constructor.
  - rewrite with_mask_add. constructor.
  - rewrite with_mask_add. by constructor.
  - apply step_begin; [done..|]. unfold task_begin in *. simpl. destruct (bool_decide _); [|done].
    by apply Ok_inj in He as <-.
  - apply step_event; [done..|]. unfold task_event in *. simpl.
    unfold waiting, undelivered in Hw. rewrite !bodies_app in Hw. apply app_eq_nil in Hw as [_ [Hbody _]%app_eq_nil].
    destruct (task d) as [t|]; [|done]. destruct (io_event_delivery_array d) as [|ev evs]; [done|].
    destruct ev; simpl in *; [done|by apply Ok_inj in He as <-|].
    destruct (has_telemetry_callback dc); [|done]. by apply Ok_inj in He as <-.
  - apply step_end; [done..|]. by apply with_mask_end.
Qed.

Lemma undiscovered_io_step d d' : undiscovered d → io_step accept checksum_update dc d d' → undiscovered d'.
Proof.
  intros Hun Hstep. pose proof (io_step_with_mask d d' Hun Hstep) as Hstep'. destruct Hun as [Hinv Hr].
  split; [by apply (inv_io_step dc 1 accept checksum_update Hordered Hsink _ _ Hinv)|].
  destruct (io_step_received 1 _ _ Hinv Hstep') as (Hst & Hq & _). unfold received in *. simpl in *. by rewrite Hst, Hq.
Qed.

(** The mask of the discovered object takes the place of none. *)
Lemma undiscovered_discovered n d : undiscovered d → 1 ≤ n < 2 ^ 32 - 8 → inv dc n (with_mask n d).
Proof.
  intros Hun Hn. destruct (undiscovered_quiet d Hun) as (Hw & Hnext & Hcomp). destruct Hun as [Hinv Hr].
  apply app_eq_nil in Hr as [Hst Hq].
  assert (task_completed d = []) as Htc.
  { unfold task_completed. destruct (task d) as [t|]; [|done]. by rewrite (Hcomp t eq_refl). }
  change (waiting d) with (waiting (with_mask n d)) in Hw.
  assert (waiting_parts (with_mask n d) = []) as Hwp by (unfold waiting_parts; by rewrite Hw).
  change (task_completed d) with (task_completed (with_mask n d)) in Htc.
  destruct Hinv as [[] [] [] [] [] Htot Hsched]. simpl in *.
  split; [split|split|split|split|split|exact Htot|exact Hsched]; rewrite ?Hwp, ?Htc; try done; try (by constructor);
    try (by intros ? ?%elem_of_nil).
  - rewrite Hw. constructor.
  - simpl. lia.
  - simpl. rewrite Hq. constructor.
  - by apply mask_new_ok.
  - intros k _. simpl. by rewrite mask_new_none.
  - intros k _. simpl. rewrite Hnext. lia.
Qed.
End received.

(** * An object and a server that serves it *)

Section slices.
Context (object : list byte).

(** The bytes [a] to [b], both included. *)
Definition slice (a b : Z) : list byte := take (Z.to_nat (b - a + 1)) (drop (Z.to_nat a) object).

Lemma slice_app a b e : 0 ≤ a → a ≤ b + 1 → b ≤ e → slice a b ++ slice (b + 1) e = slice a e.
Proof.
  intros Ha Hb He. unfold slice.
  replace (drop (Z.to_nat (b + 1)) object) with (drop (Z.to_nat (b - a + 1)) (drop (Z.to_nat a) object))
    by (rewrite drop_drop; f_equal; lia).
  rewrite take_take_drop. f_equal. lia.
Qed.

Lemma slice_len a b : 0 ≤ a → a ≤ b + 1 → b < body_len object → body_len (slice a b) = b - a + 1.
Proof. unfold slice, body_len. intros. rewrite length_take, length_drop. lia. Qed.

(** Ranges that tile a range cut its bytes into pieces. *)
Lemma slice_tiles l s e : 0 ≤ s → tiles s e l → concat ((λ r, slice r.1 r.2) <$> l) = slice s e.
Proof.
  revert s. induction l as [|[a b] l IH]; intros s Hs; simpl.
  - intros ->. unfold slice. by replace (Z.to_nat (e - (e + 1) + 1)) with 0%nat by lia.
  - intros (-> & Hb & Hl). change (slice s b ++ concat ((λ r, slice r.1 r.2) <$> l) = slice s e).
    rewrite (IH (b + 1)) by (done || lia). apply slice_app; lia.
Qed.

(** The first and the last byte of the download: what the range header asks for, or all
    of the object. *)
Definition requested_range (c : get_config) : Z * Z :=
  let last := body_len object - 1 in
  if initial_message_has_range_header c then
    if initial_message_has_start_range c
    then (initial_range_start c, if initial_message_has_end_range c then Z.min last (initial_range_end c) else last)
    else (Z.max 0 (body_len object - initial_range_end c), last)
  else (0, last).

(** What a server answers that has [object], whose first stored part has [stored] bytes.
    A success carries the ETag, the headers and the bytes of the range; nothing is said
    of the errors, except that an object with bytes is not reported as empty, and that
    a buffer that turns out too small for part 1 comes with its headers. *)
Definition honest (c : get_config) (stored : Z) (r : get_request) (resp : get_response) : Prop :=
  (resp_error resp = None ∨ is_mismatch (resp_error resp) = true → resp_etag resp ≠ None) ∧
  (is_mismatch (resp_error resp) = true → request_tag r = GET_OBJECT_WITH_PART_NUMBER_1) ∧
  resp_empty_file resp = false ∧
  match request_tag r with
  | HEAD_OBJECT =>
      let '(s, e) := requested_range c in
      resp_error resp = None →
      0 ≤ s ≤ e ∧ resp_content_length resp = Success (e - s + 1) ∧
      (initial_message_has_range_header c = true → resp_content_range resp = Success (s, e, body_len object))
  | GET_OBJECT_WITH_RANGE =>
      let s := get_range_start r in
      let e := Z.min (get_range_end r) (body_len object - 1) in
      resp_error resp = None →
      0 ≤ s ≤ e ∧ resp_body resp = slice s e ∧ resp_content_range resp = Success (s, e, body_len object)
  | GET_OBJECT_WITH_PART_NUMBER_1 =>
      resp_error resp = None ∨ is_mismatch (resp_error resp) = true →
      resp_content_length resp = Success stored ∧
      resp_content_range resp = Success (0, stored - 1, body_len object) ∧
      (resp_error resp = None → resp_body resp = slice 0 (stored - 1))
  end.
End slices.

(** * The states of a download *)

Section phases.
Context `{Q1 : !AwsPriorityQueue s3_request part_number} `{!AwsPriorityQueueLaws s3_request part_number Q1}.
Context `{Q2 : !AwsPriorityQueue delivery_tracking_record track_part_number}.
Context `{M : !AwsMath} `{!AwsMathLaws M}.
Context (derive_aligned_buffer_size : Z → Z) (c : get_config) (dc : delivery_config).
Context (object : list byte) (stored least : Z).

(** An object with bytes, delivered in order.  Part sizes are at least [least] and the
    parts are few enough to be counted in 32 bits. *)
Record setting : Prop := {
  set_object : 0 < body_len object < 2 ^ 61;
  set_stored : 0 < stored ≤ body_len object;
  set_least : 1 ≤ least;
  set_parts : body_len object / least + 2 < 2 ^ 32 - 8;
  set_start : 0 ≤ initial_range_start c < 2 ^ 61;
  set_end : 0 ≤ initial_range_end c < 2 ^ 64 - 1;
  set_range : initial_message_has_start_range c = true → initial_message_has_end_range c = true →
    initial_range_start c ≤ initial_range_end c;
  set_capacity cap : recv_buffer_capacity c = Some cap → 0 < cap < 2 ^ 64;
  set_client : uint 64 (client_optimal_range_size c);
  set_page : 0 < page_size c < 2 ^ 60;
  set_derive x : g_default_part_size_fallback ≤ x ≤ GB_TO_BYTES 2 → least ≤ derive_aligned_buffer_size x < 2 ^ 60;
  set_allow : aws_s3_allow_out_of_order_delivery (file_sink c) (callback_sink c) (out_of_order_delivery_override c)
    (client_out_of_order_delivery c) (out_of_order_delivery_env c) = false;
  set_ordered : out_of_order_delivery dc = false;
}.

Definition size_ok (g : get_state) : Prop := least ≤ part_size g < 2 ^ 61.

Definition part_range (g : get_state) (k : Z) : Z * Z :=
  aws_s3_calculate_auto_ranged_get_part_range (object_range_start g) (object_range_end g) (part_size g)
    (first_part_size g) k.

(** The object range is known, and cut into parts. *)
Record discovered (g : get_state) : Prop := {
  disc_size : size_ok g;
  disc_sequential : out_of_order g = false ∧ spread_num_regions (spread_state g) < 2;
  disc_known : object_range_known g = true;
  disc_range : requested_range object c = (object_range_start g, object_range_end g);
  disc_bounds : 0 ≤ object_range_start g ≤ object_range_end g ∧ object_range_end g < body_len object;
  disc_first : 0 < first_part_size g < 2 ^ 61;
  disc_total : total_num_parts g = aws_s3_calculate_auto_ranged_get_num_parts (part_size g) (first_part_size g)
    (object_range_start g) (object_range_end g);
  disc_requested : 0 ≤ num_parts_requested g ≤ total_num_parts g;
}.

(** A request on its way, and a part that was received. *)
Definition requested_part (g : get_state) (r : get_request) : Prop :=
  discovers_object_size r = false ∧ request_tag r = GET_OBJECT_WITH_RANGE ∧
  1 ≤ get_part_number r ≤ num_parts_requested g ∧ (get_range_start r, get_range_end r) = part_range g (get_part_number r).

Definition received_part (g : get_state) (r : s3_request) : Prop :=
  1 ≤ part_number r ≤ num_parts_requested g ∧
  part_range_start r = (part_range g (part_number r)).1 ∧
  response_body r = slice object (part_range g (part_number r)).1 (part_range g (part_number r)).2.

Record downloading (g : get_state) (d : delivery) (inflight : list get_request) : Prop := {
  down_discovered : discovered g;
  down_inv : inv dc (total_num_parts g) d;
  down_inflight : Forall (requested_part g) inflight;
  down_once : NoDup ((get_part_number <$> inflight) ++ (part_number <$> received d));
  down_received : Forall (received_part g) (received d);
}.

(** The request that discovers the object. *)
Definition discovering (g : get_state) (r : get_request) : Prop :=
  discovers_object_size r = true ∧
  match request_tag r with
  | HEAD_OBJECT => get_part_number r = 0 ∧ num_parts_requested g = 0 ∧ head_object_sent g = true
  | GET_OBJECT_WITH_RANGE =>
      let start := if initial_message_has_range_header c then initial_range_start c else 0 in
      get_part_number r = 1 ∧ num_parts_requested g = 1 ∧
      (initial_message_has_range_header c = true → initial_message_has_start_range c = true) ∧
      get_range_start r = start ∧ get_range_end r = start + first_part_size g - 1 ∧
      (initial_message_has_range_header c = true → initial_message_has_end_range c = true →
        get_range_end r ≤ initial_range_end c)
  | GET_OBJECT_WITH_PART_NUMBER_1 =>
      get_part_number r = 1 ∧ num_parts_requested g = 1 ∧ initial_message_has_range_header c = false ∧
      get_range_start r = 0
  end.

Record discovering_state (g : get_state) (d : delivery) (inflight : list get_request) : Prop := {
  ding_size : size_ok g;
  ding_sequential : out_of_order g = false ∧ spread_num_regions (spread_state g) < 2;
  ding_known : object_range_known g = false;
  ding_empty : object_range_empty g = false;
  ding_first : 0 < first_part_size g < 2 ^ 61;
  ding_quiet : undiscovered dc d;
  ding_inflight :
    inflight = [] ∧ (finish_result d = None → num_parts_requested g = 0 ∧ first_part_size g = part_size g) ∨
    ∃ r, inflight = [r] ∧ discovering g r;
}.

Definition phase (g : get_state) (d : delivery) (inflight : list get_request) : Prop :=
  discovering_state g d inflight ∨ downloading g d inflight.

Context (Hset : setting).

Lemma parts_bounds ps first s e : least ≤ ps < 2 ^ 61 → 0 < first < 2 ^ 61 → 0 ≤ s ≤ e → e < body_len object →
  0 < ps ∧ e + ps < 2 ^ 64 ∧ e + first < 2 ^ 64 ∧ (e - s) / ps + 2 < 2 ^ 32 - 8.
Proof.
  intros Hps Hf Hs He. pose proof (set_object Hset). pose proof (set_least Hset). pose proof (set_parts Hset).
  split_and!; try lia. assert ((e - s) / ps ≤ body_len object / least); [|lia].
  transitivity (body_len object / ps); [apply Z.div_le_mono; lia|]. apply Z.div_le_compat_l; lia.
Qed.

Lemma num_parts_ok ps first s e : least ≤ ps < 2 ^ 61 → 0 < first < 2 ^ 61 → 0 ≤ s ≤ e → e < body_len object →
  1 ≤ aws_s3_calculate_auto_ranged_get_num_parts ps first s e < 2 ^ 32 - 8.
Proof.
  intros Hps Hf Hs He. destruct (parts_bounds ps first s e Hps Hf Hs He) as (Hp & He1 & He2 & Hc).
  destruct (num_parts_cases ps first s e) as [[_ ->]|(Hr & Hn & Hm)]; try lia.
  split; [lia|]. set (n := aws_s3_calculate_auto_ranged_get_num_parts _ _ _ _) in *.
  assert (n - 2 ≤ (e - s) / ps); [|lia]. apply Z.div_le_lower_bound; lia.
Qed.

Lemma discovered_total g : discovered g → 1 ≤ total_num_parts g < 2 ^ 32 - 8.
Proof. intros [Hsize _ _ _ [Hs He] Hf -> _]. by apply num_parts_ok. Qed.

Lemma discovered_part g k : discovered g → 1 ≤ k ≤ total_num_parts g →
  0 ≤ (part_range g k).1 ≤ (part_range g k).2 ∧ (part_range g k).2 < body_len object.
Proof.
  intros [Hsize _ _ _ Hb Hf Ht _] Hk.
  destruct (parts_bounds _ _ _ _ Hsize Hf (proj1 Hb) (proj2 Hb)) as (Hps & He & He' & Hc).
  rewrite Ht in Hk. unfold part_range. rewrite part_range_spec by lia. simpl.
  pose proof (part_start_bound (part_size g) (first_part_size g) (object_range_start g) (object_range_end g)
    Hps ltac:(lia) ltac:(lia) ltac:(lia) He He' ltac:(lia) k Hk) as [Hs _].
  assert (0 ≤ part_start (part_size g) (first_part_size g) (object_range_start g) k).
  { unfold part_start. destruct (Z.eqb_spec k 1); nia. }
  destruct (k =? 1); lia.
Qed.
End phases.
