(* ===== verification/GetDownloadInv.v ===== *)
(** Updates, responses and steps of delivery preserve what is known of a download. *)

From Stdlib Require Import Init.Byte Sorted.
From S2P Require Import Prelude AwsCommon PriorityQueue PartMath Tracking.
From S2P Require Import Delivery DeliveryInv DeliveryOrder DeliveryEvent AutoRangedGet GetDownload.

Section steps.
Context `{Q1 : !AwsPriorityQueue s3_request part_number} `{!AwsPriorityQueueLaws s3_request part_number Q1}.
Context `{Q2 : !AwsPriorityQueue delivery_tracking_record track_part_number}.
Context `{M : !AwsMath} `{!AwsMathLaws M}.
Context (derive_aligned_buffer_size : Z → Z) (c : get_config) (dc : delivery_config).
Context (object : list byte) (stored least : Z).
Context (Hset : setting derive_aligned_buffer_size c dc object stored least).

Notation discovered := (discovered c object least).
Notation downloading := (downloading c dc object least).
Notation discovering_state := (discovering_state c dc least).
Notation phase := (phase c dc object least).

(** * Updates *)

(** The state [g'] after sending the discovering request [r]. *)
Definition sends (g : get_state) (r : get_request) (g' : get_state) : Prop :=
  discovering c g' r ∧ ∃ size n sent, 0 < size < 2 ^ 61 ∧
    g' = g <| first_part_size := size |> <| num_parts_requested := n |> <| head_object_sent := sent |>.

(** The range of the discovering request ends in the range of the download. *)
Lemma sends_range g : size_ok least g → first_part_size g = part_size g → num_parts_requested g = 0 →
  (initial_message_has_range_header c = true → initial_message_has_start_range c = true) →
  ∃ r g', discover_with_range c g = (r, g') ∧ sends g r g'.
Proof.
  intros Hsize Hfirst Hreq Hhas. unfold size_ok in *. pose proof (set_least _ _ _ _ _ _ Hset).
  pose proof (set_start _ _ _ _ _ _ Hset). pose proof (set_end _ _ _ _ _ _ Hset).
  pose proof (set_range _ _ _ _ _ _ Hset) as Hrange.
  unfold discover_with_range. destruct (initial_message_has_range_header c) eqn:Hheader; simpl.
  - specialize (Hrange (Hhas eq_refl)).
    set (size := match recv_buffer_capacity c with Some _ => _ | None => _ end).
    assert (0 < size < 2 ^ 61 ∧ (initial_message_has_end_range c = true →
      size ≤ initial_range_end c - initial_range_start c + 1)) as [Hs Hle].
    { subst size. set (s1 := if initial_message_has_end_range c then _ else _).
      assert (0 < s1 < 2 ^ 61 ∧ (initial_message_has_end_range c = true →
        s1 ≤ initial_range_end c - initial_range_start c + 1)) as [Hs1 Hle1].
      { subst s1. destruct (initial_message_has_end_range c); [|by split; [lia|]].
        specialize (Hrange eq_refl). rewrite (wrap_small 64 (_ - _)) by machine. rewrite wrap_small by machine.
        rewrite aws_min_u64_spec by machine. lia. }
      destruct (recv_buffer_capacity c) as [cap|] eqn:Hcap; [|done].
      pose proof (set_capacity _ _ _ _ _ _ Hset cap Hcap). rewrite aws_min_u64_spec by machine.
      split; [lia|]. intros Hend. specialize (Hle1 Hend). lia. }
    clearbody size. rewrite Hreq. rewrite (wrap_small 64 (_ + size)) by machine. rewrite wrap_small by machine.
    eexists _, _. split; [reflexivity|]. split.
    2:{ exists size, 1, (head_object_sent g). split; [done|by destruct g]. }
    split; [done|]. simpl. rewrite Hheader. split_and!; try done; auto. intros _ Hend. specialize (Hle Hend). lia.
  - rewrite Hreq. rewrite (wrap_small 64 (0 + part_size g)) by machine. rewrite wrap_small by machine.
    eexists _, _. split; [reflexivity|]. split.
    2:{ exists (first_part_size g), 1, (head_object_sent g). split; [lia|by destruct g]. }
    split; [done|]. simpl. rewrite Hheader, Hfirst. by split_and!.
Qed.

Lemma sends_part_1 g : 0 < first_part_size g < 2 ^ 61 → num_parts_requested g = 0 →
  initial_message_has_range_header c = false →
  ∃ r g', discover_with_part_number_1 c g = (r, g') ∧ sends g r g'.
Proof.
  intros Hfirst Hreq Hheader. unfold discover_with_part_number_1. simpl. rewrite Hreq. eexists _, _. split; [reflexivity|].
  split; [by split; simpl|]. exists (first_part_size g), 1, (head_object_sent g). split; [done|by destruct g].
Qed.

Lemma sends_head g : 0 < first_part_size g < 2 ^ 61 → num_parts_requested g = 0 →
  sends g (mkGet HEAD_OBJECT 0 0 0 true) (g <| head_object_sent := true |>).
Proof.
  intros Hfirst Hreq. split; [by split|]. exists (first_part_size g), (num_parts_requested g), true. split; [done|by destruct g].
Qed.

Lemma discover_phase g d req g' inflight : discovering_state g d inflight → finish_result d = None →
  discover c g = (req, g') → discovering_state g' d (option_list req ++ inflight).
Proof.
  intros Hst Hnone. unfold discover.
  destruct (head_object_sent g || (0 <? num_parts_requested g)) eqn:Hsent; [by intros [= <- <-]|].
  apply orb_false_iff in Hsent as [Hsent Hreq%Z.ltb_ge].
  destruct (ding_inflight _ _ _ _ _ _ Hst) as [[-> Hstart]|(r & _ & Hd & Hr)].
  2:{ exfalso. destruct (request_tag r); [destruct Hr as (_ & _ & Hr); congruence|destruct Hr as (_ & Hr & _); lia..]. }
  destruct (Hstart Hnone) as [Hzero Hfirst]. pose proof (ding_first _ _ _ _ _ _ Hst) as Hfirst'.
  assert (∀ r g1, sends g r g1 → (Some r, g1) = (req, g') → discovering_state g' d (option_list req ++ [])) as Hsend.
  { intros r g1 [Hd (size & n & sent & Hsize & ->)] [= <- <-]. destruct Hst. split; try done. right. by exists r. }
  unfold s_s3_get_request_type_for_discovering_object_size. rewrite (ding_empty _ _ _ _ _ _ Hst).
  assert ((initial_message_has_range_header c = true → initial_message_has_start_range c = true) →
    (let '(request, g2) := discover_with_range c g in (Some request, g2)) = (req, g') →
    discovering_state g' d (option_list req ++ [])) as Hrange.
  { intros Hhas. destruct (sends_range g (ding_size _ _ _ _ _ _ Hst) Hfirst Hzero Hhas) as (r & g1 & -> & Hs).
    by apply Hsend. }
  pose proof (Hsend _ _ (sends_head g Hfirst' Hzero)) as Hhead.
  destruct (initial_message_has_range_header c) eqn:Hheader.
  - destruct (initial_message_has_start_range c); [by apply Hrange|exact Hhead].
  - destruct (match object_size_hint c with Some _ => _ | None => _ end).
    + destruct (sends_part_1 g Hfirst' Hzero Hheader) as (r & g1 & -> & Hs). by apply Hsend.
    + destruct (_ || _); [by apply Hrange|exact Hhead].
Qed.

(** Nothing depends on the warning. *)
Lemma warning_phase g d inflight b : downloading g d inflight →
  downloading (g <| read_window_warning_issued := b |>) d inflight.
Proof. intros [[] ????]. by split; [split|..]. Qed.

(** The next part is asked for with its range. *)
Lemma next_part_phase g d r g' inflight : downloading g d inflight → num_parts_requested g < total_num_parts g →
  next_part_request g = (r, g') → downloading g' d (r :: inflight).
Proof.
  intros [Hdisc Hinv Hin Honce Hrec] Hlt. pose proof (discovered_total _ _ _ _ _ _ Hset g Hdisc) as Htotal.
  pose proof (disc_requested _ _ _ _ Hdisc) as Hreq.
  unfold next_part_request, s_next_part_number_synced.
  rewrite (proj2 (Z.ltb_lt _ _)) by apply (disc_sequential _ _ _ _ Hdisc).
  rewrite (wrap_small 32 (num_parts_requested g + 1)) by machine.
  destruct (aws_s3_calculate_auto_ranged_get_part_range _ _ _ _ _) as [a b] eqn:Hrange. intros [= <- <-].
  simpl. rewrite (wrap_small 32 (num_parts_requested g + 1)) by machine.
  set (g' := mkGetState _ _ _ _ _ _ _ _ _ _ _ _ _ _ _ _ _ _ _ _ _ _ _ _ _ _ _ _).
  split; [destruct Hdisc; split; simpl; done || lia|done|..].
  - constructor; [split_and!; try done; simpl; lia|]. eapply list.Forall_impl; [done|].
    intros r (? & ? & ? & ?). split_and!; try done; simpl; lia.
  - simpl. constructor; [|done]. rewrite elem_of_app, !list_elem_of_fmap. rewrite list.Forall_forall in Hin. rewrite list.Forall_forall in Hrec.
    intros [(r & Hk & Hr)|(r & Hk & Hr)]; [apply Hin in Hr as (_ & _ & Hr & _)|apply Hrec in Hr as (Hr & _)]; lia.
  - eapply list.Forall_impl; [done|]. intros r (? & ? & ?). split_and!; try done; simpl; lia.
Qed.

Lemma request_part_phase g d req g' inflight : downloading g d inflight → num_parts_requested g < total_num_parts g →
  request_part c d g = (req, g') → downloading g' d (option_list req ++ inflight).
Proof.
  intros Hst Hlt. unfold request_part. destruct (_ && _); [intros [= <- <-]; by apply warning_phase|].
  set (g1 := if get_enable_read_backpressure c then _ else _).
  assert (downloading g1 d inflight ∧ num_parts_requested g1 < total_num_parts g1) as [Hst1 Hlt1].
  { subst g1. destruct (get_enable_read_backpressure c); [split; [by apply warning_phase|done]|done]. }
  destruct (next_part_request g1) as [r g2] eqn:Hnext. intros [= <- <-]. by apply (next_part_phase g1).
Qed.

Lemma update_work_phase g d conservative work req g' inflight : phase g d inflight →
  update_work c conservative d g = (work, req, g') → phase g' d (option_list req ++ inflight).
Proof.
  intros Hst. unfold update_work. destruct (finish_result d) eqn:Hf.
  { do 3 (case_match; [by intros [= <- <- <-]|]). by intros [= <- <- <-]. }
  destruct (_ && _); [by intros [= <- <- <-]|]. destruct Hst as [Hst|Hst].
  - rewrite (ding_known _ _ _ _ _ _ Hst). simpl. destruct (discover c g) as [r g1] eqn:Hd. intros [= <- <- <-].
    left. by apply (discover_phase g).
  - rewrite (disc_known _ _ _ _ (down_discovered _ _ _ _ _ _ _ Hst)). simpl.
    destruct (Z.ltb_spec (num_parts_requested g) (total_num_parts g)) as [Hlt|_].
    + destruct (request_part c d g) as [r g1] eqn:Hd. intros [= <- <- <-]. right. by apply (request_part_phase g).
    + case_match; intros [= <- <- <-]; by right.
Qed.

(** * Responses *)

(** What a download in progress depends on. *)
Definition view (g : get_state) :=
  (part_size g, first_part_size g, object_range_start g, object_range_end g, total_num_parts g,
   num_parts_requested g, object_range_known g, out_of_order g, spread_state g).

Lemma downloading_view g g' d inflight : view g' = view g → downloading g d inflight → downloading g' d inflight.
Proof.
  destruct g, g'. unfold view. simpl. intros [= -> -> -> -> -> -> -> -> ->] [[] ????].
  by split; [split|..].
Qed.

Lemma view_part_size g g' : view g' = view g → part_size g' = part_size g.
Proof. unfold view. congruence. Qed.

Lemma received_fail d e : received (aws_s3_meta_request_set_fail_synced d e) = received d.
Proof. unfold aws_s3_meta_request_set_fail_synced. by destruct (finish_result d). Qed.

Lemma downloading_fail g d e inflight : downloading g d inflight →
  downloading g (aws_s3_meta_request_set_fail_synced d e) inflight.
Proof. intros [????]. split; rewrite ?received_fail; try done. by apply inv_set_fail. Qed.

Lemma downloading_failed g d e inflight : downloading g d inflight →
  downloading (if bool_decide (e = AWS_ERROR_S3_RESPONSE_CHECKSUM_MISMATCH) then g <| did_validate := true |> else g)
    (aws_s3_meta_request_set_fail_synced d e) inflight.
Proof. intros Hst%(downloading_fail _ _ e). case_bool_decide; [by apply (downloading_view g)|done]. Qed.

Lemma downloading_progress g d bytes inflight : downloading g d inflight →
  downloading g (aws_s3_meta_request_add_event_for_delivery_synced d (Some (EVENT_PROGRESS bytes))) inflight.
Proof.
  intros [Hd Hinv Hin Honce Hrec]. assert (received (aws_s3_meta_request_add_event_for_delivery_synced d
    (Some (EVENT_PROGRESS bytes))) = received d) as Hr by (by rewrite add_event_Some).
  split; rewrite ?Hr; try done. by apply inv_add_event.
Qed.

(** A part arrives that was neither received nor is asked for by another request. *)
Lemma downloading_stream g d r inflight : downloading g d inflight → received_part object g r →
  part_number r ∉ (get_part_number <$> inflight) ++ (part_number <$> received d) →
  downloading g (aws_s3_meta_request_stream_response_body_synced dc d r) inflight.
Proof.
  intros [Hd Hinv Hin Honce Hrec] Hr Hnew. pose proof (set_ordered _ _ _ _ _ _ Hset) as Hord.
  assert (request_ok (total_num_parts g) r) as Hok.
  { destruct Hr as (Hk & Hs & Hb). pose proof (disc_requested _ _ _ _ Hd).
    destruct (discovered_part _ _ _ _ _ _ Hset g (part_number r) Hd ltac:(lia)) as [Hpr He].
    pose proof (set_object _ _ _ _ _ _ Hset). split; [lia|lia|]. rewrite Hs, Hb, slice_len by lia. lia. }
  split; [done|by apply inv_stream|done|..];
    destruct (stream_received dc Hord d r) as [Hrcv|Hrcv]; rewrite ?Hrcv; try done.
  - simpl. rewrite <-Permutation_middle. by constructor.
  - by constructor.
Qed.

Definition phase_of (m : get_meta_request) (inflight : list get_request) : Prop :=
  phase (get_data m) (get_delivery m) inflight.

Definition part_of (r : get_request) (resp : get_response) : s3_request :=
  mkRequest (get_part_number r) (get_range_start r) (get_range_end r) (resp_body resp).

Lemma part_finished_phase g d r resp inflight : downloading g d inflight →
  get_part_number r ∉ (get_part_number <$> inflight) ++ (part_number <$> received d) →
  (resp_error resp = None → received_part object g (part_of r resp)) →
  let m := part_finished c dc (mkGetMeta g d) r resp in
  downloading (get_data m) (get_delivery m) inflight.
Proof.
  intros Hst Hnew Hrec. unfold part_finished. destruct (resp_error resp) as [e|] eqn:He; cbv zeta; cbn [get_data get_delivery].
  { by apply (downloading_view g). }
  specialize (Hrec eq_refl). fold (part_of r resp).
  match goal with |- context [out_of_order ?x] => set (g' := x) end.
  set (d' := if has_progress_callback c then _ else _).
  assert (downloading g d' inflight ∧ received d' = received d) as [Hst' Hr].
  { subst d'. destruct (has_progress_callback c); [split; [by apply downloading_progress|by rewrite add_event_Some]|done]. }
  assert (out_of_order g' = false ∧ view g' = view g) as [Hord Hview].
  { destruct (disc_sequential _ _ _ _ (down_discovered _ _ _ _ _ _ _ Hst)). subst g'.
    by destruct (resp_did_validate resp). }
  replace (dc <| out_of_order_delivery := out_of_order g' |>) with dc.
  2:{ rewrite Hord. pose proof (set_ordered _ _ _ _ _ _ Hset) as Hd. by destruct dc; simpl in *; subst. }
  apply (downloading_view g); [done|]. apply downloading_stream; [done|done|]. simpl. by rewrite Hr.
Qed.

(** The response to a request for one part. *)
Lemma part_response_phase g d r resp inflight1 inflight2 : downloading g d (inflight1 ++ r :: inflight2) →
  honest object c stored r resp →
  phase_of (s_s3_auto_ranged_get_request_finished derive_aligned_buffer_size c dc (mkGetMeta g d) r resp)
    (inflight1 ++ inflight2).
Proof.
  intros Hst (_ & Hmis & _ & Hresp). pose proof Hst as [Hd Hinv Hin Honce Hrec].
  apply list.Forall_app in Hin as [Hin1 Hin2]. apply list.Forall_cons in Hin2 as [Hr Hin2].
  destruct Hr as (Hdisc & Htag & Hk & Hrange). rewrite Htag in *.
  assert (NoDup (get_part_number r :: (get_part_number <$> (inflight1 ++ inflight2)) ++ (part_number <$> received d)))
    as [Hnew Honce']%list.NoDup_cons.
  { revert Honce. rewrite !fmap_app, fmap_cons, <-!app_assoc. simpl. by rewrite <-Permutation_middle. }
  assert (downloading g d (inflight1 ++ inflight2)) as Hst'.
  { split; try done. by apply list.Forall_app. }
  right. unfold s_s3_auto_ranged_get_request_finished. rewrite Hdisc. simpl. unfold finish_by_type. rewrite Htag. simpl.
  rewrite (surjective_pairing (part_range g _)) in Hrange. injection Hrange as Hs He.
  pose proof (disc_requested _ _ _ _ Hd).
  destruct (discovered_part _ _ _ _ _ _ Hset g (get_part_number r) Hd ltac:(lia)) as [Hpr Hpe].
  assert (resp_error resp = None → received_part object g (part_of r resp)) as Hgot.
  { intros Hnone. destruct (Hresp Hnone) as (_ & Hb & _). split; [done|]. split; [done|]. simpl.
    rewrite Hb, Hs, He. f_equal. lia. }
  pose proof (part_finished_phase g d r resp (inflight1 ++ inflight2) Hst' Hnew Hgot) as Hfin. simpl in Hfin.
  destruct (resp_error resp) as [e|]; [by apply downloading_failed|done].
Qed.

(** * Discovery *)

Lemma discover_failure r resp e : honest object c stored r resp → resp_error resp = Some e →
  is_mismatch (resp_error resp) = false → s_discover_object_range_and_size c r resp = Failure e.
Proof.
  intros (_ & _ & Hempty & _) He Hmis. unfold s_discover_object_range_and_size. rewrite He in *.
  destruct (request_tag r); [done| |by destruct e].
  rewrite Hempty. by rewrite andb_false_r.
Qed.

(** A successful response tells the range of the download. *)
Lemma discover_success g r resp : discovering c g r → honest object c stored r resp →
  resp_error resp = None ∨ is_mismatch (resp_error resp) = true →
  let '(s, e) := requested_range object c in
  0 ≤ s ≤ e ∧ e < body_len object ∧
  s_discover_object_range_and_size c r resp = Success (mkDiscovery s e (body_len object)
    (if bool_decide (request_tag r = GET_OBJECT_WITH_PART_NUMBER_1) then stored else 0) false).
Proof.
  intros [_ Hr] (_ & Hmis & _ & Hresp) Hok. pose proof (set_object _ _ _ _ _ _ Hset).
  pose proof (set_stored _ _ _ _ _ _ Hset). pose proof (set_range _ _ _ _ _ _ Hset) as Hse.
  pose proof (set_end _ _ _ _ _ _ Hset).
  destruct (requested_range object c) as [s e] eqn:Hrange. unfold requested_range in Hrange.
  unfold s_discover_object_range_and_size. destruct (request_tag r) eqn:Htag.
  - destruct Hok as [Hnone|Hmis']; [|by apply Hmis in Hmis']. rewrite Hnone.
    destruct (Hresp Hnone) as (Hs & -> & Hcr). simpl.
    destruct (initial_message_has_range_header c); simpl.
    + rewrite Hcr by done. simpl. split_and!; try done; try lia.
      destruct (initial_message_has_start_range c); [destruct (initial_message_has_end_range c)|];
        injection Hrange as <- <-; lia.
    + injection Hrange as <- <-. split_and!; try lia. rewrite (proj2 (Z.ltb_lt _ _)) by lia.
      do 2 f_equal; lia.
  - destruct Hok as [Hnone|Hmis']; [|by apply Hmis in Hmis']. rewrite Hnone.
    destruct (Hresp Hnone) as (Hs & _ & ->). simpl. destruct Hr as (_ & _ & Hhas & Hst & _).
    rewrite (wrap_small 64 (_ - 1)) by machine.
    destruct (initial_message_has_range_header c); simpl.
    + specialize (Hhas eq_refl). rewrite Hhas in *.
      destruct (initial_message_has_end_range c); [rewrite aws_min_u64_spec by machine|];
        injection Hrange as <- <-; rewrite Hst in *; split_and!; try done; try lia.
    + injection Hrange as <- <-. split_and!; try done; lia.
  - destruct Hr as (_ & _ & Hheader & _). rewrite Hheader in *. injection Hrange as <- <-.
    destruct (Hresp Hok) as (Hcl & Hcr & _). split_and!; try lia.
    destruct Hok as [Hnone|Hmis'%bool_decide_eq_true]; [rewrite Hnone|rewrite Hmis'];
      rewrite Hcl; simpl; rewrite (proj2 (Z.ltb_lt 0 stored)) by lia; rewrite Hcr; simpl;
      by rewrite (wrap_small 64 (_ - 1)) by machine.
Qed.

(** The part size may change with what was discovered, and nothing else of the state. *)
Definition resized (g g' : get_state) : Prop := ∃ ps, least ≤ ps < 2 ^ 61 ∧ view g' = view (g <| part_size := ps |>).

Lemma resized_view g g1 g2 : resized g g1 → view g2 = view g1 → resized g g2.
Proof. intros (ps & Hps & Hv) Hv'. exists ps. by rewrite Hv'. Qed.

Lemma request_range_bounds client_size stored_size express size :
  aws_s3_calculate_request_optimal_range_size client_size stored_size express = Success size →
  uint 64 client_size → uint 64 stored_size → g_default_part_size_fallback ≤ size ≤ GB_TO_BYTES 2.
Proof.
  intros Hr Hc Hs. unfold aws_s3_calculate_request_optimal_range_size in Hr.
  destruct (client_size =? 0); [done|]. simpl in Hr.
  set (size1 := if (0 <? stored_size) && (stored_size <? client_size) then stored_size else client_size) in Hr.
  assert (uint 64 size1) by (subst size1; by destruct (_ && _)). clearbody size1.
  unfold g_default_part_size_fallback in *.
  destruct (Z.ltb_spec size1 (MB_TO_BYTES 8)), express; injection Hr as <-; rewrite aws_min_u64_spec by machine; machine.
Qed.

Lemma page_rounding size page : 0 < size < 2 ^ 60 → 0 < page < 2 ^ 60 →
  size ≤ (size / page +[64] 1) *[64] page < 2 ^ 61.
Proof.
  intros Hs Hp. pose proof (Z.div_mod size page ltac:(lia)). pose proof (Z.mod_pos_bound size page ltac:(lia)).
  assert (0 ≤ size / page ≤ size) by (split; [apply Z.div_pos|apply Z.div_le_upper_bound]; nia).
  rewrite (wrap_small 64 (_ + 1)) by machine. rewrite wrap_small by machine. lia.
Qed.

Lemma choose_part_size_spec g r f : size_ok least g →
  uint 64 (estimated_object_stored_part_size g) →
  let '(g', f') := choose_part_size derive_aligned_buffer_size c g r f in
  resized g g' ∧ (f' = f ∨ request_tag r = HEAD_OBJECT ∧
    f' = mkDiscovery (found_range_start f) (found_range_end f) (found_object_size f) (part_size g') (empty_file_error f)).
Proof.
  intros Hsize He. pose proof (set_client _ _ _ _ _ _ Hset) as Hc. unfold choose_part_size.
  assert (resized g g) as Hsame by (exists (part_size g); split; [done|by destruct g]).
  destruct (dynamic_part_size c); [|by split; [|left]].
  destruct (aws_s3_calculate_request_optimal_range_size _ _ _) as [size|e] eqn:Hopt; [|by split; [|left]].
  apply request_range_bounds in Hopt as Hb; [|done..].
  pose proof (set_derive _ _ _ _ _ _ Hset size Hb) as Hd. pose proof (set_page _ _ _ _ _ _ Hset) as Hpage.
  pose proof (set_least _ _ _ _ _ _ Hset).
  set (ps := if recv_file_direct_io c && _ then _ else _).
  assert (least ≤ ps < 2 ^ 61) as Hps.
  { subst ps. destruct (_ && _); [|lia].
    pose proof (page_rounding (derive_aligned_buffer_size size) (page_size c) ltac:(lia) Hpage). lia. }
  clearbody ps. cbv zeta. set (g1 := if _ <? _ then _ else _).
  assert (resized g g1 ∧ part_size g1 = ps) as [Hg1 Hps1].
  { subst g1. destruct (_ <? _); (split; [by exists ps|done]). }
  split; [done|]. rewrite Hps1. case_bool_decide; [by right|by left].
Qed.

(** What the discovery of the object found. *)
Definition found_by (r : get_request) (g : get_state) (f : discovery) : Prop :=
  requested_range object c = (found_range_start f, found_range_end f) ∧
  0 ≤ found_range_start f ≤ found_range_end f ∧ found_range_end f < body_len object ∧
  found_object_size f = body_len object ∧ empty_file_error f = false ∧
  match request_tag r with
  | GET_OBJECT_WITH_PART_NUMBER_1 => found_first_part_size f = stored
  | GET_OBJECT_WITH_RANGE => found_first_part_size f = 0
  | HEAD_OBJECT => found_first_part_size f = 0 ∨ found_first_part_size f = part_size g
  end.

Lemma adopt_checksum_view g r resp f g' : adopt_checksum c g r resp f = Success g' → view g' = view g.
Proof.
  unfold adopt_checksum. repeat case_match; try (by intros [= <-]).
  destruct (resp_checksum resp); [|done]. by intros [= <-].
Qed.

Lemma request_finished_discovery_spec g r resp : discovering c g r → honest object c stored r resp → size_ok least g →
  resp_error resp = None ∨ is_mismatch (resp_error resp) = true →
  ∃ f e g', request_finished_discovery derive_aligned_buffer_size c g r resp = (Some f, e, g') ∧
    resized g g' ∧ found_by r g' f.
Proof.
  intros Hr Hh Hsize Hok. pose proof (discover_success g r resp Hr Hh Hok) as Hdisc.
  destruct (requested_range object c) as [s e] eqn:Hrange. destruct Hdisc as (Hs & He & Hdisc).
  unfold request_finished_discovery. rewrite Hdisc.
  rewrite (proj2 (orb_true_iff _ _)) by (rewrite bool_decide_eq_true; exact Hok).
  destruct (resp_etag resp) as [parts|] eqn:Hetag; [|by destruct (proj1 Hh Hok)].
  set (f := mkDiscovery _ _ _ _ _). set (g1 := record_etag g f parts). cbv zeta.
  assert (view g1 = view g ∧ uint 64 (estimated_object_stored_part_size g1)) as [Hv1 He1].
  { subst g1. unfold record_etag, g_default_part_size_fallback. pose proof (set_object _ _ _ _ _ _ Hset).
    destruct parts as [n|]; [destruct (Z.ltb_spec 0 n)|]; (split; [done|]); simpl; [|machine..].
    assert (0 ≤ body_len object / n ≤ body_len object) by
      (split; [apply Z.div_pos|apply Z.div_le_upper_bound]; nia). machine. }
  assert (size_ok least g1) as Hsize1 by (unfold size_ok; by rewrite (view_part_size g g1 Hv1)).
  pose proof (choose_part_size_spec g1 r f Hsize1 He1) as Hch.
  destruct (choose_part_size _ c g1 r f) as [g2 f2]. destruct Hch as [(ps & Hps & Hv2) Hf].
  assert (found_by r g2 f2) as Hfound.
  { destruct Hf as [->|[Htag ->]]; unfold found_by; simpl; rewrite Hrange; split_and!; try done; try lia.
    - by destruct (request_tag r); [left|..].
    - rewrite Htag. by right. }
  assert (resized g g2) as Hre.
  { exists ps. split; [done|]. rewrite Hv2. destruct g, g1; unfold view in *; simpl in *. congruence. }
  destruct (adopt_checksum c g2 r resp f2) as [g3|e3] eqn:Had; [|by eexists _, _, _].
  eexists _, _, _. split; [reflexivity|]. apply adopt_checksum_view in Had.
  set (g4 := limit_express_connections _ _ _ _).
  assert (view g4 = view g2) as Hv4 by (subst g4; unfold limit_express_connections; rewrite <-Had; by destruct (_ && _)).
  split; [by apply (resized_view g g2)|]. unfold found_by in *. by rewrite (view_part_size g2 g4 Hv4).
Qed.

Lemma setup_checksum_combine_view g r resp : view (setup_checksum_combine g r resp).2 = view g.
Proof. unfold setup_checksum_combine. by repeat case_match. Qed.

Definition first_part (g : get_state) (resp : get_response) (f : discovery) : Z :=
  if negb (is_mismatch (resp_error resp)) && negb (found_first_part_size f =? 0)
  then found_first_part_size f else first_part_size g.

Lemma record_discovery_spec g d r resp f e : found_by r g f →
  let n := aws_s3_calculate_auto_ranged_get_num_parts (part_size g) (first_part g resp f)
             (found_range_start f) (found_range_end f) in
  let m := (record_discovery c (mkGetMeta g d) r resp f e).2 in
  get_delivery m = with_mask n d ∧
  view (get_data m) = (part_size g, first_part g resp f, found_range_start f, found_range_end f, n,
    num_parts_requested g, true, false, spread_state g).
Proof.
  intros (_ & _ & _ & Hsize & _). pose proof (set_object _ _ _ _ _ _ Hset). pose proof (set_allow _ _ _ _ _ _ Hset) as Hno.
  unfold record_discovery. cbn [get_data get_delivery].
  set (p1 := match recv_buffer_capacity c, e with Some _, None => _ | _, _ => _ end).
  assert (view p1.2 = view g) as Hv1.
  { subst p1. destruct (recv_buffer_capacity c), e; try done. by destruct (_ <? _). }
  destruct p1 as [e1 g1]. simpl in Hv1. cbv zeta.
  match goal with |- context [if negb (is_mismatch _) && _ then ?a <| first_part_size := ?b |> else ?a] =>
    set (g2 := a) end.
  set (g3 := if negb _ && _ then _ else g2).
  assert (view g3 = (part_size g, first_part g resp f, found_range_start f, found_range_end f, total_num_parts g,
    num_parts_requested g, true, out_of_order g, spread_state g) ∧ object_range_empty g3 = false) as [Hv3 Hempty].
  { subst g3 g2. unfold first_part, view in *. injection Hv1 as H1 H2 H3 H4 H5 H6 H7 H8 H9.
    destruct (negb _ && _); simpl; rewrite H1, ?H2, H5, H6, H8, H9; (split; [done|]); apply Z.eqb_neq; lia. }
  clearbody g3. rewrite Hempty. cbv beta iota zeta.
  set (g4 := g3 <| total_num_parts := _ |>).
  set (p5 := if s_should_validate_whole_download c && _ then _ else _).
  assert (view p5.2 = view g4) as Hv5.
  { subst p5. destruct (_ && _); [|done]. apply setup_checksum_combine_view. }
  destruct p5 as [e5 g5]. simpl in Hv5. cbn [snd get_data get_delivery].
  unfold view in *. injection Hv3 as H1 H2 H3 H4 H5 H6 H7 H8 H9. subst g4. simpl in Hv5.
  rewrite H1, H2, H3, H4, H6, H7, H8, H9 in Hv5. rewrite H1, H2.
  split; [done|]. unfold s_resolve_out_of_order_delivery. rewrite Hno. simpl. simplify_eq. congruence.
Qed.

(** Right after the discovery, before the parts it brought are streamed. *)
Lemma discovered_now g g1 d r resp f : found_by r g f → undiscovered dc d → size_ok least g →
  0 < first_part_size g < 2 ^ 61 → spread_num_regions (spread_state g) < 2 → 0 ≤ num_parts_requested g ≤ 1 →
  let n := aws_s3_calculate_auto_ranged_get_num_parts (part_size g) (first_part g resp f)
             (found_range_start f) (found_range_end f) in
  view g1 = (part_size g, first_part g resp f, found_range_start f, found_range_end f, n,
    num_parts_requested g, true, false, spread_state g) →
  downloading g1 (with_mask n d) [].
Proof.
  intros (Hrange & Hs & He & Hsize & _ & Htag) Hun Hok Hfirst Hspread Hreq n Hv. unfold size_ok in *.
  pose proof (set_object _ _ _ _ _ _ Hset). pose proof (set_stored _ _ _ _ _ _ Hset). pose proof (set_least _ _ _ _ _ _ Hset).
  assert (0 < first_part g resp f < 2 ^ 61) as Hfp.
  { unfold first_part. destruct (negb _); [|done]. simpl.
    destruct (Z.eqb_spec (found_first_part_size f) 0); [done|]. simpl. destruct (request_tag r); lia. }
  pose proof (num_parts_ok _ _ _ _ _ _ Hset _ _ _ _ Hok Hfp Hs He) as Hn. fold n in Hn. unfold view in Hv.
  injection Hv as V1 V2 V3 V4 V5 V6 V7 V8 V9.
  split.
  - split; unfold size_ok; rewrite ?V1, ?V2, ?V3, ?V4, ?V5, ?V6, ?V7, ?V8, ?V9; done || lia.
  - rewrite V5. by apply undiscovered_discovered.
  - constructor.
  - destruct Hun as [_ Hr]. change (received (with_mask n d)) with (received d). rewrite Hr. constructor.
  - destruct Hun as [_ Hr]. change (received (with_mask n d)) with (received d). rewrite Hr. constructor.
Qed.

(** The body of the response that discovers the object is the first part. *)
Lemma first_part_received g g1 d r resp f : found_by r g f → resp_error resp = None →
  discovering c g r → honest object c stored r resp → downloading g1 d [] →
  let n := aws_s3_calculate_auto_ranged_get_num_parts (part_size g) (first_part g resp f)
             (found_range_start f) (found_range_end f) in
  view g1 = (part_size g, first_part g resp f, found_range_start f, found_range_end f, n,
    num_parts_requested g, true, false, spread_state g) →
  request_tag r ≠ HEAD_OBJECT → received_part object g1 (part_of r resp).
Proof.
  intros (Hrange & Hs & He & Hsize & _ & Htag) Hnone [_ Hr] (_ & _ & _ & Hresp) Hst n Hv Hhead.
  pose proof (discovered_total _ _ _ _ _ _ Hset _ (down_discovered _ _ _ _ _ _ _ Hst)) as Hn.
  destruct (down_discovered _ _ _ _ _ _ _ Hst) as [Hok _ _ _ Hb Hf Ht _].
  destruct (parts_bounds _ _ _ _ _ _ Hset _ _ _ _ Hok Hf (proj1 Hb) (proj2 Hb)) as (Hps & He1 & He2 & Hc).
  assert (part_range g1 1 = (object_range_start g1,
    Z.min (object_range_end g1) (object_range_start g1 + first_part_size g1 - 1))) as Hp1.
  { unfold part_range. rewrite part_range_spec by lia. done. }
  assert (part_number (part_of r resp) = 1 ∧ num_parts_requested g = 1) as [Hk Hreq].
  { simpl. destruct (request_tag r); [done|by destruct Hr as (? & ? & _)..]. }
  unfold received_part. rewrite Hk, Hp1. unfold view in Hv. injection Hv as _ H2 H3 H4 _ H6 _.
  rewrite H2, H3, H4, H6, Hreq. split; [lia|]. simpl.
  unfold requested_range in Hrange. unfold first_part. rewrite Hnone. simpl.
  destruct (request_tag r); [done|..].
  - rewrite Htag. simpl. destruct Hr as (_ & _ & Hhas & Hstart & Hend & Hle). destruct (Hresp Hnone) as (_ & -> & _).
    rewrite Hend, Hstart in *. destruct (initial_message_has_range_header c).
    + specialize (Hhas eq_refl). rewrite Hhas in Hrange. injection Hrange as Hfs Hfe. rewrite <-Hfs, <-Hfe.
      split; [done|]. f_equal. destruct (initial_message_has_end_range c); [|lia]. specialize (Hle eq_refl eq_refl). lia.
    + injection Hrange as Hfs Hfe. rewrite <-Hfs, <-Hfe. split; [done|]. f_equal. lia.
  - rewrite Htag. pose proof (set_stored _ _ _ _ _ _ Hset). rewrite (proj2 (Z.eqb_neq stored 0)) by lia. simpl.
    destruct Hr as (_ & _ & Hheader & Hstart). rewrite Hheader in Hrange. injection Hrange as Hfs Hfe.
    rewrite <-Hfs, <-Hfe. destruct (Hresp (or_introl Hnone)) as (_ & _ & Hbody). rewrite (Hbody Hnone), Hstart.
    split; [done|]. f_equal. lia.
Qed.

Lemma resized_fields g g' : resized g g' → size_ok least g' ∧ first_part_size g' = first_part_size g ∧
  num_parts_requested g' = num_parts_requested g ∧ spread_state g' = spread_state g.
Proof. intros (ps & Hps & Hv). unfold view, size_ok in *. injection Hv as -> -> _ _ _ -> _ _ ->. done. Qed.

Lemma discovering_resized g g' r : resized g g' → request_tag r ≠ HEAD_OBJECT → discovering c g r → discovering c g' r.
Proof.
  intros (_ & Hf & Hn & _)%resized_fields Htag [Hd Hr]. split; [done|]. destruct (request_tag r); [done|..];
    by rewrite ?Hf, Hn.
Qed.

Lemma discovering_requested g r : discovering c g r → 0 ≤ num_parts_requested g ≤ 1.
Proof. intros [_ Hr]. destruct (request_tag r); destruct Hr as (_ & -> & _); lia. Qed.

Lemma downloading_spread g d inflight : downloading g d inflight → downloading (s_init_spread_synced c g) d inflight.
Proof.
  intros Hst. pose proof (disc_sequential _ _ _ _ (down_discovered _ _ _ _ _ _ _ Hst)) as [Hord _].
  assert (downloading (g <| spread_state ::= λ s, s <| spread_num_regions := 0 |> |>) d inflight) as Hst'.
  { destruct Hst as [[] ????]. by split; [split|..]. }
  unfold s_init_spread_synced. cbv zeta. destruct (force_sequential_requests c); [exact Hst'|].
  replace (out_of_order _) with false by done. exact Hst'.
Qed.

Lemma finish_by_type_phase g g1 d r resp f : found_by r g f → discovering c g r ∨ request_tag r = HEAD_OBJECT →
  honest object c stored r resp → (resp_error resp = None ∨ is_mismatch (resp_error resp) = true) →
  received d = [] → downloading g1 d [] →
  let n := aws_s3_calculate_auto_ranged_get_num_parts (part_size g) (first_part g resp f)
             (found_range_start f) (found_range_end f) in
  view g1 = (part_size g, first_part g resp f, found_range_start f, found_range_end f, n,
    num_parts_requested g, true, false, spread_state g) →
  let m := finish_by_type c dc (mkGetMeta g1 d) r resp (Some f) in
  downloading (get_data m) (get_delivery m) [].
Proof.
  intros Hfound Hdisc Hh Hok Hrec Hst n Hv. unfold finish_by_type.
  assert (downloading (g1 <| num_parts_requested := 0 |>) d []) as Hagain.
  { destruct Hst as [[] ? ? ? ?]. split; [split|..]; try done; simpl; [lia|]. rewrite Hrec. constructor. }
  pose proof Hfound as (_ & _ & _ & _ & Hempty & _). rewrite Hempty.
  assert (request_tag r ≠ HEAD_OBJECT → is_mismatch (resp_error resp) = false →
    let m := part_finished c dc (mkGetMeta g1 d) r resp in downloading (get_data m) (get_delivery m) []) as Hpart.
  { intros Htag Hmis. apply part_finished_phase; [done|rewrite Hrec; simpl; set_solver|]. intros Hnone.
    destruct Hdisc as [Hdisc|?]; [|done]. by apply (first_part_received g g1 d r resp f). }
  destruct (request_tag r) eqn:Htag; simpl.
  - by apply (downloading_view g1).
  - apply Hpart; [done|]. apply not_true_is_false. intros Hmis. destruct Hh as (_ & Hm & _). by apply Hm in Hmis; congruence.
  - destruct (is_mismatch (resp_error resp)) eqn:Hmis; simpl; [done|by apply Hpart].
Qed.

Lemma undiscovered_fail d e : undiscovered dc d → undiscovered dc (aws_s3_meta_request_set_fail_synced d e).
Proof. intros [Hinv Hr]. split; [rewrite with_mask_fail; by apply inv_set_fail|by rewrite received_fail]. Qed.

(** A discovery that fails ends the download. *)
Lemma discovery_failed_phase g d r resp e : discovering_state g d [r] → discovering c g r →
  honest object c stored r resp → resp_error resp = Some e → is_mismatch (resp_error resp) = false →
  phase_of (s_s3_auto_ranged_get_request_finished derive_aligned_buffer_size c dc (mkGetMeta g d) r resp) [].
Proof.
  intros Hst [Hdisc _] Hh He Hmis. unfold s_s3_auto_ranged_get_request_finished, request_finished_discovery.
  rewrite Hdisc. cbn [get_data]. rewrite (discover_failure r resp e Hh He Hmis). cbv beta iota zeta.
  set (m := finish_by_type _ _ _ _ _ _).
  assert (get_delivery m = d ∧ view (get_data m) = view g ∧ object_range_empty (get_data m) = object_range_empty g)
    as (Hd & Hv & Hempty).
  { subst m. unfold finish_by_type, part_finished. rewrite He.
    destruct (request_tag r); simpl; try done. by rewrite andb_false_r. }
  rewrite Hd. set (e' := if _ && _ then _ else e).
  set (g' := if bool_decide _ then _ else get_data m).
  assert (view g' = view g ∧ object_range_empty g' = object_range_empty g) as [Hv' Hempty'] by
    (subst g'; by case_bool_decide).
  clearbody g' e'. cbn [get_data get_delivery]. unfold view in Hv'. injection Hv' as V1 V2 _ _ _ V6 V7 V8 V9.
  destruct Hst as [Hsize Hseq Hknown Hemp Hfirst Hquiet _].
  rewrite V7, Hknown. simpl. left. simpl. unfold size_ok in *.
  split; unfold size_ok; rewrite ?V1, ?V2, ?V7, ?V8, ?V9, ?Hempty'; try done; [by apply undiscovered_fail|].
  left. split; [done|]. unfold aws_s3_meta_request_set_fail_synced. destruct (finish_result d) eqn:Hf; [by rewrite Hf|done].
Qed.

(** A discovery that succeeds starts the download of the parts. *)
Lemma discovery_found_phase g d r resp : discovering_state g d [r] → discovering c g r →
  honest object c stored r resp → resp_error resp = None ∨ is_mismatch (resp_error resp) = true →
  phase_of (s_s3_auto_ranged_get_request_finished derive_aligned_buffer_size c dc (mkGetMeta g d) r resp) [].
Proof.
  intros Hst Hr Hh Hok.
  destruct (request_finished_discovery_spec g r resp Hr Hh (ding_size _ _ _ _ _ _ Hst) Hok)
    as (f & e1 & g1 & Hfin & Hre & Hfound).
  destruct (resized_fields g g1 Hre) as (Hsize & Hfirst & Hreq & Hspread).
  pose proof (ding_first _ _ _ _ _ _ Hst) as Hf0. pose proof (ding_sequential _ _ _ _ _ _ Hst) as [_ Hseq].
  pose proof (ding_quiet _ _ _ _ _ _ Hst) as Hquiet. pose proof (discovering_requested g r Hr) as Hreq01.
  rewrite <-Hfirst in Hf0. rewrite <-Hspread in Hseq. rewrite <-Hreq in Hreq01.
  destruct (record_discovery_spec g1 d r resp f e1 Hfound) as [Hd Hv].
  unfold s_s3_auto_ranged_get_request_finished. rewrite (proj1 Hr). cbn [get_data get_delivery]. rewrite Hfin.
  destruct (record_discovery c (mkGetMeta g1 d) r resp f e1) as [e2 [g2 d2]]. cbn [snd get_data get_delivery] in Hd, Hv.
  pose proof (discovered_now g1 g2 d r resp f Hfound Hquiet Hsize Hf0 Hseq Hreq01 Hv) as Hnow. rewrite <-Hd in Hnow.
  assert (discovering c g1 r ∨ request_tag r = HEAD_OBJECT) as Hr1.
  { destruct (decide (request_tag r = HEAD_OBJECT)); [by right|left]. by apply (discovering_resized g). }
  assert (received d2 = []) as Hrec by (rewrite Hd; exact (proj2 Hquiet)).
  pose proof (finish_by_type_phase g1 g2 d2 r resp f Hfound Hr1 Hh Hok Hrec Hnow Hv) as Hdone. cbv zeta in Hdone.
  destruct (finish_by_type c dc (mkGetMeta g2 d2) r resp (Some f)) as [g3 d3]. cbn [get_data get_delivery] in Hdone.
  assert (∀ g4 d4, downloading g4 d4 [] → phase_of (if true && object_range_known g4
    then mkGetMeta (s_init_spread_synced c g4) d4 else mkGetMeta g4 d4) []) as Hspread'.
  { intros g4 d4 H4. rewrite (disc_known _ _ _ _ (down_discovered _ _ _ _ _ _ _ H4)). right. by apply downloading_spread. }
  destruct e2 as [e2|]; [apply Hspread', downloading_failed, Hdone|by apply Hspread'].
Qed.

(** The response to the request that discovers the object. *)
Lemma discovery_response_phase g d r resp : discovering_state g d [r] → discovering c g r →
  honest object c stored r resp →
  phase_of (s_s3_auto_ranged_get_request_finished derive_aligned_buffer_size c dc (mkGetMeta g d) r resp) [].
Proof.
  intros Hst Hr Hh. destruct (is_mismatch (resp_error resp)) eqn:Hmis; [apply discovery_found_phase; auto|].
  destruct (resp_error resp) as [e|] eqn:He; [|apply discovery_found_phase; auto].
  rewrite <-He in Hmis. by apply (discovery_failed_phase g d r resp e).
Qed.

Lemma response_phase g d r resp inflight1 inflight2 : phase g d (inflight1 ++ r :: inflight2) →
  honest object c stored r resp →
  phase_of (s_s3_auto_ranged_get_request_finished derive_aligned_buffer_size c dc (mkGetMeta g d) r resp)
    (inflight1 ++ inflight2).
Proof.
  intros [Hst|Hst] Hh; [|by apply part_response_phase].
  destruct (ding_inflight _ _ _ _ _ _ Hst) as [[Hnil _]|(r' & Heq & Hr)].
  { by destruct inflight1. }
  destruct inflight1 as [|r1 inflight1]; simpl in *.
  - injection Heq as -> ->. by apply discovery_response_phase.
  - injection Heq as -> Heq. by destruct inflight1.
Qed.

(** * Delivery *)

Context (accept : list (Z * list byte) → Z → list byte → option aws_error).
Context (checksum_update : list byte → list byte → option aws_error).
Context (Hsink : ∀ base origin resolved, sink dc = RecvFile base origin resolved → uint 64 base ∧ uint 64 origin).

Lemma io_step_phase g d d' inflight : phase g d inflight → io_step accept checksum_update dc d d' → phase g d' inflight.
Proof.
  intros Hst Hstep. pose proof (set_ordered _ _ _ _ _ _ Hset) as Hord. destruct Hst as [Hst|Hst].
  - left. pose proof (ding_quiet _ _ _ _ _ _ Hst) as Hun.
    pose proof (undiscovered_io_step accept checksum_update dc Hord Hsink d d' Hun Hstep) as Hun'.
    pose proof (io_step_with_mask accept checksum_update dc Hord d d' Hun Hstep) as Hstep'.
    destruct (io_step_received accept checksum_update dc Hord Hsink 1 _ _ (proj1 Hun) Hstep') as (_ & _ & Hf).
    destruct Hst as [? ? ? ? ? ? Hin]. split; try done. destruct Hin as [[? Hreq]|?]; [left|by right]. split; [done|].
    intros Hnone. by apply Hreq, Hf.
  - right. destruct Hst as [Hd Hinv Hin Honce Hrec].
    destruct (io_step_received accept checksum_update dc Hord Hsink _ _ _ Hinv Hstep) as (Hs & Hq & _).
    assert (received d' = received d) as Hr by (unfold received; by rewrite Hs, Hq).
    split; rewrite ?Hr; try done. by apply (inv_io_step dc _ accept checksum_update Hord Hsink d).
Qed.
End steps.
