(* ===== verification/GetProps.v ===== *)
(** The download as a system: the work thread's updates, the responses to the requests it
    sends, and delivery, in any order.  A download that finishes without an error has
    handed the sink exactly the requested bytes of the object. *)

From Stdlib Require Import Init.Byte Sorted.
From S2P Require Import Prelude AwsCommon PriorityQueue PartMath Tracking.
From S2P Require Import Delivery DeliveryInv DeliveryOrder DeliveryEvent AutoRangedGet GetDownload GetDownloadInv.

Section system.
Context `{Q1 : !AwsPriorityQueue s3_request part_number}.
Context `{Q2 : !AwsPriorityQueue delivery_tracking_record track_part_number}.
Context `{M : !AwsMath}.
Context (accept : list (Z * list byte) → Z → list byte → option aws_error).
Context (checksum_update : list byte → list byte → option aws_error).
Context (derive_aligned_buffer_size : Z → Z) (c : get_config) (dc : delivery_config).
Context (object : list byte) (stored least : Z).

(** The meta request, the requests on their way, and whether it has finished. *)
Record system := mkSystem {
  meta : get_meta_request;
  in_flight : list get_request;
  finished : bool;
}.

Inductive system_step (st : system) : system → Prop :=
| system_update conservative work request m : finished st = false →
    s_s3_auto_ranged_get_update c conservative (meta st) = (work, request, m) →
    system_step st (mkSystem m (option_list request ++ in_flight st) (negb work))
| system_response before r after resp : finished st = false → in_flight st = before ++ r :: after →
    honest object c stored r resp →
    system_step st (mkSystem (s_s3_auto_ranged_get_request_finished derive_aligned_buffer_size c dc (meta st) r resp)
      (before ++ after) false)
| system_delivery d : finished st = false → io_step accept checksum_update dc (get_delivery (meta st)) d →
    system_step st (mkSystem (mkGetMeta (get_data (meta st)) d) (in_flight st) false).

(** The states of a download that starts with the state [g]. *)
Definition system_reachable (g : get_state) (initial_read_window : Z) : system → Prop :=
  rtc system_step (mkSystem (mkGetMeta g (delivery_init initial_read_window (mkMask None 0 0))) [] false).

(** A new meta request with parts of [least] bytes or more, and a window. *)
Definition starts (g : get_state) (initial_read_window : Z) : Prop :=
  (∃ c0 hint header size sum connections,
     aws_s3_meta_request_auto_ranged_get_new c0 hint header size sum connections = Success (c, g) ∧
     least ≤ size < 2 ^ 61) ∧
  uint 64 initial_read_window.

Context `{!AwsPriorityQueueLaws s3_request part_number Q1} `{!AwsMathLaws M}.
Context (Hset : setting derive_aligned_buffer_size c dc object stored least).
Context (Hsink : ∀ base origin resolved, sink dc = RecvFile base origin resolved → uint 64 base ∧ uint 64 origin).

Notation phase := (phase c dc object least).

Lemma new_state c0 hint header size sum connections g :
  aws_s3_meta_request_auto_ranged_get_new c0 hint header size sum connections = Success (c, g) →
  ∃ origin resolved, g = mkGetState size 0 0 0 size 0 0 0 0 0 0 false false false false false no_spread sum
    false false 0 origin resolved 0 0 false connections false.
Proof.
  unfold aws_s3_meta_request_auto_ranged_get_new. intros Hnew.
  destruct (match header with Some _ => _ | None => _ end) as [c1|e]; [|done]. simpl in Hnew.
  destruct (if negb _ then _ else _) as [origin resolved]. exists origin, resolved. by injection Hnew as _ <-.
Qed.

Lemma starts_phase g w : starts g w → phase g (delivery_init w (mkMask None 0 0)) [].
Proof.
  intros [(c0 & hint & header & size & sum & connections & Hnew & Hsize) Hw].
  destruct (new_state _ _ _ _ _ _ _ Hnew) as (origin & resolved & ->).
  pose proof (set_least _ _ _ _ _ _ Hset). left. split; simpl; try done; try lia.
  - split; [|by unfold received; simpl; rewrite pq_elems_empty].
    change (with_mask 1 _) with (delivery_init w (mask_new 1)).
    apply inv_init; [done|by apply mask_new_ok|apply mask_new_none|done].
  - by left.
Qed.

(** What every state satisfies until the download has finished. *)
Definition in_phase (st : system) : Prop :=
  finished st = false → phase (get_data (meta st)) (get_delivery (meta st)) (in_flight st).

Lemma update_phase st conservative work request m : in_phase st → finished st = false →
  s_s3_auto_ranged_get_update c conservative (meta st) = (work, request, m) →
  in_phase (mkSystem m (option_list request ++ in_flight st) (negb work)).
Proof.
  intros Hst Hf Hup. specialize (Hst Hf). unfold s_s3_auto_ranged_get_update in Hup.
  destruct (update_work _ _ _ _) as [[work' request'] g'] eqn:Hwork. destruct (_ || _).
  - injection Hup as <- <- <-. intros _. by apply (update_work_phase derive_aligned_buffer_size c dc object stored least
      Hset (get_data (meta st)) _ conservative work').
  - injection Hup as <- <- <-. done.
Qed.

Lemma system_step_phase st st' : in_phase st → system_step st st' → in_phase st'.
Proof.
  intros Hst Hstep. destruct Hstep as [cons work request m Hf Hup|before r after resp Hf Hin Hh|d Hf Hio].
  - by apply (update_phase st cons).
  - intros _. specialize (Hst Hf). rewrite Hin in Hst. destruct (meta st) as [g d].
    by apply (response_phase derive_aligned_buffer_size c dc object stored least Hset).
  - intros _. eapply io_step_phase; [exact Hset|exact Hsink|by apply Hst|exact Hio].
Qed.

Lemma system_phase g w st : starts g w → system_reachable g w st → in_phase st.
Proof.
  intros Hs%starts_phase. unfold system_reachable. set (st0 := mkSystem _ _ _).
  assert (in_phase st0) as H0 by (intros _; exact Hs). clearbody st0. clear Hs.
  induction 1 as [|st0 st1 st Hstep _ IH]; [done|]. apply IH. by apply (system_step_phase st0).
Qed.

(** * The bytes of parts *)

Notation part_bytes g := (λ k, slice object (part_range g k).1 (part_range g k).2).

Lemma received_bodies g l : Forall (received_part object g) l → response_body <$> l = part_bytes g <$> (part_number <$> l).
Proof.
  rewrite list.Forall_forall. intros Hrec. rewrite <-list_fmap_compose. apply list_fmap_ext. intros i r Hr.
  apply list_elem_of_lookup_2 in Hr. apply (Hrec r Hr).
Qed.

Lemma parts_bytes g : discovered c object least g →
  concat (part_bytes g <$> seqZ 1 (total_num_parts g)) = slice object (object_range_start g) (object_range_end g).
Proof using Hset.
  intros Hdisc. pose proof (discovered_total _ _ _ _ _ _ Hset g Hdisc) as Htotal.
  assert (part_bytes g <$> seqZ 1 (total_num_parts g) = (λ r, slice object r.1 r.2) <$>
    part_ranges (object_range_start g) (object_range_end g) (part_size g) (first_part_size g) 1
      (Z.to_nat (total_num_parts g))) as ->.
  { unfold part_ranges, seqZ. rewrite <-!list_fmap_compose. apply list_fmap_ext. intros i k _.
    unfold compose, part_range. by rewrite (Z.add_comm 1). }
  destruct Hdisc as [Hsize _ _ _ Hb Hf Ht' _].
  destruct (parts_bounds _ _ _ _ _ _ Hset _ _ _ _ Hsize Hf (proj1 Hb) (proj2 Hb)) as (Hps & He & He' & Hc).
  apply slice_tiles; [lia|]. rewrite Ht' in *.
  pose proof (part_ranges_tile (part_size g) (first_part_size g) (object_range_start g) (object_range_end g) Hps
    ltac:(lia) ltac:(lia) ltac:(lia) He He' ltac:(lia)
    (Z.to_nat (aws_s3_calculate_auto_ranged_get_num_parts (part_size g) (first_part_size g) (object_range_start g)
      (object_range_end g))) 1 ltac:(lia) ltac:(lia)) as Htiles.
  by rewrite (proj2 (Z.eqb_neq 1 _)) in Htiles by lia.
Qed.

(** * A download that has nothing left to do *)

Section done.
Context (g : get_state) (d : delivery) (inflight : list get_request).
Context (Hst : phase g d inflight) (Hnone : finish_result d = None).
Context (conservative : bool) (request : option get_request) (g' : get_state).
Context (Hwork : update_work c conservative d g = (false, request, g')).
Context (Hidle : aws_s3_meta_request_are_events_out_for_delivery_synced d = false).

Lemma done_downloading : downloading c dc object least g d inflight ∧
  total_num_parts g ≤ num_parts_delivery_completed d.
Proof using All.
  unfold update_work in Hwork. rewrite Hnone in Hwork. destruct (_ && _) in Hwork; [done|].
  destruct Hst as [Hun|Hdown].
  - rewrite (ding_known _ _ _ _ _ _ Hun) in Hwork. simpl in Hwork. by destruct (discover c g).
  - split; [done|]. rewrite (disc_known _ _ _ _ (down_discovered _ _ _ _ _ _ _ Hdown)) in Hwork. simpl in Hwork.
    destruct (_ <? _) in Hwork; [by destruct (request_part c d g)|].
    destruct (Z.ltb_spec (num_parts_delivery_completed d) (total_num_parts g)); [done|lia].
Qed.

(** All parts were streamed and nothing waits. *)
Lemma done_streamed :
  task d = None ∧ waiting d = [] ∧ part_number <$> streamed d = seqZ 1 (total_num_parts g) ∧
  next_streaming_part d = total_num_parts g + 1.
Proof using All.
  destruct done_downloading as [Hdown Hall]. pose proof (down_inv _ _ _ _ _ _ _ Hdown) as Hinv.
  unfold aws_s3_meta_request_are_events_out_for_delivery_synced in Hidle. apply orb_false_iff in Hidle as [Harr Hact].
  assert (event_delivery_array d = []) as Harr' by (by destruct (event_delivery_array d)).
  assert (task d = None) as Ht.
  { rewrite (flow_active _ _ _ (inv_flow _ _ _ Hinv)) in Hact. apply bool_decide_eq_false in Hact.
    by destruct (task d); [destruct Hact; eauto|]. }
  pose proof (flow_idle _ _ _ (inv_flow _ _ _ Hinv) Ht) as Hio.
  assert (waiting d = []) as Hw by (unfold waiting, undelivered; by rewrite Ht, Hio, Harr').
  destruct (inv_counts _ _ _ Hinv) as [Hsent Hc _]. unfold task_parts in Hc. rewrite Ht, Hw in Hc. simpl in Hc.
  pose proof (streamed_len _ _ (inv_order _ _ _ Hinv)) as Hlen.
  pose proof (order_next _ _ (inv_order _ _ _ Hinv)) as Hnext.
  assert (next_streaming_part d = total_num_parts g + 1) as Hn by lia.
  split_and!; try done. rewrite (order_streamed _ _ (inv_order _ _ _ Hinv)), Hn. f_equal. lia.
Qed.

(** So every part is marked. *)
Lemma done_marked : aws_s3_meta_request_validate_parts_delivered_synced (mask d) = Success tt.
Proof using All.
  destruct done_downloading as [Hdown Hall]. destruct done_streamed as (Ht & Hw & _ & Hn).
  pose proof (inv_masks _ _ _ (down_inv _ _ _ _ _ _ _ Hdown)) as Hm.
  apply (validate_all (total_num_parts g)); [apply (masks_ok _ _ Hm)|]. intros k Hk.
  destruct (masks_all _ _ Hm k) as [?|Hin]; [unfold clean; by rewrite Ht|lia|done|].
  unfold task_completed, waiting_parts in Hin. rewrite Ht, Hw in Hin. by apply elem_of_nil in Hin.
Qed.

(** The sink has what was streamed. *)
Lemma done_sunk : sunk_bytes d = slice object (object_range_start g) (object_range_end g).
Proof using All.
  destruct done_downloading as [Hdown Hall]. destruct done_streamed as (Ht & Hw & Hparts & _).
  pose proof (content_all _ _ (inv_content _ _ _ (down_inv _ _ _ _ _ _ _ Hdown))) as Hcontent.
  rewrite Hw in Hcontent. simpl in Hcontent. rewrite app_nil_r in Hcontent.
  rewrite Hcontent by (unfold clean; by rewrite Ht). unfold streamed_bytes.
  pose proof (down_received _ _ _ _ _ _ _ Hdown) as [Hrec _]%list.Forall_app.
  rewrite (received_bodies g), Hparts by done. apply parts_bytes. by apply Hdown.
Qed.
End done.

(** * The requests on their way are accounted for *)

(** The counters that say whether requests are on their way. *)
Definition counters (g : get_state) :=
  (num_parts_requested g, num_parts_completed g, head_object_sent g, head_object_completed g).

Definition is_part (r : get_request) : bool := negb (bool_decide (request_tag r = HEAD_OBJECT)).

Definition accounted (g : get_state) (inflight : list get_request) : Prop :=
  num_parts_completed g + Z.of_nat (length (filter is_part inflight)) = num_parts_requested g ∧
  0 ≤ num_parts_completed g ∧
  (head_object_sent g = false → head_object_completed g = false) ∧
  (∀ r, r ∈ inflight → request_tag r = HEAD_OBJECT → head_object_sent g = true ∧ head_object_completed g = false).

Lemma accounted_counters g g' inflight : counters g' = counters g → accounted g inflight → accounted g' inflight.
Proof. unfold counters, accounted. intros [= -> -> -> ->]. done. Qed.

Lemma choose_part_size_counters g r f : counters (choose_part_size derive_aligned_buffer_size c g r f).1 = counters g.
Proof. unfold choose_part_size. repeat case_match; simplify_eq; done. Qed.

Lemma record_etag_counters g f parts : counters (record_etag g f parts) = counters g.
Proof. unfold record_etag. by repeat case_match. Qed.

Lemma adopt_checksum_counters g r resp f g' : adopt_checksum c g r resp f = Success g' → counters g' = counters g.
Proof.
  unfold adopt_checksum. repeat case_match; try (by intros [= <-]).
  destruct (resp_checksum resp); [|done]. by intros [= <-].
Qed.

Lemma discovery_counters g r resp :
  counters (request_finished_discovery derive_aligned_buffer_size c g r resp).2 = counters g.
Proof.
  unfold request_finished_discovery. destruct (s_discover_object_range_and_size c r resp) as [f|e]; [|done].
  assert (∀ g1 max, counters g1 = counters g → counters (let '(g2, f2) := choose_part_size derive_aligned_buffer_size c g1 r f in
    match adopt_checksum c g2 r resp f2 with
    | Success g3 => (Some f2, if empty_file_error f2 then None else resp_headers_callback_error resp,
                     limit_express_connections c max g3 f2)
    | Failure e => (Some f2, Some e, g2)
    end).2 = counters g) as Hkeep.
  { intros g1 max Hg1. pose proof (choose_part_size_counters g1 r f) as Hch.
    destruct (choose_part_size _ c g1 r f) as [g2 f2]. simpl in Hch.
    destruct (adopt_checksum c g2 r resp f2) as [g3|e] eqn:Had; [|simpl; congruence].
    apply adopt_checksum_counters in Had. simpl. unfold limit_express_connections.
    destruct (_ && _); rewrite <-Hg1, <-Hch, <-Had; done. }
  destruct (_ || _); [|by apply Hkeep]. destruct (resp_etag resp); [|done].
  apply Hkeep. apply record_etag_counters.
Qed.

Lemma record_discovery_counters g d r resp f e :
  counters (get_data (record_discovery c (mkGetMeta g d) r resp f e).2) = counters g.
Proof.
  unfold record_discovery, setup_checksum_combine, s_resolve_out_of_order_delivery. cbn [get_data get_delivery].
  repeat case_match; simplify_eq; done.
Qed.

Lemma spread_counters g : counters (s_init_spread_synced c g) = counters g.
Proof. unfold s_init_spread_synced. by repeat case_match. Qed.

Lemma part_finished_counters m r resp :
  counters (get_data (part_finished c dc m r resp)) = counters (get_data m <| num_parts_completed ::= λ x, x +[32] 1 |>).
Proof. unfold part_finished. destruct (resp_error resp); [done|]. by destruct (resp_did_validate resp). Qed.

Lemma by_type_counters m r resp found :
  let g' := get_data (finish_by_type c dc m r resp found) in
  if is_part r then
    counters g' = counters (get_data m <| num_parts_completed ::= λ x, x +[32] 1 |>) ∨
    counters g' = counters (get_data m <| num_parts_requested := 0 |>) ∧ found ≠ None
  else counters g' = counters (get_data m <| head_object_completed := true |>).
Proof.
  unfold finish_by_type, is_part. destruct (request_tag r); [done|..]; cbv zeta; rewrite bool_decide_false by done; simpl.
  - destruct found as [f|]; [|left; apply part_finished_counters].
    destruct (empty_file_error f); [by right|left; apply part_finished_counters].
  - destruct found as [f|]; [|rewrite andb_false_r; left; apply part_finished_counters].
    destruct (is_mismatch _); [by right|]. simpl.
    destruct (empty_file_error f); [by right|left; apply part_finished_counters].
Qed.

(** What a response changes of the counters: a discovery that has to be asked again takes
    its request back. *)
Lemma finished_counters g d r resp :
  let g' := get_data (s_s3_auto_ranged_get_request_finished derive_aligned_buffer_size c dc (mkGetMeta g d) r resp) in
  if is_part r then
    counters g' = counters (g <| num_parts_completed ::= λ x, x +[32] 1 |>) ∨
    counters g' = counters (g <| num_parts_requested := 0 |>) ∧ discovers_object_size r = true
  else counters g' = counters (g <| head_object_completed := true |>).
Proof.
  unfold s_s3_auto_ranged_get_request_finished. cbn [get_data get_delivery].
  set (p1 := if discovers_object_size r then _ else _).
  assert (counters p1.2 = counters g ∧ (p1.1.1 ≠ None → discovers_object_size r = true)) as [Hc1 Hfound].
  { subst p1. destruct (discovers_object_size r); [split; [apply discovery_counters|done]|done]. }
  destruct p1 as [[found e1] g1]. simpl in Hc1, Hfound.
  set (p2 := match found with Some _ => _ | None => _ end).
  assert (counters (get_data p2.2) = counters g) as Hc2.
  { subst p2. destruct found as [f|]; [|done]. by rewrite record_discovery_counters. }
  destruct p2 as [e2 m2]. cbn [snd] in Hc2.
  set (m3 := finish_by_type c dc m2 r resp found).
  assert (if is_part r then
      counters (get_data m3) = counters (g <| num_parts_completed ::= λ x, x +[32] 1 |>) ∨
      counters (get_data m3) = counters (g <| num_parts_requested := 0 |>) ∧ discovers_object_size r = true
    else counters (get_data m3) = counters (g <| head_object_completed := true |>)) as Hc3.
  { pose proof (by_type_counters m2 r resp found) as Hby. cbv zeta in Hby. fold m3 in Hby.
    unfold counters in *. simpl in *. injection Hc2 as C1 C2 C3 C4. rewrite C1, C2, C3, C4 in Hby.
    destruct (is_part r); [|done]. destruct Hby as [?|[? ?]]; auto. }
  clearbody m3. set (m4 := match e2 with Some _ => _ | None => _ end).
  assert (counters (get_data m4) = counters (get_data m3)) as Hm4.
  { subst m4. destruct e2; [cbn [get_data]; by case_bool_decide|done]. }
  clearbody m4. cbv zeta.
  destruct (_ && _); cbn [get_data]; rewrite ?spread_counters, Hm4; exact Hc3.
Qed.

Lemma accounted_part g g' r inflight : accounted g inflight → is_part r = true → num_parts_requested g < 2 ^ 32 - 1 →
  counters g' = counters (g <| num_parts_requested ::= λ x, x +[32] 1 |>) → accounted g' (r :: inflight).
Proof.
  intros (Hsum & Hnn & Hnot & Hhead) Hpart Hlt. unfold counters, accounted. simpl. intros [= -> -> -> ->].
  rewrite wrap_small by machine. rewrite filter_cons, decide_True by (by rewrite Hpart). simpl.
  split_and!; [lia|done|done|]. intros r' [->|?]%elem_of_cons Htag; [|by apply (Hhead r')].
  unfold is_part in Hpart. by rewrite Htag in Hpart.
Qed.

Lemma accounted_head g g' r inflight : accounted g inflight → request_tag r = HEAD_OBJECT → head_object_sent g = false →
  counters g' = counters (g <| head_object_sent := true |>) → accounted g' (r :: inflight).
Proof.
  intros (Hsum & Hnn & Hnot & Hhead) Htag Hsent. unfold counters, accounted. simpl. intros [= -> -> -> ->].
  rewrite filter_cons, decide_False by (unfold is_part; rewrite Htag, bool_decide_true by done; by intros []).
  split_and!; try done. intros r' _ _. by auto.
Qed.

Lemma discover_accounted g req g' inflight : accounted g inflight → discover c g = (req, g') →
  accounted g' (option_list req ++ inflight).
Proof.
  intros Hacc. unfold discover. destruct (head_object_sent g || _) eqn:Hsent; [by intros [= <- <-]|].
  apply orb_false_iff in Hsent as [Hsent Hreq%Z.ltb_ge]. assert (num_parts_requested g < 2 ^ 32 - 1) as Hlt by lia.
  destruct (s_s3_get_request_type_for_discovering_object_size c g) as [tag g1] eqn:Htype.
  assert (counters g1 = counters g) as Hc1.
  { unfold s_s3_get_request_type_for_discovering_object_size in Htype.
    repeat case_match; simplify_eq; done. }
  unfold counters in Hc1. injection Hc1 as C1 C2 C3 C4. destruct tag.
  - intros [= <- <-]. eapply (accounted_head g); [done..|]. unfold counters. simpl. congruence.
  - unfold discover_with_range. destruct (if initial_message_has_range_header c then _ else _) as [[start size] g2] eqn:Hr.
    assert (counters g2 = counters g1) as Hc2 by (by destruct (initial_message_has_range_header c); simplify_eq).
    unfold counters in Hc2. injection Hc2 as D1 D2 D3 D4.
    intros [= <- <-]. eapply (accounted_part g); [done..|]. unfold counters. simpl. congruence.
  - intros [= <- <-]. eapply (accounted_part g); [done..|]. unfold counters. simpl. congruence.
Qed.

Lemma request_part_accounted g d req g' inflight : accounted g inflight → num_parts_requested g < 2 ^ 32 - 1 →
  request_part c d g = (req, g') → accounted g' (option_list req ++ inflight).
Proof.
  intros Hacc Hlt. unfold request_part. destruct (_ && _); [intros [= <- <-]; by apply (accounted_counters g)|].
  set (g1 := if get_enable_read_backpressure c then _ else _).
  assert (counters g1 = counters g) as Hc1 by (subst g1; by destruct (get_enable_read_backpressure c)).
  unfold next_part_request, s_next_part_number_synced.
  set (p := if _ <? 2 then _ else _).
  assert (counters p.2 = counters g) as Hc2 by (subst p; by destruct (_ <? 2)). destruct p as [k g2]. simpl in Hc2.
  destruct (aws_s3_calculate_auto_ranged_get_part_range _ _ _ _ _) as [a b]. unfold counters in Hc2.
  injection Hc2 as D1 D2 D3 D4. intros [= <- <-]. eapply (accounted_part g); [done..|]. unfold counters. simpl. congruence.
Qed.

Lemma update_work_accounted g d conservative work req g' inflight : phase g d inflight → accounted g inflight →
  update_work c conservative d g = (work, req, g') → accounted g' (option_list req ++ inflight).
Proof.
  intros Hst Hacc. unfold update_work. destruct (finish_result d).
  { do 3 (case_match; [by intros [= <- <- <-]|]). by intros [= <- <- <-]. }
  destruct (_ && _); [by intros [= <- <- <-]|]. destruct (object_range_known g) eqn:Hknown; simpl.
  - destruct (Z.ltb_spec (num_parts_requested g) (total_num_parts g)) as [Hlt|_];
      [|case_match; by intros [= <- <- <-]].
    destruct Hst as [Hst|Hst]; [by rewrite (ding_known _ _ _ _ _ _ Hst) in Hknown|].
    pose proof (discovered_total _ _ _ _ _ _ Hset g (down_discovered _ _ _ _ _ _ _ Hst)).
    destruct (request_part c d g) as [r g1] eqn:Hr. intros [= <- <- <-].
    apply (request_part_accounted g d); [done|lia|done].
  - destruct (discover c g) as [r g1] eqn:Hr. intros [= <- <- <-]. by apply (discover_accounted g).
Qed.

Lemma response_accounted g d r resp before after : phase g d (before ++ r :: after) →
  accounted g (before ++ r :: after) →
  accounted (get_data (s_s3_auto_ranged_get_request_finished derive_aligned_buffer_size c dc (mkGetMeta g d) r resp))
    (before ++ after).
Proof.
  intros Hst (Hsum & Hnn & Hnot & Hhead). pose proof (finished_counters g d r resp) as Hc. cbv zeta in Hc.
  set (g' := get_data _) in Hc |- *. clearbody g'. rewrite list.filter_app, filter_cons, length_app in Hsum.
  assert (∀ r', r' ∈ before ++ after → r' ∈ before ++ r :: after) as Hsub by set_solver.
  destruct (is_part r) eqn:Hpart.
  - rewrite decide_True in Hsum by done. simpl in Hsum.
    assert (num_parts_requested g < 2 ^ 32) as Hreq.
    { destruct Hst as [Hst|Hst].
      - destruct (ding_inflight _ _ _ _ _ _ Hst) as [[Hnil _]|(r' & Heq & Hr)]; [by destruct before|].
        pose proof (discovering_requested _ _ _ Hr). lia.
      - pose proof (discovered_total _ _ _ _ _ _ Hset g (down_discovered _ _ _ _ _ _ _ Hst)).
        pose proof (disc_requested _ _ _ _ (down_discovered _ _ _ _ _ _ _ Hst)). lia. }
    destruct Hc as [Hc|[Hc Hdisc]]; unfold counters in Hc; simpl in Hc; injection Hc as C1 C2 C3 C4;
      unfold accounted; rewrite C1, C2, C3, C4, list.filter_app, length_app.
    + rewrite wrap_small by machine. split_and!; try done; try lia. intros r' Hr'. apply Hhead. by apply Hsub.
    + destruct Hst as [Hst|Hst].
      * destruct (ding_inflight _ _ _ _ _ _ Hst) as [[Hnil _]|(r' & Heq & Hr)]; [by destruct before|].
        pose proof (discovering_requested _ _ _ Hr). apply app_eq_unit in Heq as [[-> [= -> ->]]|[_ ?]]; [|done].
        simpl in *. split_and!; try done; try lia. by intros r0 ?%elem_of_nil.
      * pose proof (down_inflight _ _ _ _ _ _ _ Hst) as [_ [(Hno & _) _]%list.Forall_cons]%list.Forall_app. congruence.
  - rewrite decide_False in Hsum by (intros []). simpl in Hsum.
    unfold counters in Hc. simpl in Hc. injection Hc as C1 C2 C3 C4.
    assert (before ++ after = []) as Hnil.
    { assert (request_tag r = HEAD_OBJECT) as Htag by (unfold is_part in Hpart; by destruct (request_tag r)).
      destruct Hst as [Hst|Hst].
      - destruct (ding_inflight _ _ _ _ _ _ Hst) as [[Hnil _]|(r' & Heq & Hr)]; [by destruct before|].
        by apply app_eq_unit in Heq as [[-> [= -> ->]]|[_ ?]].
      - pose proof (down_inflight _ _ _ _ _ _ _ Hst) as [_ [(_ & Hr & _) _]%list.Forall_cons]%list.Forall_app. congruence. }
    destruct (Hhead r) as [Hs _]; [set_solver|unfold is_part in Hpart; by destruct (request_tag r)|].
    unfold accounted. rewrite C1, C2, C3, C4, Hs, Hnil. apply app_nil in Hnil as [-> ->]. simpl in *.
    split_and!; try done; try lia. by intros r0 ?%elem_of_nil.
Qed.

Definition in_account (st : system) : Prop := finished st = false → accounted (get_data (meta st)) (in_flight st).

Lemma system_account g w st : starts g w → system_reachable g w st → in_account st.
Proof.
  intros Hs. pose proof (starts_phase g w Hs) as Hph. unfold system_reachable. set (st0 := mkSystem _ _ _).
  assert (in_phase st0) as H0 by (intros _; exact Hph).
  assert (in_account st0) as H1.
  { intros _. subst st0. destruct Hs as [(c0 & hint & header & size & sum & connections & Hnew & Hsize) Hw].
    destruct (new_state _ _ _ _ _ _ _ Hnew) as (origin & resolved & ->). split_and!; try done.
    by intros r ?%elem_of_nil. }
  clearbody st0. clear Hs Hph. induction 1 as [|st0 st1 st Hstep _ IH]; [done|].
  apply IH; [by apply (system_step_phase st0)|]. clear IH.
  destruct Hstep as [cons work request m Hf Hup|before r after resp Hf Hin Hh|d Hf Hio].
  - unfold s_s3_auto_ranged_get_update in Hup.
    destruct (update_work _ _ _ _) as [[work' request'] g'] eqn:Hwork. destruct (_ || _); injection Hup as <- <- <-; [|done].
    intros _. by apply (update_work_accounted _ _ _ _ _ _ _ (H0 Hf) (H1 Hf) Hwork).
  - intros _. specialize (H0 Hf). specialize (H1 Hf). rewrite Hin in H0, H1. destruct (meta st0) as [g' d].
    by apply response_accounted.
  - intros _. exact (H1 Hf).
Qed.

(** * Winding down *)

Lemma idle_task g d inflight : phase g d inflight → aws_s3_meta_request_are_events_out_for_delivery_synced d = false →
  task d = None ∧ io_event_delivery_array d = [] ∧ event_delivery_array d = [].
Proof.
  intros Hst Hidle. unfold aws_s3_meta_request_are_events_out_for_delivery_synced in Hidle.
  apply orb_false_iff in Hidle as [Harr Hact].
  assert (∃ n, flow dc n (with_mask n d)) as [n Hflow].
  { destruct Hst as [Hst|Hst].
    - exists 1. apply (inv_flow _ _ _ (proj1 (ding_quiet _ _ _ _ _ _ Hst))).
    - exists (total_num_parts g). destruct (inv_flow _ _ _ (down_inv _ _ _ _ _ _ _ Hst)). by split. }
  assert (task d = None) as Ht.
  { pose proof (flow_active _ _ _ Hflow) as Ha. simpl in Ha. rewrite Ha in Hact. apply bool_decide_eq_false in Hact.
    by destruct (task d); [destruct Hact; eauto|]. }
  pose proof (flow_idle _ _ _ Hflow Ht) as Hio. simpl in Hio. split_and!; [done..|]. by destruct (event_delivery_array d).
Qed.

Lemma idle_undelivered g d inflight : phase g d inflight →
  aws_s3_meta_request_are_events_out_for_delivery_synced d = false → undelivered d = [].
Proof. intros Hst Hidle. destruct (idle_task _ _ _ Hst Hidle) as (Ht & Hio & Ha). unfold undelivered. by rewrite Ht, Hio, Ha. Qed.

Lemma update_finish_result d : finish_result (update_finish d) ≠ None.
Proof.
  unfold update_finish. set (d1 := match finish_result d with Some _ => _ | None => _ end). clearbody d1.
  unfold aws_s3_meta_request_set_success_synced. destruct (finish_result d1) eqn:Hf; [by rewrite Hf|done].
Qed.

Lemma done_in_flight g d inflight : phase g d inflight → accounted g inflight → ∀ conservative request g',
  update_work c conservative d g = (false, request, g') →
  aws_s3_meta_request_are_events_out_for_delivery_synced d = false → inflight = [].
Proof.
  intros Hst Hacc conservative request g' Hwork Hidle. destruct Hacc as (Hsum & Hnn & Hnot & Hhead).
  destruct (finish_result d) as [x|] eqn:Hres.
  - unfold update_work in Hwork. rewrite Hres in Hwork.
    destruct (head_object_sent g && _) eqn:Hh in Hwork; [done|].
    destruct (Z.ltb_spec (num_parts_completed g) (num_parts_requested g)); [done|].
    destruct inflight as [|r inflight]; [done|exfalso]. rewrite filter_cons in Hsum.
    destruct (decide (is_part r)) as [Hp|Hp]; simpl in Hsum; [lia|].
    destruct (Hhead r) as [E1 E2]; [left| |by rewrite E1, E2 in Hh].
    unfold is_part in Hp. destruct (request_tag r); [done|by destruct Hp..].
  - destruct (done_downloading g d inflight Hst Hres conservative request g' Hwork Hidle) as [Hdown _].
    destruct (done_streamed g d inflight Hst Hres conservative request g' Hwork Hidle) as (_ & _ & Hparts & _).
    destruct inflight as [|r inflight]; [done|exfalso].
    pose proof (down_once _ _ _ _ _ _ _ Hdown) as Honce. unfold received in Honce. rewrite fmap_app, Hparts in Honce.
    pose proof (down_inflight _ _ _ _ _ _ _ Hdown) as [(_ & _ & Hk & _) _]%list.Forall_cons.
    pose proof (disc_requested _ _ _ _ (down_discovered _ _ _ _ _ _ _ Hdown)).
    simpl in Honce. apply list.NoDup_cons in Honce as [Hnot' _]. apply Hnot'.
    rewrite !elem_of_app, elem_of_seqZ. right. left. lia.
Qed.

(** C1: a download with ordered delivery of an object that is not empty.  (Delivery is ordered
    for a callback or a buffer by default, and for a file when the caller, the client or the
    environment says so; [set_ordered] and [set_allow] of [setting].)  When an update finds
    nothing left to do and nothing has failed, the download ends in success, and what the
    sink has accepted, in this order, is exactly the requested range of the object: for any
    interleaving of updates, of responses to the requests in any order, and of steps of
    delivery, whatever request discovered the object. *)
Theorem download_delivers_object g w st conservative request m : starts g w → system_reachable g w st →
  finished st = false → finish_result (get_delivery (meta st)) = None →
  s_s3_auto_ranged_get_update c conservative (meta st) = (false, request, m) →
  finish_result (get_delivery m) = Some None ∧
  sunk_bytes (get_delivery m) = slice object (requested_range object c).1 (requested_range object c).2.
Proof.
  intros Hs Hreach Hf Hnone Hup. pose proof (system_phase g w st Hs Hreach Hf) as Hst.
  unfold s_s3_auto_ranged_get_update in Hup.
  destruct (update_work _ _ _ _) as [[work request'] g'] eqn:Hwork. destruct (_ || _) eqn:Hidle; [done|].
  apply orb_false_iff in Hidle as [-> Hidle]. cbv zeta in Hup. apply (f_equal snd) in Hup. cbn [snd] in Hup. subst m.
  pose proof (done_marked _ _ _ Hst Hnone conservative request' g' Hwork Hidle) as Hmark.
  pose proof (done_sunk _ _ _ Hst Hnone conservative request' g' Hwork Hidle) as Hsunk.
  destruct (done_downloading _ _ _ Hst Hnone conservative request' g' Hwork Hidle) as [Hdown _].
  cbn [get_delivery]. unfold update_finish. rewrite Hnone, Hmark. unfold aws_s3_meta_request_set_success_synced. simpl.
  rewrite Hnone. split; [done|]. by rewrite (disc_range _ _ _ _ (down_discovered _ _ _ _ _ _ _ Hdown)).
Qed.

(** while a download runs, no part is asked for twice: the parts on their way and the
    parts received have different numbers, each request asks for the range of its part and
    each part received holds the bytes of the object in that range. *)
Theorem download_parts_once g w st : starts g w → system_reachable g w st →
  finished st = false → object_range_known (get_data (meta st)) = true →
  let g' := get_data (meta st) in
  let d := get_delivery (meta st) in
  NoDup ((get_part_number <$> in_flight st) ++ (part_number <$> received d)) ∧
  (∀ r, r ∈ in_flight st → 1 ≤ get_part_number r ≤ total_num_parts g' ∧
     (get_range_start r, get_range_end r) = part_range g' (get_part_number r)) ∧
  (∀ r, r ∈ received d → 1 ≤ part_number r ≤ total_num_parts g' ∧
     response_body r = slice object (part_range g' (part_number r)).1 (part_range g' (part_number r)).2).
Proof.
  intros Hs Hreach Hf Hknown. destruct (system_phase g w st Hs Hreach Hf) as [Hst|Hst].
  { by rewrite (ding_known _ _ _ _ _ _ Hst) in Hknown. }
  destruct Hst as [Hdisc _ Hin Honce Hrec]. pose proof (disc_requested _ _ _ _ Hdisc).
  rewrite list.Forall_forall in Hin. rewrite list.Forall_forall in Hrec. split_and!; [done|..].
  - intros r Hr. destruct (Hin r Hr) as (_ & _ & Hk & Hrange). split; [lia|done].
  - intros r Hr. destruct (Hrec r Hr) as (Hk & _ & Hbody). split; [lia|done].
Qed.

(** C7: a download with ordered delivery of an object that is not empty finishes only after it
    has wound down: when an update reports no work, every request it sent has been answered
    and every event was delivered, also after a failure or a cancellation; and it has a
    result. *)
Theorem download_winds_down g w st conservative request m : starts g w → system_reachable g w st →
  finished st = false → s_s3_auto_ranged_get_update c conservative (meta st) = (false, request, m) →
  request = None ∧ in_flight st = [] ∧ undelivered (get_delivery (meta st)) = [] ∧
  finish_result (get_delivery m) ≠ None.
Proof.
  intros Hs Hreach Hf Hup. pose proof (system_phase g w st Hs Hreach Hf) as Hst.
  pose proof (system_account g w st Hs Hreach Hf) as Hacc. unfold s_s3_auto_ranged_get_update in Hup.
  destruct (update_work _ _ _ _) as [[work request'] g'] eqn:Hwork. destruct (_ || _) eqn:Hidle; [done|].
  apply orb_false_iff in Hidle as [-> Hidle].
  assert (request = None ∧ m = mkGetMeta (get_data m) (update_finish (get_delivery (meta st)))) as [-> ->] by
    (by injection Hup as <- <-).
  split_and!; [done|..].
  - by apply (done_in_flight _ _ _ Hst Hacc conservative request' g').
  - by apply (idle_undelivered (get_data (meta st)) _ (in_flight st)).
  - apply update_finish_result.
Qed.
End system.

(** * An executable server and driver *)

Section serve.
Context `{Q1 : !AwsPriorityQueue s3_request part_number}.
Context `{Q2 : !AwsPriorityQueue delivery_tracking_record track_part_number}.
Context `{M : !AwsMath}.
Context (accept : list (Z * list byte) → Z → list byte → option aws_error).
Context (checksum_update : list byte → list byte → option aws_error).
Context (derive_aligned_buffer_size : Z → Z) (c : get_config) (dc : delivery_config).
Context (object : list byte) (stored : Z).

(** A server that has [object] and answers what it can. *)
Definition serve (r : get_request) : get_response :=
  let answer ok body len range :=
    mkResponse (if ok : bool then None else Some AWS_ERROR_S3_INVALID_RESPONSE_STATUS) (if ok then 206 else 416) body
      (Success len) (Success range) (Some None) false false (Success None) None None in
  match request_tag r with
  | HEAD_OBJECT =>
      let '(s, e) := requested_range object c in
      answer ((0 <=? s) && (s <=? e)) [] (e - s + 1) (s, e, body_len object)
  | GET_OBJECT_WITH_RANGE =>
      let s := get_range_start r in
      let e := Z.min (get_range_end r) (body_len object - 1) in
      answer ((0 <=? s) && (s <=? e)) (slice object s e) (e - s + 1) (s, e, body_len object)
  | GET_OBJECT_WITH_PART_NUMBER_1 => answer true (slice object 0 (stored - 1)) stored (0, stored - 1, body_len object)
  end.

Lemma serve_honest r : honest object c stored r (serve r).
Proof.
  unfold honest, serve. destruct (request_tag r) eqn:Htag.
  - destruct (requested_range object c) as [s e]. simpl.
    destruct (Z.leb_spec 0 s), (Z.leb_spec s e); simpl; split_and!; try done; naive_solver lia.
  - simpl. destruct (Z.leb_spec 0 (get_range_start r)),
      (Z.leb_spec (get_range_start r) (Z.min (get_range_end r) (body_len object - 1))); simpl;
      split_and!; try done; naive_solver lia.
  - by split_and!.
Qed.

(** An update, the answer to a request on its way, and the steps of the delivery task. *)
Inductive op := OpUpdate | OpAnswer (i : nat) | OpBegin | OpEvent | OpEnd | OpCancel.

Definition deliver (st : system) (m : res delivery) : option system :=
  match m with
  | Ok d => Some (mkSystem (mkGetMeta (get_data (meta st)) d) (in_flight st) false)
  | _ => None
  end.

Definition run_op (st : system) (o : op) : option system :=
  let d := get_delivery (meta st) in
  if finished st then None
  else
    match o with
    | OpUpdate =>
        let '(work, request, m) := s_s3_auto_ranged_get_update c false (meta st) in
        Some (mkSystem m (option_list request ++ in_flight st) (negb work))
    | OpAnswer i =>
        match in_flight st !! i with
        | Some r =>
            Some (mkSystem (s_s3_auto_ranged_get_request_finished derive_aligned_buffer_size c dc (meta st) r (serve r))
              (take i (in_flight st) ++ drop (S i) (in_flight st)) false)
        | None => None
        end
    | OpBegin => match task d with
                 | None => if event_delivery_task_scheduled d then deliver st (task_begin d) else None
                 | Some _ => None
                 end
    | OpEvent => match task d, io_event_delivery_array d with
                 | Some _, _ :: _ => deliver st (task_event accept checksum_update dc d)
                 | _, _ => None
                 end
    | OpEnd => match task d, io_event_delivery_array d with
               | Some _, [] => deliver st (task_end dc d)
               | _, _ => None
               end
    | OpCancel => deliver st (Ok (aws_s3_meta_request_cancel d))
    end.

Fixpoint run (st : system) (ops : list op) : option system :=
  match ops with
  | [] => Some st
  | o :: ops => st ← run_op st o; run st ops
  end.

Notation system_step := (system_step accept checksum_update derive_aligned_buffer_size c dc object stored).

Lemma deliver_step st m st' : finished st = false → deliver st m = Some st' →
  (∀ d, m = Ok d → io_step accept checksum_update dc (get_delivery (meta st)) d) → system_step st st'.
Proof.
  intros Hf Hd Hio. destruct m as [d| |]; [|done..]. simpl in Hd. apply (inj Some) in Hd as <-.
  apply system_delivery; [done|by apply Hio].
Qed.

Lemma system_op_step st o st' : run_op st o = Some st' → system_step st st'.
Proof.
  unfold run_op. cbv zeta. destruct (finished st) eqn:Hf; [done|]. destruct o as [|i| | | |].
  - destruct (s_s3_auto_ranged_get_update c false (meta st)) as [[work request] m] eqn:Hup.
    intros Heq. apply (inj Some) in Heq as <-. by apply (system_update _ _ _ _ _ _ _ st false).
  - destruct (in_flight st !! i) as [r|] eqn:Hi; [|done]. intros Heq. apply (inj Some) in Heq as <-.
    apply system_response; [done|by symmetry; apply take_drop_middle|apply serve_honest].
  - destruct (task _) eqn:Ht; [done|]. destruct (event_delivery_task_scheduled _) eqn:Hs; [|done].
    intros Hd. apply (deliver_step st _ st' Hf Hd). intros d1 He. by apply step_begin.
  - destruct (task _) eqn:Ht; [|done]. destruct (io_event_delivery_array _) eqn:Hio; [done|].
    intros Hd. apply (deliver_step st _ st' Hf Hd). intros d1 He. apply step_event; [by rewrite Ht|by rewrite Hio|done].
  - destruct (task _) eqn:Ht; [|done]. destruct (io_event_delivery_array _) eqn:Hio; [|done].
    intros Hd. apply (deliver_step st _ st' Hf Hd). intros d1 He. apply step_end; [by rewrite Ht|done|done].
  - intros Hd. apply (deliver_step st _ st' Hf Hd). intros d1 He. apply Ok_inj in He as <-. apply step_fail.
Qed.

Lemma system_run_steps st ops st' : run st ops = Some st' → rtc system_step st st'.
Proof.
  revert st. induction ops as [|o ops IH]; intros st; simpl; [intros Heq; by apply (inj Some) in Heq as <-|].
  destruct (run_op st o) as [st1|] eqn:Ho; simpl; [|done]. intros Hr.
  eapply rtc_l; [by apply system_op_step in Ho|by apply IH].
Qed.
End serve.

#[local] Existing Instances aws_math_ref aws_math_ref_laws sorted_pq sorted_pq_laws.

Module GetDemo.
Definition accept_all (_ : list (Z * list byte)) (_ : Z) (_ : list byte) : option aws_error := None.
Definition checksum_ok (_ _ : list byte) : option aws_error := None.
Definition derive (size : Z) : Z := size.

(** Seven bytes, of which the caller wants all but the first; parts of two bytes. *)
Definition object : list byte := [x61; x62; x63; x64; x65; x66; x67]%byte.
Definition options : get_config :=
  mkGetConfig false false false 0 0 false None None false AWS_SCVM_DEFAULT false false true false 0 false false 4096 3
    false true AWS_TRIBOOL_UNSET AWS_TRIBOOL_UNSET AWS_TRIBOOL_UNSET.
Definition new : result aws_error (get_config * get_state) :=
  aws_s3_meta_request_auto_ranged_get_new options None (Some (Success (true, false, 1, 0))) 2 None 0.
Definition conf : get_config := match new with Success (c, _) => c | Failure _ => options end.
Definition start : get_state :=
  match new with
  | Success (_, g) => g
  | Failure _ => mkGetState 0 0 0 0 0 0 0 0 0 0 0 false false false false false no_spread None false false 0 0 false 0 0
                   false 0 false
  end.
Definition sink_conf : delivery_config := mkDelivery false false true true false false RecvCallback.

Definition initial : system := mkSystem (mkGetMeta start (delivery_init 0 (mkMask None 0 0))) [] false.
Definition go (ops : list op) : system :=
  default initial (run accept_all checksum_ok derive conf sink_conf object 7 initial ops).

(** The discovery brings the first part; the third part arrives before the second. *)
Definition fetch : list op := [OpUpdate; OpAnswer 0; OpUpdate; OpUpdate; OpAnswer 0].
Definition finish : list op :=
  [OpBegin; OpAnswer 0; OpEvent; OpEvent; OpEvent; OpEnd; OpBegin; OpEvent; OpEvent; OpEvent; OpEnd].
Definition waiting_for_part_2 : system := go fetch.
Definition delivered : system := go (fetch ++ finish).
Definition canceled : system := go (fetch ++ [OpCancel; OpAnswer 0; OpBegin; OpEvent; OpEvent; OpEvent; OpEvent; OpEvent; OpEvent; OpEnd]).

Lemma demo_setting : setting derive conf sink_conf object 7 2.
Proof.
  split; try done.
  intros x. unfold derive, g_default_part_size_fallback, MB_TO_BYTES, GB_TO_BYTES. lia.
Qed.

Lemma demo_starts : starts conf 2 start 0.
Proof.
  split; [|done]. exists options, None, (Some (Success (true, false, 1, 0))), 2, None, 0.
  split; [vm_compute; reflexivity|lia].
Qed.

Lemma demo_sink base origin resolved : sink sink_conf = RecvFile base origin resolved → uint 64 base ∧ uint 64 origin.
Proof. done. Qed.

Lemma go_reachable ops :
  (match run accept_all checksum_ok derive conf sink_conf object 7 initial ops with Some _ => true | None => false end)
    = true →
  system_reachable accept_all checksum_ok derive conf sink_conf object 7 start 0 (go ops).
Proof.
  intros Hr. apply (system_run_steps _ _ _ _ _ _ _ _ ops). unfold go. by destruct (run _ _ _ _ _ _ _ _ _).
Qed.

Definition update (st : system) := s_s3_auto_ranged_get_update conf false (meta st).

Lemma delivered_reachable : system_reachable accept_all checksum_ok derive conf sink_conf object 7 start 0 delivered.
Proof. apply go_reachable. vm_compute. reflexivity. Qed.
Lemma waiting_reachable :
  system_reachable accept_all checksum_ok derive conf sink_conf object 7 start 0 waiting_for_part_2.
Proof. apply go_reachable. vm_compute. reflexivity. Qed.
Lemma canceled_reachable : system_reachable accept_all checksum_ok derive conf sink_conf object 7 start 0 canceled.
Proof. apply go_reachable. vm_compute. reflexivity. Qed.
End GetDemo.

Import GetDemo.

Lemma download_delivers_object_witness :
  sunk_bytes (get_delivery (update delivered).2) = [x62; x63; x64; x65; x66; x67]%byte ∧
  finish_result (get_delivery (update delivered).2) = Some None.
Proof.
  split; [vm_compute; reflexivity|].
  refine (proj1 (download_delivers_object _ _ _ _ _ _ _ _ demo_setting demo_sink start 0 delivered false None
    (update delivered).2 demo_starts delivered_reachable _ _ _)); vm_compute; reflexivity.
Defined.

Lemma download_parts_once_witness :
  get_part_number <$> in_flight waiting_for_part_2 = [2] ∧
  NoDup ((get_part_number <$> in_flight waiting_for_part_2) ++
         (part_number <$> received (get_delivery (meta waiting_for_part_2)))).
Proof.
  split; [vm_compute; reflexivity|].
  refine (proj1 (download_parts_once _ _ _ _ _ _ _ _ demo_setting demo_sink start 0 waiting_for_part_2
    demo_starts waiting_reachable _ _)); vm_compute; reflexivity.
Defined.

Lemma download_winds_down_witness :
  finish_result (get_delivery (meta canceled)) = Some (Some AWS_ERROR_S3_CANCELED) ∧ in_flight canceled = [].
Proof.
  split; [vm_compute; reflexivity|].
  refine (proj1 (proj2 (download_winds_down _ _ _ _ _ _ _ _ demo_setting demo_sink start 0 canceled false None
    (update canceled).2 demo_starts canceled_reachable _ _))); vm_compute; reflexivity.
Defined.
