(* ===== verification/FileDelivery.v ===== *)
(** Delivery out of order to a file, which is what a download to a file does unless it is
    told otherwise: write workers write the parts of the object at their places in the file,
    in any order and at the same time, and the critical sections after their writes mark the
    parts and fold them into the delivered prefix.  A write that succeeds wrote its whole body;
    what a failed one may have left in the file is not counted. *)

From Stdlib Require Import Init.Byte.
From S2P Require Import Prelude AwsCommon PriorityQueue PartMath Tracking.
From S2P Require Import Delivery DeliveryInv DeliveryOrder GetDownload.

(** * The contents of a file *)

(** The byte at [offset] after the writes so far, of a file that was empty there. *)
Definition write_at (offset : Z) (byte_before : option byte) (w : Z * list byte) : option byte :=
  if w.1 <=? offset then
    match w.2 !! Z.to_nat (offset - w.1) with Some b => Some b | None => byte_before end
  else byte_before.

Definition file_at (writes : list (Z * list byte)) (offset : Z) : option byte :=
  foldl (write_at offset) None writes.

Definition covers (w : Z * list byte) (offset : Z) (b : byte) : Prop :=
  w.1 ≤ offset ∧ w.2 !! Z.to_nat (offset - w.1) = Some b.

Lemma file_at_snoc writes w offset : file_at (writes ++ [w]) offset = write_at offset (file_at writes offset) w.
Proof. unfold file_at. by rewrite foldl_app. Qed.

Lemma file_at_Some writes offset b : file_at writes offset = Some b → ∃ w, w ∈ writes ∧ covers w offset b.
Proof.
  induction writes as [|w writes IH] using rev_ind; [done|]. rewrite file_at_snoc. unfold write_at.
  destruct (Z.leb_spec w.1 offset).
  - destruct (w.2 !! _) as [b'|] eqn:Hb.
    + intros [= <-]. exists w. split; [apply elem_of_app; right; left|done].
    + intros (w' & Hw & Hc)%IH. exists w'. split; [apply elem_of_app; by left|done].
  - intros (w' & Hw & Hc)%IH. exists w'. split; [apply elem_of_app; by left|done].
Qed.

Lemma file_at_covered writes offset w b : w ∈ writes → covers w offset b → is_Some (file_at writes offset).
Proof.
  intros Hw [Hle Hb]. induction writes as [|w' writes IH] using rev_ind; [by apply elem_of_nil in Hw|].
  rewrite file_at_snoc. unfold write_at. apply elem_of_app in Hw as [Hw| ->%list_elem_of_singleton].
  - destruct (IH Hw) as [x ->]. destruct (_ <=? _); [|by eexists]. destruct (w'.2 !! _); by eexists.
  - rewrite (proj2 (Z.leb_le _ _)), Hb by done. by eexists.
Qed.

Lemma slice_lookup object a b j : 0 ≤ a → 0 ≤ j → slice object a b !! Z.to_nat j =
  if j <=? b - a then object !! Z.to_nat (a + j) else None.
Proof.
  intros Ha Hj. unfold slice. destruct (Z.leb_spec j (b - a)).
  - rewrite lookup_take_lt by lia. rewrite lookup_drop. f_equal. lia.
  - apply lookup_take_ge. lia.
Qed.

(** * Write workers as a transition system *)

Section file.
Context `{Q1 : !AwsPriorityQueue s3_request part_number}.
Context `{Q2 : !AwsPriorityQueue delivery_tracking_record track_part_number}.
Context `{M : !AwsMath}.
Context (accept : list (Z * list byte) → Z → list byte → option aws_error).
Context (checksum_update : list byte → list byte → option aws_error).
Context (c : delivery_config) (object : list byte) (part_size first_part_size s e : Z).

Notation n := (aws_s3_calculate_auto_ranged_get_num_parts part_size first_part_size s e).
Notation range k := (aws_s3_calculate_auto_ranged_get_part_range s e part_size first_part_size k).

(** Part [k] of the bytes [s] to [e] of the object, as its response brings it. *)
Definition object_part (k : Z) : s3_request :=
  mkRequest k (range k).1 (range k).2 (slice object (range k).1 (range k).2).

(** A part arrives, once; a worker takes any of the scheduled writes; any of the writes done
    enters its critical section; and the other threads take their steps. *)
Inductive file_step (d : delivery) : delivery → Prop :=
| file_stream k : 1 ≤ k ≤ n → k ∉ part_number <$> streamed d →
    file_step d (aws_s3_meta_request_stream_response_body_synced c d (object_part k))
| file_write before r after run_ready : pending_writes d = before ++ r :: after →
    file_step d (body_write_run accept c (d <| pending_writes := before ++ after |>) r run_ready)
| file_written before r error after : finished_writes d = before ++ (r, error) :: after →
    file_step d (body_write_complete c (d <| finished_writes := before ++ after |>) r error)
| file_success : file_step d (aws_s3_meta_request_set_success_synced d)
| file_io d' : io_step accept checksum_update c d d' → file_step d d'.

Definition file_reachable (initial_read_window : Z) (d : delivery) : Prop :=
  rtc file_step (delivery_init initial_read_window (mask_new n)) d.

Context (base origin : Z) (resolved : bool).

(** Out-of-order delivery of a range of the object, in parts that 32 bits can count, to a
    file. *)
Record file_setting : Prop := {
  fs_out_of_order : out_of_order_delivery c = true;
  fs_sink : sink c = RecvFile base origin resolved;
  fs_offsets : uint 64 base ∧ uint 64 origin;
  fs_sizes : 0 < part_size ∧ 0 < first_part_size;
  fs_range : 0 ≤ s ≤ e ∧ e < body_len object;
  fs_ends : e + part_size < 2 ^ 64 ∧ e + first_part_size < 2 ^ 64;
  fs_count : (e - s) / part_size + 2 < 2 ^ 32 - 8;
}.

(** ** The parts *)

Section parts.
Context `{!AwsPriorityQueueLaws delivery_tracking_record track_part_number Q2} `{!AwsMathLaws M}.
Context (Hset : file_setting).

Lemma file_parts : 1 ≤ n < 2 ^ 32 - 8.
Proof.
  destruct Hset as [_ _ _ [Hp Hf] [Hs He] [E1 E2] Hc].
  destruct (num_parts_cases part_size first_part_size s e Hp Hf ltac:(lia) ltac:(lia) E1 E2 ltac:(lia))
    as [[_ ->]|(Hr & Hn & Hm)]; [lia|]. split; [lia|].
  assert (n - 2 ≤ (e - s) / part_size); [|lia]. apply Z.div_le_lower_bound; lia.
Qed.

Lemma file_range k : 1 ≤ k ≤ n → range k = (part_start part_size first_part_size s k,
  Z.min e (part_start part_size first_part_size s k + (if k =? 1 then first_part_size else part_size) - 1)).
Proof.
  intros Hk. destruct Hset as [_ _ _ [Hp Hf] [Hs He] [E1 E2] Hc]. apply part_range_spec; (done || lia).
Qed.

Lemma range_bounds k : 1 ≤ k ≤ n → s ≤ (range k).1 ≤ (range k).2 ∧ (range k).2 ≤ e.
Proof.
  intros Hk. rewrite file_range by done. simpl. destruct Hset as [_ _ _ [Hp Hf] [Hs He] [E1 E2] Hc].
  destruct (part_start_bound part_size first_part_size s e Hp Hf ltac:(lia) ltac:(lia) E1 E2 ltac:(lia) k Hk) as [Hb _].
  assert (s ≤ part_start part_size first_part_size s k) by (unfold part_start; destruct (Z.eqb_spec k 1); nia).
  destruct (k =? 1); lia.
Qed.

Lemma range_first : (range 1).1 = s.
Proof. pose proof file_parts. rewrite file_range by lia. done. Qed.

Lemma range_next k : 1 ≤ k < n → (range (k + 1)).1 = (range k).2 + 1.
Proof.
  intros Hk. rewrite !file_range by lia. simpl. destruct Hset as [_ _ _ [Hp Hf] [Hs He] [E1 E2] Hc].
  destruct (part_start_bound part_size first_part_size s e Hp Hf ltac:(lia) ltac:(lia) E1 E2 ltac:(lia) (k + 1)) as [Hb _]; [lia|].
  unfold part_start in *. rewrite (proj2 (Z.eqb_neq (k + 1) 1)) in * by lia. destruct (Z.eqb_spec k 1) as [->|]; lia.
Qed.

Lemma range_last : (range n).2 = e.
Proof.
  pose proof file_parts as Hn. rewrite file_range by lia. simpl. destruct Hset as [_ _ _ [Hp Hf] [Hs He] [E1 E2] Hc].
  pose proof (num_parts_cases part_size first_part_size s e Hp Hf ltac:(lia) ltac:(lia) E1 E2 ltac:(lia)) as Hcases.
  unfold part_start. destruct (Z.eqb_spec n 1) as [H1|H1]; nia.
Qed.

(** Every byte up to the end of part [k] lies in a part. *)
Lemma range_covers k x : 1 ≤ k ≤ n → s ≤ x ≤ (range k).2 → ∃ j, 1 ≤ j ≤ k ∧ (range j).1 ≤ x ≤ (range j).2.
Proof.
  intros [Hk Hle]. revert Hle. pattern k. apply Zlt_lower_bound_ind with 1; [|done]. clear k Hk.
  intros k IH Hk Hle Hx. destruct (decide ((range k).1 ≤ x)); [exists k; lia|].
  destruct (decide (k = 1)) as [->|]; [rewrite range_first in *; lia|].
  pose proof (range_next (k - 1) ltac:(lia)) as Hnext. replace (k - 1 + 1) with k in Hnext by lia.
  destruct (IH (k - 1)) as (j & Hj & Hr); [lia..|]. exists j. split; [lia|done].
Qed.

Lemma part_len k : 1 ≤ k ≤ n → body_len (response_body (object_part k)) = (range k).2 - (range k).1 + 1.
Proof.
  intros Hk. pose proof (range_bounds k Hk). pose proof (fs_range Hset). simpl. apply slice_len; lia.
Qed.

(** The record of a part that was written. *)
Definition part_record (k : Z) : delivery_tracking_record :=
  completed_record (object_part k) (body_len (response_body (object_part k))).

(** The bytes of the first [k] parts. *)
Lemma records_bytes k : 0 ≤ k ≤ n → zsum (λ j, track_bytes (part_record j)) (seqZ 1 k) =
  if k =? 0 then 0 else (range k).2 - s + 1.
Proof.
  intros [Hk Hle]. revert Hle. pattern k. apply natlike_ind; [done| |done]. clear k Hk.
  intros k Hk IH Hle. change (Z.succ k) with (k + 1) in *. specialize (IH ltac:(lia)).
  rewrite seqZ_app, zsum_app, IH, (seqZ_cons (1 + k)) by lia. rewrite zsum_cons, (Z.add_comm 1 k).
  change (seqZ _ (Z.pred 1)) with (@nil Z). rewrite zsum_nil, (proj2 (Z.eqb_neq (k + 1) 0)) by lia.
  change (track_bytes (part_record (k + 1))) with (body_len (response_body (object_part (k + 1)))).
  rewrite part_len by lia.
  destruct (Z.eqb_spec k 0) as [->|]; [change (0 + 1) with 1; rewrite range_first; lia|]. rewrite range_next by lia. lia.
Qed.

(** A part recorded in the prefix. *)
Lemma record_part ord p k : orders n (k :: ord) → prefix_ok n part_record ord p →
  match s_s3_meta_request_record_delivered_part_synced p (part_record k) with
  | Success p' => prefix_ok n part_record (k :: ord) p'
  | Failure _ => True
  end.
Proof.
  intros Hord Hp. pose proof file_parts. pose proof (fs_range Hset). pose proof (fs_ends Hset). pose proof (fs_sizes Hset).
  assert (∀ j, 1 ≤ j ≤ n → 0 ≤ track_bytes (part_record j)) as Hb by (intros j Hj; apply body_len_nonneg).
  assert (zsum (λ j, track_bytes (part_record j)) (seqZ 1 n) < 2 ^ 64) as Hsum.
  { rewrite records_bytes, range_last by lia. destruct (n =? 0); lia. }
  pose proof (record_prefix n part_record ltac:(lia) (λ k, eq_refl) (λ k, range_next k)
    (λ k Hk, ltac:(pose proof (range_bounds k Hk); simpl; lia)) Hb Hsum ord p k Hord Hp) as Hr.
  by destruct (s_s3_meta_request_record_delivered_part_synced p (part_record k)).
Qed.

(** ** What every state satisfies *)

(** Where a part belongs in the file. *)
Definition part_write (r : s3_request) : Z * list byte := (base + (part_range_start r - origin), response_body r).

Definition succeeded (writes : list (s3_request * option aws_error)) : list s3_request :=
  (filter (λ w, w.2 = None) writes).*1.

(** No body goes through the event queue. *)
Definition quiet (d : delivery) : Prop :=
  bodies (undelivered d) = [] ∧
  ∀ t, task d = Some t →
    incomplete_deliver_events t = [] ∧ num_parts_delivered t = 0 ∧ completed_deliveries t = [].

(** A part that has arrived is scheduled, written, marked as delivered, or failed. *)
Record file_inv (marked failed : list s3_request) (d : delivery) : Prop := {
  fi_quiet : quiet d;
  fi_object r : r ∈ streamed d → 1 ≤ part_number r ≤ n ∧ r = object_part (part_number r);
  fi_once : NoDup (part_number <$> streamed d);
  fi_streamed : streamed d ≡ₚ pending_writes d ++ (finished_writes d).*1 ++ marked ++ failed;
  fi_writes : file_writes d ≡ₚ part_write <$> succeeded (finished_writes d) ++ marked;
  fi_mask : mask_ok n (mask d);
  fi_marked k : 1 ≤ k ≤ n → is_delivered (mask d) k = bool_decide (k ∈ part_number <$> marked);
  fi_prefix : ∃ ord, prefix_ok n part_record ord (prefix d) ∧ NoDup ord ∧ ord ⊆ part_number <$> marked ∧
    (finish_result d = None → part_number <$> marked ⊆ ord);
  fi_failed : finish_result d = None → failed = [];
  fi_completed : num_parts_delivery_completed d = Z.of_nat (length (marked ++ failed));
}.

Definition frame (d : delivery) :=
  (streamed d, pending_writes d, finished_writes d, file_writes d, mask d, prefix d, num_parts_delivery_completed d).

Lemma file_inv_frame marked failed d d' : file_inv marked failed d → frame d' = frame d → quiet d' →
  (finish_result d' = None → finish_result d = None) → file_inv marked failed d'.
Proof.
  intros [_ Ho Hn Hst Hw Hm Hmk (ord & Hp & Hnd & Hsub & Hall) Hf Hc] Hframe Hq Hres. unfold frame in Hframe.
  injection Hframe as E1 E2 E3 E4 E5 E6 E7. split; rewrite ?E1, ?E2, ?E3, ?E4, ?E5, ?E6, ?E7; try done; [|by auto].
  exists ord. split_and!; [done..|]. by auto.
Qed.

Lemma streamed_bound marked failed d : file_inv marked failed d → Z.of_nat (length (streamed d)) ≤ n.
Proof.
  intros Hinv. pose proof file_parts. rewrite <-(length_fmap part_number).
  transitivity (Z.of_nat (length (seqZ 1 n))); [|rewrite length_seqZ; lia].
  apply inj_le, submseteq_length, NoDup_submseteq; [apply (fi_once _ _ _ Hinv)|].
  intros k (r & -> & Hr)%list_elem_of_fmap. apply elem_of_seqZ. apply (fi_object _ _ _ Hinv) in Hr. lia.
Qed.

Lemma finished_bound marked failed d : file_inv marked failed d →
  num_parts_delivery_completed d + Z.of_nat (length (finished_writes d)) ≤ n ∧ 0 ≤ num_parts_delivery_completed d.
Proof.
  intros Hinv. pose proof (streamed_bound _ _ _ Hinv) as Hle. rewrite (fi_completed _ _ _ Hinv).
  rewrite (fi_streamed _ _ _ Hinv), !length_app, length_fmap in Hle. rewrite length_app. lia.
Qed.

Lemma undelivered_task d t : task d = Some t → incomplete_deliver_events t = [] →
  undelivered d = io_event_delivery_array d ++ event_delivery_array d.
Proof. intros Ht Hi. unfold undelivered. by rewrite Ht, Hi. Qed.

Lemma quiet_events d d' : quiet d → undelivered d' = undelivered d → task d' = task d → quiet d'.
Proof. intros [H1 H2] E1 E2. split; by rewrite ?E1, ?E2. Qed.

Lemma quiet_add_event d ev : quiet d → ev_body ev = None →
  quiet (aws_s3_meta_request_add_event_for_delivery_synced d (Some ev)).
Proof.
  intros [H1 H2] Hev. rewrite add_event_Some. split; [|done]. unfold undelivered in *. simpl.
  rewrite !app_assoc, bodies_app, <-app_assoc, H1. unfold bodies. simpl. by rewrite Hev.
Qed.

Lemma open_window_same d body : ∃ window scheduled, open_window c d body =
  d <| read_window_running_total := window |> <| event_delivery_task_scheduled := scheduled |>.
Proof.
  assert (d = d <| read_window_running_total := read_window_running_total d |>
    <| event_delivery_task_scheduled := event_delivery_task_scheduled d |>) as Hsame by (by destruct d).
  unfold open_window, aws_s3_meta_request_increment_read_window.
  destruct (enable_read_backpressure c); [destruct (_ || _)|]; [by eexists _, _| |by eexists _, _].
  rewrite add_event_None. by eexists _, _.
Qed.

(** The write of a part puts it at its place in the file, or changes nothing. *)
Lemma write_file d body start error d' : uint 64 start →
  deliver_body_to_file accept c base origin resolved d body start = (error, d') →
  frame d' = frame (match error with
                    | None => d <| file_writes := file_writes d ++ [(base + (start - origin), body)] |>
                    | Some _ => d
                    end) ∧
  undelivered d' = undelivered d ∧ task d' = task d ∧ finish_result d' = finish_result d.
Proof.
  intros Hstart. unfold deliver_body_to_file. destruct (s_s3_recv_file_offset _ _ _ _) as [offset|e'] eqn:Hoff; [|by intros [= <- <-]].
  destruct (accept _ _ _); [by intros [= <- <-]|].
  destruct (fs_offsets Hset) as [Hb Ho].
  apply (recv_file_offset_success base origin resolved start offset Hb Ho Hstart) in Hoff as (_ & -> & _).
  match goal with |- context [open_window c ?d0 body] => destruct (open_window_same d0 body) as (w & sch & ->) end.
  by intros [= <- <-].
Qed.

(** ** Steps *)

Lemma file_inv_io marked failed d d' : file_inv marked failed d → io_step accept checksum_update c d d' →
  file_inv marked failed d'.
Proof.
  intros Hinv Hstep. pose proof (fi_quiet _ _ _ Hinv) as Hq.
  destruct Hstep as [b Hb|e'|b|Htel|d' Hs Ht He|d' Ht Hio He|d' Ht Hio He].
  - apply (file_inv_frame _ _ d); [done|..].
    1-3: unfold aws_s3_meta_request_increment_read_window; destruct (_ || _); rewrite ?add_event_None; first [exact Hq|done].
  - apply (file_inv_frame _ _ d); [done|..];
      unfold aws_s3_meta_request_set_fail_synced; destruct (finish_result d) eqn:Hf; first [exact Hq|done|by rewrite Hf].
  - apply (file_inv_frame _ _ d); [done|by rewrite add_event_Some|by apply quiet_add_event|by rewrite add_event_Some].
  - apply (file_inv_frame _ _ d); [done|by rewrite add_event_Some|by apply quiet_add_event|by rewrite add_event_Some].
  - unfold task_begin in He. case_bool_decide as Hio; [|done]. apply Ok_inj in He as <-.
    apply (file_inv_frame _ _ d); [done|done| |done]. split; [|by intros t [= <-]].
    destruct Hq as [Hq _]. unfold undelivered in *. simpl. rewrite Ht, Hio in Hq. by rewrite app_nil_r.
  - destruct (task d) as [t|] eqn:Htask; [|done]. destruct (io_event_delivery_array d) as [|ev evs] eqn:Hi; [done|].
    destruct Hq as [Hq Hqt]. destruct (Hqt t Htask) as (Hinc & Hnum & Hcomp).
    rewrite (undelivered_task d t) in Hq by done. rewrite Hi in Hq. simpl in Hq.
    assert (ev_body ev = None ∧ bodies (evs ++ event_delivery_array d) = []) as [Hev Hrest].
    { unfold bodies in *. simpl in Hq. by destruct (ev_body ev). }
    unfold task_event in He. rewrite Htask, Hi in He.
    assert (d' = d <| io_event_delivery_array := evs |> <| task := Some t |>) as ->.
    { destruct ev; simpl in Hev, He; [done|by apply Ok_inj in He|].
      destruct (has_telemetry_callback c); [|done]. by apply Ok_inj in He. }
    apply (file_inv_frame _ _ d); [done|done| |done]. split; [|by intros t' [= <-]].
    by rewrite (undelivered_task _ t) by done.
  - destruct (task d) as [t|] eqn:Htask; [|done]. destruct Hq as [Hq Hqt]. destruct (Hqt t Htask) as (Hinc & Hnum & Hcomp).
    rewrite (undelivered_task d t), Hio in Hq by done.
    unfold task_end in He. rewrite Htask in He. unfold requeue_incomplete in He. rewrite Hinc, Hcomp, Hnum in He.
    rewrite (fs_out_of_order Hset) in He. pose proof (finished_bound _ _ _ Hinv) as Hbound.
    pose proof file_parts as Hparts. cbn [mbind res_bind record_completed] in He. apply Ok_inj in He as <-.
    apply (file_inv_frame _ _ d); [done|..].
    + destruct (error_code t); [unfold aws_s3_meta_request_set_fail_synced; simpl; destruct (finish_result d)|];
        unfold frame; simpl; by rewrite Z.add_0_r, wrap_small by (unfold uint; lia).
    + split; [|done]. destruct (error_code t); [unfold aws_s3_meta_request_set_fail_synced; simpl; destruct (finish_result d)|]; exact Hq.
    + destruct (error_code t); [unfold aws_s3_meta_request_set_fail_synced; simpl; destruct (finish_result d) eqn:Hf|]; first [done|by rewrite Hf].
Qed.

Lemma file_inv_stream marked failed d k : file_inv marked failed d → 1 ≤ k ≤ n → k ∉ part_number <$> streamed d →
  file_inv marked failed (aws_s3_meta_request_stream_response_body_synced c d (object_part k)).
Proof.
  intros [Hq Ho Hn Hst Hw Hm Hmk Hp Hf Hc] Hk Hnew. unfold aws_s3_meta_request_stream_response_body_synced.
  rewrite (fs_out_of_order Hset), (fs_sink Hset). simpl. split; simpl; try done.
  - intros r [Hr| ->%list_elem_of_singleton]%elem_of_app; [by apply Ho|done].
  - rewrite fmap_app. apply list.NoDup_app. split_and!; [done| |apply list.NoDup_singleton].
    by intros j Hj ->%list_elem_of_singleton.
  - rewrite Hst. solve_Permutation.
Qed.

Lemma succeeded_middle before r error after : succeeded (before ++ (r, error) :: after) ≡ₚ
  (if decide (error = None) then [r] else []) ++ succeeded (before ++ after).
Proof.
  unfold succeeded. rewrite !list.filter_app, !fmap_app, filter_cons. simpl.
  destruct (decide (error = None)); simpl; [|done]. by rewrite Permutation_middle.
Qed.

Lemma file_inv_write marked failed d before r after ready : file_inv marked failed d →
  pending_writes d = before ++ r :: after →
  file_inv marked failed (body_write_run accept c (d <| pending_writes := before ++ after |>) r ready).
Proof.
  intros [Hq Ho Hn Hst Hw Hm Hmk Hp Hf Hc] Hpend. unfold body_write_run. rewrite (fs_sink Hset).
  set (d0 := d <| pending_writes := before ++ after |>).
  destruct (if ready then _ else _) as [error d1] eqn:Hrun.
  assert (r ∈ streamed d) as Hr by (rewrite Hst, Hpend; set_solver).
  destruct (Ho r Hr) as [Hk Hpart]. pose proof (range_bounds _ Hk). pose proof (fs_range Hset). pose proof (fs_ends Hset). pose proof (fs_sizes Hset).
  assert (uint 64 (part_range_start r)) as Hstart by (rewrite Hpart; simpl; unfold uint; lia).
  assert (frame d1 = frame (match error with
      | None => d0 <| file_writes := file_writes d0 ++ [part_write r] |> | Some _ => d0 end) ∧
    undelivered d1 = undelivered d0 ∧ task d1 = task d0 ∧ finish_result d1 = finish_result d0) as (Hframe & Hund & Htask & Hres).
  { destruct ready; [by apply (write_file d0 (response_body r))|by injection Hrun as <- <-]. }
  unfold frame in Hframe.
  assert (streamed d1 = streamed d ∧ pending_writes d1 = before ++ after ∧ finished_writes d1 = finished_writes d ∧
    file_writes d1 = file_writes d ++ (if decide (error = None) then [part_write r] else []) ∧ mask d1 = mask d ∧
    prefix d1 = prefix d ∧ num_parts_delivery_completed d1 = num_parts_delivery_completed d) as (E1 & E2 & E3 & E4 & E5 & E6 & E7).
  { destruct error; injection Hframe as -> -> -> -> -> -> ->; simpl; by rewrite ?app_nil_r. }
  clear Hframe Hrun.
  split; simpl; rewrite ?E1, ?E2, ?E3, ?E4, ?E5, ?E6, ?E7, ?Hres; try done.
  - by apply (quiet_events d).
  - rewrite Hst, Hpend, fmap_app. simpl. solve_Permutation.
  - rewrite succeeded_middle, app_nil_r, Hw. destruct (decide (error = None)); simpl; [|by rewrite app_nil_r].
    rewrite <-Permutation_cons_append. done.
Qed.

Lemma streamed_numbers marked failed d : file_inv marked failed d →
  NoDup ((part_number <$> (finished_writes d).*1) ++ (part_number <$> marked) ++ (part_number <$> failed)) ∧
  ∀ r, r ∈ (finished_writes d).*1 ++ marked ++ failed → 1 ≤ part_number r ≤ n ∧ r = object_part (part_number r).
Proof.
  intros [_ Ho Hn Hst _ _ _ _ _ _]. rewrite Hst, !fmap_app in Hn. apply list.NoDup_app in Hn as (_ & _ & Hn).
  split; [done|]. intros r Hr. apply Ho. rewrite Hst. apply elem_of_app. by right.
Qed.

(** The critical section after the write of [r], without the metrics. *)
Lemma file_inv_mark marked failed d before r after : file_inv marked failed d →
  finished_writes d = before ++ (r, None) :: after →
  ∃ m, s_mark_part_delivered (mask d) (part_number r) = Success m ∧
  let d1 := d <| finished_writes := before ++ after |> <| num_parts_delivery_completed ::= λ x, x +[32] 1 |> <| mask := m |> in
  file_inv (r :: marked) failed
    match s_s3_meta_request_record_delivered_part_synced (prefix d1) (completed_record r (body_len (response_body r))) with
    | Success p => d1 <| prefix := p |>
    | Failure error => aws_s3_meta_request_set_fail_synced d1 error
    end.
Proof.
  intros Hinv Hfin. destruct (streamed_numbers _ _ _ Hinv) as [Hnd Hobj]. pose proof (finished_bound _ _ _ Hinv) as Hbound.
  destruct Hinv as [Hq Ho Hn Hst Hw Hm Hmk (ord & Hp & Hord & Hsub & Hall) Hf Hc].
  rewrite Hfin, fmap_app in Hnd, Hobj. simpl in Hnd, Hobj.
  destruct (Hobj r) as [Hk Hpart]; [set_solver|].
  assert (part_number r ∉ part_number <$> marked) as Hnew.
  { rewrite fmap_app, fmap_cons in Hnd. apply list.NoDup_app in Hnd as (_ & Hdisj & _).
    intros Hin. apply (Hdisj (part_number r)); set_solver. }
  assert (is_delivered (mask d) (part_number r) = false) as Hnot by (rewrite Hmk, bool_decide_false; done).
  pose proof (mark_in_range n (mask d) Hm (part_number r) Hk) as Hmark. rewrite Hnot in Hmark.
  eexists. split; [exact Hmark|]. cbv zeta. set (m := _ <| parts_delivered_mask ::= _ |>) in *.
  destruct (mark_delivers n (mask d) Hm _ _ Hmark) as (_ & _ & Hm' & Hdel). clearbody m.
  assert (streamed d ≡ₚ pending_writes d ++ (before ++ after).*1 ++ (r :: marked) ++ failed) as Hst'.
  { rewrite Hst, Hfin, !fmap_app. simpl. solve_Permutation. }
  assert (file_writes d ≡ₚ part_write <$> succeeded (before ++ after) ++ r :: marked) as Hw'.
  { rewrite Hw, Hfin. apply fmap_Permutation. rewrite succeeded_middle, decide_True by done. solve_Permutation. }
  assert (num_parts_delivery_completed d +[32] 1 = Z.of_nat (length ((r :: marked) ++ failed))) as Hc'.
  { pose proof file_parts. rewrite Hfin, length_app in Hbound. simpl in Hbound.
    rewrite wrap_small by (unfold uint; lia). rewrite Hc. simpl. lia. }
  assert (∀ k, 1 ≤ k ≤ n → is_delivered m k = bool_decide (k ∈ part_number <$> r :: marked)) as Hmk'.
  { intros k Hk'. rewrite Hdel, Hmk by done. rewrite fmap_cons. destruct (Z.eqb_spec k (part_number r)) as [->|Hne].
    - by rewrite (bool_decide_true (_ ∈ _ :: _)) by left.
    - simpl. apply bool_decide_ext. rewrite elem_of_cons. tauto. }
  assert (completed_record r (body_len (response_body r)) = part_record (part_number r)) as ->.
  { unfold part_record. by rewrite <-Hpart. }
  assert (orders n (part_number r :: ord)) as Hord'.
  { split; [apply list.NoDup_cons; split; [by intros Hin%Hsub|done]|].
    intros j [->|(x & -> & Hx)%Hsub%list_elem_of_fmap]%elem_of_cons; [done|]. apply Hobj. set_solver. }
  pose proof (record_part ord (prefix d) (part_number r) Hord' Hp) as Hrec. simpl.
  destruct (s_s3_meta_request_record_delivered_part_synced (prefix d) (part_record (part_number r))) as [p|error].
  - split; simpl; try done. exists (part_number r :: ord). split_and!; [done|apply Hord'|..].
    + intros j. rewrite !elem_of_cons. intros [?|?%Hsub]; tauto.
    + intros Hnone j. rewrite !elem_of_cons. intros [?|?%(Hall Hnone)]; tauto.
  - match goal with |- context [aws_s3_meta_request_set_fail_synced ?d0 error] =>
      rewrite (set_fail_finish d0 (Some error)) end.
    assert (∀ d0, failed_with d0 (Some error) ≠ None) as Hne by (intros d0; unfold failed_with; by destruct (finish_result d0)).
    split; simpl; try done; [|by intros ?%Hne]. exists ord. split_and!; [done|done| |by intros ?%Hne].
    intros j ?%Hsub. apply elem_of_cons. by right.
Qed.

Lemma file_inv_written marked failed d before r error after : file_inv marked failed d →
  finished_writes d = before ++ (r, error) :: after →
  ∃ marked' failed', file_inv marked' failed' (body_write_complete c (d <| finished_writes := before ++ after |>) r error).
Proof.
  intros Hinv Hfin.
  assert (∀ marked' failed' d', file_inv marked' failed' d' → file_inv marked' failed'
    (if has_telemetry_callback c then aws_s3_meta_request_add_event_for_delivery_synced d' (Some EVENT_TELEMETRY) else d')) as Htel.
  { intros marked' failed' d' H. destruct (has_telemetry_callback c); [|done]. pose proof (fi_quiet _ _ _ H).
    apply (file_inv_frame _ _ d'); [done|by rewrite add_event_Some|by apply quiet_add_event|by rewrite add_event_Some]. }
  unfold body_write_complete. destruct error as [error|].
  - exists marked, (r :: failed). apply Htel. pose proof (finished_bound _ _ _ Hinv) as Hbound. pose proof file_parts.
    destruct Hinv as [Hq Ho Hn Hst Hw Hm Hmk (ord & Hp & Hord & Hsub & Hall) Hf Hc].
    match goal with |- context [aws_s3_meta_request_set_fail_synced ?d0 error] =>
      rewrite (set_fail_finish d0 (Some error)) end.
    assert (∀ d0, failed_with d0 (Some error) ≠ None) as Hne by (intros d0; unfold failed_with; by destruct (finish_result d0)).
    split; simpl; try done; [..|by intros ?%Hne|].
    + rewrite Hst, Hfin, !fmap_app. simpl. solve_Permutation.
    + rewrite Hw, Hfin. apply fmap_Permutation. rewrite succeeded_middle, decide_False by done. done.
    + exists ord. split_and!; [done..|by intros ?%Hne].
    + rewrite Hfin, length_app in Hbound. simpl in Hbound. rewrite wrap_small by (unfold uint; lia).
      rewrite Hc, !length_app. simpl. lia.
  - exists (r :: marked), failed. apply Htel.
    destruct (file_inv_mark marked failed d before r after Hinv Hfin) as (m & Hmark & Hinv').
    unfold mark_or_fail. simpl. rewrite Hmark. exact Hinv'.
Qed.

Lemma file_inv_step marked failed d d' : file_inv marked failed d → file_step d d' →
  ∃ marked' failed', file_inv marked' failed' d'.
Proof.
  intros Hinv Hstep. destruct Hstep as [k Hk Hnew|before r after ready Hp|before r error after Hf| |d' Hio].
  - exists marked, failed. by apply file_inv_stream.
  - exists marked, failed. by apply file_inv_write.
  - by apply (file_inv_written marked failed).
  - exists marked, failed. pose proof (fi_quiet _ _ _ Hinv) as Hq.
    apply (file_inv_frame _ _ d); [done|..]; unfold aws_s3_meta_request_set_success_synced;
      destruct (finish_result d) eqn:Hf; first [exact Hq|done|by rewrite Hf].
  - exists marked, failed. by apply (file_inv_io marked failed d).
Qed.

Lemma file_reachable_inv w d : file_reachable w d → ∃ marked failed, file_inv marked failed d.
Proof.
  intros Hd. pose proof file_parts as Hparts. unfold file_reachable in Hd. set (d0 := delivery_init _ _) in Hd.
  assert (file_inv [] [] d0) as Hinit.
  { split; simpl; try done; try (by intros ? ?%elem_of_nil); try (by apply list.NoDup_nil).
    - by apply mask_new_ok.
    - intros k Hk. by rewrite mask_new_none.
    - exists []. split_and!; [|apply base.NoDup_nil_2|done|done]. exists 0. split; [|apply not_elem_of_nil].
      split; simpl; try done; try lia. by rewrite pq_elems_empty. }
  assert (∃ marked failed, file_inv marked failed d0) as H0 by eauto. clearbody d0. clear Hinit.
  induction Hd as [|d0 d1 d Hstep _ IH]; [done|]. apply IH. destruct H0 as (mk & fl & H0). by apply (file_inv_step mk fl d0).
Qed.

(** ** The bytes of the file *)

Section contents.
Context (marked failed : list s3_request) (d : delivery) (Hinv : file_inv marked failed d).

Lemma written_part r : r ∈ succeeded (finished_writes d) ++ marked → 1 ≤ part_number r ≤ n ∧ r = object_part (part_number r).
Proof.
  intros Hr. apply (fi_object _ _ _ Hinv). rewrite (fi_streamed _ _ _ Hinv), !elem_of_app.
  apply elem_of_app in Hr as [Hr|Hr]; [|tauto]. right. left. unfold succeeded in Hr.
  apply list_elem_of_fmap in Hr as (w & -> & [_ Hw]%list_elem_of_filter). by apply list_elem_of_fmap_2.
Qed.

Lemma written_once : ∃ parts, NoDup parts ∧ file_writes d ≡ₚ (λ k, part_write (object_part k)) <$> parts.
Proof.
  exists (part_number <$> succeeded (finished_writes d) ++ marked). split.
  - destruct (streamed_numbers _ _ _ Hinv) as [Hnd _]. rewrite app_assoc in Hnd. apply list.NoDup_app in Hnd as (Hnd & _).
    eapply sublist_NoDup; [exact Hnd|]. rewrite fmap_app. apply sublist_app; [|done].
    apply fmap_sublist. unfold succeeded. apply fmap_sublist, sublist_filter.
  - rewrite (fi_writes _ _ _ Hinv), <-list_fmap_compose. apply reflexive_eq, list_fmap_ext.
    intros i r Hr%list_elem_of_lookup_2. apply written_part in Hr as [_ Hr]. simpl. by rewrite <-Hr.
Qed.

(** What is written are bytes of the range, at their places. *)
Lemma written_bytes i b : file_at (file_writes d) (base + (s - origin) + i) = Some b →
  0 ≤ i ∧ slice object s e !! Z.to_nat i = Some b.
Proof.
  intros (w & Hw & Hle & Hb)%file_at_Some. rewrite (fi_writes _ _ _ Hinv) in Hw.
  apply list_elem_of_fmap in Hw as (r & -> & Hr). destruct (written_part r Hr) as [Hk Hpart].
  pose proof (range_bounds _ Hk). pose proof (fs_range Hset). simpl in *.
  assert (part_range_start r = (range (part_number r)).1) as Hstart by (by rewrite Hpart).
  assert (response_body r = slice object (range (part_number r)).1 (range (part_number r)).2) as Hbody by (by rewrite Hpart).
  rewrite Hstart in *. rewrite Hbody, slice_lookup in Hb by lia. split; [lia|].
  revert Hb. destruct (Z.leb_spec (base + (s - origin) + i - (base + ((range (part_number r)).1 - origin)))
    ((range (part_number r)).2 - (range (part_number r)).1)) as [Hle'|_]; [|done]. intros Hb.
  rewrite slice_lookup by lia.
  rewrite (proj2 (Z.leb_le _ _)) by lia. rewrite <-Hb. f_equal. lia.
Qed.

(** The bytes of the first [k] parts are there when these parts are marked. *)
Lemma marked_bytes k i : 1 ≤ k ≤ n → (∀ j, 1 ≤ j ≤ k → j ∈ part_number <$> marked) → 0 ≤ i ≤ (range k).2 - s →
  is_Some (file_at (file_writes d) (base + (s - origin) + i)).
Proof.
  intros Hk Hall Hi. destruct (range_covers k (s + i) Hk ltac:(lia)) as (j & Hj & Hr).
  destruct (list_elem_of_fmap_1 _ _ _ (Hall j Hj)) as (r & Hjr & Hin). pose proof (fs_range Hset). pose proof (range_bounds j ltac:(lia)).
  assert (r ∈ succeeded (finished_writes d) ++ marked) as Hw by (apply elem_of_app; by right).
  destruct (written_part r Hw) as [_ Hpart]. rewrite <-Hjr in Hpart.
  destruct (lookup_lt_is_Some_2 object (Z.to_nat (s + i))) as [b Hb]; [unfold body_len in *; lia|].
  apply (file_at_covered _ _ (part_write r) b); [rewrite (fi_writes _ _ _ Hinv); by apply list_elem_of_fmap_2|].
  rewrite Hpart. split; simpl; [lia|]. rewrite slice_lookup by lia. rewrite (proj2 (Z.leb_le _ _)) by lia. rewrite <-Hb. f_equal. lia.
Qed.

Lemma marked_exact k i : 1 ≤ k ≤ n → (∀ j, 1 ≤ j ≤ k → j ∈ part_number <$> marked) → 0 ≤ i ≤ (range k).2 - s →
  ∃ b, file_at (file_writes d) (base + (s - origin) + i) = Some b ∧ slice object s e !! Z.to_nat i = Some b.
Proof.
  intros Hk Hall Hi. destruct (marked_bytes k i Hk Hall Hi) as [b Hb]. exists b. split; [done|]. by apply written_bytes.
Qed.

(** Validation passes when all parts are marked. *)
Lemma validated_marked : aws_s3_meta_request_validate_parts_delivered_synced (mask d) = Success tt ↔
  ∀ j, 1 ≤ j ≤ n → j ∈ part_number <$> marked.
Proof.
  rewrite (validate_all n) by apply Hinv. split; intros H j Hj; specialize (H j Hj).
  - rewrite (fi_marked _ _ _ Hinv) in H by done. by apply bool_decide_eq_true in H.
  - rewrite (fi_marked _ _ _ Hinv) by done. by apply bool_decide_eq_true.
Qed.

Lemma all_completed : finish_result d = None → num_parts_delivery_completed d = n → ∀ j, 1 ≤ j ≤ n → j ∈ part_number <$> marked.
Proof.
  intros Hnone Hc j Hj. rewrite (fi_completed _ _ _ Hinv), (fi_failed _ _ _ Hinv Hnone), app_nil_r in Hc.
  destruct (streamed_numbers _ _ _ Hinv) as [Hnd Hobj]. apply list.NoDup_app in Hnd as (_ & _ & Hnd).
  apply list.NoDup_app in Hnd as (Hnd & _).
  assert (part_number <$> marked ≡ₚ seqZ 1 n) as ->; [|apply elem_of_seqZ; lia].
  apply submseteq_length_Permutation.
  - apply NoDup_submseteq; [done|]. intros k (r & -> & Hr)%list_elem_of_fmap. apply elem_of_seqZ.
    destruct (Hobj r) as [? _]; [set_solver|lia].
  - rewrite length_fmap, length_seqZ. lia.
Qed.
End contents.

(** C40: a download to a file that delivers out of order, as downloads to files do by default.  Whatever the
    order in which the parts arrive, their writes run and the critical sections after them are entered, and
    whatever fails meanwhile: no part is written twice, every byte that is written is the byte of the object
    that belongs there, and nothing is written outside of the range; the delivered prefix, from which a resume
    token is made, counts bytes that are all in the file; the check before success passes only when the file
    holds the requested range, byte for byte; and when all parts are counted as delivered and nothing has
    failed, it passes and the prefix is the whole range. *)
Theorem file_written_any_order w d : file_reachable w d →
  let in_file i := file_at (file_writes d) (base + (s - origin) + i) in
  let validated := aws_s3_meta_request_validate_parts_delivered_synced (mask d) = Success tt in
  (∃ parts, NoDup parts ∧ file_writes d ≡ₚ (λ k, part_write (object_part k)) <$> parts) ∧
  (∀ i b, in_file i = Some b → 0 ≤ i ∧ slice object s e !! Z.to_nat i = Some b) ∧
  (∀ i, 0 ≤ i < num_bytes_delivered (prefix d) → ∃ b, in_file i = Some b ∧ slice object s e !! Z.to_nat i = Some b) ∧
  (validated → ∀ i, 0 ≤ i → in_file i = slice object s e !! Z.to_nat i) ∧
  (finish_result d = None → num_parts_delivery_completed d = n → validated ∧ num_bytes_delivered (prefix d) = e - s + 1).
Proof.
  intros (marked & failed & Hinv)%file_reachable_inv. cbv zeta. pose proof file_parts as Hparts. pose proof (fs_range Hset).
  destruct (fi_prefix _ _ _ Hinv) as (ord & (k & [Hk Hnext Hmem Hb _ _ _] & Hmax) & Hnd & Hsub & Hall).
  rewrite records_bytes in Hb by lia. split_and!.
  - apply (written_once marked failed d Hinv).
  - apply (written_bytes marked failed d Hinv).
  - intros i Hi. rewrite Hb in Hi. destruct (Z.eqb_spec k 0); [lia|].
    apply (marked_exact marked failed d Hinv k); [lia| |lia]. intros j Hj. by apply Hsub, Hmem.
  - rewrite (validated_marked marked failed d Hinv). intros Hm i Hi. destruct (decide (i ≤ e - s)).
    + destruct (marked_exact marked failed d Hinv n i) as (b & -> & ->); [lia|done|rewrite range_last; lia|done].
    + destruct (file_at _ _) as [b|] eqn:Hat; [by apply (written_bytes marked failed d Hinv) in Hat as [_ ->]|].
      rewrite slice_lookup by lia. by rewrite (proj2 (Z.leb_gt _ _)) by lia.
  - intros Hnone Hc. pose proof (all_completed marked failed d Hinv Hnone Hc) as Hm.
    rewrite (validated_marked marked failed d Hinv). split; [done|].
    assert (k = n) as ->.
    { destruct (decide (k = n)); [done|]. destruct Hmax. apply (Hall Hnone), Hm. lia. }
    rewrite Hb, range_last. destruct (Z.eqb_spec n 0); lia.
Qed.
End parts.
End file.

(** * Witnesses *)

#[local] Existing Instances aws_math_ref aws_math_ref_laws sorted_pq sorted_pq_laws.

Module FileDemo.
(** Bytes 2 to 9 of an object of eleven, in a first part of two bytes and parts of three,
    at offset 100 of a file. *)
Definition demo_object : list byte := [x61; x62; x63; x64; x65; x66; x67; x68; x69; x6a; x6b]%byte.
Definition file_conf : delivery_config := mkDelivery true false false true true false (RecvFile 100 2 true).
Definition accept_all (_ : list (Z * list byte)) (_ : Z) (_ : list byte) : option aws_error := None.
Definition checksum_ok (_ _ : list byte) : option aws_error := None.
(** A disk that is full once two parts are written. *)
Definition disk_full (sunk : list (Z * list byte)) (_ : Z) (_ : list byte) : option aws_error :=
  if (length sunk <? 2)%nat then None else Some AWS_ERROR_FILE_WRITE_FAILURE.

Inductive file_op := OpStream (k : Z) | OpWrite (i : nat) | OpWritten (i : nat).

Section run.
Context (accept : list (Z * list byte) → Z → list byte → option aws_error).

Definition run_op (d : delivery) (o : file_op) : option delivery :=
  match o with
  | OpStream k =>
      if (1 <=? k) && (k <=? 3) && negb (bool_decide (k ∈ part_number <$> streamed d))
      then Some (aws_s3_meta_request_stream_response_body_synced file_conf d (object_part demo_object 3 2 2 9 k)) else None
  | OpWrite i =>
      r ← pending_writes d !! i;
      Some (body_write_run accept file_conf
        (d <| pending_writes := take i (pending_writes d) ++ drop (S i) (pending_writes d) |>) r true)
  | OpWritten i =>
      w ← finished_writes d !! i;
      Some (body_write_complete file_conf
        (d <| finished_writes := take i (finished_writes d) ++ drop (S i) (finished_writes d) |>) w.1 w.2)
  end.

Fixpoint run (d : delivery) (ops : list file_op) : option delivery :=
  match ops with [] => Some d | o :: ops => d ← run_op d o; run d ops end.

Lemma file_run_steps d ops d' : run d ops = Some d' → rtc (file_step accept checksum_ok file_conf demo_object 3 2 2 9) d d'.
Proof.
  revert d. induction ops as [|o ops IH]; intros d; cbn [run]; [by intros [= ->]|].
  destruct (run_op d o) as [d1|] eqn:Ho; [|done]. cbn [mbind option_bind]. intros Hr. eapply rtc_l; [|by apply IH].
  clear IH Hr. destruct o as [k|i|i]; cbn [run_op] in Ho.
  - destruct (_ && _) eqn:Hk; [|done]. apply (inj Some) in Ho as <-.
    rewrite !andb_true_iff, negb_true_iff, bool_decide_eq_false, !Z.leb_le in Hk. apply file_stream; [exact (proj1 Hk)|apply Hk].
  - destruct (pending_writes d !! i) as [r|] eqn:Hi; [|done]. apply (inj Some) in Ho as <-.
    apply file_write. by rewrite take_drop_middle.
  - destruct (finished_writes d !! i) as [[r e]|] eqn:Hi; [|done]. apply (inj Some) in Ho as <-.
    apply file_written. by rewrite take_drop_middle.
Qed.
End run.

Definition start : delivery := delivery_init 0 (mask_new 3).
(** The parts arrive as 3, 1, 2 and are written as 1, 3, 2; the section of part 3 comes first. *)
Definition ops : list file_op :=
  [OpStream 3; OpStream 1; OpWrite 1; OpWrite 0; OpWritten 1; OpStream 2; OpWrite 0; OpWritten 0; OpWritten 0].
Definition complete : delivery := default start (run accept_all start ops).
Definition broken : delivery := default start (run disk_full start ops).

Lemma file_demo_setting : file_setting file_conf demo_object 3 2 2 9 100 2 true.
Proof. split; try done; simpl; unfold uint; lia. Qed.

Lemma file_complete_reachable : file_reachable accept_all checksum_ok file_conf demo_object 3 2 2 9 0 complete.
Proof. apply (file_run_steps accept_all _ ops). vm_compute. reflexivity. Qed.
Lemma file_broken_reachable : file_reachable disk_full checksum_ok file_conf demo_object 3 2 2 9 0 broken.
Proof. apply (file_run_steps disk_full _ ops). vm_compute. reflexivity. Qed.
End FileDemo.

Import FileDemo.

Lemma file_written_any_order_witness :
  file_writes complete = [(100, [x63; x64]); (105, [x68; x69; x6a]); (102, [x65; x66; x67])]%byte ∧
  (∀ i, 0 ≤ i → file_at (file_writes complete) (100 + (2 - 2) + i) = slice demo_object 2 9 !! Z.to_nat i) ∧
  finish_result broken = Some (Some AWS_ERROR_FILE_WRITE_FAILURE) ∧ num_bytes_delivered (prefix broken) = 2 ∧
  ∃ b, file_at (file_writes broken) (100 + (2 - 2) + 1) = Some b ∧ slice demo_object 2 9 !! 1%nat = Some b.
Proof.
  split; [vm_compute; reflexivity|]. split.
  - refine (proj1 (proj2 (proj2 (proj2 (file_written_any_order accept_all checksum_ok file_conf demo_object 3 2 2 9
      100 2 true file_demo_setting 0 complete file_complete_reachable)))) _). vm_compute. reflexivity.
  - split; [vm_compute; reflexivity|]. split; [vm_compute; reflexivity|].
    refine (proj1 (proj2 (proj2 (file_written_any_order disk_full checksum_ok file_conf demo_object 3 2 2 9
      100 2 true file_demo_setting 0 broken file_broken_reachable))) 1 _).
    split; [lia|]. vm_compute. reflexivity.
Defined.
