(* ===== verification/ClientConfig.v ===== *)
(** Construction of a client (source/s3_client.c): limits derived from a throughput, the memory
    limit and where it comes from, and the settings that [aws_s3_client_new] computes.  The
    objects of other libraries that a client also owns (sockets, TLS, proxies, event loops,
    signing) can make the construction fail and have no other part in it. *)

From Stdlib Require Import Init.Byte Floats.SpecFloat.
From S2P Require Import Prelude AwsCommon ByteCursor BufferPool BufferPoolProps PartMath.

(** * Double precision numbers *)

(** IEEE 754 binary64, as specified by the standard library.  [ceil] and the conversion to an
    integer are those of C; the value of a number is its mantissa times a power of two. *)
Notation float := spec_float.

Definition double_of_Z (n : Z) : float := binary_normalize 53 1024 n 0 false.
Definition double_div : float → float → float := SFdiv 53 1024.

Definition float_mantissa (x : float) : Z :=
  match x with S754_finite s m _ => if s then Z.neg m else Z.pos m | _ => 0 end.
Definition float_exponent (x : float) : Z := match x with S754_finite _ _ e => e | _ => 0 end.

Definition is_number (x : float) : bool := match x with S754_nan => false | _ => true end.

Definition double_leb (x y : float) : bool :=
  match x, y with
  | S754_nan, _ | _, S754_nan => false
  | S754_infinity true, _ | _, S754_infinity false => true
  | S754_infinity false, _ | _, S754_infinity true => false
  | _, _ =>
      let e := Z.min (float_exponent x) (float_exponent y) in
      float_mantissa x * 2 ^ (float_exponent x - e) <=? float_mantissa y * 2 ^ (float_exponent y - e)
  end.

Definition double_ltb (x y : float) : bool := is_number x && is_number y && negb (double_leb y x).
Definition double_eqb (x y : float) : bool := double_leb x y && double_leb y x.

Definition ceil (x : float) : float :=
  match x with
  | S754_finite s m e =>
      if 0 <=? e then x else binary_normalize 53 1024 (- ((- float_mantissa x) / 2 ^ (- e))) 0 s
  | _ => x
  end.

(** The conversion of a number that does not fit is undefined in C. *)
Definition double_to_u32 (x : float) : Z :=
  wrap 32 (if 0 <=? float_exponent x then float_mantissa x * 2 ^ float_exponent x else Z.quot (float_mantissa x) (2 ^ (- float_exponent x))).

(** [aws_min_double] of aws/common/math.h. *)
Class AwsMathDouble := { aws_min_double : float → float → float }.
Class AwsMathDoubleLaws (F : AwsMathDouble) : Prop := {
  aws_min_double_spec x y : is_number x = true → is_number y = true →
    aws_min_double x y = if double_leb x y then x else y;
}.

(** * Limits from a throughput *)

Definition s_throughput_per_connection_gbps : float := double_div (double_of_Z 100) (double_of_Z 250).
Definition g_min_num_connections : Z := 10.
Definition g_max_num_connections : Z := 10000.
Definition g_default_throughput_target_gbps : float := double_of_Z 10.
Definition s_default_max_retries : Z := 5.
Definition s_default_max_num_file_io_threads : Z := 8.

Definition s_get_default_mem_limit_from_throughput (throughput_gbps : float) : Z :=
  if double_leb (double_of_Z 200) throughput_gbps then GB_TO_BYTES 24
  else if double_leb (double_of_Z 100) throughput_gbps then GB_TO_BYTES 16
  else if double_leb (double_of_Z 75) throughput_gbps then GB_TO_BYTES 8
  else if double_leb (double_of_Z 25) throughput_gbps then GB_TO_BYTES 4
  else if double_leb (double_of_Z 10) throughput_gbps then GB_TO_BYTES 2
  else if double_leb (double_of_Z 5) throughput_gbps then MB_TO_BYTES 512
  else if double_ltb (double_of_Z 0) throughput_gbps then MB_TO_BYTES 256
  else GB_TO_BYTES 2.

(** [detected] is the throughput that the table of platforms has for the running machine. *)
Definition aws_s3_default_memory_limit_for_throughput (detected : option float) (throughput_target_gbps : float) : Z :=
  let effective_throughput_gbps :=
    if double_eqb throughput_target_gbps (double_of_Z 0) then
      match detected with
      | Some max_throughput_gbps =>
          if double_ltb (double_of_Z 0) max_throughput_gbps && double_ltb max_throughput_gbps (double_of_Z 10)
          then max_throughput_gbps else throughput_target_gbps
      | None => throughput_target_gbps
      end
    else throughput_target_gbps in
  s_get_default_mem_limit_from_throughput effective_throughput_gbps.

(** [struct aws_s3_file_io_options] *)
Record file_io_options := mkFio { should_stream : bool; disk_throughput_gbps : float; direct_io : bool }.

Section config.
Context `{M : !AwsMath} `{F : !AwsMathDouble} `{B : !AwsByteCursor}.

Definition s_get_ideal_connection_number_from_throughput (throughput_gps : float) : Z :=
  let ideal_connection_count := double_div throughput_gps s_throughput_per_connection_gbps in
  let ideal_connection_count := ceil ideal_connection_count in
  double_to_u32 (aws_min_double (double_of_Z g_max_num_connections) ideal_connection_count).

Definition aws_s3_default_max_part_size_for_memory_limit (memory_limit : Z) : Z :=
  aws_min_u64 (memory_limit / 2) g_default_max_part_size.

(** * The memory limit *)

(** A number of MiB or GiB of an environment variable in bytes. *)
Fixpoint scale (times : nat) (n : Z) : option Z :=
  match times with
  | O => Some n
  | S times => aws_mul_u64_checked n 1024 ≫= scale times
  end.

(** The environment variables are [None] where they are unset or empty. *)
Definition aws_s3_resolve_configured_memory_limit (mb_var gib_var : option (list byte)) (configured_limit : Z)
    : result aws_error Z :=
  if negb (configured_limit =? 0) then Success configured_limit
  else
    from_mb ← match mb_var with
              | None => Success 0
              | Some text =>
                  match aws_byte_cursor_utf8_parse_u64 text with
                  | None => Failure AWS_ERROR_INVALID_ARGUMENT
                  | Some n => match scale 2 n with
                              | Some bytes => Success bytes
                              | None => Failure AWS_ERROR_OVERFLOW_DETECTED
                              end
                  end
              end;
    if negb (from_mb =? 0) then Success from_mb
    else
      match gib_var with
      | None => Success from_mb
      | Some text =>
          match aws_byte_cursor_utf8_parse_u64 text with
          | None => Failure AWS_ERROR_INVALID_ARGUMENT
          | Some n => match scale 3 n with
                      | Some bytes => Success bytes
                      | None => Failure AWS_ERROR_INVALID_ARGUMENT
                      end
          end
      end.

(** * aws_s3_client_new *)

Inductive aws_s3_retry_mode :=
| AWS_S3_RETRY_MODE_STANDARD
| AWS_S3_RETRY_MODE_ADAPTIVE
| AWS_S3_RETRY_MODE_EXPONENTIAL_BACKOFF
| AWS_S3_RETRY_MODE_NONE.

#[export] Instance retry_mode_eq_dec : EqDecision aws_s3_retry_mode.
Proof using Type. solve_decision. Defined.

(** What is read of the signing configuration. *)
Record signing_config := mkSigning {
  has_credentials : bool;
  has_credentials_provider : bool;
  signs_s3express : bool;
}.

(** What is read of [struct aws_s3_client_config].  A pool of the caller is given by what its
    factory returns and how it aligns sizes. *)
Record client_config := mkClientConfig {
  cc_client_bootstrap : bool;
  cc_throughput_target_gbps : float;
  cc_signing_config : option signing_config;
  cc_enable_s3express : bool;
  cc_memory_limit_in_bytes : Z;
  cc_part_size : Z;
  cc_max_part_size : Z;
  cc_multipart_upload_threshold : Z;
  cc_max_active_connections_override : Z;
  cc_fio_opts : option file_io_options;
  cc_buffer_pool_factory : option (buffer_pool_config → option (Z → Z));
  cc_proxy_ev_settings : bool;
  cc_proxy_ev_tls : bool;
  cc_tcp_keep_alive : bool;
  cc_tls_enabled : bool;
  cc_proxy_options : bool;
  cc_num_network_interface_names : Z;
  cc_retry_strategy : bool;
  cc_retry_mode : aws_s3_retry_mode;
  cc_max_retries : Z;
  cc_num_file_io_threads : Z;
  cc_enable_read_backpressure : bool;
  cc_initial_read_window : Z;
  cc_out_of_order_delivery : aws_tribool;
  cc_compute_content_md5 : bool;
}.
#[export] Instance client_config_eta : Eta client_config := λ c,
  mkClientConfig (cc_client_bootstrap c) (cc_throughput_target_gbps c) (cc_signing_config c) (cc_enable_s3express c)
    (cc_memory_limit_in_bytes c) (cc_part_size c) (cc_max_part_size c) (cc_multipart_upload_threshold c)
    (cc_max_active_connections_override c) (cc_fio_opts c) (cc_buffer_pool_factory c) (cc_proxy_ev_settings c)
    (cc_proxy_ev_tls c) (cc_tcp_keep_alive c) (cc_tls_enabled c) (cc_proxy_options c)
    (cc_num_network_interface_names c) (cc_retry_strategy c) (cc_retry_mode c) (cc_max_retries c)
    (cc_num_file_io_threads c) (cc_enable_read_backpressure c) (cc_initial_read_window c) (cc_out_of_order_delivery c)
    (cc_compute_content_md5 c).

(** The calls of other libraries that can fail. *)
Inductive setup_step :=
| STEP_POOL | STEP_MUTEX | STEP_PROXY_TLS | STEP_TLS_CTX | STEP_PROXY | STEP_INTERFACE_NAMES | STEP_RETRY_STRATEGY
| STEP_BODY_STREAMING_ELG.

(** The environment variables, the platform, the event loops, and the outcome of those calls. *)
Record client_env := mkEnv {
  env_memory_limit_mb : option (list byte);
  env_memory_limit_gib : option (list byte);
  env_num_file_io_threads : option (list byte);
  env_ordered_delivery : option (list byte);
  env_force_sequential_requests : option (list byte);
  env_platform_throughput : option float;
  env_on_ec2 : bool;
  env_num_event_loops : Z;
  env_fails : setup_step → option aws_error;
}.

(** The settings of [struct aws_s3_client]. *)
Record s3_client := mkClient {
  cl_throughput_target_gbps : float;
  cl_ideal_connection_count : Z;
  cl_part_size_set : bool;
  cl_part_size : Z;
  cl_max_part_size : Z;
  cl_multipart_upload_threshold : Z;
  cl_optimal_range_size : Z;
  cl_feature_ids : Z;
  cl_max_active_connections_override : Z;
  cl_fio_opts : file_io_options;
  cl_disable_retries : bool;
  cl_max_retries : Z;
  cl_num_streaming_threads : Z;
  cl_num_file_io_threads : Z;
  cl_enable_read_backpressure : bool;
  cl_initial_read_window : Z;
  cl_out_of_order_delivery : aws_tribool;
  cl_out_of_order_delivery_env : aws_tribool;
  cl_force_sequential_requests : bool;
  cl_fio_options_set : bool;
  cl_compute_content_md5 : bool;
}.
#[export] Instance s3_client_eta : Eta s3_client := λ c,
  mkClient (cl_throughput_target_gbps c) (cl_ideal_connection_count c) (cl_part_size_set c) (cl_part_size c)
    (cl_max_part_size c) (cl_multipart_upload_threshold c) (cl_optimal_range_size c) (cl_feature_ids c)
    (cl_max_active_connections_override c) (cl_fio_opts c) (cl_disable_retries c) (cl_max_retries c)
    (cl_num_streaming_threads c) (cl_num_file_io_threads c) (cl_enable_read_backpressure c)
    (cl_initial_read_window c) (cl_out_of_order_delivery c) (cl_out_of_order_delivery_env c)
    (cl_force_sequential_requests c) (cl_fio_options_set c) (cl_compute_content_md5 c).

(** A client whose memory was cleared. *)
Definition client_zero : s3_client :=
  mkClient (double_of_Z 0) 0 false 0 0 0 0 0 0 (mkFio false (double_of_Z 0) false) false 0 0 0 false 0
    AWS_TRIBOOL_UNSET AWS_TRIBOOL_UNSET false false false.

(** The checks of the configuration. *)
Definition client_config_check (c : client_config) : result aws_error unit :=
  if negb (cc_client_bootstrap c) then Failure AWS_ERROR_INVALID_ARGUMENT
  else if double_ltb (cc_throughput_target_gbps c) (double_of_Z 0) then Failure AWS_ERROR_INVALID_ARGUMENT
  else
    match cc_signing_config c with
    | None => Failure AWS_ERROR_INVALID_ARGUMENT
    | Some signing =>
        if negb (has_credentials signing) && negb (has_credentials_provider signing)
        then Failure AWS_ERROR_INVALID_ARGUMENT
        else if negb (cc_enable_s3express c) && signs_s3express signing then Failure AWS_ERROR_INVALID_ARGUMENT
        else Success tt
    end.

(** The memory limit; no limit above [SIZE_MAX] is configured where [size_t] has 64 bits. *)
Definition client_mem_limit (env : client_env) (c : client_config) (mem_limit_configured : Z) : Z :=
  if mem_limit_configured =? 0
  then aws_s3_default_memory_limit_for_throughput (env_platform_throughput env) (cc_throughput_target_gbps c)
  else if SIZE_MAX <? mem_limit_configured then SIZE_MAX else mem_limit_configured.

(** The settings up to the sizes of parts. *)
Definition client_sizes (c : client_config) (mem_limit : Z) (cl : s3_client) : s3_client :=
  let throughput :=
    if double_ltb (double_of_Z 0) (cc_throughput_target_gbps c)
    then cc_throughput_target_gbps c else g_default_throughput_target_gbps in
  let cl := cl <| cl_throughput_target_gbps := throughput |>
               <| cl_ideal_connection_count :=
                    aws_max_u32 g_min_num_connections (s_get_ideal_connection_number_from_throughput throughput) |>
               <| cl_compute_content_md5 := cc_compute_content_md5 c |>
               <| cl_part_size := g_default_part_size_fallback |> in
  let cl :=
    if negb (cc_part_size c =? 0) then
      cl <| cl_part_size := if SIZE_MAX <? cc_part_size c then SIZE_MAX else cc_part_size c |>
         <| cl_part_size_set := true |>
    else cl in
  let cl := cl <| cl_max_part_size := aws_s3_default_max_part_size_for_memory_limit mem_limit |> in
  let cl :=
    if negb (cc_max_part_size c =? 0) then
      cl <| cl_max_part_size := if SIZE_MAX <? cc_max_part_size c then SIZE_MAX else cc_max_part_size c |>
    else cl in
  match cc_fio_opts c with Some fio => cl <| cl_fio_opts := fio |> <| cl_fio_options_set := true |> | None => cl end.

Definition AWS_S3_FEATURE_ID_CUSTOM_PART_SIZE : Z := Z.shiftl 1 0.
Definition AWS_S3_FEATURE_ID_CUSTOM_THROUGHPUT : Z := Z.shiftl 1 1.
Definition AWS_S3_FEATURE_ID_CUSTOM_MEMORY_LIMIT : Z := Z.shiftl 1 2.
Definition AWS_S3_FEATURE_ID_ON_EC2 : Z := Z.shiftl 1 3.
Definition AWS_S3_FEATURE_ID_CUSTOM_MEMORY_POOL : Z := Z.shiftl 1 5.

Definition client_feature_ids (env : client_env) (c : client_config) (mem_limit_configured mem_limit : Z)
    (cl : s3_client) : Z :=
  let flag (b : bool) (id ids : Z) := if b then Z.lor ids id else ids in
  let ids := flag (negb (cc_part_size c =? 0) && negb (cl_part_size cl =? g_default_part_size_fallback))
               AWS_S3_FEATURE_ID_CUSTOM_PART_SIZE 0 in
  let ids := flag (negb (double_eqb (cc_throughput_target_gbps c) (double_of_Z 0))
                   && negb (double_eqb (cl_throughput_target_gbps cl) g_default_throughput_target_gbps))
               AWS_S3_FEATURE_ID_CUSTOM_THROUGHPUT ids in
  let ids :=
    if negb (mem_limit_configured =? 0) then
      let default_mem_limit :=
        aws_s3_default_memory_limit_for_throughput (env_platform_throughput env) (cc_throughput_target_gbps c) in
      flag (negb (mem_limit =? default_mem_limit)) AWS_S3_FEATURE_ID_CUSTOM_MEMORY_LIMIT ids
    else ids in
  let ids := flag (env_on_ec2 env) AWS_S3_FEATURE_ID_ON_EC2 ids in
  flag (bool_decide (is_Some (cc_buffer_pool_factory c))) AWS_S3_FEATURE_ID_CUSTOM_MEMORY_POOL ids.

(** The pool, given by how it aligns sizes. *)
Definition client_buffer_pool (env : client_env) (c : client_config) (mem_limit : Z) (cl : s3_client)
    : result aws_error (Z → Z) :=
  let pool_config := mkPoolConfig (cl_part_size cl) (cl_max_part_size cl) mem_limit in
  match cc_buffer_pool_factory c with
  | Some factory =>
      match factory pool_config with
      | Some align => Success align
      | None => Failure (default AWS_ERROR_UNKNOWN (env_fails env STEP_POOL))
      end
  | None =>
      pool ← aws_s3_default_buffer_pool_new pool_config;
      Success (s_default_pool_derive_aligned_buffer_size pool)
  end.

Definition client_optimal_range_size (mem_limit : Z) (align : Z → Z) (cl : s3_client) : Z :=
  let calculated_optimal_range_size :=
    match aws_s3_calculate_client_optimal_range_size mem_limit (cl_ideal_connection_count cl) with
    | Success size => size
    | Failure _ => g_default_part_size_fallback
    end in
  let calculated_optimal_range_size := align calculated_optimal_range_size in
  if cl_enable_read_backpressure cl && negb (cl_initial_read_window cl =? 0) then
    let initial_read_window_cap := cl_initial_read_window cl / 10 in
    let initial_read_window_cap := aws_max_u64 initial_read_window_cap g_default_part_size_fallback in
    aws_min_u64 calculated_optimal_range_size initial_read_window_cap
  else calculated_optimal_range_size.

(** Whether retries are disabled and the number of retries of the strategy that is made. *)
Definition client_retries (c : client_config) : bool * Z :=
  if cc_retry_strategy c then (false, 0)
  else
    let max_retries := if 0 <? cc_max_retries c then wrap 32 (cc_max_retries c) else s_default_max_retries in
    match cc_retry_mode c with
    | AWS_S3_RETRY_MODE_NONE => (true, 0)
    | _ => (false, max_retries)
    end.

Definition client_streaming_threads (env : client_env) : Z :=
  let num_streaming_threads := wrap 16 (env_num_event_loops env) in
  if num_streaming_threads <? 1 then 1 else num_streaming_threads.

Definition client_file_io_threads (env : client_env) (c : client_config) : Z :=
  let num_event_loops := wrap 16 (env_num_event_loops env) in
  let num_file_io_threads := cc_num_file_io_threads c in
  let num_file_io_threads :=
    if num_file_io_threads =? 0 then
      match env_num_file_io_threads env with
      | Some text =>
          match aws_byte_cursor_utf8_parse_u64 text with
          | Some parsed => if (0 <? parsed) && (parsed <=? U16_MAX) then wrap 16 parsed else num_file_io_threads
          | None => num_file_io_threads
          end
      | None => num_file_io_threads
      end
    else num_file_io_threads in
  if num_file_io_threads =? 0 then
    let num_file_io_threads :=
      if num_event_loops <? s_default_max_num_file_io_threads
      then num_event_loops else s_default_max_num_file_io_threads in
    if num_file_io_threads <? 1 then 1 else num_file_io_threads
  else num_file_io_threads.

(** What a client owns while it is made. *)
Inductive resource :=
| RES_CLIENT | RES_BUFFER_POOL | RES_CLIENT_BOOTSTRAP | RES_EVENT_LOOP_GROUP | RES_REGION | RES_PROXY_EV_SETTINGS
| RES_PROXY_EV_TLS | RES_TCP_KEEP_ALIVE | RES_TLS_OPTIONS | RES_PROXY_CONFIG | RES_INTERFACE_NAMES
| RES_SIGNING_CONFIG | RES_RETRY_STRATEGY.

#[export] Instance resource_eq_dec : EqDecision resource.
Proof using Type. solve_decision. Defined.

Inductive setup_action := Acquire (r : resource) | MayFail (s : setup_step).

(** The order in which they are acquired after the pool, and the calls that may fail. *)
Definition setup_network (c : client_config) : list setup_action :=
  let cond (b : bool) (l : list setup_action) := if b then l else [] in
  [MayFail STEP_MUTEX; Acquire RES_CLIENT_BOOTSTRAP; Acquire RES_EVENT_LOOP_GROUP; Acquire RES_REGION] ++
  cond (cc_proxy_ev_settings c)
    (Acquire RES_PROXY_EV_SETTINGS :: cond (cc_proxy_ev_tls c) [Acquire RES_PROXY_EV_TLS; MayFail STEP_PROXY_TLS]) ++
  cond (cc_tcp_keep_alive c) [Acquire RES_TCP_KEEP_ALIVE] ++
  cond (cc_tls_enabled c) [Acquire RES_TLS_OPTIONS; MayFail STEP_TLS_CTX] ++
  cond (cc_proxy_options c) [MayFail STEP_PROXY; Acquire RES_PROXY_CONFIG] ++
  cond (0 <? cc_num_network_interface_names c) [Acquire RES_INTERFACE_NAMES; MayFail STEP_INTERFACE_NAMES].

Definition setup_retry (c : client_config) : list setup_action :=
  (if cc_retry_strategy c then [Acquire RES_RETRY_STRATEGY]
   else [MayFail STEP_RETRY_STRATEGY; Acquire RES_RETRY_STRATEGY]) ++
  [MayFail STEP_BODY_STREAMING_ELG].

Definition client_setup (c : client_config) : list setup_action :=
  setup_network c ++ Acquire RES_SIGNING_CONFIG :: setup_retry c.

(** The owned resources, or the error and what was owned when it came. *)
Fixpoint run_setup (fails : setup_step → option aws_error) (l : list setup_action) (owned : list resource)
    : result (aws_error * list resource) (list resource) :=
  match l with
  | [] => Success owned
  | Acquire r :: l => run_setup fails l (owned ++ [r])
  | MayFail s :: l => match fails s with Some e => Failure (e, owned) | None => run_setup fails l owned end
  end.

(** What the error path releases. *)
Definition on_error_releases : list resource :=
  [RES_REGION; RES_TLS_OPTIONS; RES_PROXY_CONFIG; RES_PROXY_EV_TLS; RES_PROXY_EV_SETTINGS; RES_TCP_KEEP_ALIVE;
   RES_EVENT_LOOP_GROUP; RES_CLIENT_BOOTSTRAP; RES_INTERFACE_NAMES; RES_BUFFER_POOL; RES_RETRY_STRATEGY; RES_CLIENT].

Definition on_error (owned : list resource) : list resource := filter (.∉ on_error_releases) owned.

(** The client, or the error and what is still owned; and the configuration, in which the
    largest part size may be changed. *)
Definition aws_s3_client_new (env : client_env) (c : client_config)
    : result (aws_error * list resource) s3_client * client_config :=
  match client_config_check c with
  | Failure e => (Failure (e, []), c)
  | Success _ =>
  match aws_s3_resolve_configured_memory_limit (env_memory_limit_mb env) (env_memory_limit_gib env)
          (cc_memory_limit_in_bytes c) with
  | Failure e => (Failure (e, []), c)
  | Success mem_limit_configured =>
      let mem_limit := client_mem_limit env c mem_limit_configured in
      let cl := client_sizes c mem_limit client_zero in
      let cl := cl <| cl_feature_ids := client_feature_ids env c mem_limit_configured mem_limit cl |> in
      match client_buffer_pool env c mem_limit cl with
      | Failure e => (Failure (e, on_error [RES_CLIENT]), c)
      | Success align =>
          let cl := cl <| cl_optimal_range_size := client_optimal_range_size mem_limit align cl |>
                       <| cl_max_active_connections_override := cc_max_active_connections_override c |>
                       <| cl_multipart_upload_threshold :=
                            if negb (cc_multipart_upload_threshold c =? 0) then cc_multipart_upload_threshold c
                            else if g_s3_min_upload_part_size <? cl_part_size cl then cl_part_size cl
                            else g_s3_min_upload_part_size |> in
          let c' := if bool_decide (is_Some (env_fails env STEP_MUTEX)) then c
                    else if cc_max_part_size c <? cc_part_size c then c <| cc_max_part_size := cc_part_size c |>
                    else c in
          (match run_setup (env_fails env) (client_setup c) [RES_CLIENT; RES_BUFFER_POOL] with
           | Failure (e, owned) => Failure (e, on_error owned)
           | Success _ =>
               let '(disable_retries, max_retries) := client_retries c in
               Success
                 (cl <| cl_disable_retries := disable_retries |> <| cl_max_retries := max_retries |>
                     <| cl_num_streaming_threads := client_streaming_threads env |>
                     <| cl_num_file_io_threads := client_file_io_threads env c |>
                     <| cl_enable_read_backpressure := cc_enable_read_backpressure c |>
                     <| cl_initial_read_window := cc_initial_read_window c |>
                     <| cl_out_of_order_delivery := cc_out_of_order_delivery c |>
                     <| cl_out_of_order_delivery_env :=
                          if bool_decide (is_Some (env_ordered_delivery env)) then AWS_TRIBOOL_FALSE else AWS_TRIBOOL_UNSET |>
                     <| cl_force_sequential_requests := bool_decide (is_Some (env_force_sequential_requests env)) |>)
           end, c')
      end
  end
  end.
End config.

(** * Facts about doubles *)

(** Numbers that are not below zero. *)
Definition nonneg (x : float) : Prop :=
  match x with S754_finite false _ _ | S754_zero _ | S754_infinity false => True | _ => False end.

Lemma nonneg_number x : nonneg x → is_number x = true.
Proof. by destruct x as [?|[]| |[]]. Qed.

Lemma shr_1_nonneg r : 0 ≤ shr_m r → 0 ≤ shr_m (shr_1 r).
Proof. destruct r as [m b s]. simpl. by destruct m as [|[]|]. Qed.

Lemma spec_iter_ind {A} (f : A → A) (P : A → Prop) n x : (∀ y, P y → P (f y)) → P x → P (SpecFloat.iter_pos f n x).
Proof. intros Hf. revert x. induction n as [n IH|n IH|]; simpl; auto. Qed.

Lemma shr_fexp_nonneg m e l : 0 ≤ m → 0 ≤ shr_m (shr_fexp 53 1024 m e l).1.
Proof.
  intros Hm. unfold shr_fexp, shr.
  assert (0 ≤ shr_m (shr_record_of_loc m l)) by (by destruct l as [|[]]).
  destruct (fexp _ _ _ - _); simpl; [done| |done]. by apply (spec_iter_ind _ (λ r, 0 ≤ shr_m r)); [apply shr_1_nonneg|].
Qed.

Lemma round_aux_nonneg m e l : 0 ≤ m → nonneg (binary_round_aux 53 1024 false m e l).
Proof.
  intros Hm. unfold binary_round_aux. pose proof (shr_fexp_nonneg m e l Hm) as H1.
  destruct (shr_fexp 53 1024 m e l) as [r1 e1]. simpl in H1.
  set (m2 := SpecFloat.round_nearest_even (shr_m r1) (loc_of_shr_record r1)). assert (0 ≤ m2) as Hm2.
  { unfold m2, SpecFloat.round_nearest_even. destruct (loc_of_shr_record r1) as [|[]]; try destruct (Z.even _); lia. }
  pose proof (shr_fexp_nonneg m2 e1 loc_Exact Hm2) as H2.
  destruct (shr_fexp 53 1024 m2 e1 loc_Exact) as [r2 e2]. simpl in H2 |- *.
  destruct (shr_m r2); [done| |lia]. by destruct (e2 <=? _).
Qed.

Lemma normalize_nonneg n e : 0 ≤ n → nonneg (binary_normalize 53 1024 n e false).
Proof.
  intros Hn. destruct n as [|n|n]; [done| |lia]. unfold binary_normalize, binary_round.
  destruct (shl_align _ _ _) as [m e']. apply round_aux_nonneg. lia.
Qed.

Lemma div_nonneg x m e : nonneg x → nonneg (double_div x (S754_finite false m e)).
Proof.
  destruct x as [s|s| |s mx ex]; [done|by destruct s|done|]. destruct s; [done|intros _].
  unfold double_div, SFdiv. destruct (SFdiv_core_binary 53 1024 _ _ _ _) as [[q e'] l] eqn:Hq. simpl.
  apply round_aux_nonneg. unfold SFdiv_core_binary in Hq.
  set (m' := match _ with Z0 => _ | Zpos _ => _ | Zneg _ => _ end) in Hq.
  assert (0 ≤ m'). { unfold m'. destruct (_ - _ - _); [lia| |lia]. apply Z.shiftl_nonneg. lia. }
  pose proof (Z_div_mod m' (Z.pos m) ltac:(lia)) as Hd. destruct (Z.div_eucl m' (Z.pos m)) as [q' r].
  simplify_eq. nia.
Qed.

Lemma ceil_nonneg x : nonneg x → nonneg (ceil x).
Proof.
  destruct x as [s|s| |s m e]; [done|done|done|]. destruct s; [done|intros _]. simpl.
  destruct (Z.leb_spec 0 e); [done|]. apply normalize_nonneg.
  assert (0 < 2 ^ (- e)) by (apply Z.pow_pos_nonneg; lia).
  assert (Z.neg m / 2 ^ (- e) ≤ 0); [|lia]. apply Z.div_le_upper_bound; lia.
Qed.

(** A number below 10,000 stays below it when it is converted. *)
Lemma to_u32_small x : nonneg x → double_leb (double_of_Z 10000) x = false → 0 ≤ double_to_u32 x ≤ 10000.
Proof.
  intros Hx Hle. change (double_of_Z 10000) with (S754_finite false 5497558138880000 (-39)) in Hle.
  destruct x as [s|s| |s m e]; [split; vm_compute; congruence|by destruct s|done|]. destruct s; [done|].
  cbn [double_leb float_mantissa float_exponent] in Hle. apply Z.leb_gt in Hle. unfold double_to_u32. cbn [float_mantissa float_exponent].
  destruct (Z.leb_spec 0 e) as [He|He].
  - rewrite Z.min_l in Hle by lia. replace (e - -39) with (e + 39) in Hle by lia. rewrite Z.pow_add_r in Hle by lia.
    change (2 ^ (-39 - -39)) with 1 in Hle. change (2 ^ 39) with 549755813888 in Hle.
    assert (0 < 2 ^ e) by (apply Z.pow_pos_nonneg; lia). assert (Z.pos m * 2 ^ e ≤ 10000) by nia.
    rewrite wrap_small; [nia|]. unfold uint. change (2 ^ 32) with 4294967296. nia.
  - assert (0 < 2 ^ (- e)) by (apply Z.pow_pos_nonneg; lia). rewrite Z.quot_div_nonneg by lia.
    assert (Z.pos m / 2 ^ (- e) ≤ 10000).
    { apply Z.lt_succ_r, Z.div_lt_upper_bound; [lia|]. destruct (Z.le_ge_cases e (-39)) as [Hc|Hc].
      - rewrite Z.min_r in Hle by lia. rewrite Z.sub_diag in Hle. change (2 ^ 0) with 1 in Hle.
        replace (-39 - e) with (- e - 39) in Hle by lia. rewrite Z.pow_sub_r in Hle by lia.
        assert (2 ^ (- e) = 2 ^ 39 * (2 ^ (- e) / 2 ^ 39)) as Hd.
        { apply Z.div_exact; [done|]. apply Z.mod_divide; [done|]. exists (2 ^ (- e - 39)).
          rewrite <-Z.pow_add_r by lia. f_equal. lia. }
        change (2 ^ 39) with 549755813888 in *. set (k := 2 ^ (- e) / 549755813888) in *. lia.
      - rewrite Z.min_l in Hle by lia. change (2 ^ (-39 - -39)) with 1 in Hle.
        assert (2 ^ (- e) * 2 ^ (e - -39) = 549755813888).
        { rewrite <-Z.pow_add_r by lia. by replace (- e + (e - -39)) with 39 by lia. }
        assert (0 < 2 ^ (e - -39)) by (apply Z.pow_pos_nonneg; lia). nia. }
    assert (0 ≤ Z.pos m / 2 ^ (- e)) by (apply Z.div_pos; lia).
    rewrite wrap_small; [done|]. unfold uint. change (2 ^ 32) with 4294967296. lia.
Qed.

Section ideal.
Context `{F : !AwsMathDouble} `{!AwsMathDoubleLaws F}.

(** At most 10,000 connections are ideal for a throughput. *)
Lemma ideal_connections_bound x : nonneg x → 0 ≤ s_get_ideal_connection_number_from_throughput x ≤ 10000.
Proof using All.
  intros Hx. unfold s_get_ideal_connection_number_from_throughput.
  pose proof (ceil_nonneg _ (div_nonneg x 7205759403792794 (-54) Hx)) as Hc.
  change s_throughput_per_connection_gbps with (S754_finite false 7205759403792794 (-54)).
  set (q := ceil _) in *. rewrite aws_min_double_spec; [|done|by apply nonneg_number].
  destruct (double_leb (double_of_Z g_max_num_connections) q) eqn:Hq; [by vm_compute|].
  by apply to_u32_small.
Qed.
End ideal.

(** * The settings of a client *)

Section client_new.
Context `{M : !AwsMath} `{ML : !AwsMathLaws M} `{F : !AwsMathDouble} `{FL : !AwsMathDoubleLaws F}.
Context `{B : !AwsByteCursor} `{BL : !AwsByteCursorLaws B}.
Implicit Types (env : client_env) (c : client_config) (cl : s3_client).

Record config_in_range (c : client_config) : Prop := {
  memory_limit_range : uint 64 (cc_memory_limit_in_bytes c);
  part_size_range : uint 64 (cc_part_size c);
  max_part_size_range : uint 64 (cc_max_part_size c);
  file_io_threads_range : uint 16 (cc_num_file_io_threads c);
}.

Lemma scale_uint k n m : scale k n = Some m → uint 64 n → uint 64 m.
Proof using ML.
  revert n. induction k as [|k IH]; simpl; intros n; [by intros [= ->]|]. intros Hm Hn.
  rewrite aws_mul_u64_checked_spec in Hm; [|done|machine].
  case_bool_decide as Hle; simpl in Hm; [|done]. eapply IH; [done|]. unfold uint, U64_MAX in *. lia.
Qed.

Lemma resolved_uint mb gib n m :
  aws_s3_resolve_configured_memory_limit mb gib n = Success m → uint 64 n → uint 64 m.
Proof using ML BL.
  unfold aws_s3_resolve_configured_memory_limit. intros Hm Hn.
  assert (∀ k text x y, aws_byte_cursor_utf8_parse_u64 text = Some x → scale k x = Some y → uint 64 y) as Hs.
  { intros k text x y Hx Hy. eapply scale_uint; [done|]. by eapply parse_bound. }
  repeat (case_match || simplify_eq/= || done); solve [machine|eapply (Hs 2%nat); [|eassumption]; eassumption|eapply (Hs 3%nat); [|eassumption]; eassumption].
Qed.

Lemma default_limit_uint detected x : uint 64 (aws_s3_default_memory_limit_for_throughput detected x).
Proof using Type.
  unfold aws_s3_default_memory_limit_for_throughput, s_get_default_mem_limit_from_throughput.
  repeat case_match; vm_compute; split; congruence.
Qed.

Lemma mem_limit_uint env c n : uint 64 n → uint 64 (client_mem_limit env c n).
Proof using Type.
  intros Hn. unfold client_mem_limit. case_match; [apply default_limit_uint|]. case_match; [|done].
  vm_compute; split; congruence.
Qed.

Lemma positive_nonneg x : double_ltb (double_of_Z 0) x = true → nonneg x.
Proof using Type.
  unfold double_ltb. destruct x as [s|s| |s m e]; [done| |done|].
  - by destruct s.
  - destruct s; [|done]. cbn [is_number andb double_leb double_of_Z binary_normalize float_mantissa float_exponent].
    intros Hx%negb_true_iff%Z.leb_gt. exfalso.
    assert (0 < 2 ^ (e - Z.min e 0)) by (apply Z.pow_pos_nonneg; lia). nia.
Qed.

Lemma client_ideal c n : 10 ≤ cl_ideal_connection_count (client_sizes c n client_zero) ≤ 10000.
Proof using ML FL.
  unfold client_sizes. set (x := if double_ltb _ _ then _ else _).
  assert (0 ≤ s_get_ideal_connection_number_from_throughput x ≤ 10000) as Hx.
  { apply ideal_connections_bound. unfold x. destruct (double_ltb _ _) eqn:Hl; [by apply positive_nonneg|done]. }
  assert (aws_max_u32 g_min_num_connections (s_get_ideal_connection_number_from_throughput x) =
    Z.max 10 (s_get_ideal_connection_number_from_throughput x)) as Hm.
  { apply aws_max_u32_spec; [machine|]. unfold uint. change (2 ^ 32) with 4294967296. lia. }
  repeat case_match; simpl; rewrite Hm; lia.
Qed.

Lemma client_part_size c n : cl_part_size (client_sizes c n client_zero) =
  if cc_part_size c =? 0 then MB_TO_BYTES 8 else if SIZE_MAX <? cc_part_size c then SIZE_MAX else cc_part_size c.
Proof using Type. unfold client_sizes. by repeat (case_match; simpl in *). Qed.

Lemma client_max_part_size c n : uint 64 n → cl_max_part_size (client_sizes c n client_zero) =
  if cc_max_part_size c =? 0 then Z.min (n / 2) g_default_max_part_size
  else if SIZE_MAX <? cc_max_part_size c then SIZE_MAX else cc_max_part_size c.
Proof using ML.
  intros Hn. assert (aws_s3_default_max_part_size_for_memory_limit n = Z.min (n / 2) g_default_max_part_size) as Hd.
  { apply aws_min_u64_spec; [|by vm_compute]. unfold uint in *. split; [apply Z.div_pos; lia|].
    apply Z.div_lt_upper_bound; lia. }
  unfold client_sizes. by repeat (case_match; simpl in *).
Qed.

Lemma optimal_range_bounds n conns : MB_TO_BYTES 256 ≤ n → 10 ≤ conns →
  ∃ size, aws_s3_calculate_client_optimal_range_size n conns = Success size ∧
    MB_TO_BYTES 8 ≤ size ≤ Z.min g_default_max_part_size (Z.max (MB_TO_BYTES 8) (n / 30)).
Proof using Type.
  intros Hn Hc. unfold aws_s3_calculate_client_optimal_range_size.
  rewrite (proj2 (Z.eqb_neq n 0)), (proj2 (Z.eqb_neq conns 0)) by (unfold MB_TO_BYTES in Hn; lia). simpl.
  assert (n / conns / s_optimal_range_size_memory_divisor ≤ n / 30) as Hd.
  { unfold s_optimal_range_size_memory_divisor, MB_TO_BYTES in *. rewrite Z.div_div by lia. apply Z.div_le_compat_l; lia. }
  eexists; split; [done|]. revert Hd. unfold g_default_part_size_fallback, g_default_max_part_size, MB_TO_BYTES.
  set (k := n / conns / _). generalize (n / 30). intros m Hm.
  destruct (Z.ltb_spec k (8 * 1024 * 1024)); case_match; lia.
Qed.

(** The optimal range size of a client with the default pool fits in the pool. *)
Lemma aligned_range_fits (pc : buffer_pool_config) n pool size : uint 64 n →
  uint 64 (part_size pc) → uint 64 (max_part_size pc) → memory_limit pc = n → 0 < part_size pc →
  aws_s3_default_buffer_pool_new pc = Success pool →
  MB_TO_BYTES 8 ≤ size ≤ Z.min g_default_max_part_size (Z.max (MB_TO_BYTES 8) (n / 30)) →
  MB_TO_BYTES 8 ≤ s_default_pool_derive_aligned_buffer_size pool size ≤ mem_limit (config pool).
Proof using Type.
  intros Hn Hp Hm <- Hpos Hnew Hs. pose proof (new_pool_decision pc Hp Hm Hn) as Hd. cbv zeta in Hd. rewrite Hnew in Hd.
  destruct Hd as (H256 & _ & _ & Hlimit & Hchunk & _). rewrite Hlimit.
  assert (memory_limit pc / 30 * 30 ≤ memory_limit pc) by (pose proof (Z.mul_div_le (memory_limit pc) 30); lia).
  unfold g_default_max_part_size in Hs. case_bool_decide as Hb.
  - destruct (derive_aligned_least pool size) as (_ & Hge & Hleast); [rewrite ?Hchunk; machine..|].
    specialize (Hleast (size / part_size pc + 1)). rewrite Hchunk in Hleast.
    pose proof (Z.mul_succ_div_gt size (part_size pc) Hpos).
    pose proof (Z.mul_div_le size (part_size pc) Hpos).
    assert (s_default_pool_derive_aligned_buffer_size pool size ≤ (size / part_size pc + 1) * part_size pc)
      by (apply Hleast; lia).
    machine.
  - unfold s_default_pool_derive_aligned_buffer_size. rewrite Hchunk. simpl. machine.
Qed.

Lemma client_threads env c : uint 16 (cc_num_file_io_threads c) →
  1 ≤ client_file_io_threads env c ≤ U16_MAX ∧ 1 ≤ client_streaming_threads env ≤ U16_MAX.
Proof using Type.
  intros Hc. unfold client_file_io_threads, client_streaming_threads, s_default_max_num_file_io_threads.
  pose proof (wrap_uint 16 (env_num_event_loops env) ltac:(lia)) as Hw.
  set (n := match env_num_file_io_threads env with Some _ => _ | None => _ end).
  assert (cc_num_file_io_threads c = 0 → 0 ≤ n ≤ U16_MAX) as Hn.
  { intros H0. unfold n. rewrite ?H0. destruct (env_num_file_io_threads env) as [text|]; [|machine].
    destruct (aws_byte_cursor_utf8_parse_u64 text) as [k|]; [|machine].
    destruct (Z.ltb_spec 0 k), (Z.leb_spec k U16_MAX); simpl; [rewrite wrap_small|..]; machine. }
  split.
  - set (k := if cc_num_file_io_threads c =? 0 then n else cc_num_file_io_threads c).
    assert (0 ≤ k ≤ U16_MAX).
    { unfold k. destruct (Z.eqb_spec (cc_num_file_io_threads c) 0) as [H0|]; [by apply Hn|machine]. }
    destruct (Z.eqb_spec k 0); [|machine].
    destruct (Z.ltb_spec (wrap 16 (env_num_event_loops env)) 8); [|by vm_compute].
    destruct (Z.ltb_spec (wrap 16 (env_num_event_loops env)) 1); machine.
  - destruct (Z.ltb_spec (wrap 16 (env_num_event_loops env)) 1); machine.
Qed.

Lemma client_pool_sizes c limit pool : uint 64 limit → config_in_range c →
  let cl := client_sizes c limit client_zero in
  aws_s3_default_buffer_pool_new (mkPoolConfig (cl_part_size cl) (cl_max_part_size cl) limit) = Success pool →
  0 < cl_part_size cl ≤ cl_max_part_size cl ∧ cl_max_part_size cl ≤ mem_limit (config pool) ∧
  cl_max_part_size cl < 2 ^ 64 ∧ MB_TO_BYTES 256 ≤ limit.
Proof using ML.
  intros Hlimit [Hml Hps Hmps Hft] cl Hpn.
  pose proof (client_part_size c limit) as Hcp. pose proof (client_max_part_size c limit Hlimit) as Hcm. fold cl in Hcp, Hcm.
  assert (0 < cl_part_size cl < 2 ^ 64) as Hp0.
  { rewrite Hcp. destruct (Z.eqb_spec (cc_part_size c) 0); [by vm_compute|]. rewrite (proj2 (Z.ltb_ge _ _)); machine. }
  assert (0 ≤ limit / 2 ≤ limit) as Hhalf.
  { split; [apply Z.div_pos; machine|apply Z.div_le_upper_bound; machine]. }
  assert (0 ≤ cl_max_part_size cl < 2 ^ 64) as Hm0.
  { rewrite Hcm. unfold g_default_max_part_size. destruct (Z.eqb_spec (cc_max_part_size c) 0); [machine|].
    rewrite (proj2 (Z.ltb_ge _ _)); machine. }
  pose proof (new_pool_decision (mkPoolConfig (cl_part_size cl) (cl_max_part_size cl) limit)) as Hd.
  cbv zeta in Hd. rewrite Hpn in Hd. cbn [part_size max_part_size memory_limit] in Hd.
  destruct Hd as (H256 & Hmax & Hpm & Hmem & _); [unfold uint; lia..|done|].
  assert (cl_max_part_size cl ≠ 0) as Hm1.
  { rewrite Hcm. destruct (Z.eqb_spec (cc_max_part_size c) 0); [|rewrite (proj2 (Z.ltb_ge _ _)); machine].
    assert (MB_TO_BYTES 128 ≤ limit / 2); [|unfold g_default_max_part_size; machine].
    apply Z.div_le_lower_bound; [lia|]. revert H256. machine. }
  rewrite Hmem. lia.
Qed.

(** C37: the settings of a new client with the default pool (one without a factory of the caller
    for pools), made from options that fit their types, fit each other: between 10 and 10,000
    connections, a part of the client's size and of the largest size, and a part of the optimal
    range size, each fit in the memory of the pool, and there is a thread to stream bodies and
    one for files. *)
Theorem client_new_settings env c cl c' : config_in_range c → cc_buffer_pool_factory c = None →
  aws_s3_client_new env c = (Success cl, c') →
  ∃ limit pool,
    aws_s3_default_buffer_pool_new (mkPoolConfig (cl_part_size cl) (cl_max_part_size cl) limit) = Success pool ∧
    10 ≤ cl_ideal_connection_count cl ≤ 10000 ∧
    0 < cl_part_size cl ≤ cl_max_part_size cl ∧ cl_max_part_size cl ≤ mem_limit (config pool) ∧
    MB_TO_BYTES 8 ≤ cl_optimal_range_size cl ≤ mem_limit (config pool) ∧
    1 ≤ cl_num_file_io_threads cl ≤ U16_MAX ∧ 1 ≤ cl_num_streaming_threads cl ≤ U16_MAX.
Proof using ML FL BL.
  intros Hc Hpool Hnew. unfold aws_s3_client_new in Hnew.
  destruct (client_config_check c); [|done]. cbv beta iota zeta in Hnew.
  destruct (aws_s3_resolve_configured_memory_limit _ _ _) as [configured|] eqn:Hr; [|done].
  set (limit := client_mem_limit env c configured) in *.
  assert (uint 64 limit) as Hlimit by (apply mem_limit_uint; eapply resolved_uint; [done|apply Hc]).
  set (cl0 := client_sizes c limit client_zero) in *.
  destruct (client_buffer_pool env c limit _) as [align|] eqn:Hp; [|done].
  destruct (run_setup _ _ _) as [|[]]; [|done]. destruct (client_retries c) as [dr mr]. injection Hnew as <- _. simpl.
  unfold client_buffer_pool in Hp. rewrite Hpool in Hp. simpl in Hp.
  destruct (aws_s3_default_buffer_pool_new _) as [pool|] eqn:Hpn in Hp; [|done]. injection Hp as <-.
  pose proof (client_ideal c limit) as Hi. fold cl0 in Hi.
  destruct (client_pool_sizes c limit pool Hlimit Hc Hpn) as (Hsizes & Hmax & Hm64 & H256). fold cl0 in Hsizes, Hmax, Hm64.
  exists limit, pool. split; [done|]. split; [lia|]. split; [lia|]. split; [lia|].
  split; [|by apply client_threads, Hc]. unfold client_optimal_range_size. simpl.
  destruct (optimal_range_bounds limit (cl_ideal_connection_count cl0)) as (size & Hsize & Hbound); [done|lia|].
  replace (cl_enable_read_backpressure cl0) with false by (unfold cl0, client_sizes; by repeat case_match).
  rewrite Hsize. eapply (aligned_range_fits _ limit); [done| | | | |exact Hpn|exact Hbound]; try done; unfold uint; simpl; lia.
Qed.

(** * Construction that fails *)

Definition released_on_error (a : setup_action) : Prop :=
  match a with Acquire r => r ∈ on_error_releases | MayFail _ => True end.

Lemma run_setup_app fails l k owned :
  run_setup fails (l ++ k) owned =
  match run_setup fails l owned with Success owned => run_setup fails k owned | Failure e => Failure e end.
Proof using Type.
  revert owned. induction l as [|a l IH]; intros owned; simpl; [done|].
  destruct a as [r|step]; [apply IH|]. by destruct (fails step).
Qed.

Lemma run_setup_clean fails l owned : Forall released_on_error l →
  match run_setup fails l owned with
  | Success owned' => on_error owned' = on_error owned
  | Failure (e, owned') => on_error owned' = on_error owned ∧ ∃ step, MayFail step ∈ l ∧ fails step = Some e
  end.
Proof using Type.
  intros Hl. revert owned. induction Hl as [|a l Ha Hl IH]; intros owned; simpl; [done|].
  destruct a as [r|step].
  - specialize (IH (owned ++ [r])).
    assert (on_error (owned ++ [r]) = on_error owned) as Ho.
    { unfold on_error. rewrite list.filter_app. rewrite (list.filter_cons_False _ r []); [by rewrite app_nil_r|]. simpl. tauto. }
    destruct (run_setup fails l (owned ++ [r])) as [o|[e o]]; rewrite Ho in IH; [done|].
    destruct IH as (He & step & Hin & Hstep). split; [done|]. exists step. by split; [right|].
  - destruct (fails step) as [e|] eqn:He; [by split; [|exists step; split; [left|]]|].
    specialize (IH owned). destruct (run_setup fails l owned) as [o|[e o]]; [done|].
    destruct IH as (Ho & step' & Hin & Hstep). split; [done|]. exists step'. by split; [right|].
Qed.

Lemma setup_network_released c : Forall released_on_error (setup_network c).
Proof using Type.
  unfold setup_network, on_error_releases. repeat case_match; repeat constructor; unfold released_on_error; set_solver.
Qed.

Lemma setup_retry_released c : Forall released_on_error (setup_retry c).
Proof using Type.
  unfold setup_retry, on_error_releases. repeat case_match; repeat constructor; unfold released_on_error; set_solver.
Qed.

(** a client that cannot be made leaves nothing behind, except when the retry strategy or the
    event loops for streaming bodies cannot be made: then the copy of the signing configuration
    is not released. *)
Theorem client_new_releases env c e owned c' : aws_s3_client_new env c = (Failure (e, owned), c') →
  owned = [] ∨ owned = [RES_SIGNING_CONFIG] ∧
    (env_fails env STEP_RETRY_STRATEGY = Some e ∨ env_fails env STEP_BODY_STREAMING_ELG = Some e).
Proof using Type.
  unfold aws_s3_client_new. destruct (client_config_check c); [|intros [= <- <- _]; by left].
  destruct (aws_s3_resolve_configured_memory_limit _ _ _); [|intros [= <- <- _]; by left].
  destruct (client_buffer_pool _ _ _ _); [|intros [= <- <- _]; by left]. cbv zeta. unfold client_setup.
  rewrite run_setup_app. cbn [run_setup].
  pose proof (run_setup_clean (env_fails env) (setup_network c) [RES_CLIENT; RES_BUFFER_POOL] (setup_network_released c)) as H1.
  destruct (run_setup (env_fails env) (setup_network c) _) as [o|[e' o]].
  2: { destruct H1 as [Ho _]. intros [= <- <- _]. left. by rewrite Ho. }
  pose proof (run_setup_clean (env_fails env) (setup_retry c) (o ++ [RES_SIGNING_CONFIG]) (setup_retry_released c)) as H2.
  destruct (run_setup (env_fails env) (setup_retry c) _) as [o'|[e' o']]; [by destruct (client_retries c)|].
  destruct H2 as (Ho & step & Hin & Hstep). intros [= <- <- _]. right. split.
  - rewrite Ho. unfold on_error in *. by rewrite list.filter_app, H1.
  - revert Hin. clear -Hstep. unfold setup_retry. destruct (cc_retry_strategy c); simpl; intros Hin; set_solver.
Qed.

(** * Two settings that go wrong *)

(** the optimal range size does not depend on the read window, although a cap for it is
    computed: the window is only stored in the client after the cap was taken from it. *)
Theorem client_window_ignored env c backpressure window cl cl' c1 c2 :
  aws_s3_client_new env c = (Success cl, c1) →
  aws_s3_client_new env (c <| cc_enable_read_backpressure := backpressure |> <| cc_initial_read_window := window |>) =
    (Success cl', c2) →
  cl_optimal_range_size cl' = cl_optimal_range_size cl.
Proof using Type.
  set (c' := c <| cc_enable_read_backpressure := _ |> <| cc_initial_read_window := _ |>). unfold aws_s3_client_new.
  change (client_config_check c') with (client_config_check c).
  destruct (client_config_check c); [|done]. change (cc_memory_limit_in_bytes c') with (cc_memory_limit_in_bytes c).
  destruct (aws_s3_resolve_configured_memory_limit _ _ _) as [n|]; [|done]. cbv zeta.
  change (client_mem_limit env c' n) with (client_mem_limit env c n).
  change (client_sizes c' ?n client_zero) with (client_sizes c n client_zero).
  change (client_feature_ids env c') with (client_feature_ids env c).
  change (client_buffer_pool env c') with (client_buffer_pool env c).
  destruct (client_buffer_pool _ _ _ _) as [align|]; [|done].
  change (client_setup c') with (client_setup c). destruct (run_setup _ _ _) as [|[]]; [|done].
  change (client_retries c') with (client_retries c). destruct (client_retries c) as [dr mr].
  by intros [= <- _] [= <- _].
Qed.

(** making a client changes the configuration of the caller: where no largest part size was
    set and a part size was, a second client that is made from the same configuration has its
    largest part size limited to the part size, and the first has not. *)
Theorem client_config_reused env c cl c' cl' c'' : config_in_range c →
  aws_s3_client_new env c = (Success cl, c') → cc_max_part_size c = 0 → 0 < cc_part_size c →
  aws_s3_client_new env c' = (Success cl', c'') →
  cl_max_part_size cl' = cl_part_size cl.
Proof using ML BL.
  intros Hc Hnew Hmax Hpart.
  assert (c' = c <| cc_max_part_size := cc_part_size c |>) as ->.
  { revert Hnew. unfold aws_s3_client_new. destruct (client_config_check c); [|done].
    destruct (aws_s3_resolve_configured_memory_limit _ _ _); [|done].
    destruct (client_buffer_pool _ _ _ _); [|done]. cbv zeta.
    unfold client_setup, setup_network. cbn [app run_setup].
    destruct (env_fails env STEP_MUTEX); [done|]. rewrite (bool_decide_false (is_Some (@None aws_error))) by (by intros [? ?]).
    rewrite Hmax, (proj2 (Z.ltb_lt 0 (cc_part_size c)) Hpart).
    destruct (run_setup _ _ _) as [|[]]; [|done]. destruct (client_retries c). by intros [= _ <-]. }
  set (c' := c <| cc_max_part_size := _ |>). destruct Hc as [Hml Hps _ _].
  revert Hnew. unfold aws_s3_client_new. change (client_config_check c') with (client_config_check c).
  destruct (client_config_check c); [|done]. change (cc_memory_limit_in_bytes c') with (cc_memory_limit_in_bytes c).
  destruct (aws_s3_resolve_configured_memory_limit _ _ _) as [n|] eqn:Hn; [|done]. cbv zeta.
  change (client_mem_limit env c' n) with (client_mem_limit env c n).
  assert (uint 64 (client_mem_limit env c n)) as Hlimit by (apply mem_limit_uint; by eapply resolved_uint).
  set (limit := client_mem_limit env c n) in *. destruct (client_buffer_pool env c limit _); [|done].
  destruct (run_setup _ _ _) as [|[]]; [|done]. destruct (client_retries c). intros [= <- _].
  destruct (client_buffer_pool env c' limit _); [|done].
  destruct (client_retries c'). intros [= <- _]. simpl.
  rewrite client_part_size, client_max_part_size by done. change (cc_max_part_size c') with (cc_part_size c).
  by rewrite (proj2 (Z.eqb_neq (cc_part_size c) 0)) by lia.
Qed.
End client_new.

(** * Instances *)

#[local] Instance math_double_ref : AwsMathDouble := {| aws_min_double x y := if double_leb x y then x else y |}.

#[local] Instance math_double_ref_laws : AwsMathDoubleLaws math_double_ref.
Proof. by split. Qed.

Module ConfigDemo.
#[local] Existing Instances aws_math_ref byte_cursor_ref aws_math_ref_laws byte_cursor_ref_laws.

(** A client with default settings but for its part size and throughput. *)
Definition conf : client_config :=
  mkClientConfig true (double_of_Z 100) (Some (mkSigning true false false)) false 0 (MB_TO_BYTES 16) 0 0 0 None None
    false false false true false 0 false AWS_S3_RETRY_MODE_STANDARD 0 0 false 0 AWS_TRIBOOL_UNSET false.

Definition env (fails : setup_step → option aws_error) : client_env :=
  mkEnv None None None None None None false 12 fails.

Definition made : result (aws_error * list resource) s3_client * client_config :=
  aws_s3_client_new (env (λ _, None)) conf.

Definition the_client : s3_client := match made.1 with Success cl => cl | Failure _ => client_zero end.

Lemma conf_in_range : config_in_range conf.
Proof. split; vm_compute; split; congruence. Qed.

Lemma client_new_settings_witness :
  made.1 = Success the_client ∧ cl_ideal_connection_count the_client = 250 ∧
  0 < cl_part_size the_client ≤ cl_max_part_size the_client.
Proof.
  assert (made = (Success the_client, conf <| cc_max_part_size := MB_TO_BYTES 16 |>)) as Hm by (vm_compute; reflexivity).
  split; [vm_compute; reflexivity|]. split; [vm_compute; reflexivity|].
  destruct (client_new_settings (env (λ _, None)) conf the_client _ conf_in_range eq_refl Hm) as (limit & pool & H).
  apply H.
Defined.

Definition no_streaming (s : setup_step) : option aws_error :=
  match s with STEP_BODY_STREAMING_ELG => Some AWS_ERROR_OOM | _ => None end.

Lemma client_new_releases_witness :
  (aws_s3_client_new (env no_streaming) conf).1 = Failure (AWS_ERROR_OOM, [RES_SIGNING_CONFIG]) ∧
  (env_fails (env no_streaming) STEP_RETRY_STRATEGY = Some AWS_ERROR_OOM ∨
   env_fails (env no_streaming) STEP_BODY_STREAMING_ELG = Some AWS_ERROR_OOM).
Proof.
  assert (aws_s3_client_new (env no_streaming) conf =
    (Failure (AWS_ERROR_OOM, [RES_SIGNING_CONFIG]), conf <| cc_max_part_size := MB_TO_BYTES 16 |>)) as Hm
    by (vm_compute; reflexivity).
  split; [by rewrite Hm|]. by destruct (client_new_releases _ _ _ _ _ Hm) as [|[_ H]].
Defined.

Lemma client_window_ignored_witness :
  ∃ cl, (aws_s3_client_new (env (λ _, None)) (conf <| cc_enable_read_backpressure := true |>
           <| cc_initial_read_window := MB_TO_BYTES 100 |>)).1 = Success cl ∧
    cl_optimal_range_size cl = cl_optimal_range_size the_client.
Proof.
  eexists. split; [vm_compute; reflexivity|].
  eapply (client_window_ignored (env (λ _, None)) conf true (MB_TO_BYTES 100)); vm_compute; reflexivity.
Defined.

Lemma client_config_reused_witness :
  ∃ cl', (aws_s3_client_new (env (λ _, None)) made.2).1 = Success cl' ∧
    cl_max_part_size cl' = cl_part_size the_client ∧ cl_max_part_size the_client = GB_TO_BYTES 5.
Proof.
  eexists. split; [vm_compute; reflexivity|]. split; [|vm_compute; reflexivity].
  eapply (client_config_reused (env (λ _, None)) conf _ made.2); [exact conf_in_range|vm_compute; reflexivity..].
Defined.
End ConfigDemo.
