(* ===== verification/Client.v ===== *)
(** The work of a client (source/s3_client.c): how the worker task asks meta requests for their
    next requests, has them prepared, queues them, gives them connections and retries them,
    while requests are prepared, sent and finished on other threads. *)

From stdpp Require Import functions.
From S2P Require Import Prelude AwsCommon AutoRangedPut ClientConfig.

(** * Data *)

(** A meta request is known by a number.  What of it does not change: *)
Record meta_settings := mkMeta {
  mr_type : meta_request_type;
  mr_create_session : bool;   (** a default meta request of the request type CreateSession *)
  mr_fio_opts : file_io_options;
}.

(** What the client keeps in it.  [mr_refs] counts the references that the client holds. *)
Record meta_data := mkMetaData {
  mr_scheduled : bool;
  mr_num_being_prepared : Z;
  mr_num_requests_network : Z;
  mr_max_active_connections_override : Z;
  mr_refs : Z;
}.
#[export] Instance meta_data_eta : Eta meta_data := λ m,
  mkMetaData (mr_scheduled m) (mr_num_being_prepared m) (mr_num_requests_network m)
    (mr_max_active_connections_override m) (mr_refs m).

Record request := mkRequest {
  rq_id : nat;
  rq_meta : nat;
  rq_is_noop : bool;
  rq_always_send : bool;
  rq_tracked_by_client : bool;
}.
#[export] Instance request_eta : Eta request := λ r,
  mkRequest (rq_id r) (rq_meta r) (rq_is_noop r) (rq_always_send r) (rq_tracked_by_client r).

#[export] Instance request_eq_dec : EqDecision request.
Proof. solve_decision. Defined.

(** What a connection waits for. *)
Inductive stage := AcquiringToken | AcquiringConnection | Sending | WaitingForRetry | Repreparing.

#[export] Instance stage_eq_dec : EqDecision stage.
Proof. solve_decision. Defined.

(** [struct aws_s3_connection]; tokens and HTTP connections are there or not. *)
Record connection := mkConn {
  cn_request : request;
  cn_retry_token : bool;
  cn_http_connection : bool;
  cn_stage : stage;
}.
#[export] Instance connection_eta : Eta connection := λ c,
  mkConn (cn_request c) (cn_retry_token c) (cn_http_connection c) (cn_stage c).

Inductive finish_code := FINISH_SUCCESS | FINISH_FAILED | FINISH_RETRY.

(** Where the worker task is.  The snapshots of the counters of requests in flight and of
    streaming requests are local variables of the update of meta requests, as are the list of
    meta requests put aside and the list of requests that found no connection. *)
Inductive phase :=
| Idle
| Begun
| Updating (conservative : bool) (in_flight streaming : Z) (remaining : list nat)
| Connecting (left_over : list request)
| Finishing.

(** [struct aws_s3_client] and the requests that others work on: the requests that are
    prepared, those whose preparation failed and whose callback has not counted them yet, and
    the connections: those in use, those that are given up and whose request is still to be
    finished (with its error), and those that are yet to be released.  The counts of tokens, HTTP connections and references that are held, the
    requests made and finished, and whether the limits held back a meta request since the worker
    began, are for the statements. *)
Record client := mkClientState {
  c_metas : nat → meta_data;
  c_phase : phase;
  (* threaded data *)
  c_meta_requests : list nat;
  c_request_queue : list request;
  c_request_queue_size : Z;
  c_num_requests_being_prepared : Z;
  (* synced data *)
  c_pending_meta_request_work : list nat;
  c_prepared_requests : list request;
  c_num_failed_prepare_requests : Z;
  c_process_work_task_scheduled : bool;
  c_process_work_task_in_progress : bool;
  (* statistics *)
  c_num_requests_in_flight : Z;
  c_num_requests_streaming_request_body : Z;
  c_num_requests_network_io : meta_request_type → Z;
  (* outside of the client *)
  c_preparing : list request;
  c_failing : list request;
  c_connections : list connection;
  c_resetting : list (connection * option aws_error);
  c_releasing : list connection;
  c_retry_tokens : Z;
  c_http_connections : Z;
  c_endpoint_refs : Z;
  c_client_refs : Z;
  c_made : list request;
  c_finished : list (request * option aws_error);
  c_held_back : bool;
}.
#[export] Instance client_eta : Eta client := λ c,
  mkClientState (c_metas c) (c_phase c) (c_meta_requests c) (c_request_queue c) (c_request_queue_size c)
    (c_num_requests_being_prepared c) (c_pending_meta_request_work c) (c_prepared_requests c)
    (c_num_failed_prepare_requests c) (c_process_work_task_scheduled c) (c_process_work_task_in_progress c)
    (c_num_requests_in_flight c) (c_num_requests_streaming_request_body c) (c_num_requests_network_io c)
    (c_preparing c) (c_failing c) (c_connections c) (c_resetting c) (c_releasing c) (c_retry_tokens c)
    (c_http_connections c) (c_endpoint_refs c) (c_client_refs c) (c_made c) (c_finished c) (c_held_back c).

Definition client_new (overrides : nat → Z) : client :=
  mkClientState (λ m, mkMetaData false 0 0 (overrides m) 0) Idle [] [] 0 0 [] [] 0 false false 0 0 (λ _, 0)
    [] [] [] [] [] 0 0 0 0 [] [] false.

(** * Limits *)

Definition s_max_requests_multiplier : Z := 4.

Section client.
Context `{M : !AwsMath} `{F : !AwsMathDouble}.
Context (cfg : s3_client) (mr : nat → meta_settings).
Implicit Types (c : client) (r : request) (cn : connection) (m : nat).

Definition disk_limited (fio : file_io_options) : bool :=
  should_stream fio && double_ltb (double_of_Z 0) (disk_throughput_gbps fio).

(** [meta] is the meta request and its own limit, if one is asked about. *)
Definition aws_s3_client_get_max_active_connections (meta : option (meta_settings * Z)) : Z :=
  let max_active_connections := cl_ideal_connection_count cfg in
  let max_active_connections :=
    if (0 <? cl_max_active_connections_override cfg) && (cl_max_active_connections_override cfg <? max_active_connections)
    then cl_max_active_connections_override cfg else max_active_connections in
  let client_limit max_active_connections :=
    if disk_limited (cl_fio_opts cfg) then
      aws_min_u32 (s_get_ideal_connection_number_from_throughput (disk_throughput_gbps (cl_fio_opts cfg))) max_active_connections
    else max_active_connections in
  match meta with
  | None => client_limit max_active_connections
  | Some (meta_request, override) =>
      let max_active_connections :=
        if negb (override =? 0) then aws_min_u32 override max_active_connections else max_active_connections in
      if disk_limited (mr_fio_opts meta_request) then
        aws_min_u32 (s_get_ideal_connection_number_from_throughput (disk_throughput_gbps (mr_fio_opts meta_request)))
          max_active_connections
      else client_limit max_active_connections
  end.

Definition aws_s3_client_get_max_requests_in_flight : Z :=
  aws_s3_client_get_max_active_connections None *[32] s_max_requests_multiplier.

Definition aws_s3_client_get_max_requests_prepare : Z := aws_s3_client_get_max_active_connections None.

(** The limit of a meta request. *)
Definition meta_max c m : Z :=
  aws_s3_client_get_max_active_connections (Some (mr m, mr_max_active_connections_override (c_metas c m))).

(** The enumeration of types, as far as [AWS_S3_META_REQUEST_TYPE_MAX]. *)
Definition meta_request_types : list meta_request_type :=
  [TYPE_DEFAULT; TYPE_GET_OBJECT; TYPE_PUT_OBJECT; TYPE_COPY_OBJECT].

(** [None] stands for [AWS_S3_META_REQUEST_TYPE_MAX]. *)
Definition s_s3_client_get_num_requests_network_io c (type : option meta_request_type) : Z :=
  match type with
  | None => foldl (λ n t, n +[32] wrap 32 (c_num_requests_network_io c t)) 0 meta_request_types
  | Some t => wrap 32 (c_num_requests_network_io c t)
  end.

(** * Small operations *)

Definition on_meta (m : nat) (f : meta_data → meta_data) c : client :=
  c <| c_metas ::= λ metas, <[m := f (metas m)]> metas |>.

Definition count_network_io (t : meta_request_type) (n : Z) c : client :=
  c <| c_num_requests_network_io ::= λ ns, <[t := wrap 64 (ns t + n)]> ns |>.

Definition s_s3_client_schedule_process_work_synced_default c : client :=
  if c_process_work_task_scheduled c then c else c <| c_process_work_task_scheduled := true |>.

Definition aws_s3_client_schedule_process_work : client → client := s_s3_client_schedule_process_work_synced_default.

Definition s_s3_client_push_meta_request_synced c m : client :=
  on_meta m (λ d, d <| mr_refs ::= Z.add 1 |>) c <| c_pending_meta_request_work ::= λ l, l ++ [m] |>.

Definition s_s3_client_remove_meta_request_threaded c m : client :=
  on_meta m (λ d, d <| mr_scheduled := false |> <| mr_refs ::= Z.pred |>) c
    <| c_meta_requests ::= filter (.≠ m) |>.

Definition aws_s3_client_queue_requests_threaded c (request_list : list request) (queue_front : bool) : client * Z :=
  match request_list with
  | [] => (c, 0)
  | _ =>
      let request_list_size := foldl (λ n _, n +[32] 1) 0 request_list in
      (c <| c_request_queue ::= λ q, if queue_front then request_list ++ q else q ++ request_list |>
         <| c_request_queue_size ::= λ n, n +[32] request_list_size |>,
       request_list_size)
  end.

Definition aws_s3_client_dequeue_request_threaded c : option (request * client) :=
  match c_request_queue c with
  | [] => None
  | r :: q => Some (r, c <| c_request_queue := q |> <| c_request_queue_size ::= λ n, n -[32] 1 |>)
  end.

(** [aws_s3_meta_request_finished_request] is where the meta request learns the outcome; here
    it is recorded. *)
Definition s_s3_client_meta_request_finished_request c r (error_code : option aws_error) : client :=
  let c :=
    if rq_tracked_by_client r then
      let c := c <| c_num_requests_in_flight ::= λ n, n -[64] 1 |> in
      let c := if should_stream (mr_fio_opts (mr (rq_meta r)))
               then c <| c_num_requests_streaming_request_body ::= λ n, n -[64] 1 |> else c in
      s_s3_client_schedule_process_work_synced_default c
    else c in
  c <| c_finished ::= λ l, l ++ [(r, error_code)] |>.

(** * Preparation of requests *)

(** The callback of a preparation, in two parts: a request that failed is finished, and then
    under the lock of the client the request is counted or queued. *)
Definition prepare_callback_finish c r (error_code : option aws_error) : client :=
  match error_code with
  | Some e => s_s3_client_meta_request_finished_request c r (Some e)
  | None => c
  end.

Definition prepare_callback_queue c r (error_code : option aws_error) : client :=
  let c := on_meta (rq_meta r) (λ d, d <| mr_num_being_prepared ::= λ n, n -[64] 1 |>) c in
  let c :=
    match error_code with
    | None => c <| c_prepared_requests ::= λ l, l ++ [r] |>
    | Some _ => c <| c_num_failed_prepare_requests ::= λ n, n +[32] 1 |>
    end in
  s_s3_client_schedule_process_work_synced_default c.

Definition s_s3_client_prepare_callback_queue_request c r (error_code : option aws_error) : client :=
  prepare_callback_queue (prepare_callback_finish c r error_code) r error_code.

(** * Connections *)

(** The connection given to these functions is not in the list of the client; they put it back
    when it goes on. *)
Definition add_connection c cn : client := c <| c_connections ::= λ l, l ++ [cn] |>.

Definition release_http_connection c cn : client :=
  if cn_http_connection cn then c <| c_http_connections ::= Z.pred |> else c.

(** The part of [aws_s3_client_notify_connection_finished] from the label [reset_connection], in
    three parts between which other threads may run: the connection is no longer counted, its
    request is finished, and what it holds is released. *)
Definition reset_connection c cn (error_code : option aws_error) : client :=
  let m := rq_meta (cn_request cn) in
  let c := if cn_retry_token cn then c <| c_retry_tokens ::= Z.pred |> else c in
  let c := on_meta m (λ d, d <| mr_num_requests_network ::= λ n, n -[64] 1 |>) c in
  let c := count_network_io (mr_type (mr m)) (-1) c in
  c <| c_resetting ::= λ l, l ++ [(cn <| cn_retry_token := false |>, error_code)] |>.

Definition reset_connection_finish c cn (error_code : option aws_error) : client :=
  s_s3_client_meta_request_finished_request c (cn_request cn) error_code <| c_releasing ::= λ l, l ++ [cn] |>.

Definition reset_connection_release c cn : client :=
  s_s3_client_schedule_process_work_synced_default (release_http_connection c cn <| c_endpoint_refs ::= Z.pred |>).

(** [is_finished] is whether the meta request is finished, and [retry_fails] whether the retry
    strategy does not schedule a retry. *)
Definition aws_s3_client_notify_connection_finished c cn (error_code : option aws_error) (code : finish_code)
    (is_finished retry_fails : bool) : client :=
  match code with
  | FINISH_RETRY =>
      if negb (cn_retry_token cn) then reset_connection c cn error_code
      else if is_finished then reset_connection c cn error_code
      else
        let c := release_http_connection c cn in
        let cn := cn <| cn_http_connection := false |> in
        if retry_fails then reset_connection c cn error_code
        else add_connection c (cn <| cn_stage := WaitingForRetry |>)
  | _ => reset_connection c cn error_code
  end.

(** A token of the retry strategy is counted when it is handed over; [token] is the token the
    callback is given, and [fresh] whether it is a new one. *)
Definition s_s3_client_acquired_retry_token c cn (error_code : option aws_error) (token fresh : bool) : client :=
  match error_code with
  | Some _ => aws_s3_client_notify_connection_finished c cn error_code FINISH_FAILED false false
  | None =>
      let c := if fresh then c <| c_retry_tokens ::= Z.succ |> else c in
      let c := c <| c_client_refs ::= Z.succ |> in
      add_connection c (cn <| cn_retry_token := token |> <| cn_stage := AcquiringConnection |>)
  end.

(** [token_fails] is the error when no token can be asked for. *)
Definition s_s3_client_create_connection_for_request_default c r (token_fails : option aws_error) : client :=
  let m := rq_meta r in
  let c := on_meta m (λ d, d <| mr_num_requests_network ::= λ n, n +[64] 1 |>) c in
  let c := count_network_io (mr_type (mr m)) 1 c in
  let c := c <| c_endpoint_refs ::= Z.succ |> in
  let cn := mkConn r false false AcquiringToken in
  if cl_disable_retries cfg then s_s3_client_acquired_retry_token c cn None false false
  else
    match token_fails with
    | Some e => aws_s3_client_notify_connection_finished c cn (Some e) FINISH_FAILED false false
    | None => add_connection c cn
    end.

Definition fail_fast (e : aws_error) : bool :=
  bool_decide (e = AWS_IO_DNS_INVALID_NAME ∨ e = AWS_ERROR_PLATFORM_NOT_SUPPORTED ∨ e = AWS_IO_SOCKET_INVALID_OPTIONS).

Definition s_s3_client_on_acquire_http_connection c cn (error_code : option aws_error) (is_finished retry_fails : bool)
    : client :=
  let c :=
    match error_code with
    | Some e =>
        aws_s3_client_notify_connection_finished c cn error_code (if fail_fast e then FINISH_FAILED else FINISH_RETRY)
          is_finished retry_fails
    | None =>
        add_connection (c <| c_http_connections ::= Z.succ |>)
          (cn <| cn_http_connection := true |> <| cn_stage := Sending |>)
    end in
  c <| c_client_refs ::= Z.pred |>.

Definition s_s3_client_retry_ready c cn (error_code : option aws_error) : client :=
  match error_code with
  | Some _ => aws_s3_client_notify_connection_finished c cn error_code FINISH_FAILED false false
  | None => add_connection c (cn <| cn_stage := Repreparing |>)
  end.

Definition s_s3_client_prepare_request_callback_retry_request c cn (error_code : option aws_error) : client :=
  match error_code with
  | None => s_s3_client_acquired_retry_token c cn None (cn_retry_token cn) false
  | Some _ => aws_s3_client_notify_connection_finished c cn error_code FINISH_FAILED false false
  end.

(** * The worker task *)

(** Meta requests from the work list, taken from its end. *)
Definition push_new_meta_request c m : client :=
  if negb (mr_scheduled (c_metas c m)) then
    on_meta m (λ d, d <| mr_scheduled := true |>) c <| c_meta_requests ::= λ l, l ++ [m] |>
  else on_meta m (λ d, d <| mr_refs ::= Z.pred |>) c.

(** Steps 1 and 2 of [s_s3_client_process_work_default]. *)
Definition process_work_begin c : res client :=
  let c := c <| c_process_work_task_scheduled := false |> <| c_process_work_task_in_progress := true |> in
  let meta_request_work_list := c_pending_meta_request_work c in
  let prepared := c_prepared_requests c in
  let c := c <| c_pending_meta_request_work := [] |> <| c_prepared_requests := [] |> in
  let '(c, num_requests_queued) := aws_s3_client_queue_requests_threaded c prepared false in
  match aws_sub_u32_checked (c_num_requests_being_prepared c) num_requests_queued with
  | None => FatalAssert
  | Some n =>
      match aws_sub_u32_checked n (c_num_failed_prepare_requests c) with
      | None => FatalAssert
      | Some n =>
          let c := c <| c_num_requests_being_prepared := n |> <| c_num_failed_prepare_requests := 0 |> in
          Ok (foldl push_new_meta_request c (reverse meta_request_work_list)
                <| c_phase := Begun |> <| c_held_back := false |>)
      end
  end.

(** The start of [aws_s3_client_update_meta_requests_threaded]. *)
Definition update_begin c : client :=
  c <| c_phase := Updating true (wrap 32 (c_num_requests_in_flight c))
                    (wrap 32 (c_num_requests_streaming_request_body c)) [] |>.

(** [num_known_vips] is the number of known addresses of the endpoint. *)
Definition s_s3_client_should_update_meta_request c m (num_requests_in_flight num_requests_streaming
    max_requests_in_flight max_requests_prepare num_known_vips : Z) : bool :=
  if bool_decide (mr_type (mr m) = TYPE_DEFAULT) && mr_create_session (mr m) then true
  else if max_requests_prepare <=?
      (c_num_requests_being_prepared c +[32] c_request_queue_size c) +[32] num_requests_streaming then false
  else if max_requests_in_flight <=? num_requests_in_flight then false
  else if (num_known_vips =? 0)
       && (g_min_num_connections <=? c_num_requests_being_prepared c +[32] c_request_queue_size c) then false
  else if meta_max c m <=? mr_num_being_prepared (c_metas c m) then false
  else true.

(** What a meta request answers to an update. *)
Inductive update_outcome := NoWorkRemaining | NoRequest | NewRequest (r : request).

(** One round of the loop over the meta requests, of which [m] is the first. *)
Definition update_meta_request c (conservative : bool) (in_flight streaming : Z) (remaining : list nat) m
    (num_known_vips : Z) (outcome : update_outcome) : client :=
  let put_aside c :=
    c <| c_meta_requests ::= filter (.≠ m) |> <| c_phase := Updating conservative in_flight streaming (remaining ++ [m]) |> in
  if negb (s_s3_client_should_update_meta_request c m in_flight streaming aws_s3_client_get_max_requests_in_flight
             aws_s3_client_get_max_requests_prepare num_known_vips) then put_aside (c <| c_held_back := true |>)
  else
    match outcome with
    | NoRequest => put_aside c
    | NewRequest r =>
        let r := r <| rq_tracked_by_client := true |> in
        let c := c <| c_num_requests_being_prepared ::= λ n, n +[32] 1 |> in
        let c := on_meta m (λ d, d <| mr_num_being_prepared ::= λ n, n +[64] 1 |>) c in
        let c := c <| c_num_requests_in_flight ::= λ n, n +[64] 1 |> in
        let in_flight := wrap 32 (c_num_requests_in_flight c) in
        let c := if should_stream (mr_fio_opts (mr m))
                 then c <| c_num_requests_streaming_request_body ::= λ n, n +[64] 1 |> else c in
        c <| c_phase := Updating conservative in_flight streaming remaining |>
          <| c_preparing ::= λ l, l ++ [r] |> <| c_made ::= λ l, l ++ [r] |>
    | NoWorkRemaining => s_s3_client_remove_meta_request_threaded c m
    end.

(** The end of a pass over the meta requests: a second pass, or the connections. *)
Definition update_pass_end c (conservative : bool) (in_flight streaming : Z) (remaining : list nat) : client :=
  c <| c_meta_requests ::= λ l, remaining ++ l |>
    <| c_phase := if conservative then Updating false in_flight streaming [] else Connecting [] |>.

(** The condition of the loop of [aws_s3_client_update_connections_threaded]. *)
Definition connections_loop c : bool :=
  (s_s3_client_get_num_requests_network_io c None <? aws_s3_client_get_max_active_connections None)
  && negb (bool_decide (c_request_queue c = [])).

(** One round of it. *)
Definition update_connection c (left_over : list request) (has_finish_result : bool) (token_fails : option aws_error) : client :=
  match aws_s3_client_dequeue_request_threaded c with
  | None => c
  | Some (r, c) =>
      if rq_is_noop r then s_s3_client_meta_request_finished_request c r None
      else if negb (rq_always_send r) && has_finish_result then
        s_s3_client_meta_request_finished_request c r (Some AWS_ERROR_S3_CANCELED)
      else if wrap 32 (mr_num_requests_network (c_metas c (rq_meta r))) <? meta_max c (rq_meta r) then
        s_s3_client_create_connection_for_request_default c r token_fails
      else c <| c_phase := Connecting (left_over ++ [r]) |>
  end.

Definition update_connections_end c (left_over : list request) : client :=
  (aws_s3_client_queue_requests_threaded c left_over true).1 <| c_phase := Finishing |>.

(** Step 5, as far as it does not concern the end of the client. *)
Definition process_work_end c : client :=
  c <| c_process_work_task_in_progress := false |> <| c_phase := Idle |>.

(** * Runs *)

(** The requests that the client has not finished with. *)
Definition left_over_requests (ph : phase) : list request := match ph with Connecting l => l | _ => [] end.

Definition alive c : list request :=
  c_preparing c ++ c_prepared_requests c ++ c_request_queue c ++ left_over_requests (c_phase c)
  ++ (cn_request <$> c_connections c) ++ (cn_request <$> (c_resetting c).*1).

(** The connections that there are. *)
Definition all_connections c : list connection := c_connections c ++ (c_resetting c).*1 ++ c_releasing c.

Definition held c : Z :=
  Z.of_nat (length (alive c) + length (c_failing c)) + c_num_failed_prepare_requests c.

(** Steps of the worker task.  Fewer than 2^30 requests are held at once. *)
Inductive worker_step c : client → Prop :=
| worker_began c' :
    c_phase c = Idle → c_process_work_task_scheduled c = true → process_work_begin c = Ok c' → worker_step c c'
| worker_update_began : c_phase c = Begun → worker_step c (update_begin c)
| worker_updated conservative in_flight streaming remaining m l num_known_vips outcome :
    c_phase c = Updating conservative in_flight streaming remaining → c_meta_requests c = m :: l →
    (∀ r, outcome = NewRequest r →
       rq_meta r = m ∧ rq_tracked_by_client r = false ∧ rq_id r ∉ rq_id <$> c_made c ∧ held c < 2 ^ 30) →
    worker_step c (update_meta_request c conservative in_flight streaming remaining m num_known_vips outcome)
| worker_pass_ended conservative in_flight streaming remaining :
    c_phase c = Updating conservative in_flight streaming remaining → c_meta_requests c = [] →
    worker_step c (update_pass_end c conservative in_flight streaming remaining)
| worker_connected left_over has_finish_result token_fails :
    c_phase c = Connecting left_over → connections_loop c = true →
    worker_step c (update_connection c left_over has_finish_result token_fails)
| worker_connections_ended left_over :
    c_phase c = Connecting left_over → connections_loop c = false → worker_step c (update_connections_end c left_over)
| worker_ended : c_phase c = Finishing → worker_step c (process_work_end c).

(** Meta requests come, the worker is asked to run, and the limit of a meta request changes
    while it has no connection. *)
Inductive caller_step c : client → Prop :=
| caller_pushed m :
    caller_step c (s_s3_client_schedule_process_work_synced_default (s_s3_client_push_meta_request_synced c m))
| caller_scheduled : caller_step c (aws_s3_client_schedule_process_work c)
| caller_limited m n :
    0 < n < 2 ^ 32 → mr_num_requests_network (c_metas c m) = 0 →
    caller_step c (on_meta m (λ d, d <| mr_max_active_connections_override := n |>) c).

(** The callbacks of preparations and connections, on any thread.  A connection that the worker
    itself gives up is finished and released by such steps as well. *)
Inductive callback_step c : client → Prop :=
| callback_prepared l1 r l2 :
    c_preparing c = l1 ++ r :: l2 →
    callback_step c (s_s3_client_prepare_callback_queue_request (c <| c_preparing := l1 ++ l2 |>) r None)
| callback_unprepared l1 r l2 e :
    c_preparing c = l1 ++ r :: l2 →
    callback_step c (prepare_callback_finish (c <| c_preparing := l1 ++ l2 |>) r (Some e) <| c_failing ::= λ l, l ++ [r] |>)
| callback_failed l1 r l2 e :
    c_failing c = l1 ++ r :: l2 →
    callback_step c (prepare_callback_queue (c <| c_failing := l1 ++ l2 |>) r (Some e))
| callback_token l1 cn l2 error :
    c_connections c = l1 ++ cn :: l2 → cn_stage cn = AcquiringToken →
    callback_step c (s_s3_client_acquired_retry_token (c <| c_connections := l1 ++ l2 |>) cn error true true)
| callback_http_connection l1 cn l2 error is_finished retry_fails :
    c_connections c = l1 ++ cn :: l2 → cn_stage cn = AcquiringConnection →
    callback_step c
      (s_s3_client_on_acquire_http_connection (c <| c_connections := l1 ++ l2 |>) cn error is_finished retry_fails)
| callback_sent l1 cn l2 error code is_finished retry_fails :
    c_connections c = l1 ++ cn :: l2 → cn_stage cn = Sending →
    callback_step c (aws_s3_client_notify_connection_finished (c <| c_connections := l1 ++ l2 |>) cn error code
                       is_finished retry_fails)
| callback_retry l1 cn l2 error :
    c_connections c = l1 ++ cn :: l2 → cn_stage cn = WaitingForRetry →
    callback_step c (s_s3_client_retry_ready (c <| c_connections := l1 ++ l2 |>) cn error)
| callback_reprepared l1 cn l2 error :
    c_connections c = l1 ++ cn :: l2 → cn_stage cn = Repreparing →
    callback_step c (s_s3_client_prepare_request_callback_retry_request (c <| c_connections := l1 ++ l2 |>) cn error)
| callback_resetting l1 cn error l2 :
    c_resetting c = l1 ++ (cn, error) :: l2 →
    callback_step c (reset_connection_finish (c <| c_resetting := l1 ++ l2 |>) cn error)
| callback_releasing l1 cn l2 :
    c_releasing c = l1 ++ cn :: l2 →
    callback_step c (reset_connection_release (c <| c_releasing := l1 ++ l2 |>) cn).

Definition client_step c c' : Prop := worker_step c c' ∨ caller_step c c' ∨ callback_step c c'.
End client.
