(* ===== verification/ClientInv.v ===== *)
(** The invariant of the client's work (Client.v): what its counters count, the list of meta
    requests, the limits, and that work is not forgotten. *)

From stdpp Require Import functions.
From S2P Require Import Prelude AwsCommon Counting AutoRangedPut ClientConfig Client.

(** * What the counters count *)

Section inv.
Context `{M : !AwsMath} `{F : !AwsMathDouble}.
Context (cfg : s3_client) (mr : nat → meta_settings).
Implicit Types (c : client) (r : request) (cn : connection) (m : nat) (H : list request) (N : list connection).

Definition of_meta m r : bool := bool_decide (rq_meta r = m).
Definition of_type (t : meta_request_type) r : bool := bool_decide (mr_type (mr (rq_meta r)) = t).
Definition streams r : bool := should_stream (mr_fio_opts (mr (rq_meta r))).

(** The number of unfinished requests of a kind.  An operation holds requests [H] and
    connections [N] that are in no list of the client. *)
Definition unfinished (p : request → bool) c H N : Z :=
  count p (c_preparing c) + count p (c_prepared_requests c) + count p (c_request_queue c)
  + count p (left_over_requests (c_phase c)) + count (λ cn, p (cn_request cn)) (c_connections c)
  + count (λ x, p (cn_request x.1)) (c_resetting c) + count p H + count (λ cn, p (cn_request cn)) N.

Definition connected (p : connection → bool) c N : Z := count p (c_connections c) + count p N.

(** The connections in use and those that are given up. *)
Definition existing (p : connection → bool) c N : Z :=
  connected p c N + count (λ x, p x.1) (c_resetting c) + count p (c_releasing c).

Definition conn_ok cn : Prop :=
  match cn_stage cn with
  | AcquiringToken => cn_retry_token cn = false ∧ cn_http_connection cn = false ∧ cl_disable_retries cfg = false
  | AcquiringConnection => cn_retry_token cn = negb (cl_disable_retries cfg) ∧ cn_http_connection cn = false
  | Sending => cn_retry_token cn = negb (cl_disable_retries cfg) ∧ cn_http_connection cn = true
  | _ => cn_retry_token cn = true ∧ cn_http_connection cn = false ∧ cl_disable_retries cfg = false
  end.

Definition waits_connection cn : bool := bool_decide (cn_stage cn = AcquiringConnection).

Record counters c H N : Prop := {
  k_being : c_num_requests_being_prepared c =
    size (c_preparing c) + size (c_prepared_requests c) + size (c_failing c) + c_num_failed_prepare_requests c;
  k_failed : 0 ≤ c_num_failed_prepare_requests c;
  k_queue : c_request_queue_size c = size (c_request_queue c);
  k_held : unfinished (λ _, true) c H N + size (c_failing c) + c_num_failed_prepare_requests c ≤ 2 ^ 30;
  k_flight : c_num_requests_in_flight c = unfinished (λ _, true) c H N;
  k_streaming : c_num_requests_streaming_request_body c = unfinished streams c H N;
  k_network t : c_num_requests_network_io c t = connected (λ cn, of_type t (cn_request cn)) c N;
  k_meta_network m : mr_num_requests_network (c_metas c m) = connected (λ cn, of_meta m (cn_request cn)) c N;
  k_meta_prepared m : mr_num_being_prepared (c_metas c m) = count (of_meta m) (c_preparing c) + count (of_meta m) (c_failing c);
  k_tokens : c_retry_tokens c = connected cn_retry_token c N;
  k_http : c_http_connections c = existing cn_http_connection c N;
  k_endpoint : c_endpoint_refs c = existing (λ _, true) c N;
  k_made p : count p (c_made c) = unfinished p c H N + count p (c_finished c).*1;
  k_tracked : unfinished (λ r, negb (rq_tracked_by_client r)) c H N = 0;
  k_conn : Forall conn_ok (c_connections c);
}.

End inv.

Arguments k_being {cfg mr c H N} _.
Arguments k_failed {cfg mr c H N} _.
Arguments k_queue {cfg mr c H N} _.
Arguments k_held {cfg mr c H N} _.
Arguments k_flight {cfg mr c H N} _.
Arguments k_streaming {cfg mr c H N} _.
Arguments k_network {cfg mr c H N} _ _.
Arguments k_meta_network {cfg mr c H N} _ _.
Arguments k_meta_prepared {cfg mr c H N} _ _.
Arguments k_tokens {cfg mr c H N} _.
Arguments k_http {cfg mr c H N} _.
Arguments k_endpoint {cfg mr c H N} _.
Arguments k_made {cfg mr c H N} _ _.
Arguments k_tracked {cfg mr c H N} _.
Arguments k_conn {cfg mr c H N} _.

(** A count is between zero and the size of the list. *)
Ltac count_bounds_in :=
  repeat match goal with
  | |- context [count ?p ?l] => lazymatch goal with _ : 0 ≤ count p l ≤ _ |- _ => fail | _ => pose proof (count_bounds p l) end
  end.

(** Counts of lists are taken apart, in the hypotheses once and in each goal. *)
Ltac counts_in_hyps :=
  unfold unfinished, existing, connected in *; simpl in *; rewrite ?fmap_app, ?fmap_cons, ?count_app, ?count_cons, ?count_nil in *;
  match goal with K : _ ≤ 2 ^ 30 |- _ => revert K; count_bounds_in; intros K end.

Ltac counting :=
  unfold unfinished, existing, connected; simpl; rewrite ?fmap_app, ?fmap_cons, ?count_app, ?count_cons, ?count_nil; simpl;
  repeat case_bool_decide; try congruence; count_bounds_in; try apply wrap_eq; try lia; unfold uint; try lia.

(** The fields of [counters] after a step; counters of one kind of request are updated pointwise. *)
Ltac counters_fields :=
  split; simpl; try done;
  try match goal with
  | Km : ∀ p : request → bool, _ |- ∀ p : request → bool, _ => let p := fresh "p" in intros p; specialize (Km p); rewrite ?count_app, ?count_cons, ?count_nil in Km; cbn [fst] in Km
  | Kt : ∀ t : meta_request_type, _ |- ∀ t : meta_request_type, _ =>
      let t := fresh "t" in intros t; specialize (Kt t); rewrite ?count_app, ?count_cons, ?count_nil in Kt; unfold insert, fn_insert, of_type in *; try case_decide; subst; simpl
  | |- ∀ m : nat, _ =>
      let m := fresh "m" in intros m;
      repeat match goal with Km : ∀ m : nat, _ |- _ => specialize (Km m); rewrite ?count_app, ?count_cons, ?count_nil in Km end;
      unfold insert, fn_insert, of_meta in *; try case_decide; subst; simpl
  end;
  counting.

Section counters.
Context `{M : !AwsMath} `{F : !AwsMathDouble}.
Context (cfg : s3_client) (mr : nat → meta_settings).
Implicit Types (c : client) (r : request) (cn : connection) (m : nat) (H : list request) (N : list connection).
#[local] Notation counters := (counters cfg mr).
#[local] Notation conn_ok := (conn_ok cfg).
#[local] Notation streams := (streams mr).

Lemma tracked_in_hand c H r N : counters c (r :: H) N → rq_tracked_by_client r = true.
Proof.
  intros K. pose proof (k_tracked K) as Kt. destruct (rq_tracked_by_client r) eqn:E; [done|].
  unfold unfinished in Kt. rewrite count_cons, E in Kt. simpl in Kt. revert Kt. count_bounds_in. lia.
Qed.

Lemma counters_scheduled c H N : counters c H N → counters (s_s3_client_schedule_process_work_synced_default c) H N.
Proof. unfold s_s3_client_schedule_process_work_synced_default. by case_match; [|intros []]. Qed.

(** A request in hand is finished. *)
Lemma counters_finished c H r N e : counters c (r :: H) N →
  counters (s_s3_client_meta_request_finished_request mr c r e) H N.
Proof.
  intros K. pose proof (tracked_in_hand _ _ _ _ K) as Ht. destruct K.
  unfold s_s3_client_meta_request_finished_request, s_s3_client_schedule_process_work_synced_default. rewrite Ht.
  fold (streams r). counts_in_hyps. rewrite Ht in *.
  destruct (streams r) eqn:Hs; simpl; destruct (c_process_work_task_scheduled c); simpl.
  all: counters_fields.
Qed.

(** A connection in hand is given up. *)
Lemma counters_reset c H cn N e : counters c H (cn :: N) → counters (reset_connection mr c cn e) H N.
Proof.
  intros K. unfold reset_connection, count_network_io, on_meta. destruct K. counts_in_hyps.
  destruct (cn_retry_token cn); counters_fields.
Qed.

(** The request of a connection that was given up is finished. *)
Lemma counters_reset_finish c l1 cn e l2 : counters c [] [] → c_resetting c = l1 ++ (cn, e) :: l2 →
  counters (reset_connection_finish mr (c <| c_resetting := l1 ++ l2 |>) cn e) [] [].
Proof.
  intros K Hl. unfold reset_connection_finish. set (c1 := c <| c_resetting := _ |>).
  assert (counters (c1 <| c_releasing ::= λ l, l ++ [cn] |>) [cn_request cn] []) as K1.
  { unfold c1. clear c1. destruct K. unfold unfinished, existing, connected in *. rewrite Hl in *. counts_in_hyps. cbn [fst] in *. counters_fields. }
  apply (counters_finished _ _ _ _ e) in K1. clearbody c1.
  unfold s_s3_client_meta_request_finished_request, s_s3_client_schedule_process_work_synced_default in *.
  destruct (rq_tracked_by_client (cn_request cn)), (should_stream (mr_fio_opts (mr (rq_meta (cn_request cn)))));
    simpl in *; try exact K1; destruct (c_process_work_task_scheduled c1); exact K1.
Qed.

(** What it holds is released. *)
Lemma counters_reset_release c l1 cn l2 : counters c [] [] → c_releasing c = l1 ++ cn :: l2 →
  counters (reset_connection_release (c <| c_releasing := l1 ++ l2 |>) cn) [] [].
Proof.
  intros K Hl. apply counters_scheduled. unfold release_http_connection. destruct K.
  unfold unfinished, existing, connected in *. rewrite Hl in *. counts_in_hyps.
  destruct (cn_http_connection cn); counters_fields.
Qed.

Lemma counters_add c H cn N : conn_ok cn → counters c H (cn :: N) → counters (add_connection c cn) H N.
Proof.
  intros Hok K. destruct K. counts_in_hyps. unfold add_connection.
  counters_fields. apply Forall_app. by split; [|constructor].
Qed.

(** The connection in hand changes. *)
Lemma counters_conn c H cn cn' N : cn_request cn' = cn_request cn → cn_retry_token cn' = cn_retry_token cn →
  cn_http_connection cn' = cn_http_connection cn → counters c H (cn :: N) → counters c H (cn' :: N).
Proof. intros Hr Ht Hh K. destruct K. counts_in_hyps. rewrite <-Hr, <-Ht, <-Hh in *. counters_fields. Qed.

Lemma counters_release c H cn N : counters c H (cn :: N) →
  counters (release_http_connection c cn) H (cn <| cn_http_connection := false |> :: N).
Proof.
  intros K. destruct K. unfold release_http_connection. counts_in_hyps. destruct (cn_http_connection cn); counters_fields.
Qed.

Lemma counters_notify c H cn N e code is_finished retry_fails : conn_ok cn → counters c H (cn :: N) →
  counters (aws_s3_client_notify_connection_finished mr c cn e code is_finished retry_fails) H N.
Proof.
  intros Hok K. unfold aws_s3_client_notify_connection_finished. destruct code; [by apply counters_reset..|].
  destruct (cn_retry_token cn) eqn:Ht; simpl; [|by apply counters_reset].
  destruct is_finished; [by apply counters_reset|]. apply counters_release in K.
  destruct retry_fails; [by apply counters_reset|]. apply counters_add.
  - unfold conn_ok in *. simpl in *. destruct (cn_stage cn), (cl_disable_retries cfg); simpl in *; naive_solver.
  - by eapply counters_conn; [..|done].
Qed.

Lemma counters_token c H cn N e (token fresh : bool) : conn_ok cn → counters c H (cn :: N) →
  token = negb (cl_disable_retries cfg) → cn_http_connection cn = false →
  cn_retry_token cn = (if fresh then false else token) → (fresh = true → token = true) →
  counters (s_s3_client_acquired_retry_token mr c cn e token fresh) H N.
Proof.
  intros Hok K Htoken Hhttp Hcn Hfresh. unfold s_s3_client_acquired_retry_token. destruct e; [by apply counters_notify|].
  apply counters_add; [done|]. destruct K. counts_in_hyps. rewrite Hcn, Hhttp in *.
  destruct fresh; [rewrite (Hfresh eq_refl) in *|]; counters_fields.
Qed.

Lemma counters_create c H r N e : counters c (r :: H) N →
  counters (s_s3_client_create_connection_for_request_default cfg mr c r e) H N.
Proof.
  intros K. unfold s_s3_client_create_connection_for_request_default. set (c1 := count_network_io _ _ _).
  assert (∀ st, counters (c1 <| c_endpoint_refs ::= Z.succ |>) H (mkConn r false false st :: N)) as K1.
  { intros st. unfold c1. clear c1. destruct K. counts_in_hyps. unfold count_network_io, on_meta. counters_fields. }
  destruct (cl_disable_retries cfg) eqn:Hd.
  - unfold s_s3_client_acquired_retry_token. apply counters_add; [by split; [rewrite Hd|]|].
    destruct (K1 AcquiringConnection). by split.
  - destruct e; [apply counters_notify; [done|apply K1]|]. by apply counters_add; [|apply K1].
Qed.

Lemma counters_acquired c H cn N e is_finished retry_fails : conn_ok cn → cn_stage cn = AcquiringConnection →
  counters c H (cn :: N) → counters (s_s3_client_on_acquire_http_connection mr c cn e is_finished retry_fails) H N.
Proof.
  intros Hok Hst K. unfold s_s3_client_on_acquire_http_connection.
  assert (∀ c, counters c H N → counters (c <| c_client_refs ::= Z.pred |>) H N) as Hrefs by (by intros ? []).
  apply Hrefs. destruct e as [e|]; [by apply counters_notify|]. unfold conn_ok in Hok. rewrite Hst in Hok.
  destruct Hok as [Ht Hh]. apply counters_add; [done|]. destruct K. counts_in_hyps. rewrite Hh in *. counters_fields.
Qed.

Lemma counters_take_connection c l1 cn l2 : counters c [] [] → c_connections c = l1 ++ cn :: l2 →
  conn_ok cn ∧ counters (c <| c_connections := l1 ++ l2 |>) [] [cn].
Proof.
  intros K Hl. assert (Forall conn_ok (l1 ++ cn :: l2)) as Hf by (rewrite <-Hl; apply (k_conn K)).
  apply Forall_app in Hf as [Hf1 Hf2]. apply Forall_cons_1 in Hf2 as [Hcn Hf2]. split; [done|].
  destruct K. unfold unfinished, existing, connected in *. rewrite Hl in *. counts_in_hyps. counters_fields. by apply Forall_app.
Qed.

Lemma counters_take_failing c l1 r l2 e : counters c [] [] → c_failing c = l1 ++ r :: l2 →
  counters (prepare_callback_queue (c <| c_failing := l1 ++ l2 |>) r (Some e)) [] [].
Proof.
  intros K Hl. unfold prepare_callback_queue. apply counters_scheduled. unfold on_meta.
  destruct K. unfold unfinished, existing, connected in *. rewrite Hl in *. counts_in_hyps.
  assert (c_num_failed_prepare_requests c +[32] 1 = c_num_failed_prepare_requests c + 1) as Hw
    by (apply wrap_eq; [done|unfold uint; lia]).
  simpl. rewrite Hw. counters_fields.
Qed.

Lemma counters_prepared c l1 r l2 : counters c [] [] → c_preparing c = l1 ++ r :: l2 →
  counters (s_s3_client_prepare_callback_queue_request mr (c <| c_preparing := l1 ++ l2 |>) r None) [] [].
Proof.
  intros K Hl. apply counters_scheduled. unfold on_meta.
  destruct K. unfold unfinished, existing, connected in *. rewrite Hl in *. counts_in_hyps. counters_fields.
Qed.

Lemma counters_unprepared c l1 r l2 e : counters c [] [] → c_preparing c = l1 ++ r :: l2 →
  counters (prepare_callback_finish mr (c <| c_preparing := l1 ++ l2 |>) r (Some e) <| c_failing ::= λ l, l ++ [r] |>) [] [].
Proof.
  intros K Hl. unfold prepare_callback_finish, s_s3_client_meta_request_finished_request,
    s_s3_client_schedule_process_work_synced_default.
  destruct K. unfold unfinished, existing, connected in *. rewrite Hl in *. counts_in_hyps. fold (streams r).
  destruct (rq_tracked_by_client r) eqn:Ht; simpl in *; [|revert k_tracked0; count_bounds_in; lia].
  destruct (streams r) eqn:Hs; simpl; destruct (c_process_work_task_scheduled c); simpl; counters_fields.
Qed.
End counters.
