(* ===== verification/ClientSteps.v ===== *)
(** Every step of the client's work keeps its counters exact (Client.v, ClientInv.v). *)

From stdpp Require Import functions.
From S2P Require Import Prelude AwsCommon Counting AutoRangedPut ClientConfig Client ClientInv.

Section steps.
Context `{M : !AwsMath} `{ML : !AwsMathLaws M} `{F : !AwsMathDouble}.
Context (cfg : s3_client) (mr : nat → meta_settings).
Implicit Types (c : client) (r : request) (cn : connection) (m : nat) (H : list request) (N : list connection).
#[local] Notation counters := (counters cfg mr).
#[local] Notation conn_ok := (conn_ok cfg).
#[local] Notation streams := (streams mr).

(** Of a meta request only the counts matter. *)
Lemma counters_on_meta c m f H N :
  (∀ d, mr_num_requests_network (f d) = mr_num_requests_network d) →
  (∀ d, mr_num_being_prepared (f d) = mr_num_being_prepared d) →
  counters c H N → counters (on_meta m f c) H N.
Proof.
  intros Hn Hp K. destruct K. split; simpl; try done; intros m'; unfold insert, fn_insert; case_decide; subst;
    rewrite ?Hn, ?Hp; auto.
Qed.

Lemma counters_push_new c m : counters c [] [] → counters (push_new_meta_request c m) [] [].
Proof.
  intros K. unfold push_new_meta_request. case_match; [|by apply counters_on_meta].
  assert (∀ c f, counters c [] [] → counters (c <| c_meta_requests ::= f |>) [] []) as Hf by (by intros ?? []).
  by apply Hf, counters_on_meta.
Qed.

Lemma queued c l front : 0 ≤ c_request_queue_size c → c_request_queue_size c + size l < 2 ^ 32 →
  aws_s3_client_queue_requests_threaded c l front =
  (c <| c_request_queue ::= λ q, if front then l ++ q else q ++ l |> <| c_request_queue_size ::= λ n, n + size l |>, size l).
Proof.
  intros H0 Hl. unfold aws_s3_client_queue_requests_threaded. destruct l as [|r l].
  - f_equal. destruct c; cbn. f_equal; [by destruct front; rewrite ?app_nil_r|by rewrite Z.add_0_r].
  - pose proof (count_bounds (λ _, true) (r :: l)). rewrite (count_loop (r :: l) 0), Z.add_0_l by lia.
    set (n := size (r :: l)) in *. clearbody n. f_equal. simpl. f_equal. apply wrap_eq; [done|]. unfold uint. lia.
Qed.

Lemma counters_phase c ph H N : left_over_requests ph = left_over_requests (c_phase c) →
  counters c H N → counters (c <| c_phase := ph |>) H N.
Proof. intros Hl K. destruct K. unfold unfinished in *. by split; unfold unfinished; simpl; rewrite ?Hl. Qed.

Lemma counters_held_back c b H N : counters c H N → counters (c <| c_held_back := b |>) H N.
Proof. by intros []. Qed.

Lemma counters_meta_requests c l H N : counters c H N → counters (c <| c_meta_requests := l |>) H N.
Proof. by intros []. Qed.

Lemma push_new_phase c l : c_phase (foldl push_new_meta_request c l) = c_phase c.
Proof.
  revert c. induction l as [|m l IH]; intros c; simpl; [done|]. rewrite IH. unfold push_new_meta_request. by case_match.
Qed.

Lemma counters_pushed c l : counters c [] [] → counters (foldl push_new_meta_request c l) [] [].
Proof. revert c. induction l as [|m l IH]; intros c K; simpl; [done|]. by apply IH, counters_push_new. Qed.

(** The worker takes over prepared requests: the checked subtractions do not fail. *)
Lemma counters_begin c : c_phase c = Idle → counters c [] [] →
  ∃ c', process_work_begin c = Ok c' ∧ counters c' [] [].
Proof using ML.
  intros Hp K. unfold process_work_begin. simpl.
  assert (size (c_preparing c) + size (c_prepared_requests c) + size (c_request_queue c) ≤ unfinished (λ _, true) c [] []) as Hu.
  { unfold unfinished. count_bounds_in. lia. }
  revert Hu. count_bounds_in. intros Hu. pose proof (count_bounds (λ _, true) (c_failing c)).
  pose proof (k_held K) as Hh. pose proof (k_queue K) as Hq. pose proof (k_being K) as Hb. pose proof (k_failed K) as Hf.
  rewrite queued by (simpl; lia). simpl. rewrite !aws_sub_u32_checked_spec by (unfold uint; lia).
  rewrite bool_decide_true by lia. rewrite aws_sub_u32_checked_spec by (unfold uint; lia). rewrite bool_decide_true by lia.
  eexists. split; [done|].
  match goal with |- context [foldl push_new_meta_request ?c0 ?work] =>
    refine (counters_held_back (foldl push_new_meta_request c0 work <| c_phase := Begun |>) false [] []
              (counters_phase (foldl push_new_meta_request c0 work) Begun [] [] _ _));
    [by rewrite push_new_phase; simpl; rewrite Hp|apply counters_pushed] end.
  destruct K. counts_in_hyps. counters_fields.
Qed.

Lemma counters_updated c conservative in_flight streaming remaining m l vips outcome :
  counters c [] [] → c_phase c = Updating conservative in_flight streaming remaining → c_meta_requests c = m :: l →
  (∀ r, outcome = NewRequest r → rq_meta r = m ∧ held c < 2 ^ 30) →
  counters (update_meta_request cfg mr c conservative in_flight streaming remaining m vips outcome) [] [].
Proof.
  intros K Hp Hl Ho. unfold update_meta_request.
  assert (∀ c f b ph, left_over_requests ph = left_over_requests (c_phase c) → counters c [] [] →
    counters (c <| c_held_back := b |> <| c_meta_requests ::= f |> <| c_phase := ph |>) [] []) as Haside.
  { intros c0 f b ph Hph K0. by apply counters_phase, counters_meta_requests, counters_held_back. }
  case_match; [apply Haside; [by rewrite Hp|done]|]. destruct outcome as [| |r].
  - unfold s_s3_client_remove_meta_request_threaded.
    by apply (counters_meta_requests (on_meta _ _ _)), counters_on_meta.
  - apply (Haside c _ (c_held_back c)); [by rewrite Hp|done].
  - destruct (Ho r eq_refl) as [Hr Hheld].
    assert (unfinished (λ _, true) c [] [] + size (c_failing c) + c_num_failed_prepare_requests c < 2 ^ 30) as Hbound.
    { revert Hheld. unfold held, alive, unfinished. rewrite !length_app, !length_fmap, !count_size. simpl. lia. }
    destruct K. unfold on_meta, unfinished in *. rewrite Hp in *. counts_in_hyps.
    set (r' := mkRequest _ _ _ _ true). assert (rq_meta r' = m ∧ rq_tracked_by_client r' = true) as [Hm Ht] by done.
    clearbody r'. subst m. rewrite <-Hm in *. fold (streams r'). destruct (streams r') eqn:Hs; counters_fields.
    all: rewrite ?Hs, ?Ht; simpl; lia.
Qed.

(** A request that is dequeued is in hand. *)
Lemma counters_dequeue c r q : counters c [] [] → c_request_queue c = r :: q →
  counters (c <| c_request_queue := q |> <| c_request_queue_size ::= λ n, n -[32] 1 |>) [r] [].
Proof.
  intros K Hq. destruct K. unfold unfinished in *. rewrite Hq in *. counts_in_hyps. counters_fields.
Qed.

Lemma counters_connected c left_over has_result token_fails :
  counters c [] [] → c_phase c = Connecting left_over →
  counters (update_connection cfg mr c left_over has_result token_fails) [] [].
Proof.
  intros K Hp. unfold update_connection, aws_s3_client_dequeue_request_threaded.
  destruct (c_request_queue c) as [|r q] eqn:Hq; [done|]. apply (counters_dequeue _ _ _ K) in Hq as K1.
  set (c1 := c <| c_request_queue := q |> <| c_request_queue_size ::= _ |>) in *.
  destruct (rq_is_noop r); [by apply counters_finished|]. case_match; [by apply counters_finished|].
  case_match; [by apply counters_create|]. assert (c_phase c1 = Connecting left_over) as Hp1 by done. clearbody c1.
  destruct K1. unfold unfinished in *. rewrite Hp1 in *. counts_in_hyps. counters_fields.
Qed.

Lemma counters_connections_end c left_over : counters c [] [] → c_phase c = Connecting left_over →
  counters (update_connections_end c left_over) [] [].
Proof.
  intros K Hp. unfold update_connections_end.
  pose proof (k_held K) as Hh. pose proof (k_queue K) as Hq. pose proof (k_failed K) as Hf.
  unfold unfinished in Hh. rewrite Hp in Hh. revert Hh. simpl. count_bounds_in. intros Hh. rewrite queued by lia. simpl.
  destruct K. unfold unfinished in *. rewrite Hp in *. counts_in_hyps. counters_fields.
Qed.

Lemma counters_callback c c' : counters c [] [] → callback_step mr c c' → counters c' [] [].
Proof.
  intros K Hs. destruct Hs as [l1 r l2 Hl|l1 r l2 e Hl|l1 r l2 e Hl|l1 cn l2 e Hl Hst|l1 cn l2 e fin ret Hl Hst|
    l1 cn l2 e code fin ret Hl Hst|l1 cn l2 e Hl Hst|l1 cn l2 e Hl Hst|l1 cn e l2 Hl|l1 cn l2 Hl].
  1: by apply counters_prepared.
  1: by apply counters_unprepared.
  1: by apply counters_take_failing.
  6: by apply counters_reset_finish.
  6: by apply counters_reset_release.
  all: destruct (counters_take_connection cfg mr _ _ _ _ K Hl) as [Hok K1].
  all: pose proof Hok as Hok'; unfold conn_ok in Hok'; rewrite Hst in Hok'.
  - destruct Hok' as (Ht & Hh & Hd). by apply counters_token; rewrite ?Hd.
  - by apply counters_acquired.
  - by apply counters_notify.
  - unfold s_s3_client_retry_ready. destruct e; [by apply counters_notify|].
    apply counters_add; [done|]. by eapply counters_conn; [..|done].
  - destruct Hok' as (Ht & Hh & Hd). unfold s_s3_client_prepare_request_callback_retry_request.
    destruct e; [by apply counters_notify|]. by apply counters_token; rewrite ?Hd.
Qed.

Lemma counters_step c c' : counters c [] [] → client_step cfg mr c c' → counters c' [] [].
Proof using ML.
  intros K [Hs|[Hs|Hs]].
  - destruct Hs as [c' Hp _ Hb|Hp|cons infl str rem m l vips outcome Hp Hl Ho|cons infl str rem Hp Hl|
      lo res tok Hp Hloop|lo Hp Hloop|Hp].
    + destruct (counters_begin c Hp K) as (c1 & Hc & K1). rewrite Hc in Hb. by injection Hb as <-.
    + apply counters_phase; [by rewrite Hp|done].
    + eapply counters_updated; [done..|]. intros r Hr. destruct (Ho r Hr) as (? & _ & _ & ?). done.
    + apply counters_phase; [by destruct cons; simpl; rewrite Hp|]. by apply counters_meta_requests.
    + by apply counters_connected.
    + by apply counters_connections_end.
    + apply counters_phase; [by simpl; rewrite Hp|]. by destruct K.
  - destruct Hs as [m| |m n].
    + apply counters_scheduled. unfold s_s3_client_push_meta_request_synced.
      assert (∀ c f, counters c [] [] → counters (c <| c_pending_meta_request_work ::= f |>) [] []) as Hf by (by intros ?? []).
      by apply Hf, counters_on_meta.
    + by apply counters_scheduled.
    + by apply counters_on_meta.
  - by eapply counters_callback.
Qed.
End steps.
