(* ===== verification/ClientWork.v ===== *)
(** What the steps of other threads leave alone (Client.v), and the list of meta requests: each
    is in it once, and the client holds the references it should. *)

From stdpp Require Import functions.
From S2P Require Import Prelude AwsCommon Counting AutoRangedPut ClientConfig Client ClientInv ClientSteps.

(** * Frames *)

Section frames.
Context `{M : !AwsMath} `{F : !AwsMathDouble}.
Context (cfg : s3_client) (mr : nat → meta_settings).
Implicit Types (c : client) (r : request) (cn : connection) (m : nat).

(** The parts of a meta request that belong to the list of meta requests and the limits. *)
Definition meta_key (d : meta_data) : bool * Z * Z := (mr_scheduled d, mr_refs d, mr_max_active_connections_override d).

(** Everything but connections, counters and the request to run the worker is unchanged. *)
Record fixed c c' : Prop := {
  x_phase : c_phase c' = c_phase c;
  x_meta_requests : c_meta_requests c' = c_meta_requests c;
  x_pending : c_pending_meta_request_work c' = c_pending_meta_request_work c;
  x_metas m : meta_key (c_metas c' m) = meta_key (c_metas c m);
  x_preparing : c_preparing c' = c_preparing c;
  x_prepared : c_prepared_requests c' = c_prepared_requests c;
  x_queue : c_request_queue c' = c_request_queue c;
  x_failing : c_failing c' = c_failing c;
  x_failed : c_num_failed_prepare_requests c' = c_num_failed_prepare_requests c;
  x_held_back : c_held_back c' = c_held_back c;
  x_made : c_made c' = c_made c;
}.

#[export] Instance fixed_refl : Reflexive fixed.
Proof. by split. Qed.

#[export] Instance fixed_trans : Transitive fixed.
Proof. intros c1 c2 c3 [] []. split; try congruence. Qed.

Lemma fixed_on_meta c m f : (∀ d, meta_key (f d) = meta_key d) → fixed c (on_meta m f c).
Proof. intros Hf. split; simpl; try done. intros m'. unfold insert, fn_insert. case_decide; [by subst|done]. Qed.

Lemma fixed_schedule c : fixed c (s_s3_client_schedule_process_work_synced_default c).
Proof. unfold s_s3_client_schedule_process_work_synced_default. by case_match. Qed.

Lemma scheduled_schedule c : c_process_work_task_scheduled (s_s3_client_schedule_process_work_synced_default c) = true.
Proof. unfold s_s3_client_schedule_process_work_synced_default. by case_match. Qed.

Lemma connections_schedule c : c_connections (s_s3_client_schedule_process_work_synced_default c) = c_connections c.
Proof. unfold s_s3_client_schedule_process_work_synced_default. by case_match. Qed.

Lemma resetting_schedule c : c_resetting (s_s3_client_schedule_process_work_synced_default c) = c_resetting c.
Proof. unfold s_s3_client_schedule_process_work_synced_default. by case_match. Qed.

Lemma refs_schedule c : c_client_refs (s_s3_client_schedule_process_work_synced_default c) = c_client_refs c.
Proof. unfold s_s3_client_schedule_process_work_synced_default. by case_match. Qed.

Lemma finished_fixed c r e :
  let c' := s_s3_client_meta_request_finished_request mr c r e in
  fixed c c' ∧ c_connections c' = c_connections c ∧
  (rq_tracked_by_client r = true → c_process_work_task_scheduled c' = true) ∧
  (c_process_work_task_scheduled c = true → c_process_work_task_scheduled c' = true) ∧
  c_client_refs c' = c_client_refs c ∧ c_resetting c' = c_resetting c.
Proof.
  unfold s_s3_client_meta_request_finished_request, s_s3_client_schedule_process_work_synced_default.
  destruct (rq_tracked_by_client r); [|done]. destruct (should_stream _); simpl;
    destruct (c_process_work_task_scheduled c); simpl; by split_and!.
Qed.

(** A connection in hand is put back for the same request, or is given up. *)
Definition handled c cn c' : Prop :=
  fixed c c' ∧ c_process_work_task_scheduled c' = c_process_work_task_scheduled c ∧
  ((∃ cn', cn_request cn' = cn_request cn ∧ c_connections c' = c_connections c ++ [cn'] ∧ c_resetting c' = c_resetting c) ∨
   (∃ cn' e, cn_request cn' = cn_request cn ∧ c_connections c' = c_connections c ∧ c_resetting c' = c_resetting c ++ [(cn', e)])).

Lemma reset_handled c cn e : handled c cn (reset_connection mr c cn e).
Proof.
  unfold reset_connection. set (c1 := if cn_retry_token cn then _ else c).
  assert (fixed c c1 ∧ c_process_work_task_scheduled c1 = c_process_work_task_scheduled c ∧
    c_connections c1 = c_connections c ∧ c_resetting c1 = c_resetting c) as (Hf & Hs & Hc & Hr)
    by (unfold c1; by destruct (cn_retry_token cn)).
  clearbody c1. split; [|split; [done|right]].
  - trans c1; [done|]. unfold count_network_io. etrans; [apply (fixed_on_meta _ (rq_meta (cn_request cn)))|done]. done.
  - exists (cn <| cn_retry_token := false |>), e. simpl. by rewrite Hr.
Qed.

Lemma reset_refs c cn e : c_client_refs (reset_connection mr c cn e) = c_client_refs c ∧
  c_connections (reset_connection mr c cn e) = c_connections c.
Proof. unfold reset_connection. by destruct (cn_retry_token cn). Qed.

Lemma handled_same c c1 cn cn1 c' : fixed c c1 → c_connections c1 = c_connections c → c_resetting c1 = c_resetting c →
  c_process_work_task_scheduled c1 = c_process_work_task_scheduled c → cn_request cn1 = cn_request cn →
  handled c1 cn1 c' → handled c cn c'.
Proof.
  intros Hf Hc Hre Hs Hr (Hf1 & Hs1 & H1). split; [by trans c1|]. split; [congruence|]. rewrite Hc, Hre, Hr in H1. done.
Qed.

Lemma added_handled c cn cn' : cn_request cn' = cn_request cn → handled c cn (add_connection c cn').
Proof. intros Hr. split; [done|]. split; [done|]. left. by exists cn'. Qed.

Lemma notify_handled c cn e code is_finished retry_fails :
  handled c cn (aws_s3_client_notify_connection_finished mr c cn e code is_finished retry_fails).
Proof.
  unfold aws_s3_client_notify_connection_finished. destruct code; [apply reset_handled..|].
  case_match; [apply reset_handled|]. destruct is_finished; [apply reset_handled|].
  eapply (handled_same _ (release_http_connection c cn) _ (cn <| cn_http_connection := false |>)); [..|].
  1-5: unfold release_http_connection; by destruct (cn_http_connection cn).
  destruct retry_fails; [apply reset_handled|by apply added_handled].
Qed.

Lemma token_handled c cn e token fresh : handled c cn (s_s3_client_acquired_retry_token mr c cn e token fresh).
Proof.
  unfold s_s3_client_acquired_retry_token. destruct e; [apply notify_handled|].
  eapply (handled_same _ ((if fresh then c <| c_retry_tokens ::= Z.succ |> else c) <| c_client_refs ::= Z.succ |>) _ cn);
    [by destruct fresh..|by apply added_handled].
Qed.

Lemma create_handled c r e : ∃ c1 cn, fixed c c1 ∧ cn_request cn = r ∧ c_connections c1 = c_connections c ∧
  c_resetting c1 = c_resetting c ∧ c_process_work_task_scheduled c1 = c_process_work_task_scheduled c ∧
  handled c1 cn (s_s3_client_create_connection_for_request_default cfg mr c r e).
Proof.
  unfold s_s3_client_create_connection_for_request_default. set (c1 := count_network_io _ _ _ <| c_endpoint_refs ::= _ |>).
  exists c1, (mkConn r false false AcquiringToken). split; [|split_and!; [done..|]].
  - unfold c1, count_network_io. etrans; [apply (fixed_on_meta _ (rq_meta r))|done]. done.
  - destruct (cl_disable_retries cfg); [apply token_handled|]. destruct e; [apply notify_handled|by apply added_handled].
Qed.

Lemma acquired_handled c cn e is_finished retry_fails :
  handled c cn (s_s3_client_on_acquire_http_connection mr c cn e is_finished retry_fails).
Proof.
  unfold s_s3_client_on_acquire_http_connection.
  assert (∀ c', handled c cn c' → handled c cn (c' <| c_client_refs ::= Z.pred |>)) as Hrefs.
  { intros c' [Hf H]. by split; [etrans|]. }
  apply Hrefs. destruct e; [apply notify_handled|].
  eapply (handled_same _ (c <| c_http_connections ::= Z.succ |>) _ cn); [done..|by apply added_handled].
Qed.

(** Requests without a connection. *)
Definition waiting (p : request → bool) c : Z :=
  count p (c_preparing c) + count p (c_prepared_requests c) + count p (c_request_queue c)
  + count p (left_over_requests (c_phase c)).

(** Requests with a connection in use, and those whose connection is given up. *)
Definition conns (p : request → bool) c : Z := count (λ cn, p (cn_request cn)) (c_connections c).
Definition resets (p : request → bool) c : Z := count (λ x, p (cn_request x.1)) (c_resetting c).
Definition given (p : request → bool) c : Z := conns p c + resets p c.

(** A step that gives no more work to the client; when it takes some away, the worker will run. *)
Record frame c c' : Prop := {
  f_phase : c_phase c' = c_phase c;
  f_meta_requests : c_meta_requests c' = c_meta_requests c;
  f_pending : c_pending_meta_request_work c' = c_pending_meta_request_work c;
  f_metas m : meta_key (c_metas c' m) = meta_key (c_metas c m);
  f_held_back : c_held_back c' = c_held_back c;
  f_made : c_made c' = c_made c;
  f_conns p : conns p c' ≤ conns p c;
  f_waiting p : waiting p c' ≤ waiting p c;
  f_total p : waiting p c' + given p c' ≤ waiting p c + given p c;
  f_scheduled : c_process_work_task_scheduled c = true → c_process_work_task_scheduled c' = true;
  f_busy : c_process_work_task_scheduled c' = true ∨
    given (λ _, true) c' = given (λ _, true) c ∧ c_preparing c' = c_preparing c ∧ c_failing c' = c_failing c ∧
    c_prepared_requests c' = c_prepared_requests c ∧ c_request_queue c' = c_request_queue c ∧
    c_num_failed_prepare_requests c' = c_num_failed_prepare_requests c;
}.

Lemma frame_handled c l1 cn l2 c' : c_connections c = l1 ++ cn :: l2 →
  handled (c <| c_connections := l1 ++ l2 |>) cn c' → frame c c'.
Proof.
  intros Hl ([Hp Hm Hpe Hme Hpr Hpd Hq Hfa Hfd Hh Hma] & Hs & H). simpl in *.
  assert (∀ p, waiting p c' = waiting p c) as Hw by (intros p; unfold waiting; by rewrite Hp, Hpr, Hpd, Hq).
  assert (∀ p, conns p c' ≤ conns p c ∧ given p c' = given p c) as Hc.
  { intros p. unfold given, conns, resets. rewrite Hl. destruct H as [(cn' & Hr & -> & ->)|(cn' & e & Hr & -> & ->)];
      rewrite !count_app, ?count_cons, ?count_nil; simpl; rewrite Hr; destruct (p (cn_request cn)); lia. }
  split; try done.
  - intros p. apply Hc.
  - intros p. by rewrite Hw.
  - intros p. rewrite Hw. destruct (Hc p) as [_ ->]. done.
  - by rewrite Hs.
  - right. split_and!; try done. apply Hc.
Qed.

(** What the first steps of the worker leave. *)
Record began c c' : Prop := {
  g_phase : c_phase c' = Begun;
  g_pending : c_pending_meta_request_work c' = [];
  g_prepared : c_prepared_requests c' = [];
  g_queue : c_request_queue c' = c_request_queue c ++ c_prepared_requests c;
  g_preparing : c_preparing c' = c_preparing c;
  g_connections : c_connections c' = c_connections c;
  g_resetting : c_resetting c' = c_resetting c;
  g_failing : c_failing c' = c_failing c;
  g_failed : c_num_failed_prepare_requests c' = 0;
  g_scheduled : c_process_work_task_scheduled c' = false;
  g_held_back : c_held_back c' = false;
  g_made : c_made c' = c_made c;
  g_refs : c_client_refs c' = c_client_refs c;
  g_override m : mr_max_active_connections_override (c_metas c' m) = mr_max_active_connections_override (c_metas c m);
}.

Lemma push_all_spec c l :
  let c' := foldl push_new_meta_request c l in
  c' = c <| c_metas := c_metas c' |> <| c_meta_requests := c_meta_requests c' |> ∧
  ∀ m, mr_max_active_connections_override (c_metas c' m) = mr_max_active_connections_override (c_metas c m).
Proof.
  revert c. induction l as [|m l IH]; intros c; simpl; [by destruct c|].
  destruct (IH (push_new_meta_request c m)) as [Heq Ho]. simpl in *. split.
  - set (c' := foldl _ _ _) in *. clearbody c'. rewrite Heq at 1. unfold push_new_meta_request.
    by destruct (negb (mr_scheduled (c_metas c m))).
  - intros m'. rewrite Ho. unfold push_new_meta_request. destruct (negb _); simpl; unfold insert, fn_insert; by case_decide; subst.
Qed.

Lemma begin_spec c c' : process_work_begin c = Ok c' → began c c'.
Proof.
  unfold process_work_begin, aws_s3_client_queue_requests_threaded. simpl.
  destruct (c_prepared_requests c) as [|r l] eqn:Hpr; simpl.
  all: destruct (aws_sub_u32_checked _ _) as [z|]; [|done]; destruct (aws_sub_u32_checked z _) as [z0|]; [|done]; intros <-%Ok_inj.
  all: match goal with |- context [foldl push_new_meta_request ?c0 ?work] => destruct (push_all_spec c0 work) as [Heq Ho] end.
  all: split; rewrite ?Hpr, ?app_nil_r; try done; simpl; try (rewrite Heq; done). all: apply Ho.
Qed.

(** A change after which the worker is asked to run. *)
Lemma frame_scheduled c c' : c_process_work_task_scheduled c' = true →
  c_phase c' = c_phase c → c_meta_requests c' = c_meta_requests c →
  c_pending_meta_request_work c' = c_pending_meta_request_work c →
  (∀ m, meta_key (c_metas c' m) = meta_key (c_metas c m)) → c_held_back c' = c_held_back c → c_made c' = c_made c →
  c_connections c' = c_connections c → (∀ p, resets p c' ≤ resets p c) → (∀ p, waiting p c' ≤ waiting p c) → frame c c'.
Proof.
  intros Hs Hp Hm Hpe Hme Hh Hma Hc Hr Hw. split; try done; [| |by left]; intros p; unfold given, conns; rewrite Hc; [done|].
  specialize (Hw p). specialize (Hr p). lia.
Qed.

Lemma resets_same c c' p : c_resetting c' = c_resetting c → resets p c' ≤ resets p c.
Proof. unfold resets. by intros ->. Qed.

Lemma callback_frame c c' : counters cfg mr c [] [] → callback_step mr c c' → frame c c'.
Proof.
  intros K Hs. destruct Hs as [l1 r l2 Hl|l1 r l2 e Hl|l1 r l2 e Hl|l1 cn l2 e Hl Hst|l1 cn l2 e fin ret Hl Hst|
    l1 cn l2 e code fin ret Hl Hst|l1 cn l2 e Hl Hst|l1 cn l2 e Hl Hst|l1 cn e l2 Hl|l1 cn l2 Hl].
  - set (c1 := on_meta (rq_meta r) (λ d, d <| mr_num_being_prepared ::= λ n, n -[64] 1 |>) (c <| c_preparing := l1 ++ l2 |>)
                 <| c_prepared_requests ::= λ l, l ++ [r] |>).
    change (frame c (s_s3_client_schedule_process_work_synced_default c1)).
    destruct (fixed_schedule c1) as [Hp Hm Hpe Hme Hpr Hpd Hq Hfa Hfd Hh Hma].
    apply frame_scheduled; rewrite ?connections_schedule, ?scheduled_schedule; try done.
    + intros m. rewrite Hme. simpl. unfold insert, fn_insert. by case_decide; subst.
    + intros p. apply resets_same. by rewrite resetting_schedule.
    + intros p. unfold waiting. rewrite Hp, Hpr, Hpd, Hq, Hl. simpl. rewrite !count_app, !count_cons, count_nil. lia.
  - unfold prepare_callback_finish.
    destruct (finished_fixed (c <| c_preparing := l1 ++ l2 |>) r (Some e)) as ([Hp Hm Hpe Hme Hpr Hpd Hq Hfa Hfd Hh Hma] & Hc & Hs & _ & _ & Hr).
    assert (rq_tracked_by_client r = true) as Ht.
    { destruct (rq_tracked_by_client r) eqn:Ht; [done|]. pose proof (k_tracked K) as Kt. unfold unfinished in Kt.
      rewrite Hl, count_app, count_cons, Ht in Kt. simpl in Kt. revert Kt. count_bounds_in. lia. }
    set (c1 := s_s3_client_meta_request_finished_request mr _ r (Some e)) in *. clearbody c1. simpl in *.
    apply frame_scheduled; simpl; try done; [by apply Hs|by intros p; apply resets_same|].
    intros p. unfold waiting. simpl. rewrite Hp, Hpr, Hpd, Hq, Hl. simpl. rewrite !count_app, !count_cons. destruct (p r); lia.
  - set (c1 := on_meta (rq_meta r) (λ d, d <| mr_num_being_prepared ::= λ n, n -[64] 1 |>) (c <| c_failing := l1 ++ l2 |>)
                 <| c_num_failed_prepare_requests ::= λ n, n +[32] 1 |>).
    change (frame c (s_s3_client_schedule_process_work_synced_default c1)).
    destruct (fixed_schedule c1) as [Hp Hm Hpe Hme Hpr Hpd Hq Hfa Hfd Hh Hma].
    apply frame_scheduled; rewrite ?connections_schedule, ?scheduled_schedule; try done.
    + intros m. rewrite Hme. simpl. unfold insert, fn_insert. by case_decide; subst.
    + intros p. apply resets_same. by rewrite resetting_schedule.
    + intros p. unfold waiting. by rewrite Hp, Hpr, Hpd, Hq.
  - eapply frame_handled; [done|apply token_handled].
  - eapply frame_handled; [done|apply acquired_handled].
  - eapply frame_handled; [done|apply notify_handled].
  - eapply frame_handled; [done|]. unfold s_s3_client_retry_ready. destruct e; [apply notify_handled|by apply added_handled].
  - eapply frame_handled; [done|]. unfold s_s3_client_prepare_request_callback_retry_request.
    destruct e; [apply notify_handled|apply token_handled].
  - unfold reset_connection_finish.
    destruct (finished_fixed (c <| c_resetting := l1 ++ l2 |>) (cn_request cn) e) as
      ([Hp Hm Hpe Hme Hpr Hpd Hq Hfa Hfd Hh Hma] & Hc & Hs & _ & _ & Hr).
    assert (rq_tracked_by_client (cn_request cn) = true) as Ht.
    { destruct (rq_tracked_by_client (cn_request cn)) eqn:Ht; [done|]. pose proof (k_tracked K) as Kt. unfold unfinished in Kt.
      rewrite Hl, count_app, count_cons in Kt. cbn [fst] in Kt. rewrite Ht in Kt. simpl in Kt. revert Kt. count_bounds_in. lia. }
    set (c1 := s_s3_client_meta_request_finished_request mr _ (cn_request cn) e) in *. clearbody c1. simpl in *.
    apply frame_scheduled; simpl; try done; [by apply Hs|..]; intros p.
    + unfold resets. simpl. rewrite Hr, Hl, !count_app, count_cons. case_match; lia.
    + unfold waiting. simpl. by rewrite Hp, Hpr, Hpd, Hq.
  - unfold reset_connection_release. set (c1 := release_http_connection _ cn <| c_endpoint_refs ::= Z.pred |>).
    assert (fixed c c1 ∧ c_connections c1 = c_connections c ∧ c_resetting c1 = c_resetting c) as (Hf & Hc & Hr)
      by (unfold c1, release_http_connection; by destruct (cn_http_connection cn)).
    clearbody c1. destruct (fixed_trans _ _ _ Hf (fixed_schedule c1)) as [Hp Hm Hpe Hme Hpr Hpd Hq Hfa Hfd Hh Hma].
    apply frame_scheduled; rewrite ?connections_schedule, ?scheduled_schedule; try done; intros p.
    + apply resets_same. by rewrite resetting_schedule.
    + unfold waiting. by rewrite Hp, Hpr, Hpd, Hq.
Qed.

Lemma schedule_frame c : frame c (s_s3_client_schedule_process_work_synced_default c).
Proof.
  destruct (fixed_schedule c) as [Hp Hm Hpe Hme Hpr Hpd Hq Hfa Hfd Hh Hma].
  split; unfold waiting, given, conns, resets; rewrite ?Hp, ?Hpr, ?Hpd, ?Hq, ?connections_schedule, ?resetting_schedule, ?scheduled_schedule; try done; by left.
Qed.
End frames.

(** * The list of meta requests *)

Section worklist.
Context `{M : !AwsMath} `{ML : !AwsMathLaws M} `{F : !AwsMathDouble}.
Context (cfg : s3_client) (mr : nat → meta_settings).
Implicit Types (c : client) (r : request) (cn : connection) (m : nat).

Definition remaining_of (ph : phase) : list nat := match ph with Updating _ _ _ l => l | _ => [] end.

Definition listed c : list nat := c_meta_requests c ++ remaining_of (c_phase c).

Definition is_meta m : nat → bool := λ m', bool_decide (m' = m).

(** Every scheduled meta request is in the list once.  The client has a reference for each entry
    of the list, of the pending work, and of the work [work] that is being moved. *)
Record worklist c (work : list nat) : Prop := {
  w_nodup : NoDup (listed c);
  w_scheduled m : mr_scheduled (c_metas c m) = true ↔ m ∈ listed c;
  w_refs m : mr_refs (c_metas c m) =
    count (is_meta m) (c_pending_meta_request_work c) + count (is_meta m) work + (if mr_scheduled (c_metas c m) then 1 else 0);
}.

Lemma worklist_keys c c' work : worklist c work → listed c' = listed c →
  c_pending_meta_request_work c' = c_pending_meta_request_work c →
  (∀ m, mr_scheduled (c_metas c' m) = mr_scheduled (c_metas c m) ∧ mr_refs (c_metas c' m) = mr_refs (c_metas c m)) →
  worklist c' work.
Proof.
  intros [Hn Hs Hr] Hl Hp Hm. split; [by rewrite Hl|..]; intros m; destruct (Hm m) as [Hms Hmr].
  - by rewrite Hms, Hl.
  - by rewrite Hmr, Hms, Hp.
Qed.

Lemma meta_key_inv d d' : meta_key d' = meta_key d → mr_scheduled d' = mr_scheduled d ∧ mr_refs d' = mr_refs d.
Proof. unfold meta_key. by intros [=]. Qed.

Lemma worklist_frame c c' : frame c c' → worklist c [] → worklist c' [].
Proof.
  intros [] W. apply (worklist_keys c); [done|by unfold listed; congruence|done|]. intros m. by apply meta_key_inv.
Qed.

Lemma worklist_fixed c c' : fixed c c' → worklist c [] → worklist c' [].
Proof.
  intros [] W. apply (worklist_keys c); [done|by unfold listed; congruence|done|]. intros m. by apply meta_key_inv.
Qed.

Lemma worklist_pushed c m : worklist c [] →
  worklist (s_s3_client_schedule_process_work_synced_default (s_s3_client_push_meta_request_synced c m)) [].
Proof.
  intros [Hn Hs Hr]. eapply worklist_fixed; [apply fixed_schedule|]. split; [done|..]; intros m'; simpl;
    unfold insert, fn_insert; case_decide; subst; simpl; try done; rewrite count_app, count_cons, Hr, !count_nil; unfold is_meta;
    [rewrite bool_decide_true by done|rewrite bool_decide_false by done]; lia.
Qed.

Lemma worklist_push_new c m work : remaining_of (c_phase c) = [] → worklist c (m :: work) →
  worklist (push_new_meta_request c m) work.
Proof.
  intros Hph [Hn Hs Hr]. unfold push_new_meta_request, listed in *. rewrite Hph, app_nil_r in *.
  destruct (mr_scheduled (c_metas c m)) eqn:Hm; simpl.
  - split; unfold listed; simpl; rewrite ?Hph, ?app_nil_r; [done|..]; intros m'; unfold insert, fn_insert; case_decide; subst; simpl; try done.
    all: specialize (Hr m'); rewrite count_cons in Hr; revert Hr; unfold is_meta at 2; case_bool_decide; congruence || lia.
  - assert (m ∉ c_meta_requests c) as Hnin by (intros Hin%Hs; congruence).
    split; unfold listed; simpl; rewrite ?Hph, ?app_nil_r.
    + apply list.NoDup_app. split; [done|]. split; [set_solver|]. apply NoDup_singleton.
    + intros m'. unfold insert, fn_insert. case_decide; subst; simpl; [set_solver|]. rewrite Hs. set_solver.
    + intros m'. specialize (Hr m'). rewrite count_cons in Hr. revert Hr. unfold is_meta at 2.
      unfold insert, fn_insert. case_decide; subst; simpl; case_bool_decide; rewrite ?Hm; congruence || lia.
Qed.

Lemma worklist_push_all c l : worklist c l → c_phase c = Idle → worklist (foldl push_new_meta_request c l) [].
Proof.
  revert c. induction l as [|m l IH]; intros c W Hp; simpl; [done|]. apply IH.
  - apply worklist_push_new; [by rewrite Hp|done].
  - unfold push_new_meta_request. by case_match.
Qed.

Lemma count_reverse {A} (p : A → bool) l : count p (reverse l) = count p l.
Proof. apply zsum_perm. by rewrite reverse_Permutation. Qed.

Lemma worklist_begin c c' : c_phase c = Idle → worklist c [] → process_work_begin c = Ok c' → worklist c' [].
Proof.
  intros Hp W. unfold process_work_begin. set (c0 := c <| c_process_work_task_scheduled := _ |> <| c_process_work_task_in_progress := _ |>).
  set (work := c_pending_meta_request_work c0).
  destruct (aws_s3_client_queue_requests_threaded _ _ _) as [c1 n] eqn:Hq.
  assert (worklist c1 (reverse work) ∧ c_phase c1 = Idle) as [W1 Hp1].
  { assert (c_metas c1 = c_metas c ∧ c_meta_requests c1 = c_meta_requests c ∧ c_phase c1 = Idle ∧ c_pending_meta_request_work c1 = [])
      as (Hm & Hmr & Hp1 & Hpe).
    { revert Hq. unfold aws_s3_client_queue_requests_threaded. by case_match; intros [= <- _]. }
    split; [|done]. destruct W as [Hn Hs Hr]. unfold listed in *. rewrite Hp in *.
    split; unfold listed; rewrite ?Hm, ?Hmr, ?Hp1; try done. intros m. rewrite Hpe, count_reverse. unfold work, c0. simpl.
    rewrite Hr, !count_nil. lia. }
  destruct (aws_sub_u32_checked _ _) as [z|]; [|done]. destruct (aws_sub_u32_checked z _) as [z0|]; [|done]. intros <-%Ok_inj.
  set (c2 := c1 <| c_num_requests_being_prepared := z0 |> <| c_num_failed_prepare_requests := 0 |>).
  assert (worklist c2 (reverse work)) as W2 by by destruct W1.
  assert (c_phase c2 = Idle) as Hp2 by done. clearbody c2.
  pose proof (worklist_push_all c2 (reverse work) W2 Hp2) as W3.
  apply (worklist_keys (foldl push_new_meta_request c2 (reverse work))); try done.
  unfold listed. simpl. by rewrite push_new_phase, Hp2.
Qed.

Lemma filter_ne_notin m (l : list nat) : m ∉ l → filter (.≠ m) l = l.
Proof.
  induction l as [|a l IH]; intros Hm; [done|]. apply not_elem_of_cons in Hm as [Ha Hm].
  rewrite filter_cons_True by (simpl; congruence). by rewrite IH.
Qed.

Lemma filter_ne_head m (l : list nat) : NoDup (m :: l) → filter (.≠ m) (m :: l) = l.
Proof.
  intros [Hm _]%list.NoDup_cons. rewrite filter_cons_False by (simpl; auto). by apply filter_ne_notin.
Qed.

Lemma worklist_updated c conservative in_flight streaming remaining m l vips outcome :
  worklist c [] → c_phase c = Updating conservative in_flight streaming remaining → c_meta_requests c = m :: l →
  worklist (update_meta_request cfg mr c conservative in_flight streaming remaining m vips outcome) [].
Proof.
  intros W Hp Hl. pose proof W as [Hn Hs Hr]. unfold listed in Hn, Hs. rewrite Hp, Hl in Hn, Hs. simpl in Hn, Hs.
  assert (filter (.≠ m) (c_meta_requests c) = l) as Hfilter.
  { rewrite Hl. apply filter_ne_head. rewrite app_comm_cons in Hn. by apply list.NoDup_app in Hn as [? _]. }
  assert (∀ b, worklist (c <| c_held_back := b |> <| c_meta_requests ::= filter (.≠ m) |>
    <| c_phase := Updating conservative in_flight streaming (remaining ++ [m]) |>) []) as Haside.
  { intros b. split; unfold listed; simpl; rewrite ?Hfilter.
    - rewrite app_assoc, <-Permutation_cons_append. done.
    - intros m'. rewrite Hs. set_solver.
    - done. }
  unfold update_meta_request. case_match; [apply Haside|]. destruct outcome as [| |r].
  - unfold s_s3_client_remove_meta_request_threaded. apply list.NoDup_cons in Hn as [Hnin Hn].
    split; unfold listed; simpl; rewrite ?Hfilter, ?Hp; simpl; [done|..]; intros m'; unfold insert, fn_insert; case_decide; subst; simpl; try done.
    + rewrite Hs. set_solver.
    + rewrite Hr. assert (mr_scheduled (c_metas c m') = true) as -> by (apply Hs; left). rewrite count_nil. lia.
  - apply (Haside (c_held_back c)).
  - eapply worklist_keys; [exact W|..].
    + destruct (should_stream _); unfold listed; simpl; by rewrite Hp.
    + by destruct (should_stream _).
    + intros m'. destruct (should_stream _); simpl; unfold insert, fn_insert; by case_decide; subst.
Qed.

Lemma worklist_connected c left_over has_result token_fails : worklist c [] → c_phase c = Connecting left_over →
  worklist (update_connection cfg mr c left_over has_result token_fails) [].
Proof.
  intros W Hp. unfold update_connection, aws_s3_client_dequeue_request_threaded.
  destruct (c_request_queue c) as [|r q] eqn:Hq; [done|].
  set (c1 := c <| c_request_queue := q |> <| c_request_queue_size ::= _ |>).
  assert (worklist c1 [] ∧ c_phase c1 = Connecting left_over) as [W1 Hp1] by (by destruct W). clearbody c1.
  destruct (rq_is_noop r); [eapply worklist_fixed; [apply finished_fixed|done]|].
  case_match; [eapply worklist_fixed; [apply finished_fixed|done]|]. case_match.
  - destruct (create_handled cfg mr c1 r token_fails) as (c2 & cn & Hf & _ & _ & _ & _ & Hf2 & _).
    eapply worklist_fixed; [exact Hf2|]. by eapply worklist_fixed.
  - apply (worklist_keys c1); try done. unfold listed. simpl. by rewrite Hp1.
Qed.

Lemma worklist_step c c' : counters cfg mr c [] [] → worklist c [] → client_step cfg mr c c' → worklist c' [].
Proof.
  intros K W [Hs|[Hs|Hs]].
  - destruct Hs as [c' Hp _ Hb|Hp|cons infl str rem m l vips outcome Hp Hl Ho|cons infl str rem Hp Hl|
      lo res tok Hp Hloop|lo Hp Hloop|Hp].
    + by eapply worklist_begin.
    + apply (worklist_keys c); try done. unfold listed. simpl. by rewrite Hp.
    + by eapply worklist_updated.
    + apply (worklist_keys c); try done. unfold listed. simpl. rewrite Hp, Hl, app_nil_r. by destruct cons; simpl; rewrite app_nil_r.
    + by apply worklist_connected.
    + unfold update_connections_end, aws_s3_client_queue_requests_threaded.
      apply (worklist_keys c); [done|..]; unfold listed; destruct lo; simpl; by rewrite ?Hp.
    + apply (worklist_keys c); try done. unfold listed. simpl. by rewrite Hp.
  - destruct Hs as [m| |m n].
    + by apply worklist_pushed.
    + eapply worklist_frame; [apply schedule_frame|done].
    + apply (worklist_keys c); try done. intros m'. simpl. unfold insert, fn_insert. by case_decide; subst.
  - eapply worklist_frame; [by eapply callback_frame|done].
Qed.

(** A list without duplicates counts every element once. *)
Lemma listed_once c : NoDup (listed c) → (∀ m, mr_scheduled (c_metas c m) = true ↔ m ∈ listed c) →
  ∀ m, (if mr_scheduled (c_metas c m) then 1 else 0) = count (is_meta m) (listed c).
Proof.
  intros Hn Hs m.
  assert (∀ l : list nat, NoDup l → count (is_meta m) l = if bool_decide (m ∈ l) then 1 else 0) as Hc.
  { clear. induction 1 as [|a l Ha Hl IH]; [done|]. rewrite count_cons, IH. unfold is_meta.
    repeat case_bool_decide; subst; set_solver || lia. }
  rewrite Hc by done. specialize (Hs m). case_bool_decide as Hin.
  - by rewrite (proj2 Hs).
  - destruct (mr_scheduled (c_metas c m)); [|done]. by destruct Hin; apply Hs.
Qed.
End worklist.
