(* ===== verification/ClientLimits.v ===== *)
(** The limits of the client are respected in every state, and work is not forgotten: as long as
    there is some, the worker will run or something is outstanding that makes it run. *)

From stdpp Require Import functions.
From S2P Require Import Prelude AwsCommon Counting AutoRangedPut ClientConfig Client ClientInv ClientSteps ClientWork.

#[local] Arguments aws_s3_client_get_max_active_connections : simpl never.

(** * The limits are positive *)

Section limits.
Context `{M : !AwsMath} `{ML : !AwsMathLaws M} `{F : !AwsMathDouble}.
Context (cfg : s3_client) (mr : nat → meta_settings).
Implicit Types (c : client) (r : request) (cn : connection) (m : nat).

(** A throughput of disks allows at least one connection, where it is given. *)
Definition disk_connects (fio : file_io_options) : Prop :=
  disk_limited fio = true → 1 ≤ s_get_ideal_connection_number_from_throughput (disk_throughput_gbps fio) ≤ 10000.

(** What holds of the settings of a client that was made with [aws_s3_client_new]. *)
Record settings_ok : Prop := {
  l_ideal : 10 ≤ cl_ideal_connection_count cfg ≤ 10000;
  l_override : uint 32 (cl_max_active_connections_override cfg);
  l_disk : disk_connects (cl_fio_opts cfg);
  l_meta_disk m : disk_connects (mr_fio_opts (mr m));
}.

Context (HL : settings_ok).

Notation client_max := (aws_s3_client_get_max_active_connections cfg None).

Lemma min_u32_bounds a b : 1 ≤ a < 2 ^ 32 → 1 ≤ b ≤ 10000 → 1 ≤ aws_min_u32 a b ≤ 10000.
Proof using ML. intros Ha Hb. rewrite aws_min_u32_spec by (unfold uint; lia). lia. Qed.

Lemma max_bounds meta : (∀ ms o, meta = Some (ms, o) → (∃ m, ms = mr m) ∧ uint 32 o) →
  1 ≤ aws_s3_client_get_max_active_connections cfg meta ≤ 10000.
Proof using ML HL.
  intros Hmeta. pose proof HL as [Hi Ho Hd Hmd]. unfold aws_s3_client_get_max_active_connections.
  set (base := if _ && _ then _ else _). assert (1 ≤ base ≤ 10000) as Hbase.
  { unfold base. destruct (Z.ltb_spec 0 (cl_max_active_connections_override cfg)),
      (Z.ltb_spec (cl_max_active_connections_override cfg) (cl_ideal_connection_count cfg)); simpl; lia. }
  clearbody base.
  assert (∀ n, 1 ≤ n ≤ 10000 → 1 ≤ (if disk_limited (cl_fio_opts cfg) then aws_min_u32
    (s_get_ideal_connection_number_from_throughput (disk_throughput_gbps (cl_fio_opts cfg))) n else n) ≤ 10000) as Hclient.
  { intros n Hn. destruct (disk_limited (cl_fio_opts cfg)) eqn:Hl; [|done]. specialize (Hd Hl). apply min_u32_bounds; lia. }
  destruct meta as [[ms o]|]; [|by apply Hclient]. destruct (Hmeta ms o eq_refl) as [[m ->] Hu].
  set (n := if negb (o =? 0) then _ else _). assert (1 ≤ n ≤ 10000) as Hn.
  { unfold n. destruct (Z.eqb_spec o 0); simpl; [done|]. apply min_u32_bounds; [unfold uint in Hu; lia|done]. }
  clearbody n. destruct (disk_limited (mr_fio_opts (mr m))) eqn:Hl; [|by apply Hclient].
  specialize (Hmd m Hl). apply min_u32_bounds; lia.
Qed.

Lemma client_max_bounds : 1 ≤ client_max ≤ 10000.
Proof using ML HL. by apply max_bounds. Qed.

Lemma max_in_flight_eq : aws_s3_client_get_max_requests_in_flight cfg = client_max * 4.
Proof using ML HL.
  pose proof client_max_bounds. unfold aws_s3_client_get_max_requests_in_flight, s_max_requests_multiplier.
  apply wrap_small. unfold uint. lia.
Qed.

Lemma meta_max_bounds c m : uint 32 (mr_max_active_connections_override (c_metas c m)) → 1 ≤ meta_max cfg mr c m ≤ 10000.
Proof using ML HL. intros Hu. apply max_bounds. intros ms o [= <- <-]. split; [by exists m|done]. Qed.

(** The limit of a meta request that has no limit for disks of its own. *)
Lemma meta_max_plain c m : disk_limited (mr_fio_opts (mr m)) = false →
  uint 32 (mr_max_active_connections_override (c_metas c m)) →
  meta_max cfg mr c m =
    if negb (mr_max_active_connections_override (c_metas c m) =? 0)
    then Z.min (mr_max_active_connections_override (c_metas c m)) client_max else client_max.
Proof using ML HL.
  intros Hd Ho. pose proof (l_ideal HL). pose proof (l_override HL) as Hu. pose proof (l_disk HL) as Hdisk.
  unfold meta_max, aws_s3_client_get_max_active_connections. rewrite Hd.
  set (o := mr_max_active_connections_override _) in *. set (x := if _ && _ then _ else _).
  assert (uint 32 x) by (unfold x, uint in *; change (2 ^ 32) with 4294967296 in *; case_match; lia).
  unfold disk_connects in Hdisk. destruct (disk_limited (cl_fio_opts cfg)).
  2: { case_match; [|done]. by rewrite aws_min_u32_spec. }
  specialize (Hdisk eq_refl). set (d := s_get_ideal_connection_number_from_throughput _) in *.
  assert (uint 32 d) by (unfold uint; change (2 ^ 32) with 4294967296; lia).
  case_match; [|done]. rewrite (aws_min_u32_spec o x), (aws_min_u32_spec d x) by done.
  rewrite aws_min_u32_spec; [lia|done|]. unfold uint in *. lia.
Qed.

Lemma meta_max_key c c' m : meta_key (c_metas c' m) = meta_key (c_metas c m) → meta_max cfg mr c' m = meta_max cfg mr c m.
Proof. unfold meta_key, meta_max. by intros [= _ _ ->]. Qed.

(** The connections of all types together. *)
Lemma network_total c : counters cfg mr c [] [] → s_s3_client_get_num_requests_network_io c None = conns (λ _, true) c.
Proof.
  intros K. unfold s_s3_client_get_num_requests_network_io, meta_request_types. cbn [foldl].
  assert (∀ t, 0 ≤ c_num_requests_network_io c t ∧ c_num_requests_network_io c t = conns (of_type mr t) c) as Hn.
  { intros t. rewrite (k_network K t). unfold connected, conns. rewrite count_nil. count_bounds_in. lia. }
  assert (conns (of_type mr TYPE_DEFAULT) c + conns (of_type mr TYPE_GET_OBJECT) c + conns (of_type mr TYPE_PUT_OBJECT) c
    + conns (of_type mr TYPE_COPY_OBJECT) c = conns (λ _, true) c) as Hsum.
  { unfold conns. induction (c_connections c) as [|cn l IH]; [done|]. rewrite !count_cons, <-IH. unfold of_type.
    destruct (mr_type (mr (rq_meta (cn_request cn)))); repeat case_bool_decide; try congruence; lia. }
  assert (conns (λ _, true) c ≤ 2 ^ 30) as Hb.
  { pose proof (k_held K) as Hh. pose proof (k_failed K). unfold unfinished in Hh. unfold conns. revert Hh. count_bounds_in. lia. }
  pose proof (Hn TYPE_DEFAULT). pose proof (Hn TYPE_GET_OBJECT). pose proof (Hn TYPE_PUT_OBJECT). pose proof (Hn TYPE_COPY_OBJECT).
  repeat match goal with |- context [wrap 32 ?x] =>
    lazymatch x with context [wrap _ _] => fail | _ => rewrite (wrap_small 32 x) by (unfold uint; lia) end end. lia.
Qed.

(** * Bounds *)

(** CreateSession is not limited. *)
Definition limited r : bool := negb (bool_decide (mr_type (mr (rq_meta r)) = TYPE_DEFAULT) && mr_create_session (mr (rq_meta r))).

Definition all_requests (p : request → bool) c : Z := waiting p c + given p c.

Record bounded c : Prop := {
  b_override m : uint 32 (mr_max_active_connections_override (c_metas c m));
  b_conns : conns (λ _, true) c ≤ client_max;
  b_meta m : conns (of_meta m) c ≤ meta_max cfg mr c m;
  b_flight : all_requests limited c ≤ client_max * 4;
  b_prepare : waiting limited c ≤ client_max;
  b_snapshot : match c_phase c with Updating _ in_flight _ _ => all_requests (λ _, true) c ≤ in_flight | _ => True end;
}.

Lemma counts_nonneg p c : 0 ≤ waiting p c ≤ waiting (λ _, true) c ∧ 0 ≤ conns p c ≤ conns (λ _, true) c ∧
  0 ≤ resets p c ≤ resets (λ _, true) c.
Proof.
  unfold waiting, conns, resets. count_bounds_in. pose proof (count_bounds (λ cn, p (cn_request cn)) (c_connections c)).
  pose proof (count_bounds (λ x, p (cn_request x.1)) (c_resetting c)). lia.
Qed.

Lemma bounded_frame c c' : frame c c' → bounded c → bounded c'.
Proof.
  intros [Hp _ _ Hm _ _ Hc Hw Ht _ _] [Bo Bc Bm Bf Bp Bs].
  assert (∀ p, all_requests p c' ≤ all_requests p c) as Ha by (intros p; apply Ht).
  split.
  - intros m. specialize (Bo m). specialize (Hm m). unfold meta_key in Hm. congruence.
  - etrans; [apply Hc|done].
  - intros m. rewrite (meta_max_key c) by done. etrans; [apply Hc|done].
  - etrans; [apply Ha|done].
  - etrans; [apply Hw|done].
  - rewrite Hp. destruct (c_phase c); try done. etrans; [apply Ha|done].
Qed.

(** Requests move between the lists of requests without connection, and the phase has no snapshot. *)
Lemma bounded_moved c c' : bounded c →
  (∀ m, mr_max_active_connections_override (c_metas c' m) = mr_max_active_connections_override (c_metas c m)) →
  (∀ p, conns p c' = conns p c) → (∀ p, resets p c' = resets p c) → (∀ p, waiting p c' = waiting p c) →
  match c_phase c' with Updating _ in_flight _ _ => all_requests (λ _, true) c ≤ in_flight | _ => True end →
  bounded c'.
Proof.
  intros [Bo Bc Bm Bf Bp Bs] Hm Hc Hr Hw Hs. unfold all_requests, given in *. split; unfold all_requests, given; rewrite ?Hc, ?Hr, ?Hw; try done.
  - intros m. rewrite Hm. apply Bo.
  - intros m. rewrite Hc. unfold meta_max. rewrite Hm. apply Bm.
Qed.

Lemma bounded_begin c c' : c_phase c = Idle → bounded c → process_work_begin c = Ok c' → bounded c'.
Proof.
  intros Hp Hb [Sp _ Spr Sq Spg Sc Sr _ _ _ _ _ _ So]%begin_spec. apply (bounded_moved c); [done|done|..].
  - intros p. unfold conns. by rewrite Sc.
  - intros p. unfold resets. by rewrite Sr.
  - intros p. unfold waiting. rewrite Spg, Spr, Sq, Sp, Hp, count_app. simpl. rewrite ?count_nil. lia.
  - by rewrite Sp.
Qed.

Lemma unfinished_all p c : unfinished p c [] [] = all_requests p c.
Proof. unfold unfinished, all_requests, waiting, given, conns, resets. rewrite !count_nil. lia. Qed.

Lemma all_requests_small c : counters cfg mr c [] [] → 0 ≤ all_requests (λ _, true) c ≤ 2 ^ 30.
Proof.
  intros K. pose proof (k_held K) as Hh. rewrite unfinished_all in Hh. pose proof (k_failed K).
  pose proof (count_bounds (λ _, true) (c_failing c)). pose proof (counts_nonneg (λ _, true) c). unfold all_requests, given in *. lia.
Qed.

(** A new request is made only below the limits, unless it is for CreateSession. *)
Lemma should_update_limits c m in_flight streaming vips : counters cfg mr c [] [] →
  left_over_requests (c_phase c) = [] → 0 ≤ streaming ≤ 2 ^ 30 →
  s_s3_client_should_update_meta_request cfg mr c m in_flight streaming (aws_s3_client_get_max_requests_in_flight cfg)
    (aws_s3_client_get_max_requests_prepare cfg) vips = true →
  bool_decide (mr_type (mr m) = TYPE_DEFAULT) && mr_create_session (mr m) = true ∨
  waiting (λ _, true) c < client_max ∧ in_flight < client_max * 4.
Proof using ML HL.
  intros K Hlo Hstr. unfold s_s3_client_should_update_meta_request.
  destruct (_ && mr_create_session (mr m)); [by left|]. intros Hu. right. revert Hu.
  rewrite max_in_flight_eq. unfold aws_s3_client_get_max_requests_prepare.
  pose proof (k_held K) as Hh. pose proof (k_queue K) as Hq. pose proof (k_being K) as Hb. pose proof (k_failed K) as Hf.
  unfold unfinished in Hh. unfold waiting. rewrite Hlo in *. revert Hh. rewrite !count_nil.
  pose proof (count_bounds (λ _, true) (c_failing c)). count_bounds_in. intros Hh.
  rewrite (wrap_small 32 (c_num_requests_being_prepared c + c_request_queue_size c)) by (unfold uint; lia).
  rewrite (wrap_small 32 (_ + streaming)) by (unfold uint; lia).
  destruct (Z.leb_spec client_max (c_num_requests_being_prepared c + c_request_queue_size c + streaming)); [done|].
  destruct (Z.leb_spec (client_max * 4) in_flight); [done|]. lia.
Qed.

Lemma bounded_new c r c' : bounded c →
  bool_decide (mr_type (mr (rq_meta r)) = TYPE_DEFAULT) && mr_create_session (mr (rq_meta r)) = true ∨
    waiting (λ _, true) c < client_max ∧ all_requests (λ _, true) c < client_max * 4 →
  (∀ m, mr_max_active_connections_override (c_metas c' m) = mr_max_active_connections_override (c_metas c m)) →
  c_connections c' = c_connections c → c_resetting c' = c_resetting c →
  (∀ p, waiting p c' = waiting p c + (if p r then 1 else 0)) →
  match c_phase c' with Updating _ in_flight _ _ => all_requests (λ _, true) c + 1 ≤ in_flight | _ => True end →
  bounded c'.
Proof.
  intros [Bo Bc Bm Bf Bp _] Hlim Hm Hc Hrs Hw Hs.
  assert (∀ p, conns p c' = conns p c) as Hcs by (intros p; unfold conns; by rewrite Hc).
  assert (∀ p, resets p c' = resets p c) as Hre by (intros p; unfold resets; by rewrite Hrs).
  pose proof (counts_nonneg limited c) as Hn. unfold all_requests, given in *.
  assert (limited r = true → waiting (λ _, true) c < client_max ∧
    waiting (λ _, true) c + (conns (λ _, true) c + resets (λ _, true) c) < client_max * 4) as Hr.
  { unfold limited. intros Hr. destruct Hlim as [Hlim|]; [by rewrite Hlim in Hr|done]. }
  split; unfold all_requests, given; rewrite ?Hcs, ?Hre, ?Hw; try done.
  - intros m. rewrite Hm. apply Bo.
  - intros m. rewrite Hcs. unfold meta_max. rewrite Hm. apply Bm.
  - destruct (limited r); [destruct (Hr eq_refl)|]; lia.
  - destruct (limited r); [destruct (Hr eq_refl)|]; lia.
  - destruct (c_phase c'); try done. lia.
Qed.

Lemma bounded_updated c conservative in_flight streaming remaining m l vips outcome :
  counters cfg mr c [] [] → bounded c → 0 ≤ streaming ≤ 2 ^ 30 →
  c_phase c = Updating conservative in_flight streaming remaining → c_meta_requests c = m :: l →
  (∀ r, outcome = NewRequest r → rq_meta r = m ∧ held c < 2 ^ 30) →
  bounded (update_meta_request cfg mr c conservative in_flight streaming remaining m vips outcome).
Proof using ML HL.
  intros K Hb Hstr Hp Hl Ho. pose proof (b_snapshot _ Hb) as Hsnap. rewrite Hp in Hsnap. simpl in Hsnap.
  unfold update_meta_request. destruct (s_s3_client_should_update_meta_request _ _ _ _ _ _ _ _ _) eqn:Hu; simpl.
  2: { apply (bounded_moved c); try done. intros p. unfold waiting. simpl. by rewrite Hp. }
  apply should_update_limits in Hu; [|done|by rewrite Hp|done]. destruct outcome as [| |r].
  - unfold s_s3_client_remove_meta_request_threaded. apply (bounded_moved c); try done.
    + intros m'. simpl. unfold insert, fn_insert. by destruct (decide (m = m')) as [->|].
    + by simpl; rewrite Hp.
  - apply (bounded_moved c); try done. intros p. unfold waiting. simpl. by rewrite Hp.
  - destruct (Ho r eq_refl) as [Hr Hheld]. eapply (bounded_new c (r <| rq_tracked_by_client := true |>)); [done|..].
    + simpl. rewrite Hr. destruct Hu as [Hu|[Hu1 Hu2]]; [by left|right; lia].
    + destruct (should_stream _); simpl; intros m'; unfold insert, fn_insert; by destruct (decide (m = m')) as [->|].
    + by destruct (should_stream _).
    + by destruct (should_stream _).
    + intros p. unfold waiting. rewrite Hp. destruct (should_stream _); simpl; rewrite count_app, count_cons, ?count_nil; lia.
    + assert (c_num_requests_in_flight c = all_requests (λ _, true) c) as Hf by (rewrite (k_flight K); apply unfinished_all).
      pose proof (all_requests_small c K).
      assert (wrap 32 (c_num_requests_in_flight c +[64] 1) = all_requests (λ _, true) c + 1) as Hw.
      { rewrite Hf, (wrap_small 64), wrap_small by (unfold uint; lia). done. }
      destruct (should_stream _); simpl; rewrite Hw; lia.
Qed.

(** What a round of the loop over queued requests does with a request. *)
Inductive connect_outcome c (left_over : list request) r (q : list request) c' : Prop :=
| connect_finished :
    fixed (c <| c_request_queue := q |>) c' → c_connections c' = c_connections c → c_resetting c' = c_resetting c →
    c_process_work_task_scheduled c' = true → connect_outcome c left_over r q c'
| connect_added cn :
    fixed (c <| c_request_queue := q |>) c' →
    wrap 32 (mr_num_requests_network (c_metas c (rq_meta r))) < meta_max cfg mr c (rq_meta r) →
    cn_request cn = r → c_connections c' = c_connections c ++ [cn] → c_resetting c' = c_resetting c →
    c_process_work_task_scheduled c' = c_process_work_task_scheduled c → connect_outcome c left_over r q c'
| connect_given_up cn e :
    fixed (c <| c_request_queue := q |>) c' → cn_request cn = r →
    c_connections c' = c_connections c → c_resetting c' = c_resetting c ++ [(cn, e)] →
    c_process_work_task_scheduled c' = c_process_work_task_scheduled c → connect_outcome c left_over r q c'
| connect_left_over :
    fixed (c <| c_request_queue := q |> <| c_phase := Connecting (left_over ++ [r]) |>) c' →
    meta_max cfg mr c (rq_meta r) ≤ wrap 32 (mr_num_requests_network (c_metas c (rq_meta r))) →
    c_connections c' = c_connections c → c_resetting c' = c_resetting c →
    c_process_work_task_scheduled c' = c_process_work_task_scheduled c → connect_outcome c left_over r q c'.

Lemma connected_spec c left_over has_result token_fails r q :
  c_request_queue c = r :: q → rq_tracked_by_client r = true →
  connect_outcome c left_over r q (update_connection cfg mr c left_over has_result token_fails).
Proof.
  intros Hq Ht. unfold update_connection, aws_s3_client_dequeue_request_threaded. rewrite Hq.
  set (c1 := c <| c_request_queue := q |> <| c_request_queue_size ::= _ |>).
  assert (fixed (c <| c_request_queue := q |>) c1) as H1 by done.
  assert (∀ e, connect_outcome c left_over r q (s_s3_client_meta_request_finished_request mr c1 r e)) as Hfin.
  { intros e. destruct (finished_fixed mr c1 r e) as (Hf & Hc & Hs & _ & _ & Hr). apply connect_finished; [by trans c1|done|done|auto]. }
  destruct (rq_is_noop r); [apply Hfin|]. case_match; [apply Hfin|].
  destruct (Z.ltb_spec (wrap 32 (mr_num_requests_network (c_metas c1 (rq_meta r)))) (meta_max cfg mr c1 (rq_meta r))) as [Hlt|Hge].
  - destruct (create_handled cfg mr c1 r token_fails) as (c2 & cn & Hf & Hr & Hc & Hre & Hs & Hf2 & Hs2 & Ho).
    assert (fixed (c <| c_request_queue := q |>) (s_s3_client_create_connection_for_request_default cfg mr c1 r token_fails)) as Hfix
      by (trans c1; [done|]; by trans c2).
    destruct Ho as [(cn' & Hr' & Hc' & Hre')|(cn' & e & Hr' & Hc' & Hre')].
    + eapply connect_added; [done|done|by rewrite Hr'|by rewrite Hc', Hc|by rewrite Hre'|by rewrite Hs2, Hs].
    + eapply connect_given_up; [done|by rewrite Hr'|by rewrite Hc', Hc|by rewrite Hre', Hre|by rewrite Hs2, Hs].
  - by apply connect_left_over.
Qed.

Lemma queue_tracked c r q : counters cfg mr c [] [] → c_request_queue c = r :: q → rq_tracked_by_client r = true.
Proof.
  intros K Hq. destruct (rq_tracked_by_client r) eqn:Ht; [done|]. pose proof (k_tracked K) as Kt. unfold unfinished in Kt.
  rewrite Hq, count_cons, Ht in Kt. simpl in Kt. revert Kt. count_bounds_in. lia.
Qed.

Lemma meta_network c m : counters cfg mr c [] [] →
  wrap 32 (mr_num_requests_network (c_metas c m)) = conns (of_meta m) c.
Proof.
  intros K. pose proof (all_requests_small c K). pose proof (counts_nonneg (of_meta m) c).
  pose proof (counts_nonneg (λ _, true) c). unfold all_requests, given in *.
  rewrite (k_meta_network K m). unfold connected. rewrite count_nil, Z.add_0_r. fold (conns (of_meta m) c).
  apply wrap_small. unfold uint. lia.
Qed.

Lemma bounded_connected c left_over has_result token_fails : counters cfg mr c [] [] → bounded c →
  c_phase c = Connecting left_over → connections_loop cfg c = true →
  bounded (update_connection cfg mr c left_over has_result token_fails).
Proof.
  intros K Hb Hp Hloop. unfold connections_loop in Hloop.
  apply andb_true_iff in Hloop as [Hn%Z.ltb_lt Hq%negb_true_iff%bool_decide_eq_false].
  rewrite (network_total _ K) in Hn. destruct (c_request_queue c) as [|r q] eqn:Hrq; [done|].
  pose proof (queue_tracked _ _ _ K Hrq) as Ht. pose proof Hb as [Bo Bc Bm Bf Bp _].
  assert (∀ p ph c', c_phase c' = ph → c_preparing c' = c_preparing c → c_prepared_requests c' = c_prepared_requests c →
    c_request_queue c' = q → waiting p c' = waiting p c - (if p r then 1 else 0)
      - count p left_over + count p (left_over_requests ph)) as Hw.
  { intros p ph c' Hph Hpr Hpd Hqu. unfold waiting. rewrite Hph, Hpr, Hpd, Hqu, Hrq, Hp, count_cons. simpl. lia. }
  assert (∀ p, p r = true → 1 ≤ waiting p c) as H1.
  { intros p Hpr. unfold waiting. rewrite Hrq, count_cons, Hpr. count_bounds_in. lia. }
  destruct (connected_spec c left_over has_result token_fails r q Hrq Ht) as
    [[Xp _ _ Xm Xpr Xpd Xq _ _ _ _] Xc Xr _|cn [Xp _ _ Xm Xpr Xpd Xq _ _ _ _] Hlt Hr Xc Xr _|
     cn e [Xp _ _ Xm Xpr Xpd Xq _ _ _ _] Hr Xc Xr _|[Xp _ _ Xm Xpr Xpd Xq _ _ _ _] _ Xc Xr _];
    set (c' := update_connection _ _ _ _ _ _) in *; simpl in *;
    pose proof (λ p, Hw p _ c' Xp Xpr Xpd Xq) as Hw'; rewrite ?Hp in Hw'; cbn [left_over_requests] in Hw'.
  all: assert (∀ m, mr_max_active_connections_override (c_metas c' m) = mr_max_active_connections_override (c_metas c m)) as Xo
    by (intros m; specialize (Xm m); unfold meta_key in Xm; congruence).
  all: assert (∀ c0, c_resetting c' = c_resetting c0 → ∀ p, resets p c' = resets p c0) as Hres by (unfold resets; by intros c0 ->).
  - assert (∀ p, conns p c' = conns p c) as Hc by (intros p; unfold conns; by rewrite Xc).
    pose proof (Hw' limited). split; unfold all_requests, given in *; rewrite ?Hc, ?(Hres c Xr); try done.
    + intros m. rewrite Xo. apply Bo.
    + intros m. rewrite Hc. unfold meta_max. rewrite Xo. apply Bm.
    + destruct (limited r); lia.
    + destruct (limited r); lia.
    + by rewrite Xp, Hp.
  - assert (∀ p, conns p c' = conns p c + (if p r then 1 else 0)) as Hc.
    { intros p. unfold conns. rewrite Xc, count_app, count_cons, count_nil, Hr. lia. }
    rewrite meta_network in Hlt by done.
    pose proof (Hw' limited). split; unfold all_requests, given in *; rewrite ?Hc, ?(Hres c Xr); try done.
    + intros m. rewrite Xo. apply Bo.
    + lia.
    + intros m. rewrite Hc. unfold meta_max. rewrite Xo. fold (meta_max cfg mr c m). specialize (Bm m).
      unfold of_meta at 2. case_bool_decide as Hm; [subst m; lia|lia].
    + destruct (limited r); lia.
    + destruct (limited r); lia.
    + by rewrite Xp, Hp.
  - assert (∀ p, conns p c' = conns p c) as Hc by (intros p; unfold conns; by rewrite Xc).
    assert (∀ p, resets p c' = resets p c + (if p r then 1 else 0)) as Hre.
    { intros p. unfold resets. rewrite Xr, count_app, count_cons, count_nil. simpl. rewrite Hr. lia. }
    pose proof (Hw' limited). split; unfold all_requests, given in *; rewrite ?Hc, ?Hre; try done.
    + intros m. rewrite Xo. apply Bo.
    + intros m. rewrite Hc. unfold meta_max. rewrite Xo. apply Bm.
    + destruct (limited r); lia.
    + destruct (limited r); lia.
    + by rewrite Xp, Hp.
  - assert (∀ p, conns p c' = conns p c) as Hc by (intros p; unfold conns; by rewrite Xc).
    apply (bounded_moved c); [done..|by apply Hres| |by rewrite Xp]. intros p. rewrite Hw', count_app, count_cons, count_nil. lia.
Qed.

Definition streaming_ok c : Prop :=
  match c_phase c with Updating _ _ streaming _ => 0 ≤ streaming ≤ 2 ^ 30 | _ => True end.

Lemma snapshots c : counters cfg mr c [] [] →
  wrap 32 (c_num_requests_in_flight c) = all_requests (λ _, true) c ∧
  wrap 32 (c_num_requests_streaming_request_body c) = all_requests (streams mr) c ∧
  0 ≤ all_requests (streams mr) c ≤ all_requests (λ _, true) c.
Proof.
  intros K. pose proof (all_requests_small c K). pose proof (counts_nonneg (streams mr) c). unfold all_requests, given in *.
  rewrite (k_flight K), (k_streaming K), !unfinished_all. unfold all_requests, given.
  rewrite !wrap_small by (unfold uint; lia). split_and!; lia.
Qed.

Lemma bounded_worker c c' : counters cfg mr c [] [] → streaming_ok c → bounded c → worker_step cfg mr c c' →
  bounded c' ∧ streaming_ok c'.
Proof using ML HL.
  intros K S Hb Hs. unfold streaming_ok in *.
  destruct Hs as [c' Hp _ Hc|Hp|cons infl str rem m l vips outcome Hp Hl Ho|cons infl str rem Hp Hl|
    lo res tok Hp Hloop|lo Hp Hloop|Hp].
  - pose proof (begin_spec _ _ Hc) as Hg. split; [by eapply bounded_begin|]. by rewrite (g_phase _ _ Hg).
  - destruct (snapshots c K) as (H1 & H2 & H3). pose proof (all_requests_small c K). unfold update_begin. rewrite H1, H2.
    split; [|simpl; lia]. apply (bounded_moved c); try done; [|simpl; lia]. intros p. unfold waiting. simpl. by rewrite Hp.
  - rewrite Hp in S. split.
    + eapply bounded_updated; try done. intros r Hr. destruct (Ho r Hr) as (? & _ & _ & ?). done.
    + unfold update_meta_request. destruct (s_s3_client_should_update_meta_request _ _ _ _ _ _ _ _ _); simpl; [|done].
      destruct outcome; simpl; [by rewrite Hp|done|done].
  - rewrite Hp in S. pose proof (b_snapshot _ Hb) as Hsnap. rewrite Hp in Hsnap. split; [|by destruct cons].
    apply (bounded_moved c); try done; [|by destruct cons]. intros p. unfold waiting. simpl. rewrite Hp. by destruct cons.
  - split; [by apply bounded_connected|].
    unfold connections_loop in Hloop. apply andb_true_iff in Hloop as [_ Hq%negb_true_iff%bool_decide_eq_false].
    destruct (c_request_queue c) as [|r q] eqn:Hrq; [done|]. pose proof (queue_tracked _ _ _ K Hrq) as Ht.
    destruct (connected_spec c lo res tok r q Hrq Ht) as [[-> _] |cn [-> _] |cn e [-> _] |[-> _]]; simpl; by rewrite ?Hp.
  - unfold update_connections_end. split; [|by destruct lo].
    apply (bounded_moved c); [done|by destruct lo..| |by destruct lo].
    intros p. unfold waiting. rewrite Hp. destruct lo; simpl; rewrite ?count_app, ?count_cons, ?count_nil; lia.
  - split; [|done]. apply (bounded_moved c); try done. intros p. unfold waiting. simpl. by rewrite Hp.
Qed.

Lemma bounded_step c c' : counters cfg mr c [] [] → streaming_ok c → bounded c → client_step cfg mr c c' →
  bounded c' ∧ streaming_ok c'.
Proof using ML HL.
  intros K S Hb [Hs|[Hs|Hs]]; [by eapply bounded_worker|..].
  - destruct Hs as [m| |m n Hn Hm].
    + split.
      * eapply bounded_frame; [apply schedule_frame|]. apply (bounded_moved c); try done; [|apply Hb].
        intros m'. simpl. unfold insert, fn_insert. by destruct (decide (m = m')) as [->|].
      * unfold streaming_ok. by rewrite (f_phase _ _ (schedule_frame _)).
    + split; [by eapply bounded_frame; [apply schedule_frame|]|]. unfold streaming_ok. by rewrite (f_phase _ _ (schedule_frame _)).
    + split; [|done]. destruct Hb as [Bo Bc Bm Bf Bp Bs]. split; try done; intros m'; simpl.
      * unfold insert, fn_insert. destruct (decide (m = m')) as [->|]; simpl; [unfold uint; lia|apply Bo].
      * change (conns (of_meta m') c ≤ meta_max cfg mr
          (on_meta m (λ d, d <| mr_max_active_connections_override := n |>) c) m').
        destruct (decide (m = m')) as [->|Hne].
        -- pose proof (k_meta_network K m') as Kn. unfold connected in Kn. rewrite count_nil, Hm in Kn.
           assert (conns (of_meta m') c = 0) as -> by (unfold conns; lia).
           enough (1 ≤ meta_max cfg mr (on_meta m' (λ d, d <| mr_max_active_connections_override := n |>) c) m' ≤ 10000) by lia.
           apply meta_max_bounds. simpl. unfold insert, fn_insert. rewrite decide_True by done. simpl. unfold uint. lia.
        -- rewrite (meta_max_key c); [apply Bm|]. simpl. unfold insert, fn_insert. by rewrite decide_False.
  - pose proof (callback_frame _ _ _ _ K Hs) as Hf. split; [by eapply bounded_frame|].
    unfold streaming_ok. by rewrite (f_phase _ _ Hf).
Qed.
End limits.
