(* ===== verification/ClientLive.v ===== *)
(** Work is not forgotten (Client.v): when the worker is idle and not scheduled, nothing waits
    for it, and whatever is left waits for a callback that schedules it. *)

From stdpp Require Import functions.
From S2P Require Import Prelude AwsCommon Counting AutoRangedPut ClientConfig Client ClientInv ClientSteps ClientWork ClientLimits.

#[local] Arguments aws_s3_client_get_max_active_connections : simpl never.

Section live.
Context `{M : !AwsMath} `{ML : !AwsMathLaws M} `{F : !AwsMathDouble}.
Context (cfg : s3_client) (mr : nat → meta_settings) (HL : settings_ok cfg mr).
Implicit Types (c : client) (r : request) (cn : connection) (m : nat).

Notation total := (all_requests (λ _, true)).
Notation scheduled := c_process_work_task_scheduled.

(** Something is outstanding, or the worker will run. *)
Definition busy c : Prop := 0 < total c ∨ c_failing c ≠ [] ∨ scheduled c = true.
Definition connecting c : Prop := (c_connections c ≠ [] ∨ c_resetting c ≠ []) ∨ scheduled c = true.

Record live c : Prop := {
  v_pending : c_pending_meta_request_work c ≠ [] → scheduled c = true;
  v_prepared : c_prepared_requests c ≠ [] → scheduled c = true;
  v_failed : 0 < c_num_failed_prepare_requests c → scheduled c = true;
  v_phase : match c_phase c with
    | Idle | Finishing => c_request_queue c ≠ [] → connecting c
    | Connecting left_over => left_over ≠ [] → connecting c
    | Updating _ in_flight streaming _ => 0 < in_flight ∨ 0 < streaming → busy c
    | Begun => True
    end;
  v_held_back : c_held_back c = true → busy c;
}.

(** Once the worker is scheduled, nothing more is needed. *)
Lemma live_scheduled c : scheduled c = true → live c.
Proof. intros Hs. split; try done; [|by right; right]. by destruct (c_phase c); [right|..|right; right|right|right]. Qed.

Lemma connections_pos c : 0 < given (λ _, true) c ↔ c_connections c ≠ [] ∨ c_resetting c ≠ [].
Proof.
  unfold given, conns, resets. rewrite !count_size. destruct (c_connections c), (c_resetting c); simpl; split; naive_solver lia.
Qed.

Lemma live_frame c c' : frame c c' → live c → live c'.
Proof.
  intros [Hp Hm Hpe _ Hh _ _ _ _ Hs Hb] Hv. destruct (scheduled c') eqn:Hs'; [by apply live_scheduled|].
  destruct Hb as [|(Hc & Hpr & Hf & Hpd & Hq & Hfd)]; [congruence|].
  assert (scheduled c = false) as Hs0 by (destruct (scheduled c); [by specialize (Hs eq_refl)|done]).
  assert (busy c → busy c') as Hbusy.
  { unfold busy, all_requests, waiting. rewrite Hp, Hpr, Hpd, Hq, Hf, Hc, Hs', Hs0. done. }
  assert (connecting c → connecting c') as Hconn.
  { unfold connecting. rewrite <-!connections_pos, Hc, Hs', Hs0. done. }
  destruct Hv as [Vpe Vpr Vf Vp Vh]. rewrite Hs0 in *.
  split; rewrite ?Hpe, ?Hpd, ?Hfd, ?Hh, ?Hp, ?Hq; try done; [by rewrite Hs'..| |by auto].
  destruct (c_phase c); auto.
Qed.

Lemma waiting_pos c : 0 ≤ waiting (λ _, true) c ∧ 0 ≤ given (λ _, true) c.
Proof. pose proof (counts_nonneg (λ _, true) c). unfold given. lia. Qed.

(** A meta request is put aside only when there is work that will end. *)
Lemma held_back_busy c conservative in_flight streaming remaining m vips : counters cfg mr c [] [] →
  bounded cfg mr c → streaming_ok c → live c →
  c_phase c = Updating conservative in_flight streaming remaining →
  s_s3_client_should_update_meta_request cfg mr c m in_flight streaming (aws_s3_client_get_max_requests_in_flight cfg)
    (aws_s3_client_get_max_requests_prepare cfg) vips = false →
  busy c.
Proof using ML HL.
  intros K Hb S Hv Hp Hu. pose proof (v_phase _ Hv) as Hsnap. rewrite Hp in Hsnap. unfold streaming_ok in S. rewrite Hp in S.
  pose proof (k_held K) as Hh. pose proof (k_queue K) as Hq. pose proof (k_being K) as Hbe. pose proof (k_failed K) as Hf.
  pose proof (count_bounds (λ _, true) (c_failing c)). pose proof (client_max_bounds cfg mr HL).
  assert (0 < c_num_requests_being_prepared c + c_request_queue_size c → busy c) as Hpos.
  { intros Hpos. destruct (decide (0 < c_num_failed_prepare_requests c)); [right; right; by apply (v_failed _ Hv)|].
    destruct (decide (c_failing c = [])) as [He|]; [|by right; left]. left. unfold all_requests, waiting. rewrite He, count_nil in *.
    pose proof (waiting_pos c). revert Hbe Hq. count_bounds_in. intros Hbe Hq. lia. }
  revert Hu. unfold s_s3_client_should_update_meta_request. rewrite (max_in_flight_eq cfg mr HL).
  unfold aws_s3_client_get_max_requests_prepare. destruct (_ && mr_create_session (mr m)); [done|].
  assert (0 ≤ c_num_requests_being_prepared c + c_request_queue_size c ≤ 2 ^ 30) as Hsmall.
  { unfold unfinished in Hh. revert Hh. rewrite !count_nil. count_bounds_in. intros Hh. lia. }
  rewrite (wrap_small 32 (c_num_requests_being_prepared c + c_request_queue_size c)) by (unfold uint; lia).
  rewrite (wrap_small 32 (_ + streaming)) by (unfold uint; lia).
  destruct (Z.leb_spec (aws_s3_client_get_max_active_connections cfg None)
    (c_num_requests_being_prepared c + c_request_queue_size c + streaming)).
  { intros _. destruct (decide (0 < streaming)); [by apply Hsnap; right|apply Hpos; lia]. }
  destruct (Z.leb_spec (aws_s3_client_get_max_active_connections cfg None * 4) in_flight); [intros _; apply Hsnap; left; lia|].
  destruct (Z.leb_spec g_min_num_connections (c_num_requests_being_prepared c + c_request_queue_size c)) as [Hg|];
    [intros _; apply Hpos; unfold g_min_num_connections in Hg; lia|]. rewrite andb_false_r.
  pose proof (meta_max_bounds cfg mr HL c m (b_override _ _ _ Hb m)).
  destruct (Z.leb_spec (meta_max cfg mr c m) (mr_num_being_prepared (c_metas c m))) as [Hm|]; [|done].
  intros _. rewrite (k_meta_prepared K m) in Hm.
  destruct (decide (c_failing c = [])) as [He|]; [|by right; left]. left. rewrite He, count_nil in Hm.
  unfold all_requests, waiting. pose proof (waiting_pos c). pose proof (count_bounds (of_meta m) (c_preparing c)).
  count_bounds_in. lia.
Qed.

Lemma live_updated c conservative in_flight streaming remaining m l vips outcome : counters cfg mr c [] [] →
  bounded cfg mr c → streaming_ok c → live c →
  c_phase c = Updating conservative in_flight streaming remaining → c_meta_requests c = m :: l →
  live (update_meta_request cfg mr c conservative in_flight streaming remaining m vips outcome).
Proof using ML HL.
  intros K Hb S Hv Hp Hl. pose proof (held_back_busy c conservative in_flight streaming remaining m vips K Hb S Hv Hp) as Hheld.
  pose proof Hv as [Vpe Vpr Vf Vp Vh]. rewrite Hp in Vp.
  assert (∀ b ph, left_over_requests ph = [] → busy c → busy (c <| c_held_back := b |> <| c_meta_requests ::= filter (.≠ m) |> <| c_phase := ph |>)) as Hbusy.
  { intros b ph Hph. unfold busy, all_requests, waiting. rewrite Hp. simpl. by rewrite Hph. }
  unfold update_meta_request. destruct (s_s3_client_should_update_meta_request _ _ _ _ _ _ _ _ _); simpl.
  2: { specialize (Hheld eq_refl). split; try done; intros _; by apply Hbusy. }
  destruct outcome as [| |r].
  - unfold s_s3_client_remove_meta_request_threaded. split; try done. match goal with |- context [c_phase ?x] => change (c_phase x) with (c_phase c) end. rewrite Hp. exact Vp.
  - split; try done; simpl; intros Hx; apply (Hbusy (c_held_back c)); auto.
  - assert (∀ c', c_preparing c' = c_preparing c ++ [r <| rq_tracked_by_client := true |>] →
      left_over_requests (c_phase c') = [] → busy c') as Hnew.
    { intros c' Hpr Hlo. left. unfold all_requests, waiting. pose proof (waiting_pos c'). rewrite Hpr, Hlo, count_app, count_cons, !count_nil.
      count_bounds_in. lia. }
    split; simpl; try done; try (by destruct (should_stream _)).
    all: intros _; apply Hnew; by destruct (should_stream _).
Qed.

Lemma live_connected c left_over has_result token_fails : counters cfg mr c [] [] → bounded cfg mr c → live c →
  c_phase c = Connecting left_over → connections_loop cfg c = true →
  live (update_connection cfg mr c left_over has_result token_fails).
Proof using ML HL.
  intros K Hb Hv Hp Hloop. unfold connections_loop in Hloop.
  apply andb_true_iff in Hloop as [_ Hq%negb_true_iff%bool_decide_eq_false].
  destruct (c_request_queue c) as [|r q] eqn:Hrq; [done|].
  pose proof (queue_tracked _ _ _ _ _ K Hrq) as Ht. pose proof Hv as [Vpe Vpr Vf Vp Vh]. rewrite Hp in Vp.
  destruct (connected_spec cfg mr c left_over has_result token_fails r q Hrq Ht) as
    [_ _ _ Hs|cn [Xp _ Xpe _ Xpr Xpd Xq Xf Xfd Xh _] _ _ Xc Xr Xs|cn e [Xp _ Xpe _ Xpr Xpd Xq Xf Xfd Xh _] _ Xc Xr Xs|
     [Xp _ Xpe _ Xpr Xpd Xq Xf Xfd Xh _] Hge Xc Xr Xs];
    set (c' := update_connection _ _ _ _ _ _) in *; simpl in *; [by apply live_scheduled|..].
  all: split; rewrite ?Xpe, ?Xpd, ?Xfd, ?Xs, ?Xp, ?Hp; try done; simpl.
  - intros _. left. left. rewrite Xc. by destruct (c_connections c).
  - intros _. left. unfold all_requests. pose proof (waiting_pos c').
    enough (0 < given (λ _, true) c') by lia. apply connections_pos. left. rewrite Xc. by destruct (c_connections c).
  - intros _. left. right. rewrite Xr. by destruct (c_resetting c).
  - intros _. left. unfold all_requests. pose proof (waiting_pos c').
    enough (0 < given (λ _, true) c') by lia. apply connections_pos. right. rewrite Xr. by destruct (c_resetting c).
  - intros _. left. rewrite Xc, Xr. apply connections_pos. unfold given. rewrite (meta_network cfg mr) in Hge by done.
    pose proof (meta_max_bounds cfg mr HL c (rq_meta r) (b_override _ _ _ Hb _)).
    pose proof (counts_nonneg (of_meta (rq_meta r)) c). lia.
  - intros _. left. unfold all_requests. pose proof (waiting_pos c').
    enough (0 < waiting (λ _, true) c') by lia. unfold waiting. rewrite Xp. simpl. rewrite count_app, count_cons, !count_nil.
    count_bounds_in. lia.
Qed.

Lemma live_worker c c' : counters cfg mr c [] [] → bounded cfg mr c → streaming_ok c → live c →
  worker_step cfg mr c c' → live c'.
Proof using ML HL.
  intros K Hb S Hv Hs. pose proof Hv as [Vpe Vpr Vf Vp Vh].
  destruct Hs as [c' Hp _ Hc|Hp|cons infl str rem m l vips outcome Hp Hl Ho|cons infl str rem Hp Hl|
    lo res tok Hp Hloop|lo Hp Hloop|Hp]; rewrite Hp in Vp.
  - apply begin_spec in Hc as [Gp Gpe Gpr Gq Gpg Gc Gre Gf Gfd Gs Gh _ _ _]. by split; rewrite ?Gpe, ?Gpr, ?Gfd, ?Gp, ?Gh.
  - destruct (snapshots cfg mr c K) as (H1 & H2 & H3).
    assert (0 < total c → busy (update_begin c)) as Hpos.
    { intros Hpos. left. revert Hpos. unfold all_requests, waiting. simpl. by rewrite Hp. }
    split; try done; simpl.
    + rewrite H1, H2. intros ?. apply Hpos. lia.
    + intros Hh. specialize (Vh Hh). revert Vh. unfold busy, all_requests, waiting. simpl. by rewrite Hp.
  - by eapply live_updated.
  - assert (∀ ph, left_over_requests ph = [] → busy c → busy (c <| c_meta_requests ::= λ l, rem ++ l |> <| c_phase := ph |>)) as Hbusy.
    { intros ph Hph. unfold busy, all_requests, waiting. rewrite Hp. simpl. by rewrite Hph. }
    unfold update_pass_end. split; try done; simpl.
    + destruct cons; simpl; [|done]. intros Hx. apply Hbusy; auto.
    + intros Hx. apply Hbusy; [by destruct cons|auto].
  - by apply live_connected.
  - assert (c_request_queue c ≠ [] → connecting c) as Hqueue.
    { intros Hq. unfold connections_loop in Hloop. rewrite (bool_decide_false _ Hq) in Hloop. rewrite andb_true_r in Hloop.
      apply Z.ltb_ge in Hloop. rewrite (network_total cfg mr) in Hloop by done. left. apply connections_pos.
      pose proof (client_max_bounds cfg mr HL). pose proof (counts_nonneg (λ _, true) c). unfold given. lia. }
    assert (busy c → busy (update_connections_end c lo)) as Hbusy.
    { assert (total (update_connections_end c lo) = total c) as Ht.
      { unfold all_requests, waiting, given, conns, resets. rewrite Hp. unfold update_connections_end.
        destruct lo; simpl; rewrite ?count_app, ?count_nil; lia. }
      unfold busy. rewrite Ht. unfold update_connections_end. by destruct lo. }
    unfold update_connections_end in *. destruct lo as [|r lo]; simpl in *; split; try done; simpl in *; try (by auto).
  - split; try done; simpl. intros Hx. specialize (Vh Hx). revert Vh. unfold busy, all_requests, waiting. simpl. by rewrite Hp.
Qed.

Lemma live_step c c' : counters cfg mr c [] [] → bounded cfg mr c → streaming_ok c → live c →
  client_step cfg mr c c' → live c'.
Proof using ML HL.
  intros K Hb S Hv [Hs|[Hs|Hs]]; [by eapply live_worker|..].
  - destruct Hs as [m| |m n _ _]; [apply live_scheduled, scheduled_schedule..|].
    destruct Hv as [Vpe Vpr Vf Vp Vh]. by split.
  - eapply live_frame; [by eapply callback_frame|done].
Qed.
End live.
