(* ===== verification/ClientProps.v ===== *)
(** Theorems about the client's work (Client.v), for every state that any order of steps
    reaches. *)

From stdpp Require Import functions relations.
From S2P Require Import Prelude AwsCommon Counting AutoRangedPut ClientConfig Client ClientInv ClientSteps ClientWork ClientLimits ClientLive.

#[local] Arguments aws_s3_client_get_max_active_connections : simpl never.

Section props.
Context `{M : !AwsMath} `{ML : !AwsMathLaws M} `{F : !AwsMathDouble}.
Context (cfg : s3_client) (mr : nat → meta_settings).
Implicit Types (c : client) (r : request) (cn : connection) (m : nat).

(** * Requests are made once, and the client is kept alive *)

(** References to the client are held for connections that are being acquired; [n] more are in
    hand. *)
Definition refs_ok c (n : Z) : Prop := c_client_refs c = count waits_connection (c_connections c) + n.

Lemma refs_scheduled c n : refs_ok c n → refs_ok (s_s3_client_schedule_process_work_synced_default c) n.
Proof. unfold refs_ok. by rewrite refs_schedule, connections_schedule. Qed.

Lemma refs_reset c cn e n : refs_ok c n → refs_ok (reset_connection mr c cn e) n.
Proof. unfold refs_ok. by destruct (reset_refs mr c cn e) as [-> ->]. Qed.

Lemma refs_add c cn n : refs_ok c (n + if waits_connection cn then 1 else 0) → refs_ok (add_connection c cn) n.
Proof. unfold refs_ok. simpl. intros ->. rewrite count_app, count_cons, count_nil. lia. Qed.

Lemma refs_notify c cn e code is_finished retry_fails n : refs_ok c n →
  refs_ok (aws_s3_client_notify_connection_finished mr c cn e code is_finished retry_fails) n.
Proof.
  intros Hr. unfold aws_s3_client_notify_connection_finished. destruct code; [by apply refs_reset..|].
  destruct (negb _); [by apply refs_reset|]. destruct is_finished; [by apply refs_reset|].
  assert (refs_ok (release_http_connection c cn) n) as H1 by (unfold release_http_connection; by destruct (cn_http_connection cn)).
  destruct retry_fails; [by apply refs_reset|]. apply refs_add. unfold waits_connection. simpl. by rewrite Z.add_0_r.
Qed.

Lemma refs_token c cn e token fresh n : refs_ok c n → refs_ok (s_s3_client_acquired_retry_token mr c cn e token fresh) n.
Proof.
  intros Hr. unfold s_s3_client_acquired_retry_token. destruct e; [by apply refs_notify|]. apply refs_add.
  unfold refs_ok, waits_connection in *. rewrite bool_decide_true by done. destruct fresh; simpl; lia.
Qed.

Lemma refs_take c l1 cn l2 : refs_ok c 0 → c_connections c = l1 ++ cn :: l2 →
  refs_ok (c <| c_connections := l1 ++ l2 |>) (if waits_connection cn then 1 else 0).
Proof. unfold refs_ok. simpl. intros -> ->. rewrite !count_app, count_cons. lia. Qed.

Lemma refs_frame c c' : c_client_refs c' = c_client_refs c → c_connections c' = c_connections c → refs_ok c 0 → refs_ok c' 0.
Proof. unfold refs_ok. by intros -> ->. Qed.

Lemma refs_callback c c' : refs_ok c 0 → callback_step mr c c' → refs_ok c' 0.
Proof.
  intros Hr Hs. destruct Hs as [l1 r l2 Hl|l1 r l2 e Hl|l1 r l2 e Hl|l1 cn l2 e Hl Hst|l1 cn l2 e fin ret Hl Hst|
    l1 cn l2 e code fin ret Hl Hst|l1 cn l2 e Hl Hst|l1 cn l2 e Hl Hst|l1 cn e l2 Hl|l1 cn l2 Hl].
  1,3: apply refs_scheduled; exact Hr.
  1: { destruct (finished_fixed mr (c <| c_preparing := l1 ++ l2 |>) r (Some e)) as (_ & Hc & _ & _ & Hrf & _). by apply (refs_frame c). }
  6: { destruct (finished_fixed mr (c <| c_resetting := l1 ++ l2 |>) (cn_request cn) e) as (_ & Hc & _ & _ & Hrf & _). by apply (refs_frame c). }
  6: { apply refs_scheduled. unfold release_http_connection. by destruct (cn_http_connection cn); apply (refs_frame c). }
  all: pose proof (refs_take _ _ _ _ Hr Hl) as Ht; unfold waits_connection in Ht; rewrite Hst in Ht; simpl in Ht.
  - by apply refs_token.
  - unfold s_s3_client_on_acquire_http_connection.
    assert (∀ c, refs_ok c 1 → refs_ok (c <| c_client_refs ::= Z.pred |>) 0) as Hd by (unfold refs_ok; simpl; intros; lia).
    apply Hd. destruct e; [by apply refs_notify|]. by apply refs_add.
  - by apply refs_notify.
  - unfold s_s3_client_retry_ready. destruct e; [by apply refs_notify|]. by apply refs_add.
  - unfold s_s3_client_prepare_request_callback_retry_request. destruct e; [by apply refs_notify|by apply refs_token].
Qed.

Lemma refs_connected c left_over has_result token_fails : refs_ok c 0 →
  refs_ok (update_connection cfg mr c left_over has_result token_fails) 0.
Proof.
  intros Hr. unfold update_connection, aws_s3_client_dequeue_request_threaded. destruct (c_request_queue c) as [|r q]; [done|].
  set (c1 := c <| c_request_queue := q |> <| c_request_queue_size ::= _ |>). assert (refs_ok c1 0) as H1 by done. clearbody c1.
  assert (∀ e, refs_ok (s_s3_client_meta_request_finished_request mr c1 r e) 0) as Hfin.
  { intros e. destruct (finished_fixed mr c1 r e) as (_ & Hc & _ & _ & Hrf & _). by apply (refs_frame c1). }
  destruct (rq_is_noop r); [apply Hfin|]. destruct (_ && has_result); [apply Hfin|]. case_match; [|done].
  unfold s_s3_client_create_connection_for_request_default.
  destruct (cl_disable_retries cfg); [by apply refs_token|]. destruct token_fails; [by apply refs_notify|by apply refs_add].
Qed.

Lemma refs_step c c' : refs_ok c 0 → client_step cfg mr c c' → refs_ok c' 0.
Proof.
  intros Hr [Hs|[Hs|Hs]]; [..|by eapply refs_callback].
  - destruct Hs as [c' Hp _ Hc|Hp|cons infl str rem m l vips outcome Hp Hl Ho|cons infl str rem Hp Hl|
      lo res tok Hp Hloop|lo Hp Hloop|Hp].
    + apply begin_spec in Hc. apply (refs_frame c); [apply (g_refs _ _ Hc)|apply (g_connections _ _ Hc)|done].
    + done.
    + apply (refs_frame c); [..|done]; unfold update_meta_request;
        destruct (s_s3_client_should_update_meta_request _ _ _ _ _ _ _ _ _); simpl; try done;
        destruct outcome; simpl; try done; by destruct (should_stream _).
    + done.
    + by apply refs_connected.
    + apply (refs_frame c); [by destruct lo..|done].
    + done.
  - destruct Hs as [m| |m n _ _]; [..|done]; (apply refs_scheduled; exact Hr).
Qed.

(** New requests have new numbers. *)
Definition made_once c : Prop := NoDup (rq_id <$> c_made c).

Lemma made_step c c' : counters cfg mr c [] [] → made_once c → client_step cfg mr c c' → made_once c'.
Proof.
  intros K Hm [Hs|[Hs|Hs]]; unfold made_once in *.
  - destruct Hs as [c' Hp _ Hc|Hp|cons infl str rem m l vips outcome Hp Hl Ho|cons infl str rem Hp Hl|
      lo res tok Hp Hloop|lo Hp Hloop|Hp]; try done.
    + apply begin_spec in Hc. by rewrite (g_made _ _ Hc).
    + unfold update_meta_request. destruct (s_s3_client_should_update_meta_request _ _ _ _ _ _ _ _ _); [|done].
      destruct outcome as [| |r]; try done. destruct (Ho r eq_refl) as (_ & _ & Hnew & _).
      assert (NoDup (rq_id <$> c_made c ++ [r <| rq_tracked_by_client := true |>])) as Hn.
      { rewrite fmap_app. apply list.NoDup_app. split; [done|]. split; [|apply NoDup_singleton].
        intros i Hi Hi'. apply list_elem_of_singleton in Hi'. by subst i. }
      simpl. destruct (should_stream _); exact Hn.
    + apply andb_true_iff in Hloop as [_ Hq%negb_true_iff%bool_decide_eq_false].
      destruct (c_request_queue c) as [|r q] eqn:Hrq; [done|]. pose proof (queue_tracked _ _ _ _ _ K Hrq) as Ht.
      destruct (connected_spec cfg mr c lo res tok r q Hrq Ht) as [Hf|cn Hf|cn e Hf|Hf]; by rewrite (x_made _ _ Hf).
    + by destruct lo.
  - destruct Hs as [m| |m n _ _]; [..|done]; by rewrite (x_made _ _ (fixed_schedule _)).
  - by rewrite (f_made _ _ (callback_frame _ _ _ _ K Hs)).
Qed.

(** * Reachable states *)

(** States that are reached from a new client, whose meta requests have limits of 32 bits. *)
Definition client_reachable c : Prop :=
  ∃ overrides, (∀ m, uint 32 (overrides m)) ∧ rtc (client_step cfg mr) (client_new overrides) c.

Context (HL : settings_ok cfg mr).

Record client_ok c : Prop := {
  ok_counters : counters cfg mr c [] [];
  ok_worklist : worklist c [];
  ok_bounded : bounded cfg mr c;
  ok_streaming : streaming_ok c;
  ok_live : live c;
  ok_refs : refs_ok c 0;
  ok_made : made_once c;
}.

Lemma client_new_ok overrides : (∀ m, uint 32 (overrides m)) → client_ok (client_new overrides).
Proof using ML HL.
  intros Ho. pose proof (client_max_bounds cfg mr HL). split; try done.
  - split; [apply NoDup_nil_2|..|done]. intros m. simpl. set_solver.
  - split; try done; unfold all_requests, waiting, given, conns, resets; simpl; rewrite ?count_nil; try lia.
    intros m. pose proof (meta_max_bounds cfg mr HL (client_new overrides) m (Ho m)). lia.
  - split; simpl; try done; lia.
  - apply NoDup_nil_2.
Qed.

Lemma client_step_ok c c' : client_ok c → client_step cfg mr c c' → client_ok c'.
Proof using ML HL.
  intros [K W B S V R Hm] Hs. destruct (bounded_step cfg mr HL c c' K S B Hs) as [B' S']. split; try done.
  - by eapply counters_step.
  - by eapply worklist_step.
  - by eapply live_step.
  - by eapply refs_step.
  - by eapply made_step.
Qed.

Lemma client_reachable_ok c : client_reachable c → client_ok c.
Proof using ML HL.
  intros (overrides & Ho & Hr). apply client_new_ok in Ho. induction Hr; [done|]. eauto using client_step_ok.
Qed.

Lemma unfinished_alive c p : unfinished p c [] [] = count p (alive c).
Proof. unfold unfinished, alive. rewrite !count_app, !count_nil, !count_fmap. lia. Qed.

(** What is outstanding is prepared, failing or has a connection, when the queue waits for connections. *)
Lemma held_back_outstanding c : c_phase c = Idle → c_prepared_requests c = [] →
  (c_request_queue c ≠ [] → c_connections c ≠ [] ∨ c_resetting c ≠ []) →
  0 < all_requests (λ _, true) c ∨ c_failing c ≠ [] →
  c_preparing c ≠ [] ∨ c_failing c ≠ [] ∨ c_connections c ≠ [] ∨ c_resetting c ≠ [].
Proof.
  intros Hp Hpr Hq [Ht|Hf]; [|by right; left]. unfold all_requests, waiting in Ht. rewrite Hp, Hpr in Ht. simpl in Ht.
  destruct (c_preparing c); [|by left]. destruct (c_request_queue c); [|right; right; by apply Hq].
  right; right. apply connections_pos. rewrite !count_nil in Ht. lia.
Qed.

(** * Theorems *)

Notation of_type := (of_type mr).

(** C18: the counters of the client are exact in every state: requests in flight, requests that
    stream their body, connections in use of each type and of each meta request, requests in preparation
    and in the queue; every scheduled meta request is in the work list once, the client holds one
    reference per entry, and the worker's checked subtractions never underflow. *)
Theorem client_counters c : client_reachable c →
  c_num_requests_in_flight c = Z.of_nat (length (alive c)) ∧
  c_num_requests_streaming_request_body c = count (streams mr) (alive c) ∧
  c_request_queue_size c = Z.of_nat (length (c_request_queue c)) ∧
  c_num_requests_being_prepared c =
    Z.of_nat (length (c_preparing c ++ c_prepared_requests c ++ c_failing c)) + c_num_failed_prepare_requests c ∧
  (∀ t, c_num_requests_network_io c t = count (of_type t) (cn_request <$> c_connections c)) ∧
  (∀ m, mr_num_requests_network (c_metas c m) = count (of_meta m) (cn_request <$> c_connections c) ∧
        mr_num_being_prepared (c_metas c m) = count (of_meta m) (c_preparing c ++ c_failing c) ∧
        mr_refs (c_metas c m) = count (is_meta m) (c_pending_meta_request_work c ++ listed c)) ∧
  NoDup (listed c) ∧ (∀ m, mr_scheduled (c_metas c m) = true ↔ m ∈ listed c) ∧
  (c_phase c = Idle → process_work_begin c ≠ FatalAssert).
Proof using ML HL.
  intros [K W _ _ _ _ _]%client_reachable_ok.
  pose proof (unfinished_alive c) as Ha.
  split_and!.
  - by rewrite (k_flight K), Ha, count_size.
  - by rewrite (k_streaming K), Ha.
  - by rewrite (k_queue K), count_size.
  - rewrite (k_being K), !count_size, !length_app. lia.
  - intros t. rewrite (k_network K), count_fmap. unfold connected. rewrite count_nil. lia.
  - intros m. split_and!.
    + rewrite (k_meta_network K), count_fmap. unfold connected. rewrite count_nil. lia.
    + by rewrite (k_meta_prepared K), count_app.
    + rewrite (w_refs _ _ W), count_app, count_nil, Z.add_0_r. f_equal. apply listed_once; apply W.
  - apply W.
  - apply W.
  - intros Hp. destruct (counters_begin cfg mr c Hp K) as (c' & -> & _). done.
Qed.

(** C16: the limits hold in every state, for a client whose settings are those that
    [aws_s3_client_new] makes: no more connections in use than the client allows, none beyond the
    limit of a meta request, and, not counting requests for CreateSession, at most as many
    requests being prepared or waiting as there may be connections in use and at most four times
    as many requests in all.  A connection is in use until [aws_s3_client_notify_connection_finished]
    decrements the counters; those that are then still to be finished and released
    ([c_resetting], [c_releasing]) are not limited, as the worker may already have replaced them. *)
Theorem client_limits c : client_reachable c →
  Z.of_nat (length (c_connections c)) ≤ aws_s3_client_get_max_active_connections cfg None ∧
  (∀ m, count (of_meta m) (cn_request <$> c_connections c) ≤ meta_max cfg mr c m) ∧
  count (limited mr) (c_preparing c ++ c_prepared_requests c ++ c_request_queue c ++ left_over_requests (c_phase c))
    ≤ aws_s3_client_get_max_requests_prepare cfg ∧
  count (limited mr) (alive c) ≤ aws_s3_client_get_max_requests_in_flight cfg.
Proof using ML HL.
  intros [_ _ [_ Bc Bm Bf Bp _] _ _ _ _]%client_reachable_ok. rewrite (max_in_flight_eq cfg mr HL).
  unfold all_requests, waiting, given, conns, resets, alive in *. rewrite ?count_app, ?count_fmap in *. split_and!.
  - by rewrite <-count_size.
  - intros m. rewrite count_fmap. apply Bm.
  - unfold aws_s3_client_get_max_requests_prepare. lia.
  - lia.
Qed.

(** C15: every request that was made is either held by the client or was finished, once and not
    both; the retry tokens that are held are those of the connections in use, the HTTP connections
    and endpoint references those of all connections that are not released yet, and the client is kept alive exactly while a connection is acquired. *)
Theorem client_requests_once c : client_reachable c →
  NoDup (rq_id <$> c_made c) ∧ c_made c ≡ₚ alive c ++ (c_finished c).*1 ∧
  c_retry_tokens c = count cn_retry_token (c_connections c) ∧
  c_http_connections c = count cn_http_connection (all_connections c) ∧
  c_endpoint_refs c = Z.of_nat (length (all_connections c)) ∧
  c_client_refs c = count (λ cn, bool_decide (cn_stage cn = AcquiringConnection)) (c_connections c).
Proof using ML HL.
  intros [K _ _ _ _ R Hm]%client_reachable_ok. unfold refs_ok in R. rewrite Z.add_0_r in R.
  split_and!; [done| | | | |exact R].
  - apply count_perm. intros r. by rewrite (k_made K), unfinished_alive, count_app.
  - rewrite (k_tokens K). unfold connected. rewrite count_nil. lia.
  - rewrite (k_http K). unfold existing, connected, all_connections. rewrite !count_app, count_fmap, count_nil. lia.
  - rewrite (k_endpoint K). unfold existing, connected, all_connections. rewrite <-count_size, !count_app, count_fmap, count_nil. lia.
Qed.

(** C17: no work is forgotten: when the worker does not run and is not scheduled, no meta request
    and no prepared request waits for it, and if requests are queued or the limits held back a
    meta request, then a request is being prepared or has a connection that is in use or given
    up; a callback that ends the preparation of a request or finishes the request of a connection
    that was given up schedules the worker. *)
Theorem client_never_stalls c : client_reachable c → c_phase c = Idle → c_process_work_task_scheduled c = false →
  c_pending_meta_request_work c = [] ∧ c_prepared_requests c = [] ∧ c_num_failed_prepare_requests c = 0 ∧
  (c_request_queue c ≠ [] → c_connections c ≠ [] ∨ c_resetting c ≠ []) ∧
  (c_held_back c = true → c_preparing c ≠ [] ∨ c_failing c ≠ [] ∨ c_connections c ≠ [] ∨ c_resetting c ≠ []) ∧
  (∀ c', callback_step mr c c' →
     c_process_work_task_scheduled c' = true ∨
     c_preparing c' = c_preparing c ∧ c_failing c' = c_failing c ∧
     length (c_connections c') + length (c_resetting c') = length (c_connections c) + length (c_resetting c))%nat.
Proof using ML HL.
  intros [K _ _ _ [Vpe Vpr Vf Vp Vh] _ _]%client_reachable_ok Hp Hs. unfold busy, connecting in *. rewrite Hp in Vp. rewrite Hs in *.
  assert (c_prepared_requests c = []) as Hpr by (destruct (c_prepared_requests c); [done|by specialize (Vpr ltac:(done))]).
  assert (c_request_queue c ≠ [] → c_connections c ≠ [] ∨ c_resetting c ≠ []) as Hq by (intros Hq; by destruct (Vp Hq)).
  split_and!; [|done| |done|..].
  - destruct (c_pending_meta_request_work c); [done|by specialize (Vpe ltac:(done))].
  - pose proof (k_failed K). destruct (decide (0 < c_num_failed_prepare_requests c)) as [Hf|]; [by specialize (Vf Hf)|lia].
  - intros Hh. apply (held_back_outstanding c Hp Hpr Hq). by destruct (Vh Hh) as [|[|]]; [left|right|].
  - intros c' Hc. destruct (callback_frame cfg mr c c' K Hc) as [_ _ _ _ _ _ _ _ _ _ Hb].
    destruct Hb as [|(Hn & Hpre & Hf & _)]; [by left|right]. split_and!; [done..|]. unfold given, conns, resets in Hn. rewrite !count_size in Hn. lia.
Qed.
End props.

(** * A run *)

(** A client of one download: its first request is prepared and gets a connection. *)
Module ClientDemo.
#[local] Existing Instances aws_math_ref aws_math_ref_laws math_double_ref.

Definition cfg : s3_client := ConfigDemo.the_client.

Definition mr (_ : nat) : meta_settings := mkMeta TYPE_GET_OBJECT false (mkFio false (double_of_Z 0) false).

Definition first : request := mkRequest 7 0 false false false.

Lemma settings : settings_ok cfg mr.
Proof. by split; [vm_compute; split; congruence|..|intros m]. Qed.

(** What may happen next, and what it does. *)
Inductive action :=
| Push | Begin | UpdateBegin | Update (outcome : update_outcome) | PassEnd | Connect | ConnectionsEnd | End | Prepared.

Definition act (a : action) c : option client :=
  match a, c_phase c with
  | Push, _ => Some (s_s3_client_schedule_process_work_synced_default (s_s3_client_push_meta_request_synced c 0))
  | Begin, Idle =>
      if c_process_work_task_scheduled c then match process_work_begin c with Ok c' => Some c' | _ => None end else None
  | UpdateBegin, Begun => Some (update_begin c)
  | Update outcome, Updating conservative in_flight streaming remaining =>
      match c_meta_requests c, outcome with
      | 0%nat :: _, NewRequest r =>
          if bool_decide (rq_meta r = 0%nat ∧ rq_tracked_by_client r = false ∧ rq_id r ∉ rq_id <$> c_made c) && (held c <? 2 ^ 30)
          then Some (update_meta_request cfg mr c conservative in_flight streaming remaining 0 4 outcome) else None
      | 0%nat :: _, _ => Some (update_meta_request cfg mr c conservative in_flight streaming remaining 0 4 outcome)
      | _, _ => None
      end
  | PassEnd, Updating conservative in_flight streaming remaining =>
      if bool_decide (c_meta_requests c = []) then Some (update_pass_end c conservative in_flight streaming remaining) else None
  | Connect, Connecting left_over =>
      if connections_loop cfg c then Some (update_connection cfg mr c left_over false None) else None
  | ConnectionsEnd, Connecting left_over =>
      if connections_loop cfg c then None else Some (update_connections_end c left_over)
  | End, Finishing => Some (process_work_end c)
  | Prepared, _ =>
      match c_preparing c with
      | r :: l => Some (s_s3_client_prepare_callback_queue_request mr (c <| c_preparing := l |>) r None)
      | [] => None
      end
  | _, _ => None
  end.

Lemma act_step a c c' : act a c = Some c' → client_step cfg mr c c'.
Proof.
  destruct a as [| | |outcome| | | | |]; unfold act; destruct (c_phase c) eqn:Hp; try done.
  1-5: intros <-%Some_inj; right; left; apply caller_pushed.
  8-12: destruct (c_preparing c) as [|r l] eqn:Hl; [done|]; intros <-%Some_inj; right; right; by apply (callback_prepared _ _ [] r l).
  - destruct (c_process_work_task_scheduled c) eqn:Hs; [|done]. destruct (process_work_begin c) eqn:Hb; try done.
    intros <-%Some_inj. left. by apply worker_began.
  - intros <-%Some_inj. left. by apply worker_update_began.
  - destruct (c_meta_requests c) as [|[|m] l] eqn:Hl; try done. destruct outcome as [| |r].
    1,2: intros <-%Some_inj; left; eapply worker_updated; [exact Hp|exact Hl|done].
    case_bool_decide as Hr; [|done]. destruct (held c <? 2 ^ 30) eqn:Hh; [|done]. intros <-%Some_inj. left.
    eapply worker_updated; [exact Hp|exact Hl|]. intros r' [= <-]. apply Z.ltb_lt in Hh. by destruct Hr as (? & ? & ?).
  - case_bool_decide; [|done]. intros <-%Some_inj. left. by apply worker_pass_ended.
  - destruct (connections_loop cfg c) eqn:Hl; [|done]. intros <-%Some_inj. left. by apply worker_connected.
  - destruct (connections_loop cfg c) eqn:Hl; [done|]. intros <-%Some_inj. left. by apply worker_connections_ended.
  - intros <-%Some_inj. left. by apply worker_ended.
Qed.

(** The state after a list of actions, and whether they were all possible. *)
Definition run (l : list action) : client * bool :=
  foldl (λ '(c, ok) a, match act a c with Some c' => (c', ok) | None => (c, false) end) (client_new (λ _, 0), true) l.

Lemma run_reachable l : (run l).2 = true → client_reachable cfg mr (run l).1.
Proof.
  intros Hl. exists (λ _, 0). split; [by intros m; split; vm_compute|]. induction l as [|a l IH] using rev_ind; [done|].
  unfold run in *. rewrite foldl_snoc in *. destruct (foldl _ _ l) as [c ok]. destruct (act a c) as [c'|] eqn:Ha; [|done].
  eapply rtc_r; [by apply IH|]. by eapply act_step.
Qed.

Definition update_rounds : list action := [Update NoRequest; PassEnd; Update NoRequest; PassEnd].

(** The download is pushed and asked for a request, and the worker is done. *)
Definition requested : list action :=
  [Push; Begin; UpdateBegin; Update (NewRequest first)] ++ update_rounds ++ [ConnectionsEnd; End].

(** The request is prepared and gets a connection. *)
Definition connected : list action :=
  requested ++ [Prepared; Begin; UpdateBegin] ++ update_rounds ++ [Connect].

Lemma client_counters_witness :
  c_num_requests_in_flight (run connected).1 = 1 ∧ length (c_connections (run connected).1) = 1%nat ∧
  c_num_requests_network_io (run connected).1 TYPE_GET_OBJECT = 1.
Proof.
  assert ((run connected).2 = true) as Hr by (vm_compute; reflexivity).
  destruct (client_counters cfg mr settings _ (run_reachable _ Hr)) as (Hf & _ & _ & _ & Hn & _).
  rewrite Hf, Hn. split_and!; vm_compute; reflexivity.
Defined.

Lemma client_limits_witness :
  (run connected).2 = true ∧
  Z.of_nat (length (c_connections (run connected).1)) ≤ aws_s3_client_get_max_active_connections cfg None.
Proof.
  assert ((run connected).2 = true) as Hr by (vm_compute; reflexivity). split; [exact Hr|].
  destruct (client_limits cfg mr settings _ (run_reachable _ Hr)) as [H _]. exact H.
Defined.

Lemma client_requests_once_witness :
  c_made (run connected).1 = [first <| rq_tracked_by_client := true |>] ∧ c_endpoint_refs (run connected).1 = 1.
Proof.
  assert ((run connected).2 = true) as Hr by (vm_compute; reflexivity).
  destruct (client_requests_once cfg mr settings _ (run_reachable _ Hr)) as (_ & _ & _ & _ & He & _).
  rewrite He. split; vm_compute; reflexivity.
Defined.

Lemma client_never_stalls_witness :
  c_phase (run requested).1 = Idle ∧ c_process_work_task_scheduled (run requested).1 = false ∧
  length (c_preparing (run requested).1) = 1%nat ∧ c_pending_meta_request_work (run requested).1 = [].
Proof.
  assert ((run requested).2 = true) as Hr by (vm_compute; reflexivity).
  assert (c_phase (run requested).1 = Idle) as Hp by (vm_compute; reflexivity).
  assert (c_process_work_task_scheduled (run requested).1 = false) as Hs by (vm_compute; reflexivity).
  split; [exact Hp|]. split; [exact Hs|]. split; [vm_compute; reflexivity|].
  destruct (client_never_stalls cfg mr settings _ (run_reachable _ Hr) Hp Hs) as [H _]. exact H.
Defined.
End ClientDemo.
