(* ===== verification/PrepareQueue.v ===== *)
(** Reservation of buffers and the order of preparations (source/s3_client.c): a request whose
    body goes through the buffer pool waits for its buffer, and parts that read one stream are
    prepared in the order of their numbers. *)

From stdpp Require Import relations.
From S2P Require Import Prelude AwsCommon PriorityQueue.

(** * Data *)

(** What of [struct aws_s3_request] matters here; a ticket is there or not. *)
Record prep_request := mkPrepRequest {
  pr_id : nat;
  pr_part_number : Z;
  pr_part_range_start : Z;
  pr_part_range_end : Z;
  pr_buffer_size : Z;
  pr_should_allocate_buffer_from_pool : bool;
  pr_ticket : bool;
}.
#[export] Instance prep_request_eta : Eta prep_request := λ r,
  mkPrepRequest (pr_id r) (pr_part_number r) (pr_part_range_start r) (pr_part_range_end r) (pr_buffer_size r)
    (pr_should_allocate_buffer_from_pool r) (pr_ticket r).

(** A future of a ticket; once it is set it stays so. *)
Inductive ticket_future := FutPending | FutError (e : aws_error) | FutTicket.

#[export] Instance ticket_future_eq_dec : EqDecision ticket_future.
Proof. solve_decision. Defined.

(** What of the meta request does not change. *)
Record prep_meta := mkPrepMeta {
  pm_put_object : bool;
  pm_request_body_parallel_stream : bool;
  pm_requested_range_start_resolved : bool;
  pm_requested_range_start : Z;
}.

(** [struct aws_s3_buffer_pool_reserve_meta] *)
Record buffer_reservation := mkReserve { rm_size : Z; rm_local_offset : Z }.

Section prepare.
Context `{M : !AwsMath} `{Q : !AwsPriorityQueue prep_request pr_part_number}.
Context (mt : prep_meta).

(** The fields of the meta request, the payloads that wait for their future, the requests that
    are handed over for preparation and those whose callback got an error.  [ps_acquired] and
    [ps_reserved] record what was asked for. *)
Record prep_state := mkPrepState {
  ps_next_put_part_to_prepare : Z;
  ps_pending_put_prepare_queue : pq prep_request pr_part_number;
  ps_pending_buffer_futures : list nat;
  ps_finish_result : option aws_error;
  ps_payloads : list (prep_request * ticket_future);
  ps_prepared : list prep_request;
  ps_failed : list (prep_request * aws_error);
  ps_acquired : list prep_request;
  ps_reserved : list buffer_reservation;
}.
#[export] Instance prep_state_eta : Eta prep_state := λ s,
  mkPrepState (ps_next_put_part_to_prepare s) (ps_pending_put_prepare_queue s) (ps_pending_buffer_futures s)
    (ps_finish_result s) (ps_payloads s) (ps_prepared s) (ps_failed s) (ps_acquired s) (ps_reserved s).

#[local] Instance prep_request_eq_dec : EqDecision prep_request.
Proof using Type. solve_decision. Defined.

Implicit Types (s : prep_state) (r : prep_request).

Definition prep_init : prep_state := mkPrepState 1 pq_empty [] None [] [] [] [] [].

(** * Operations *)

Definition aws_s3_request_get_payload_size r : Z :=
  match aws_sub_u64_checked (pr_part_range_end r) (pr_part_range_start r) with
  | Some n => n +[64] 1
  | None => 0
  end.

(** [aws_s3_meta_request_prepare_request] takes the request over. *)
Definition prepare_request s r : prep_state := s <| ps_prepared ::= λ l, l ++ [r] |>.

Definition prepare_callback s r (error_code : aws_error) : prep_state := s <| ps_failed ::= λ l, l ++ [(r, error_code)] |>.

Definition prep_set_fail s (error_code : aws_error) : prep_state :=
  match ps_finish_result s with Some _ => s | None => s <| ps_finish_result := Some error_code |> end.

Definition remove_future s r : prep_state := s <| ps_pending_buffer_futures ::= filter (.≠ pr_id r) |>.

(** The call for an error. *)
Definition s_s3_prepare_acquire_mem_callback_and_destroy s r (error_code : aws_error) : prep_state :=
  prepare_callback (prep_set_fail (remove_future s r) error_code) r error_code.

(** The loop ends after as many rounds as the queue has entries. *)
Fixpoint drain_loop (n : nat) s : prep_state :=
  match n with
  | O => s
  | S n =>
      match aws_priority_queue_top (ps_pending_put_prepare_queue s) with
      | None => s
      | Some top =>
          if negb (pr_part_number top =? ps_next_put_part_to_prepare s) then s
          else
            match aws_priority_queue_pop (ps_pending_put_prepare_queue s) with
            | None => s
            | Some (entry, q) =>
                drain_loop n (prepare_request (s <| ps_pending_put_prepare_queue := q |>
                                                 <| ps_next_put_part_to_prepare ::= λ n, n +[32] 1 |>) entry)
            end
      end
  end.

Definition s_drain_pending_put_prepare_queue s : prep_state :=
  drain_loop (length (pq_elems (ps_pending_put_prepare_queue s))) s.

Fixpoint force_drain_loop (n : nat) s (error_code : aws_error) : prep_state :=
  match n with
  | O => s
  | S n =>
      if bool_decide (pq_elems (ps_pending_put_prepare_queue s) = []) then s
      else
        match aws_priority_queue_pop (ps_pending_put_prepare_queue s) with
        | None => s
        | Some (entry, q) =>
            force_drain_loop n (prepare_callback (s <| ps_pending_put_prepare_queue := q |>)
                                  (entry <| pr_ticket := false |>) error_code) error_code
        end
  end.

Definition s_force_drain_pending_put_prepare_queue s (error_code : aws_error) : prep_state :=
  force_drain_loop (length (pq_elems (ps_pending_put_prepare_queue s))) s error_code.

Definition needs_ordered_prepare r : bool :=
  (0 <? pr_part_number r) && pm_put_object mt && negb (pm_request_body_parallel_stream mt).

(** [future] is what the future of [r] is set to. *)
Definition s_on_pool_buffer_reserved s r (future : ticket_future) : res prep_state :=
  match future with
  | FutPending => FatalAssert
  | FutError error_code =>
      Ok (s_force_drain_pending_put_prepare_queue (s_s3_prepare_acquire_mem_callback_and_destroy s r error_code)
            AWS_ERROR_S3_CANCELED)
  | FutTicket =>
      let r := r <| pr_ticket := true |> in
      if negb (bool_decide (pr_id r ∈ ps_pending_buffer_futures s)) then FatalAssert
      else
        let s := remove_future s r in
        Ok (if needs_ordered_prepare r then
              s_drain_pending_put_prepare_queue
                (match aws_priority_queue_push (ps_pending_put_prepare_queue s) r with
                 | Some q => s <| ps_pending_put_prepare_queue := q |>
                 | None => s
                 end)
            else prepare_request s r)
  end.

Definition add_payload s r (future : ticket_future) : prep_state :=
  s <| ps_pending_buffer_futures ::= λ l, l ++ [pr_id r] |> <| ps_payloads ::= λ l, l ++ [(r, future)] |>.

Definition s_acquire_mem_and_prepare_request s r : prep_state :=
  let s := s <| ps_acquired ::= λ l, l ++ [r] |> in
  let request_size := aws_s3_request_get_payload_size r in
  if negb (pr_ticket r) && pr_should_allocate_buffer_from_pool r && (0 <? request_size) then
    if negb (pm_requested_range_start_resolved mt) then add_payload s r (FutError AWS_ERROR_INVALID_STATE)
    else
      match aws_sub_u64_checked (pr_part_range_start r) (pm_requested_range_start mt) with
      | None => add_payload s r (FutError AWS_ERROR_INVALID_STATE)
      | Some local_offset =>
          let meta := mkReserve (aws_min_u64 (pr_buffer_size r) request_size) local_offset in
          add_payload (s <| ps_reserved ::= λ l, l ++ [meta] |>) r FutPending
      end
  else prepare_request s r.

Definition cancel_ticket_future (pending : list nat) (error_code : aws_error) (p : prep_request * ticket_future)
    : prep_request * ticket_future :=
  let '(r, f) := p in
  (r, match f with FutPending => if bool_decide (pr_id r ∈ pending) then FutError error_code else f | _ => f end).

Definition aws_s3_meta_request_cancel_pending_buffer_futures_synced s (error_code : aws_error) : prep_state :=
  s <| ps_payloads ::= map (cancel_ticket_future (ps_pending_buffer_futures s) error_code) |>.

(** * Runs *)

Definition via_pool r : bool := pr_should_allocate_buffer_from_pool r.
Definition ordered r : bool := needs_ordered_prepare r && via_pool r.

(** Requests are new, have a payload, and bring a ticket or are to be given one; the parts of an
    upload are asked for in order (PutProps.v). *)
Record acquirable s r : Prop := {
  aq_new : pr_id r ∉ pr_id <$> ps_acquired s;
  aq_ticket : via_pool r = true → pr_ticket r = false;
  aq_size : 0 < aws_s3_request_get_payload_size r;
  aq_part : ordered r = true → pr_part_number r = Z.of_nat (length (filter ordered (ps_acquired s))) + 1;
  aq_parts : pr_part_number r < 2 ^ 32 - 1;
}.

Inductive prep_step s : prep_state → Prop :=
| prep_acquired r : acquirable s r → prep_step s (s_acquire_mem_and_prepare_request s r)
| prep_settled l1 r l2 f : ps_payloads s = l1 ++ (r, FutPending) :: l2 → f ≠ FutPending →
    prep_step s (s <| ps_payloads := l1 ++ (r, f) :: l2 |>)
| prep_canceled e : prep_step s (aws_s3_meta_request_cancel_pending_buffer_futures_synced s e)
| prep_called l1 r f l2 s' : ps_payloads s = l1 ++ (r, f) :: l2 → f ≠ FutPending →
    s_on_pool_buffer_reserved (s <| ps_payloads := l1 ++ l2 |>) r f = Ok s' → prep_step s s'.

(** * Invariant *)

Context `{ML : !AwsMathLaws M} `{QL : !AwsPriorityQueueLaws prep_request pr_part_number Q}.
Context (Hpush : ∀ q r, is_Some (aws_priority_queue_push q r)).

(** A request, whether it has its ticket yet or not. *)
Definition bare r : prep_request := r <| pr_ticket := false |>.

Definition queue s : list prep_request := pq_elems (ps_pending_put_prepare_queue s).

(** Where requests may be. *)
Definition places s : list prep_request := (ps_payloads s).*1 ++ queue s ++ ps_prepared s ++ (ps_failed s).*1.

Definition parts (l : list prep_request) : list Z := pr_part_number <$> filter ordered l.

(** What holds also while the queue is drained. *)
Record prep_core s : Prop := {
  p_next : 1 ≤ ps_next_put_part_to_prepare s;
  p_prepared : parts (ps_prepared s) = seqZ 1 (ps_next_put_part_to_prepare s - 1);
  p_acquired : parts (ps_acquired s) = seqZ 1 (Z.of_nat (length (parts (ps_acquired s))));
  p_bound : Forall (λ r, pr_part_number r < 2 ^ 32 - 1) (ps_acquired s);
  p_ids : NoDup (pr_id <$> ps_acquired s);
  p_places : bare <$> ps_acquired s ≡ₚ bare <$> places s;
  p_queue : Forall (λ r, ordered r = true ∧ pr_ticket r = true) (queue s);
  p_payloads : Forall (λ p, via_pool p.1 = true ∧ pr_ticket p.1 = false) (ps_payloads s);
  p_tickets : Forall (λ r, via_pool r = true → pr_ticket r = true) (ps_prepared s);
  p_failed : Forall (λ p, pr_ticket p.1 = false) (ps_failed s);
  p_futures : Forall (λ p, pr_id p.1 ∈ ps_pending_buffer_futures s) (ps_payloads s);
}.

(** The part that is to be prepared next is not in the queue. *)
Definition drained s : Prop := Forall (λ r, pr_part_number r ≠ ps_next_put_part_to_prepare s) (queue s).

Lemma ordered_bare r : ordered (bare r) = ordered r.
Proof. done. Qed.

Lemma places_bound s r : prep_core s → r ∈ places s → pr_part_number r < 2 ^ 32 - 1.
Proof.
  intros Hc Hr. assert (bare r ∈ bare <$> ps_acquired s) as (r' & Hb & Hr')%list_elem_of_fmap.
  { rewrite (p_places _ Hc). by apply list_elem_of_fmap_2. }
  pose proof (p_bound _ Hc) as Hb'. rewrite list.Forall_forall in Hb'. specialize (Hb' _ Hr').
  assert (pr_part_number r = pr_part_number r') as -> by (change (pr_part_number (bare r) = pr_part_number r'); by rewrite Hb). done.
Qed.

Lemma parts_snoc l r : parts (l ++ [r]) = parts l ++ (if ordered r then [pr_part_number r] else []).
Proof.
  unfold parts. rewrite list.filter_app, fmap_app. f_equal. rewrite list.filter_cons.
  case_decide as Ho; destruct (ordered r); done.
Qed.

Lemma parts_app l k : parts (l ++ k) = parts l ++ parts k.
Proof. unfold parts. by rewrite list.filter_app, fmap_app. Qed.

Lemma parts_bare l : parts (bare <$> l) = parts l.
Proof.
  induction l as [|r l IH] using rev_ind; [done|]. rewrite fmap_app. simpl. rewrite !parts_snoc, IH. done.
Qed.

Lemma parts_perm l k : l ≡ₚ k → parts l ≡ₚ parts k.
Proof. unfold parts. by intros ->. Qed.

Lemma parts_elem r l : r ∈ l → ordered r = true → pr_part_number r ∈ parts l.
Proof. intros Hr Ho. apply list_elem_of_fmap_2. apply list_elem_of_filter. by rewrite Ho. Qed.

Lemma places_parts s : prep_core s → parts (ps_acquired s) ≡ₚ parts (places s).
Proof. intros Hc. rewrite <-(parts_bare (ps_acquired s)), <-(parts_bare (places s)). apply parts_perm, Hc. Qed.

(** No part is in two places. *)
Lemma places_nodup s : prep_core s → NoDup (parts (places s)).
Proof. intros Hc. rewrite <-places_parts by done. rewrite (p_acquired _ Hc). apply NoDup_seqZ. Qed.

Lemma ordered_part r : ordered r = true → 1 ≤ pr_part_number r.
Proof. unfold ordered, needs_ordered_prepare. rewrite !andb_true_iff, Z.ltb_lt. lia. Qed.

(** Parts in the queue are not prepared yet. *)
Lemma queue_after s r : prep_core s → r ∈ queue s → ps_next_put_part_to_prepare s ≤ pr_part_number r.
Proof.
  intros Hc Hr. pose proof (p_queue _ Hc) as Hq. rewrite list.Forall_forall in Hq. destruct (Hq _ Hr) as [Ho _].
  pose proof (ordered_part r Ho). pose proof (places_nodup s Hc) as Hn. unfold places in Hn. rewrite !parts_app in Hn.
  apply list.NoDup_app in Hn as (_ & _ & Hn). apply list.NoDup_app in Hn as (_ & Hn & _).
  specialize (Hn (pr_part_number r) (parts_elem _ _ Hr Ho)). rewrite (p_prepared _ Hc) in Hn.
  destruct (Z.le_gt_cases (ps_next_put_part_to_prepare s) (pr_part_number r)); [done|].
  destruct Hn. apply elem_of_app. left. apply elem_of_seqZ. lia.
Qed.

(** One entry goes from the queue to the preparation. *)
Lemma drain_one s top q : prep_core s → pq_elems (ps_pending_put_prepare_queue s) ≡ₚ top :: pq_elems q →
  pr_part_number top = ps_next_put_part_to_prepare s →
  prep_core (prepare_request (s <| ps_pending_put_prepare_queue := q |>
                                <| ps_next_put_part_to_prepare ::= λ n, n +[32] 1 |>) top) ∧
  ps_next_put_part_to_prepare s +[32] 1 = ps_next_put_part_to_prepare s + 1.
Proof.
  intros Hc Hq Ht. pose proof (p_queue _ Hc) as Hqu. unfold queue in Hqu. rewrite Hq in Hqu.
  apply Forall_cons_1 in Hqu as [[Ho Htk] Hqu].
  assert (pr_part_number top < 2 ^ 32 - 1) as Hb.
  { apply (places_bound s); [done|]. unfold places, queue. rewrite Hq. set_solver. }
  pose proof (p_next _ Hc) as Hn. assert (ps_next_put_part_to_prepare s +[32] 1 = ps_next_put_part_to_prepare s + 1) as Hw.
  { apply wrap_small. unfold uint. lia. }
  split; [|done]. destruct Hc. split; simpl; try rewrite Hw; try done; try lia.
  - rewrite parts_snoc, p_prepared0, Ho, Ht. replace (ps_next_put_part_to_prepare s + 1 - 1) with ((ps_next_put_part_to_prepare s - 1) + 1) by lia.
    rewrite seqZ_app by lia. f_equal. unfold seqZ. simpl. f_equal. lia.
  - rewrite p_places0. unfold places, queue. simpl. rewrite Hq. rewrite !fmap_app, !fmap_cons. simpl. solve_Permutation.
  - apply Forall_app. by repeat constructor.
Qed.

Lemma drain_loop_spec n s : prep_core s → (length (queue s) ≤ n)%nat → prep_core (drain_loop n s) ∧ drained (drain_loop n s).
Proof.
  revert s. induction n as [|n IH]; intros s Hc Hn; simpl.
  - split; [done|]. unfold drained. by destruct (queue s); [|simpl in *; lia].
  - destruct (aws_priority_queue_top (ps_pending_put_prepare_queue s)) as [top|] eqn:Htop.
    2: { split; [done|]. unfold drained, queue. by rewrite (proj1 (pq_top_None _) Htop). }
    destruct (negb _) eqn:Hne.
    { split; [done|]. apply list.Forall_forall. intros r Hr. apply negb_true_iff, Z.eqb_neq in Hne.
      pose proof (pq_top_min _ _ _ Htop Hr). assert (ps_next_put_part_to_prepare s ≤ pr_part_number top); [|lia].
      apply queue_after; [done|]. destruct (pq_pop_top _ _ Htop) as (q & _ & Hq). unfold queue. rewrite Hq. set_solver. }
    destruct (pq_pop_top _ _ Htop) as (q & -> & Hq). apply negb_false_iff, Z.eqb_eq in Hne.
    destruct (drain_one s top q Hc Hq Hne) as [Hc' Hw]. apply IH; [done|].
    unfold queue in *. simpl. apply Permutation_length in Hq. simpl in Hq. lia.
Qed.

Lemma force_drain_loop_spec n s e : prep_core s → (length (queue s) ≤ n)%nat →
  let s' := force_drain_loop n s e in
  prep_core s' ∧ queue s' = [] ∧ ps_next_put_part_to_prepare s' = ps_next_put_part_to_prepare s.
Proof.
  revert s. induction n as [|n IH]; intros s Hc Hn; simpl.
  - split_and!; [done| |done]. by destruct (queue s); [|simpl in *; lia].
  - case_bool_decide as He; [done|].
    destruct (aws_priority_queue_top (ps_pending_put_prepare_queue s)) as [top|] eqn:Htop; [|by apply pq_top_None in Htop].
    destruct (pq_pop_top _ _ Htop) as (q & -> & Hq).
    set (s1 := prepare_callback _ _ _). assert (prep_core s1) as Hc1.
    { pose proof (p_queue _ Hc) as Hqu. unfold queue in Hqu. rewrite Hq in Hqu. apply Forall_cons_1 in Hqu as [_ Hqu].
      destruct Hc. unfold s1. split; simpl; try done.
      - rewrite p_places0. unfold places, queue. simpl. rewrite Hq. rewrite !fmap_app. simpl. solve_Permutation.
      - apply Forall_app. by repeat constructor. }
    destruct (IH s1 Hc1) as (H1 & H2 & H3); [|done].
    unfold queue in *. simpl. apply Permutation_length in Hq. simpl in Hq. lia.
Qed.

Lemma drain_payloads n s : ps_payloads (drain_loop n s) = ps_payloads s.
Proof. revert s. induction n as [|n IH]; intros s; simpl; [done|]. repeat case_match; try done. by rewrite IH. Qed.

Lemma force_drain_payloads n s e : ps_payloads (force_drain_loop n s e) = ps_payloads s.
Proof. revert s. induction n as [|n IH]; intros s; simpl; [done|]. repeat case_match; try done. by rewrite IH. Qed.

Lemma drain_spec s : prep_core s → let s' := s_drain_pending_put_prepare_queue s in
  prep_core s' ∧ drained s' ∧ ps_payloads s' = ps_payloads s.
Proof. intros Hc. destruct (drain_loop_spec _ _ Hc (le_n _)). split_and!; [done..|]. apply drain_payloads. Qed.

Lemma force_drain_spec s e : prep_core s → let s' := s_force_drain_pending_put_prepare_queue s e in
  prep_core s' ∧ queue s' = [] ∧ ps_payloads s' = ps_payloads s.
Proof. intros Hc. destruct (force_drain_loop_spec _ _ e Hc (le_n _)) as (? & ? & _). split_and!; [done..|]. apply force_drain_payloads. Qed.

(** * Preservation *)

Lemma places_ids s : prep_core s → NoDup (pr_id <$> places s).
Proof.
  intros Hc. assert (pr_id <$> places s = pr_id <$> (bare <$> places s)) as -> by (rewrite <-list_fmap_compose; done).
  rewrite <-(p_places _ Hc), <-list_fmap_compose. apply Hc.
Qed.

(** A payload leaves the list, and its request the list of pending futures. *)
Lemma futures_removed s l1 r f l2 : prep_core s → ps_payloads s = l1 ++ (r, f) :: l2 →
  Forall (λ p, pr_id p.1 ∈ filter (.≠ pr_id r) (ps_pending_buffer_futures s)) (l1 ++ l2) ∧ via_pool r = true ∧ pr_ticket r = false ∧
  pr_id r ∈ ps_pending_buffer_futures s ∧ Forall (λ p, via_pool p.1 = true ∧ pr_ticket p.1 = false) (l1 ++ l2).
Proof.
  intros Hc Hl. pose proof (places_ids s Hc) as Hn. unfold places in Hn. rewrite Hl in Hn.
  rewrite fmap_app in Hn. apply list.NoDup_app in Hn as (Hn & _ & _). rewrite !fmap_app in Hn. simpl in Hn.
  pose proof (p_payloads _ Hc) as Hp. pose proof (p_futures _ Hc) as Hf. rewrite Hl in Hp, Hf.
  rewrite Forall_app, list.Forall_cons in Hp. rewrite Forall_app, list.Forall_cons in Hf.
  destruct Hp as (Hp1 & [? ?] & Hp2), Hf as (Hf1 & ? & Hf2). split_and!; [|done..|by apply Forall_app].
  apply list.Forall_forall. intros p Hp. apply list_elem_of_filter. split.
  - intros He. assert (pr_id r ∈ pr_id <$> (l1 ++ l2).*1) as Hin by (rewrite <-He; by do 2 apply list_elem_of_fmap_2).
    rewrite !fmap_app in Hin. apply list.NoDup_app in Hn as (_ & Hd & [Hr _]%list.NoDup_cons).
    apply elem_of_app in Hin as [Hin|Hin]; [|done]. apply (Hd _ Hin). set_solver.
  - rewrite list.Forall_forall in Hf1, Hf2. apply elem_of_app in Hp as [Hp|Hp]; [by apply Hf1|by apply Hf2].
Qed.

Lemma core_error s l1 r f l2 e : prep_core s → ps_payloads s = l1 ++ (r, f) :: l2 →
  prep_core (s_s3_prepare_acquire_mem_callback_and_destroy (s <| ps_payloads := l1 ++ l2 |>) r e).
Proof.
  intros Hc Hl. destruct (futures_removed s l1 r f l2 Hc Hl) as (Hf & Hv & Ht & _ & Hp).
  unfold s_s3_prepare_acquire_mem_callback_and_destroy, prep_set_fail, remove_future, prepare_callback. simpl.
  destruct Hc. destruct (ps_finish_result s); split; simpl; try done;
    first [by apply Forall_app; repeat constructor|
           rewrite p_places0; unfold places, queue; simpl; rewrite Hl, !fmap_app; simpl; solve_Permutation].
Qed.

Lemma core_direct s l1 r f l2 : prep_core s → ps_payloads s = l1 ++ (r, f) :: l2 → needs_ordered_prepare r = false →
  prep_core (prepare_request (remove_future (s <| ps_payloads := l1 ++ l2 |>) r) (r <| pr_ticket := true |>)).
Proof.
  intros Hc Hl Ho. destruct (futures_removed s l1 r f l2 Hc Hl) as (Hf & Hv & Ht & _ & Hp).
  unfold remove_future, prepare_request. simpl. destruct Hc. split; simpl; try done.
  - rewrite parts_snoc, p_prepared0. replace (ordered _) with false; [by rewrite app_nil_r|].
    change (false = ordered r). unfold ordered. by rewrite Ho.
  - rewrite p_places0. unfold places, queue. simpl. rewrite Hl, !fmap_app. simpl. solve_Permutation.
  - by apply Forall_app; repeat constructor.
Qed.

Lemma core_queued s l1 r f l2 q : prep_core s → ps_payloads s = l1 ++ (r, f) :: l2 → needs_ordered_prepare r = true →
  pq_elems q ≡ₚ (r <| pr_ticket := true |>) :: queue s →
  prep_core (remove_future (s <| ps_payloads := l1 ++ l2 |>) r <| ps_pending_put_prepare_queue := q |>).
Proof.
  intros Hc Hl Ho Hq. destruct (futures_removed s l1 r f l2 Hc Hl) as (Hf & Hv & Ht & _ & Hp).
  unfold remove_future. simpl. destruct Hc. split; simpl; try done.
  - rewrite p_places0. unfold places, queue. simpl. rewrite Hl, !fmap_app, Hq. simpl. solve_Permutation.
  - unfold queue. simpl. rewrite Hq. constructor; [|done]. split; [|done]. change (ordered r = true). unfold ordered. by rewrite Ho.
Qed.

(** The callback of a payload keeps the invariant and does not fail its assertion. *)
Lemma called_ok s l1 r f l2 : prep_core s → drained s → ps_payloads s = l1 ++ (r, f) :: l2 → f ≠ FutPending →
  ∃ s', s_on_pool_buffer_reserved (s <| ps_payloads := l1 ++ l2 |>) r f = Ok s' ∧ prep_core s' ∧ drained s' ∧
        ps_payloads s' = l1 ++ l2 ∧ (∀ e, f = FutError e → queue s' = []).
Proof.
  intros Hc Hd Hl Hf. destruct f as [|e|]; [done| |]; unfold s_on_pool_buffer_reserved.
  - eexists. split; [reflexivity|]. pose proof (core_error s l1 r _ l2 e Hc Hl) as Hc1.
    destruct (force_drain_spec _ AWS_ERROR_S3_CANCELED Hc1) as (H1 & H2 & H3).
    split_and!; [done|by unfold drained; rewrite H2| |done]. rewrite H3.
    unfold s_s3_prepare_acquire_mem_callback_and_destroy, prep_set_fail. simpl. by destruct (ps_finish_result s).
  - destruct (futures_removed s l1 r _ l2 Hc Hl) as (_ & _ & _ & Hin & _). rewrite bool_decide_true by exact Hin. cbn [negb].
    eexists. split; [reflexivity|]. destruct (needs_ordered_prepare _) eqn:Ho.
    + destruct (Hpush (ps_pending_put_prepare_queue s) (r <| pr_ticket := true |>)) as [q Hq].
      change (ps_pending_put_prepare_queue (remove_future _ _)) with (ps_pending_put_prepare_queue s). rewrite Hq.
      pose proof (core_queued s l1 r _ l2 q Hc Hl Ho (pq_push_elems _ _ _ Hq)) as Hc1.
      destruct (drain_spec _ Hc1) as (H1 & H2 & H3). by split_and!.
    + split_and!; [exact (core_direct s l1 r _ l2 Hc Hl Ho)|done|done|done].
Qed.

(** The acquired requests with one more. *)
Lemma core_acquired s r : prep_core s → acquirable s r → let l := ps_acquired s ++ [r] in
  parts l = seqZ 1 (Z.of_nat (length (parts l))) ∧ Forall (λ r, pr_part_number r < 2 ^ 32 - 1) l ∧ NoDup (pr_id <$> l).
Proof.
  intros Hc [Hnew Htk Hsz Hpart Hb]. destruct Hc. simpl. split_and!.
  - rewrite parts_snoc, length_app. destruct (ordered r); [|by rewrite !app_nil_r, Nat.add_0_r].
    rewrite p_acquired0 at 1. simpl. rewrite Hpart by done. unfold parts. rewrite length_fmap.
    rewrite Nat2Z.inj_add, seqZ_app by lia. f_equal. unfold seqZ. simpl. f_equal. lia.
  - apply Forall_app. by repeat constructor.
  - rewrite fmap_app. apply list.NoDup_app. split_and!; [done|set_solver|apply NoDup_singleton].
Qed.

Lemma acquired_ok s r : prep_core s → drained s → acquirable s r →
  let s' := s_acquire_mem_and_prepare_request s r in prep_core s' ∧ drained s'.
Proof.
  intros Hc Hd Hr. assert (via_pool r = false → prep_core (prepare_request (s <| ps_acquired ::= λ l, l ++ [r] |>) r)) as Hdirect.
  { intros Hv. pose proof (core_acquired s r Hc Hr) as (H1 & H2 & H3). destruct Hc. split; simpl; try done.
    - rewrite parts_snoc, p_prepared0. unfold ordered. by rewrite Hv, andb_false_r, app_nil_r.
    - rewrite fmap_app, p_places0. unfold places, queue. simpl. rewrite !fmap_app. simpl. solve_Permutation.
    - apply Forall_app. split; [done|]. repeat constructor. by rewrite Hv. }
  assert (∀ f reserved, via_pool r = true →
    prep_core (add_payload (s <| ps_acquired ::= λ l, l ++ [r] |> <| ps_reserved := reserved |>) r f)) as Hpool.
  { intros f reserved Hv. pose proof (core_acquired s r Hc Hr) as (H1 & H2 & H3). destruct Hc. split; simpl; try done.
    - rewrite fmap_app, p_places0. unfold places, queue. simpl. rewrite !fmap_app. simpl. solve_Permutation.
    - apply Forall_app. split; [done|]. repeat constructor; [done|]. by apply Hr.
    - apply Forall_app. split; [|repeat constructor; simpl; set_solver]. eapply Forall_impl; [|exact p_futures0].
      intros p Hp. apply elem_of_app. by left. }
  unfold s_acquire_mem_and_prepare_request.
  destruct (negb (pr_ticket r) && _ && _) eqn:Hcond.
  - apply andb_true_iff in Hcond as [[_ Hv]%andb_true_iff _]. destruct (negb (pm_requested_range_start_resolved mt)).
    { split; [by apply (Hpool _ (ps_reserved s))|done]. }
    destruct (aws_sub_u64_checked (pr_part_range_start r) _); (split; [by apply (Hpool _ _ Hv)|done]).
  - split; [|done]. apply Hdirect. destruct Hr as [_ Htk Hsz _ _]. destruct (via_pool r) eqn:Hv; [|done]. exfalso.
    unfold via_pool in Hv. rewrite Htk, Hv in Hcond by done. simpl in Hcond. apply Z.ltb_ge in Hcond. lia.
Qed.


Lemma prep_init_ok : prep_core prep_init ∧ drained prep_init.
Proof.
  assert (queue prep_init = []) as He by apply pq_elems_empty.
  split; [|by unfold drained; rewrite He]. split; unfold places; rewrite ?He; try done. constructor.
Qed.

Lemma prep_step_ok s s' : prep_core s → drained s → prep_step s s' → prep_core s' ∧ drained s'.
Proof.
  intros Hc Hd [r Hr|l1 r l2 f Hl Hf|e|l1 r f l2 s'' Hl Hf Hs]; [by apply acquired_ok|..].
  - split; [|done]. destruct Hc. rewrite Hl in *. split; simpl; try done.
    + rewrite p_places0. unfold places. rewrite Hl. simpl. by rewrite !fmap_app.
    + rewrite Forall_app, list.Forall_cons in *. done.
    + rewrite Forall_app, list.Forall_cons in *. done.
  - split; [|done]. destruct Hc. unfold aws_s3_meta_request_cancel_pending_buffer_futures_synced.
    assert ((map (cancel_ticket_future (ps_pending_buffer_futures s) e) (ps_payloads s)).*1 = (ps_payloads s).*1) as Hfst.
    { change (map ?f ?l) with (f <$> l). rewrite <-list_fmap_compose. apply list_fmap_ext. by intros i [r f] _. }
    split; simpl; try done.
    + unfold places. simpl. by rewrite Hfst.
    + apply Forall_map. eapply Forall_impl; [|exact p_payloads0]. by intros [r f].
    + apply Forall_map. eapply Forall_impl; [|exact p_futures0]. by intros [r f].
  - destruct (called_ok s l1 r f l2 Hc Hd Hl Hf) as (s1 & H1 & H2 & H3 & _). rewrite Hs in H1. by apply Ok_inj in H1 as ->.
Qed.

Definition prep_reachable s : Prop := rtc (prep_step) prep_init s.

Lemma prep_reachable_ok s : prep_reachable s → prep_core s ∧ drained s.
Proof.
  intros Hs. pose proof prep_init_ok as [Hc Hd]. unfold prep_reachable in Hs. revert Hc Hd.
  induction Hs as [|s s' s'' Hst Hs IH]; intros Hc Hd; [done|]. destruct (prep_step_ok s s' Hc Hd Hst). by apply IH.
Qed.

(** The next part was acquired when a later one waits. *)
Lemma waits_for_next s : prep_core s → drained s → queue s ≠ [] →
  ∃ r, r ∈ (ps_payloads s).*1 ++ (ps_failed s).*1 ∧ ordered r = true ∧ pr_part_number r = ps_next_put_part_to_prepare s.
Proof.
  intros Hc Hd Hq. destruct (queue s) as [|r q] eqn:Hqu; [done|]. clear Hq. assert (r ∈ queue s) as Hr by (rewrite Hqu; set_solver).
  pose proof (queue_after s r Hc Hr) as Hle. pose proof (p_queue _ Hc) as Ho. rewrite list.Forall_forall in Ho.
  destruct (Ho r Hr) as [Hor _]. assert (pr_part_number r ∈ parts (ps_acquired s)) as Hin.
  { rewrite places_parts by done. apply parts_elem; [|done]. unfold places. set_solver. }
  rewrite (p_acquired _ Hc) in Hin. apply elem_of_seqZ in Hin. pose proof (p_next _ Hc).
  assert (ps_next_put_part_to_prepare s ∈ parts (places s)) as Hnx.
  { rewrite <-places_parts by done. rewrite (p_acquired _ Hc). apply elem_of_seqZ. lia. }
  apply list_elem_of_fmap in Hnx as (x & Hx & [Hox Hxp]%list_elem_of_filter). exists x.
  assert (ordered x = true) as Hox' by (by destruct (ordered x)). split_and!; [|done|done].
  unfold places in Hxp. rewrite !elem_of_app in Hxp. rewrite elem_of_app. destruct Hxp as [?|[Hxq|[Hxp|?]]]; [by left| | |by right].
  - unfold drained in Hd. rewrite list.Forall_forall in Hd. by destruct (Hd x Hxq).
  - assert (pr_part_number x ∈ parts (ps_prepared s)) as He by (by apply parts_elem).
    rewrite (p_prepared _ Hc) in He. apply elem_of_seqZ in He. lia.
Qed.

(** * Theorems *)

(** C22: parts that read one stream are handed to their preparation in the order of their numbers,
    1, 2, 3 and so on, each once and with a buffer, in whatever order their buffers come and
    whatever fails. *)
Theorem prepared_in_order s : prep_reachable s →
  parts (ps_prepared s) = seqZ 1 (ps_next_put_part_to_prepare s - 1) ∧
  Forall (λ r, via_pool r = true → pr_ticket r = true) (ps_prepared s).
Proof. intros [[] _]%prep_reachable_ok. done. Qed.

(** C23: every request that was acquired waits for its buffer, waits for earlier parts, was handed
    over or has failed, in exactly one way; requests that failed have no ticket; the assertion in the
    callback of a reservation never fails; and a reservation that fails leaves nobody waiting for
    its part. *)
Theorem prepared_or_failed s : prep_reachable s →
  bare <$> ps_acquired s ≡ₚ bare <$> ((ps_payloads s).*1 ++ queue s ++ ps_prepared s ++ (ps_failed s).*1) ∧
  NoDup (pr_id <$> ps_acquired s) ∧ Forall (λ p, pr_ticket p.1 = false) (ps_failed s) ∧
  (∀ l1 r f l2, ps_payloads s = l1 ++ (r, f) :: l2 → f ≠ FutPending →
     ∃ s', s_on_pool_buffer_reserved (s <| ps_payloads := l1 ++ l2 |>) r f = Ok s' ∧
           (∀ e, f = FutError e → queue s' = [])).
Proof.
  intros [Hc Hd]%prep_reachable_ok. split_and!; [apply Hc..|]. intros l1 r f l2 Hl Hf.
  destruct (called_ok s l1 r f l2 Hc Hd Hl Hf) as (s' & H1 & _ & _ & _ & H2). eauto.
Qed.

(** a part waits in the queue only while the next part has no buffer yet or has failed: when
    all buffers came and nothing failed, every part was handed over. *)
Theorem queued_part_waits s : prep_reachable s →
  (queue s ≠ [] → ∃ r, r ∈ (ps_payloads s).*1 ++ (ps_failed s).*1 ∧ ordered r = true ∧
                      pr_part_number r = ps_next_put_part_to_prepare s) ∧
  (ps_payloads s = [] → ps_failed s = [] → queue s = [] ∧ bare <$> ps_acquired s ≡ₚ bare <$> ps_prepared s).
Proof.
  intros [Hc Hd]%prep_reachable_ok. assert (queue s ≠ [] → ∃ r, r ∈ (ps_payloads s).*1 ++ (ps_failed s).*1 ∧
    ordered r = true ∧ pr_part_number r = ps_next_put_part_to_prepare s) as Hw by (by apply waits_for_next).
  split; [done|]. intros Hp Hf. assert (queue s = []) as Hq.
  { destruct (queue s) as [|r q] eqn:Hq; [done|]. destruct Hw as (r' & Hr & _); [done|].
    rewrite Hp, Hf in Hr. set_solver. }
  split; [done|]. rewrite (p_places _ Hc). unfold places. by rewrite Hp, Hf, Hq, app_nil_r.
Qed.
End prepare.

(** * Runs *)

Module PrepareDemo.
#[local] Existing Instances aws_math_ref aws_math_ref_laws sorted_pq sorted_pq_laws.

(** An upload from a stream, whose parts have 100 bytes. *)
Definition mt : prep_meta := mkPrepMeta true false true 0.

Definition part (n : nat) : prep_request := mkPrepRequest n (Z.of_nat n) (Z.of_nat n * 100) (Z.of_nat n * 100 + 99) 100 true false.

Lemma sorted_push (q : pq prep_request pr_part_number) r : is_Some (aws_priority_queue_push q r).
Proof. by eexists. Qed.

Definition acquire (n : nat) (s : prep_state) : prep_state := s_acquire_mem_and_prepare_request mt s (part n).

Definition waiting_for (n : nat) : list (prep_request * ticket_future) := [(part n, FutPending)].

Definition settle (l1 l2 : list (prep_request * ticket_future)) (n : nat) (f : ticket_future) (s : prep_state) : prep_state :=
  s <| ps_payloads := l1 ++ (part n, f) :: l2 |>.

Definition call (l1 l2 : list (prep_request * ticket_future)) (n : nat) (f : ticket_future) (s : prep_state) : prep_state :=
  match s_on_pool_buffer_reserved mt (s <| ps_payloads := l1 ++ l2 |>) (part n) f with Ok s' => s' | _ => s end.

Definition grant l1 l2 n s : prep_state := call l1 l2 n FutTicket (settle l1 l2 n FutTicket s).

Lemma acquired_part n s : prep_reachable mt s →
  pr_id (part n) ∉ pr_id <$> ps_acquired s → Z.of_nat n < 2 ^ 32 - 1 →
  Z.of_nat n = Z.of_nat (length (filter (ordered mt) (ps_acquired s))) + 1 → prep_reachable mt (acquire n s).
Proof.
  intros Hs Hn Hb Hp. eapply rtc_r; [exact Hs|]. apply prep_acquired. split; [exact Hn|done| |intros _; exact Hp|exact Hb].
  unfold aws_s3_request_get_payload_size. simpl. rewrite bool_decide_true by lia.
  replace (_ - _) with 99 by lia. vm_compute. reflexivity.
Qed.

Lemma called_part l1 l2 n f s : prep_reachable mt s → ps_payloads s = l1 ++ (part n, f) :: l2 → f ≠ FutPending →
  prep_reachable mt (call l1 l2 n f s).
Proof.
  intros Hs Hl Hf. pose proof (prep_reachable_ok mt sorted_push s Hs) as [Hc Hd].
  destruct (called_ok mt sorted_push s l1 (part n) f l2 Hc Hd Hl Hf) as (s' & Hs' & _).
  eapply rtc_r; [exact Hs|]. unfold call. rewrite Hs'. by eapply prep_called.
Qed.

Lemma granted_part l1 l2 n s : prep_reachable mt s → ps_payloads s = l1 ++ (part n, FutPending) :: l2 →
  prep_reachable mt (grant l1 l2 n s).
Proof.
  intros Hs Hl. apply called_part; [|done|done]. eapply rtc_r; [exact Hs|]. by apply prep_settled.
Qed.

(** The buffer of the second part comes first. *)
Definition swapped : prep_state := grant [] [] 1 (grant (waiting_for 1) [] 2 (acquire 2 (acquire 1 prep_init))).

(** The second part is acquired after a cancellation that its reservation does not see. *)
Definition canceled : prep_state :=
  grant [] [] 2 (acquire 2 (call [] [] 1 (FutError AWS_ERROR_S3_CANCELED)
    (aws_s3_meta_request_cancel_pending_buffer_futures_synced (acquire 1 prep_init) AWS_ERROR_S3_CANCELED))).

Ltac acquired := apply acquired_part; [|vm_compute; set_solver|lia|vm_compute; reflexivity].

Lemma two_acquired : prep_reachable mt (acquire 2 (acquire 1 prep_init)).
Proof. acquired. acquired. apply rtc_refl. Qed.

Lemma swapped_steps : prep_reachable mt swapped.
Proof.
  apply granted_part; [|vm_compute; reflexivity]. apply granted_part; [|vm_compute; reflexivity]. apply two_acquired.
Qed.

Lemma canceled_steps : prep_reachable mt canceled.
Proof.
  apply granted_part; [|vm_compute; reflexivity]. acquired. apply called_part; [|vm_compute; reflexivity|done].
  eapply rtc_r; [|apply prep_canceled]. acquired. apply rtc_refl.
Qed.

(** A part whose buffer comes after an earlier part failed waits in the queue with nothing that would
    ever take it out: the callback of a failed reservation drains only what is in the queue then,
    and a failure does not cancel the reservations of others. *)
Lemma part_left_in_queue :
  prep_reachable mt canceled ∧ ps_payloads canceled = [] ∧ pr_part_number <$> queue canceled = [2] ∧
  ps_finish_result canceled = Some AWS_ERROR_S3_CANCELED.
Proof. split; [apply canceled_steps|]. split_and!; vm_compute; reflexivity. Qed.

Lemma prepared_in_order_witness : parts mt (ps_prepared swapped) = [1; 2].
Proof.
  destruct (prepared_in_order mt sorted_push swapped swapped_steps) as [H _]. rewrite H. vm_compute. reflexivity.
Defined.

Lemma prepared_or_failed_witness :
  length (ps_failed canceled) = 1%nat ∧ NoDup (pr_id <$> ps_acquired canceled).
Proof.
  destruct (prepared_or_failed mt sorted_push canceled canceled_steps) as (_ & H & _). split; [vm_compute; reflexivity|exact H].
Defined.

Lemma queued_part_waits_witness : ps_payloads swapped = [] ∧ ps_failed swapped = [] ∧ queue swapped = [].
Proof.
  assert (ps_payloads swapped = []) as Hp by (vm_compute; reflexivity).
  assert (ps_failed swapped = []) as Hf by (vm_compute; reflexivity).
  destruct (queued_part_waits mt sorted_push swapped swapped_steps) as [_ H]. destruct (H Hp Hf) as [Hq _].
  split; [exact Hp|]. split; [exact Hf|exact Hq].
Defined.
End PrepareDemo.
