(* ===== verification/Endpoints.v ===== *)
(** Endpoints, the making of meta requests and the end of a client (source/s3_client.c,
    source/s3_endpoint.c): who holds references to endpoints and to the client, which tasks are
    scheduled, and when the client is freed. *)

From Stdlib Require Import Init.Byte String.
From stdpp Require Import countable gmap.
From S2P Require Import Prelude AwsCommon ByteCursor HttpHeaders HttpMessage.

#[export] Instance byte_countable : Countable byte := inj_countable Byte.to_N Byte.of_N Byte.of_to_N.

Notation host := (list byte) (only parsing).

(** * Endpoints *)

Definition s_connection_timeout_ms : Z := 3000.
Definition s_http_port : Z := 80.
Definition s_https_port : Z := 443.

(** What of the options of a connection manager depends on the endpoint. *)
Record manager_options := mkManagerOptions {
  mgr_host : host;
  mgr_tls : bool;
  mgr_port : Z;
  mgr_max_connections : Z;
  mgr_connect_timeout_ms : Z;
}.

Definition s_s3_endpoint_create_http_connection_manager (host_name : host) (tls_connection_options : bool)
    (max_connections port connect_timeout_ms : Z) : manager_options :=
  mkManagerOptions host_name tls_connection_options
    (if tls_connection_options then if port =? 0 then s_https_port else port
     else if port =? 0 then s_http_port else port)
    max_connections (if connect_timeout_ms =? 0 then s_connection_timeout_ms else connect_timeout_ms).

(** [struct aws_s3_endpoint]; [ep_manager] is how its connection manager was set up. *)
Record endpoint := mkEndpoint { ep_ref_count : Z; ep_manager : manager_options }.
#[export] Instance endpoint_eta : Eta endpoint := λ e, mkEndpoint (ep_ref_count e) (ep_manager e).

(** * The client *)

(** Where the worker task is: it has taken its data, and it may have to run the cleanup task
    before it goes on. *)
Inductive work_phase := WorkIdle | WorkCancels | Working.

(** Where [s_s3_client_start_destroy] is. *)
Inductive destroy_phase := NotDestroyed | Releasing | Released | Destroyed.

#[export] Instance work_phase_eq_dec : EqDecision work_phase.
Proof. solve_decision. Defined.
#[export] Instance destroy_phase_eq_dec : EqDecision destroy_phase.
Proof. solve_decision. Defined.

(** A connection: the number of its meta request, and whether it holds a reference to the client
    while it is acquired. *)
Record conn := mkConnHold { cx_meta : nat; cx_host : host; cx_acquiring : bool }.

(** The flags and counters of [synced_data] that decide about the end of the client, the table of
    endpoints, and what is outstanding: whether the cleanup task and the task that trims the pool are in the
    event loop and how often the pool was trimmed, the meta requests of pending writes, endpoints
    whose connection manager shuts down, who holds references, connections that gave up their
    request, and threads that gave up their connection and will still lock the client, with whether
    they hold a reference to it. *)
Record shut_state := mkShut {
  sh_active : bool;
  sh_start_destroy_executing : bool;
  sh_process_work_task_scheduled : bool;
  sh_process_work_task_in_progress : bool;
  sh_body_streaming_elg_allocated : bool;
  sh_file_io_elg_allocated : bool;
  sh_s3express_provider_active : bool;
  sh_finish_destroy : bool;
  sh_endpoints_cleanup_task_scheduled : bool;
  sh_endpoints : gmap host endpoint;
  sh_num_endpoints_allocated : Z;
  sh_ref_count : Z;
  sh_trim_buffer_pool_task_scheduled : bool;
  sh_num_pending_writes : Z;
  (* outside of the client *)
  sh_cleanup_queued : bool;
  sh_trim_queued : bool;
  sh_pool_trims : nat;
  sh_writes : list nat;
  sh_closing : list host;
  sh_users : nat;
  sh_metas : list (nat * option host);
  sh_conns : list conn;
  sh_ending : list (host * bool);
  sh_notifying : list bool;
  sh_work : work_phase;
  sh_destroy : destroy_phase;
  sh_freed : bool;
}.
#[export] Instance shut_state_eta : Eta shut_state := λ s,
  mkShut (sh_active s) (sh_start_destroy_executing s) (sh_process_work_task_scheduled s)
    (sh_process_work_task_in_progress s) (sh_body_streaming_elg_allocated s) (sh_file_io_elg_allocated s)
    (sh_s3express_provider_active s) (sh_finish_destroy s) (sh_endpoints_cleanup_task_scheduled s) (sh_endpoints s)
    (sh_num_endpoints_allocated s) (sh_ref_count s) (sh_trim_buffer_pool_task_scheduled s) (sh_num_pending_writes s)
    (sh_cleanup_queued s) (sh_trim_queued s) (sh_pool_trims s) (sh_writes s) (sh_closing s) (sh_users s) (sh_metas s)
    (sh_conns s) (sh_ending s) (sh_notifying s) (sh_work s) (sh_destroy s) (sh_freed s).

Implicit Types (s : shut_state) (h : host) (m : nat).

(** A client that was just made has one reference. *)
Definition shut_init : shut_state :=
  mkShut true false false false true true false false false ∅ 0 1 false 0 false false 0 [] [] 1 [] [] [] [] WorkIdle NotDestroyed false.

(** [s_s3_client_schedule_process_work_synced] *)
Definition schedule_work s : shut_state := s <| sh_process_work_task_scheduled := true |>.

(** ** References *)

Definition aws_s3_client_acquire s : shut_state := s <| sh_ref_count ::= Z.succ |>.
Definition aws_s3_client_release s : shut_state := s <| sh_ref_count ::= Z.pred |>.

(** A reference to an endpoint that is gone is a dangling pointer. *)
Definition s_s3_endpoint_acquire s h : res shut_state :=
  match sh_endpoints s !! h with
  | None => FatalAssert
  | Some e => Ok (s <| sh_endpoints ::= <[h := e <| ep_ref_count ::= Z.succ |>]> |>)
  end.

(** The rest of the end of an endpoint is up to its connection manager. *)
Definition aws_s3_endpoint_destroy s h (e : endpoint) : res shut_state :=
  if negb (ep_ref_count e =? 0) then FatalAssert else Ok (s <| sh_closing ::= λ l, l ++ [h] |>).

Definition s_s3_endpoint_release s h : res shut_state :=
  match sh_endpoints s !! h with
  | None => FatalAssert
  | Some e =>
      let should_destroy := (ep_ref_count e =? 1) && negb (sh_active s) in
      let e := e <| ep_ref_count ::= Z.pred |> in
      if should_destroy then aws_s3_endpoint_destroy (s <| sh_endpoints ::= delete h |>) h e
      else Ok (s <| sh_endpoints ::= <[h := e]> |>)
  end.

Definition s_s3_client_endpoint_shutdown_callback s : shut_state :=
  schedule_work (s <| sh_num_endpoints_allocated ::= λ n, n -[32] 1 |>).

(** ** The cleanup task *)

Fixpoint destroy_endpoints s (l : list (host * endpoint)) : res shut_state :=
  match l with
  | [] => Ok s
  | (h, e) :: l => s' ← aws_s3_endpoint_destroy s h e; destroy_endpoints s' l
  end.

Definition s_s3_endpoints_cleanup_task s : res shut_state :=
  let s := s <| sh_endpoints_cleanup_task_scheduled := false |> in
  let endpoints_to_release := map_to_list (filter (λ '(_, e), ep_ref_count e = 0) (sh_endpoints s)) in
  let s := s <| sh_endpoints ::= filter (λ '(_, e), ep_ref_count e ≠ 0) |> in
  s' ← destroy_endpoints s endpoints_to_release;
  Ok (schedule_work s').

Definition s_s3_client_schedule_endpoints_cleanup_synced s : shut_state :=
  if sh_endpoints_cleanup_task_scheduled s then s
  else s <| sh_endpoints_cleanup_task_scheduled := true |> <| sh_cleanup_queued := true |>.

(** ** The task that trims the buffer pool *)

(** [num_reqs_in_flight] is the client's count of requests in flight; what trimming does to the
    pool is [aws_s3_default_buffer_pool_trim], here it is counted.  [canceled] is the status of
    the task. *)
Definition s_s3_client_trim_buffer_pool_task s (canceled : bool) (num_reqs_in_flight : Z) : shut_state :=
  if canceled then s
  else
    let s := s <| sh_trim_buffer_pool_task_scheduled := false |> in
    if num_reqs_in_flight =? 0 then s <| sh_pool_trims ::= S |> else s.

Definition s_s3_client_schedule_buffer_pool_trim_synced s (num_reqs_in_flight : Z) : shut_state :=
  if sh_trim_buffer_pool_task_scheduled s then s
  else if 0 <? num_reqs_in_flight then s
  else s <| sh_trim_queued := true |> <| sh_trim_buffer_pool_task_scheduled := true |>.

(** ** The worker *)

(** Step 1 of [s_s3_client_process_work_default], as far as it concerns the end of the client. *)
Definition process_work_starts s (num_reqs_in_flight : Z) : shut_state :=
  let s := s <| sh_process_work_task_scheduled := false |> <| sh_process_work_task_in_progress := true |>
             <| sh_work := Working |> in
  if sh_active s then
    s_s3_client_schedule_endpoints_cleanup_synced (s_s3_client_schedule_buffer_pool_trim_synced s num_reqs_in_flight)
  else if sh_endpoints_cleanup_task_scheduled s then
    s <| sh_endpoints_cleanup_task_scheduled := false |> <| sh_work := WorkCancels |>
  else s.

(** Canceling the task runs it. *)
Definition process_work_cancels s : res shut_state :=
  s' ← s_s3_endpoints_cleanup_task (s <| sh_cleanup_queued := false |>);
  Ok (s' <| sh_work := Working |>).

Definition may_finish_destroy s : bool :=
  negb (sh_active s) && negb (sh_start_destroy_executing s) && negb (sh_body_streaming_elg_allocated s)
  && negb (sh_file_io_elg_allocated s) && negb (sh_process_work_task_scheduled s)
  && negb (sh_process_work_task_in_progress s) && negb (sh_s3express_provider_active s)
  && (sh_num_endpoints_allocated s =? 0).

(** Canceling the task that trims runs it with that status.  No write may be pending, and no meta
    request may be left: each entry of the lists that the code asserts to be empty has a
    reference to one. *)
Definition s_s3_client_finish_destroy_default s : res shut_state :=
  let s :=
    if sh_trim_buffer_pool_task_scheduled s then s_s3_client_trim_buffer_pool_task (s <| sh_trim_queued := false |>) true 0
    else s in
  if negb (sh_num_pending_writes s =? 0) then FatalAssert
  else match sh_metas s with [] => Ok (s <| sh_freed := true |>) | _ => FatalAssert end.

(** Step 5. *)
Definition process_work_finishes s : res shut_state :=
  let s := s <| sh_process_work_task_in_progress := false |> <| sh_work := WorkIdle |> in
  if sh_finish_destroy s then FatalAssert
  else
    let finish_destroy := may_finish_destroy s in
    let s := s <| sh_finish_destroy := finish_destroy |> in
    if finish_destroy then s_s3_client_finish_destroy_default s else Ok s.

(** ** The end of the client *)

(** The first critical section of [s_s3_client_start_destroy]. *)
Definition start_destroy_begin s : shut_state :=
  let s := s <| sh_active := false |> in
  let s :=
    if sh_endpoints_cleanup_task_scheduled s then s
    else s <| sh_endpoints_cleanup_task_scheduled := true |> <| sh_cleanup_queued := true |> in
  s <| sh_start_destroy_executing := true |> <| sh_destroy := Releasing |>.

(** The event loop groups and the provider are released; their callbacks come later. *)
Definition start_destroy_release s : shut_state := s <| sh_destroy := Released |>.

Definition start_destroy_end s : shut_state :=
  schedule_work (s <| sh_start_destroy_executing := false |>) <| sh_destroy := Destroyed |>.

Definition s_s3_client_body_streaming_elg_shutdown s : shut_state :=
  schedule_work (s <| sh_body_streaming_elg_allocated := false |>).

Definition s_s3_client_file_io_elg_shutdown s : shut_state :=
  schedule_work (s <| sh_file_io_elg_allocated := false |>).

Definition s_s3express_provider_finish_destroy s : shut_state :=
  schedule_work (s <| sh_s3express_provider_active := false |>).

(** ** Meta requests and connections *)

(** [aws_s3_meta_request_finish] gives up the endpoint. *)
Definition meta_finishes s m h : res shut_state :=
  s' ← s_s3_endpoint_release s h;
  Ok (s' <| sh_metas ::= fmap (λ '(m', o), if bool_decide (m' = m) then (m', None) else (m', o)) |>).

(** The end of a meta request, which may still have its endpoint. *)
Definition meta_destroyed s m (o : option host) : res shut_state :=
  s' ← (match o with Some h => s_s3_endpoint_release s h | None => Ok s end);
  Ok (aws_s3_client_release (s' <| sh_metas ::= filter (λ p, p.1 ≠ m) |>)).

(** A connection is made, and is acquired with a reference to the client. *)
Definition connection_made s m h : res shut_state :=
  s' ← s_s3_endpoint_acquire s h;
  Ok (s' <| sh_conns ::= λ l, l ++ [mkConnHold m h false] |>).

(** A body is handed to a write worker, in [aws_s3_meta_request_stream_response_body_synced]; the
    write keeps its meta request. *)
Definition write_queued s m : shut_state :=
  s <| sh_num_pending_writes ::= λ n, n +[64] 1 |> <| sh_writes ::= λ l, l ++ [m] |>.

(** The end of [s_s3_body_write_task], before the write gives up its meta request. *)
Definition write_done s : res shut_state :=
  if 0 <? sh_num_pending_writes s then Ok (schedule_work (s <| sh_num_pending_writes ::= λ n, n -[64] 1 |>)) else FatalAssert.

(** The end of a connection in [aws_s3_client_notify_connection_finished]: it gives up its request,
    then its endpoint, and then the client is locked; a reference to the client that was kept for
    acquiring the connection is given up after that. *)
Definition connection_ends s (c : conn) : shut_state := s <| sh_ending ::= λ l, l ++ [(cx_host c, cx_acquiring c)] |>.

Definition connection_leaves s h (kept : bool) : res shut_state :=
  s' ← s_s3_endpoint_release s h;
  Ok (s' <| sh_notifying ::= λ l, l ++ [kept] |>).

Definition connection_notifies s (kept : bool) : shut_state :=
  let s := schedule_work s in
  if kept then aws_s3_client_release s else s.

(** * Making a meta request *)

(** What of an [aws_uri] is used. *)
Record uri := mkUri { uri_scheme : list byte; uri_authority : list byte; uri_host_name : host; uri_port : Z }.

Definition AWS_S3_META_REQUEST_TYPE_MAX : Z := 4.
Definition g_host_header_name : list byte := lit "Host".

(** [struct aws_s3_meta_request_options]: [mo_s3express] is whether a signing configuration is
    given and signs for S3 Express, and a message has headers or not. *)
Record make_options := mkMakeOptions {
  mo_type : Z;
  mo_s3express : option bool;
  mo_message : option (option http_headers);
  mo_endpoint : option uri;
}.

(** Settings of the client. *)
Record make_client := mkMakeClient {
  mc_s3express : option bool;
  mc_s3express_provider_factory : bool;
  mc_tls_connection_options : bool;
  mc_connect_timeout_ms : Z;
  mc_max_active_connections : Z;
}.

(** What other code answers. *)
Record make_env := mkMakeEnv {
  me_meta_request_factory : option aws_error;
  me_s3express_provider : option aws_error;
  me_uri_parse : list byte → result aws_error uri;
  me_hash_table_create : option aws_error;
  me_endpoint_new : option aws_error;
}.

(** The meta request or an error, the headers of the message, and how often the string with the name
    of the host was freed. *)
Record made_meta := mkMade {
  md_result : result aws_error unit;
  md_state : shut_state;
  md_headers : option http_headers;
  md_name_freed : nat;
}.

Section make.
Context `{B : !AwsByteCursor} `{H : !AwsHttpHeaders}.

Definition s_apply_endpoint_override (message_headers : http_headers) (endpoint : option uri)
    : res (result aws_error http_headers) :=
  let endpoint_authority := uri_authority <$> endpoint in
  let with_host :=
    match aws_http_headers_get message_headers g_host_header_name, endpoint_authority with
    | Some _, _ => Success message_headers
    | None, Some authority => Success (aws_http_headers_set message_headers g_host_header_name authority)
    | None, None => Failure AWS_ERROR_INVALID_ARGUMENT
    end in
  match with_host with
  | Failure e => Ok (Failure e)
  | Success headers =>
      match aws_http_headers_get headers g_host_header_name, endpoint_authority with
      | None, _ => FatalAssert
      | Some host_value, Some authority =>
          if bool_decide (host_value = authority) then Ok (Success headers) else Ok (Failure AWS_ERROR_INVALID_ARGUMENT)
      | Some _, None => Ok (Success headers)
      end
  end.

(** Whether the scheme of an endpoint is HTTPS. *)
Definition endpoint_is_https (endpoint : option uri) : result aws_error bool :=
  match endpoint with
  | None => Success true
  | Some u =>
      let is_https := aws_byte_cursor_eq_ignore_case (uri_scheme u) (lit "https") in
      if negb is_https && negb (aws_byte_cursor_eq_ignore_case (uri_scheme u) (lit "http"))
      then Failure AWS_ERROR_INVALID_ARGUMENT else Success is_https
  end.

(** The critical section: the provider of S3 Express, the name of the host and the endpoint. *)
Definition make_endpoint (mc : make_client) (env : make_env) s (use_s3express is_https : bool) (endpoint : option uri)
    (host_header_value : list byte) : result aws_error host * shut_state * nat :=
  let provider :=
    if use_s3express && negb (sh_s3express_provider_active s) then
      match me_s3express_provider env with
      | Some e => Failure e
      | None => Success (s <| sh_s3express_provider_active := true |>)
      end
    else Success s in
  match provider with
  | Failure e => (Failure e, s, 0%nat)
  | Success s =>
      match (match endpoint with Some u => Success u | None => me_uri_parse env host_header_value end) with
      | Failure e => (Failure e, s, 0%nat)
      | Success u =>
          let endpoint_host_name := uri_host_name u in
          match me_hash_table_create env with
          | Some e => (Failure e, s, 1%nat)
          | None =>
              match sh_endpoints s !! endpoint_host_name with
              | None =>
                  let manager :=
                    s_s3_endpoint_create_http_connection_manager endpoint_host_name
                      (is_https && mc_tls_connection_options mc) (mc_max_active_connections mc) (uri_port u)
                      (mc_connect_timeout_ms mc) in
                  match me_endpoint_new env with
                  | Some e =>
                      (* removing the entry frees its key *)
                      (Failure e, s, 2%nat)
                  | None =>
                      (Success endpoint_host_name,
                       s <| sh_endpoints ::= <[endpoint_host_name := mkEndpoint 1 manager]> |>
                         <| sh_num_endpoints_allocated ::= λ n, n +[32] 1 |>, 0%nat)
                  end
              | Some e =>
                  (Success endpoint_host_name,
                   s <| sh_endpoints ::= <[endpoint_host_name := e <| ep_ref_count ::= Z.succ |>]> |>, 1%nat)
              end
          end
      end
  end.

(** The meta request gets the number [m]; when it cannot be used it is released, and with it the
    reference to the client that it took. *)
Definition aws_s3_client_make_meta_request (mc : make_client) (env : make_env) s (options : make_options) m : res made_meta :=
  let fails e := Ok (mkMade (Failure e) s None 0) in
  let use_s3express_signing :=
    match mo_s3express options, mc_s3express mc with Some b, _ => b | None, Some b => b | None, None => false end in
  if AWS_S3_META_REQUEST_TYPE_MAX <=? mo_type options then fails AWS_ERROR_INVALID_ARGUMENT
  else
    match mo_message options with
    | None => fails AWS_ERROR_INVALID_ARGUMENT
    | Some message =>
        if use_s3express_signing && negb (mc_s3express_provider_factory mc) then fails AWS_ERROR_INVALID_ARGUMENT
        else
          match message with
          | None => fails AWS_ERROR_INVALID_ARGUMENT
          | Some message_headers =>
              overridden ← s_apply_endpoint_override message_headers (mo_endpoint options);
              match overridden with
              | Failure e => fails e
              | Success message_headers =>
                  match aws_http_headers_get message_headers g_host_header_name with
                  | None => FatalAssert
                  | Some host_header_value =>
                      let stops e s n := Ok (mkMade (Failure e) s (Some message_headers) n) in
                      match endpoint_is_https (mo_endpoint options) with
                      | Failure e => stops e s 0%nat
                      | Success is_https =>
                          match me_meta_request_factory env with
                          | Some e => stops e s 0%nat
                          | None =>
                              let s := aws_s3_client_acquire s in
                              match make_endpoint mc env s use_s3express_signing is_https (mo_endpoint options)
                                      host_header_value with
                              | (Failure e, s, n) => stops e (aws_s3_client_release s) n
                              | (Success h, s, n) =>
                                  Ok (mkMade (Success tt)
                                        (schedule_work (s <| sh_metas ::= λ l, l ++ [(m, Some h)] |>))
                                        (Some message_headers) n)
                              end
                          end
                      end
                  end
              end
          end
    end.
End make.
