(* ===== verification/Shutdown.v ===== *)
(** The end of a client and its endpoints (Endpoints.v): the order in which references, tasks,
    callbacks and the worker come, what holds in every state, and the theorems. *)

From Stdlib Require Import Init.Byte String.
From stdpp Require Import relations.
From S2P Require Import Prelude AwsCommon Counting ByteCursor HttpHeaders HttpMessage Endpoints.

Section shutdown.
Context `{B : !AwsByteCursor} `{H : !AwsHttpHeaders} (mc : make_client).
Implicit Types (s : shut_state) (h : host) (m : nat) (t : gmap host endpoint) (hold : host → Z).

(** * Steps *)

(** Every operation with when it happens; a meta request is made and users come by someone who has a
    reference, and the callbacks of what start_destroy released come after that. *)
Inductive shut_op s : res shut_state → Prop :=
| op_made env options m r : (0 < sh_users s)%nat → m ∉ (sh_metas s).*1 → sh_num_endpoints_allocated s < 2 ^ 32 - 1 →
    aws_s3_client_make_meta_request mc env s options m = r →
    shut_op s (made ← r; Ok (md_state made))
| op_user_acquired : (0 < sh_users s)%nat → shut_op s (Ok (aws_s3_client_acquire (s <| sh_users ::= S |>)))
| op_user_released n : sh_users s = S n → shut_op s (Ok (aws_s3_client_release (s <| sh_users := n |>)))
| op_meta_finished m h : (m, Some h) ∈ sh_metas s → shut_op s (meta_finishes s m h)
| op_meta_destroyed m o : (m, o) ∈ sh_metas s → Forall (λ c, cx_meta c ≠ m) (sh_conns s) → m ∉ sh_writes s →
    shut_op s (meta_destroyed s m o)
| op_conn_made m h : (m, Some h) ∈ sh_metas s → shut_op s (connection_made s m h)
| op_conn_acquires l1 m h l2 : sh_conns s = l1 ++ mkConnHold m h false :: l2 →
    shut_op s (Ok (aws_s3_client_acquire (s <| sh_conns := l1 ++ mkConnHold m h true :: l2 |>)))
| op_conn_acquired l1 m h l2 : sh_conns s = l1 ++ mkConnHold m h true :: l2 →
    shut_op s (Ok (aws_s3_client_release (s <| sh_conns := l1 ++ mkConnHold m h false :: l2 |>)))
| op_conn_ended l1 c l2 : sh_conns s = l1 ++ c :: l2 → shut_op s (Ok (connection_ends (s <| sh_conns := l1 ++ l2 |>) c))
| op_conn_left l1 h kept l2 : sh_ending s = l1 ++ (h, kept) :: l2 →
    shut_op s (connection_leaves (s <| sh_ending := l1 ++ l2 |>) h kept)
| op_conn_notified l1 kept l2 : sh_notifying s = l1 ++ kept :: l2 →
    shut_op s (Ok (connection_notifies (s <| sh_notifying := l1 ++ l2 |>) kept))
| op_write_queued m o : (m, o) ∈ sh_metas s → sh_num_pending_writes s < 2 ^ 64 - 1 → shut_op s (Ok (write_queued s m))
| op_write_done l1 m l2 : sh_writes s = l1 ++ m :: l2 → shut_op s (write_done (s <| sh_writes := l1 ++ l2 |>))
| op_scheduled : 0 < sh_ref_count s → shut_op s (Ok (schedule_work s))
| op_destroy_began : sh_ref_count s = 0 → sh_destroy s = NotDestroyed → shut_op s (Ok (start_destroy_begin s))
| op_destroy_released : sh_destroy s = Releasing → shut_op s (Ok (start_destroy_release s))
| op_destroy_ended : sh_destroy s = Released → shut_op s (Ok (start_destroy_end s))
| op_streaming_shut : sh_destroy s = Released ∨ sh_destroy s = Destroyed → sh_body_streaming_elg_allocated s = true →
    shut_op s (Ok (s_s3_client_body_streaming_elg_shutdown s))
| op_file_io_shut : sh_destroy s = Released ∨ sh_destroy s = Destroyed → sh_file_io_elg_allocated s = true →
    shut_op s (Ok (s_s3_client_file_io_elg_shutdown s))
| op_provider_shut : sh_destroy s = Released ∨ sh_destroy s = Destroyed → sh_s3express_provider_active s = true →
    shut_op s (Ok (s_s3express_provider_finish_destroy s))
| op_manager_shut l1 h l2 : sh_closing s = l1 ++ h :: l2 →
    shut_op s (Ok (s_s3_client_endpoint_shutdown_callback (s <| sh_closing := l1 ++ l2 |>)))
| op_work_started num_reqs_in_flight : sh_work s = WorkIdle → sh_process_work_task_scheduled s = true →
    shut_op s (Ok (process_work_starts s num_reqs_in_flight))
| op_work_canceled : sh_work s = WorkCancels → shut_op s (process_work_cancels s)
| op_work_finished : sh_work s = Working → shut_op s (process_work_finishes s)
| op_cleanup : sh_work s = WorkIdle → sh_cleanup_queued s = true →
    shut_op s (s_s3_endpoints_cleanup_task (s <| sh_cleanup_queued := false |>))
| op_trim num_reqs_in_flight : sh_work s = WorkIdle → sh_trim_queued s = true →
    shut_op s (Ok (s_s3_client_trim_buffer_pool_task (s <| sh_trim_queued := false |>) false num_reqs_in_flight)).

(** Nothing happens to a client that is freed. *)
Definition shut_step s s' : Prop := sh_freed s = false ∧ shut_op s (Ok s').

Definition shut_reachable s : Prop := rtc shut_step shut_init s.

(** * Endpoints and who holds them *)

Definition holders s h : Z :=
  count (λ p, bool_decide (p.2 = Some h)) (sh_metas s) + count (λ c, bool_decide (cx_host c = h)) (sh_conns s)
  + count (λ p, bool_decide (p.1 = h)) (sh_ending s).

(** The table [t], endpoints that are closing, and their number, when [hold] counts who holds what. *)
Record eps_ok t (closing : list host) (n : Z) hold : Prop := {
  e_refs h e : t !! h = Some e → ep_ref_count e = hold h;
  e_there h : 0 < hold h → is_Some (t !! h);
  e_num : n = Z.of_nat (base.size t) + Z.of_nat (length closing);
  e_bound : n < 2 ^ 32;
  e_hold h : 0 ≤ hold h;
}.

Definition all_held t : Prop := ∀ h e, t !! h = Some e → ep_ref_count e ≠ 0.

Definition more hold h : host → Z := λ h', if bool_decide (h' = h) then hold h' + 1 else hold h'.
Definition less hold h : host → Z := λ h', if bool_decide (h' = h) then hold h' - 1 else hold h'.

Lemma eps_ext t l n hold hold' : (∀ h, hold h = hold' h) → eps_ok t l n hold → eps_ok t l n hold'.
Proof. intros Hh [H1 H2 H3 H4 H5]. split; intros; rewrite <-?Hh in *; eauto. Qed.

(** One more holder of an endpoint of the table. *)
Lemma eps_acquired t l n hold h e : eps_ok t l n hold → t !! h = Some e →
  let t' := <[h := e <| ep_ref_count ::= Z.succ |>]> t in
  eps_ok t' l n (more hold h) ∧ (all_held t → all_held t').
Proof.
  intros [H1 H2 H3 H4 H5] He. pose proof (H5 h) as Hh. unfold more. split; [split|].
  - intros h' e' [[<- <-]|[Hne He']]%lookup_insert_Some; simpl.
    + rewrite bool_decide_true by done. rewrite (H1 _ _ He). lia.
    + rewrite bool_decide_false by done. by apply H1.
  - intros h' Hh'. destruct (decide (h' = h)) as [->|Hne].
    + rewrite lookup_insert_eq. done.
    + rewrite lookup_insert_ne by done. rewrite bool_decide_false in Hh' by done. by apply H2.
  - by rewrite map_size_insert_Some by (by eexists).
  - done.
  - intros h'. specialize (H5 h'). case_bool_decide; lia.
  - intros Ha h' e' [[<- <-]|[Hne He']]%lookup_insert_Some; simpl; [|by eapply Ha]. rewrite (H1 _ _ He). lia.
Qed.

(** A new endpoint with one holder. *)
Lemma eps_created t l n hold h manager : eps_ok t l n hold → t !! h = None → n < 2 ^ 32 - 1 →
  let t' := <[h := mkEndpoint 1 manager]> t in
  eps_ok t' l (n +[32] 1) (more hold h) ∧ (all_held t → all_held t').
Proof.
  intros [H1 H2 H3 H4 H5] He Hn. assert (hold h = 0) as Hz.
  { pose proof (H5 h). destruct (decide (0 < hold h)) as [Hh|]; [|lia]. apply H2 in Hh as [? Hs]. congruence. }
  assert (n +[32] 1 = n + 1) as -> by (apply wrap_small; unfold uint; lia). unfold more. split; [split|].
  - intros h' e' [[<- <-]|[Hne He']]%lookup_insert_Some; simpl.
    + rewrite bool_decide_true by done. lia.
    + rewrite bool_decide_false by done. by apply H1.
  - intros h' Hh'. destruct (decide (h' = h)) as [->|Hne].
    + rewrite lookup_insert_eq. done.
    + rewrite lookup_insert_ne by done. rewrite bool_decide_false in Hh' by done. by apply H2.
  - rewrite map_size_insert_None by done. lia.
  - lia.
  - intros h'. specialize (H5 h'). case_bool_decide; lia.
  - intros Ha h' e' [[<- <-]|[Hne He']]%lookup_insert_Some; simpl; [done|by eapply Ha].
Qed.

Lemma acquire_spec s h hold : eps_ok (sh_endpoints s) (sh_closing s) (sh_num_endpoints_allocated s) hold → 0 < hold h →
  ∃ t, s_s3_endpoint_acquire s h = Ok (s <| sh_endpoints := t |>) ∧
       eps_ok t (sh_closing s) (sh_num_endpoints_allocated s) (more hold h) ∧ (all_held (sh_endpoints s) → all_held t).
Proof.
  intros Hok Hh. destruct (e_there _ _ _ _ Hok h Hh) as [e He]. unfold s_s3_endpoint_acquire. rewrite He.
  eexists. split; [reflexivity|]. by apply eps_acquired.
Qed.

Lemma release_spec s h hold : eps_ok (sh_endpoints s) (sh_closing s) (sh_num_endpoints_allocated s) hold → 0 < hold h →
  ∃ t l, s_s3_endpoint_release s h = Ok (s <| sh_endpoints := t |> <| sh_closing := l |>) ∧
         eps_ok t l (sh_num_endpoints_allocated s) (less hold h) ∧
         (sh_active s = false → all_held (sh_endpoints s) → all_held t).
Proof.
  intros [H1 H2 H3 H4 H5] Hh. destruct (H2 h Hh) as [e He]. pose proof (H1 _ _ He) as Hr.
  unfold s_s3_endpoint_release, aws_s3_endpoint_destroy. rewrite He, Hr. simpl. rewrite Hr. destruct (_ && _) eqn:Hd.
  - apply andb_true_iff in Hd as [Hone%Z.eqb_eq Ha%negb_true_iff]. rewrite Hone. simpl.
    eexists _, _. split; [reflexivity|]. unfold less. split; [split|].
    + intros h' e' [Hne He']%lookup_delete_Some. rewrite bool_decide_false by done. by apply H1.
    + intros h' Hh'. destruct (decide (h' = h)) as [->|Hne].
      * rewrite bool_decide_true in Hh' by done. lia.
      * rewrite lookup_delete_ne by done. rewrite bool_decide_false in Hh' by done. by apply H2.
    + rewrite map_size_delete_Some by (by eexists). rewrite length_app. simpl.
      assert (base.size (sh_endpoints s) ≠ 0%nat) by (apply map_size_ne_0_lookup; eauto). lia.
    + done.
    + intros h'. specialize (H5 h'). case_bool_decide; subst; lia.
    + intros _ Hall h' e' [Hne He']%lookup_delete_Some. by eapply Hall.
  - eexists _, (sh_closing s). split; [reflexivity|]. unfold less. split; [split|].
    + intros h' e' [[<- <-]|[Hne He']]%lookup_insert_Some; simpl.
      * rewrite bool_decide_true by done. lia.
      * rewrite bool_decide_false by done. by apply H1.
    + intros h' Hh'. destruct (decide (h' = h)) as [->|Hne].
      * by rewrite lookup_insert_eq.
      * rewrite lookup_insert_ne by done. rewrite bool_decide_false in Hh' by done. by apply H2.
    + by rewrite map_size_insert_Some by (by eexists).
    + done.
    + intros h'. specialize (H5 h'). case_bool_decide; subst; lia.
    + intros Ha Hall h' e' [[<- <-]|[Hne He']]%lookup_insert_Some; simpl; [|by eapply Hall].
      rewrite Ha, andb_true_r in Hd. apply Z.eqb_neq in Hd. lia.
Qed.

Lemma destroy_endpoints_spec s l : Forall (λ p, ep_ref_count p.2 = 0) l →
  destroy_endpoints s l = Ok (s <| sh_closing ::= λ k, k ++ l.*1 |>).
Proof.
  revert s. induction l as [|[h e] l IH]; intros s Hl; simpl.
  - rewrite app_nil_r. by destruct s.
  - apply Forall_cons_1 in Hl as [He Hl]. simpl in He. unfold aws_s3_endpoint_destroy. rewrite He. simpl.
    rewrite IH by done. simpl. by rewrite <-app_assoc.
Qed.

Lemma cleanup_spec s hold : eps_ok (sh_endpoints s) (sh_closing s) (sh_num_endpoints_allocated s) hold →
  ∃ t l, s_s3_endpoints_cleanup_task s =
           Ok (schedule_work (s <| sh_endpoints_cleanup_task_scheduled := false |> <| sh_endpoints := t |> <| sh_closing := l |>)) ∧
         eps_ok t l (sh_num_endpoints_allocated s) hold ∧ all_held t.
Proof.
  intros [H1 H2 H3 H4 H5]. unfold s_s3_endpoints_cleanup_task. rewrite destroy_endpoints_spec.
  2: { apply list.Forall_forall. intros [h e] Hp. apply elem_of_map_to_list in Hp. apply map_lookup_filter_Some in Hp. apply Hp. }
  eexists _, _. split; [reflexivity|]. simpl. split; [split|].
  - intros h e [He _]%map_lookup_filter_Some. by apply H1.
  - intros h Hh. destruct (H2 h Hh) as [e He]. exists e. apply map_lookup_filter_Some. split; [done|].
    rewrite (H1 _ _ He). lia.
  - rewrite H3, length_app, length_fmap, length_map_to_list.
    rewrite <-(map_filter_union_complement (λ '(_, e), ep_ref_count e = 0) (sh_endpoints s)) at 1.
    rewrite map_size_disj_union by apply map_disjoint_filter_complement.
    assert (filter (λ v : host * endpoint, ¬ (let '(_, e) := v in ep_ref_count e = 0)) (sh_endpoints s) =
      filter (λ '(_, e), ep_ref_count e ≠ 0) (sh_endpoints s)) as ->; [|lia].
    apply map_filter_ext. by intros h e _.
  - done.
  - done.
  - intros h e [_ He]%map_lookup_filter_Some. done.
Qed.

(** What the critical section of making a meta request does to the client. *)
Lemma make_endpoint_result env s use https ep hv :
  let '(r, s', _) := make_endpoint mc env s use https ep hv in
  ∃ p t n, s' = s <| sh_s3express_provider_active := p |> <| sh_endpoints := t |> <| sh_num_endpoints_allocated := n |> ∧
    (p = false → sh_s3express_provider_active s = false) ∧
    match r with
    | Success h =>
        (∀ u, ep = Some u → h = uri_host_name u) ∧
        match sh_endpoints s !! h with
        | Some e => t = <[h := e <| ep_ref_count ::= Z.succ |>]> (sh_endpoints s) ∧ n = sh_num_endpoints_allocated s
        | None => ∃ manager, t = <[h := mkEndpoint 1 manager]> (sh_endpoints s) ∧ n = sh_num_endpoints_allocated s +[32] 1
        end
    | Failure _ => t = sh_endpoints s ∧ n = sh_num_endpoints_allocated s
    end.
Proof.
  unfold make_endpoint.
  assert (∀ p, (p = false → sh_s3express_provider_active s = false) →
    ∃ p' t n, s <| sh_s3express_provider_active := p |> =
      s <| sh_s3express_provider_active := p' |> <| sh_endpoints := t |> <| sh_num_endpoints_allocated := n |> ∧
      (p' = false → sh_s3express_provider_active s = false) ∧
      t = sh_endpoints s ∧ n = sh_num_endpoints_allocated s) as Hsame.
  { intros p Hp. by exists p, (sh_endpoints s), (sh_num_endpoints_allocated s). }
  set (pr := if _ && _ then _ else _).
  assert (pr = Failure (default AWS_ERROR_UNKNOWN (me_s3express_provider env)) ∨
    ∃ p, pr = Success (s <| sh_s3express_provider_active := p |>) ∧ (p = false → sh_s3express_provider_active s = false)) as Hpr.
  { unfold pr. destruct (_ && _); [|right; exists (sh_s3express_provider_active s); by destruct s].
    destruct (me_s3express_provider env); [by left|by right; exists true]. }
  destruct Hpr as [->|(p & -> & Hp)].
  { destruct (Hsame (sh_s3express_provider_active s) ltac:(done)) as (p' & t & n & H1). exists p', t, n. by destruct s. }
  destruct (match ep with Some u => Success u | None => me_uri_parse env hv end) as [u|e] eqn:Hu; [|by apply Hsame].
  destruct (me_hash_table_create env) as [e|]; [by apply Hsame|].
  assert (∀ u', ep = Some u' → uri_host_name u = uri_host_name u') as Hh by (intros u' ->; by injection Hu as ->).
  change (sh_endpoints (s <| sh_s3express_provider_active := p |>)) with (sh_endpoints s).
  destruct (sh_endpoints s !! uri_host_name u) as [e|] eqn:He.
  - exists p, (<[uri_host_name u := e <| ep_ref_count ::= Z.succ |>]> (sh_endpoints s)), (sh_num_endpoints_allocated s).
    by rewrite He.
  - destruct (me_endpoint_new env) as [e|]; [by apply Hsame|]. set (manager := s_s3_endpoint_create_http_connection_manager _ _ _ _ _).
    exists p, (<[uri_host_name u := mkEndpoint 1 manager]> (sh_endpoints s)), (sh_num_endpoints_allocated s +[32] 1).
    rewrite He. split_and!; [done..|]. by exists manager.
Qed.

Lemma make_endpoint_spec env s use https ep hv hold :
  eps_ok (sh_endpoints s) (sh_closing s) (sh_num_endpoints_allocated s) hold → sh_num_endpoints_allocated s < 2 ^ 32 - 1 →
  let '(r, s', _) := make_endpoint mc env s use https ep hv in
  ∃ p t n, s' = s <| sh_s3express_provider_active := p |> <| sh_endpoints := t |> <| sh_num_endpoints_allocated := n |> ∧
    (p = false → sh_s3express_provider_active s = false) ∧
    match r with
    | Success h => eps_ok t (sh_closing s) n (more hold h)
    | Failure _ => t = sh_endpoints s ∧ n = sh_num_endpoints_allocated s
    end.
Proof.
  intros Hok Hn. pose proof (make_endpoint_result env s use https ep hv) as Hm.
  destruct (make_endpoint _ _ _ _ _ _ _) as [[[h|e] s'] k]; destruct Hm as (p & t & n & Hs & Hp & Hr); exists p, t, n; [|done].
  split_and!; [done..|]. destruct Hr as [_ Hr]. destruct (sh_endpoints s !! h) as [e|] eqn:He.
  - destruct Hr as [-> ->]. by destruct (eps_acquired _ _ _ _ _ _ Hok He).
  - destruct Hr as (manager & -> & ->). by destruct (eps_created _ _ _ _ _ manager Hok He Hn).
Qed.

(** * The invariant *)

Definition references s : Z :=
  Z.of_nat (sh_users s) + size (sh_metas s) + count cx_acquiring (sh_conns s) + count snd (sh_ending s)
  + count (λ b, b) (sh_notifying s).

Record shut_ok s : Prop := {
  k_endpoints : eps_ok (sh_endpoints s) (sh_closing s) (sh_num_endpoints_allocated s) (holders s);
  k_refs : sh_ref_count s = references s;
  k_metas : NoDup (sh_metas s).*1;
  k_conns : Forall (λ c, cx_meta c ∈ (sh_metas s).*1) (sh_conns s);
  k_unreferenced : sh_destroy s ≠ NotDestroyed → sh_ref_count s = 0;
  k_active : sh_active s = bool_decide (sh_destroy s = NotDestroyed);
  k_executing : sh_start_destroy_executing s = bool_decide (sh_destroy s = Releasing ∨ sh_destroy s = Released);
  k_progress : sh_process_work_task_in_progress s = bool_decide (sh_work s ≠ WorkIdle);
  k_cleanup : sh_cleanup_queued s = sh_endpoints_cleanup_task_scheduled s || bool_decide (sh_work s = WorkCancels);
  k_cancels : sh_work s = WorkCancels → sh_endpoints_cleanup_task_scheduled s = false ∧ sh_active s = false;
  k_held : sh_active s = false → sh_cleanup_queued s = false → all_held (sh_endpoints s);
  k_task : sh_destroy s = Destroyed → sh_endpoints_cleanup_task_scheduled s = true → sh_process_work_task_scheduled s = true;
  k_flag : sh_finish_destroy s = sh_freed s;
  k_freed : sh_freed s = true → may_finish_destroy s = true;
  k_live : sh_work s = WorkIdle → may_finish_destroy s = true → sh_freed s = true;
  k_trim : sh_trim_queued s = sh_trim_buffer_pool_task_scheduled s && negb (sh_freed s);
  k_writes : sh_num_pending_writes s = size (sh_writes s);
  k_writes_bound : sh_num_pending_writes s < 2 ^ 64;
  k_write_metas : Forall (λ m, m ∈ (sh_metas s).*1) (sh_writes s);
}.

Lemma shut_init_ok : shut_ok shut_init.
Proof. split; try done; constructor. Qed.

Lemma may_finish_true s : may_finish_destroy s = true ↔
  sh_active s = false ∧ sh_start_destroy_executing s = false ∧ sh_body_streaming_elg_allocated s = false ∧
  sh_file_io_elg_allocated s = false ∧ sh_process_work_task_scheduled s = false ∧
  sh_process_work_task_in_progress s = false ∧ sh_s3express_provider_active s = false ∧ sh_num_endpoints_allocated s = 0.
Proof. unfold may_finish_destroy. rewrite !andb_true_iff, !negb_true_iff, Z.eqb_eq. tauto. Qed.

(** With the task scheduled the client is not freed yet. *)
Lemma scheduled_live s : sh_process_work_task_scheduled s = true → may_finish_destroy s = true → sh_freed s = true.
Proof. intros Hs (_ & _ & _ & _ & Hs' & _)%may_finish_true. congruence. Qed.

(** Steps that change references only. *)
Record unchanged_flags s s' : Prop := {
  sf_active : sh_active s' = sh_active s;
  sf_executing : sh_start_destroy_executing s' = sh_start_destroy_executing s;
  sf_scheduled : sh_process_work_task_scheduled s' = sh_process_work_task_scheduled s ∨ sh_process_work_task_scheduled s' = true;
  sf_progress : sh_process_work_task_in_progress s' = sh_process_work_task_in_progress s;
  sf_body : sh_body_streaming_elg_allocated s' = sh_body_streaming_elg_allocated s;
  sf_file : sh_file_io_elg_allocated s' = sh_file_io_elg_allocated s;
  sf_provider : sh_s3express_provider_active s' = false → sh_s3express_provider_active s = false;
  sf_finish : sh_finish_destroy s' = sh_finish_destroy s;
  sf_cleanup : sh_endpoints_cleanup_task_scheduled s' = sh_endpoints_cleanup_task_scheduled s;
  sf_queued : sh_cleanup_queued s' = sh_cleanup_queued s;
  sf_work : sh_work s' = sh_work s;
  sf_destroy : sh_destroy s' = sh_destroy s;
  sf_freed : sh_freed s' = sh_freed s;
  sf_trim : sh_trim_buffer_pool_task_scheduled s' = sh_trim_buffer_pool_task_scheduled s;
  sf_trim_queued : sh_trim_queued s' = sh_trim_queued s;
  sf_writes : sh_writes s' = sh_writes s;
  sf_num_writes : sh_num_pending_writes s' = sh_num_pending_writes s;
}.

(** What remains to be shown of such a step. *)
Lemma unchanged_flags_ok s s' : shut_ok s → sh_freed s = false → unchanged_flags s s' →
  eps_ok (sh_endpoints s') (sh_closing s') (sh_num_endpoints_allocated s') (holders s') →
  sh_ref_count s' = references s' → NoDup (sh_metas s').*1 → Forall (λ c, cx_meta c ∈ (sh_metas s').*1) (sh_conns s') →
  Forall (λ m, m ∈ (sh_metas s').*1) (sh_writes s) →
  (sh_destroy s ≠ NotDestroyed → sh_ref_count s' = 0) →
  (sh_active s = false → all_held (sh_endpoints s) → all_held (sh_endpoints s')) →
  (sh_num_endpoints_allocated s' = sh_num_endpoints_allocated s ∨ sh_process_work_task_scheduled s' = true) → shut_ok s'.
Proof.
  intros [Ke Kr Km Kc Ku Ka Kx Kp Kq Kw Kh Kt Kf Kz Kl Kr1 Kr2 Kr3 Kr4] Hf [] He Hr Hm Hc Hwm Hu Hh Hn.
  split; try done; rewrite ?sf_active0, ?sf_executing0, ?sf_progress0, ?sf_cleanup0, ?sf_queued0, ?sf_work0, ?sf_destroy0,
    ?sf_finish0, ?sf_freed0, ?sf_trim0, ?sf_trim_queued0, ?sf_writes0, ?sf_num_writes0; try done; eauto.
  - intros Hd Hcl. destruct sf_scheduled0 as [->| ->]; [by apply Kt|done].
  - by rewrite Hf.
  - intros Hw Hmay. destruct Hn as [Hn|Hn]; [|destruct (scheduled_live _ Hn Hmay); by rewrite sf_freed0].
    apply Kl; [done|]. apply may_finish_true. apply may_finish_true in Hmay as (? & ? & ? & ? & ? & ? & ? & ?).
    destruct sf_scheduled0; [|congruence]. split_and!; try congruence. by apply sf_provider0.
Qed.

Definition good (r : res shut_state) : Prop := ∃ s', r = Ok s' ∧ shut_ok s'.

(** ** References *)

Lemma references_nonneg s : 0 ≤ size (sh_metas s) ∧ 0 ≤ count cx_acquiring (sh_conns s) ∧ 0 ≤ count snd (sh_ending s) ∧
  0 ≤ count (λ b, b) (sh_notifying s).
Proof.
  pose proof (count_bounds (λ _, true) (sh_metas s)). pose proof (count_bounds cx_acquiring (sh_conns s)).
  pose proof (count_bounds snd (sh_ending s)). pose proof (count_bounds (λ b, b) (sh_notifying s)). lia.
Qed.

(** Who has a reference keeps the client from being destroyed. *)
Lemma referenced s : shut_ok s → 0 < sh_ref_count s → sh_destroy s = NotDestroyed ∧ sh_active s = true.
Proof.
  intros K Hr. destruct (decide (sh_destroy s = NotDestroyed)) as [Hd|Hd].
  - split; [done|]. rewrite (k_active _ K). by rewrite bool_decide_true.
  - apply (k_unreferenced _ K) in Hd. lia.
Qed.

Lemma user_referenced s : shut_ok s → (0 < sh_users s)%nat → 0 < sh_ref_count s.
Proof. intros K Hu. rewrite (k_refs _ K). unfold references. pose proof (references_nonneg s). lia. Qed.

Lemma meta_referenced s m o : shut_ok s → (m, o) ∈ sh_metas s → 0 < sh_ref_count s.
Proof.
  intros K Hm. rewrite (k_refs _ K). unfold references. pose proof (references_nonneg s).
  assert (0 < size (sh_metas s)); [|lia]. apply size_pos. intros Hn. rewrite Hn in Hm. set_solver.
Qed.

Lemma conn_referenced s c : shut_ok s → c ∈ sh_conns s → 0 < sh_ref_count s.
Proof.
  intros K Hc. pose proof (k_conns _ K) as Hall. rewrite list.Forall_forall in Hall.
  specialize (Hall _ Hc) as ([m o] & _ & Hm)%list_elem_of_fmap. by eapply meta_referenced.
Qed.

Lemma unchanged_flags_refl s : unchanged_flags s s.
Proof. split; auto. Qed.

(** A step of someone with a reference that changes references but no endpoint. *)
Lemma referenced_ok s s' : shut_ok s → sh_freed s = false → 0 < sh_ref_count s → unchanged_flags s s' →
  sh_endpoints s' = sh_endpoints s → sh_closing s' = sh_closing s →
  sh_num_endpoints_allocated s' = sh_num_endpoints_allocated s → (∀ h, holders s h = holders s' h) →
  sh_ref_count s' = references s' → sh_metas s' = sh_metas s → cx_meta <$> sh_conns s' ⊆ cx_meta <$> sh_conns s → shut_ok s'.
Proof.
  intros K Hf Hr Hs He Hc Hn Hh Hr' Hm Hx. destruct (referenced s K Hr) as [Hd _]. eapply unchanged_flags_ok; try done.
  - rewrite He, Hc, Hn. eapply eps_ext; [done|apply K].
  - rewrite Hm. apply K.
  - rewrite Hm. pose proof (k_conns _ K) as Hk. rewrite list.Forall_forall in *. intros c Hin.
    assert (cx_meta c ∈ cx_meta <$> sh_conns s) as (c' & -> & Hc')%list_elem_of_fmap by (by apply Hx, list_elem_of_fmap_2).
    by apply Hk.
  - rewrite Hm. apply K.
  - by rewrite He.
  - by left.
Qed.

Lemma user_acquired_ok s : shut_ok s → sh_freed s = false → (0 < sh_users s)%nat →
  shut_ok (aws_s3_client_acquire (s <| sh_users ::= S |>)).
Proof.
  intros K Hf Hu. apply (referenced_ok s); try done; [by apply user_referenced|by split; auto|].
  simpl. rewrite (k_refs _ K). unfold references. simpl. lia.
Qed.

Lemma user_released_ok s n : shut_ok s → sh_freed s = false → sh_users s = S n →
  shut_ok (aws_s3_client_release (s <| sh_users := n |>)).
Proof.
  intros K Hf Hu. apply (referenced_ok s); try done; [apply user_referenced; [done|lia]|by split; auto|].
  simpl. rewrite (k_refs _ K). unfold references. simpl. lia.
Qed.

Lemma conn_acquires_ok s l1 m h l2 (b : bool) : shut_ok s → sh_freed s = false → sh_conns s = l1 ++ mkConnHold m h b :: l2 →
  shut_ok (s <| sh_conns := l1 ++ mkConnHold m h (negb b) :: l2 |> <| sh_ref_count ::= if b then Z.pred else Z.succ |>).
Proof.
  intros K Hf Hc. apply (referenced_ok s); try done.
  - apply (conn_referenced s (mkConnHold m h b)); [done|]. rewrite Hc. apply elem_of_app. right. left.
  - by split; auto.
  - intros h'. unfold holders. simpl. rewrite Hc, !count_app, !count_cons. done.
  - simpl. rewrite (k_refs _ K). unfold references. simpl. rewrite Hc, !count_app, !count_cons. simpl. destruct b; simpl; lia.
  - simpl. rewrite Hc, !fmap_app, !fmap_cons. done.
Qed.

Lemma conn_ended_ok s l1 c l2 : shut_ok s → sh_freed s = false → sh_conns s = l1 ++ c :: l2 →
  shut_ok (connection_ends (s <| sh_conns := l1 ++ l2 |>) c).
Proof.
  intros K Hf Hc. apply (referenced_ok s); try done.
  - apply (conn_referenced s c); [done|]. rewrite Hc. apply elem_of_app. right. left.
  - by split; auto.
  - intros h'. unfold holders. simpl. rewrite Hc, !count_app, !count_cons, count_nil. simpl. lia.
  - simpl. rewrite (k_refs _ K). unfold references. simpl. rewrite Hc, !count_app, !count_cons, count_nil. simpl. lia.
  - simpl. rewrite Hc, !fmap_app, !fmap_cons. set_solver.
Qed.

(** ** Endpoints *)

Lemma holders_meta s m h : (m, Some h) ∈ sh_metas s → 0 < holders s h.
Proof.
  intros Hm. unfold holders. pose proof (count_bounds (λ c, bool_decide (cx_host c = h)) (sh_conns s)).
  pose proof (count_bounds (λ p : host * bool, bool_decide (p.1 = h)) (sh_ending s)).
  assert (0 < count (λ p : nat * option host, bool_decide (p.2 = Some h)) (sh_metas s)); [|lia].
  apply list_elem_of_split in Hm as (l1 & l2 & ->). rewrite count_app, count_cons. simpl.
  rewrite bool_decide_true by done. pose proof (count_bounds (λ p : nat * option host, bool_decide (p.2 = Some h)) l1).
  pose proof (count_bounds (λ p : nat * option host, bool_decide (p.2 = Some h)) l2). lia.
Qed.

Lemma conn_made_ok s m h : shut_ok s → sh_freed s = false → (m, Some h) ∈ sh_metas s → good (connection_made s m h).
Proof.
  intros K Hf Hm. destruct (acquire_spec s h _ (k_endpoints _ K) (holders_meta s m h Hm)) as (t & Ha & Hok & Hall).
  unfold connection_made. rewrite Ha. eexists. split; [reflexivity|]. eapply unchanged_flags_ok; try done.
  - by split; auto.
  - eapply eps_ext; [|exact Hok]. intros h'. unfold more, holders. simpl. rewrite !count_app, count_cons, count_nil. simpl.
    repeat case_bool_decide; subst; try done; lia.
  - simpl. rewrite (k_refs _ K). unfold references. simpl. rewrite !count_app, count_cons, count_nil. simpl. lia.
  - apply K.
  - simpl. apply Forall_app. split; [apply K|]. repeat constructor. simpl. by apply (list_elem_of_fmap_2 fst _ _ Hm).
  - apply K.
  - apply K.
  - by left.
Qed.

Lemma fmap_finish (l : list (nat * option host)) m :
  ((λ '(m', o), if bool_decide (m' = m) then (m', None) else (m', o)) <$> l).*1 = l.*1.
Proof. rewrite <-list_fmap_compose. apply list_fmap_ext. intros i [m' o] _. simpl. by case_bool_decide. Qed.

(** Of metas with different numbers, one has the number [m]. *)
Lemma count_finish (l : list (nat * option host)) m h h' : NoDup l.*1 → (m, Some h) ∈ l →
  count (λ p, bool_decide (p.2 = Some h')) ((λ '(m', o), if bool_decide (m' = m) then (m', None) else (m', o)) <$> l) =
  count (λ p, bool_decide (p.2 = Some h')) l - (if bool_decide (h' = h) then 1 else 0).
Proof.
  intros Hn (l1 & l2 & ->)%list_elem_of_split. rewrite fmap_app, fmap_cons in Hn. simpl in Hn.
  assert (∀ k, m ∉ k.*1 → (λ '(m', o), if bool_decide (m' = m) then (m', @None host) else (m', o)) <$> k = k) as Hk.
  { induction k as [|[m' o] k IH]; intros Hm; [done|]. rewrite fmap_cons in *. simpl in Hm. rewrite IH by set_solver.
    rewrite bool_decide_false by set_solver. done. }
  apply list.NoDup_app in Hn as (_ & Hd & [Hm _]%list.NoDup_cons). rewrite fmap_app, fmap_cons. simpl.
  rewrite !Hk, (bool_decide_true (m = m)), !count_app, !count_cons by (done || (intros Hin; apply (Hd m Hin); left)).
  simpl. repeat case_bool_decide; simplify_eq; lia.
Qed.

Lemma meta_finished_ok s m h : shut_ok s → sh_freed s = false → (m, Some h) ∈ sh_metas s → good (meta_finishes s m h).
Proof.
  intros K Hf Hm. destruct (release_spec s h _ (k_endpoints _ K) (holders_meta s m h Hm)) as (t & l & Hr & Hok & Hall).
  unfold meta_finishes. rewrite Hr. eexists. split; [reflexivity|]. eapply unchanged_flags_ok; try done.
  - by split; auto.
  - eapply eps_ext; [|exact Hok]. intros h'. unfold less, holders. simpl. rewrite (count_finish _ m h) by (done || apply K).
    case_bool_decide; lia.
  - simpl. rewrite (k_refs _ K). unfold references. simpl. rewrite !count_size, length_fmap. done.
  - simpl. rewrite fmap_finish. apply K.
  - simpl. rewrite fmap_finish. apply K.
  - simpl. rewrite fmap_finish. apply K.
  - apply K.
  - by left.
Qed.

Lemma filter_meta (l : list (nat * option host)) m o : NoDup l.*1 → (m, o) ∈ l →
  ∃ l1 l2, l = l1 ++ (m, o) :: l2 ∧ filter (λ p, p.1 ≠ m) l = l1 ++ l2.
Proof.
  intros Hn (l1 & l2 & ->)%list_elem_of_split. exists l1, l2. split; [done|]. rewrite fmap_app, fmap_cons in Hn. simpl in Hn.
  assert (∀ k : list (nat * option host), m ∉ k.*1 → filter (λ p, p.1 ≠ m) k = k) as Hk.
  { induction k as [|[m' o'] k IH]; intros Hm; [done|]. rewrite fmap_cons in *. simpl in Hm. rewrite filter_cons.
    rewrite decide_True by (simpl; set_solver). rewrite IH by set_solver. done. }
  apply list.NoDup_app in Hn as (_ & Hd & [Hm _]%list.NoDup_cons). rewrite list.filter_app, filter_cons, decide_False by (simpl; tauto).
  rewrite !Hk by (done || (intros Hin; apply (Hd m Hin); left)). done.
Qed.

Lemma meta_destroyed_ok s m o : shut_ok s → sh_freed s = false → (m, o) ∈ sh_metas s →
  Forall (λ c, cx_meta c ≠ m) (sh_conns s) → m ∉ sh_writes s → good (meta_destroyed s m o).
Proof.
  intros K Hf Hm Hc Hnw. pose proof (meta_referenced s m o K Hm) as Href. destruct (referenced s K Href) as [Hd Ha].
  destruct (filter_meta _ m o (k_metas _ K) Hm) as (l1 & l2 & Hl & Hfl).
  assert (∃ t l, (match o with Some h => s_s3_endpoint_release s h | None => Ok s end) =
      Ok (s <| sh_endpoints := t |> <| sh_closing := l |>) ∧
      eps_ok t l (sh_num_endpoints_allocated s) (λ h, holders s h - if bool_decide (o = Some h) then 1 else 0)) as (t & l & Hr & Hok).
  { destruct o as [h|].
    - destruct (release_spec s h _ (k_endpoints _ K) (holders_meta s m h Hm)) as (t & l & Hr & Hok & _). exists t, l.
      split; [done|]. eapply eps_ext; [|exact Hok]. intros h'. unfold less. repeat case_bool_decide; simplify_eq; lia.
    - exists (sh_endpoints s), (sh_closing s). split; [by destruct s|]. eapply eps_ext; [|apply K]. intros h'.
      rewrite bool_decide_false by done. lia. }
  unfold meta_destroyed. rewrite Hr. eexists. split; [reflexivity|]. eapply unchanged_flags_ok; try done.
  - by split; auto.
  - eapply eps_ext; [|exact Hok]. intros h'. unfold holders. simpl. rewrite Hfl, Hl, !count_app, count_cons. simpl. lia.
  - simpl. rewrite (k_refs _ K). unfold references. simpl. rewrite Hfl, Hl, !count_app, count_cons. lia.
  - simpl. pose proof (k_metas _ K) as Hn. rewrite Hl, fmap_app, fmap_cons in Hn. rewrite Hfl, fmap_app.
    apply list.NoDup_app in Hn as (H1 & H2 & [_ H3]%list.NoDup_cons). apply list.NoDup_app. split_and!; [done| |done].
    intros x Hx Hx'. apply (H2 x Hx). by right.
  - simpl. pose proof (k_conns _ K) as Hk. rewrite Hl, fmap_app, fmap_cons in Hk. rewrite Hfl, fmap_app.
    rewrite list.Forall_forall in *. intros c Hin. specialize (Hk c Hin). specialize (Hc c Hin). simpl in Hk. set_solver.
  - simpl. pose proof (k_write_metas _ K) as Hk. rewrite Hl, fmap_app, fmap_cons in Hk. rewrite Hfl, fmap_app.
    rewrite list.Forall_forall in *. intros m' Hin. specialize (Hk m' Hin). simpl in Hk. set_solver.
  - by rewrite Ha.
  - by left.
Qed.

Lemma conn_left_ok s l1 h kept l2 : shut_ok s → sh_freed s = false → sh_ending s = l1 ++ (h, kept) :: l2 →
  good (connection_leaves (s <| sh_ending := l1 ++ l2 |>) h kept).
Proof.
  intros K Hf Hl.
  assert (eps_ok (sh_endpoints s) (sh_closing s) (sh_num_endpoints_allocated s) (holders s) ∧ 0 < holders s h) as [Hok Hpos].
  { split; [apply K|]. unfold holders. rewrite Hl, count_app, count_cons. simpl. rewrite bool_decide_true by done.
    pose proof (count_bounds (λ p : host * bool, bool_decide (p.1 = h)) l1).
    pose proof (count_bounds (λ p : host * bool, bool_decide (p.1 = h)) l2).
    pose proof (count_bounds (λ c, bool_decide (cx_host c = h)) (sh_conns s)).
    pose proof (count_bounds (λ p : nat * option host, bool_decide (p.2 = Some h)) (sh_metas s)). lia. }
  set (s1 := s <| sh_ending := l1 ++ l2 |>). destruct (release_spec s1 h _ Hok Hpos) as (t & l & Hr & Hok' & Hall).
  unfold connection_leaves. rewrite Hr. unfold s1 in *. eexists. split; [reflexivity|]. eapply unchanged_flags_ok; try done.
  - by split; auto.
  - eapply eps_ext; [|exact Hok']. intros h'. unfold less, holders. simpl. rewrite Hl, !count_app, count_cons. simpl.
    repeat case_bool_decide; simplify_eq; lia.
  - simpl. rewrite (k_refs _ K). unfold references. simpl. rewrite Hl, !count_app, !count_cons, count_nil. simpl. lia.
  - apply K.
  - apply K.
  - apply K.
  - apply K.
  - by left.
Qed.

Lemma conn_notified_ok s l1 kept l2 : shut_ok s → sh_freed s = false → sh_notifying s = l1 ++ kept :: l2 →
  shut_ok (connection_notifies (s <| sh_notifying := l1 ++ l2 |>) kept).
Proof.
  intros K Hf Hl. assert (sh_ref_count s = references (s <| sh_notifying := l1 ++ l2 |>) + if kept then 1 else 0) as Hr.
  { rewrite (k_refs _ K). unfold references. simpl. rewrite Hl, !count_app, count_cons. lia. }
  assert (0 ≤ references (s <| sh_notifying := l1 ++ l2 |>)) as Hnn.
  { unfold references. pose proof (references_nonneg (s <| sh_notifying := l1 ++ l2 |>)). simpl in *. lia. }
  unfold connection_notifies. apply (unchanged_flags_ok s); [done|done|..].
  - split; destruct kept; simpl; auto.
  - destruct kept; apply K.
  - set (r := references (s <| sh_notifying := l1 ++ l2 |>)) in *. destruct kept.
    + change (Z.pred (sh_ref_count s) = r). lia.
    + change (sh_ref_count s = r). lia.
  - destruct kept; apply K.
  - destruct kept; apply K.
  - destruct kept; apply K.
  - intros Hd. pose proof (k_unreferenced _ K Hd) as Hz. destruct kept; simpl; lia.
  - by destruct kept.
  - destruct kept; by right.
Qed.

(** ** Making a meta request *)

Context `{HLaws : !AwsHttpHeadersLaws H}.

(** The host header is there when the override was applied. *)
Lemma apply_override_spec headers ep : ∃ r, s_apply_endpoint_override headers ep = Ok r ∧
  ∀ headers', r = Success headers' → ∃ v, aws_http_headers_get headers' g_host_header_name = Some v ∧
    (∀ u, ep = Some u → v = uri_authority u).
Proof using HLaws.
  unfold s_apply_endpoint_override.
  destruct (aws_http_headers_get headers g_host_header_name) as [v|] eqn:Hg; destruct ep as [u|]; simpl.
  - rewrite Hg. case_bool_decide as Hv; eexists; (split; [reflexivity|]); [|done]. intros headers' [= <-]. exists v.
    split; [done|]. by intros u' [= <-].
  - rewrite Hg. eexists. split; [reflexivity|]. intros headers' [= <-]. by exists v.
  - rewrite headers_get_set_eq. rewrite bool_decide_true by done. eexists. split; [reflexivity|]. intros headers' [= <-].
    exists (uri_authority u). rewrite headers_get_set_eq. split; [done|]. by intros u' [= <-].
  - eexists. split; [reflexivity|]. done.
Qed.

Lemma made_ok env options m s : shut_ok s → sh_freed s = false → (0 < sh_users s)%nat → m ∉ (sh_metas s).*1 →
  sh_num_endpoints_allocated s < 2 ^ 32 - 1 →
  ∃ r, aws_s3_client_make_meta_request mc env s options m = Ok r ∧ shut_ok (md_state r).
Proof using HLaws.
  intros K Hf Hu Hm Hn. destruct (referenced s K (user_referenced s K Hu)) as [Hd Ha]. unfold aws_s3_client_make_meta_request.
  set (use := match mo_s3express options, mc_s3express mc with Some b, _ => b | None, Some b => b | None, None => false end).
  destruct (_ <=? _); [by eexists|]. destruct (mo_message options) as [message|]; [|by eexists].
  destruct (use && _); [by eexists|]. destruct message as [headers|]; [|by eexists].
  destruct (apply_override_spec headers (mo_endpoint options)) as (r & Hr & Hhost). rewrite Hr. simpl.
  destruct r as [headers'|e]; [|by eexists]. destruct (Hhost headers' eq_refl) as (v & Hv & _). rewrite Hv.
  destruct (endpoint_is_https (mo_endpoint options)) as [https|e]; [|by eexists].
  destruct (me_meta_request_factory env) as [e|]; [by eexists|].
  pose proof (make_endpoint_spec env (aws_s3_client_acquire s) use https (mo_endpoint options) v (holders s) (k_endpoints _ K) Hn) as Hmk.
  destruct (make_endpoint _ _ _ _ _ _ _) as [[r s'] n]. destruct Hmk as (p & t & k & -> & Hp & Hok).
  destruct r as [h|e]; eexists; (split; [reflexivity|]); cbn [md_state]; eapply (unchanged_flags_ok s); try done.
  - split; simpl; auto.
  - eapply eps_ext; [|exact Hok]. intros h'. unfold more, holders. simpl. rewrite count_app, count_cons, count_nil. simpl.
    repeat case_bool_decide; simplify_eq; lia.
  - simpl. rewrite (k_refs _ K). unfold references. simpl. rewrite count_app, count_cons, count_nil. lia.
  - simpl. rewrite fmap_app. apply list.NoDup_app. split_and!; [apply K| |apply NoDup_singleton].
    intros x Hx Hx'. simpl in Hx'. set_solver.
  - simpl. eapply Forall_impl; [|apply (k_conns _ K)]. intros c Hc. simpl. rewrite fmap_app. set_solver.
  - simpl. eapply Forall_impl; [|apply (k_write_metas _ K)]. intros c Hc. simpl. rewrite fmap_app. set_solver.
  - by rewrite Ha.
  - by right.
  - split; simpl; auto.
  - destruct Hok as [-> ->]. apply K.
  - simpl. rewrite (k_refs _ K). unfold references. simpl. lia.
  - apply K.
  - apply K.
  - apply K.
  - by rewrite Ha.
  - destruct Hok as [_ ->]. by left.
Qed.

(** ** The end of the client *)

(** A callback after which the worker runs, and which changes none of the other flags. *)
Lemma callback_ok s (body file provider : bool) closing n : shut_ok s → sh_freed s = false →
  eps_ok (sh_endpoints s) closing n (holders s) →
  shut_ok (schedule_work (s <| sh_body_streaming_elg_allocated := body |> <| sh_file_io_elg_allocated := file |>
                            <| sh_s3express_provider_active := provider |> <| sh_closing := closing |>
                            <| sh_num_endpoints_allocated := n |>)).
Proof.
  intros [Ke Kr Km Kc Ku Ka Kx Kp Kq Kw Kh Kt Kf Kz Kl Kr1 Kr2 Kr3 Kr4] Hf He. split; simpl in *; try done; [by rewrite Hf|].
  intros _ Hm. by apply scheduled_live in Hm.
Qed.

Lemma destroy_began_ok s : shut_ok s → sh_freed s = false → sh_ref_count s = 0 → sh_destroy s = NotDestroyed →
  shut_ok (start_destroy_begin s).
Proof.
  intros [Ke Kr Km Kc Ku Ka Kx Kp Kq Kw Kh Kt Kf Kz Kl Kr1 Kr2 Kr3 Kr4] Hf Hr Hd. rewrite Hd, bool_decide_true in Ka by done.
  assert (sh_work s ≠ WorkCancels) as Hw by (intros [_ Hw]%Kw; congruence).
  rewrite (bool_decide_false (sh_work s = WorkCancels)) in Kq by done. rewrite orb_false_r in Kq.
  unfold start_destroy_begin. simpl. destruct (sh_endpoints_cleanup_task_scheduled s) eqn:Hc; split; simpl; try done;
    try (by rewrite Hf); try (by rewrite ?Kq, ?bool_decide_false by done);
    intros _ (_ & Hx & _)%may_finish_true; done.
Qed.

Lemma destroy_released_ok s : shut_ok s → sh_freed s = false → sh_destroy s = Releasing → shut_ok (start_destroy_release s).
Proof.
  intros [Ke Kr Km Kc Ku Ka Kx Kp Kq Kw Kh Kt Kf Kz Kl Kr1 Kr2 Kr3 Kr4] Hf Hd. rewrite Hd in *. split; simpl; try done.
  intros _. by apply Ku.
Qed.

Lemma destroy_ended_ok s : shut_ok s → sh_freed s = false → sh_destroy s = Released → shut_ok (start_destroy_end s).
Proof.
  intros [Ke Kr Km Kc Ku Ka Kx Kp Kq Kw Kh Kt Kf Kz Kl Kr1 Kr2 Kr3 Kr4] Hf Hd. rewrite Hd in *. split; simpl; try done.
  - intros _. by apply Ku.
  - by rewrite Hf.
  - intros _ Hm. by apply scheduled_live in Hm.
Qed.

Lemma manager_shut_ok s l1 h l2 : shut_ok s → sh_freed s = false → sh_closing s = l1 ++ h :: l2 →
  shut_ok (s_s3_client_endpoint_shutdown_callback (s <| sh_closing := l1 ++ l2 |>)).
Proof.
  intros K Hf Hl. assert (eps_ok (sh_endpoints s) (l1 ++ l2) (sh_num_endpoints_allocated s -[32] 1) (holders s)) as He.
  { destruct (k_endpoints _ K) as [H1 H2 H3 H4 H5]. rewrite Hl, length_app in H3. simpl in H3.
    assert (sh_num_endpoints_allocated s -[32] 1 = sh_num_endpoints_allocated s - 1) as -> by (apply wrap_small; unfold uint; lia).
    split; try done; [rewrite length_app; lia|lia]. }
  exact (callback_ok s (sh_body_streaming_elg_allocated s) (sh_file_io_elg_allocated s) (sh_s3express_provider_active s) _ _ K Hf He).
Qed.

(** The tasks that trim the pool change nothing else. *)
Lemma trim_changed_ok s (scheduled : bool) n : shut_ok s → sh_freed s = false →
  shut_ok (s <| sh_trim_buffer_pool_task_scheduled := scheduled |> <| sh_trim_queued := scheduled |> <| sh_pool_trims := n |>).
Proof. intros [Ke Kr Km Kc Ku Ka Kx Kp Kq Kw Kh Kt Kf Kz Kl Kr1 Kr2 Kr3 Kr4] Hf. split; simpl; try done. by rewrite Hf, andb_true_r. Qed.

Lemma trim_ok s n : shut_ok s → sh_freed s = false →
  shut_ok (s_s3_client_trim_buffer_pool_task (s <| sh_trim_queued := false |>) false n).
Proof.
  intros K Hf. unfold s_s3_client_trim_buffer_pool_task.
  destruct (n =? 0); [exact (trim_changed_ok s false (S (sh_pool_trims s)) K Hf)|exact (trim_changed_ok s false (sh_pool_trims s) K Hf)].
Qed.

Lemma trim_scheduled_ok s n : shut_ok s → sh_freed s = false →
  shut_ok (s_s3_client_schedule_buffer_pool_trim_synced s n).
Proof.
  intros K Hf. unfold s_s3_client_schedule_buffer_pool_trim_synced. case_match; [done|]. case_match; [done|].
  exact (trim_changed_ok s true (sh_pool_trims s) K Hf).
Qed.

(** The worker starts after the task was scheduled. *)
Lemma process_work_starts_trim s n : process_work_starts s n =
  let s := if sh_active s then s_s3_client_schedule_buffer_pool_trim_synced s n else s in
  let s := s <| sh_process_work_task_scheduled := false |> <| sh_process_work_task_in_progress := true |>
             <| sh_work := Working |> in
  if sh_active s then s_s3_client_schedule_endpoints_cleanup_synced s
  else if sh_endpoints_cleanup_task_scheduled s then
    s <| sh_endpoints_cleanup_task_scheduled := false |> <| sh_work := WorkCancels |>
  else s.
Proof.
  unfold process_work_starts, s_s3_client_schedule_buffer_pool_trim_synced.
  destruct s as [[] ??????????? [] ??????????????]; simpl; by destruct (0 <? n).
Qed.

Lemma work_started_ok s n : shut_ok s → sh_freed s = false → sh_work s = WorkIdle → shut_ok (process_work_starts s n).
Proof.
  intros K Hf Hw. rewrite process_work_starts_trim. set (s0 := if sh_active s then _ else s).
  assert (shut_ok s0 ∧ sh_freed s0 = false ∧ sh_work s0 = WorkIdle) as (K0 & Hf0 & Hw0).
  { split_and!; unfold s0, s_s3_client_schedule_buffer_pool_trim_synced; destruct (sh_active s); try done; [by apply trim_scheduled_ok|..];
      destruct (sh_trim_buffer_pool_task_scheduled s), (0 <? n); done. }
  clearbody s0. clear s n K Hf Hw. rename s0 into s, K0 into K, Hf0 into Hf, Hw0 into Hw. simpl.
  destruct K as [Ke Kr Km Kc Ku Ka Kx Kp Kq Kw Kh Kt Kf Kz Kl Kr1 Kr2 Kr3 Kr4]. rewrite Hw in Kq.
  rewrite (bool_decide_false (WorkIdle = _)), orb_false_r in Kq by done.
  unfold s_s3_client_schedule_endpoints_cleanup_synced. simpl.
  destruct (sh_active s) eqn:Ha; simpl; destruct (sh_endpoints_cleanup_task_scheduled s) eqn:Hc; simpl.
  all: split; simpl; try done.
  all: try by rewrite ?Hf, ?Ha.
  all: try (by intros _ (Hz & _)%may_finish_true).
  all: try (by intros Hd; rewrite Hd in Ka).
  all: try by rewrite bool_decide_true.
  all: try by rewrite Kq.
Qed.

Lemma cleaned_ok s w : shut_ok s → sh_freed s = false → (sh_work s = WorkCancels ∧ w = Working ∨ sh_work s = WorkIdle ∧ w = WorkIdle) →
  ∃ s', s_s3_endpoints_cleanup_task (s <| sh_cleanup_queued := false |>) = Ok s' ∧ shut_ok (s' <| sh_work := w |>) ∧
        sh_work s' = sh_work s.
Proof.
  intros [Ke Kr Km Kc Ku Ka Kx Kp Kq Kw Kh Kt Kf Kz Kl Kr1 Kr2 Kr3 Kr4] Hf Hw.
  set (s1 := s <| sh_cleanup_queued := false |>). destruct (cleanup_spec s1 _ Ke) as (t & l & Hc & Hok & Hall).
  eexists. split; [exact Hc|]. split; [|done].
  split; simpl; try done; try (by rewrite Hf); [..|intros _ Hm; by apply scheduled_live in Hm].
  - rewrite Kp. destruct Hw as [[-> ->]|[-> ->]]; done.
  - by destruct Hw as [[_ ->]|[_ ->]].
  - by destruct Hw as [[_ ->]|[_ ->]].
Qed.

Lemma work_canceled_ok s : shut_ok s → sh_freed s = false → sh_work s = WorkCancels → good (process_work_cancels s).
Proof.
  intros K Hf Hw. destruct (cleaned_ok s Working K Hf) as (s' & Hc & Hok & _); [by left|].
  unfold process_work_cancels. rewrite Hc. by eexists.
Qed.

Lemma cleanup_ok s : shut_ok s → sh_freed s = false → sh_work s = WorkIdle →
  good (s_s3_endpoints_cleanup_task (s <| sh_cleanup_queued := false |>)).
Proof.
  intros K Hf Hw. destruct (cleaned_ok s WorkIdle K Hf) as (s' & Hc & Hok & Hw'); [by right|].
  exists s'. split; [done|]. rewrite Hw in Hw'. destruct s'. simpl in *. by subst.
Qed.

(** Nobody has a reference to a client that is destroyed. *)
Lemma unreferenced s : shut_ok s → sh_destroy s ≠ NotDestroyed →
  sh_users s = 0%nat ∧ sh_metas s = [] ∧ sh_conns s = [] ∧ count snd (sh_ending s) = 0 ∧ count (λ b, b) (sh_notifying s) = 0.
Proof.
  intros K Hd. pose proof (k_unreferenced _ K Hd) as Hr. rewrite (k_refs _ K) in Hr. unfold references in Hr.
  pose proof (references_nonneg s). assert (sh_metas s = []) as Hm by (apply size_nil_inv; lia). split_and!; [lia|done| |lia|lia].
  pose proof (k_conns _ K) as Hc. rewrite Hm in Hc. destruct (sh_conns s) as [|c l]; [done|]. apply Forall_cons_1 in Hc as [Hc _]. set_solver.
Qed.

Lemma finish_destroy_spec s : sh_num_pending_writes s = 0 → sh_metas s = [] →
  sh_trim_queued s = sh_trim_buffer_pool_task_scheduled s →
  s_s3_client_finish_destroy_default s = Ok (s <| sh_trim_queued := false |> <| sh_freed := true |>).
Proof.
  intros Hw Hm Ht. unfold s_s3_client_finish_destroy_default, s_s3_client_trim_buffer_pool_task.
  destruct s as [???????????? [] ??????????????]; simpl in *; by subst.
Qed.

Lemma work_finished_ok s : shut_ok s → sh_freed s = false → sh_work s = Working → good (process_work_finishes s).
Proof.
  intros K Hf Hw. pose proof (unreferenced s K) as Hun. destruct K as [Ke Kr Km Kc Ku Ka Kx Kp Kq Kw Kh Kt Kf Kz Kl Kr1 Kr2 Kr3 Kr4].
  set (s1 := s <| sh_process_work_task_in_progress := false |> <| sh_work := WorkIdle |>).
  change (process_work_finishes s) with
    (if sh_finish_destroy s then FatalAssert
     else if may_finish_destroy s1 then s_s3_client_finish_destroy_default (s1 <| sh_finish_destroy := may_finish_destroy s1 |>)
     else Ok (s1 <| sh_finish_destroy := may_finish_destroy s1 |>)).
  assert (sh_finish_destroy s = false) as -> by (by rewrite Kf).
  assert (sh_work s1 = WorkIdle) as Hw1 by done. rewrite Hw in Kq. simpl in Kq.
  destruct (may_finish_destroy s1) eqn:Hmay.
  - pose proof Hmay as (Ha & _)%may_finish_true. change (sh_active s = false) in Ha.
    destruct Hun as (_ & Hm & _); [intros Hd; rewrite Hd, bool_decide_true in Ka by done; congruence|].
    assert (sh_writes s = []) as Hwr.
    { rewrite Hm in Kr4. destruct (sh_writes s) as [|m l]; [done|]. apply Forall_cons_1 in Kr4 as [Hin _]. set_solver. }
    assert (sh_num_pending_writes s = 0) as Hnw by (by rewrite Kr2, Hwr). rewrite Hf, andb_true_r in Kr1.
    set (s2 := s1 <| sh_finish_destroy := true |>). exists (s2 <| sh_trim_queued := false |> <| sh_freed := true |>).
    split; [exact (finish_destroy_spec s2 Hnw Hm Kr1)|]. split; try done. simpl. by rewrite andb_false_r.
  - eexists. split; [reflexivity|]. split; simpl; try done; try by rewrite Hf.
    intros _ Hm. change (may_finish_destroy s1 = true) in Hm. congruence.
Qed.

(** ** Writes *)

Lemma write_queued_ok s m o : shut_ok s → sh_freed s = false → (m, o) ∈ sh_metas s → sh_num_pending_writes s < 2 ^ 64 - 1 →
  shut_ok (write_queued s m).
Proof.
  intros [Ke Kr Km Kc Ku Ka Kx Kp Kq Kw Kh Kt Kf Kz Kl Kr1 Kr2 Kr3 Kr4] Hf Hm Hb.
  pose proof (count_bounds (λ _, true) (sh_writes s)) as Hc.
  assert (sh_num_pending_writes s +[64] 1 = sh_num_pending_writes s + 1) as Hw by (apply wrap_small; unfold uint; lia).
  split; simpl; rewrite ?Hw; try done.
  - rewrite count_app, count_cons, count_nil. lia.
  - lia.
  - apply Forall_app. split; [done|]. repeat constructor. by apply (list_elem_of_fmap_2 fst _ _ Hm).
Qed.

Lemma write_done_ok s l1 m l2 : shut_ok s → sh_freed s = false → sh_writes s = l1 ++ m :: l2 →
  good (write_done (s <| sh_writes := l1 ++ l2 |>)).
Proof.
  intros [Ke Kr Km Kc Ku Ka Kx Kp Kq Kw Kh Kt Kf Kz Kl Kr1 Kr2 Kr3 Kr4] Hf Hl.
  rewrite Hl in Kr2, Kr4. rewrite count_app, count_cons in Kr2. apply Forall_app in Kr4 as [Kr4 [_ Kr5]%Forall_cons_1].
  pose proof (count_bounds (λ _, true) l1). pose proof (count_bounds (λ _, true) l2).
  unfold write_done. simpl. rewrite (proj2 (Z.ltb_lt _ _)) by lia. eexists. split; [reflexivity|].
  assert (sh_num_pending_writes s -[64] 1 = sh_num_pending_writes s - 1) as Hw by (apply wrap_small; unfold uint; lia).
  split; simpl; rewrite ?Hw; try done; try by rewrite Hf.
  - intros _ Hmay. by apply scheduled_live in Hmay.
  - rewrite count_app. lia.
  - lia.
  - by apply Forall_app.
Qed.

(** ** Every step *)

Lemma op_ok s r : shut_ok s → sh_freed s = false → shut_op s r → good r.
Proof using HLaws.
  intros K Hf Hop. assert (∀ s', shut_ok s' → good (Ok s')) as Hgood by (intros s' ?; by eexists).
  destruct Hop as [env options m r Hu Hm Hn Hr| | | | | |l1 m h l2 Hl|l1 m h l2 Hl| | | |m o Hm Hb|l1 m l2 Hl|Hr| | | |Hd Hb|Hd Hb|Hd Hb| | | | | |].
  - destruct (made_ok env options m s K Hf Hu Hm Hn) as (made & Hmade & Hok). rewrite <-Hr, Hmade. by eexists.
  - by apply Hgood, user_acquired_ok.
  - by apply Hgood, user_released_ok.
  - by apply meta_finished_ok.
  - by apply meta_destroyed_ok.
  - by apply conn_made_ok.
  - apply Hgood. exact (conn_acquires_ok s l1 m h l2 false K Hf Hl).
  - apply Hgood. exact (conn_acquires_ok s l1 m h l2 true K Hf Hl).
  - by apply Hgood, conn_ended_ok.
  - by apply conn_left_ok.
  - by apply Hgood, conn_notified_ok.
  - apply Hgood. by eapply write_queued_ok.
  - by eapply write_done_ok.
  - apply Hgood. exact (callback_ok s _ _ _ _ _ K Hf (k_endpoints _ K)).
  - by apply Hgood, destroy_began_ok.
  - by apply Hgood, destroy_released_ok.
  - by apply Hgood, destroy_ended_ok.
  - apply Hgood. exact (callback_ok s false (sh_file_io_elg_allocated s) (sh_s3express_provider_active s) _ _ K Hf (k_endpoints _ K)).
  - apply Hgood. exact (callback_ok s (sh_body_streaming_elg_allocated s) false (sh_s3express_provider_active s) _ _ K Hf (k_endpoints _ K)).
  - apply Hgood. exact (callback_ok s (sh_body_streaming_elg_allocated s) (sh_file_io_elg_allocated s) false _ _ K Hf (k_endpoints _ K)).
  - by apply Hgood, (manager_shut_ok s l1 h l2).
  - by apply Hgood, work_started_ok.
  - by apply work_canceled_ok.
  - by apply work_finished_ok.
  - by apply cleanup_ok.
  - by apply Hgood, trim_ok.
Qed.

Lemma shut_reachable_ok s : shut_reachable s → shut_ok s.
Proof using HLaws.
  intros Hs. unfold shut_reachable in Hs. pose proof shut_init_ok as Hi. revert Hi.
  induction Hs as [|s s' s'' [Hf Hop] Hs IH]; intros K; [done|]. apply IH. destruct (op_ok s _ K Hf Hop) as (s1 & Hs1 & Hok).
  by apply Ok_inj in Hs1 as <-.
Qed.

(** * Theorems *)

(** C20: in every state the reference count of an endpoint is the number of meta requests and
    connections that hold it, whoever holds an endpoint finds it in the table, the number of endpoints
    counts those in the table and those that are closing, and the references to the client are those of
    its users, meta requests and connections; no operation fails an assertion or uses an endpoint
    that is gone. *)
Theorem endpoints_counted s : shut_reachable s →
  (∀ h e, sh_endpoints s !! h = Some e → ep_ref_count e = holders s h) ∧
  (∀ h, 0 < holders s h → is_Some (sh_endpoints s !! h)) ∧
  sh_num_endpoints_allocated s = Z.of_nat (base.size (sh_endpoints s)) + Z.of_nat (length (sh_closing s)) ∧
  sh_ref_count s = references s ∧
  (∀ r, sh_freed s = false → shut_op s r → r ≠ FatalAssert).
Proof using HLaws.
  intros K%shut_reachable_ok. destruct (k_endpoints _ K) as [H1 H2 H3 _ _]. split_and!; [done..|apply K|].
  intros r Hf Hop. destruct (op_ok s r K Hf Hop) as (s' & -> & _). done.
Qed.

(** C19: when the client is freed nobody has a reference to it, and no task is left that would use
    it: no user, meta request, connection with a request or pending write, no endpoint in the table or
    closing, no scheduled worker, cleanup or trim task (the last is canceled) and no running worker, no
    event loop group or provider.  The one use that is left is that of a thread which ends a connection
    and locks the client after it gave up the endpoint ([notified_after_free]). *)
Theorem client_freed_clean s : shut_reachable s → sh_freed s = true →
  sh_users s = 0%nat ∧ sh_metas s = [] ∧ sh_conns s = [] ∧ sh_ending s = [] ∧ sh_writes s = [] ∧
  sh_endpoints s = ∅ ∧ sh_closing s = [] ∧
  sh_process_work_task_scheduled s = false ∧ sh_cleanup_queued s = false ∧ sh_trim_queued s = false ∧ sh_work s = WorkIdle ∧
  sh_body_streaming_elg_allocated s = false ∧ sh_file_io_elg_allocated s = false ∧ sh_s3express_provider_active s = false ∧
  sh_destroy s = Destroyed ∧ sh_ref_count s = 0.
Proof using HLaws.
  intros K%shut_reachable_ok Hf. pose proof (k_freed _ K Hf) as (Ha & Hx & Hb & Hfi & Hs & Hp & Hpr & Hn)%may_finish_true.
  assert (sh_destroy s = Destroyed) as Hd.
  { rewrite (k_active _ K) in Ha. rewrite (k_executing _ K) in Hx. apply bool_decide_eq_false in Ha, Hx. destruct (sh_destroy s); tauto. }
  assert (sh_work s = WorkIdle) as Hw.
  { rewrite (k_progress _ K) in Hp. apply bool_decide_eq_false in Hp. destruct (sh_work s); [done|by destruct Hp..]. }
  destruct (unreferenced s K) as (Hu & Hm & Hc & _ & _); [by rewrite Hd|].
  destruct (k_endpoints _ K) as [_ H2 H3 _ _]. rewrite Hn in H3.
  assert (sh_endpoints s = ∅) as Ht by (apply map_size_empty_inv; lia).
  assert (sh_closing s = []) as Hcl by (destruct (sh_closing s); [done|simpl in *; lia]).
  split_and!; try done; [| | |by rewrite (k_trim _ K), Hf, andb_false_r|by apply (k_unreferenced _ K); rewrite Hd].
  - destruct (sh_ending s) as [|[h b] l] eqn:He; [done|]. destruct (H2 h) as [e Hl]; [|by rewrite Ht in Hl].
    unfold holders. rewrite Hm, Hc, He, count_cons, !count_nil. simpl. rewrite bool_decide_true by done.
    pose proof (count_bounds (λ p : host * bool, bool_decide (p.1 = h)) l). lia.
  - pose proof (k_write_metas _ K) as Hk. rewrite Hm in Hk. destruct (sh_writes s) as [|m l]; [done|].
    apply Forall_cons_1 in Hk as [Hk _]. set_solver.
  - rewrite (k_cleanup _ K), Hw. destruct (sh_endpoints_cleanup_task_scheduled s) eqn:Hcs; [|done].
    by rewrite (k_task _ K Hd Hcs) in Hs.
Qed.

(** C21: a client whose last reference was given up is freed as soon as nothing keeps it: when the
    worker neither runs nor is scheduled, the client is freed, or the shutdown of an event loop group,
    of the provider or of an endpoint is outstanding, or a connection has still to give up its
    endpoint. *)
Theorem client_freed_in_time s : shut_reachable s → sh_destroy s = Destroyed → sh_work s = WorkIdle →
  sh_process_work_task_scheduled s = false →
  sh_freed s = true ∨ sh_body_streaming_elg_allocated s = true ∨ sh_file_io_elg_allocated s = true ∨
  sh_s3express_provider_active s = true ∨ sh_closing s ≠ [] ∨ sh_ending s ≠ [].
Proof using HLaws.
  intros K%shut_reachable_ok Hd Hw Hs. destruct (sh_body_streaming_elg_allocated s) eqn:Hb; [tauto|].
  destruct (sh_file_io_elg_allocated s) eqn:Hfi; [tauto|]. destruct (sh_s3express_provider_active s) eqn:Hp; [tauto|].
  destruct (sh_closing s) as [|h l] eqn:Hc; [|by do 4 right; left]. destruct (sh_ending s) as [|e l] eqn:He; [|by do 5 right].
  left. assert (sh_active s = false) as Ha by (rewrite (k_active _ K); by rewrite Hd).
  assert (sh_cleanup_queued s = false) as Hq.
  { rewrite (k_cleanup _ K), Hw. destruct (sh_endpoints_cleanup_task_scheduled s) eqn:Hcs; [|done]. by rewrite (k_task _ K Hd Hcs) in Hs. }
  destruct (unreferenced s K) as (_ & Hm & Hcn & _ & _); [by rewrite Hd|]. destruct (k_endpoints _ K) as [H1 _ H3 _ _].
  apply (k_live _ K Hw), may_finish_true. split_and!; try done.
  - rewrite (k_executing _ K). by rewrite Hd.
  - rewrite (k_progress _ K). by rewrite Hw.
  - rewrite H3, Hc. assert (sh_endpoints s = ∅) as ->; [|by rewrite map_size_empty]. apply map_empty. intros h.
    destruct (sh_endpoints s !! h) as [e|] eqn:Hl; [|done]. destruct (k_held _ K Ha Hq h e Hl). rewrite (H1 h e Hl).
    unfold holders. by rewrite Hm, Hcn, He.
Qed.

(** C24: a meta request is made with a message that has a host, which is that of the endpoint where one is
    given, and with one more reference to the endpoint of its host; when it is not made, endpoints and
    references are as before. *)
Theorem meta_request_made env s options m r : aws_s3_client_make_meta_request mc env s options m = Ok r →
  match md_result r with
  | Success _ => ∃ h headers v,
      md_headers r = Some headers ∧ aws_http_headers_get headers g_host_header_name = Some v ∧
      (∀ u, mo_endpoint options = Some u → v = uri_authority u ∧ h = uri_host_name u) ∧
      sh_metas (md_state r) = sh_metas s ++ [(m, Some h)] ∧ sh_ref_count (md_state r) = sh_ref_count s + 1 ∧
      (∃ e, sh_endpoints (md_state r) !! h = Some e ∧
            ep_ref_count e = from_option ep_ref_count 0 (sh_endpoints s !! h) + 1) ∧
      sh_process_work_task_scheduled (md_state r) = true
  | Failure _ =>
      md_state r = s <| sh_s3express_provider_active := sh_s3express_provider_active (md_state r) |>
  end.
Proof using HLaws.
  unfold aws_s3_client_make_meta_request.
  set (use := match mo_s3express options, mc_s3express mc with Some b, _ => b | None, Some b => b | None, None => false end).
  destruct (_ <=? _); [intros <-%Ok_inj; by destruct s|].
  destruct (mo_message options) as [message|]; [|intros <-%Ok_inj; by destruct s].
  destruct (use && _); [intros <-%Ok_inj; by destruct s|].
  destruct message as [headers|]; [|intros <-%Ok_inj; by destruct s].
  destruct (apply_override_spec headers (mo_endpoint options)) as (o & Ho & Hhost). rewrite Ho. simpl.
  destruct o as [headers'|e]; [|intros <-%Ok_inj; by destruct s].
  destruct (Hhost headers' eq_refl) as (v & Hv & Hvu). rewrite Hv.
  destruct (endpoint_is_https (mo_endpoint options)) as [https|e]; [|intros <-%Ok_inj; by destruct s].
  destruct (me_meta_request_factory env) as [e|]; [intros <-%Ok_inj; by destruct s|].
  pose proof (make_endpoint_result env (aws_s3_client_acquire s) use https (mo_endpoint options) v) as Hm.
  destruct (make_endpoint _ _ _ _ _ _ _) as [[[h|e] s'] k]; destruct Hm as (p & t & n & -> & _ & Hr); intros <-%Ok_inj.
  - exists h, headers', v. cbn [md_headers md_state]. destruct Hr as [Hh Hr]. split_and!; try done.
    + intros u Hu. split; [by apply Hvu|by apply Hh].
    + change (sh_endpoints (aws_s3_client_acquire s)) with (sh_endpoints s) in Hr. simpl.
      destruct (sh_endpoints s !! h) as [e|]; [destruct Hr as [-> _]|destruct Hr as (manager & -> & _)];
        (eexists; split; [apply lookup_insert_eq|]; simpl; lia).
  - destruct Hr as [-> ->]. destruct s. unfold aws_s3_client_release, aws_s3_client_acquire. simpl.
    f_equal. lia.
Qed.
End shutdown.

(** * Runs *)

Module ShutdownDemo.
#[local] Existing Instances byte_cursor_ref byte_cursor_ref_laws headers_ref headers_ref_laws.

Definition mc : make_client := mkMakeClient None false true 0 250.

(** A host without a port is the host of a URI. *)
Definition parse (l : list byte) : result aws_error uri := Success (mkUri [] l l 0).

Definition env : make_env := mkMakeEnv None None parse None None.

Definition bucket : list byte := lit "bucket.s3.amazonaws.com".

Definition options : make_options := mkMakeOptions 1 None (Some (Some [(lit "host", bucket)])) None.

(** The state that an operation gives. *)
Definition took (r : res shut_state) : shut_state := match r with Ok s => s | _ => shut_init end.

Lemma took_reachable s r : shut_reachable mc s → sh_freed s = false → shut_op mc s r → shut_reachable mc (took r).
Proof.
  intros Hs Hf Hop. pose proof (shut_reachable_ok mc s Hs) as K. destruct (op_ok mc s r K Hf Hop) as (s' & -> & _).
  eapply rtc_r; [exact Hs|]. by split.
Qed.

Lemma step_reachable s s' : shut_reachable mc s → sh_freed s = false → shut_op mc s (Ok s') → shut_reachable mc s'.
Proof. intros Hs Hf Hop. eapply rtc_r; [exact Hs|]. by split. Qed.

(** A meta request with a connection; then its user leaves, and the connection ends as the last. *)
Definition making : res shut_state := made ← aws_s3_client_make_meta_request mc env shut_init options 0; Ok (md_state made).
Definition connected : shut_state := took (connection_made (took making) 0 bucket).

Definition left : shut_state :=
  aws_s3_client_release (connected <| sh_users := 0%nat |>).

Definition request_gone : shut_state := connection_ends (left <| sh_conns := [] |>) (mkConnHold 0 bucket false).
Definition meta_gone : shut_state := took (meta_destroyed request_gone 0 (Some bucket)).
Definition destroying : shut_state := start_destroy_end (start_destroy_release (start_destroy_begin meta_gone)).
Definition endpoint_gone : shut_state := took (connection_leaves (destroying <| sh_ending := [] |>) bucket false).
Definition shut : shut_state :=
  s_s3_client_file_io_elg_shutdown (s_s3_client_body_streaming_elg_shutdown
    (s_s3_client_endpoint_shutdown_callback (endpoint_gone <| sh_closing := [] |>))).
Definition cleaned : shut_state := took (process_work_cancels (process_work_starts shut 0)).
Definition worked : shut_state := took (process_work_finishes cleaned).
Definition freed : shut_state := took (process_work_finishes (process_work_starts worked 0)).

Ltac took_step s r := apply (took_reachable s r); [|vm_compute; reflexivity|].
Ltac step s := apply (step_reachable s); [|vm_compute; reflexivity|].

Lemma connected_steps : shut_reachable mc connected.
Proof.
  took_step (took making) (connection_made (took making) 0 bucket); [|apply op_conn_made; vm_compute; set_solver].
  took_step shut_init making; [apply rtc_refl|].
  apply (op_made _ _ env options 0); [simpl; lia|vm_compute; set_solver|done|done].
Qed.

Lemma destroying_steps : shut_reachable mc destroying.
Proof.
  step (start_destroy_release (start_destroy_begin meta_gone)); [|apply op_destroy_ended; vm_compute; reflexivity].
  step (start_destroy_begin meta_gone);
    [|apply op_destroy_released; vm_compute; reflexivity].
  step meta_gone; [|apply op_destroy_began; vm_compute; reflexivity].
  took_step request_gone (meta_destroyed request_gone 0 (Some bucket));
    [|apply op_meta_destroyed; [vm_compute; set_solver|constructor|vm_compute; set_solver]].
  step left; [|apply (op_conn_ended _ _ [] (mkConnHold 0 bucket false) []); vm_compute; reflexivity].
  step connected; [|apply op_user_released; vm_compute; reflexivity]. apply connected_steps.
Qed.

Lemma shut_steps : shut_reachable mc shut.
Proof.
  step (s_s3_client_body_streaming_elg_shutdown (s_s3_client_endpoint_shutdown_callback (endpoint_gone <| sh_closing := [] |>)));
    [|apply op_file_io_shut; [right|]; vm_compute; reflexivity].
  step (s_s3_client_endpoint_shutdown_callback (endpoint_gone <| sh_closing := [] |>));
    [|apply op_streaming_shut; [right|]; vm_compute; reflexivity].
  step endpoint_gone;
    [|apply (op_manager_shut _ _ [] bucket []); vm_compute; reflexivity].
  took_step destroying (connection_leaves (destroying <| sh_ending := [] |>) bucket false);
    [|apply (op_conn_left _ _ [] bucket false []); vm_compute; reflexivity]. apply destroying_steps.
Qed.

Lemma freed_steps : shut_reachable mc freed.
Proof.
  took_step (process_work_starts worked 0) (process_work_finishes (process_work_starts worked 0)); [|apply op_work_finished; vm_compute; reflexivity].
  step worked; [|apply op_work_started; vm_compute; reflexivity].
  took_step cleaned (process_work_finishes cleaned); [|apply op_work_finished; vm_compute; reflexivity].
  took_step (process_work_starts shut 0) (process_work_cancels (process_work_starts shut 0)); [|apply op_work_canceled; vm_compute; reflexivity].
  step shut; [|apply op_work_started; vm_compute; reflexivity]. apply shut_steps.
Qed.

(** A thread that ends a connection locks the client after it gave up the endpoint: nothing keeps the
    client until then, unless the connection was being acquired. *)
Lemma notified_after_free : shut_reachable mc freed ∧ sh_freed freed = true ∧ sh_notifying freed = [false].
Proof. split; [apply freed_steps|]. split; vm_compute; reflexivity. Qed.

(** The name of the host is freed twice when the endpoint cannot be made: removing the entry from the
    table frees its key, which is the same string. *)
Lemma host_name_freed_twice e : md_name_freed <$> (match aws_s3_client_make_meta_request mc
    (mkMakeEnv None None parse None (Some e)) shut_init options 0 with Ok r => Some r | _ => None end) = Some 2%nat.
Proof. vm_compute. reflexivity. Qed.

(** Endpoints are found by the name of the host alone: a meta request for another port of the same host uses
    the connection manager of the first. *)
Definition other_port : make_options :=
  mkMakeOptions 1 None (Some (Some [])) (Some (mkUri (lit "http") (lit "h:8080") (lit "h") 8080)).
Definition first_port : make_options :=
  mkMakeOptions 1 None (Some (Some [])) (Some (mkUri (lit "https") (lit "h") (lit "h") 0)).

Lemma endpoint_shared :
  match aws_s3_client_make_meta_request mc env shut_init first_port 0 with
  | Ok r =>
      match aws_s3_client_make_meta_request mc env (md_state r) other_port 1 with
      | Ok r' => (λ e, (ep_ref_count e, mgr_tls (ep_manager e), mgr_port (ep_manager e))) <$> sh_endpoints (md_state r') !! lit "h" = Some (2, true, 443)
      | _ => False
      end
  | _ => False
  end.
Proof. vm_compute. reflexivity. Qed.

Lemma endpoints_counted_witness : sh_ref_count connected = 2 ∧ sh_num_endpoints_allocated connected = 1.
Proof.
  destruct (endpoints_counted mc connected connected_steps) as (_ & _ & Hn & Hr & _). rewrite Hn, Hr.
  split; vm_compute; reflexivity.
Defined.

Lemma client_freed_clean_witness : sh_freed freed = true ∧ sh_endpoints freed = ∅.
Proof.
  assert (sh_freed freed = true) as Hf by (vm_compute; reflexivity). split; [exact Hf|].
  destruct (client_freed_clean mc freed freed_steps Hf) as (_ & _ & _ & _ & _ & H & _). exact H.
Defined.

Lemma client_freed_in_time_witness : sh_destroy freed = Destroyed ∧ sh_work freed = WorkIdle ∧
  (sh_freed freed = true ∨ sh_body_streaming_elg_allocated freed = true ∨ sh_file_io_elg_allocated freed = true ∨
   sh_s3express_provider_active freed = true ∨ sh_closing freed ≠ [] ∨ sh_ending freed ≠ []).
Proof.
  assert (sh_destroy freed = Destroyed) as Hd by (vm_compute; reflexivity).
  assert (sh_work freed = WorkIdle) as Hw by (vm_compute; reflexivity).
  assert (sh_process_work_task_scheduled freed = false) as Hs by (vm_compute; reflexivity).
  split; [exact Hd|]. split; [exact Hw|]. exact (client_freed_in_time mc freed freed_steps Hd Hw Hs).
Defined.

Definition made_once : res made_meta := aws_s3_client_make_meta_request mc env shut_init options 0.

Lemma meta_request_made_witness : ∃ r, made_once = Ok r ∧ md_result r = Success tt ∧ sh_ref_count (md_state r) = 2.
Proof.
  assert (match made_once with Ok r => md_result r = Success tt | _ => False end) as Hr by (vm_compute; reflexivity).
  destruct made_once as [r| |] eqn:Hm; [|destruct Hr..]. exists r. split; [reflexivity|]. split; [exact Hr|].
  pose proof (meta_request_made mc env shut_init options 0 r Hm) as H.
  rewrite Hr in H. destruct H as (h & headers & v & _ & _ & _ & _ & H & _). exact H.
Defined.
End ShutdownDemo.
