(* ===== verification/MetaInit.v ===== *)
(** The construction of a meta request (source/s3_meta_request.c: aws_s3_meta_request_init_base): the
    checks of its options, the file or the buffer it downloads to, the source of its body, and what
    is released when the construction fails. *)

From Stdlib Require Import Init.Byte String.
From S2P Require Import Prelude AwsCommon ByteCursor HttpHeaders HttpMessage Checksums ChecksumContext BodyStream.
From S2P Require Import PartMath AutoRangedPut ClientConfig.

(** * Data *)

Inductive recv_file_option :=
| AWS_S3_RECV_FILE_CREATE_OR_REPLACE
| AWS_S3_RECV_FILE_CREATE_NEW
| AWS_S3_RECV_FILE_CREATE_OR_APPEND
| AWS_S3_RECV_FILE_WRITE_TO_POSITION.

#[export] Instance recv_file_option_eq_dec : EqDecision recv_file_option.
Proof. solve_decision. Defined.

(** The fields of [struct aws_s3_checksum_config] for a checksum that the caller expects. *)
Record expected_options := mkExpected {
  expected_checksum : list byte;
  expected_checksum_algorithm : checksum_algorithm;
}.

(** A buffer of the caller. *)
Record recv_buf := mkRecvBuf { recv_len : Z; recv_capacity : Z }.

(** [struct aws_s3_meta_request_options], as far as the construction reads it.  Paths are given by
    their length, the message by its headers. *)
Record init_options := mkInitOptions {
  io_type : meta_request_type;
  io_fio_opts : option file_io_options;
  io_checksum_config : option (checksum_options * expected_options);
  io_body_callback : bool;
  io_body_callback_ex : bool;
  io_signing_config : bool;
  io_headers : http_headers;
  io_operation_name : list byte;
  io_recv_filepath_len : Z;
  io_recv_file_option : recv_file_option;
  io_recv_file_position : Z;
  io_recv_file_delete_on_failure : bool;
  io_recv_buffer : option recv_buf;
  io_object_size_hint : option Z;
  io_send_filepath_len : Z;
  io_send_async_stream : bool;
  io_send_using_async_writes : bool;
  io_part_size : Z;
  io_out_of_order_delivery : aws_tribool;
  io_max_active_connections_override : Z;
}.

(** What the system and other code answer: errors of calls that may fail, the page size, whether
    files can be opened with [O_DIRECT] at all and whether this one can. *)
Record init_env := mkInitEnv {
  ie_mutex_init : option aws_error;
  ie_body_queue_init : option aws_error;
  ie_tracker_init : option aws_error;
  ie_add_preallocated_buffer : option aws_error;
  ie_fopen : option aws_error;
  ie_file_get_length : option aws_error;
  ie_page_size : Z;
  ie_direct_io_is_supported : bool;
  ie_open_direct_io : option aws_error;
  ie_parallel_input_stream_new : option aws_error;
  ie_byte_cursor_find_exact : list byte → list byte → bool;
}.

(** What a meta request holds until it is destroyed. *)
Inductive meta_resource :=
| ResChecksumConfig | ResAsyncStream | ResParallelStream | ResMessage | ResUserAgent | ResSigningConfig
| ResDescriptors | ResPath | ResPreallocated | ResClient | ResBodyQueue | ResTracker | ResRunningSum
| ResHeaderChecksum | ResEventArrays | ResPrepareQueue.

#[export] Instance meta_resource_eq_dec : EqDecision meta_resource.
Proof. solve_decision. Defined.

(** The receive file with its content, how many of each resource are held, and whether the client
    has made its first meta request. *)
Record init_world := mkInitWorld {
  iw_file : option (list byte);
  iw_held : meta_resource → Z;
  iw_first_operation_emitted : bool;
}.
#[export] Instance init_world_eta : Eta init_world := λ w,
  mkInitWorld (iw_file w) (iw_held w) (iw_first_operation_emitted w).

(** [struct aws_s3_meta_request], the fields that the construction sets; [mb_holds] are the
    resources that its pointers refer to. *)
Record meta_base := mkMetaBase {
  mb_holds : list meta_resource;
  mb_fio_opts : file_io_options;
  mb_out_of_order_delivery_override : aws_tribool;
  mb_part_size : Z;
  mb_max_active_connections_override : Z;
  mb_should_compute_content_md5 : bool;
  mb_checksum_config : checksum_config;
  mb_running_response_sum : option s3_checksum;
  mb_response_header_checksum : list byte;
  mb_read_window_running_total : Z;
  mb_feature_ids : Z;
  mb_first_request_for_new_client : bool;
  mb_recv_buffer : option recv_buf;
  mb_recv_filepath : bool;
  mb_recv_file_delete_on_failure : bool;
  mb_recv_file_finalized : bool;
  mb_recv_file_direct_io : bool;
  mb_recv_file_base_offset : Z;
  mb_recv_file_direct_io_fallback_count : Z;
  mb_recv_file_write_fd_slot_count : Z;
  mb_body_source : body_source;
}.
#[export] Instance meta_base_eta : Eta meta_base := λ m,
  mkMetaBase (mb_holds m) (mb_fio_opts m) (mb_out_of_order_delivery_override m) (mb_part_size m)
    (mb_max_active_connections_override m) (mb_should_compute_content_md5 m) (mb_checksum_config m)
    (mb_running_response_sum m) (mb_response_header_checksum m) (mb_read_window_running_total m) (mb_feature_ids m)
    (mb_first_request_for_new_client m) (mb_recv_buffer m) (mb_recv_filepath m) (mb_recv_file_delete_on_failure m)
    (mb_recv_file_finalized m) (mb_recv_file_direct_io m) (mb_recv_file_base_offset m)
    (mb_recv_file_direct_io_fallback_count m) (mb_recv_file_write_fd_slot_count m) (mb_body_source m).

Definition AWS_S3_FEATURE_ID_FILE_PATH : Z := Z.shiftl 1 4.

(** * Stages *)

(** A stage changes the meta request and the world, and may fail; it can also stop at an
    assertion. *)
Definition init_state : Type := meta_base * init_world.
Definition stage : Type := init_state → res (init_state * option aws_error).

Definition stage_then (f g : stage) : stage := λ s,
  x ← f s;
  match x with (s', None) => g s' | (s', Some e) => Ok (s', Some e) end.
Notation "f ;;> g" := (stage_then f g) (at level 60, right associativity) : stdpp_scope.

Definition raise (e : aws_error) : stage := λ s, Ok (s, Some e).
Definition skip : stage := λ s, Ok (s, None).
Definition raise_if (b : bool) (e : aws_error) : stage := if b then raise e else skip.
Definition call (e : option aws_error) : stage := λ s, Ok (s, e).
Definition set_meta (f : meta_base → meta_base) : stage := λ s, Ok ((f s.1, s.2), None).

Definition hold (r : meta_resource) (n : Z) (held : meta_resource → Z) : meta_resource → Z :=
  λ r', if bool_decide (r' = r) then held r' + n else held r'.

(** A pointer of the meta request is set to something that was just acquired. *)
Definition acquire (r : meta_resource) : stage := λ '(m, w),
  Ok ((m <| mb_holds ::= cons r |>, w <| iw_held ::= hold r 1 |>), None).

(** The file after it was opened, the error of opening it or of reading its length, whether it was
    opened, and what is known of where and how to write. *)
Record opened := mkOpened {
  op_file : option (list byte);
  op_opened : bool;
  op_error : option aws_error;
  op_base_offset : Z;
  op_direct_io : bool;
  op_fallbacks : Z;
}.
#[export] Instance opened_eta : Eta opened := λ f,
  mkOpened (op_file f) (op_opened f) (op_error f) (op_base_offset f) (op_direct_io f) (op_fallbacks f).

Inductive open_mode := ModeCreate | ModeAppend | ModeUpdate.

Section init.
Context `{B : !AwsByteCursor} `{H : !AwsHttpHeaders} `{D : !AwsDigest}.
Context (env : init_env) (cl : s3_client) (o : init_options).

(** ** The expected checksum *)

Definition downloads_object_data : bool :=
  bool_decide (io_type o = TYPE_GET_OBJECT) ||
  (bool_decide (io_type o = TYPE_DEFAULT) && aws_byte_cursor_eq_ignore_case (io_operation_name o) (lit "GetObject")).

Definition s_meta_request_init_expected_checksum : stage :=
  match io_checksum_config o with
  | None => skip
  | Some (c, x) =>
      let len := Z.of_nat (length (expected_checksum x)) in
      let algorithm := expected_checksum_algorithm x in
      if (len =? 0) && bool_decide (algorithm = AWS_SCA_NONE) then skip
      else if (len =? 0) || negb (is_known_algorithm algorithm) then raise AWS_ERROR_INVALID_ARGUMENT
      else if negb downloads_object_data then raise AWS_ERROR_INVALID_ARGUMENT
      else if option_validation_mode c =? SCVM_REQUEST_ONLY then raise AWS_ERROR_INVALID_ARGUMENT
      else if negb (bool_decide (aws_base64_compute_encoded_len (aws_get_digest_size_from_checksum_algorithm algorithm) = Some len))
      then raise AWS_ERROR_INVALID_ARGUMENT
      else
        match aws_checksum_new algorithm with
        | None => raise AWS_ERROR_UNKNOWN
        | Some sum =>
            acquire ResRunningSum ;;> acquire ResHeaderChecksum ;;>
            set_meta (λ m, m <| mb_running_response_sum := Some sum |>
                             <| mb_response_header_checksum := expected_checksum x |>
                             <| mb_checksum_config ::= λ c, c <| config_validate_response := true |> |>)
        end
  end.

(** ** The receive file *)

(** [fopen] with the modes "wb", "a+b" and "r+". *)
Definition aws_fopen_safe (mode : open_mode) (file : option (list byte)) : result aws_error (option (list byte)) :=
  match ie_fopen env with
  | Some e => Failure e
  | None =>
      match mode with
      | ModeCreate => Success (Some [])
      | ModeAppend => Success (Some (default [] file))
      | ModeUpdate => match file with Some _ => Success file | None => Failure AWS_ERROR_UNKNOWN end
      end
  end.

Definition aws_path_exists (file : option (list byte)) : bool := bool_decide (file ≠ None).

(** [O_DIRECT] needs an offset on a page boundary. *)
Definition open_at (file : option (list byte)) (direct_io : bool) (base_offset : Z) : opened :=
  if direct_io && negb (base_offset mod ie_page_size env =? 0)
  then mkOpened file true None base_offset false 1 else mkOpened file true None base_offset direct_io 0.

Definition open_failed (file : option (list byte)) (direct_io : bool) (e : aws_error) : opened :=
  mkOpened file false (Some e) 0 direct_io 0.

(** The file is brought into existence. *)
Definition open_recv_file (file : option (list byte)) (direct_io : bool) : result aws_error opened :=
  let create :=
    match aws_fopen_safe ModeCreate file with
    | Failure e => open_failed file direct_io e
    | Success file => mkOpened file true None 0 direct_io 0
    end in
  match io_recv_file_option o with
  | AWS_S3_RECV_FILE_CREATE_OR_REPLACE => Success create
  | AWS_S3_RECV_FILE_CREATE_NEW =>
      if aws_path_exists file then Failure AWS_ERROR_S3_RECV_FILE_ALREADY_EXISTS else Success create
  | AWS_S3_RECV_FILE_CREATE_OR_APPEND =>
      match aws_fopen_safe ModeAppend file with
      | Failure e => Success (open_failed file direct_io e)
      | Success file =>
          match ie_file_get_length env with
          | Some e => Success (mkOpened file true (Some e) 0 direct_io 0)
          | None => Success (open_at file direct_io (Z.of_nat (length (default [] file))))
          end
      end
  | AWS_S3_RECV_FILE_WRITE_TO_POSITION =>
      if negb (aws_path_exists file) then Failure AWS_ERROR_S3_RECV_FILE_NOT_FOUND
      else
        match aws_fopen_safe ModeUpdate file with
        | Failure e =>
            Success (open_at file direct_io (io_recv_file_position o) <| op_opened := false |> <| op_error := Some e |>)
        | Success file => Success (open_at file direct_io (io_recv_file_position o))
        end
  end.

(** The later reasons not to use [O_DIRECT]: the platform, the size of parts, the file. *)
Definition settle_direct_io (part_size : Z) (f : opened) : opened :=
  let fall_back (b : bool) (f : opened) :=
    if op_direct_io f && b then f <| op_direct_io := false |> <| op_fallbacks ::= λ n, n + 1 |> else f in
  let f := fall_back (negb (ie_direct_io_is_supported env)) f in
  let f := fall_back (negb (part_size mod ie_page_size env =? 0)) f in
  fall_back (bool_decide (ie_open_direct_io env ≠ None)) f.

(** A slot for a descriptor per file I/O thread. *)
Definition make_write_fd_slots : stage :=
  if bool_decide (io_type o = TYPE_GET_OBJECT) &&
     aws_s3_allow_out_of_order_delivery true false (io_out_of_order_delivery o) (cl_out_of_order_delivery cl)
       (cl_out_of_order_delivery_env cl)
  then λ s,
    _ ← assert_fatal (0 <? cl_num_file_io_threads cl);
    (acquire ResDescriptors ;;> set_meta (λ m, m <| mb_recv_file_write_fd_slot_count := cl_num_file_io_threads cl |>)) s
  else skip.

Definition s_s3_meta_request_init_recv_file (part_size : Z) : stage :=
  if io_recv_filepath_len o =? 0 then skip
  else
    acquire ResPath ;;> set_meta (λ m, m <| mb_recv_filepath := true |>) ;;>
    λ s, let '(m, w) := s in
    let writes_into_existing_file :=
      bool_decide (io_recv_file_option o = AWS_S3_RECV_FILE_WRITE_TO_POSITION) ||
      (bool_decide (io_recv_file_option o = AWS_S3_RECV_FILE_CREATE_OR_APPEND) && aws_path_exists (iw_file w)) in
    if io_recv_file_delete_on_failure o && writes_into_existing_file then Ok (s, Some AWS_ERROR_INVALID_ARGUMENT)
    else
      match open_recv_file (iw_file w) (direct_io (mb_fio_opts m)) with
      | Failure e => Ok (s, Some e)
      | Success f =>
          let m := if op_opened f then m <| mb_recv_file_delete_on_failure := io_recv_file_delete_on_failure o |> else m in
          let w := w <| iw_file := op_file f |> in
          match op_error f with
          | Some e => Ok ((m, w), Some e)
          | None =>
              let f := settle_direct_io part_size f in
              let m := m <| mb_recv_file_direct_io := op_direct_io f |> <| mb_recv_file_base_offset := op_base_offset f |>
                         <| mb_recv_file_direct_io_fallback_count := op_fallbacks f |> in
              make_write_fd_slots (m, w)
          end
      end.

(** ** The stages of the constructor *)

(** The options of file I/O: those of the request, of the client, or the default. *)
Definition init_fio_opts (should_default_streaming : bool) : file_io_options :=
  let fio :=
    match io_fio_opts o with
    | Some fio => fio
    | None => if cl_fio_options_set cl then cl_fio_opts cl else mkFio should_default_streaming (double_of_Z 0) false
    end in
  if should_stream fio && double_eqb (disk_throughput_gbps fio) (double_of_Z 0)
  then mkFio (should_stream fio) (cl_throughput_target_gbps cl) (direct_io fio) else fio.

Definition meta_zero : meta_base :=
  mkMetaBase [] (mkFio false (double_of_Z 0) false) AWS_TRIBOOL_UNSET 0 0 false no_checksum_config None [] 0 0 false None false
    false false false 0 0 0 BodyStream.

Definition init_checksum_config : stage := λ s,
  match aws_s3_meta_request_checksum_config_storage_init (ie_byte_cursor_find_exact env) (fst <$> io_checksum_config o)
          (io_headers o) with
  | Failure e => raise e s
  | Success c => (acquire ResChecksumConfig ;;> set_meta (λ m, m <| mb_checksum_config := c |>)) s
  end.

(** The reference to the client, and what is taken from it. *)
Definition init_client : stage :=
  acquire ResClient ;;>
  set_meta (λ m, m <| mb_read_window_running_total := cl_initial_read_window cl |>
                   <| mb_feature_ids := cl_feature_ids cl |>) ;;>
  λ '(m, w),
  if iw_first_operation_emitted w then Ok ((m, w), None)
  else Ok ((m <| mb_first_request_for_new_client := true |>, w <| iw_first_operation_emitted := true |>), None).

Definition init_feature_ids : stage :=
  set_meta (λ m,
    let m := if (0 <? io_send_filepath_len o) || (0 <? io_recv_filepath_len o)
             then m <| mb_feature_ids ::= λ n, Z.lor n AWS_S3_FEATURE_ID_FILE_PATH |> else m in
    if negb (io_part_size o =? 0) && negb (io_part_size o =? g_default_part_size_fallback)
    then m <| mb_feature_ids ::= λ n, Z.lor n AWS_S3_FEATURE_ID_CUSTOM_PART_SIZE |> else m).

(** A buffer to download to. *)
Definition init_recv_buffer : stage :=
  match io_recv_buffer o with
  | None => skip
  | Some b =>
      raise_if ((0 <? io_recv_filepath_len o) || io_body_callback o || io_body_callback_ex o) AWS_ERROR_INVALID_ARGUMENT ;;>
      raise_if (negb (bool_decide (io_type o = TYPE_GET_OBJECT))) AWS_ERROR_INVALID_ARGUMENT ;;>
      raise_if (negb (recv_len b =? 0)) AWS_ERROR_INVALID_ARGUMENT ;;>
      raise_if (match io_object_size_hint o with Some hint => negb (hint =? recv_capacity b) | None => false end)
        AWS_ERROR_INVALID_ARGUMENT ;;>
      raise_if (recv_capacity b =? 0) AWS_ERROR_SHORT_BUFFER ;;>
      call (ie_add_preallocated_buffer env) ;;> acquire ResPreallocated ;;>
      set_meta (λ m, m <| mb_recv_buffer := Some b |>)
  end.

(** The source of the body; without another one it is the stream of the message. *)
Definition init_body_source : stage :=
  if 0 <? io_send_filepath_len o then
    call (ie_parallel_input_stream_new env) ;;> acquire ResParallelStream ;;>
    set_meta (λ m, m <| mb_body_source := BodyParallelStream |>)
  else if io_send_async_stream o then
    acquire ResAsyncStream ;;> set_meta (λ m, m <| mb_body_source := BodyAsyncStream |>)
  else if io_send_using_async_writes o then set_meta (λ m, m <| mb_body_source := BodyAsyncWrites |>)
  else set_meta (λ m, m <| mb_body_source := BodyStream |>).

Definition init_stages (part_size : Z) (should_compute_content_md5 should_default_streaming : bool) : stage :=
  set_meta (λ m, m <| mb_fio_opts := init_fio_opts should_default_streaming |>
                   <| mb_out_of_order_delivery_override := io_out_of_order_delivery o |>) ;;>
  raise_if (part_size =? SIZE_MAX) AWS_ERROR_INVALID_ARGUMENT ;;>
  raise_if (should_stream (init_fio_opts should_default_streaming) &&
            match io_checksum_config o with Some (c, _) => bool_decide (option_location c = AWS_SCL_HEADER) | None => false end)
    AWS_ERROR_INVALID_ARGUMENT ;;>
  raise_if (io_body_callback o && io_body_callback_ex o) AWS_ERROR_INVALID_ARGUMENT ;;>
  call (ie_mutex_init env) ;;>
  call (ie_body_queue_init env) ;;> acquire ResBodyQueue ;;>
  call (ie_tracker_init env) ;;> acquire ResTracker ;;>
  acquire ResEventArrays ;;> acquire ResPrepareQueue ;;>
  set_meta (λ m, m <| mb_part_size := part_size |>
                   <| mb_max_active_connections_override := io_max_active_connections_override o |>
                   <| mb_should_compute_content_md5 := should_compute_content_md5 |>) ;;>
  init_checksum_config ;;>
  s_meta_request_init_expected_checksum ;;>
  (if io_signing_config o then acquire ResSigningConfig else skip) ;;>
  init_client ;;> init_feature_ids ;;> acquire ResMessage ;;>
  init_recv_buffer ;;> acquire ResUserAgent ;;>
  s_s3_meta_request_init_recv_file part_size ;;>
  init_body_source.
End init.

(** * The end of a meta request *)

(** What [s_s3_meta_request_destroy] releases where the pointer to it is set, in its order. *)
Definition destroy_order : list meta_resource :=
  [ResChecksumConfig; ResAsyncStream; ResParallelStream; ResMessage; ResUserAgent; ResSigningConfig; ResDescriptors].
Definition destroy_order_rest : list meta_resource :=
  [ResBodyQueue; ResTracker; ResRunningSum; ResHeaderChecksum; ResEventArrays; ResPrepareQueue].

Definition release_held (m : meta_base) (l : list meta_resource) (w : init_world) : init_world :=
  foldl (λ w r, if bool_decide (r ∈ mb_holds m) then w <| iw_held ::= hold r (-1) |> else w) w l.

(** Deleting the file is taken to succeed; the code does not look at the result.  The mutex, which owns no memory,
    is not one of the resources. *)
Definition s_s3_meta_request_destroy (m : meta_base) (w : init_world) : init_world :=
  let w := release_held m destroy_order w in
  let w := if mb_recv_filepath m && mb_recv_file_delete_on_failure m && negb (mb_recv_file_finalized m)
           then w <| iw_file := None |> else w in
  let w := release_held m [ResPath] w in
  let w := if bool_decide (ResClient ∈ mb_holds m) then release_held m [ResPreallocated; ResClient] w else w in
  release_held m destroy_order_rest w.

Definition aws_s3_meta_request_init_base `{B : !AwsByteCursor} `{H : !AwsHttpHeaders} `{D : !AwsDigest} (env : init_env)
    (cl : s3_client) (o : init_options) (part_size : Z) (should_compute_content_md5 should_default_streaming : bool)
    (w : init_world) : res (result aws_error meta_base * init_world) :=
  x ← init_stages env cl o part_size should_compute_content_md5 should_default_streaming (meta_zero, w);
  match x with
  | ((m, w), None) => Ok (Success m, w)
  | ((m, w), Some e) => Ok (Failure e, s_s3_meta_request_destroy m w)
  end.

(** * Reasoning about stages *)

Definition triple (P : init_state → Prop) (f : stage) (Q E : init_state → Prop) : Prop :=
  ∀ s, P s → res_ok (λ x, match x.2 with None => Q x.1 | Some _ => E x.1 end) (f s).

Lemma triple_then P Q R E f g : triple P f Q E → triple Q g R E → triple P (f ;;> g) R E.
Proof.
  intros Hf Hg s Hs. unfold stage_then. eapply res_ok_bind; [by apply Hf|]. intros [s' [e|]] Hs'; [done|].
  apply Hg, Hs'.
Qed.

Lemma triple_skip P E : triple P skip P E.
Proof. by intros s Hs. Qed.
Lemma triple_raise P Q E e : (∀ s, P s → E s) → triple P (raise e) Q E.
Proof. intros HE s Hs. by apply HE. Qed.
Lemma triple_raise_if P E b e : (∀ s, P s → E s) → triple P (raise_if b e) (λ s, P s ∧ b = false) E.
Proof. intros HE s Hs. destruct b; [by apply HE|done]. Qed.
Lemma triple_call P E e : (∀ s, P s → E s) → triple P (call e) P E.
Proof. intros HE s Hs. destruct e; [by apply HE|done]. Qed.
Lemma triple_weaken P Q Q' E f : triple P f Q E → (∀ s, Q s → Q' s) → triple P f Q' E.
Proof.
  intros Hf HQ s Hs. eapply res_ok_mono; [by apply Hf|]. intros [s' [e|]]; [done|]. apply HQ.
Qed.

(** * Resources *)

Section releases.
Context `{B : !AwsByteCursor} `{H : !AwsHttpHeaders} `{D : !AwsDigest}.
Context (env : init_env) (cl : s3_client) (o : init_options) (Hthreads : 0 < cl_num_file_io_threads cl).
Context (held : meta_resource → Z).

Definition occurs (r : meta_resource) (l : list meta_resource) : Z := if bool_decide (r ∈ l) then 1 else 0.

(** The meta request holds each resource at most once, and the world knows. *)
Record held_ok (s : init_state) : Prop := {
  h_nodup : NoDup (mb_holds s.1);
  h_held : ∀ r, iw_held s.2 r = held r + occurs r (mb_holds s.1);
  h_pool : ResPreallocated ∈ mb_holds s.1 → ResClient ∈ mb_holds s.1;
}.

(** Some resources are not held yet; the client may be. *)
Definition fresh (c : bool) (l : list meta_resource) (s : init_state) : Prop :=
  held_ok s ∧ NoDup (l ++ mb_holds s.1) ∧ (c = true → ResClient ∈ mb_holds s.1).

(** [f] acquires at most [l]. *)
Definition acquires (c c' : bool) (l : list meta_resource) (f : stage) : Prop :=
  ∀ k, triple (fresh c (l ++ k)) f (fresh c' k) held_ok.

Lemma fresh_ok c l s : fresh c l s → held_ok s.
Proof. by intros [? _]. Qed.

Lemma fresh_weaken c l k s : fresh c (l ++ k) s → fresh c k s.
Proof. intros (H1 & H2 & H3). split_and!; [done| |done]. rewrite <-app_assoc in H2. by apply list.NoDup_app in H2 as (_ & _ & H2). Qed.

Lemma acquires_then c c' c'' l k f g : acquires c c' l f → acquires c' c'' k g → acquires c c'' (l ++ k) (f ;;> g).
Proof. intros Hf Hg x. rewrite <-app_assoc. eapply triple_then; [apply Hf|apply Hg]. Qed.

Lemma acquires_skip c l : acquires c c l skip.
Proof. intros k s Hs. apply (fresh_weaken _ _ _ _ Hs). Qed.

Lemma acquires_raise c c' l e : acquires c c' l (raise e).
Proof. intros k s Hs. apply (fresh_ok _ _ _ Hs). Qed.

Lemma acquires_raise_if c b e : acquires c c [] (raise_if b e).
Proof. destruct b; [apply acquires_raise|apply acquires_skip]. Qed.

Lemma acquires_call c e : acquires c c [] (call e).
Proof. intros k s Hs. destruct e; [apply (fresh_ok _ _ _ Hs)|done]. Qed.

Lemma acquires_set c (f : meta_base → meta_base) : (∀ m, mb_holds (f m) = mb_holds m) → acquires c c [] (set_meta f).
Proof.
  intros Hf k [m w] ([H1 H2 H3] & H4 & H5). simpl in *. split_and!; simpl; rewrite ?Hf; try done.
  split; simpl; rewrite ?Hf; done.
Qed.

Lemma acquires_one c r : (r = ResPreallocated → c = true) → acquires c (c || bool_decide (r = ResClient)) [r] (acquire r).
Proof.
  intros Hr k [m w] ([H1 H2 H3] & H4 & H5). simpl in *. apply list.NoDup_cons in H4 as [H4 H6].
  assert (r ∉ mb_holds m) as Hn by set_solver. split_and!; simpl.
  - split; simpl.
    + by constructor.
    + intros r'. unfold hold. rewrite H2. unfold occurs. case_bool_decide as He; [subst r'|].
      * rewrite (bool_decide_eq_false_2 _ Hn), bool_decide_eq_true_2 by set_solver. lia.
      * repeat case_bool_decide; set_solver.
    + rewrite !elem_of_cons. intros [Hp|Hp]; right; [apply H5, Hr; done|by apply H3].
  - apply list.NoDup_app in H6 as (H6 & H7 & _). apply list.NoDup_app. split_and!; [done| |by constructor].
    intros x Hx. rewrite not_elem_of_cons. split; [set_solver|by apply H7].
  - destruct c; simpl; [set_solver|]. case_bool_decide; [subst; set_solver|done].
Qed.

Lemma acquires_weaken c c' l k f : acquires c c' l f → acquires c c' (l ++ k) f.
Proof.
  intros Hf x s Hs. rewrite <-app_assoc in Hs. eapply res_ok_mono; [by apply Hf|]. intros [s' [e|]]; [done|].
  apply fresh_weaken.
Qed.

Lemma acquires_if c c' l (b : bool) f g : acquires c c' l f → acquires c c' l g → acquires c c' l (if b then f else g).
Proof. by destruct b. Qed.

(** A stage that changes nothing but fields that are not resources. *)
Lemma acquires_fields c f : (∀ s, ∃ s' e, f s = Ok (s', e) ∧ mb_holds s'.1 = mb_holds s.1 ∧ iw_held s'.2 = iw_held s.2) →
  acquires c c [] f.
Proof.
  intros Hf k s ([H1 H2 H3] & H4 & H5). destruct (Hf s) as (s' & e & -> & Hh & Hw). simpl.
  assert (held_ok s') as Hok by (split; rewrite ?Hh, ?Hw; done). destruct e; [done|]. split; [done|]. by rewrite Hh.
Qed.

Lemma acquires_other c r : r ≠ ResClient → r ≠ ResPreallocated → acquires c c [r] (acquire r).
Proof.
  intros H1 H2. pose proof (acquires_one c r) as Hr. rewrite (bool_decide_eq_false_2 _ H1), orb_false_r in Hr. auto.
Qed.

Create HintDb acquires.
#[local] Hint Resolve acquires_raise acquires_raise_if acquires_call acquires_skip acquires_set acquires_if : acquires.
#[local] Hint Extern 1 (acquires _ _ _ (acquire _)) => apply acquires_other; discriminate : acquires.

(** Go through a sequence of stages: each acquires nothing, or the first resources of the list. *)
Ltac first_stage n l := eapply (acquires_then _ _ _ (take n l) (drop n l)); cbn [take drop]; [solve [auto with acquires]|].
Ltac stages :=
  lazymatch goal with
  | |- acquires _ _ ?l (_ ;;> _) => first [first_stage 0%nat l | first_stage 1%nat l | first_stage 2%nat l]; stages
  | _ => auto with acquires
  end.

Lemma expected_acquires c : acquires c c [ResRunningSum; ResHeaderChecksum] (s_meta_request_init_expected_checksum o).
Proof.
  unfold s_meta_request_init_expected_checksum. destruct (io_checksum_config o) as [[? x]|]; [|auto with acquires].
  repeat (apply acquires_if; [auto with acquires|]). destruct (aws_checksum_new _); [|auto with acquires].
  stages.
Qed.

Lemma checksum_config_acquires c : acquires c c [ResChecksumConfig] (init_checksum_config env o).
Proof.
  unfold init_checksum_config. destruct (aws_s3_meta_request_checksum_config_storage_init _ _ _) as [x|]; [|apply acquires_raise].
  change (acquires c c [ResChecksumConfig] (acquire ResChecksumConfig ;;> set_meta (λ m, m <| mb_checksum_config := x |>))).
  stages.
Qed.

Lemma client_acquires c : acquires c true [ResClient] (init_client cl).
Proof.
  unfold init_client. apply (acquires_then _ true _ [ResClient] []).
  { pose proof (acquires_one c ResClient) as Hr. rewrite bool_decide_eq_true_2, orb_true_r in Hr by done. by apply Hr. }
  apply (acquires_then _ true _ [] []); [by apply acquires_set|]. apply acquires_fields. intros [m w].
  destruct (iw_first_operation_emitted w); by do 2 eexists.
Qed.

Lemma recv_buffer_acquires : acquires true true [ResPreallocated] (init_recv_buffer env o).
Proof.
  unfold init_recv_buffer. destruct (io_recv_buffer o); [|auto with acquires].
  do 6 (apply (acquires_then _ true _ [] [_]); [auto with acquires|]). apply (acquires_then _ true _ [_] []).
  - by apply (acquires_one true).
  - by apply acquires_set.
Qed.

Lemma fd_slots_acquires c : acquires c c [ResDescriptors] (make_write_fd_slots cl o).
Proof using Hthreads.
  unfold make_write_fd_slots. apply acquires_if; [|auto with acquires].
  intros k s Hs. rewrite (proj2 (Z.ltb_lt 0 _) Hthreads). cbn [assert_fatal mbind res_bind]. revert k s Hs.
  change (acquires c c [ResDescriptors] (acquire ResDescriptors ;;>
    set_meta (λ m, m <| mb_recv_file_write_fd_slot_count := cl_num_file_io_threads cl |>))). stages.
Qed.

Lemma recv_file_acquires c part_size :
  acquires c c [ResPath; ResDescriptors] (s_s3_meta_request_init_recv_file env cl o part_size).
Proof using Hthreads.
  unfold s_s3_meta_request_init_recv_file. apply acquires_if; [auto with acquires|].
  apply (acquires_then _ c _ [ResPath] [ResDescriptors]); [auto with acquires|].
  apply (acquires_then _ c _ [] [ResDescriptors]); [by apply acquires_set|]. intros k [m w] Hs.
  destruct (io_recv_file_delete_on_failure o && _); [apply (fresh_ok _ _ _ Hs)|].
  destruct (open_recv_file _ _ _ _) as [f|e]; [|apply (fresh_ok _ _ _ Hs)].
  destruct Hs as ([H1 H2 H3] & H4 & H5). destruct (op_error f).
  - simpl. destruct (op_opened f); by split.
  - apply fd_slots_acquires. destruct (op_opened f); split_and!; try done; by split.
Qed.

Lemma body_source_acquires c : acquires c c [ResParallelStream; ResAsyncStream] (init_body_source env o).
Proof.
  unfold init_body_source. apply acquires_if; [|apply acquires_if; [|apply acquires_if]].
  - apply (acquires_weaken _ _ [_] [_]). stages.
  - intros k s (H1 & H2 & H3). apply (acquires_then c c c [ResAsyncStream] []); [auto with acquires|by apply acquires_set|].
    split_and!; [done| |done]. simpl in *. by apply list.NoDup_cons in H2 as [_ ?].
  - apply (acquires_weaken _ _ [] [_; _]). by apply acquires_set.
  - apply (acquires_weaken _ _ [] [_; _]). by apply acquires_set.
Qed.

Lemma feature_ids_acquires c : acquires c c [] (init_feature_ids o).
Proof. apply acquires_set. intros m. by repeat case_match. Qed.

#[local] Hint Resolve feature_ids_acquires expected_acquires checksum_config_acquires client_acquires recv_buffer_acquires recv_file_acquires body_source_acquires : acquires.

(** What all stages together may acquire. *)
Definition all_resources : list meta_resource :=
  [ResBodyQueue; ResTracker; ResEventArrays; ResPrepareQueue; ResChecksumConfig; ResRunningSum; ResHeaderChecksum;
   ResSigningConfig; ResClient; ResMessage; ResPreallocated; ResUserAgent; ResPath; ResDescriptors; ResParallelStream;
   ResAsyncStream].

Lemma init_acquires part_size md5 streaming : acquires false true all_resources (init_stages env cl o part_size md5 streaming).
Proof using Hthreads.
  unfold init_stages, all_resources. stages.
Qed.

(** ** Release *)

Lemma release_held_spec m l w r : NoDup l →
  iw_held (release_held m l w) r = iw_held w r - (if bool_decide (r ∈ l) then occurs r (mb_holds m) else 0).
Proof.
  revert w. induction l as [|x l IH]; intros w Hn; simpl; [lia|]. apply list.NoDup_cons in Hn as [Hx Hn].
  rewrite IH by done. unfold occurs. destruct (decide (r = x)) as [->|Hne].
  - rewrite (bool_decide_eq_false_2 _ Hx), (bool_decide_eq_true_2 (x ∈ x :: l)) by set_solver.
    destruct (bool_decide (x ∈ mb_holds m)); simpl; [|lia]. unfold hold. rewrite bool_decide_eq_true_2 by done. lia.
  - rewrite (bool_decide_ext (r ∈ x :: l) (r ∈ l)) by set_solver.
    destruct (bool_decide (x ∈ mb_holds m)); simpl; [|lia]. unfold hold. rewrite (bool_decide_eq_false_2 _ Hne). lia.
Qed.

(** Every resource has one place in the order of the destructor. *)
Lemma orders_nodup : NoDup destroy_order ∧ NoDup destroy_order_rest ∧ NoDup [ResPath] ∧ NoDup [ResPreallocated; ResClient].
Proof. split_and!; apply (bool_decide_unpack _); vm_compute; exact I. Qed.

Definition released_in (l : list meta_resource) (r : meta_resource) : Z := if bool_decide (r ∈ l) then 1 else 0.

Lemma orders_all r : released_in destroy_order r + released_in [ResPath] r + released_in [ResPreallocated; ResClient] r +
  released_in destroy_order_rest r = 1.
Proof. by destruct r. Qed.

Lemma destroy_releases m w : held_ok (m, w) → ∀ r, iw_held (s_s3_meta_request_destroy m w) r = held r.
Proof.
  intros [_ Hh Hp] r. simpl in Hh, Hp. destruct orders_nodup as (N1 & N2 & N3 & N4). pose proof (orders_all r) as Ha.
  assert (∀ l w', NoDup l → iw_held (release_held m l w') r = iw_held w' r - released_in l r * occurs r (mb_holds m)) as Hrel.
  { intros l w' Hn. rewrite release_held_spec by done. unfold released_in. destruct (bool_decide (r ∈ l)); lia. }
  unfold s_s3_meta_request_destroy. rewrite Hrel by done. set (w1 := if mb_recv_filepath m && _ && _ then _ else _).
  assert (iw_held w1 r = held r + occurs r (mb_holds m) - released_in destroy_order r * occurs r (mb_holds m)) as Hw1.
  { transitivity (iw_held (release_held m destroy_order w) r); [unfold w1; by destruct (_ && _ && _)|]. by rewrite Hrel, Hh. }
  clearbody w1. destruct (bool_decide (ResClient ∈ mb_holds m)) eqn:Hc; rewrite !Hrel, Hw1 by done; [nia|].
  apply bool_decide_eq_false in Hc. assert (released_in [ResPreallocated; ResClient] r * occurs r (mb_holds m) = 0); [|nia].
  unfold released_in, occurs. repeat case_bool_decide; try lia. set_solver.
Qed.

Lemma fresh_zero w : (∀ r, iw_held w r = held r) → fresh false (all_resources ++ []) (meta_zero, w).
Proof.
  intros Hw. split_and!; [split; simpl|apply (bool_decide_unpack _); vm_compute; exact I|done].
  - constructor.
  - intros r. rewrite Hw. unfold occurs. rewrite bool_decide_eq_false_2 by set_solver. lia.
  - set_solver.
Qed.

(** C26: when the construction of a meta request fails, everything that was acquired for it is
    released, the reference to the client and the buffer in the pool included; when it succeeds, the
    meta request holds what was acquired, each resource once.  No assertion fails. *)
Theorem init_releases w part_size md5 streaming : (∀ r, iw_held w r = held r) →
  ∃ r w', aws_s3_meta_request_init_base env cl o part_size md5 streaming w = Ok (r, w') ∧
    match r with
    | Failure _ => ∀ x, iw_held w' x = held x
    | Success m => NoDup (mb_holds m) ∧ ∀ x, iw_held w' x = held x + (if bool_decide (x ∈ mb_holds m) then 1 else 0)
    end.
Proof using Hthreads.
  intros Hw. pose proof (init_acquires part_size md5 streaming [] (meta_zero, w) (fresh_zero w Hw)) as Hs.
  unfold aws_s3_meta_request_init_base. destruct (init_stages _ _ _ _ _ _ _) as [[[m w1] [e|]]| |]; [| |done..]; simpl in Hs.
  - eexists _, _. split; [reflexivity|]. intros x. by apply destroy_releases.
  - destruct Hs as ([H1 H2 _] & _). eexists _, _. split; [reflexivity|]. by split.
Qed.
End releases.

(** * The receive file *)

Section file.
Context `{B : !AwsByteCursor} `{H : !AwsHttpHeaders} `{D : !AwsDigest}.
Context (env : init_env) (cl : s3_client) (o : init_options) (Hthreads : 0 < cl_num_file_io_threads cl).
Implicit Types (m : meta_base) (w : init_world) (s : init_state).

(** The fields about the receive file, and the options of file I/O. *)
Definition file_fields s : option (list byte) * file_io_options * (bool * bool * bool) * (bool * Z * Z) :=
  let '(m, w) := s in
  (iw_file w, mb_fio_opts m, (mb_recv_filepath m, mb_recv_file_delete_on_failure m, mb_recv_file_finalized m),
   (mb_recv_file_direct_io m, mb_recv_file_base_offset m, mb_recv_file_direct_io_fallback_count m)).

(** A stage that leaves them alone. *)
Definition leaves_file (f : stage) : Prop := ∀ s, res_ok (λ x, file_fields x.1 = file_fields s) (f s).

Lemma leaves_then f g : leaves_file f → leaves_file g → leaves_file (f ;;> g).
Proof.
  intros Hf Hg s. unfold stage_then. eapply res_ok_bind; [apply Hf|]. intros [s' [e|]] Hs; [done|].
  eapply res_ok_mono; [apply Hg|]. simpl. by intros x ->.
Qed.
Lemma leaves_raise e : leaves_file (raise e).
Proof. by intros s. Qed.
Lemma leaves_skip : leaves_file skip.
Proof. by intros s. Qed.
Lemma leaves_if (b : bool) f g : leaves_file f → leaves_file g → leaves_file (if b then f else g).
Proof. by destruct b. Qed.
Lemma leaves_raise_if b e : leaves_file (raise_if b e).
Proof. by destruct b. Qed.
Lemma leaves_call e : leaves_file (call e).
Proof. by intros s. Qed.
Lemma leaves_acquire r : leaves_file (acquire r).
Proof. by intros [m w]. Qed.
Lemma leaves_set (f : meta_base → meta_base) : (∀ m w, file_fields (f m, w) = file_fields (m, w)) → leaves_file (set_meta f).
Proof. intros Hf [m w]. apply Hf. Qed.
#[local] Hint Resolve leaves_then leaves_raise leaves_skip leaves_if leaves_raise_if leaves_call leaves_acquire leaves_set : leaves.

Lemma leaves_expected : leaves_file (s_meta_request_init_expected_checksum o).
Proof. unfold s_meta_request_init_expected_checksum. repeat case_match; auto with leaves. Qed.
Lemma leaves_checksum_config : leaves_file (init_checksum_config env o).
Proof.
  intros s. unfold init_checksum_config. destruct (aws_s3_meta_request_checksum_config_storage_init _ _ _); [|done].
  by destruct s.
Qed.
Lemma leaves_client : leaves_file (init_client cl).
Proof.
  unfold init_client. apply leaves_then; [apply leaves_acquire|]. apply leaves_then; [by apply leaves_set|]. intros [m w].
  by destruct (iw_first_operation_emitted w).
Qed.
Lemma leaves_feature_ids : leaves_file (init_feature_ids o).
Proof. apply leaves_set. intros m w. by repeat case_match. Qed.
Lemma leaves_recv_buffer : leaves_file (init_recv_buffer env o).
Proof. unfold init_recv_buffer. destruct (io_recv_buffer o); auto 20 with leaves. Qed.
Lemma leaves_fd_slots : leaves_file (make_write_fd_slots cl o).
Proof using Hthreads.
  unfold make_write_fd_slots. apply leaves_if; [|apply leaves_skip]. intros [m w].
  by rewrite (proj2 (Z.ltb_lt 0 _) Hthreads).
Qed.
Lemma leaves_body_source : leaves_file (init_body_source env o).
Proof. unfold init_body_source. auto 20 with leaves. Qed.
#[local] Hint Resolve leaves_expected leaves_checksum_config leaves_client leaves_feature_ids leaves_recv_buffer
  leaves_fd_slots leaves_body_source : leaves.

(** A file with content that the transfer has to keep. *)
Definition must_keep (file : option (list byte)) : Prop :=
  file ≠ None ∧ (io_recv_filepath_len o = 0 ∨ io_recv_file_option o ≠ AWS_S3_RECV_FILE_CREATE_OR_REPLACE).

(** The file is as it was, or it is deleted if the caller asked for that. *)
Record file_safe (file : option (list byte)) s : Prop := {
  fs_keep : must_keep file → iw_file s.2 = file ∧ mb_recv_file_delete_on_failure s.1 = false;
  fs_delete : io_recv_file_delete_on_failure o = true →
    iw_file s.2 = file ∨ mb_recv_filepath s.1 = true ∧ mb_recv_file_delete_on_failure s.1 = true;
  fs_finalized : mb_recv_file_finalized s.1 = false;
}.

(** Where the transfer begins in the file. *)
Definition first_offset (file : option (list byte)) : Z :=
  match io_recv_file_option o with
  | AWS_S3_RECV_FILE_CREATE_OR_APPEND => Z.of_nat (length (default [] file))
  | AWS_S3_RECV_FILE_WRITE_TO_POSITION => io_recv_file_position o
  | _ => 0
  end.

(** What holds of a file that was opened. *)
Record file_ready (part_size : Z) (file : option (list byte)) s : Prop := {
  fr_file : is_Some (iw_file s.2);
  fr_offset : mb_recv_file_base_offset s.1 = first_offset file;
  fr_direct : mb_recv_file_direct_io s.1 = true →
    direct_io (mb_fio_opts s.1) = true ∧ ie_direct_io_is_supported env = true ∧ ie_open_direct_io env = None ∧
    first_offset file mod ie_page_size env = 0 ∧ part_size mod ie_page_size env = 0;
  fr_fallback : direct_io (mb_fio_opts s.1) = true → mb_recv_file_direct_io s.1 = false →
    0 < mb_recv_file_direct_io_fallback_count s.1;
}.

(** What opening gives. *)
Lemma open_at_spec file d base : let f := open_at env file d base in
  op_file f = file ∧ op_opened f = true ∧ op_error f = None ∧ op_base_offset f = base ∧
  (op_direct_io f = true → d = true ∧ base mod ie_page_size env = 0) ∧ 0 ≤ op_fallbacks f ∧
  (d = true → op_direct_io f = false → 0 < op_fallbacks f).
Proof.
  unfold open_at. destruct d; simpl; [|naive_solver lia].
  destruct (Z.eqb_spec (base mod ie_page_size env) 0); simpl; naive_solver lia.
Qed.

(** What opening gives. *)
Lemma open_recv_file_spec file d f : open_recv_file env o file d = Success f →
  (must_keep file → io_recv_filepath_len o ≠ 0 → op_file f = file ∧ io_recv_file_option o ≠ AWS_S3_RECV_FILE_CREATE_NEW) ∧
  (op_opened f = false → op_file f = file ∧ op_error f ≠ None) ∧
  (op_error f = None → is_Some (op_file f) ∧ op_base_offset f = first_offset file ∧
     (op_direct_io f = true → d = true ∧ first_offset file mod ie_page_size env = 0) ∧ 0 ≤ op_fallbacks f ∧
     (d = true → op_direct_io f = false → 0 < op_fallbacks f)).
Proof.
  unfold open_recv_file, first_offset, aws_fopen_safe, open_failed, aws_path_exists, must_keep.
  destruct (io_recv_file_option o), (ie_fopen env) as [e|]; simpl.
  all: try (intros [= <-]; simpl; rewrite ?Zmod_0_l; split_and!; naive_solver (eauto || congruence || lia)).
  all: try (case_bool_decide; [done|]; intros [= <-]; simpl; rewrite ?Zmod_0_l; split_and!; naive_solver (eauto || congruence || lia)).
  - destruct (ie_file_get_length env); intros [= <-]; [simpl; split_and!; try done; intros [? _]; by destruct file|].
    match goal with |- context [open_at env ?x ?y ?z] => destruct (open_at_spec x y z) as (-> & -> & -> & -> & H1 & H2 & H3) end.
    split_and!; [intros [Hf _]; by destruct file|done|]. intros _. split_and!; [by eexists|done..].
  - case_bool_decide; [|done]. simpl. intros [= <-].
    destruct (open_at_spec file d (io_recv_file_position o)) as (Hf & _). simpl in *. rewrite Hf. by split_and!.
  - case_bool_decide as Hf; [|done]. simpl. destruct file as [file|]; [|done]. intros [= <-].
    destruct (open_at_spec (Some file) d (io_recv_file_position o)) as (-> & -> & -> & -> & H1 & H2 & H3).
    split_and!; [done|done|]. intros _. split_and!; [by eexists|done..].
Qed.

Lemma settle_direct_io_spec part_size f : let f' := settle_direct_io env part_size f in
  op_file f' = op_file f ∧ op_base_offset f' = op_base_offset f ∧
  (op_direct_io f' = true → op_direct_io f = true ∧ ie_direct_io_is_supported env = true ∧ ie_open_direct_io env = None ∧
     part_size mod ie_page_size env = 0) ∧
  (0 ≤ op_fallbacks f → 0 ≤ op_fallbacks f' ∧
     (op_direct_io f' = false → op_direct_io f = true ∨ 0 < op_fallbacks f → 0 < op_fallbacks f')).
Proof.
  destruct f as [fi op er ba di fa]. unfold settle_direct_io. simpl. destruct di; simpl; [|naive_solver lia].
  destruct (ie_direct_io_is_supported env); simpl; [|naive_solver lia].
  destruct (Z.eqb_spec (part_size mod ie_page_size env) 0); simpl; [|naive_solver lia].
  destruct (ie_open_direct_io env); simpl; naive_solver lia.
Qed.

(** After opening, before anything else. *)
Lemma opened_safe m w f : io_recv_filepath_len o ≠ 0 →
  io_recv_file_delete_on_failure o &&
    (bool_decide (io_recv_file_option o = AWS_S3_RECV_FILE_WRITE_TO_POSITION) ||
     (bool_decide (io_recv_file_option o = AWS_S3_RECV_FILE_CREATE_OR_APPEND) && aws_path_exists (iw_file w))) = false →
  open_recv_file env o (iw_file w) (direct_io (mb_fio_opts m)) = Success f →
  mb_recv_filepath m = true → mb_recv_file_delete_on_failure m = false → mb_recv_file_finalized m = false →
  file_safe (iw_file w) (if op_opened f then m <| mb_recv_file_delete_on_failure := io_recv_file_delete_on_failure o |> else m,
                         w <| iw_file := op_file f |>).
Proof.
  intros Hz Hd Hf H1 H2 H3. destruct (open_recv_file_spec _ _ _ Hf) as (Hk & Hc & _). split; simpl.
  - intros Hm. destruct (Hk Hm Hz) as [-> Hn]. split; [done|]. destruct (op_opened f); [|done]. simpl.
    destruct Hm as [Hm [|Hr]]; [done|]. unfold aws_path_exists in Hd. rewrite (bool_decide_eq_true_2 _ Hm), andb_true_r in Hd.
    destruct (io_recv_file_delete_on_failure o); [|done]. by destruct (io_recv_file_option o).
  - intros Hdel. destruct (op_opened f); [right; by split|left]. by apply Hc.
  - by destruct (op_opened f).
Qed.

Lemma init_recv_file_spec part_size file fio :
  triple (λ s, file_fields s = (file, fio, (false, false, false), (false, 0, 0)))
    (s_s3_meta_request_init_recv_file env cl o part_size)
    (λ s, file_safe file s ∧ mb_fio_opts s.1 = fio ∧ (io_recv_filepath_len o ≠ 0 → file_ready part_size file s ∧
       (must_keep file → io_recv_file_option o ≠ AWS_S3_RECV_FILE_CREATE_NEW)))
    (file_safe file).
Proof using Hthreads.
  unfold s_s3_meta_request_init_recv_file. destruct (Z.eqb_spec (io_recv_filepath_len o) 0) as [Hz|Hz].
  { intros [m w] [= <- <- H1 H2 H3 H4 H5 H6]. simpl. split_and!; [|done|done]. split; simpl; [by intros|by left|done]. }
  eapply (triple_then _ (λ s, file_fields s = (file, fio, (false, false, false), (false, 0, 0)))); [by intros [m w]|].
  eapply (triple_then _ (λ s, file_fields s = (file, fio, (true, false, false), (false, 0, 0)))).
  { by intros [m w] [= <- <- H1 H2 H3 H4 H5 H6]; simpl; rewrite H2, H3, H4, H5, H6. }
  intros [m w] [= <- <- H1 H2 H3 H4 H5 H6].
  destruct (io_recv_file_delete_on_failure o && _) eqn:Hd.
  { simpl. split; simpl; [done|by left|done]. }
  destruct (open_recv_file env o (iw_file w) _) as [f|e] eqn:Hf.
  2: { simpl. split; simpl; [done|by left|done]. }
  destruct (open_recv_file_spec _ _ _ Hf) as (Hk & Hc & Hr). pose proof (opened_safe m w f Hz Hd Hf H1 H2 H3) as Hsafe.
  destruct (op_error f) eqn:He; [exact Hsafe|]. destruct (Hr eq_refl) as (Hr1 & Hr2 & Hr3 & Hr4 & Hr5).
  destruct (settle_direct_io_spec part_size f) as (S1 & S2 & S3 & S4). specialize (S4 Hr4) as [_ S4].
  set (m1 := if op_opened f then _ else _) in *. set (m2 := fupd mb_recv_file_direct_io_fallback_count _ _).
  assert (mb_fio_opts m2 = mb_fio_opts m) as Hfio by (unfold m2, m1; by destruct (op_opened f)).
  eapply res_ok_mono; [apply leaves_fd_slots|]. intros [[m3 w3] e] Hx.
  assert (file_safe (iw_file w) (m3, w3)) as Hs3.
  { destruct Hsafe as [K1 K2 K3]. injection Hx as X1 X2 X3 X4 X5 _ _ _. split; simpl in *; by rewrite ?X1, ?X3, ?X4, ?X5. }
  destruct e; [exact Hs3|]. injection Hx as X1 X2 _ _ _ X6 X7 X8.
  assert (mb_fio_opts m3 = mb_fio_opts m) as Hfio3 by (etransitivity; [exact X2|exact Hfio]).
  split_and!; [exact Hs3|exact Hfio3|]. intros _. split; [|intros Hm; by apply Hk]. split; simpl.
  - by rewrite X1.
  - by rewrite X7, S2.
  - rewrite Hfio3, X6. intros (U1 & U2 & U3 & U4)%S3. destruct (Hr3 U1). by split_and!.
  - rewrite Hfio3, X6, X8. intros U1 U2. apply S4; [done|]. destruct (op_direct_io f); [by left|right; auto].
Qed.

(** A stage that leaves the file alone keeps what is known of it. *)
Lemma leaves_triple (P : init_state → Prop) f : (∀ s s', file_fields s = file_fields s' → P s → P s') → leaves_file f → triple P f P P.
Proof.
  intros HP Hf s Hs. eapply res_ok_mono; [apply Hf|]. intros [s' [e|]] Hx; by eapply HP.
Qed.

Definition file_done (part_size : Z) (file : option (list byte)) (fio : file_io_options) s : Prop :=
  file_safe file s ∧ mb_fio_opts s.1 = fio ∧
  (io_recv_filepath_len o ≠ 0 → file_ready part_size file s ∧
     (must_keep file → io_recv_file_option o ≠ AWS_S3_RECV_FILE_CREATE_NEW)).

Lemma file_safe_fields file s s' : file_fields s = file_fields s' → file_safe file s → file_safe file s'.
Proof.
  destruct s as [m w], s' as [m' w']. intros [= X1 X2 X3 X4 X5 X6 X7 X8] [K1 K2 K3]. simpl in *.
  split; simpl; by rewrite <-?X1, <-?X3, <-?X4, <-?X5.
Qed.

Lemma file_done_fields part_size file fio s s' : file_fields s = file_fields s' → file_done part_size file fio s →
  file_done part_size file fio s'.
Proof.
  intros Hx (K1 & K2 & K3). split; [by eapply file_safe_fields|]. destruct s as [m w], s' as [m' w'].
  injection Hx as X1 X2 _ _ _ X6 X7 X8. simpl in *. split; [congruence|]. intros Hz. destruct (K3 Hz) as [[R1 R2 R3 R4] R5].
  split; [|done]. simpl in *. split; simpl; by rewrite <-?X1, <-?X2, <-?X6, <-?X7, <-?X8.
Qed.

Lemma release_held_file m l w : iw_file (release_held m l w) = iw_file w.
Proof. revert w. induction l as [|r l IH]; intros w; simpl; [done|]. rewrite IH. by destruct (bool_decide _). Qed.

Lemma destroy_file m w : iw_file (s_s3_meta_request_destroy m w) =
  if mb_recv_filepath m && mb_recv_file_delete_on_failure m && negb (mb_recv_file_finalized m) then None else iw_file w.
Proof.
  unfold s_s3_meta_request_destroy. rewrite release_held_file.
  destruct (mb_recv_filepath m && mb_recv_file_delete_on_failure m && _), (bool_decide (ResClient ∈ mb_holds m));
    by rewrite !release_held_file.
Qed.

Lemma init_stages_file w part_size md5 streaming :
  triple (λ s, s = (meta_zero, w)) (init_stages env cl o part_size md5 streaming)
    (file_done part_size (iw_file w) (init_fio_opts cl o streaming)) (file_safe (iw_file w)).
Proof using Hthreads.
  set (P := λ s, file_fields s = (iw_file w, init_fio_opts cl o streaming, (false, false, false), (false, 0, 0))).
  assert (∀ s, P s → file_safe (iw_file w) s) as HE.
  { intros [m w'] [= X1 X2 X3 X4 X5 X6 X7 X8]. split; simpl; [by intros|by left|done]. }
  assert (∀ f, leaves_file f → triple P f P (file_safe (iw_file w))) as HP.
  { intros f Hf s Hs. eapply res_ok_mono; [apply Hf|]. intros [s' [e|]] Hx; [apply HE|]; exact (eq_trans Hx Hs). }
  unfold init_stages. eapply (triple_then _ P); [by intros s ->|].
  repeat (lazymatch goal with |- triple _ (s_s3_meta_request_init_recv_file _ _ _ _ ;;> _) _ _ => fail
          | |- _ => eapply (triple_then _ P); [apply HP; auto with leaves|] end).
  eapply triple_then; [apply init_recv_file_spec|]. intros s Hs. eapply res_ok_mono.
  - apply (leaves_triple (file_done part_size (iw_file w) (init_fio_opts cl o streaming))); [|apply leaves_body_source|exact Hs].
    intros s1 s2. apply file_done_fields.
  - intros [s' [e|]] Hx; [apply Hx|done].
Qed.

(** C27: a file whose content a download has to keep is never changed or deleted by the
    construction, whether it succeeds or fails; a file that must be new is not taken over; where the
    caller asked for it, a failed construction leaves the file as it was or deleted; and a meta
    request that was made writes from the right offset, with [O_DIRECT] only when the platform and
    the file allow it and offset and part size are on page boundaries. *)
Theorem receive_file_kept w part_size md5 streaming r w' :
  aws_s3_meta_request_init_base env cl o part_size md5 streaming w = Ok (r, w') →
  (must_keep (iw_file w) → iw_file w' = iw_file w) ∧
  match r with
  | Failure _ => io_recv_file_delete_on_failure o = true → iw_file w' = iw_file w ∨ iw_file w' = None
  | Success m => io_recv_filepath_len o ≠ 0 →
      (iw_file w ≠ None → io_recv_file_option o ≠ AWS_S3_RECV_FILE_CREATE_NEW) ∧
      is_Some (iw_file w') ∧ mb_recv_file_base_offset m = first_offset (iw_file w) ∧
      (mb_recv_file_direct_io m = true →
         direct_io (mb_fio_opts m) = true ∧ ie_direct_io_is_supported env = true ∧ ie_open_direct_io env = None ∧
         mb_recv_file_base_offset m mod ie_page_size env = 0 ∧ part_size mod ie_page_size env = 0)
  end.
Proof using Hthreads.
  unfold aws_s3_meta_request_init_base. pose proof (init_stages_file w part_size md5 streaming (meta_zero, w) eq_refl) as Hs.
  destruct (init_stages _ _ _ _ _ _ _) as [[[m w1] [e|]]| |]; [| |done..]; simpl in Hs; intros [= <- <-].
  - destruct Hs as [K1 K2 K3]. simpl in *. assert (iw_file (s_s3_meta_request_destroy m w1) =
      if mb_recv_filepath m && mb_recv_file_delete_on_failure m then None else iw_file w1) as ->.
    { by rewrite destroy_file, K3, andb_true_r. }
    split.
    + intros Hm. destruct (K1 Hm) as [-> ->]. by rewrite andb_false_r.
    + intros Hd. destruct (K2 Hd) as [->|[-> ->]]; [|by right]. destruct (_ && _); [by right|by left].
  - destruct Hs as ([K1 _ _] & _ & Hr). simpl in *. split; [intros Hm; by apply K1|]. intros Hz.
    destruct (Hr Hz) as [[R1 R2 R3 R4] R5]. simpl in *. split_and!; [|done|done|by rewrite R2].
    intros Hf. destruct (decide (io_recv_file_option o = AWS_S3_RECV_FILE_CREATE_NEW)) as [Ho|]; [|done].
    apply R5. split; [done|]. right. by rewrite Ho.
Qed.
End file.

(** * The source of the body *)

Definition body_of (o : init_options) : body_source :=
  if 0 <? io_send_filepath_len o then BodyParallelStream
  else if io_send_async_stream o then BodyAsyncStream
  else if io_send_using_async_writes o then BodyAsyncWrites else BodyStream.

Lemma stage_then_inv f g s s' : (f ;;> g) s = Ok (s', None) → ∃ s1, g s1 = Ok (s', None).
Proof.
  unfold stage_then. intros (x & _ & Hg)%res_bind_Ok. destruct x as [s1 [e|]]; [done|]. by exists s1.
Qed.

Lemma made_body `{B : !AwsByteCursor} `{H : !AwsHttpHeaders} `{D : !AwsDigest} env cl o part_size md5 streaming w m w' :
  aws_s3_meta_request_init_base env cl o part_size md5 streaming w = Ok (Success m, w') → mb_body_source m = body_of o.
Proof.
  unfold aws_s3_meta_request_init_base. intros ([[m' w1] [e|]] & Hs & Hr)%res_bind_Ok; [done|]. injection Hr as -> ->.
  unfold init_stages in Hs.
  repeat match type of Hs with (_ ;;> _) _ = _ => apply stage_then_inv in Hs as [[? ?] Hs] end.
  unfold init_body_source in Hs. unfold body_of. destruct (0 <? io_send_filepath_len o), (io_send_async_stream o),
    (io_send_using_async_writes o), (ie_parallel_input_stream_new env); try done; by injection Hs as <- _.
Qed.

(** * Examples *)

Module InitDemo.
#[local] Existing Instances byte_cursor_ref headers_ref digest_ref.

Definition the_client : s3_client := ConfigDemo.the_client.

Definition env (fopen : option aws_error) : init_env :=
  mkInitEnv None None None None fopen None 4096 true None None (λ _ _, false).

(** A download to a position of a file, with direct I/O. *)
Definition options : init_options :=
  mkInitOptions TYPE_GET_OBJECT (Some (mkFio false (double_of_Z 0) true)) None false false true [] [] 5
    AWS_S3_RECV_FILE_WRITE_TO_POSITION 8192 false None None 0 false false (MB_TO_BYTES 8) AWS_TRIBOOL_UNSET 0.

Definition world : init_world := mkInitWorld (Some (lit "old")) (λ _, 0) false.

Lemma threads : 0 < cl_num_file_io_threads the_client.
Proof. vm_compute. reflexivity. Qed.

Lemma init_releases_witness : ∃ r w',
  aws_s3_meta_request_init_base (env (Some AWS_ERROR_UNKNOWN)) the_client options (MB_TO_BYTES 8) false false world
    = Ok (r, w') ∧
  match r with Failure _ => iw_held w' ResClient = 0 | Success m => NoDup (mb_holds m) end.
Proof.
  destruct (init_releases (env (Some AWS_ERROR_UNKNOWN)) the_client options threads (λ _, 0) world (MB_TO_BYTES 8) false false
    (λ _, eq_refl)) as (r & w' & Hm & Hr).
  exists r, w'. split; [exact Hm|]. destruct r; [exact (proj1 Hr)|exact (Hr ResClient)].
Defined.

Lemma made_writes : ∃ m w',
  aws_s3_meta_request_init_base (env None) the_client options (MB_TO_BYTES 8) false false world = Ok (Success m, w') ∧
  mb_recv_file_direct_io m = true ∧ iw_held w' ResDescriptors = 1.
Proof.
  assert (∀ x : res (result aws_error meta_base * init_world),
    match x with
    | Ok (Success m, w') => mb_recv_file_direct_io m && (iw_held w' ResDescriptors =? 1) | _ => false end = true →
    ∃ m w', x = Ok (Success m, w') ∧ mb_recv_file_direct_io m = true ∧ iw_held w' ResDescriptors = 1) as Hx.
  { intros [[[m|e] w']| |] Hx; try discriminate. exists m, w'. split; [reflexivity|].
    apply andb_true_iff in Hx as [? ?%Z.eqb_eq]. split; assumption. }
  apply Hx. vm_compute. reflexivity.
Qed.

Lemma receive_file_kept_witness : ∃ m w',
  aws_s3_meta_request_init_base (env None) the_client options (MB_TO_BYTES 8) false false world = Ok (Success m, w') ∧
  iw_file w' = iw_file world ∧ mb_recv_file_base_offset m = 8192 ∧ mb_recv_file_direct_io m = true.
Proof.
  destruct made_writes as (m & w' & Hm & Hd & _). exists m, w'. split; [exact Hm|].
  assert (must_keep options (iw_file world)) as Hk by (split; [discriminate|right; discriminate]).
  assert (io_recv_filepath_len options ≠ 0) as Hz by discriminate.
  destruct (receive_file_kept (env None) the_client options threads world (MB_TO_BYTES 8) false false _ _ Hm) as [H1 H2].
  destruct (H2 Hz) as (_ & _ & H3 & _). split; [exact (H1 Hk)|]. split; [exact H3|exact Hd].
Defined.
End InitDemo.
