(* ===== verification/Factory.v ===== *)
(** The choice of a meta request (source/s3_client.c: s_s3_client_meta_request_factory_default): where
    the body comes from and how long it is, whether an upload or a download is split, and into parts
    of which size. *)

From Stdlib Require Import Init.Byte String.
From S2P Require Import Prelude AwsCommon ByteCursor HttpHeaders HttpMessage Checksums ChecksumContext BodyStream.
From S2P Require Import BufferPool BufferPoolProps PartMath AutoRangedPut PutData ClientConfig MetaInit.

(** * Data *)

(** The rest of [struct aws_s3_meta_request_options]: whether the message has a body stream and what its
    path is, and [request_body] as its length with whether its pointer is set. *)
Record factory_options := mkFactoryOptions {
  fo_init : init_options;
  fo_body_stream : bool;
  fo_request_path : option (list byte);
  fo_request_body_ptr : bool;
  fo_request_body_len : Z;
  fo_resume_token : option resume_token;
  fo_multipart_upload_threshold : Z;
}.

(** The types of single requests that the choice names. *)
Inductive single_request_type := REQUEST_TYPE_UNKNOWN | REQUEST_TYPE_GET_OBJECT | REQUEST_TYPE_PUT_OBJECT.

(** The constructor that is called, with its arguments. *)
Inductive chosen :=
| ChosenDefault (request_type : single_request_type) (content_length : Z) (should_compute_content_md5 : bool)
| ChosenRangedGet (part_size : Z) (part_size_set : bool)
| ChosenRangedPut (part_size : Z) (has_content_length : bool) (content_length num_parts : Z)
| ChosenCopy.

Definition g_content_length_header_name : list byte := lit "Content-Length".
Definition g_content_md5_header_name : list byte := lit "Content-MD5".

Section factory.
Context `{B : !AwsByteCursor} `{H : !AwsHttpHeaders}.

(** Library code: [aws_query_string_next_param] of aws/io/uri.h, the keys and values that it yields. *)
Variable aws_query_string_params : list byte → list (list byte * list byte).
(** [derive_aligned_buffer_size] of the client's buffer pool. *)
Variable derive_aligned_buffer_size : Z → Z.
(** The length of the file to send, if it can be opened. *)
Variable send_file_length : result aws_error Z.
Context (cl : s3_client) (f : factory_options).
Notation o := (fo_init f).

Definition header_content_length : result aws_error (option Z) :=
  match aws_http_headers_get (io_headers o) g_content_length_header_name with
  | None => Success None
  | Some text =>
      match aws_byte_cursor_utf8_parse_u64 text with
      | None => Failure AWS_ERROR_S3_INVALID_CONTENT_LENGTH_HEADER
      | Some n => Success (Some n)
      end
  end.

(** The length of the content, if it is known, and the number of sources of the body. *)
Definition body_sources : result aws_error (option Z * Z) :=
  content_length ← header_content_length;
  let count := if fo_body_stream f then 1 else 0 in
  '(content_length, count) ←
    (if 0 <? io_send_filepath_len o then
       match content_length with
       | Some _ => Success (content_length, count + 1)
       | None => n ← send_file_length; Success (Some n, count + 1)
       end
     else Success (content_length, count));
  count ←
    (if io_send_using_async_writes o then
       if negb (bool_decide (io_type o = TYPE_PUT_OBJECT)) then Failure AWS_ERROR_INVALID_ARGUMENT
       else if bool_decide (content_length ≠ None) then Failure AWS_ERROR_INVALID_ARGUMENT
       else Success (count + 1)
     else Success count);
  let count := if io_send_async_stream o then count + 1 else count in
  '(content_length, count) ←
    (if negb (fo_request_body_ptr f) && negb (fo_request_body_len f =? 0) then Failure AWS_ERROR_INVALID_ARGUMENT
     else if fo_request_body_ptr f then
       if negb (bool_decide (io_type o = TYPE_DEFAULT)) then Failure AWS_ERROR_INVALID_ARGUMENT
       else
         match content_length with
         | None => Success (Some (fo_request_body_len f), count + 1)
         | Some n =>
             if negb (fo_request_body_len f =? n) then Failure AWS_ERROR_S3_INCORRECT_CONTENT_LENGTH
             else Success (content_length, count + 1)
         end
     else Success (content_length, count));
  if 1 <? count then Failure AWS_ERROR_INVALID_ARGUMENT else Success (content_length, count).

(** The part size of the options or of the client. *)
Definition requested_part_size : Z :=
  if negb (io_part_size o =? 0) then if SIZE_MAX <? io_part_size o then SIZE_MAX else io_part_size o else cl_part_size cl.

(** Whether the query of a path has [partNumber]. *)
Definition names_part_number (path_and_query : list byte) : bool :=
  match aws_byte_cursor_split path_and_query "?"%byte with
  | [] => false
  | _ :: rest =>
      existsb (λ param, bool_decide (param.1 = lit "partNumber")) (aws_query_string_params (default [] (head rest)))
  end.

Definition choose_get : result aws_error chosen :=
  let ranged := Success (ChosenRangedGet requested_part_size (negb (io_part_size o =? 0))) in
  match fo_request_path f with
  | None => ranged
  | Some path =>
      if names_part_number path then
        if bool_decide (io_recv_buffer o ≠ None) then Failure AWS_ERROR_UNSUPPORTED_OPERATION
        else Success (ChosenDefault REQUEST_TYPE_GET_OBJECT 0 false)
      else ranged
  end.

(** Part size and number of parts of an upload of known length, aligned if they had to be
    adjusted. *)
Definition put_parts (content_length part_size client_max_part_size : Z) : result aws_error (Z * Z) :=
  '(part_size, num_parts) ←
    aws_s3_calculate_optimal_mpu_part_size_and_num_parts content_length part_size client_max_part_size;
  Success
    (if negb (part_size =? io_part_size o) && negb (part_size =? cl_part_size cl) && (2 <? num_parts) then
       let aligned_part_size := derive_aligned_buffer_size part_size in
       let part_size := if SIZE_MAX <? aligned_part_size then part_size else aligned_part_size in
       let num_parts := wrap 32 (content_length / part_size) in
       (part_size, if 0 <? content_length mod part_size then num_parts +[32] 1 else num_parts)
     else (part_size, num_parts)).

Definition put_threshold (part_size : Z) : Z :=
  if negb (fo_multipart_upload_threshold f =? 0) then fo_multipart_upload_threshold f
  else if negb (io_part_size o =? 0) then part_size
  else cl_multipart_upload_threshold cl.

Definition choose_put (content_length : option Z) (body_source_count : Z) : result aws_error chosen :=
  if body_source_count =? 0 then Failure AWS_ERROR_INVALID_ARGUMENT
  else
    match fo_resume_token f with
    | None =>
        let part_size := requested_part_size in
        let client_max_part_size := cl_max_part_size cl in
        let part_size := if part_size <? g_s3_min_upload_part_size then g_s3_min_upload_part_size else part_size in
        let client_max_part_size :=
          if client_max_part_size <? g_s3_min_upload_part_size then g_s3_min_upload_part_size else client_max_part_size in
        match content_length with
        | None => Success (ChosenRangedPut part_size false 0 0)
        | Some n =>
            '(part_size, num_parts) ← put_parts n part_size client_max_part_size;
            if n <=? put_threshold part_size then
              Success (ChosenDefault REQUEST_TYPE_PUT_OBJECT n
                         (cl_compute_content_md5 cl &&
                          bool_decide (aws_http_headers_get (io_headers o) g_content_md5_header_name = None)))
            else Success (ChosenRangedPut part_size true n num_parts)
        end
    | Some _ =>
        match content_length with
        | None => Failure AWS_ERROR_INVALID_ARGUMENT
        | Some n => Success (ChosenRangedPut 0 true n 0)
        end
    end.

Definition s_s3_client_meta_request_factory_default : result aws_error chosen :=
  '(content_length, body_source_count) ← body_sources;
  match io_type o with
  | TYPE_GET_OBJECT => choose_get
  | TYPE_PUT_OBJECT => choose_put content_length body_source_count
  | TYPE_COPY_OBJECT => Success ChosenCopy
  | TYPE_DEFAULT =>
      if bool_decide (io_operation_name o = []) then Failure AWS_ERROR_INVALID_ARGUMENT
      else Success (ChosenDefault REQUEST_TYPE_UNKNOWN (default 0 content_length) false)
  end.

(** * Properties *)

Context `{BL : !AwsByteCursorLaws B} `{St : !AwsStreams} `{D : !AwsDigest}.

(** Values fit their types, and the pool rounds up. *)
Record factory_ranges : Prop := {
  ra_client : 0 < cl_part_size cl < 2 ^ 64;
  ra_option : uint 64 (io_part_size o);
  ra_threshold : 0 ≤ fo_multipart_upload_threshold f ∧ 0 ≤ cl_multipart_upload_threshold cl;
  ra_file : ∀ n, send_file_length = Success n → uint 64 n;
  ra_body : uint 64 (fo_request_body_len f);
  ra_token : ∀ t, fo_resume_token f = Some t → uint 64 (token_part_size t);
  ra_derive : ∀ n, 0 < n < 2 ^ 63 → n ≤ derive_aligned_buffer_size n < 2 ^ 64;
}.
Context (Hr : factory_ranges).

Lemma requested_part_size_range : 0 < requested_part_size < 2 ^ 64.
Proof using Hr.
  pose proof (ra_client Hr). pose proof (ra_option Hr). unfold requested_part_size.
  destruct (Z.eqb_spec (io_part_size o) 0); simpl; [done|]. destruct (SIZE_MAX <? io_part_size o) eqn:?; machine.
Qed.

(** The sizes of the parts of an upload. *)
Record parts_fit (least content_length part_size num_parts : Z) : Prop := {
  pf_size : 0 < part_size < 2 ^ 64;
  pf_num : 1 ≤ num_parts ≤ g_s3_max_num_upload_parts;
  pf_tile : (num_parts - 1) * part_size < content_length ≤ num_parts * part_size;
  pf_least : 1 < num_parts → least ≤ part_size;
}.

Lemma put_parts_spec n part_size max : 0 < n < 2 ^ 64 → 0 < part_size < 2 ^ 64 →
  ∃ size num, put_parts n part_size max = Success (size, num) ∧ parts_fit part_size n size num.
Proof using Hr.
  intros Hn Hp. destruct (mpu_part_size n part_size max Hn ltac:(unfold uint; lia)) as (size & num & He & Hnum & Ht & Hs).
  unfold put_parts. rewrite He. cbn [mbind result_bind]. assert (0 < size) by lia.
  destruct (negb (size =? io_part_size o) && negb (size =? cl_part_size cl) && (2 <? num)) eqn:Ha.
  - apply andb_true_iff in Ha as [_ Hnum2%Z.ltb_lt]. assert (size < 2 ^ 63) by nia.
    destruct (ra_derive Hr size) as [Hd1 Hd2]; [lia|]. rewrite (proj2 (Z.ltb_ge SIZE_MAX _)) by machine.
    set (a := derive_aligned_buffer_size size) in *. clearbody a.
    pose proof (ceil_div_bounds n a ltac:(lia) ltac:(lia)) as Hc. cbv zeta in Hc.
    set (k := n / a + (if 0 <? n mod a then 1 else 0)) in *. assert (1 ≤ k ≤ num) by nia.
    assert (part_size ≤ size) by (destruct (Z.le_gt_cases part_size n); [lia|nia]).
    assert (0 ≤ n / a) by (apply Z.div_pos; lia). unfold g_s3_max_num_upload_parts in *.
    exists a, k. split; [|split; unfold g_s3_max_num_upload_parts; lia]. do 2 f_equal. subst k.
    rewrite (wrap_small 32 (n / a)) by (destruct (0 <? n mod a); machine).
    destruct (0 <? n mod a); rewrite ?wrap_small by machine; lia.
  - exists size, num. split; [done|]. split; [lia|done|done|]. intros ?. destruct (Z.le_gt_cases part_size n); [lia|nia].
Qed.

Lemma known_length_range n count : body_sources = Success (Some n, count) → uint 64 n.
Proof using Hr BL.
  unfold body_sources. pose proof (ra_file Hr) as Hfile. pose proof (ra_body Hr) as Hbody.
  assert (∀ k, header_content_length = Success (Some k) → uint 64 k) as Hx.
  { intros k. unfold header_content_length. destruct (aws_http_headers_get _ _) as [t|]; [|done].
    destruct (aws_byte_cursor_utf8_parse_u64 t) as [k'|] eqn:Hp; [|done]. intros [= <-].
    apply parse_u64_spec in Hp. by apply is_u64_range in Hp. }
  destruct header_content_length as [y|]; [|done]. cbn [mbind result_bind].
  set (z := if 0 <? io_send_filepath_len o then _ else _).
  assert (∀ k c, z = Success (Some k, c) → uint 64 k) as Hz.
  { intros k c. subst z. destruct (0 <? _), y as [y|]; [|destruct send_file_length| |]; intros [= <- <-]; eauto. }
  clearbody z. destruct z as [[y' c]|]; [|done]. cbn [mbind result_bind].
  destruct (if io_send_using_async_writes o then _ else _); [|done]. cbn [mbind result_bind].
  destruct (negb (fo_request_body_ptr f) && _); [done|]. destruct (fo_request_body_ptr f).
  - destruct (negb _); [done|]. destruct y' as [y'|]; [destruct (negb _); [done|]|]; cbn [mbind result_bind];
      (destruct (1 <? _); [done|]); intros [= <- <-]; eauto.
  - cbn [mbind result_bind]. destruct (1 <? _); [done|]. intros [= -> <-]. eauto.
Qed.

(** One source at most, and what its kind says of the length. *)
Lemma body_sources_spec len count : io_type o ≠ TYPE_DEFAULT → body_sources = Success (len, count) →
  count ≤ 1 ∧ (body_of o = BodyParallelStream → len ≠ None) ∧ (body_of o = BodyAsyncWrites → len = None).
Proof.
  intros Ht. unfold body_sources, body_of. destruct header_content_length as [y|]; [|done]. cbn [mbind result_bind].
  rewrite (bool_decide_eq_false_2 _ Ht).
  destruct (0 <? io_send_filepath_len o), y as [y|]; [|destruct send_file_length; [|done]| |]; cbn [mbind result_bind];
    destruct (io_send_using_async_writes o), (io_send_async_stream o), (bool_decide (io_type o = TYPE_PUT_OBJECT));
    cbn [negb mbind result_bind bool_decide]; try done; (try (rewrite bool_decide_eq_true_2 by done; done));
    (try (rewrite bool_decide_eq_false_2 by naive_solver; cbn [mbind result_bind]));
    destruct (fo_request_body_ptr f); simpl; try done; destruct (negb (_ =? 0)); simpl; try done;
    destruct (Z.ltb_spec 1 (if fo_body_stream f then 1 else 0)); simpl; try done;
    repeat case_match; try done; intros [= <- <-]; split_and!; try done; lia.
Qed.

(** The parts that a token names. *)
Lemma token_parts t n part_size num ps k : uint 64 (token_part_size t) → 0 < n ≤ U32_MAX * g_s3_min_upload_part_size →
  s_try_update_part_info_from_resume_token n (Some t) ps k = Success (part_size, num) →
  parts_fit g_s3_min_upload_part_size n part_size num.
Proof.
  intros Ht Hn. cbn [s_try_update_part_info_from_resume_token]. destruct (negb _); [done|]. destruct (bool_decide _); [done|].
  destruct (Z.ltb_spec (token_part_size t) g_s3_min_upload_part_size) as [|Hp]; [done|].
  destruct (Z.ltb_spec g_s3_max_num_upload_parts (wrap 32 (token_total_num_parts t))) as [|Hk]; [done|].
  set (p := token_part_size t) in *. assert (0 < p) by (unfold g_s3_min_upload_part_size, MB_TO_BYTES in Hp; lia).
  pose proof (ceil_div_bounds n p ltac:(lia) ltac:(lia)) as Hc. cbv zeta in Hc.
  set (c := n / p + (if 0 <? n mod p then 1 else 0)) in *. assert (0 ≤ n / p) by (apply Z.div_pos; lia).
  assert (n ≤ U32_MAX * p) by (unfold U32_MAX in *; lia). assert (c ≤ U32_MAX) by nia. unfold g_s3_max_num_upload_parts in *.
  destruct (Z.eqb_spec (token_total_num_parts t) (if 0 <? n mod p then wrap 32 (n / p) +[32] 1 else wrap 32 (n / p))) as [He|];
    [|done]. intros [= <- <-]. rewrite He in Hk |- *.
  assert (wrap 32 (if 0 <? n mod p then wrap 32 (n / p) +[32] 1 else wrap 32 (n / p)) = wrap 32 c) as Hw.
  { subst c. destruct (0 <? n mod p); autorewrite with wrapping; f_equal; lia. }
  rewrite Hw in *. rewrite wrap_small in * by machine. split; unfold g_s3_max_num_upload_parts; unfold uint in Ht; lia.
Qed.

(** The upload is made with what was chosen, and its parts fit. *)
Lemma chosen_parts ps has_length n k part_size num :
  s_s3_client_meta_request_factory_default = Success (ChosenRangedPut ps has_length n k) →
  (fo_resume_token f ≠ None → 0 < n ≤ U32_MAX * g_s3_min_upload_part_size) →
  s_try_update_part_info_from_resume_token n (fo_resume_token f) ps k = Success (part_size, num) →
  0 < part_size < 2 ^ 64 ∧
  (has_length = false → fo_resume_token f = None) ∧
  (body_of o = BodyParallelStream → has_length = true) ∧ (body_of o = BodyAsyncWrites → has_length = false) ∧
  (has_length = true → 0 < n < 2 ^ 64 ∧ parts_fit g_s3_min_upload_part_size n part_size num).
Proof using Hr BL.
  unfold s_s3_client_meta_request_factory_default. destruct body_sources as [[len count]|] eqn:Hb; [|done].
  cbn [mbind result_bind]. destruct (io_type o) eqn:Hty; try (unfold choose_get; by repeat case_match).
  destruct (body_sources_spec len count) as (_ & Hpar & Hwr); [congruence|done|].
  pose proof requested_part_size_range as Hreq. unfold choose_put. destruct (count =? 0); [done|].
  destruct (fo_resume_token f) as [t|] eqn:Htok.
  - destruct len as [len|]; [|done]. intros [= <- <- <- <-] Hn Htry. specialize (Hn ltac:(done)).
    pose proof (token_parts _ _ _ _ _ _ (ra_token Hr _ Htok) Hn Htry) as Hfit.
    pose proof (known_length_range _ _ Hb) as Hlen. unfold uint in Hlen.
    split; [apply Hfit|]. split_and!; try done; [intros Hw; by specialize (Hwr Hw)|]. intros _. split; [lia|done].
  - set (p := if requested_part_size <? _ then _ else _). assert (g_s3_min_upload_part_size ≤ p < 2 ^ 64 ∧ 0 < p) as [Hp ?].
    { subst p. unfold g_s3_min_upload_part_size in *. destruct (requested_part_size <? _) eqn:?; machine. }
    destruct len as [len|].
    2: { intros [= <- <- <- <-] _ [= <- <-]. split_and!; try done; try lia. intros Hw. by specialize (Hpar Hw). }
    pose proof (known_length_range _ _ Hb) as Hlen. destruct (Z.eq_dec len 0) as [->|].
    { unfold put_parts. cbn. rewrite andb_false_r. cbn [mbind result_bind]. pose proof (ra_threshold Hr). unfold put_threshold.
      rewrite (proj2 (Z.leb_le 0 _)) by (repeat case_match; lia). done. }
    unfold uint in Hlen. match goal with |- context [put_parts len p ?m] =>
      destruct (put_parts_spec len p m) as (size & num' & -> & Hfit); [lia..|] end.
    cbn [mbind result_bind]. destruct (len <=? _); [done|]. intros [= <- <- <- <-] _ [= <- <-].
    split_and!; try done; try apply Hfit; [intros Hw; by specialize (Hwr Hw)|]. intros _. split; [lia|].
    destruct Hfit. split; try done. intros ?. transitivity p; [lia|auto].
Qed.

(** What the constructor makes of its arguments. *)
Lemma put_new_config c0 cmax ps has_length n k path headers rd c s :
  aws_s3_meta_request_auto_ranged_put_new c0 cmax ps has_length n k path headers rd = Ok (Success (c, s)) →
  ∃ part_size num, s_try_update_part_info_from_resume_token n (put_resume_token c0) ps k = Success (part_size, num) ∧
    put_part_size c = part_size ∧ has_content_length c = has_length ∧ content_length c = (if has_length then n else 0) ∧
    total_num_parts_from_content_length c = (if has_length then num else 0) ∧ put_resume_token c = put_resume_token c0 ∧
    body_kind c = body_kind c0 ∧ max_parts_pending_read c = max_parts_pending_read c0.
Proof.
  unfold aws_s3_meta_request_auto_ranged_put_new. destruct (s_try_update_part_info_from_resume_token _ _ _ _) as [[p num]|] eqn:Ht; [|done].
  destruct (negb _ && _); [done|]. cbv zeta. set (c1 := fupd total_num_parts_from_content_length _ _).
  intros (x & _ & Hx)%res_bind_Ok. destruct x as [s'|]; [|done]. exists p, num. split; [done|].
  injection Hx as <- _. by destruct (0 <? _)%nat.
Qed.

(** C25: whenever the client chooses a multipart upload, the upload that is made of it meets the
    assumptions under which uploads were proved correct ([put_setting]): a new one always, and one that
    resumes if its content is not empty and has at most 2^32 - 1 times 5 MB, far more than S3 stores (the
    code itself checks neither, see [empty_resume_accepted] and [long_resume_accepted]).  An upload of
    known length has at most 10,000 parts, which tile the content, and each but the last has at least
    5 MB. *)
Theorem upload_choice_sound c0 ps has_length n k path headers rd c s :
  s_s3_client_meta_request_factory_default = Success (ChosenRangedPut ps has_length n k) →
  put_resume_token c0 = fo_resume_token f → body_kind c0 = body_of o → 0 < max_parts_pending_read c0 →
  (fo_resume_token f ≠ None → 0 < n ≤ U32_MAX * g_s3_min_upload_part_size) →
  aws_s3_meta_request_auto_ranged_put_new c0 (cl_max_part_size cl) ps has_length n k path headers rd = Ok (Success (c, s)) →
  put_setting c ∧
  (has_length = true → content_length c = n ∧
     total_num_parts_from_content_length c ≤ g_s3_max_num_upload_parts ∧
     (1 < total_num_parts_from_content_length c → g_s3_min_upload_part_size ≤ put_part_size c)).
Proof using Hr BL.
  intros Hf Htok Hbody Hpend Hres Hnew.
  destruct (put_new_config _ _ _ _ _ _ _ _ _ _ _ Hnew) as (p & num & Htry & E1 & E2 & E3 & E4 & E5 & E6 & E7).
  rewrite Htok in Htry. destruct (chosen_parts _ _ _ _ _ _ Hf Hres Htry) as (Hp & Hno & Hpar & Hwr & Hk).
  split; [split|]; rewrite ?E1, ?E2, ?E3, ?E4, ?E5, ?E6, ?E7, ?Hbody, ?Htok; try done.
  - intros Hl. destruct (Hk Hl) as (Hn & [_ F2 F3 _]). rewrite Hl. unfold g_s3_max_num_upload_parts in F2. lia.
  - intros Hl. rewrite Hl. auto.
  - intros Hl. destruct (Hk Hl) as (Hn & [_ F2 _ F4]). rewrite Hl. split_and!; [done|lia|done].
Qed.
End factory.

(** The default pool rounds sizes up. *)
Lemma default_pool_rounds_up p n : 0 ≤ chunk_size (config p) ≤ 2 ^ 63 → 0 < n < 2 ^ 63 →
  n ≤ s_default_pool_derive_aligned_buffer_size p n < 2 ^ 64.
Proof.
  intros Hc Hn. destruct (Z.eq_dec (chunk_size (config p)) 0) as [Hz|].
  - unfold s_default_pool_derive_aligned_buffer_size. rewrite Hz. simpl. lia.
  - destruct (derive_aligned_least p n) as ([k Hk] & Hge & Hle); [lia..|]. split; [done|].
    specialize (Hle (n / chunk_size (config p) + 1)). pose proof (Z.div_mod n (chunk_size (config p)) ltac:(lia)).
    pose proof (Z.mod_pos_bound n (chunk_size (config p)) ltac:(lia)). nia.
Qed.

(** * Examples *)

Module FactoryDemo.
#[local] Existing Instances byte_cursor_ref byte_cursor_ref_laws headers_ref digest_ref streams_ref.

(** An upload of 100,000,000 bytes from the stream of the message. *)
Definition put_options : init_options :=
  mkInitOptions TYPE_PUT_OBJECT None None false false false [(lit "Content-Length", lit "100000000")] [] 0
    AWS_S3_RECV_FILE_CREATE_OR_REPLACE 0 false None None 0 false false 0 AWS_TRIBOOL_UNSET 0.
Definition put_body : factory_options := mkFactoryOptions put_options true (Some (lit "/key")) false 0 None 0.

Definition align (n : Z) : Z := n.
Definition no_file : result aws_error Z := Failure AWS_ERROR_UNKNOWN.
Definition choose (cl : s3_client) : result aws_error chosen :=
  s_s3_client_meta_request_factory_default (λ _, []) align no_file cl put_body.

Definition the_client : s3_client := ConfigDemo.the_client.
Definition conf0 : put_config := mkPutConfig false 0 0 0 None BodyStream false 5 no_checksum_config false false false false [] true.
Definition rd : reader := mkReader [] 0 false.

Definition upload : put_config :=
  match aws_s3_meta_request_auto_ranged_put_new conf0 (cl_max_part_size the_client) (MB_TO_BYTES 16) true 100000000 6
          (Some (lit "/key")) [] rd with Ok (Success (c, _)) => c | _ => conf0 end.

Lemma ranges : factory_ranges align no_file the_client put_body.
Proof.
  split.
  - vm_compute. split; reflexivity.
  - vm_compute. split; [discriminate|reflexivity].
  - vm_compute. split; discriminate.
  - discriminate.
  - vm_compute. split; [discriminate|reflexivity].
  - discriminate.
  - intros n Hn. unfold align. lia.
Qed.

(** The same upload, resumed. *)
Definition token (parts : Z) : resume_token := mkToken TYPE_PUT_OBJECT (Some (lit "id")) (MB_TO_BYTES 16) parts 2.
Definition resume_body : factory_options := mkFactoryOptions put_options true (Some (lit "/key")) false 0 (Some (token 6)) 0.
Definition resume (parts n : Z) :=
  aws_s3_meta_request_auto_ranged_put_new (conf0 <| put_resume_token := Some (token parts) |>) (cl_max_part_size the_client) 0 true n 0
    (Some (lit "/key")) [] rd.
Definition resumed_upload : put_config := match resume 6 100000000 with Ok (Success (c, _)) => c | _ => conf0 end.

Lemma resume_ranges : factory_ranges align no_file the_client resume_body.
Proof.
  split.
  - vm_compute. split; reflexivity.
  - vm_compute. split; [discriminate|reflexivity].
  - vm_compute. split; discriminate.
  - discriminate.
  - vm_compute. split; [discriminate|reflexivity].
  - intros t [= <-]. vm_compute. split; [discriminate|reflexivity].
  - intros n Hn. unfold align. lia.
Qed.

Lemma upload_choice_sound_witness :
  (choose the_client = Success (ChosenRangedPut (MB_TO_BYTES 16) true 100000000 6) ∧ put_setting upload) ∧
  (s_s3_client_meta_request_factory_default (λ _, []) align no_file the_client resume_body =
     Success (ChosenRangedPut 0 true 100000000 0) ∧ put_setting resumed_upload).
Proof.
  assert (choose the_client = Success (ChosenRangedPut (MB_TO_BYTES 16) true 100000000 6)) as Hc by (vm_compute; reflexivity).
  assert (s_s3_client_meta_request_factory_default (λ _, []) align no_file the_client resume_body =
    Success (ChosenRangedPut 0 true 100000000 0)) as Hc' by (vm_compute; reflexivity).
  split; [split; [exact Hc|]|split; [exact Hc'|]].
  - eapply (upload_choice_sound (λ _, []) align no_file the_client put_body ranges conf0 (MB_TO_BYTES 16) true 100000000 6
      (Some (lit "/key")) [] rd); [exact Hc|reflexivity|reflexivity|reflexivity|intros []; reflexivity|vm_compute; reflexivity].
  - eapply (upload_choice_sound (λ _, []) align no_file the_client resume_body resume_ranges
      (conf0 <| put_resume_token := Some (token 6) |>) 0 true 100000000 0 (Some (lit "/key")) [] rd);
      [exact Hc'|reflexivity|reflexivity|reflexivity|intros _; vm_compute; split; [reflexivity|discriminate]|vm_compute; reflexivity].
Defined.

(** A token of no parts is accepted with an empty content, so that an upload without parts is
    completed. *)
Lemma empty_resume_accepted : match resume 0 0 with
  | Ok (Success (c, _)) => total_num_parts_from_content_length c = 0 ∧ content_length c = 0
  | _ => False
  end.
Proof. vm_compute. split; reflexivity. Qed.

(** The number of parts is compared modulo 2^32: a token of one part is accepted for a content of
    2^32 + 1 parts. *)
Lemma long_resume_accepted : match resume 1 ((2 ^ 32 + 1) * MB_TO_BYTES 16) with
  | Ok (Success (c, _)) => total_num_parts_from_content_length c = 1
  | _ => False
  end.
Proof. vm_compute. reflexivity. Qed.

(** A client with a largest part size of 1 MB: the choice raises it to the least size of parts, to no
    effect, and the upload cannot be made. *)
Definition small_client : s3_client := the_client <| cl_max_part_size := MB_TO_BYTES 1 |> <| cl_part_size := MB_TO_BYTES 1 |>.

Lemma clamped_max_ignored :
  choose small_client = Success (ChosenRangedPut (MB_TO_BYTES 5) true 100000000 20) ∧
  aws_s3_meta_request_auto_ranged_put_new conf0 (cl_max_part_size small_client) (MB_TO_BYTES 5) true 100000000 20
    (Some (lit "/key")) [] rd = Ok (Failure AWS_ERROR_S3_PART_SIZE_EXCEEDS_MEMORY_LIMIT).
Proof. split; vm_compute; reflexivity. Qed.
End FactoryDemo.
