(* ===== verification/UploadTimeout.v ===== *)
(** The timeout of uploaded parts (source/s3_client.c: aws_s3_client_update_upload_part_timeout): the
    first requests decide whether there is a timeout and where it starts, later ones adjust it, and
    when it grows too long it is given up. *)

From Stdlib Require Import Init.Byte Floats.SpecFloat.
From S2P Require Import Prelude AwsCommon PriorityQueue ClientConfig.

(** * Time and doubles *)

(** [aws_timestamp_convert] of aws/common/clock.h. *)
Inductive timestamp_unit := AWS_TIMESTAMP_SECS | AWS_TIMESTAMP_MILLIS | AWS_TIMESTAMP_NANOS.

Definition per_second (u : timestamp_unit) : Z :=
  match u with AWS_TIMESTAMP_SECS => 1 | AWS_TIMESTAMP_MILLIS => 1000 | AWS_TIMESTAMP_NANOS => 1000000000 end.

Class AwsClock := { aws_timestamp_convert : Z → timestamp_unit → timestamp_unit → Z }.

(** To a finer unit the conversion multiplies and saturates, to a coarser one it divides. *)
Class AwsClockLaws (K : AwsClock) : Prop := {
  timestamp_finer n u v : uint 64 n → per_second u ≤ per_second v →
    aws_timestamp_convert n u v = Z.min U64_MAX (n * (per_second v / per_second u));
  timestamp_coarser n u v : uint 64 n → per_second v < per_second u →
    aws_timestamp_convert n u v = n / (per_second u / per_second v);
}.

Definition double_add : float → float → float := SFadd 53 1024.
Definition double_mul : float → float → float := SFmul 53 1024.

(** The conversion of a number that does not fit is undefined in C. *)
Definition double_to_u64 (x : float) : Z :=
  wrap 64 (if 0 <=? float_exponent x then float_mantissa x * 2 ^ float_exponent x else Z.quot (float_mantissa x) (2 ^ (- float_exponent x))).

(** * Statistics *)

Definition s_upload_timeout_threshold_ns : Z := 5000000000.
Definition g_expect_timeout_offset_ms : Z := 700.

(** The metrics of a request that are read, and the timeout that it was sent with. *)
Record finished_part := mkFinished {
  fp_send_start_timestamp_ns : Z;
  fp_send_end_timestamp_ns : Z;
  fp_receive_start_timestamp_ns : Z;
  fp_receive_end_timestamp_ns : Z;
  fp_upload_timeout_ms : Z;
}.

Section timeout.
Context `{M : !AwsMath} `{K : !AwsClock} `{Q : !AwsPriorityQueue Z id}.
Context (ideal_connection_count : Z).

(** [struct aws_s3_upload_part_timeout_stats] and [upload_timeout_ms] of the client.  The queue of the
    largest samples has the capacity it was made with. *)
Record timeout_stats := mkTimeoutStats {
  ts_stop_timeout : bool;
  ts_num_successful_upload_requests : Z;
  ts_initial_sum_ns : Z;
  ts_initial_num_samples : Z;
  ts_collecting_p90 : bool;
  ts_p90_samples : pq Z id;
  ts_p90_capacity : Z;
  ts_num_completed : Z;
  ts_num_failed : Z;
  ts_first_byte_sum_ns : Z;
  ts_first_byte_num_samples : Z;
  ts_upload_timeout_ms : Z;
}.
#[export] Instance timeout_stats_eta : Eta timeout_stats := λ s,
  mkTimeoutStats (ts_stop_timeout s) (ts_num_successful_upload_requests s) (ts_initial_sum_ns s) (ts_initial_num_samples s)
    (ts_collecting_p90 s) (ts_p90_samples s) (ts_p90_capacity s) (ts_num_completed s) (ts_num_failed s)
    (ts_first_byte_sum_ns s) (ts_first_byte_num_samples s) (ts_upload_timeout_ms s).

Definition timeout_init : timeout_stats := mkTimeoutStats false 0 0 0 false pq_empty 0 0 0 0 0 0.

Implicit Types (s : timeout_stats) (r : finished_part).

Definition num_samples_to_collect : Z := aws_max_u32 ideal_connection_count 10.

(** A queue that could not grow stays as it was. *)
Definition push_sample s (q : pq Z id) (t : Z) : timeout_stats :=
  s <| ts_p90_samples := default q (aws_priority_queue_push q t) |>.

(** The queue keeps the largest samples; the first sample only makes the queue. *)
Definition collect_p90 s (request_time_ns : Z) : res timeout_stats :=
  if negb (ts_collecting_p90 s) then
    Ok (s <| ts_collecting_p90 := true |> <| ts_p90_samples := pq_empty |>
          <| ts_p90_capacity := num_samples_to_collect / 10 |>)
  else
    let q := ts_p90_samples s in
    if Z.of_nat (length (pq_elems q)) =? ts_p90_capacity s then
      match aws_priority_queue_top q with
      | None => FatalAssert
      | Some min =>
          if min <? request_time_ns then
            match aws_priority_queue_pop q with
            | None => FatalAssert
            | Some (_, q) => Ok (push_sample s q request_time_ns)
            end
          else Ok s
      end
    else Ok (push_sample s q request_time_ns).

(** Whether there is to be a timeout, and where it starts. *)
Definition decide_timeout s : res timeout_stats :=
  if negb (ts_num_successful_upload_requests s =? ideal_connection_count) then Ok s
  else
    let average_request_time_ns := ts_initial_sum_ns s / ts_initial_num_samples s in
    if s_upload_timeout_threshold_ns <=? average_request_time_ns then Ok (s <| ts_stop_timeout := true |>)
    else
      match aws_priority_queue_top (ts_p90_samples s) with
      | None => FatalAssert
      | Some p90_ns =>
          let p90_ms := aws_timestamp_convert p90_ns AWS_TIMESTAMP_NANOS AWS_TIMESTAMP_MILLIS in
          Ok (s <| ts_upload_timeout_ms := aws_max_u64 p90_ms 1000 |> <| ts_p90_samples := pq_empty |>
                <| ts_collecting_p90 := false |>)
      end.

Definition request_time_ns r : Z := fp_receive_end_timestamp_ns r -[64] fp_send_start_timestamp_ns r.

Definition collect_sample s r : res timeout_stats :=
  let s := s <| ts_initial_sum_ns ::= λ n, aws_add_u64_saturating n (request_time_ns r) |>
             <| ts_initial_num_samples ::= λ n, n +[64] 1 |> in
  s ← collect_p90 s (request_time_ns r);
  decide_timeout s.

(** A later success: the statistics, and the timeout a step nearer to what is expected. *)
Definition adjust_after_success s r (current_timeout_ns : Z) : timeout_stats * Z :=
  let s := s <| ts_num_completed ::= λ n, aws_add_u64_saturating n 1 |> in
  let response_to_first_byte_time_ns := fp_receive_start_timestamp_ns r -[64] fp_send_end_timestamp_ns r in
  let s := s <| ts_first_byte_sum_ns ::= λ n, aws_add_u64_saturating n response_to_first_byte_time_ns |>
             <| ts_first_byte_num_samples ::= λ n, aws_add_u64_saturating n 1 |> in
  let average := ts_first_byte_sum_ns s / ts_first_byte_num_samples s in
  let expected_timeout_ns :=
    average +[64] aws_timestamp_convert g_expect_timeout_offset_ms AWS_TIMESTAMP_MILLIS AWS_TIMESTAMP_NANOS in
  let timeout_ns_double :=
    double_add (double_mul (double_of_Z current_timeout_ns) (double_div (double_of_Z 99) (double_of_Z 100)))
               (double_mul (double_of_Z expected_timeout_ns) (double_div (double_of_Z 1) (double_of_Z 100))) in
  (s, double_to_u64 timeout_ns_double).

Definition rate_threshold (num_completed divisor : Z) : Z :=
  double_to_u64 (ceil (double_div (double_of_Z num_completed) (double_of_Z divisor))).

(** A request that timed out. *)
Definition adjust_after_timeout s r (current_timeout_ns : Z) : timeout_stats * Z :=
  let current_timeout_ms := ts_upload_timeout_ms s in
  let s := s <| ts_num_completed ::= λ n, aws_add_u64_saturating n 1 |>
             <| ts_num_failed ::= λ n, aws_add_u64_saturating n 1 |> in
  let timeout_threshold := rate_threshold (ts_num_completed s) 100 in
  let warning_threshold := rate_threshold (ts_num_completed s) 1000 in
  if timeout_threshold <? ts_num_failed s then
    (s <| ts_num_completed := 0 |> <| ts_num_failed := 0 |>,
     if current_timeout_ms <? fp_upload_timeout_ms r +[64] 1000
     then aws_add_u64_saturating current_timeout_ns (aws_timestamp_convert 1 AWS_TIMESTAMP_SECS AWS_TIMESTAMP_NANOS) else 0)
  else
    (s, if (warning_threshold <? ts_num_failed s) && (current_timeout_ms <? fp_upload_timeout_ms r +[64] 100)
        then aws_add_u64_saturating current_timeout_ns (aws_timestamp_convert 100 AWS_TIMESTAMP_MILLIS AWS_TIMESTAMP_NANOS)
        else 0).

Definition apply_timeout (s : timeout_stats) (updated_timeout_ns : Z) : timeout_stats :=
  if updated_timeout_ns =? 0 then s
  else
    let stop := s_upload_timeout_threshold_ns <? updated_timeout_ns in
    let updated_timeout_ns := if stop then 0 else updated_timeout_ns in
    (if stop then s <| ts_stop_timeout := true |> else s)
      <| ts_upload_timeout_ms := aws_timestamp_convert updated_timeout_ns AWS_TIMESTAMP_NANOS AWS_TIMESTAMP_MILLIS |>.

Definition aws_s3_client_update_upload_part_timeout s r (finished_error_code : option aws_error) : res timeout_stats :=
  if ts_stop_timeout s then Ok s
  else
    let current_timeout_ns := aws_timestamp_convert (ts_upload_timeout_ms s) AWS_TIMESTAMP_MILLIS AWS_TIMESTAMP_NANOS in
    match finished_error_code with
    | None =>
        let s := s <| ts_num_successful_upload_requests ::= λ n, aws_add_u64_saturating n 1 |> in
        if ts_num_successful_upload_requests s <=? num_samples_to_collect then collect_sample s r
        else let '(s, updated) := adjust_after_success s r current_timeout_ns in Ok (apply_timeout s updated)
    | Some AWS_ERROR_HTTP_RESPONSE_FIRST_BYTE_TIMEOUT =>
        if ts_num_successful_upload_requests s <? 10 then Ok s
        else let '(s, updated) := adjust_after_timeout s r current_timeout_ns in Ok (apply_timeout s updated)
    | Some _ => Ok s
    end.

(** * Runs *)

(** The timeouts of the requests in flight, and the times of the requests that succeeded before the
    timeout was given up. *)
Record timeout_run := mkRun {
  tr_stats : timeout_stats;
  tr_sent : list Z;
  tr_times : list Z;
}.
#[export] Instance timeout_run_eta : Eta timeout_run := λ u, mkRun (tr_stats u) (tr_sent u) (tr_times u).

Definition log_time s r (e : option aws_error) (times : list Z) : list Z :=
  if ts_stop_timeout s then times else match e with None => times ++ [request_time_ns r] | Some _ => times end.

(** Only a request that was sent with a timeout can run into it. *)
Inductive timeout_step (u : timeout_run) : timeout_run → Prop :=
| part_sent : timeout_step u (u <| tr_sent ::= λ l, l ++ [ts_upload_timeout_ms (tr_stats u)] |>)
| part_finished l1 l2 r e s' :
    tr_sent u = l1 ++ fp_upload_timeout_ms r :: l2 →
    (e = Some AWS_ERROR_HTTP_RESPONSE_FIRST_BYTE_TIMEOUT → fp_upload_timeout_ms r ≠ 0) →
    aws_s3_client_update_upload_part_timeout (tr_stats u) r e = Ok s' →
    timeout_step u (mkRun s' (l1 ++ l2) (log_time (tr_stats u) r e (tr_times u))).

Definition timeout_reachable (u : timeout_run) : Prop := rtc timeout_step (mkRun timeout_init [] []) u.

(** * The largest samples *)

(** [t] are the [k] largest of [l], or all of them. *)
Definition largest (k : nat) (l t : list Z) : Prop :=
  length t = Nat.min k (length l) ∧ ∃ rest, l ≡ₚ t ++ rest ∧ ∀ x y, x ∈ t → y ∈ rest → y ≤ x.

Lemma largest_more k l t x : (length t < k)%nat → largest k l t → largest k (l ++ [x]) (x :: t).
Proof.
  intros Hk (Hl & rest & Hp & Hle). assert (rest = []) as ->.
  { apply Permutation_length in Hp as Hn. rewrite length_app in Hn. destruct rest; [done|simpl in Hn; lia]. }
  split; [rewrite length_app; simpl in *; apply Permutation_length in Hp; rewrite app_nil_r in Hp; lia|].
  exists []. split; [|set_solver]. rewrite Hp. rewrite !app_nil_r. solve_Permutation.
Qed.

Lemma largest_keep k l t x : length t = k → (∀ y, y ∈ t → x ≤ y) → largest k l t → largest k (l ++ [x]) t.
Proof.
  intros Hk Hx (Hl & rest & Hp & Hle). split; [rewrite length_app; lia|]. exists (x :: rest).
  split; [rewrite Hp; solve_Permutation|]. intros y z Hy. rewrite elem_of_cons. intros [->|]; eauto.
Qed.

Lemma largest_replace k l t t' m x : length t = k → t ≡ₚ m :: t' → (∀ y, y ∈ t → m ≤ y) → m < x →
  largest k l t → largest k (l ++ [x]) (x :: t').
Proof.
  intros Hk Ht Hm Hx (Hl & rest & Hp & Hle). apply Permutation_length in Ht as Hn. simpl in Hn.
  split; [rewrite length_app; simpl; lia|]. exists (m :: rest). split.
  - rewrite Hp, Ht. solve_Permutation.
  - intros y z. rewrite !elem_of_cons. intros [->|Hy] [->|Hz].
    + lia.
    + assert (z ≤ m); [apply Hle; [rewrite Ht; set_solver|done]|lia].
    + apply Hm. rewrite Ht. set_solver.
    + apply Hle; [rewrite Ht; set_solver|done].
Qed.

Lemma largest_perm k l t t' : t ≡ₚ t' → largest k l t → largest k l t'.
Proof.
  intros Ht (Hl & rest & Hp & Hle). split; [by rewrite <-Ht|]. exists rest. split; [by rewrite <-Ht|].
  intros x y. rewrite <-Ht. apply Hle.
Qed.

(** * Invariant *)

Context `{ML : !AwsMathLaws M} `{KL : !AwsClockLaws K} `{QL : !AwsPriorityQueueLaws Z id Q}.
Context (Hpush : ∀ (q : pq Z id) t, is_Some (aws_priority_queue_push q t)).
Context (Hideal : 10 ≤ ideal_connection_count < 2 ^ 32).

Definition k90 : nat := Z.to_nat (ideal_connection_count / 10).
Definition num (l : list Z) : Z := Z.of_nat (length l).

Record collecting (s : timeout_stats) (sent times : list Z) : Prop := {
  co_timeout : ts_upload_timeout_ms s = 0;
  co_sent : Forall (λ t, t = 0) sent;
  co_sum : ts_initial_sum_ns s = Z.min (zsum id times) U64_MAX;
  co_samples : ts_initial_num_samples s = num times;
  co_p90 : ts_collecting_p90 s = bool_decide (times ≠ []);
  co_queue : times ≠ [] → ts_p90_capacity s = ideal_connection_count / 10 ∧ largest k90 (tail times) (pq_elems (ts_p90_samples s));
}.

(** A timeout is at most five seconds, or it is that of a sample. *)
Definition bounded (timeout : Z) (times : list Z) : Prop :=
  0 ≤ timeout ∧ (timeout ≤ 5000 ∨ ∃ t, t ∈ times ∧ timeout = t / 1000000).

Record timeout_ok (u : timeout_run) : Prop := {
  to_num : ts_stop_timeout (tr_stats u) = false →
    ts_num_successful_upload_requests (tr_stats u) = Z.min (num (tr_times u)) U64_MAX;
  to_times : Forall (uint 64) (tr_times u);
  to_stop : ts_stop_timeout (tr_stats u) = true → ts_upload_timeout_ms (tr_stats u) = 0;
  to_collecting : ts_stop_timeout (tr_stats u) = false → num (tr_times u) < ideal_connection_count →
    collecting (tr_stats u) (tr_sent u) (tr_times u);
  to_bound : bounded (ts_upload_timeout_ms (tr_stats u)) (tr_times u);
}.

Lemma num_samples_ideal : num_samples_to_collect = ideal_connection_count.
Proof using ML Hideal. unfold num_samples_to_collect. rewrite aws_max_u32_spec by machine. lia. Qed.

Lemma push_largest k l q x : largest k l (x :: pq_elems q) → largest k l (pq_elems (default q (aws_priority_queue_push q x))).
Proof using QL Hpush.
  intros Hl. destruct (Hpush q x) as [q' Hq]. rewrite Hq. simpl.
  eapply largest_perm; [|exact Hl]. symmetry. by apply pq_push_elems.
Qed.

Lemma collect_p90_spec s times t :
  ts_collecting_p90 s = bool_decide (times ≠ []) →
  (times ≠ [] → ts_p90_capacity s = ideal_connection_count / 10 ∧ largest k90 (tail times) (pq_elems (ts_p90_samples s))) →
  ∃ q, collect_p90 s t = Ok (s <| ts_collecting_p90 := true |> <| ts_p90_samples := q |>
                               <| ts_p90_capacity := ideal_connection_count / 10 |>) ∧
    largest k90 (tail (times ++ [t])) (pq_elems q).
Proof using KL ML QL Hpush Hideal.
  intros Hc Hq. assert (1 ≤ ideal_connection_count / 10) by (apply Z.div_le_lower_bound; lia).
  unfold collect_p90. rewrite Hc. destruct times as [|t0 times].
  - rewrite bool_decide_eq_false_2 by naive_solver. simpl. exists pq_empty. rewrite num_samples_ideal, pq_elems_empty.
    split; [done|]. split; [by rewrite Nat.min_0_r|]. exists []. split; [done|set_solver].
  - rewrite bool_decide_eq_true_2 by done. destruct (Hq ltac:(done)) as [Hcap Hl]. cbn [negb tail app] in Hl |- *. rewrite Hcap.
    assert (∀ q, s <| ts_p90_samples := q |> = s <| ts_collecting_p90 := true |> <| ts_p90_samples := q |>
                                                 <| ts_p90_capacity := ideal_connection_count / 10 |>) as Hs.
    { rewrite bool_decide_eq_true_2 in Hc by done. intros q. destruct s; simpl in *. by subst. }
    destruct (Z.eqb_spec (Z.of_nat (length (pq_elems (ts_p90_samples s)))) (ideal_connection_count / 10)) as [Hfull|Hroom].
    + assert (length (pq_elems (ts_p90_samples s)) = k90) as Hk by (unfold k90; lia).
      destruct (aws_priority_queue_top (ts_p90_samples s)) as [m|] eqn:Htop.
      2: { apply pq_top_None in Htop. rewrite Htop in Hfull. simpl in Hfull. lia. }
      assert (∀ y, y ∈ pq_elems (ts_p90_samples s) → m ≤ y) as Hm by (intros y Hy; by apply (pq_top_min _ _ _ Htop)).
      destruct (Z.ltb_spec m t).
      * destruct (pq_pop_top _ _ Htop) as (q & -> & Hpop). eexists. split; [rewrite <-Hs; reflexivity|].
        apply push_largest. by eapply largest_replace.
      * exists (ts_p90_samples s). split; [rewrite <-Hs; by destruct s|]. apply largest_keep; [done| |done].
        intros y Hy. specialize (Hm y Hy). lia.
    + eexists. split; [rewrite <-Hs; reflexivity|]. apply push_largest. apply largest_more; [|done]. destruct Hl as [Hl _].
      unfold k90 in *. lia.
Qed.

Lemma num_snoc l t : num (l ++ [t]) = num l + 1.
Proof. unfold num. rewrite length_app. simpl. lia. Qed.

Lemma request_time_range r : uint 64 (request_time_ns r).
Proof. by apply wrap_uint. Qed.

(** The 90th percentile of the samples but the first: the least of the largest tenth. *)
Definition is_p90 (times : list Z) (p : Z) : Prop :=
  ∃ top, largest k90 (tail times) top ∧ p ∈ top ∧ ∀ y, y ∈ top → p ≤ y.

(** What the decision makes of the samples. *)
Definition decided (times : list Z) s : Prop :=
  if s_upload_timeout_threshold_ns <=? Z.min (zsum id times) U64_MAX / ideal_connection_count
  then ts_stop_timeout s = true ∧ ts_upload_timeout_ms s = 0
  else ts_stop_timeout s = false ∧ ∃ p, is_p90 times p ∧ ts_upload_timeout_ms s = Z.max (p / 1000000) 1000.

Lemma decide_spec s times : ts_stop_timeout s = false → ts_upload_timeout_ms s = 0 → num times = ideal_connection_count →
  Forall (uint 64) times → ts_num_successful_upload_requests s = num times → ts_initial_num_samples s = num times →
  ts_initial_sum_ns s = Z.min (zsum id times) U64_MAX → largest k90 (tail times) (pq_elems (ts_p90_samples s)) →
  ∃ s', decide_timeout s = Ok s' ∧ decided times s' ∧ ts_num_successful_upload_requests s' = num times.
Proof using KL ML QL Hpush Hideal.
  intros Hstop Ht Hn Hr Hsucc Hsam Hsum Hl. unfold decide_timeout. rewrite Hsucc, Hsum, Hsam, Hn, Z.eqb_refl. cbn [negb].
  unfold decided. destruct (s_upload_timeout_threshold_ns <=? _); [eexists; split; [done|]; simpl; split; [done|congruence]|].
  destruct (aws_priority_queue_top (ts_p90_samples s)) as [p|] eqn:Htop.
  - assert (p ∈ pq_elems (ts_p90_samples s)) as Hp.
    { destruct (pq_pop_top _ _ Htop) as (q & _ & ->). set_solver. }
    assert (uint 64 p) as Hp64.
    { destruct Hl as (_ & rest & Hperm & _). rewrite list.Forall_forall in Hr. apply Hr. destruct times as [|t times].
      - simpl in Hperm. symmetry in Hperm. apply Permutation_nil_r in Hperm. set_solver.
      - right. simpl in Hperm. rewrite Hperm. set_solver. }
    eexists. split; [done|]. simpl. split; [|congruence]. split; [done|]. exists p. split.
    { exists (pq_elems (ts_p90_samples s)). split_and!; [done..|]. intros y Hy. by apply (pq_top_min _ _ _ Htop). }
    rewrite timestamp_coarser by done. simpl. rewrite aws_max_u64_spec; [done| |done].
    change (1000000000 / 1000) with 1000000. unfold uint in *. split; [apply Z.div_pos; lia|].
    apply Z.div_lt_upper_bound; lia.
  - apply pq_top_None in Htop. destruct Hl as [Hl _]. rewrite Htop in Hl. unfold k90, num in *.
    assert (1 ≤ ideal_connection_count / 10) by (apply Z.div_le_lower_bound; lia). destruct times; simpl in *; lia.
Qed.

Lemma collect_sample_spec s sent times r : ts_stop_timeout s = false → num times < ideal_connection_count →
  Forall (uint 64) times → collecting s sent times → ts_num_successful_upload_requests s = num times + 1 →
  let times' := times ++ [request_time_ns r] in
  ∃ s', collect_sample s r = Ok s' ∧ ts_num_successful_upload_requests s' = num times' ∧
    (num times' < ideal_connection_count → ts_stop_timeout s' = false ∧ collecting s' sent times') ∧
    (num times' = ideal_connection_count → decided times' s').
Proof using KL ML QL Hpush Hideal.
  intros Hstop Hlt Hr [C1 C2 C3 C4 C5 C6] Hsucc times'. pose proof (request_time_range r) as Ht.
  assert (num times' = num times + 1) as Hn' by apply num_snoc. assert (0 ≤ num times) by (unfold num; lia).
  assert (Forall (uint 64) times') as Hr' by (by apply Forall_app_2; [|constructor]).
  assert (0 ≤ zsum id times) by (apply zsum_nonneg; intros t Hin; rewrite list.Forall_forall in Hr; apply Hr in Hin; apply Hin).
  unfold collect_sample. set (s1 := fupd ts_initial_num_samples _ _).
  assert (ts_initial_sum_ns s1 = Z.min (zsum id times') U64_MAX) as Hsum.
  { change (ts_initial_sum_ns s1) with (aws_add_u64_saturating (ts_initial_sum_ns s) (request_time_ns r)).
    unfold times'. rewrite zsum_app. simpl. rewrite C3, aws_add_u64_saturating_spec by (try done; machine). machine. }
  assert (ts_initial_num_samples s1 = num times') as Hsam.
  { change (ts_initial_num_samples s1) with (ts_initial_num_samples s +[64] 1). rewrite C4, Hn', wrap_small; machine. }
  destruct (collect_p90_spec s1 times (request_time_ns r) C5 C6) as (q & -> & Hq). cbn [mbind res_bind].
  set (s2 := fupd ts_p90_capacity _ _). destruct (Z.eq_dec (num times') ideal_connection_count) as [He|Hne].
  - destruct (decide_spec s2 times') as (s' & Hs' & Hd & Hnum); try done; [by transitivity (num times + 1)|].
    exists s'. split_and!; [done..|lia|done].
  - exists s2. unfold decide_timeout. change (ts_num_successful_upload_requests s2) with (ts_num_successful_upload_requests s).
    rewrite Hsucc, (proj2 (Z.eqb_neq _ _)) by lia. split_and!; [done|lia| |lia]. intros _. split; [done|]. split; try done.
    + rewrite bool_decide_eq_true_2; [done|]. unfold times'. by destruct times.
Qed.

Lemma bounded_more timeout times t : bounded timeout times → bounded timeout (times ++ [t]).
Proof. intros [H1 [H2|(x & Hx & H2)]]; (split; [done|]); [by left|right]. exists x. split; [set_solver|done]. Qed.

Lemma decided_bounded times s : decided times s → num times = ideal_connection_count → Forall (uint 64) times →
  bounded (ts_upload_timeout_ms s) times ∧ (ts_stop_timeout s = true → ts_upload_timeout_ms s = 0).
Proof.
  unfold decided. intros Hd _ Hr. destruct (_ <=? _); [destruct Hd as [_ ->]; split; [split; [lia|left; lia]|done]|].
  destruct Hd as [Hst (p & (top & (_ & rest & Hp & _) & Hin & _) & ->)]. split; [|congruence].
  assert (p ∈ times) as Hpt.
  { destruct times as [|t times].
    { simpl in Hp. symmetry in Hp. apply Permutation_nil_r, app_nil in Hp as [-> _]. by apply elem_of_nil in Hin. }
    right. simpl in Hp. rewrite Hp. set_solver. }
  rewrite list.Forall_forall in Hr. specialize (Hr p Hpt). unfold uint in Hr.
  assert (0 ≤ p / 1000000) by (apply Z.div_pos; lia). split; [lia|].
  destruct (Z.le_gt_cases (p / 1000000) 1000); [left; lia|right]. exists p. split; [done|lia].
Qed.

Lemma bounded_u64 timeout times : Forall (uint 64) times → bounded timeout times → uint 64 timeout.
Proof.
  intros Hr [H1 [H2|(x & Hx & ->)]]; [machine|]. rewrite list.Forall_forall in Hr. specialize (Hr x Hx). unfold uint in *.
  split; [done|]. apply Z.div_lt_upper_bound; lia.
Qed.

Lemma apply_timeout_spec s updated times : uint 64 updated → ts_stop_timeout s = false → bounded (ts_upload_timeout_ms s) times →
  let s' := apply_timeout s updated in
  bounded (ts_upload_timeout_ms s') times ∧ (ts_stop_timeout s' = true → ts_upload_timeout_ms s' = 0) ∧
  ts_num_successful_upload_requests s' = ts_num_successful_upload_requests s.
Proof using KL.
  intros Hu Hst Hb. unfold apply_timeout. destruct (Z.eqb_spec updated 0); [split_and!; [done|congruence|done]|].
  destruct (Z.ltb_spec s_upload_timeout_threshold_ns updated) as [|Hle]; simpl; rewrite timestamp_coarser by done; simpl.
  - split_and!; [split; [by vm_compute|left; by vm_compute]|done|done].
  - change (1000000000 / 1000) with 1000000. unfold uint, s_upload_timeout_threshold_ns in *.
    split_and!; [split; [apply Z.div_pos; lia|left; apply Z.div_le_upper_bound; lia]|congruence|done].
Qed.

Lemma timeout_ns_u64 ms : uint 64 ms → uint 64 (aws_timestamp_convert ms AWS_TIMESTAMP_MILLIS AWS_TIMESTAMP_NANOS).
Proof using KL. intros Hm. rewrite timestamp_finer by done. change (per_second _ / _) with 1000000. machine. Qed.

(** Adjustments change the statistics only. *)
Lemma adjust_success_spec s r ns : let '(s', updated) := adjust_after_success s r ns in
  uint 64 updated ∧ ts_stop_timeout s' = ts_stop_timeout s ∧ ts_upload_timeout_ms s' = ts_upload_timeout_ms s ∧
  ts_num_successful_upload_requests s' = ts_num_successful_upload_requests s.
Proof. unfold adjust_after_success. cbv zeta. split_and!; [by apply wrap_uint|done..]. Qed.

Lemma adjust_timeout_spec s r ns : uint 64 ns → let '(s', updated) := adjust_after_timeout s r ns in
  uint 64 updated ∧ ts_stop_timeout s' = ts_stop_timeout s ∧ ts_upload_timeout_ms s' = ts_upload_timeout_ms s ∧
  ts_num_successful_upload_requests s' = ts_num_successful_upload_requests s.
Proof using ML KL.
  intros Hns. unfold adjust_after_timeout. cbv zeta.
  assert (∀ n u v, uint 64 n → per_second u ≤ per_second v →
    uint 64 (aws_add_u64_saturating ns (aws_timestamp_convert n u v))) as Hadd.
  { intros n u v Hn Huv. assert (uint 64 (aws_timestamp_convert n u v)).
    { rewrite timestamp_finer by done. assert (0 ≤ per_second v / per_second u) by (by destruct u, v). unfold uint in *. machine. }
    rewrite aws_add_u64_saturating_spec by done. unfold uint in *. machine. }
  destruct (_ <? _); (split; [|done]); destruct (_ && _) || destruct (_ <? _); try (by split); by apply Hadd.
Qed.

(** A request that succeeds before the timeout is given up. *)
Lemma update_success s sent times r : timeout_ok (mkRun s sent times) → ts_stop_timeout s = false →
  let times' := times ++ [request_time_ns r] in
  ∃ s', aws_s3_client_update_upload_part_timeout s r None = Ok s' ∧ timeout_ok (mkRun s' sent times') ∧
    (num times' = ideal_connection_count → decided times' s').
Proof using KL ML QL Hpush Hideal.
  intros [O1 O2 O3 O4 O5] Hst. simpl in *. unfold aws_s3_client_update_upload_part_timeout. rewrite Hst, num_snoc.
  specialize (O1 Hst). assert (0 ≤ num times) by (unfold num; lia).
  set (s0 := fupd ts_num_successful_upload_requests _ _).
  assert (ts_num_successful_upload_requests s0 = Z.min (num times + 1) U64_MAX) as Hn0.
  { change (aws_add_u64_saturating (ts_num_successful_upload_requests s) 1 = Z.min (num times + 1) U64_MAX).
    rewrite O1, aws_add_u64_saturating_spec by machine. machine. }
  rewrite num_samples_ideal, Hn0. assert (Forall (uint 64) (times ++ [request_time_ns r])) as Ht'.
  { apply Forall_app_2; [done|]. constructor; [apply request_time_range|done]. }
  destruct (Z.leb_spec (Z.min (num times + 1) U64_MAX) ideal_connection_count).
  - assert (num times < ideal_connection_count) as Hlt by machine.
    destruct (collect_sample_spec s0 sent times r) as (s' & Hs' & N1 & N2 & N3); [done|done|done| |machine|].
    { destruct (O4 Hst Hlt). by split. }
    rewrite num_snoc in *. exists s'. split; [done|]. split; [|auto].
    destruct (Z.eq_dec (num times + 1) ideal_connection_count) as [He|Hne].
    + destruct (decided_bounded _ _ (N3 He)) as [D1 D2]; [by rewrite num_snoc|done|].
      split; simpl; rewrite ?num_snoc; try done; [intros; machine|lia].
    + destruct (N2 ltac:(lia)) as [N4 N5]. split; simpl; rewrite ?num_snoc, ?N4; try done; [intros; machine|].
      destruct N5 as [-> _ _ _ _ _]. split; [lia|left; lia].
  - pose proof (adjust_success_spec s0 r (aws_timestamp_convert (ts_upload_timeout_ms s) AWS_TIMESTAMP_MILLIS AWS_TIMESTAMP_NANOS)) as Ha.
    destruct (adjust_after_success _ _ _) as [s1 updated]. destruct Ha as (Hup & A1 & A2 & A3). eexists. split; [done|].
    split; [|lia]. destruct (apply_timeout_spec s1 updated (times ++ [request_time_ns r])) as (B1 & B2 & B3); [done|by rewrite A1| |].
    { rewrite A2. by apply bounded_more. }
    split; simpl; rewrite ?num_snoc; try done; [|intros _; machine]. intros _. by rewrite B3, A3.
Qed.

(** A request that is no longer in flight changes nothing. *)
Lemma timeout_ok_sent s l1 t l2 times : timeout_ok (mkRun s (l1 ++ t :: l2) times) → timeout_ok (mkRun s (l1 ++ l2) times).
Proof.
  intros [O1 O2 O3 O4 O5]. split; try done. simpl in *. intros Hst Hlt. destruct (O4 Hst Hlt) as [C1 C2 C3 C4 C5 C6].
  split; try done. apply Forall_app in C2 as [? [_ ?]%Forall_cons_1]. by apply Forall_app_2.
Qed.

Lemma timeout_update_spec u l1 l2 r e : timeout_ok u → tr_sent u = l1 ++ fp_upload_timeout_ms r :: l2 →
  (e = Some AWS_ERROR_HTTP_RESPONSE_FIRST_BYTE_TIMEOUT → fp_upload_timeout_ms r ≠ 0) →
  ∃ s', aws_s3_client_update_upload_part_timeout (tr_stats u) r e = Ok s' ∧
    timeout_ok (mkRun s' (l1 ++ l2) (log_time (tr_stats u) r e (tr_times u))).
Proof using KL ML QL Hpush Hideal.
  destruct u as [s sent times]. cbn [tr_stats tr_sent tr_times]. intros Hok -> Hfb. unfold log_time.
  pose proof (timeout_ok_sent _ _ _ _ _ Hok) as Hok'. destruct (ts_stop_timeout s) eqn:Hst.
  { exists s. unfold aws_s3_client_update_upload_part_timeout. by rewrite Hst. }
  destruct e as [e|].
  2: { destruct (update_success s (l1 ++ l2) times r Hok' Hst) as (s' & ? & ? & _). by exists s'. }
  unfold aws_s3_client_update_upload_part_timeout. rewrite Hst.
  destruct (decide (e = AWS_ERROR_HTTP_RESPONSE_FIRST_BYTE_TIMEOUT)) as [->|Hne].
  2: { exists s. split; [by destruct e|done]. }
  destruct (ts_num_successful_upload_requests s <? 10); [by exists s|]. destruct Hok as [O1 O2 O3 O4 O5]. simpl in *.
  assert (¬ num times < ideal_connection_count) as Hge.
  { intros Hlt. destruct (O4 Hst Hlt) as [_ C2 _ _ _ _]. apply Forall_app in C2 as [_ [C2 _]%Forall_cons_1]. by destruct Hfb. }
  pose proof (adjust_timeout_spec s r _ (timeout_ns_u64 _ (bounded_u64 _ _ O2 O5))) as Ha.
  destruct (adjust_after_timeout _ _ _) as [s1 updated]. destruct Ha as (Hup & A1 & A2 & A3). eexists. split; [done|].
  destruct (apply_timeout_spec s1 updated times) as (B1 & B2 & B3); [done|congruence|by rewrite A2|].
  split; simpl; try done. intros _. rewrite B3, A3. by apply O1.
Qed.

Lemma timeout_reachable_ok u : timeout_reachable u → timeout_ok u.
Proof using KL ML QL Hpush Hideal.
  intros Hr. assert (timeout_ok (mkRun timeout_init [] [])) as Hok.
  { split; simpl; [done..| |split; [lia|left; lia]]. intros _ _. by split. }
  induction Hr as [|u u1 u2 Hs _ IH]; [done|]. apply IH. clear IH. destruct Hs as [|l1 l2 r e s' Hl Hfb Hu].
  - destruct Hok as [O1 O2 O3 O4 O5]. split; simpl; try done. intros Hst Hlt. destruct (O4 Hst Hlt) as [C1 C2 C3 C4 C5 C6].
    split; try done. apply Forall_app_2; [done|]. constructor; done.
  - destruct (timeout_update_spec _ _ _ _ _ Hok Hl Hfb) as (s1 & Hs1 & Hok1). rewrite Hu in Hs1. by injection Hs1 as ->.
Qed.

(** C38: in every run of uploads a timeout that was given up is zero, and until enough requests
    succeeded to decide there is none and no request in flight has one; a timeout is at most five seconds
    or that of a sample; and no answer dereferences the top of an empty queue. *)
Theorem upload_timeout_sound u : timeout_reachable u →
  (ts_stop_timeout (tr_stats u) = true → ts_upload_timeout_ms (tr_stats u) = 0) ∧
  (ts_stop_timeout (tr_stats u) = false → num (tr_times u) < ideal_connection_count →
     ts_upload_timeout_ms (tr_stats u) = 0 ∧ Forall (λ t, t = 0) (tr_sent u)) ∧
  (ts_upload_timeout_ms (tr_stats u) ≤ 5000 ∨ ∃ t, t ∈ tr_times u ∧ ts_upload_timeout_ms (tr_stats u) = t / 1000000) ∧
  (∀ l1 l2 r e, tr_sent u = l1 ++ fp_upload_timeout_ms r :: l2 →
     (e = Some AWS_ERROR_HTTP_RESPONSE_FIRST_BYTE_TIMEOUT → fp_upload_timeout_ms r ≠ 0) →
     ∃ s', aws_s3_client_update_upload_part_timeout (tr_stats u) r e = Ok s').
Proof using KL ML QL Hpush Hideal.
  intros Hok%timeout_reachable_ok. destruct (Hok) as [_ _ O3 O4 [_ O5]]. split_and!; [done| |done|].
  - intros Hst Hlt. by destruct (O4 Hst Hlt).
  - intros l1 l2 r e Hl Hfb. destruct (timeout_update_spec _ _ _ _ _ Hok Hl Hfb) as (s1 & Hs1 & _). by exists s1.
Qed.

(** when as many requests succeeded as the client has ideal connections, the timeout is given
    up if they took five seconds or more on average, and otherwise starts at one second or the 90th
    percentile of their times but the first, whichever is larger. *)
Theorem upload_timeout_starts u r s' : timeout_reachable u → ts_stop_timeout (tr_stats u) = false →
  num (tr_times u) + 1 = ideal_connection_count →
  aws_s3_client_update_upload_part_timeout (tr_stats u) r None = Ok s' →
  let times := tr_times u ++ [request_time_ns r] in
  if s_upload_timeout_threshold_ns <=? Z.min (zsum id times) U64_MAX / ideal_connection_count
  then ts_stop_timeout s' = true ∧ ts_upload_timeout_ms s' = 0
  else ts_stop_timeout s' = false ∧ ∃ p, is_p90 times p ∧ ts_upload_timeout_ms s' = Z.max (p / 1000000) 1000.
Proof using KL ML QL Hpush Hideal.
  intros Hok%timeout_reachable_ok Hst Hn Hu. destruct u as [s sent times]. simpl in *.
  destruct (update_success s sent times r Hok Hst) as (s1 & Hs1 & _ & Hd). rewrite Hu in Hs1. injection Hs1 as ->.
  apply Hd. by rewrite num_snoc.
Qed.
End timeout.

(** * Examples *)

Module TimeoutDemo.
#[local] Existing Instances aws_math_ref aws_math_ref_laws.
#[local] Instance clock_ref : AwsClock := {|
  aws_timestamp_convert n u v :=
    if per_second u <=? per_second v then Z.min U64_MAX (n * (per_second v / per_second u))
    else n / (per_second u / per_second v);
|}.
#[local] Instance clock_ref_laws : AwsClockLaws clock_ref.
Proof.
  split; intros n u v Hn Huv; simpl.
  - by rewrite (proj2 (Z.leb_le _ _)).
  - by rewrite (proj2 (Z.leb_gt _ _)).
Qed.
#[local] Instance queue_ref : AwsPriorityQueue Z id := sorted_pq id.
#[local] Instance queue_ref_laws : AwsPriorityQueueLaws Z id queue_ref := sorted_pq_laws id.

Lemma queue_grows (q : pq Z id) t : is_Some (aws_priority_queue_push q t).
Proof. by eexists. Qed.

(** A request that took so many milliseconds and was sent without a timeout. *)
Definition took (ms : Z) : finished_part := mkFinished 0 0 (ms * 1000000) (ms * 1000000) 0.

Lemma sends n u : ts_upload_timeout_ms (tr_stats u) = 0 → rtc (timeout_step 10) u (u <| tr_sent ::= λ l, l ++ replicate n 0 |>).
Proof.
  revert u. induction n as [|n IH]; intros [s l t] Hu; simpl in *; [rewrite app_nil_r; done|].
  eapply rtc_l; [apply part_sent|]. simpl. rewrite Hu. pose proof (IH (mkRun s (l ++ [0]) t) Hu) as Hr. simpl in Hr.
  by rewrite <-app_assoc in Hr.
Qed.

(** Requests that succeed one after the other. *)
Fixpoint answers (s : timeout_stats) (l : list Z) : option timeout_stats :=
  match l with
  | [] => Some s
  | ms :: l =>
      if ts_stop_timeout s then None else
      match aws_s3_client_update_upload_part_timeout 10 s (took ms) None with Ok s' => answers s' l | _ => None end
  end.

Lemma finishes l : ∀ s s' sent times, answers s l = Some s' →
  rtc (timeout_step 10) (mkRun s (replicate (length l) 0 ++ sent) times)
    (mkRun s' sent (times ++ (request_time_ns ∘ took <$> l))).
Proof.
  induction l as [|ms l IH]; simpl; intros s s' sent times Ha; [injection Ha as ->; rewrite app_nil_r; done|].
  destruct (ts_stop_timeout s) eqn:Hst; [done|].
  destruct (aws_s3_client_update_upload_part_timeout 10 s (took ms) None) as [s1| |] eqn:Hu; [|done..].
  eapply rtc_l; [by apply (part_finished 10 (mkRun s (0 :: replicate (length l) 0 ++ sent) times) [] (replicate (length l) 0 ++ sent) (took ms) None s1)|].
  unfold log_time. simpl. rewrite Hst. pose proof (IH s1 s' sent (times ++ [request_time_ns (took ms)]) Ha) as Hr.
  by rewrite <-app_assoc in Hr.
Qed.

(** Nine requests that took from 1.1 to 1.9 seconds, the slowest first, and one in flight. *)
Definition nine : list Z := [1900; 1100; 1200; 1300; 1400; 1500; 1600; 1700; 1800].
Definition after_nine : timeout_run :=
  mkRun (default timeout_init (answers timeout_init nine)) [0] (request_time_ns ∘ took <$> nine).

Lemma answers_some (o : option timeout_stats) : (if o then true else false) = true → o = Some (default timeout_init o).
Proof. by destruct o. Qed.

Lemma nine_reachable : timeout_reachable 10 after_nine.
Proof.
  unfold timeout_reachable, after_nine. etransitivity; [apply (sends 10); reflexivity|].
  apply (finishes nine _ _ [0] []). apply answers_some. vm_compute. reflexivity.
Qed.

(** The tenth request succeeds: the timeout is 1.8 seconds, the largest sample but the first. *)
Definition tenth : timeout_stats := default timeout_init (answers (tr_stats after_nine) [1000]).

Lemma tenth_answer : aws_s3_client_update_upload_part_timeout 10 (tr_stats after_nine) (took 1000) None = Ok tenth.
Proof.
  assert (∀ o, (if answers o [1000] then true else false) = true →
    aws_s3_client_update_upload_part_timeout 10 o (took 1000) None = Ok (default timeout_init (answers o [1000]))) as Hg.
  { intros o. unfold answers. destruct (ts_stop_timeout o); [done|].
    by destruct (aws_s3_client_update_upload_part_timeout 10 o (took 1000) None). }
  apply Hg. vm_compute. reflexivity.
Qed.

Lemma first_sample_ignored : ts_upload_timeout_ms tenth = 1800 ∧ 1900 ∈ nine.
Proof. split; [vm_compute; reflexivity|]. unfold nine. set_solver. Qed.

Lemma upload_timeout_sound_witness : ∃ s', aws_s3_client_update_upload_part_timeout 10 (tr_stats after_nine) (took 1000) None = Ok s'.
Proof.
  destruct (upload_timeout_sound 10 queue_grows ltac:(lia) after_nine nine_reachable) as (_ & _ & _ & Hu).
  apply (Hu [] [] (took 1000) None); [vm_compute; reflexivity|discriminate].
Defined.

Lemma upload_timeout_starts_witness : ts_stop_timeout tenth = false ∧
  ∃ p, is_p90 10 (tr_times after_nine ++ [request_time_ns (took 1000)]) p ∧ ts_upload_timeout_ms tenth = Z.max (p / 1000000) 1000.
Proof.
  exact (upload_timeout_starts 10 queue_grows ltac:(lia) after_nine (took 1000) tenth nine_reachable
    ltac:(vm_compute; reflexivity) ltac:(vm_compute; reflexivity) tenth_answer).
Defined.
End TimeoutDemo.
