(* ===== verification/ResumeToken.v ===== *)
(** Resume tokens: how they are made and read (source/s3_client.c), the token of a download
    (source/s3_auto_ranged_get.c), and what a token says of the operation that it comes from. *)

From Stdlib Require Import Init.Byte String.
From S2P Require Import Prelude AwsCommon ByteCursor HttpHeaders HttpMessage Checksums ChecksumContext Listing BodyStream.
From S2P Require Import PriorityQueue PartMath Tracking Delivery DeliveryInv DeliveryOrder DeliveryEvent.
From S2P Require Import AutoRangedGet GetDownload GetDownloadInv GetProps.
From S2P Require Import AutoRangedPut PutSystem PutInv PutData PutUpload PutProps.

(** * Tokens *)

(** [struct aws_s3_meta_request_resume_token], all of it. *)
Record meta_token := mkMetaToken {
  mt_part_size : Z;
  mt_total_num_parts : Z;
  mt_type : meta_request_type;
  mt_multipart_upload_id : option (list byte);
  mt_num_parts_completed : Z;
  mt_etag : option (list byte);
  mt_version_id : option (list byte);
  mt_s3_object_last_modified : option (list byte);
  mt_continuous_downloaded_bytes : Z;
  mt_total_downloaded_bytes : Z;
  mt_object_range_start : Z;
  mt_object_range_end : Z;
  mt_object_size : Z;
  mt_file_last_modified_epoch_ns : Z;
}.
#[export] Instance meta_token_eta : Eta meta_token := λ t,
  mkMetaToken (mt_part_size t) (mt_total_num_parts t) (mt_type t) (mt_multipart_upload_id t) (mt_num_parts_completed t)
    (mt_etag t) (mt_version_id t) (mt_s3_object_last_modified t) (mt_continuous_downloaded_bytes t)
    (mt_total_downloaded_bytes t) (mt_object_range_start t) (mt_object_range_end t) (mt_object_size t)
    (mt_file_last_modified_epoch_ns t).

Definition aws_s3_meta_request_resume_token_new : meta_token :=
  mkMetaToken 0 0 TYPE_DEFAULT None 0 None None None 0 0 0 0 0 0.

(** [struct aws_s3_upload_resume_token_options] *)
Record upload_token_options := mkUploadTokenOptions {
  uo_upload_id : list byte;
  uo_part_size : Z;
  uo_total_num_parts : Z;
  uo_num_parts_completed : Z;
}.

Definition aws_s3_meta_request_resume_token_new_upload (o : upload_token_options) : result aws_error meta_token :=
  if SIZE_MAX <? uo_part_size o then Failure AWS_ERROR_OVERFLOW_DETECTED
  else
    Success (aws_s3_meta_request_resume_token_new
      <| mt_multipart_upload_id := Some (uo_upload_id o) |> <| mt_part_size := uo_part_size o |>
      <| mt_total_num_parts := uo_total_num_parts o |> <| mt_num_parts_completed := uo_num_parts_completed o |>
      <| mt_type := TYPE_PUT_OBJECT |>).

Definition aws_s3_meta_request_resume_token_upload_id (t : meta_token) : list byte :=
  if bool_decide (mt_type t = TYPE_PUT_OBJECT) then default [] (mt_multipart_upload_id t) else [].
Definition aws_s3_meta_request_resume_token_etag (t : meta_token) : list byte := default [] (mt_etag t).
Definition aws_s3_meta_request_resume_token_version_id (t : meta_token) : list byte := default [] (mt_version_id t).
Definition aws_s3_meta_request_resume_token_s3_object_last_modified (t : meta_token) : list byte :=
  default [] (mt_s3_object_last_modified t).

(** The fields that an upload reads. *)
Definition upload_fields (t : meta_token) : resume_token :=
  mkToken (mt_type t) (mt_multipart_upload_id t) (mt_part_size t) (mt_total_num_parts t) (mt_num_parts_completed t).

(** The token of an upload: its fields, over a new one. *)
Definition token_of_upload (t : resume_token) : meta_token :=
  aws_s3_meta_request_resume_token_new <| mt_type := token_type t |>
    <| mt_multipart_upload_id := token_multipart_upload_id t |> <| mt_part_size := token_part_size t |>
    <| mt_total_num_parts := token_total_num_parts t |> <| mt_num_parts_completed := token_num_parts_completed t |>.

(** What a caller persists of a token of an upload, with the getters. *)
Definition persisted (t : meta_token) : upload_token_options :=
  mkUploadTokenOptions (aws_s3_meta_request_resume_token_upload_id t) (mt_part_size t) (mt_total_num_parts t)
    (mt_num_parts_completed t).

Section download.
Context `{Q1 : !AwsPriorityQueue s3_request part_number}.
Context `{Q2 : !AwsPriorityQueue delivery_tracking_record track_part_number}.

(** [etag] and [last_modified] are what the first response said. *)
Definition s_build_download_resume_token_synced (etag last_modified : option (list byte)) (m : get_meta_request) : meta_token :=
  let g := get_data m in
  let t := aws_s3_meta_request_resume_token_new <| mt_type := TYPE_GET_OBJECT |> <| mt_part_size := part_size g |>
             <| mt_total_num_parts := total_num_parts g |> in
  let t := if object_range_known g && negb (object_range_empty g)
           then t <| mt_object_range_start := object_range_start g |> <| mt_object_range_end := object_range_end g |>
                  <| mt_object_size := object_size g |> else t in
  t <| mt_num_parts_completed := num_parts_successful g |> <| mt_etag := etag |>
    <| mt_s3_object_last_modified := last_modified |>
    <| mt_continuous_downloaded_bytes := num_bytes_delivered (prefix (get_delivery m)) |>
    <| mt_total_downloaded_bytes := num_bytes_delivered_total (prefix (get_delivery m)) |>.
End download.

(** * Uploads *)

Section uploads.
Context `{B : !AwsByteCursor} `{H : !AwsHttpHeaders} `{D : !AwsDigest} `{X : !AwsXml} `{St : !AwsStreams} `{!AwsStreamsLaws St}.
Context `{M : !AwsMath} `{!AwsMathLaws M}.
Context {Q1 : AwsPriorityQueue s3_request part_number}.
Context {Q2 : AwsPriorityQueue delivery_tracking_record track_part_number}.
Context (accept : list (Z * list byte) → Z → list byte → option aws_error).
Context (checksum_update : list byte → list byte → option aws_error).
Context (c : put_config) (dc : delivery_config) (content : list byte) (Hset : put_setting c).

Notation upload_reachable := (upload_reachable accept checksum_update c dc content).

(** A token that was persisted field by field is the token again. *)
Lemma token_persists (t : resume_token) id : token_type t = TYPE_PUT_OBJECT → token_multipart_upload_id t = Some id →
  uint 64 (token_part_size t) →
  aws_s3_meta_request_resume_token_new_upload (persisted (token_of_upload t)) = Success (token_of_upload t).
Proof.
  intros Ht Hid [_ Hp]. destruct t as [type i p n k]. simpl in *. subst type i.
  unfold aws_s3_meta_request_resume_token_new_upload. simpl. rewrite (proj2 (Z.ltb_ge _ _)) by machine. done.
Qed.

(** A token that is reported with an error describes an upload that does not exist: it could not be
    created, it was completed, or it was aborted before the token was built. *)
Lemma failed_upload_token u t e : upload_reachable u → up_finished u = true →
  finish_result (up_delivery u) = Some (Some e) → e ≠ AWS_ERROR_S3_PAUSED → e ≠ AWS_ERROR_S3_RESUME_FAILED →
  s_s3_auto_ranged_put_build_resume_token_synced c (up_put u) = Some t →
  token_multipart_upload_id t = None ∨ abort_multipart_upload_completed (up_put u) = true ∨
  complete_multipart_upload_completed (up_put u) = true ∧ complete_multipart_upload_error_code (up_put u) = None.
Proof using Type*.
  intros Hok%upload_reachable_ok Hfin Hfr He1 He2 Ht; [|done].
  destruct (fl_finished _ _ _ _ _ _ (up_flags _ _ _ Hok) Hfin) as (_ & Hw & _). rewrite Hfr in Hw.
  unfold s_s3_auto_ranged_put_build_resume_token_synced in Ht. destruct (_ || _); [done|]. injection Ht as <-. simpl.
  destruct Hw as [?|[?|[?|[[= ?]|[[= ?]|[? _]]]]]]; auto; done.
Qed.
End uploads.

(** * Downloads *)

Section downloads.
Context `{Q1 : !AwsPriorityQueue s3_request part_number} `{!AwsPriorityQueueLaws s3_request part_number Q1}.
Context `{Q2 : !AwsPriorityQueue delivery_tracking_record track_part_number}.
Context `{M : !AwsMath} `{!AwsMathLaws M}.
Context (accept : list (Z * list byte) → Z → list byte → option aws_error).
Context (checksum_update : list byte → list byte → option aws_error).
Context (derive_aligned_buffer_size : Z → Z) (c : get_config) (dc : delivery_config).
Context (object : list byte) (stored least : Z).
Context (Hset : setting derive_aligned_buffer_size c dc object stored least).
Context (Hsink : ∀ base origin resolved, sink dc = RecvFile base origin resolved → uint 64 base ∧ uint 64 origin).

Notation system_reachable := (system_reachable accept checksum_update derive_aligned_buffer_size c dc object stored).
Notation system_step := (system_step accept checksum_update derive_aligned_buffer_size c dc object stored).
Notation phase := (phase c dc object least).

(** ** The counters fit their type *)

Definition counters_fit (d : delivery) : Prop :=
  uint 64 (num_bytes_delivered (prefix d)) ∧ uint 64 (num_bytes_delivered_total (prefix d)).

Lemma fail_prefix (d : delivery) e : prefix (aws_s3_meta_request_set_fail_synced d e) = prefix d.
Proof. unfold aws_s3_meta_request_set_fail_synced. by destruct (finish_result d). Qed.

Lemma event_prefix (d : delivery) ev : prefix (aws_s3_meta_request_add_event_for_delivery_synced d ev) = prefix d.
Proof. unfold aws_s3_meta_request_add_event_for_delivery_synced. destruct ev; by case_match. Qed.

Lemma window_prefix (d : delivery) bytes : prefix (aws_s3_meta_request_increment_read_window dc d bytes) = prefix d.
Proof. unfold aws_s3_meta_request_increment_read_window. case_match; [done|]. by rewrite event_prefix. Qed.

Lemma stream_ready_prefix fuel : ∀ d : delivery, prefix (stream_ready fuel d) = prefix d.
Proof.
  induction fuel as [|fuel IH]; intros d; simpl; [done|].
  destruct (s_s3_meta_request_body_streaming_pop_next_synced d) as [[r d1]|] eqn:Hp; [|done]. rewrite IH. simpl. rewrite event_prefix.
  unfold s_s3_meta_request_body_streaming_pop_next_synced in Hp.
  destruct (aws_priority_queue_top _); [|done]. simpl in Hp. case_match; [done|].
  destruct (aws_priority_queue_pop _) as [[r1 q]|]; [|done]. by injection Hp as <- <-.
Qed.

Lemma stream_prefix c' (d : delivery) r : prefix (aws_s3_meta_request_stream_response_body_synced c' d r) = prefix d.
Proof.
  unfold aws_s3_meta_request_stream_response_body_synced. destruct (out_of_order_delivery c').
  - case_match; [done|]. by rewrite event_prefix.
  - rewrite stream_ready_prefix. unfold s_s3_meta_request_body_streaming_push_synced. by case_match.
Qed.

Lemma sink_prefix (d : delivery) body start : prefix (s_deliver_body_to_sink accept dc d body start).2 = prefix d.
Proof.
  unfold s_deliver_body_to_sink, deliver_body_to_file, open_window. destruct (sink dc) as [|base origin resolved|].
  - cbn [snd]. by destruct (enable_read_backpressure dc); [rewrite window_prefix|].
  - destruct (s_s3_recv_file_offset _ _ _ _); [|done]. case_match; [done|]. cbn [snd].
    by destruct (enable_read_backpressure dc); [rewrite window_prefix|].
  - by case_match.
Qed.

Lemma task_event_prefix (d d' : delivery) : task_event accept checksum_update dc d = Ok d' → prefix d' = prefix d.
Proof.
  unfold task_event. destruct (task d) as [t|]; [|by intros [= <-]]. destruct (io_event_delivery_array d) as [|ev evs]; [by intros [= <-]|].
  intros ([d1 t1] & Hh & Hd)%res_bind_Ok. injection Hd as <-. simpl. set (d0 := d <| io_event_delivery_array := evs |>) in Hh.
  assert (prefix d0 = prefix d) as <- by done. clearbody d0. unfold handle_event in Hh. destruct ev as [r k|k|].
  - case_match; [by injection Hh as <- _|]. apply res_bind_Ok in Hh as ([[body allowed] incomplete] & _ & Hh).
    case_match; [by injection Hh as <- _|]. injection Hh as Hh. unfold deliver_body in Hh.
    destruct (check_sequential _ _ _ _ _ _) as [e next]. destruct (feed_checksum _ _ _ _ _) as [e1 sum]. unfold deliver_unless_failed in Hh.
    destruct e1 as [e1|]; [by injection Hh as <- _|].
    pose proof (sink_prefix (d0 <| next_deliver_range_start := next |> <| running_sum := sum |>) body (part_range_start r +[64] k)) as Hs.
    destruct (s_deliver_body_to_sink _ _ _ _ _) as [e2 d2]. simpl in Hs. destruct e2; [|destruct incomplete]; by injection Hh as <- _.
  - by injection Hh as <- _.
  - apply res_bind_Ok in Hh as (? & _ & Hh). by injection Hh as <- _.
Qed.

Lemma record_completed_prefix l : out_of_order_delivery dc = false → ∀ d : delivery, prefix (record_completed dc d l) = prefix d.
Proof.
  intros Ho. induction l as [|x l IH]; intros d; simpl; [done|]. rewrite Ho, IH. unfold mark_or_fail. case_match; [done|].
  apply fail_prefix.
Qed.

Lemma task_end_fit (d d' : delivery) : task_end dc d = Ok d' → counters_fit d → counters_fit d'.
Proof using Hset.
  pose proof (set_ordered _ _ _ _ _ _ Hset) as Ho. unfold task_end. destruct (task d) as [t|]; [|by intros [= <-]].
  cbv zeta. set (d0 := match error_code t with Some _ => _ | None => _ end).
  assert (prefix d0 = prefix d) as H0 by (subst d0; destruct (error_code t); [by rewrite fail_prefix|done]).
  intros (d1 & Hq & Hd)%res_bind_Ok Hfit. injection Hd as <-. rewrite Ho. unfold counters_fit in *. simpl.
  rewrite record_completed_prefix by done. simpl.
  assert (prefix d1 = prefix d) as ->.
  { rewrite <-H0. unfold requeue_incomplete in Hq. destruct (incomplete_deliver_events t); [by injection Hq as <-|].
    apply res_bind_Ok in Hq as (? & _ & Hq). injection Hq as <-. case_match; [by rewrite event_prefix|done]. }
  split; by apply wrap_uint.
Qed.

Lemma io_step_fit (d d' : delivery) : io_step accept checksum_update dc d d' → counters_fit d → counters_fit d'.
Proof using Hset Hsink.
  destruct 1; intros Hfit; try (by apply (task_end_fit d)); unfold counters_fit.
  - by rewrite window_prefix.
  - by rewrite fail_prefix.
  - by rewrite event_prefix.
  - by rewrite event_prefix.
  - match goal with Hb : task_begin _ = _ |- _ => unfold task_begin in Hb; apply res_bind_Ok in Hb as (? & _ & Hb); injection Hb as <- end. done.
  - by rewrite (task_event_prefix d).
Qed.

Lemma update_fit conservative m work request m' :
  s_s3_auto_ranged_get_update c conservative m = (work, request, m') → counters_fit (get_delivery m) → counters_fit (get_delivery m').
Proof.
  unfold s_s3_auto_ranged_get_update. destruct (update_work _ _ _ _) as [[work' request'] g']. destruct (_ || _); [by intros [= _ _ <-]|].
  intros [= _ _ <-]. unfold counters_fit. simpl. unfold update_finish, aws_s3_meta_request_set_success_synced. cbv zeta.
  set (d1 := match finish_result (get_delivery m) with Some _ => _ | None => _ end).
  assert (prefix d1 = prefix (get_delivery m)) as <- by (subst d1; repeat case_match; simpl; rewrite ?fail_prefix; done).
  by destruct (finish_result d1).
Qed.

Lemma response_fit m r resp :
  counters_fit (get_delivery m) →
  counters_fit (get_delivery (s_s3_auto_ranged_get_request_finished derive_aligned_buffer_size c dc m r resp)).
Proof.
  unfold counters_fit. intros Hfit. set (m' := s_s3_auto_ranged_get_request_finished _ _ _ _ _ _).
  assert (prefix (get_delivery m') = prefix (get_delivery m)) as ->; [|done]. subst m'.
  unfold s_s3_auto_ranged_get_request_finished.
  destruct (if discovers_object_size r then _ else _) as [[found e] g].
  set (x := match found with Some f => _ | None => _ end).
  assert (prefix (get_delivery x.2) = prefix (get_delivery m)) as Hx.
  { subst x. destruct found as [f|]; [|done]. unfold record_discovery.
    repeat case_match; simplify_eq/=; done. }
  destruct x as [e1 m1]. cbn [snd] in Hx. cbv zeta.
  set (m2 := finish_by_type _ _ _ _ _ _).
  assert (prefix (get_delivery m2) = prefix (get_delivery m1)) as H2.
  { subst m2. unfold finish_by_type, part_finished. repeat case_match; simpl; rewrite ?stream_prefix, ?event_prefix; done. }
  rewrite <-Hx, <-H2. clearbody m2. destruct e1 as [e1|]; cbv zeta; case_match; simpl; rewrite ?fail_prefix; done.
Qed.

Lemma system_fit g w st : system_reachable g w st → counters_fit (get_delivery (meta st)).
Proof using Hset Hsink.
  unfold system_reachable. set (st0 := mkSystem _ _ _). assert (counters_fit (get_delivery (meta st0))) as H0 by done.
  clearbody st0. induction 1 as [|st0 st1 st Hstep _ IH]; [done|]. apply IH. clear IH.
  destruct Hstep as [cons work request m Hf Hup|before r after resp Hf Hin Hh|d Hf Hio]; simpl.
  - by eapply update_fit.
  - by apply response_fit.
  - by eapply io_step_fit.
Qed.

(** ** The token of a download *)

Lemma slice_split s n e : 0 ≤ s → 0 ≤ n ≤ body_len (slice object s e) →
  take (Z.to_nat n) (slice object s e) ++ slice object (s + n) e = slice object s e.
Proof.
  intros Hs Hn. rewrite <-(take_drop (Z.to_nat n) (slice object s e)) at 2. f_equal. unfold slice in *.
  rewrite skipn_firstn_comm, drop_drop. f_equal; [lia|]. f_equal. lia.
Qed.

(** What the sink of a download has got, at any time. *)
Lemma sunk_of_range g d inflight : phase g d inflight →
  ∃ n, 0 ≤ n ≤ body_len (slice object (requested_range object c).1 (requested_range object c).2) ∧
    (0 < n → 0 ≤ (requested_range object c).1) ∧
    sunk_bytes d = take (Z.to_nat n) (slice object (requested_range object c).1 (requested_range object c).2).
Proof using Hset.
  intros [Hst|Hst].
  - exists 0. split; [unfold body_len; lia|]. split; [lia|]. simpl. destruct (ding_quiet _ _ _ _ _ _ Hst) as [Hinv Hrec].
    unfold received in Hrec. apply app_nil in Hrec as [Hs _].
    pose proof (content_prefix _ _ (inv_content _ _ _ Hinv)) as Hp. change (sunk_bytes d `prefix_of` streamed_bytes d) in Hp.
    unfold streamed_bytes in Hp. rewrite Hs in Hp. by apply prefix_nil_inv in Hp.
  - pose proof (down_discovered _ _ _ _ _ _ _ Hst) as Hdisc. rewrite (disc_range _ _ _ _ Hdisc). cbn [fst snd].
    pose proof (content_prefix _ _ (inv_content _ _ _ (down_inv _ _ _ _ _ _ _ Hst))) as Hp.
    pose proof (down_received _ _ _ _ _ _ _ Hst) as [Hrec _]%list.Forall_app.
    pose proof (inv_order _ _ _ (down_inv _ _ _ _ _ _ _ Hst)) as Hord. pose proof (order_next _ _ Hord) as Hn.
    assert (streamed_bytes d `prefix_of` slice object (object_range_start g) (object_range_end g)) as Hq.
    { unfold streamed_bytes. rewrite (received_bodies object g), (order_streamed _ _ Hord) by done.
      rewrite <-(parts_bytes derive_aligned_buffer_size c dc object stored least Hset g Hdisc).
      replace (total_num_parts g) with ((next_streaming_part d - 1) + (total_num_parts g - (next_streaming_part d - 1))) by lia.
      rewrite (seqZ_app 1 (next_streaming_part d - 1)), fmap_app, concat_app by lia. by eexists. }
    destruct (transitivity Hp Hq) as [rest Heq]. exists (body_len (sunk_bytes d)). rewrite Heq.
    split; [unfold body_len; rewrite length_app; lia|]. split; [intros _; apply (disc_bounds _ _ _ _ Hdisc)|].
    unfold body_len. rewrite Nat2Z.id. by rewrite take_app_length.
Qed.

Lemma phase_totals g d inflight : phase g d inflight → task d = None → counters_fit d →
  num_bytes_delivered (prefix d) = wrap 64 (body_len (sunk_bytes d)) ∧
  num_bytes_delivered_total (prefix d) = wrap 64 (body_len (sunk_bytes d)).
Proof.
  intros Hst Ht [Hf1 Hf2]. assert (totals d) as [H1 H2].
  { destruct Hst as [Hst|Hst]; [exact (inv_totals _ _ _ (proj1 (ding_quiet _ _ _ _ _ _ Hst)))|].
    exact (inv_totals _ _ _ (down_inv _ _ _ _ _ _ _ Hst)). }
  unfold task_bytes in *. rewrite Ht, Z.add_0_r, wrap_small in H1, H2 by done. done.
Qed.

(** The last update of a download. *)
Lemma last_update conservative m request m' inflight : phase (get_data m) (get_delivery m) inflight →
  s_s3_auto_ranged_get_update c conservative m = (false, request, m') →
  ∃ g ks, phase g (get_delivery m) ks ∧ (get_data m' = g ∨ get_data m' = g <| did_validate := true |>) ∧
    sunk_bytes (get_delivery m') = sunk_bytes (get_delivery m) ∧ prefix (get_delivery m') = prefix (get_delivery m) ∧
    task (get_delivery m) = None.
Proof using Hset AwsPriorityQueueLaws0 AwsMathLaws0.
  intros Hst. unfold s_s3_auto_ranged_get_update. destruct (update_work _ _ _ _) as [[work req] g] eqn:Hwork.
  destruct (_ || _) eqn:Hidle; [done|]. apply orb_false_iff in Hidle as [-> Hidle]. cbv zeta. intros [= _ <-].
  exists g, (option_list req ++ inflight). cbn [get_data get_delivery].
  split; [by apply (update_work_phase derive_aligned_buffer_size c dc object stored least Hset (get_data m) _ conservative false)|].
  split; [destruct (_ =? _); auto|]. split; [|split; [|by eapply idle_task]].
  - unfold sunk_bytes, update_finish, aws_s3_meta_request_set_success_synced, aws_s3_meta_request_set_fail_synced. by repeat case_match.
  - unfold update_finish, aws_s3_meta_request_set_success_synced, aws_s3_meta_request_set_fail_synced. by repeat case_match.
Qed.

(** C10: a download with ordered delivery of an object that is not empty, when it is paused or fails, has a
    token that tells the truth: the bytes it counts are those that the sink has got, they are the first ones
    of the requested range, and a download of the range from there on, as a caller resumes it, completes them
    to the requested range.  Once the object is known the token has its range. *)
Theorem download_token_truthful g w st conservative request m etag last_modified : starts c least g w → system_reachable g w st →
  finished st = false → s_s3_auto_ranged_get_update c conservative (meta st) = (false, request, m) →
  let t := s_build_download_resume_token_synced etag last_modified m in
  let range := requested_range object c in
  body_len (sunk_bytes (get_delivery m)) = mt_continuous_downloaded_bytes t ∧
  mt_total_downloaded_bytes t = mt_continuous_downloaded_bytes t ∧
  sunk_bytes (get_delivery m) ++ slice object (range.1 + mt_continuous_downloaded_bytes t) range.2 = slice object range.1 range.2 ∧
  (object_range_known (get_data m) = true → object_range_empty (get_data m) = false →
   (mt_object_range_start t, mt_object_range_end t) = range).
Proof using All.
  intros Hs Hreach Hf Hup. cbv zeta. pose proof (set_object _ _ _ _ _ _ Hset).
  pose proof (system_phase accept checksum_update derive_aligned_buffer_size c dc object stored least Hset Hsink g w st Hs Hreach Hf) as Hst.
  pose proof (system_fit _ _ _ Hreach) as Hfit. destruct (last_update _ _ _ _ _ Hst Hup) as (g' & ks & Hst' & Hg & Hsunk & Hpre & Ht).
  destruct (phase_totals _ _ _ Hst' Ht Hfit) as [Hb1 Hb2]. destruct (sunk_of_range _ _ _ Hst') as (n & Hn & Hstart & Hbytes).
  assert (body_len (slice object (requested_range object c).1 (requested_range object c).2) ≤ body_len object).
  { unfold slice, body_len. rewrite length_take, length_drop. lia. }
  assert (body_len (sunk_bytes (get_delivery (meta st))) = n) as Hlen by (rewrite Hbytes; by apply body_len_take).
  unfold s_build_download_resume_token_synced. simpl. rewrite Hsunk, Hpre, Hb1, Hb2, Hlen, wrap_small by machine.
  split_and!; [done|done| |].
  - rewrite Hbytes. destruct (Z.eq_dec n 0) as [->|]; [by rewrite Z.add_0_r|]. apply slice_split; [apply Hstart; lia|done].
  - intros Hknown Hempty. rewrite Hknown, Hempty. simpl.
    assert (object_range_known g' = true ∧ object_range_start (get_data m) = object_range_start g' ∧
      object_range_end (get_data m) = object_range_end g') as (Hk & -> & ->) by (destruct Hg as [Hg|Hg]; by rewrite Hg in *).
    destruct Hst' as [Hd|Hd]; [by rewrite (ding_known _ _ _ _ _ _ Hd) in Hk|]. symmetry. apply (disc_range _ _ _ _ (down_discovered _ _ _ _ _ _ _ Hd)).
Qed.
End downloads.

(** * Examples *)

Module TokenDemo.
#[local] Existing Instances aws_math_ref aws_math_ref_laws sorted_pq sorted_pq_laws.

(** A download that stops when the first of its parts has been delivered. *)
Definition paused : system := GetDemo.go [OpUpdate; OpAnswer 0; OpBegin; OpEvent; OpEvent; OpEnd; OpCancel].

Lemma paused_reachable : system_reachable GetDemo.accept_all GetDemo.checksum_ok GetDemo.derive GetDemo.conf GetDemo.sink_conf
  GetDemo.object 7 GetDemo.start 0 paused.
Proof. apply GetDemo.go_reachable. vm_compute. reflexivity. Qed.

Definition last : get_meta_request := (GetDemo.update paused).2.

Lemma download_token_truthful_witness :
  let t := s_build_download_resume_token_synced None None last in
  mt_continuous_downloaded_bytes t = 2 ∧ sunk_bytes (get_delivery last) ++ slice GetDemo.object (1 + 2) 6 = slice GetDemo.object 1 6.
Proof.
  pose proof (download_token_truthful _ _ _ _ _ _ _ _ GetDemo.demo_setting GetDemo.demo_sink GetDemo.start 0 paused false None
    last None None GetDemo.demo_starts paused_reachable ltac:(vm_compute; reflexivity) ltac:(vm_compute; reflexivity)) as (_ & _ & Ht & _).
  split; [vm_compute; reflexivity|exact Ht].
Defined.
End TokenDemo.
