(* ===== verification/Finish.v ===== *)
(** The end of a meta request (source/s3_meta_request.c): results, cancellation and pausing, and
    aws_s3_meta_request_finish_default with the callbacks it makes, in their order. *)

From Stdlib Require Import Init.Byte String.
From S2P Require Import Prelude AwsCommon ByteCursor HttpMessage Checksums PriorityQueue Tracking Delivery AutoRangedPut.
From S2P Require Import Counting MetaInit ResumeToken.

(** * Results *)

(** The part of a request that failed which a result keeps; the body is there if it has a capacity. *)
Record failed_request := mkFailed {
  fr_response_status : Z;
  fr_response_headers : option http_headers;
  fr_response_body : option (list byte);
  fr_operation_name : list byte;
}.

(** [struct aws_s3_meta_request_result] *)
Record meta_result := mkMetaResult {
  mr_error_response_headers : option http_headers;
  mr_error_response_body : option (list byte);
  mr_error_response_operation_name : option (list byte);
  mr_response_status : Z;
  mr_did_validate : bool;
  mr_validation_algorithm : checksum_algorithm;
  mr_error_code : option aws_error;
}.
#[export] Instance meta_result_eta : Eta meta_result := λ r,
  mkMetaResult (mr_error_response_headers r) (mr_error_response_body r) (mr_error_response_operation_name r)
    (mr_response_status r) (mr_did_validate r) (mr_validation_algorithm r) (mr_error_code r).

Definition result_zero : meta_result := mkMetaResult None None None 0 false AWS_SCA_NONE None.

Definition aws_s3_meta_request_result_setup (r : meta_result) (failed : option failed_request) (response_status : Z)
    (error_code : option aws_error) : meta_result :=
  let r :=
    match failed with
    | Some f =>
        let r := match fr_response_headers f with Some h => r <| mr_error_response_headers := Some h |> | None => r end in
        let r := match fr_response_body f with Some b => r <| mr_error_response_body := Some b |> | None => r end in
        r <| mr_error_response_operation_name := Some (fr_operation_name f) |>
    | None => r
    end in
  r <| mr_response_status := response_status |> <| mr_error_code := error_code |>.

(** * State *)

(** What is done to the outside, in its order.  Callbacks of the caller and HTTP streams are known
    by numbers. *)
Inductive finish_action :=
| ActScheduleWork
| ActCancelStream (stream : Z) (e : aws_error)
| ActFailReservation (request : Z) (e : aws_error)
| ActFailWriteReservation (e : aws_error)
| ActWaker (waker : Z)
| ActCloseDescriptors
| ActDeleteFile
| ActErrorToken (token : option meta_token) (e : aws_error)
| ActPaused (callback : Z) (token : option meta_token) (e : option aws_error)
| ActReleaseRequest (r : s3_request)
| ActHeaders (headers : http_headers) (status : Z)
| ActReleaseSources
| ActFinish (result : meta_result)
| ActReleaseEndpoint.

Section finish.
Context `{Q1 : !AwsPriorityQueue s3_request part_number} `{D : !AwsDigest}.

(** The fields of [struct aws_s3_meta_request] that its end uses, the receive file with its content, and
    what was done.  A callback of the caller is set or not; [fm_waker] and [fm_pause_complete_callback]
    are the numbers of theirs. *)
Record fin_meta := mkFinMeta {
  fm_finished : bool;
  fm_finish_result_set : bool;
  fm_finish_result : meta_result;
  fm_async_pause_requested : bool;
  fm_pause_complete_callback : option Z;
  fm_pending_body_streaming_requests : pq s3_request part_number;
  fm_cancellable_http_streams : list Z;
  fm_pending_buffer_futures : list Z;
  fm_buffered_data_ticket_future : bool;
  fm_waker : option Z;
  fm_validate_response_checksum : bool;
  fm_checksum_combinable : bool;
  fm_combine_slots : list combine_slot;
  fm_running_response_sum : option s3_checksum;
  fm_response_header_checksum : list byte;
  fm_recv_filepath : bool;
  fm_recv_file_delete_on_failure : bool;
  fm_recv_file_finalized : bool;
  fm_recv_buffer_len : option Z;
  fm_recv_buffer_expected_len : Z;
  fm_headers_callback : bool;
  fm_on_error_resume_token : bool;
  fm_finish_callback : bool;
  fm_endpoint : bool;
  fm_file : option (list byte);
  fm_log : list finish_action;
}.
#[export] Instance fin_meta_eta : Eta fin_meta := λ m,
  mkFinMeta (fm_finished m) (fm_finish_result_set m) (fm_finish_result m) (fm_async_pause_requested m)
    (fm_pause_complete_callback m) (fm_pending_body_streaming_requests m) (fm_cancellable_http_streams m)
    (fm_pending_buffer_futures m) (fm_buffered_data_ticket_future m) (fm_waker m) (fm_validate_response_checksum m)
    (fm_checksum_combinable m) (fm_combine_slots m) (fm_running_response_sum m) (fm_response_header_checksum m)
    (fm_recv_filepath m) (fm_recv_file_delete_on_failure m) (fm_recv_file_finalized m) (fm_recv_buffer_len m)
    (fm_recv_buffer_expected_len m) (fm_headers_callback m) (fm_on_error_resume_token m) (fm_finish_callback m)
    (fm_endpoint m) (fm_file m) (fm_log m).

Implicit Types (m : fin_meta).

Definition act (l : list finish_action) m : fin_meta := m <| fm_log ::= λ k, k ++ l |>.

(** * Setting the result *)

(** The errors whose response is reported with the result. *)
Definition reports_response (e : aws_error) : bool :=
  bool_decide (e = AWS_ERROR_S3_INVALID_RESPONSE_STATUS) || bool_decide (e = AWS_ERROR_S3_NON_RECOVERABLE_ASYNC_ERROR) ||
  bool_decide (e = AWS_ERROR_S3_OBJECT_MODIFIED).

Definition set_fail_synced m (failed : option failed_request) (e : aws_error) : res fin_meta :=
  if fm_finish_result_set m then Ok m
  else
    let m := m <| fm_finish_result_set := true |> in
    match failed, reports_response e with
    | Some f, true =>
        Ok (m <| fm_finish_result ::= λ r, aws_s3_meta_request_result_setup r failed (fr_response_status f) (Some e) |>)
    | _, _ =>
        _ ← assert_fatal (negb (bool_decide (e = AWS_ERROR_S3_INVALID_RESPONSE_STATUS)));
        Ok (m <| fm_finish_result ::= λ r, aws_s3_meta_request_result_setup r None 0 (Some e) |>)
    end.

Definition set_success_synced m (response_status : Z) : fin_meta :=
  if fm_finish_result_set m then m
  else m <| fm_finish_result_set := true |>
         <| fm_finish_result ::= λ r, aws_s3_meta_request_result_setup r None response_status None |>.

(** * Cancelling and pausing *)

Definition aws_s3_meta_request_cancel_cancellable_requests_synced (e : aws_error) m : fin_meta :=
  act ((λ s, ActCancelStream s e) <$> fm_cancellable_http_streams m) m <| fm_cancellable_http_streams := [] |>.

Definition aws_s3_meta_request_cancel_pending_buffer_futures_synced (e : aws_error) m : fin_meta :=
  act ((λ r, ActFailReservation r e) <$> fm_pending_buffer_futures m) m.

Definition cancel_synced (e : aws_error) m : res fin_meta :=
  m ← set_fail_synced m None e;
  Ok (aws_s3_meta_request_cancel_pending_buffer_futures_synced e (aws_s3_meta_request_cancel_cancellable_requests_synced e m)).

Definition cancel m : res fin_meta :=
  m ← cancel_synced AWS_ERROR_S3_CANCELED m;
  Ok (act [ActScheduleWork] m).

(** [builds] tells whether the type of the meta request can build a token. *)
Definition aws_s3_meta_request_pause_async (builds : bool) (on_complete : Z) m : res (result aws_error fin_meta) :=
  if negb builds then Ok (Failure AWS_ERROR_UNSUPPORTED_OPERATION)
  else if fm_async_pause_requested m then Ok (Success (act [ActPaused on_complete None (Some AWS_ERROR_INVALID_STATE)] m))
  else
    m ← cancel_synced AWS_ERROR_S3_PAUSED
          (m <| fm_async_pause_requested := true |> <| fm_pause_complete_callback := Some on_complete |>);
    Ok (Success (act [ActScheduleWork] m)).

(** * The end *)

(** What other code answers: whether the type of the meta request can build a token and the token it builds, the time
    of the last change if the file can be opened again and asked for it, and the error that the callback for headers
    returns. *)
Record finish_env := mkFinishEnv {
  fe_build_resume_token : option (option meta_token);
  fe_last_modified : option Z;
  fe_headers_error : option aws_error;
}.

Record finish_locals := mkLocals {
  is_async_paused : bool;
  pause_callback : option Z;
  is_error : bool;
  l_token : option meta_token;
  release_request_list : list s3_request;
  pending_async_write_waker : option Z;
  l_finish_result : meta_result;
}.

(** The whole-object checksum: whether it does not match, and the result. *)
Definition check_whole_object m : bool * meta_result :=
  let r := fm_finish_result m in
  let '(validated, mismatch) :=
    match mr_error_code r with
    | None =>
        s_validate_meta_request_checksum_on_finish (fm_validate_response_checksum m) (fm_checksum_combinable m)
          (fm_combine_slots m) (fm_running_response_sum m) (fm_response_header_checksum m)
    | Some _ => (false, false)
    end in
  let r := match fm_running_response_sum m with
           | Some sum => if validated then r <| mr_did_validate := true |> <| mr_validation_algorithm := sum_algorithm sum |> else r
           | None => r
           end in
  let r := if mismatch then r <| mr_error_code := Some AWS_ERROR_S3_RESPONSE_CHECKSUM_MISMATCH |> else r in
  (mismatch, r).

Definition validate_on_finish m : bool * fin_meta :=
  let '(mismatch, r) := check_whole_object m in
  (mismatch, m <| fm_finish_result := r |> <| fm_running_response_sum := None |> <| fm_response_header_checksum := [] |>).

(** The loop that empties the queue of bodies; [fuel] bounds what it holds. *)
Fixpoint drain_streaming (fuel : nat) (q : pq s3_request part_number) : list s3_request * pq s3_request part_number :=
  match fuel, aws_priority_queue_pop q with
  | S fuel, Some (r, q) => let '(l, q) := drain_streaming fuel q in (r :: l, q)
  | _, _ => ([], q)
  end.

(** No token where the file is going to be deleted, nor where every byte has come and is wrong. *)
Definition build_token (env : finish_env) (paused error mismatch : bool) m : option meta_token :=
  let skip_error_token := (fm_recv_filepath m && fm_recv_file_delete_on_failure m) || mismatch in
  if paused || (error && fm_on_error_resume_token m && negb skip_error_token)
  then default None (fe_build_resume_token env) else None.

(** The critical section. *)
Definition finish_locked (env : finish_env) m : finish_locals * fin_meta :=
  let m := m <| fm_finished := true |> in
  let '(mismatch, m) := validate_on_finish m in
  let e := mr_error_code (fm_finish_result m) in
  let paused := fm_async_pause_requested m in
  let callback := if paused then fm_pause_complete_callback m else None in
  let error := negb paused && bool_decide (e ≠ None) && negb (bool_decide (e = Some AWS_ERROR_S3_PAUSED)) in
  let token := build_token env paused error mismatch m in
  let q := fm_pending_body_streaming_requests m in
  let '(released, q) := drain_streaming (length (pq_elems q)) q in
  let m := m <| fm_pending_body_streaming_requests := q |> in
  let '(waker, m) :=
    if fm_buffered_data_ticket_future m then (None, act [ActFailWriteReservation AWS_ERROR_S3_CANCELED] m)
    else (fm_waker m, m <| fm_waker := None |>) in
  (mkLocals paused callback error token released waker (fm_finish_result m), m <| fm_finish_result := result_zero |>).

(** The receive file: it is deleted after a failure, or its time goes to the token. *)
Definition finish_file (env : finish_env) (l : finish_locals) m : option meta_token * fin_meta :=
  let m := act [ActCloseDescriptors] m in
  if fm_recv_filepath m then
    let e := mr_error_code (l_finish_result l) in
    let delete_on_failure :=
      bool_decide (e ≠ None) && negb (bool_decide (e = Some AWS_ERROR_S3_PAUSED)) && fm_recv_file_delete_on_failure m in
    let token :=
      match l_token l, fe_last_modified env with
      | Some t, Some ns =>
          if negb delete_on_failure && bool_decide (fm_file m ≠ None)
          then Some (t <| mt_file_last_modified_epoch_ns := ns |>) else Some t
      | token, _ => token
      end in
    let m := if delete_on_failure then act [ActDeleteFile] (m <| fm_file := None |>) else m in
    (token, m <| fm_recv_file_finalized := true |>)
  else (l_token l, m).

Definition token_callbacks (l : finish_locals) (token : option meta_token) m : list finish_action :=
  match mr_error_code (l_finish_result l) with
  | Some e => if is_error l && fm_on_error_resume_token m then [ActErrorToken token e] else []
  | None => []
  end ++
  match pause_callback l with
  | Some callback => if is_async_paused l then [ActPaused callback token None] else []
  | None => []
  end.

(** The headers of the response that failed; the error of the callback becomes the result. *)
Definition finish_headers (env : finish_env) (r : meta_result) m : meta_result * fin_meta :=
  match mr_error_response_headers r with
  | Some headers =>
      if fm_headers_callback m then
        (match fe_headers_error env with Some e => r <| mr_error_code := Some e |> | None => r end,
         act [ActHeaders headers (mr_response_status r)] m <| fm_headers_callback := false |>)
      else (r, m)
  | None => (r, m)
  end.

(** The length of what was received goes to the buffer of the caller, and the result to the caller. *)
Definition finish_report (r : meta_result) m : fin_meta :=
  let m := act [ActReleaseSources] m in
  let m := match fm_recv_buffer_len m, mr_error_code r with
           | Some _, None => m <| fm_recv_buffer_len := Some (fm_recv_buffer_expected_len m) |>
           | _, _ => m
           end in
  let m := if fm_finish_callback m then act [ActFinish r] m else m in
  if fm_endpoint m then act [ActReleaseEndpoint] m <| fm_endpoint := false |> else m.

Definition aws_s3_meta_request_finish_default (env : finish_env) m : fin_meta :=
  if fm_finished m then m
  else
    let '(l, m) := finish_locked env m in
    let m := match pending_async_write_waker l with Some w => act [ActWaker w] m | None => m end in
    let '(token, m) := finish_file env l m in
    let m := act (token_callbacks l token m) m in
    let m := act (ActReleaseRequest <$> release_request_list l) m in
    let '(r, m) := finish_headers env (l_finish_result l) m in
    finish_report r m.

(** * Runs *)

(** What is done to a meta request: its result is set, it is cancelled or paused, and it is finished,
    by any thread and any number of times. *)
Inductive meta_op :=
| OpFail (failed : option failed_request) (e : aws_error)
| OpSuccess (response_status : Z)
| OpCancelled
| OpPause (builds : bool) (on_complete : Z)
| OpFinish (env : finish_env).

Definition meta_step (o : meta_op) m : res fin_meta :=
  match o with
  | OpFail failed e => set_fail_synced m failed e
  | OpSuccess status => Ok (set_success_synced m status)
  | OpCancelled => cancel m
  | OpPause builds id =>
      r ← aws_s3_meta_request_pause_async builds id m;
      Ok (match r with Success m' => m' | Failure _ => m end)
  | OpFinish env => Ok (aws_s3_meta_request_finish_default env m)
  end.

Fixpoint meta_run (ops : list meta_op) m : res fin_meta :=
  match ops with
  | [] => Ok m
  | o :: ops => m ← meta_step o m; meta_run ops m
  end.

(** A meta request that was just made. *)
Definition unfinished m : Prop :=
  fm_finished m = false ∧ fm_finish_result_set m = false ∧ fm_finish_result m = result_zero ∧
  fm_async_pause_requested m = false ∧ fm_pause_complete_callback m = None ∧ fm_log m = [].

Definition is_finish (o : meta_op) : bool := match o with OpFinish _ => true | _ => false end.
Definition is_pause (o : meta_op) : bool := match o with OpPause true _ => true | _ => false end.

(** The results that were reported, and how often a callback for a pause was called. *)
Definition reported (l : list finish_action) : list meta_result :=
  omap (λ a, match a with ActFinish r => Some r | _ => None end) l.
Definition calls_pause (id : Z) (a : finish_action) : bool := match a with ActPaused id' _ _ => id' =? id | _ => false end.
Definition paused_calls (id : Z) : list finish_action → Z := count (calls_pause id).

(** The first result that was set. *)
Fixpoint first_result (ops : list meta_op) : option aws_error :=
  match ops with
  | [] => None
  | OpFail _ e :: _ => Some e
  | OpSuccess _ :: _ => None
  | OpCancelled :: _ => Some AWS_ERROR_S3_CANCELED
  | OpPause true _ :: _ => Some AWS_ERROR_S3_PAUSED
  | _ :: ops => first_result ops
  end.

(** ** Before and after the end *)

(** What never changes. *)
Definition settings m :=
  (fm_validate_response_checksum m, fm_checksum_combinable m, fm_combine_slots m, fm_running_response_sum m,
   fm_response_header_checksum m, (fm_recv_filepath m, fm_recv_file_delete_on_failure m, fm_file m),
   (fm_headers_callback m, fm_on_error_resume_token m, fm_finish_callback m, fm_pending_body_streaming_requests m)).

(** An action of other operations than the end. *)
Definition quiet (a : finish_action) : Prop :=
  match a with ActScheduleWork | ActCancelStream _ _ | ActFailReservation _ _ | ActPaused _ None (Some _) => True | _ => False end.

Definition sets_result (o : meta_op) : bool := match o with OpPause false _ | OpFinish _ => false | _ => true end.

Record quiet_step (o : meta_op) m m' (acts : list finish_action) : Prop := {
  qs_log : fm_log m' = fm_log m ++ acts;
  qs_quiet : Forall quiet acts;
  qs_settings : settings m' = settings m;
  qs_finished : fm_finished m' = fm_finished m;
  qs_requested : fm_async_pause_requested m' = fm_async_pause_requested m || is_pause o;
  qs_callback : fm_pause_complete_callback m' =
    match o with OpPause true id => if fm_async_pause_requested m then fm_pause_complete_callback m else Some id
    | _ => fm_pause_complete_callback m end;
  qs_calls id : paused_calls id acts =
    match o with OpPause true id' => if fm_async_pause_requested m && (id' =? id) then 1 else 0 | _ => 0 end;
  qs_result : fm_finish_result_set m = true ∨ fm_finish_result m = result_zero →
    mr_error_code (fm_finish_result m') = if fm_finish_result_set m then mr_error_code (fm_finish_result m) else first_result [o];
  qs_set : fm_finish_result_set m' = fm_finish_result_set m || sets_result o;
  qs_same : sets_result o = false → fm_finish_result m' = fm_finish_result m;
}.

(** Setting a result changes nothing else, and the first one counts. *)
Definition with_result m (r : meta_result) : fin_meta := m <| fm_finish_result_set := true |> <| fm_finish_result := r |>.

Lemma set_fail_spec m failed e m' : set_fail_synced m failed e = Ok m' →
  ∃ r, m' = with_result m r ∧ mr_error_code r = if fm_finish_result_set m then mr_error_code (fm_finish_result m) else Some e.
Proof.
  unfold set_fail_synced. destruct (fm_finish_result_set m) eqn:Hset.
  - intros [= <-]. exists (fm_finish_result m). split; [|done]. unfold with_result. destruct m; simpl in *. by subst.
  - destruct failed as [f|], (reports_response e).
    + intros [= <-]. eexists. by split.
    + intros (? & _ & Hm)%res_bind_Ok. injection Hm as <-. eexists. by split.
    + intros (? & _ & Hm)%res_bind_Ok. injection Hm as <-. eexists. by split.
    + intros (? & _ & Hm)%res_bind_Ok. injection Hm as <-. eexists. by split.
Qed.

Lemma set_success_spec m status : ∃ r, set_success_synced m status = with_result m r ∧
  mr_error_code r = if fm_finish_result_set m then mr_error_code (fm_finish_result m) else None.
Proof.
  unfold set_success_synced. destruct (fm_finish_result_set m) eqn:Hset; [|eexists; by split].
  exists (fm_finish_result m). split; [|done]. unfold with_result. destruct m; simpl in *. by subst.
Qed.

Definition cancel_acts (e : aws_error) m : list finish_action :=
  ((λ s, ActCancelStream s e) <$> fm_cancellable_http_streams m) ++ ((λ r, ActFailReservation r e) <$> fm_pending_buffer_futures m).

Lemma cancel_acts_quiet e m : Forall quiet (cancel_acts e m) ∧ ∀ id, paused_calls id (cancel_acts e m) = 0.
Proof.
  unfold cancel_acts, paused_calls. split.
  - apply Forall_app_2; apply Forall_fmap, list.Forall_forall; done.
  - intros id. rewrite count_app, !count_fmap. simpl.
    assert (∀ l : list Z, count (λ _, false) l = 0) as Hz by (induction l; done). by rewrite !Hz.
Qed.

Lemma cancel_spec e m m' : cancel_synced e m = Ok m' →
  ∃ r, m' = act (cancel_acts e m) (with_result m r) <| fm_cancellable_http_streams := [] |> ∧
    mr_error_code r = if fm_finish_result_set m then mr_error_code (fm_finish_result m) else Some e.
Proof.
  intros (m1 & (r & -> & Hr)%set_fail_spec & Hm)%res_bind_Ok. injection Hm as <-. exists r. split; [|done].
  unfold aws_s3_meta_request_cancel_pending_buffer_futures_synced, aws_s3_meta_request_cancel_cancellable_requests_synced, act, cancel_acts.
  simpl. by rewrite app_assoc.
Qed.

(** A pause sets a result. *)
Definition pause_fails m : Prop := fm_async_pause_requested m = true → fm_finish_result_set m = true.

Lemma quiet_step_ex o m m' : is_finish o = false ∨ fm_finished m = true → pause_fails m → meta_step o m = Ok m' → ∃ acts, quiet_step o m m' acts.
Proof.
  intros Ho Hp. destruct o as [failed e|status| |builds id|env]; simpl.
  - intros (r & -> & Hr)%set_fail_spec. exists []. split; simpl; rewrite ?app_nil_r, ?orb_false_r, ?orb_true_r; try done.
  - intros [= <-]. destruct (set_success_spec m status) as (r & -> & Hr). exists [].
    split; simpl; rewrite ?app_nil_r, ?orb_false_r, ?orb_true_r; try done.
  - unfold cancel. intros (m1 & (r & -> & Hr)%cancel_spec & Hm)%res_bind_Ok. injection Hm as <-.
    destruct (cancel_acts_quiet AWS_ERROR_S3_CANCELED m) as [Hq Hc]. exists (cancel_acts AWS_ERROR_S3_CANCELED m ++ [ActScheduleWork]).
    split; simpl; rewrite ?orb_false_r, ?orb_true_r; try done.
    + by rewrite app_assoc.
    + apply Forall_app_2; [done|by repeat constructor].
    + intros id. unfold paused_calls in *. by rewrite count_app, Hc.
  - unfold aws_s3_meta_request_pause_async. destruct builds; simpl.
    2: { intros [= <-]. exists []. split; simpl; rewrite ?app_nil_r, ?orb_false_r; try done.
         intros [-> | ->]; [done|]. by destruct (fm_finish_result_set m). }
    destruct (fm_async_pause_requested m) eqn:Hreq; simpl.
    + intros [= <-]. specialize (Hp Hreq). exists [ActPaused id None (Some AWS_ERROR_INVALID_STATE)].
      split; simpl; rewrite ?Hp, ?Hreq; try done; [by repeat constructor|]. intros id0. by rewrite Z.add_0_r.
    + intros (m1 & (m2 & (r & -> & Hr)%cancel_spec & Hm)%res_bind_Ok & Hm')%res_bind_Ok. injection Hm as <-. injection Hm' as <-.
      set (m0 := m <| fm_async_pause_requested := true |> <| fm_pause_complete_callback := Some id |>) in *.
      destruct (cancel_acts_quiet AWS_ERROR_S3_PAUSED m0) as [Hq Hc]. exists (cancel_acts AWS_ERROR_S3_PAUSED m0 ++ [ActScheduleWork]).
      split; simpl; rewrite ?Hreq, ?orb_true_r; try done.
      * by rewrite app_assoc.
      * apply Forall_app_2; [done|by repeat constructor].
      * intros id'. unfold paused_calls in *. by rewrite count_app, Hc.
  - destruct Ho as [|Hf]; [done|]. intros [= <-]. unfold aws_s3_meta_request_finish_default. rewrite Hf. exists [].
    split; simpl; rewrite ?app_nil_r, ?orb_false_r; try done. intros [-> | ->]; [done|]. by destruct (fm_finish_result_set m).
Qed.

Lemma quiet_pause_fails o m m' acts : quiet_step o m m' acts → pause_fails m → pause_fails m'.
Proof.
  intros [_ _ _ _ H1 _ _ _ H2 _] Hp. unfold pause_fails in *. rewrite H1, H2. destruct (fm_async_pause_requested m); simpl.
  - intros _. by rewrite Hp.
  - destruct o as [| | |[]|]; done || by rewrite orb_true_r.
Qed.

Definition pause_ids : list meta_op → list Z := omap (λ o, match o with OpPause true id => Some id | _ => None end).

Record quiet_run (ops : list meta_op) m m' (acts : list finish_action) : Prop := {
  qr_log : fm_log m' = fm_log m ++ acts;
  qr_quiet : Forall quiet acts;
  qr_settings : settings m' = settings m;
  qr_finished : fm_finished m' = fm_finished m;
  qr_requested : fm_async_pause_requested m' = fm_async_pause_requested m || existsb is_pause ops;
  qr_callback : fm_async_pause_requested m = true → fm_pause_complete_callback m' = fm_pause_complete_callback m;
  qr_calls id : id ∉ pause_ids ops → paused_calls id acts = 0;
  qr_result : fm_finish_result_set m = true ∨ fm_finish_result m = result_zero →
    mr_error_code (fm_finish_result m') = if fm_finish_result_set m then mr_error_code (fm_finish_result m) else first_result ops;
  qr_fails : pause_fails m';
}.

Lemma quiet_run_ex ops : ∀ m m', existsb is_finish ops = false ∨ fm_finished m = true → pause_fails m → meta_run ops m = Ok m' →
  ∃ acts, quiet_run ops m m' acts.
Proof.
  induction ops as [|o ops IH]; intros m m' Hfin Hp; simpl.
  { intros [= <-]. exists []. split; rewrite ?app_nil_r, ?orb_false_r; try done. intros [-> | ->]; [done|]. by destruct (fm_finish_result_set m). }
  intros (m1 & H1 & Hr)%res_bind_Ok. simpl in Hfin.
  destruct (quiet_step_ex o m m1) as [acts Hs]; [destruct Hfin as [[? _]%orb_false_iff|?]; auto|done|done|].
  pose proof (quiet_pause_fails _ _ _ _ Hs Hp) as Hp1. destruct Hs as [S1 S2 S3 S4 S5 S6 S7 S8 S9 S10].
  destruct (IH m1 m') as [acts2 [R1 R2 R3 R4 R5 R6 R7 R8 R9]]; [|done|done|].
  { destruct Hfin as [[_ ?]%orb_false_iff|Hf]; [by left|right; congruence]. }
  exists (acts ++ acts2). split; simpl; try done.
  - by rewrite R1, S1, app_assoc.
  - by apply Forall_app_2.
  - congruence.
  - congruence.
  - by rewrite R5, S5, orb_assoc.
  - intros Hreq. rewrite R6 by (by rewrite S5, Hreq). rewrite S6, Hreq. by destruct o as [| | |[]|].
  - intros id Hid. unfold paused_calls in *. rewrite count_app, S7, R7.
    + destruct o as [| | |[] id'|]; try done. simpl in Hid. apply not_elem_of_cons in Hid as [Hne _].
      rewrite (proj2 (Z.eqb_neq id' id)) by congruence. by rewrite andb_false_r.
    + destruct o as [| | |[] id'|]; try done. simpl in Hid. by apply not_elem_of_cons in Hid as [_ ?].
  - intros Hres. specialize (S8 Hres). destruct (fm_finish_result_set m) eqn:Hset; simpl in S9.
    + rewrite R8, S9 by (by left). done.
    + destruct Hres as [|Hres]; [done|]. destruct (sets_result o) eqn:Ho.
      * rewrite R8, S9 by (by left). rewrite S8. by destruct o as [| | |[]|].
      * rewrite R8, S9 by (right; by rewrite S10). by destruct o as [| | |[]|].
Qed.

(** ** The end, once *)

Context `{!AwsPriorityQueueLaws s3_request part_number Q1}.

Lemma drain_streaming_spec n : ∀ q, length (pq_elems q) = n → (drain_streaming n q).1 ≡ₚ pq_elems q.
Proof.
  induction n as [|n IH]; intros q Hn; [by destruct (pq_elems q)|]. cbn [drain_streaming].
  destruct (aws_priority_queue_top q) as [a|] eqn:Ht; [|apply pq_top_None in Ht; by rewrite Ht in Hn].
  destruct (pq_pop_top q a Ht) as (q' & -> & Hp). pose proof (Permutation_length Hp) as Hl. simpl in Hl.
  specialize (IH q' ltac:(lia)). destruct (drain_streaming n q') as [l q2]. simpl in *. by rewrite Hp, IH.
Qed.

Definition whole_object_mismatch m : bool := (check_whole_object m).1.
(** The error of the result, once the whole object was checked. *)
Definition finish_error m : option aws_error := mr_error_code (check_whole_object m).2.
Definition released (l : list finish_action) : list s3_request :=
  omap (λ a, match a with ActReleaseRequest r => Some r | _ => None end) l.

Definition frame m :=
  (fm_finished m, fm_finish_result_set m, fm_async_pause_requested m, fm_pause_complete_callback m, fm_finish_callback m,
   fm_on_error_resume_token m, fm_endpoint m, (fm_recv_filepath m, fm_recv_file_delete_on_failure m)).

Lemma finish_locked_spec env m : let m0 := m <| fm_finished := true |> in let '(l, m') := finish_locked env m in
  frame m' = frame m0 ∧ fm_file m' = fm_file m ∧ fm_headers_callback m' = fm_headers_callback m ∧
  mr_error_code (l_finish_result l) = finish_error m ∧
  is_async_paused l = fm_async_pause_requested m ∧
  pause_callback l = (if fm_async_pause_requested m then fm_pause_complete_callback m else None) ∧
  (is_error l = true → fm_async_pause_requested m = false ∧ finish_error m ≠ None ∧ finish_error m ≠ Some AWS_ERROR_S3_PAUSED) ∧
  (is_error l = true → l_token l ≠ None → fm_recv_filepath m && fm_recv_file_delete_on_failure m = false ∧ whole_object_mismatch m = false) ∧
  release_request_list l ≡ₚ pq_elems (fm_pending_body_streaming_requests m) ∧
  ∃ acts, fm_log m' = fm_log m ++ acts ∧ (acts = [] ∨ ∃ e, acts = [ActFailWriteReservation e]).
Proof.
  cbv zeta. unfold finish_locked, validate_on_finish, whole_object_mismatch, finish_error. cbv zeta.
  change (check_whole_object (m <| fm_finished := true |>)) with (check_whole_object m).
  destruct (check_whole_object m) as [mm r].
  pose proof (drain_streaming_spec _ (fm_pending_body_streaming_requests m) eq_refl) as Hd. simpl.
  destruct (drain_streaming _ _) as [l q]. simpl in Hd.
  set (m1 := mkFinMeta true _ r _ _ _ _ _ _ _ _ _ _ _ _ _ _ _ _ _ _ _ _ _ _ _). set (error := negb _ && _ && _).
  assert (error = true → fm_async_pause_requested m = false ∧ mr_error_code r ≠ None ∧ mr_error_code r ≠ Some AWS_ERROR_S3_PAUSED) as He.
  { subst error. intros [[?%negb_true_iff ?%bool_decide_eq_true]%andb_true_iff ?%negb_true_iff%bool_decide_eq_false]%andb_true_iff. done. }
  assert (error = true → build_token env (fm_async_pause_requested m) error mm m1 ≠ None →
    fm_recv_filepath m && fm_recv_file_delete_on_failure m = false ∧ mm = false) as Ht.
  { unfold build_token. intros Herr. destruct (He Herr) as (-> & _). rewrite Herr. simpl.
    destruct (fm_on_error_resume_token m), (fm_recv_filepath m && fm_recv_file_delete_on_failure m), mm; done. }
  clearbody error. destruct (fm_buffered_data_ticket_future m); simpl;
    (split_and!; [done|done|done|done|done|done|exact He|exact Ht|done|]).
  - eexists. split; [done|]. right. by eexists.
  - exists []. rewrite app_nil_r. split; [done|by left].
Qed.

(** Whether the file goes, by the error of the result. *)
Definition deletes (e : option aws_error) m : bool :=
  fm_recv_filepath m && (bool_decide (e ≠ None) && negb (bool_decide (e = Some AWS_ERROR_S3_PAUSED)) && fm_recv_file_delete_on_failure m).

Lemma finish_file_spec env l m : let del := deletes (mr_error_code (l_finish_result l)) m in let '(token, m') := finish_file env l m in
  frame m' = frame m ∧ fm_headers_callback m' = fm_headers_callback m ∧ (token = None ↔ l_token l = None) ∧
  fm_file m' = (if del then None else fm_file m) ∧
  fm_log m' = fm_log m ++ ActCloseDescriptors :: (if del then [ActDeleteFile] else []).
Proof.
  cbv zeta. unfold finish_file, deletes. change (fm_recv_filepath (act [ActCloseDescriptors] m)) with (fm_recv_filepath m).
  change (fm_recv_file_delete_on_failure (act [ActCloseDescriptors] m)) with (fm_recv_file_delete_on_failure m).
  destruct (fm_recv_filepath m) eqn:Hf; simpl; [|by split_and!].
  set (del := _ && _ && fm_recv_file_delete_on_failure m). clearbody del.
  destruct del; simpl; (split_and!; [unfold frame; simpl; by rewrite Hf|done|destruct (l_token l), (fe_last_modified env); by repeat case_match|done|]); [by rewrite <-app_assoc|done].
Qed.

Lemma finish_headers_spec env r m : let '(r', m') := finish_headers env r m in
  frame m' = frame m ∧ fm_file m' = fm_file m ∧
  (mr_error_code r' = mr_error_code r ∨ ∃ e, fe_headers_error env = Some e ∧ mr_error_code r' = Some e) ∧
  ∃ acts, fm_log m' = fm_log m ++ acts ∧ (acts = [] ∨ ∃ h status, acts = [ActHeaders h status]).
Proof.
  unfold finish_headers. assert (∃ acts, fm_log m = fm_log m ++ acts ∧ (acts = [] ∨ ∃ h status, acts = [ActHeaders h status])) as Hl.
  { exists []. rewrite app_nil_r. auto. }
  destruct (mr_error_response_headers r) as [h|]; [|by auto]. destruct (fm_headers_callback m); [|by auto].
  split_and!; [done|done| |].
  - destruct (fe_headers_error env) as [e|]; [right; by exists e|by left].
  - eexists. split; [done|]. right. by eexists _, _.
Qed.

Lemma finish_report_spec r m : let m' := finish_report r m in
  fm_log m' = fm_log m ++ [ActReleaseSources] ++ (if fm_finish_callback m then [ActFinish r] else []) ++
    (if fm_endpoint m then [ActReleaseEndpoint] else []) ∧
  fm_finished m' = fm_finished m ∧ fm_async_pause_requested m' = fm_async_pause_requested m ∧
  fm_finish_result_set m' = fm_finish_result_set m ∧ fm_file m' = fm_file m ∧
  fm_pause_complete_callback m' = fm_pause_complete_callback m.
Proof.
  cbv zeta. unfold finish_report. cbv zeta.
  set (m1 := match fm_recv_buffer_len _ with Some _ => _ | None => _ end).
  assert (frame m1 = frame m ∧ fm_file m1 = fm_file m ∧ fm_log m1 = fm_log m ++ [ActReleaseSources]) as (M1 & M2 & M3)
    by (subst m1; destruct (fm_recv_buffer_len _), (mr_error_code r); done).
  clearbody m1. unfold frame in M1. injection M1 as E1 E2 E3 E4 E5 E6 E7 E8 E9. rewrite E5. destruct (fm_finish_callback m); simpl.
  - rewrite E7. destruct (fm_endpoint m); simpl; rewrite M3, <-!app_assoc; done.
  - rewrite E7. destruct (fm_endpoint m); simpl; rewrite M3, <-?app_assoc; done.
Qed.

(** What the end does. *)
Record finish_done (env : finish_env) m m' (pre : list finish_action) (r : meta_result) : Prop := {
  fd_log : fm_log m' = fm_log m ++ pre ++ (if fm_finish_callback m then [ActFinish r] else []) ++
    (if fm_endpoint m then [ActReleaseEndpoint] else []);
  fd_finished : fm_finished m' = true;
  fd_requested : fm_async_pause_requested m' = fm_async_pause_requested m;
  fd_set : fm_finish_result_set m' = fm_finish_result_set m;
  fd_callback : fm_pause_complete_callback m' = fm_pause_complete_callback m;
  fd_pre : reported pre = [];
  fd_calls id : paused_calls id pre = if fm_async_pause_requested m && bool_decide (fm_pause_complete_callback m = Some id) then 1 else 0;
  fd_error : mr_error_code r = finish_error m ∨ ∃ e, fe_headers_error env = Some e ∧ mr_error_code r = Some e;
  fd_file : fm_file m' = if deletes (finish_error m) m then None else fm_file m;
  fd_token t e : ActErrorToken (Some t) e ∈ pre →
    deletes (finish_error m) m = false ∧ whole_object_mismatch m = false ∧ finish_error m = Some e;
  fd_released : released pre ≡ₚ pq_elems (fm_pending_body_streaming_requests m);
}.

(** Actions that report nothing. *)
Definition inert (a : finish_action) : Prop :=
  match a with ActFinish _ | ActPaused _ _ _ | ActErrorToken _ _ | ActReleaseRequest _ => False | _ => True end.

Lemma inert_spec l : Forall inert l →
  reported l = [] ∧ (∀ id, paused_calls id l = 0) ∧ released l = [] ∧ ∀ t e, ActErrorToken t e ∉ l.
Proof.
  induction 1 as [|a l Ha Hl (I1 & I2 & I3 & I4)]; [split_and!; try done; intros t e ?%elem_of_nil; done|].
  unfold reported, released, paused_calls in *. split_and!.
  - simpl. by destruct a.
  - intros id. rewrite count_cons, I2. by destruct a.
  - simpl. by destruct a.
  - intros t e [<-|?]%elem_of_cons; [done|by eapply I4].
Qed.

Lemma token_callbacks_spec l token m m0 : is_async_paused l = fm_async_pause_requested m →
  pause_callback l = (if fm_async_pause_requested m then fm_pause_complete_callback m else None) →
  let acts := token_callbacks l token m0 in
  reported acts = [] ∧ released acts = [] ∧
  (∀ id, paused_calls id acts = if fm_async_pause_requested m && bool_decide (fm_pause_complete_callback m = Some id) then 1 else 0) ∧
  ∀ t e, ActErrorToken (Some t) e ∈ acts → is_error l = true ∧ token ≠ None ∧ mr_error_code (l_finish_result l) = Some e.
Proof.
  intros Hp Hc. cbv zeta. unfold token_callbacks. rewrite Hp, Hc.
  set (acts1 := match mr_error_code _ with Some _ => _ | None => _ end).
  assert (acts1 = [] ∨ ∃ e, acts1 = [ActErrorToken token e] ∧ is_error l = true ∧ mr_error_code (l_finish_result l) = Some e) as Ha.
  { subst acts1. destruct (mr_error_code (l_finish_result l)) as [e|]; [|by left]. destruct (is_error l); [|by left].
    destruct (fm_on_error_resume_token m0); [|by left]. right. by exists e. }
  clearbody acts1. set (acts2 := match (if fm_async_pause_requested m then fm_pause_complete_callback m else None) with
    | Some callback => if fm_async_pause_requested m then [ActPaused callback token None] else [] | None => [] end).
  assert (acts2 = [] ∧ (∀ id, fm_async_pause_requested m && bool_decide (fm_pause_complete_callback m = Some id) = false) ∨
    ∃ id, acts2 = [ActPaused id token None] ∧ fm_async_pause_requested m = true ∧ fm_pause_complete_callback m = Some id) as Hb.
  { subst acts2. destruct (fm_async_pause_requested m); [|by left]. destruct (fm_pause_complete_callback m) as [id|]; [|by left].
    right. by exists id. }
  clearbody acts2. unfold paused_calls. split_and!.
  - destruct Ha as [->|(e & -> & _)], Hb as [[-> _]|(id & -> & _)]; done.
  - destruct Ha as [->|(e & -> & _)], Hb as [[-> _]|(id & -> & _)]; done.
  - intros id. rewrite count_app. assert (count (calls_pause id) acts1 = 0) as -> by (destruct Ha as [->|(e & -> & _)]; done).
    destruct Hb as [[-> Hn]|(id' & -> & -> & ->)]; [by rewrite Hn|]. rewrite count_cons. simpl.
    destruct (Z.eqb_spec id' id) as [->|Hne]; [by rewrite bool_decide_eq_true_2|by rewrite bool_decide_eq_false_2 by congruence].
  - intros t e [Hin|Hin]%elem_of_app.
    + destruct Ha as [->|(e' & -> & He & Hr)]; [by apply elem_of_nil in Hin|]. apply list_elem_of_singleton in Hin. by injection Hin as <- <-.
    + destruct Hb as [[-> _]|(id' & -> & _)]; [by apply elem_of_nil in Hin|by apply list_elem_of_singleton in Hin].
Qed.

Lemma released_fmap l : released (ActReleaseRequest <$> l) = l ∧ reported (ActReleaseRequest <$> l) = [] ∧
  (∀ id, paused_calls id (ActReleaseRequest <$> l) = 0) ∧ ∀ t e, ActErrorToken t e ∉ ActReleaseRequest <$> l.
Proof.
  unfold released, reported, paused_calls. induction l as [|r l (I1 & I2 & I3 & I4)]; [split_and!; try done; intros t e ?%elem_of_nil; done|].
  rewrite fmap_cons. split_and!; [cbn; f_equal; exact I1|exact I2| |].
  - intros id. by rewrite count_cons, I3.
  - intros t e [?|?]%elem_of_cons; [done|by eapply I4].
Qed.

Lemma finish_spec env m : fm_finished m = false → ∃ pre r, finish_done env m (aws_s3_meta_request_finish_default env m) pre r.
Proof.
  intros Hf. unfold aws_s3_meta_request_finish_default. rewrite Hf.
  pose proof (finish_locked_spec env m) as Hl. cbv zeta in Hl. destruct (finish_locked env m) as [l m1].
  destruct Hl as (F1 & F2 & F3 & F4 & F5 & F6 & F7 & F8 & F9 & acts1 & F10 & F11).
  set (m2 := match pending_async_write_waker l with Some _ => _ | None => _ end).
  assert (∃ acts2, fm_log m2 = fm_log m1 ++ acts2 ∧ (acts2 = [] ∨ ∃ w, acts2 = [ActWaker w])) as (acts2 & G1 & G2).
  { subst m2. destruct (pending_async_write_waker l) as [w|]; [eexists; split; [done|]; right; by eexists|].
    exists []. rewrite app_nil_r. auto. }
  assert (frame m2 = frame m1 ∧ fm_file m2 = fm_file m1) as [G3 G4] by (subst m2; by destruct (pending_async_write_waker l)).
  clearbody m2. pose proof (finish_file_spec env l m2) as Hl. cbv zeta in Hl. destruct (finish_file env l m2) as [token m3].
  destruct Hl as (K1 & K2 & K3 & K4 & K5). cbv zeta.
  set (m5 := act _ (act _ m3)). pose proof (finish_headers_spec env (l_finish_result l) m5) as Hl.
  destruct (finish_headers env (l_finish_result l) m5) as [r m6]. destruct Hl as (L1 & L2 & L3 & acts6 & L4 & L5).
  destruct (finish_report_spec r m6) as (N1 & N2 & N3 & N4 & N5 & N6). cbv zeta in *.
  set (m7 := finish_report r m6) in *. clearbody m7. rewrite F4 in *. rewrite F2 in G4.
  assert (frame m6 = frame (m <| fm_finished := true |>)) as Hframe.
  { transitivity (frame m3); [exact L1|congruence]. }
  assert (deletes (finish_error m) m2 = deletes (finish_error m) m) as Hdel.
  { assert (frame m2 = frame (m <| fm_finished := true |>)) as Hm2 by congruence. unfold frame in Hm2. simpl in Hm2.
    unfold deletes. by injection Hm2 as _ _ _ _ _ _ _ -> ->. }
  rewrite Hdel in *. destruct (token_callbacks_spec l token m m3 F5 F6) as (T1 & T2 & T3 & T4).
  destruct (released_fmap (release_request_list l)) as (R1 & R2 & R3 & R4).
  set (tokens := token_callbacks l token m3) in *. clearbody tokens.
  set (i1 := acts1 ++ acts2 ++ ActCloseDescriptors :: (if deletes (finish_error m) m then [ActDeleteFile] else [])).
  assert (Forall inert i1) as (I1 & I2 & I3 & I4)%inert_spec.
  { subst i1. destruct F11 as [->|[? ->]], G2 as [->|[? ->]], (deletes _ m); by repeat constructor. }
  assert (Forall inert (acts6 ++ [ActReleaseSources])) as (J1 & J2 & J3 & J4)%inert_spec.
  { destruct L5 as [->|(? & ? & ->)]; by repeat constructor. }
  exists (i1 ++ tokens ++ (ActReleaseRequest <$> release_request_list l) ++ acts6 ++ [ActReleaseSources]), r.
  unfold frame in Hframe. simpl in Hframe. injection Hframe as E1 E2 E3 E4 E5 E6 E7 E8 E9. split.
  - rewrite N1, E5, E7, L4. subst i1. unfold m5, act. simpl. rewrite K5, G1, F10. by rewrite <-!app_assoc.
  - by rewrite N2.
  - by rewrite N3.
  - by rewrite N4.
  - by rewrite N6.
  - unfold reported in *. by rewrite !omap_app, I1, T1, R2, <-omap_app, J1.
  - intros id. unfold paused_calls in *. by rewrite count_app, I2, count_app, T3, count_app, R3, J2, !Z.add_0_r.
  - done.
  - rewrite N5, L2. unfold m5. simpl. by rewrite K4, G4.
  - intros t e. rewrite !elem_of_app. intros [?|[Hin|[?|Hin]]]; [by edestruct I4| |by edestruct R4|edestruct J4; by apply elem_of_app].
    destruct (T4 t e Hin) as (He & Htok & Hr). assert (l_token l ≠ None) as Hlt by (intros Hn; by apply Htok, K3).
    destruct (F8 He Hlt) as [Hd Hm]. split_and!; [|done|congruence]. unfold deletes. destruct (fm_recv_filepath m); [|done].
    simpl in *. rewrite Hd. by rewrite andb_false_r.
  - unfold released in *. by rewrite !omap_app, I3, T2, R1, <-omap_app, J3, app_nil_r.
Qed.

(** ** The callbacks of pauses *)

(** How often the callback [id] is called, if [mine] tells whether it is the one that waits. *)
Fixpoint expected_calls (id : Z) (finished requested mine : bool) (ops : list meta_op) : Z :=
  match ops with
  | [] => 0
  | OpFinish _ :: ops =>
      (if negb finished && requested && mine then 1 else 0) + expected_calls id true requested mine ops
  | OpPause true id' :: ops =>
      if requested then (if id' =? id then 1 else 0) + expected_calls id finished true mine ops
      else expected_calls id finished true (id' =? id) ops
  | _ :: ops => expected_calls id finished requested mine ops
  end.

Lemma report_calls id m r : paused_calls id ((if fm_finish_callback m then [ActFinish r] else []) ++
  (if fm_endpoint m then [ActReleaseEndpoint] else [])) = 0.
Proof. by destruct (fm_finish_callback m), (fm_endpoint m). Qed.

Lemma run_calls id ops : ∀ m m', pause_fails m → meta_run ops m = Ok m' →
  paused_calls id (fm_log m') = paused_calls id (fm_log m) +
    expected_calls id (fm_finished m) (fm_async_pause_requested m) (bool_decide (fm_pause_complete_callback m = Some id)) ops.
Proof.
  induction ops as [|o ops IH]; intros m m' Hp; simpl; [intros [= <-]; lia|]. intros (m1 & H1 & Hr)%res_bind_Ok.
  destruct (is_finish o && negb (fm_finished m)) eqn:Ho.
  - apply andb_true_iff in Ho as [Ho Hf%negb_true_iff]. destruct o as [| | | |env]; try done. injection H1 as <-.
    destruct (finish_spec env m Hf) as (pre & r & [D1 D2 D3 D4 D5 _ D7 _ _ _ _]).
    rewrite (IH _ m' ltac:(unfold pause_fails in *; by rewrite D3, D4) Hr), D1, D2, D3, D5, Hf. unfold paused_calls in *.
    rewrite !count_app, D7. pose proof (report_calls id m r) as Hz. unfold paused_calls in Hz. rewrite !count_app in Hz. simpl. lia.
  - destruct (quiet_step_ex o m m1) as [acts Hs]; [|done|done|].
    { destruct (is_finish o), (fm_finished m); auto. }
    pose proof (quiet_pause_fails _ _ _ _ Hs Hp) as Hp1. destruct Hs as [S1 _ _ S4 S5 S6 S7 _ _ _].
    rewrite (IH m1 m' Hp1 Hr), S1, S4, S5, S6. unfold paused_calls in *. rewrite count_app, S7.
    destruct o as [| | |[] id'|env]; simpl; rewrite ?orb_false_r; try lia.
    + destruct (fm_async_pause_requested m); simpl; [lia|].
      assert (bool_decide (Some id' = Some id) = (id' =? id)) as ->; [|lia].
      destruct (Z.eqb_spec id' id) as [->|]; [by rewrite bool_decide_eq_true_2|by rewrite bool_decide_eq_false_2 by congruence].
    + destruct (fm_finished m); [|done]. simpl. lia.
Qed.

Lemma expected_skip id l k : id ∉ pause_ids l → ∀ f rq,
  expected_calls id f rq false (l ++ k) = expected_calls id (f || existsb is_finish l) (rq || existsb is_pause l) false k.
Proof.
  induction l as [|o l IH]; intros Hid f rq; simpl; [by rewrite !orb_false_r|].
  destruct o as [failed e|status| |[] id'|env]; simpl; try (by apply IH).
  - simpl in Hid. apply not_elem_of_cons in Hid as [Hne Hid]. rewrite (proj2 (Z.eqb_neq id' id)) by congruence.
    destruct rq; simpl; by rewrite IH by done.
  - rewrite andb_false_r, IH by done. by rewrite orb_true_r.
Qed.

Lemma expected_waiting id l : id ∉ pause_ids l → ∀ f,
  expected_calls id f true true l = if negb f && existsb is_finish l then 1 else 0.
Proof.
  induction l as [|o l IH]; intros Hid f; simpl; [by rewrite andb_false_r|].
  destruct o as [failed e|status| |[] id'|env]; simpl; try (by apply IH).
  - simpl in Hid. apply not_elem_of_cons in Hid as [Hne Hid]. rewrite (proj2 (Z.eqb_neq id' id)) by congruence. by rewrite IH.
  - rewrite IH by done. by destruct f.
Qed.

Lemma expected_refused id l : id ∉ pause_ids l → ∀ f, expected_calls id f true false l = 0.
Proof. intros Hid f. rewrite <-(app_nil_r l), expected_skip by done. done. Qed.

Lemma expected_pause id l1 l2 : id ∉ pause_ids l1 → id ∉ pause_ids l2 →
  expected_calls id false false false (l1 ++ OpPause true id :: l2) =
    if existsb is_pause l1 then 1 else if negb (existsb is_finish l1) && existsb is_finish l2 then 1 else 0.
Proof.
  intros H1 H2. rewrite expected_skip by done. simpl. rewrite Z.eqb_refl.
  destruct (existsb is_pause l1); [by rewrite expected_refused|by apply expected_waiting].
Qed.

(** ** Results *)

Lemma quiet_reported l : Forall quiet l → reported l = [] ∧ ∀ t e, ActErrorToken t e ∉ l.
Proof.
  induction 1 as [|a l Ha Hl [I1 I2]]; [split; [done|intros t e ?%elem_of_nil; done]|]. split.
  - unfold reported in *. simpl. by destruct a.
  - intros t e [<-|?]%elem_of_cons; [done|by eapply I2].
Qed.

Lemma run_app l k m m' : meta_run (l ++ k) m = Ok m' → ∃ m1, meta_run l m = Ok m1 ∧ meta_run k m1 = Ok m'.
Proof.
  revert m. induction l as [|o l IH]; intros m; simpl; [by exists m|]. intros (m1 & -> & (m2 & Hl & Hk)%IH)%res_bind_Ok. simpl. by exists m2.
Qed.

(** A run is quiet up to the first end, and after it. *)
Lemma finish_run l1 env l2 m m' : unfinished m → existsb is_finish l1 = false → meta_run (l1 ++ OpFinish env :: l2) m = Ok m' →
  ∃ m1 acts1 pre r acts2, quiet_run l1 m m1 acts1 ∧ finish_done env m1 (aws_s3_meta_request_finish_default env m1) pre r ∧
    quiet_run l2 (aws_s3_meta_request_finish_default env m1) m' acts2.
Proof.
  intros (Hf & Hs & Hz & Hreq & _) Hl1 (m1 & H1 & H2)%run_app. simpl in H2. assert (pause_fails m) as Hp by (unfold pause_fails; by rewrite Hreq).
  destruct (quiet_run_ex l1 m m1) as [acts1 Hq]; [by left|done..|].
  destruct (finish_spec env m1) as (pre & r & Hd); [by rewrite (qr_finished _ _ _ _ Hq)|].
  destruct (quiet_run_ex l2 (aws_s3_meta_request_finish_default env m1) m') as [acts2 Hq2]; [by right; apply Hd| |done|].
  { unfold pause_fails. rewrite (fd_requested _ _ _ _ _ Hd), (fd_set _ _ _ _ _ Hd). apply (qr_fails _ _ _ _ Hq). }
  by exists m1, acts1, pre, r, acts2.
Qed.

Lemma first_finish ops : existsb is_finish ops = true → ∃ l1 env l2, ops = l1 ++ OpFinish env :: l2 ∧ existsb is_finish l1 = false.
Proof.
  induction ops as [|o ops IH]; [done|]. simpl. destruct (is_finish o) eqn:Ho; simpl.
  - intros _. destruct o; try done. by eexists [], _, ops.
  - intros (l1 & env & l2 & -> & Hl)%IH. exists (o :: l1), env, l2. simpl. by rewrite Ho.
Qed.

(** What may follow the report. *)
Definition after_report (a : finish_action) : Prop := quiet a ∨ a = ActReleaseEndpoint.

(** C8: whatever order results, cancellations, pauses and ends of a meta request come in, on any
    thread and any number of times: the result is reported at most once, and exactly once when the meta
    request ends; tokens are handed out before it and never after.  The callback of a pause is called
    once if the pause came before the end, or if another pause was asked for before. *)
Theorem callbacks_once ops m m' : unfinished m → fm_finish_callback m = true → meta_run ops m = Ok m' →
  (existsb is_finish ops = false → reported (fm_log m') = []) ∧
  (existsb is_finish ops = true → ∃ pre r post, fm_log m' = pre ++ ActFinish r :: post ∧ reported pre = [] ∧ Forall after_report post) ∧
  ∀ l1 id l2, ops = l1 ++ OpPause true id :: l2 → id ∉ pause_ids l1 → id ∉ pause_ids l2 →
    paused_calls id (fm_log m') =
      if existsb is_pause l1 then 1 else if negb (existsb is_finish l1) && existsb is_finish l2 then 1 else 0.
Proof.
  intros Hun Hcb Hrun. destruct (Hun) as (Hf & Hs & Hz & Hreq & Hnone & Hlog).
  assert (pause_fails m) as Hp by (unfold pause_fails; by rewrite Hreq). split_and!.
  - intros Hl. destruct (quiet_run_ex ops m m') as [acts Hq]; [by left|done..|].
    rewrite (qr_log _ _ _ _ Hq), Hlog. apply quiet_reported, Hq.
  - intros (l1 & env & l2 & -> & Hl)%first_finish. destruct (finish_run _ _ _ _ _ Hun Hl Hrun) as (m1 & acts1 & pre & r & acts2 & Q1' & Hd & Q2).
    assert (fm_finish_callback m1 = true) as Hcb1.
    { pose proof (qr_settings _ _ _ _ Q1') as He. unfold settings in He. injection He as _ _ _ _ _ _ _ _ _ _ He _. congruence. }
    exists (acts1 ++ pre), r, ((if fm_endpoint m1 then [ActReleaseEndpoint] else []) ++ acts2).
    rewrite (qr_log _ _ _ _ Q2), (fd_log _ _ _ _ _ Hd), (qr_log _ _ _ _ Q1'), Hlog, Hcb1. split_and!.
    + simpl. by rewrite <-!app_assoc.
    + unfold reported. rewrite omap_app. pose proof (quiet_reported _ (qr_quiet _ _ _ _ Q1')) as [Hr _]. unfold reported in Hr.
      rewrite Hr. apply Hd.
    + apply Forall_app_2; [destruct (fm_endpoint m1); [constructor; [by right|constructor]|constructor]|]. eapply list.Forall_impl; [apply Q2|]. by left.
  - intros l1 id l2 -> H1 H2. rewrite (run_calls id _ m m' Hp Hrun), Hlog, Hf, Hreq, Hnone.
    rewrite bool_decide_eq_false_2 by done. by rewrite expected_pause.
Qed.

(** Whether the checksum of a whole object that was downloaded does not match, if the result is [e]; and
    what the result becomes. *)
Definition mismatch_of m (e : option aws_error) : bool :=
  match e with
  | None => (s_validate_meta_request_checksum_on_finish (fm_validate_response_checksum m) (fm_checksum_combinable m)
      (fm_combine_slots m) (fm_running_response_sum m) (fm_response_header_checksum m)).2
  | Some _ => false
  end.
Definition final_error m (e : option aws_error) : option aws_error :=
  if mismatch_of m e then Some AWS_ERROR_S3_RESPONSE_CHECKSUM_MISMATCH else e.

Lemma finish_error_run m m1 e : settings m1 = settings m → mr_error_code (fm_finish_result m1) = e →
  whole_object_mismatch m1 = mismatch_of m e ∧ finish_error m1 = final_error m e ∧ ∀ x, deletes x m1 = deletes x m.
Proof.
  unfold settings, whole_object_mismatch, finish_error, final_error, check_whole_object, mismatch_of, deletes.
  intros [= E1 E2 E3 E4 E5 E6 E7 E8 _ _ _ _] He. rewrite E1, E2, E3, E4, E5, E6, E7, He. destruct e as [e|].
  - destruct (fm_running_response_sum m); simpl; by rewrite ?He.
  - destruct (s_validate_meta_request_checksum_on_finish _ _ _ _ _) as [v mm]. simpl. destruct (fm_running_response_sum m), v, mm; simpl; by rewrite ?He.
Qed.

(** C9: the result that is reported is the first one that was set, a mismatch of the whole object
    taking the place of success, unless the callback for headers fails.  The receive file is deleted exactly
    when the caller asked for it and the meta request failed, not when it was paused; a token comes with an
    error only if the file is kept and the object is not known to be corrupt; and the bodies that wait are
    released, each once. *)
Theorem finish_outcome l1 env l2 m m' : unfinished m → existsb is_finish l1 = false → fm_finish_callback m = true →
  meta_run (l1 ++ OpFinish env :: l2) m = Ok m' →
  let e := final_error m (first_result l1) in
  (∃ r, reported (fm_log m') = [r] ∧ (mr_error_code r = e ∨ ∃ e', fe_headers_error env = Some e' ∧ mr_error_code r = Some e')) ∧
  fm_file m' = (if deletes e m then None else fm_file m) ∧
  (∀ t e', ActErrorToken (Some t) e' ∈ fm_log m' → e = Some e' ∧ deletes e m = false ∧ mismatch_of m (first_result l1) = false) ∧
  released (fm_log m') ≡ₚ pq_elems (fm_pending_body_streaming_requests m).
Proof.
  intros Hun Hl Hcb Hrun. destruct (finish_run _ _ _ _ _ Hun Hl Hrun) as (m1 & acts1 & pre & r & acts2 & Hq1 & Hd & Hq2).
  destruct Hun as (Hf & Hs & Hz & Hreq & Hnone & Hlog).
  pose proof (qr_settings _ _ _ _ Hq1) as Hset.
  assert (mr_error_code (fm_finish_result m1) = first_result l1) as He1.
  { pose proof (qr_result _ _ _ _ Hq1 (or_intror Hz)) as He. by rewrite Hs in He. }
  destruct (finish_error_run m m1 _ Hset He1) as (W1 & W2 & W3). cbv zeta.
  pose proof (qr_settings _ _ _ _ Hq2) as Hset2. unfold settings in Hset, Hset2.
  injection Hset as _ _ _ _ _ _ _ E8 _ _ E11 E12. injection Hset2 as _ _ _ _ _ _ _ E8' _ _ _ _.
  destruct (quiet_reported _ (qr_quiet _ _ _ _ Hq1)) as [P1 P2]. destruct (quiet_reported _ (qr_quiet _ _ _ _ Hq2)) as [P3 P4].
  assert (∀ l, Forall quiet l → released l = []) as Hrel.
  { intros l. unfold released. induction 1 as [|a l Ha _ IH]; [done|]. simpl. by destruct a. }
  rewrite (qr_log _ _ _ _ Hq2), (fd_log _ _ _ _ _ Hd), (qr_log _ _ _ _ Hq1), Hlog, E11, Hcb. split_and!.
  - exists r. split; [|rewrite <-W2; apply Hd]. pose proof (fd_pre _ _ _ _ _ Hd) as P5. unfold reported in *. rewrite !omap_app, P1, P5, P3.
    by destruct (fm_endpoint m1).
  - by rewrite E8', (fd_file _ _ _ _ _ Hd), E8, W2, W3.
  - intros t e'. rewrite !elem_of_app. intros [[[Hin|Hin]|[Hin|[Hin|Hin]]]|Hin].
    + by apply elem_of_nil in Hin.
    + by apply P2 in Hin.
    + destruct (fd_token _ _ _ _ _ Hd t e' Hin) as (X1 & X2 & X3). by rewrite W2, W3, W1 in *.
    + by apply list_elem_of_singleton in Hin.
    + destruct (fm_endpoint m1); [by apply list_elem_of_singleton in Hin|by apply elem_of_nil in Hin].
    + by apply P4 in Hin.
  - rewrite <-E12, <-(fd_released _ _ _ _ _ Hd). unfold released in *. rewrite !omap_app.
    rewrite (Hrel acts1), (Hrel acts2) by (apply Hq1 || apply Hq2). destruct (fm_endpoint m1); simpl; by rewrite ?app_nil_r.
Qed.
End finish.

(** * Examples *)

Module FinishDemo.
#[local] Existing Instances sorted_pq sorted_pq_laws digest_ref.

(** A download to a file that is to be deleted on failure; one part waits for its turn. *)
Definition waiting : s3_request := mkRequest 2 8 15 (lit "tail").
Definition meta : fin_meta :=
  mkFinMeta false false result_zero false None (default pq_empty (aws_priority_queue_push pq_empty waiting)) [1; 2] [] false (Some 9)
    true false [] None [] true true false None 0 true true true true (Some (lit "head")) [].

Definition token : meta_token := aws_s3_meta_request_resume_token_new <| mt_type := TYPE_GET_OBJECT |> <| mt_continuous_downloaded_bytes := 4 |>.
Definition env : finish_env := mkFinishEnv (Some (Some token)) (Some 1) None.

Definition after (ops : list meta_op) : fin_meta := match meta_run ops meta with Ok m => m | _ => meta end.
Definition paused_ops : list meta_op := [OpPause true 7; OpCancelled; OpFinish env; OpPause true 8; OpFinish env].

Lemma after_run ops : match meta_run ops meta with Ok _ => true | _ => false end = true → meta_run ops meta = Ok (after ops).
Proof. unfold after. by destruct (meta_run ops meta). Qed.

Lemma meta_unfinished : unfinished meta.
Proof. by split_and!. Qed.

Lemma callbacks_once_witness : paused_calls 7 (fm_log (after paused_ops)) = 1.
Proof.
  destruct (callbacks_once paused_ops meta (after paused_ops) meta_unfinished eq_refl (after_run paused_ops ltac:(vm_compute; reflexivity)))
    as (_ & _ & Hc).
  refine (Hc [] 7 [OpCancelled; OpFinish env; OpPause true 8; OpFinish env] eq_refl _ _).
  - apply (bool_decide_unpack _). vm_compute. exact I.
  - apply (bool_decide_unpack _). vm_compute. exact I.
Defined.

Lemma finish_outcome_witness : fm_file (after [OpCancelled; OpFinish env]) = None ∧
  released (fm_log (after [OpCancelled; OpFinish env])) ≡ₚ [waiting].
Proof.
  destruct (finish_outcome [OpCancelled] env [] meta _ meta_unfinished eq_refl eq_refl
    (after_run [OpCancelled; OpFinish env] ltac:(vm_compute; reflexivity))) as (_ & Hf & _ & Hr).
  split; [exact Hf|exact Hr].
Defined.

(** A pause that comes after a failure and before the end gets a token, although the file that the token
    describes has been deleted. *)
Lemma late_pause_token : let m := after [OpFail None AWS_ERROR_UNKNOWN; OpPause true 7; OpFinish env] in
  ActPaused 7 (Some token) None ∈ fm_log m ∧ fm_file m = None.
Proof.
  cbv zeta. split; [|vm_compute; reflexivity]. apply list_elem_of_In. vm_compute. tauto.
Qed.

(** A pause that comes after the end is accepted, and its callback is never called. *)
Lemma pause_after_end : let m := after [OpSuccess 200; OpFinish env; OpPause true 7; OpFinish env] in
  fm_pause_complete_callback m = Some 7 ∧ paused_calls 7 (fm_log m) = 0.
Proof. split; vm_compute; reflexivity. Qed.

(** An error and a pause: the callback for errors is not called. *)
Lemma late_pause_hides_error : let m := after [OpFail None AWS_ERROR_UNKNOWN; OpPause true 7; OpFinish env] in
  fm_on_error_resume_token m = true ∧
  Forall (λ a, match a with ActErrorToken _ _ => False | _ => True end) (fm_log m).
Proof. split; [vm_compute; reflexivity|]. vm_compute. repeat constructor. Qed.
End FinishDemo.
