(* ===== verification/Response.v ===== *)
(** The response to one request (source/s3_meta_request.c): what the callbacks of the HTTP stream do with the
    headers and the body, what the response counts as, and whether the request is tried again.  A request that
    is tried again starts afresh (source/s3_request.c). *)

From Stdlib Require Import Init.Byte String.
From S2P Require Import Prelude AwsCommon ByteCursor HttpHeaders HttpMessage Checksums Listing Client.

(** [enum aws_s3_request_type] *)
Inductive s3_request_type :=
| REQUEST_UNKNOWN
| REQUEST_HEAD_OBJECT
| REQUEST_GET_OBJECT
| REQUEST_LIST_PARTS
| REQUEST_CREATE_MULTIPART_UPLOAD
| REQUEST_UPLOAD_PART
| REQUEST_ABORT_MULTIPART_UPLOAD
| REQUEST_COMPLETE_MULTIPART_UPLOAD
| REQUEST_UPLOAD_PART_COPY
| REQUEST_COPY_OBJECT
| REQUEST_PUT_OBJECT
| REQUEST_CREATE_SESSION.

#[export] Instance s3_request_type_eq_dec : EqDecision s3_request_type.
Proof. solve_decision. Defined.

(** The fields of a request, and of its meta request, that stay the same from attempt to attempt.
    [rq_part_number_1] tells that the tag is that of a GET of part number 1; [rq_ticket] is the size of the buffer that
    a ticket was reserved for. *)
Record sent_request := mkSentRequest {
  rq_type : s3_request_type;
  rq_part_number_1 : bool;
  rq_part_number : Z;
  rq_part_range_start : Z;
  rq_part_range_end : Z;
  rq_record_response_headers : bool;
  rq_ticket : option Z;
  rq_validate_response_checksum : bool;
  rq_response_checksum_algorithms : list checksum_algorithm;
}.

(** The part of [send_data] that a response fills, and the running checksums of the request.  The body is what
    [sums_received] of these has; [sd_body] is the space that its buffer has, without a bound if it grows. *)
Record send_data := mkSendData {
  sd_response_status : Z;
  sd_response_headers : option http_headers;
  sd_request_id : option (list byte);
  sd_amz_id_2 : option (list byte);
  sd_body : option (option Z);
  sd_sums : response_sums;
}.
#[export] Instance send_data_eta : Eta send_data := λ s,
  mkSendData (sd_response_status s) (sd_response_headers s) (sd_request_id s) (sd_amz_id_2 s) (sd_body s) (sd_sums s).

Definition no_sums : response_sums := mkSums None [] None [].
Definition no_send_data : send_data := mkSendData 0 None None None None no_sums.

Definition g_request_id_header_name : list byte := lit "x-amz-request-id".
Definition g_amz_id_2_header_name : list byte := lit "x-amz-id-2".
Definition g_content_range_header_name : list byte := lit "Content-Range".

Definition s_s3_meta_request_error_code_from_response_status (status : Z) : option aws_error :=
  if (status =? 200) || (status =? 206) || (status =? 204) then None
  else if (status =? 500) || (status =? 502) || (status =? 504) then Some AWS_ERROR_S3_INTERNAL_ERROR
  else if status =? 503 then Some AWS_ERROR_S3_SLOW_DOWN
  else Some AWS_ERROR_S3_INVALID_RESPONSE_STATUS.

Definition successful_response (status : Z) : bool :=
  bool_decide (s_s3_meta_request_error_code_from_response_status status = None).

Section response.
Context `{B : !AwsByteCursor} `{H : !AwsHttpHeaders} `{D : !AwsDigest} `{X : !AwsXml}.

Implicit Types (r : sent_request) (s : send_data).

(** * Headers *)

(** Names are compared exactly. *)
Fixpoint s_header_value_from_list (headers : http_headers) (name : list byte) : option (list byte) :=
  match headers with
  | [] => None
  | (n, v) :: headers => if bool_decide (n = name) then Some v else s_header_value_from_list headers name
  end.

(** The first algorithm in the list [l] that was asked for and whose header is there, with the header's value. *)
Fixpoint find_part_checksum r (l : list checksum_algorithm) (headers : http_headers) : option (checksum_algorithm * list byte) :=
  match l with
  | [] => None
  | a :: l =>
      if negb (bool_decide (a ∈ rq_response_checksum_algorithms r)) then find_part_checksum r l headers
      else match s_header_value_from_list headers (aws_get_http_header_name_from_checksum_algorithm a) with
           | Some v => Some (a, v)
           | None => find_part_checksum r l headers
           end
  end.

Definition s_get_part_response_headers_checksum_helper r (headers : http_headers) (sums : response_sums) : response_sums :=
  match find_part_checksum r s_checksum_algo_priority_list headers with
  | Some (a, v) =>
      let encoded_len := default 0 (aws_base64_compute_encoded_len (aws_get_digest_size_from_checksum_algorithm a)) in
      if Z.of_nat (length v) =? encoded_len
      then sums <| response_header_checksum := v |> <| request_running_sum := aws_checksum_new a |> else sums
  | None => sums
  end.

(** Whether a value of Content-Range is not what was asked for. *)
Definition check_content_range r (value : list byte) : option aws_error :=
  match aws_s3_parse_content_range_cursor value with
  | Failure e => Some e
  | Success (object_range_start, object_range_end, object_size) =>
      if rq_part_range_end r =? 0 then None
      else if negb (rq_part_range_start r =? object_range_start) then Some AWS_ERROR_S3_INVALID_CONTENT_RANGE_HEADER
      else if rq_part_range_end r =? object_range_end then None
      else if negb (rq_part_number_1 r) &&
              (negb (object_size =? object_range_end +[64] 1) || (rq_part_range_end r <? object_range_end))
      then Some AWS_ERROR_S3_INVALID_CONTENT_RANGE_HEADER
      else None
  end.

Definition record_id (id : option (list byte)) (header name value : list byte) : option (list byte) :=
  match id with None => if bool_decide (name = header) then Some value else None | _ => id end.

(** The loop over the headers. *)
Fixpoint record_headers r (successful : bool) (headers : http_headers) s : send_data * option aws_error :=
  match headers with
  | [] => (s, None)
  | (name, value) :: headers =>
      let s := s <| sd_request_id ::= λ id, record_id id g_request_id_header_name name value |>
                 <| sd_amz_id_2 ::= λ id, record_id id g_amz_id_2_header_name name value |> in
      let e := if bool_decide (name = g_content_range_header_name) && successful && bool_decide (rq_type r = REQUEST_GET_OBJECT)
               then check_content_range r value else None in
      match e with
      | Some e => (s, Some e)
      | None =>
          let s := if negb successful || rq_record_response_headers r
                   then s <| sd_response_headers ::= fmap (λ h, h ++ [(name, value)]) |> else s in
          record_headers r successful headers s
      end
  end.

(** [status] is what the stream tells. *)
Definition s_s3_meta_request_incoming_headers r (status : option Z) (headers : http_headers) s : send_data * option aws_error :=
  let s := match status with Some status => s <| sd_response_status := status |> | None => s end in
  let successful := successful_response (sd_response_status s) in
  let s := if successful && rq_validate_response_checksum r && bool_decide (rq_type r = REQUEST_GET_OBJECT)
           then s <| sd_sums ::= s_get_part_response_headers_checksum_helper r headers |> else s in
  let s := if negb successful || rq_record_response_headers r
           then s <| sd_response_headers ::= λ h, Some (default [] h) |> else s in
  record_headers r successful headers s.

(** [combinable] and [whole] are the fields of the meta request for the checksum of the whole object. *)
Definition s_s3_meta_request_headers_block_done r (main combinable : bool) (whole : option s3_checksum) s
    : send_data * option aws_error :=
  if negb main then (s, None)
  else
    let get := bool_decide (rq_type r = REQUEST_GET_OBJECT) in
    let ensured :=
      if rq_validate_response_checksum r && get && successful_response (sd_response_status s)
      then s_ensure_part_combine_sum combinable whole (rq_part_number r) (sd_sums s) else Success (sd_sums s) in
    match ensured with
    | Failure e => (s, Some e)
    | Success sums =>
        let s := s <| sd_sums := sums |> in
        if get && rq_part_number_1 r then
          let reserved_size := rq_part_range_end r -[64] rq_part_range_start r +[64] 1 in
          match aws_s3_parse_content_length_response_header
                  (aws_http_headers_get (default [] (sd_response_headers s)) (lit "Content-Length")) with
          | Success content_length =>
              (s, if reserved_size <? content_length
                  then Some AWS_ERROR_S3_INTERNAL_BUFFER_SIZE_MISMATCH_RETRYING_WITH_RANGE else None)
          | Failure _ => (s, None)
          end
        else (s, None)
    end.

(** * Body *)

(** The buffer of the body, once there is a piece of it. *)
Definition body_buffer r s : option Z :=
  match sd_body s with
  | Some b => b
  | None =>
      if successful_response (sd_response_status s) && bool_decide (rq_type r = REQUEST_GET_OBJECT) then rq_ticket r else None
  end.

(** What does not fit into a buffer of a fixed size is not appended. *)
Definition s_s3_meta_request_incoming_body r (data : list byte) s : send_data * option aws_error :=
  match incoming_body_sums (rq_validate_response_checksum r) (sd_sums s) data with
  | Failure e => (s, Some e)
  | Success sums =>
      let buffer := body_buffer r s in
      let s := s <| sd_body := Some buffer |> in
      match buffer with
      | Some capacity =>
          if capacity <? Z.of_nat (length (sums_received sums)) then (s, Some AWS_ERROR_SHORT_BUFFER)
          else (s <| sd_sums := sums |>, None)
      | None => (s <| sd_sums := sums |>, None)
      end
  end.

(** * The end of the stream *)

(** The checksums are compared and destroyed. *)
Definition s_s3_meta_request_stream_complete r (slots : list combine_slot) (error : option aws_error) s
    : send_data * bool * option aws_error * list combine_slot :=
  let validate := rq_validate_response_checksum r in
  let '(did_validate, error, slots) := stream_complete_sums validate (sd_sums s) (rq_part_number r) slots error in
  let s := if validate then s <| sd_sums ::= λ sums, mkSums None [] None (sums_received sums) |> else s in
  (s, did_validate, error, slots).

Definition s_should_check_for_error_despite_200_OK r : bool := negb (bool_decide (rq_type r = REQUEST_GET_OBJECT)).

Definition s_s3_meta_request_error_code_from_response r s : option aws_error :=
  let from_status := s_s3_meta_request_error_code_from_response_status (sd_response_status s) in
  let body := sums_received (sd_sums s) in
  let from_xml :=
    if (bool_decide (from_status ≠ None) || s_should_check_for_error_despite_200_OK r) && (0 <? Z.of_nat (length body))
    then aws_s3_crt_error_code_from_recoverable_server_error_code_string <$> aws_xml_get_body_at_path body [lit "Error"; lit "Code"]
    else None in
  match from_status, from_xml with
  | None, None => None
  | None, Some AWS_ERROR_UNKNOWN => Some AWS_ERROR_S3_NON_RECOVERABLE_ASYNC_ERROR
  | Some e, (None | Some AWS_ERROR_UNKNOWN) => Some e
  | _, Some e => Some e
  end.

(** The errors after which a request is not tried again. *)
Definition not_retried (e : aws_error) : bool :=
  bool_decide (e = AWS_ERROR_S3_INVALID_RESPONSE_STATUS) ||
  bool_decide (e = AWS_ERROR_S3_INTERNAL_BUFFER_SIZE_MISMATCH_RETRYING_WITH_RANGE) ||
  bool_decide (e = AWS_ERROR_S3_NON_RECOVERABLE_ASYNC_ERROR) || bool_decide (e = AWS_ERROR_S3_RESPONSE_CHECKSUM_MISMATCH).

(** [finishing] tells whether the meta request has a result. *)
Definition aws_s3_meta_request_send_request_finish_default r (finishing : bool) (error : option aws_error) s
    : option aws_error * finish_code :=
  let error := match error with Some e => Some e | None => s_s3_meta_request_error_code_from_response r s end in
  (error, match error with
          | None => FINISH_SUCCESS
          | Some e => if not_retried e || finishing then FINISH_FAILED else FINISH_RETRY
          end).

(** * Attempts *)

(** What an HTTP stream calls before it completes. *)
Inductive stream_event :=
| EvHeaders (status : option Z) (headers : http_headers)
| EvBlockDone (main combinable : bool) (whole : option s3_checksum)
| EvBody (data : list byte).

Definition stream_callback r (e : stream_event) s : send_data * option aws_error :=
  match e with
  | EvHeaders status headers => s_s3_meta_request_incoming_headers r status headers s
  | EvBlockDone main combinable whole => s_s3_meta_request_headers_block_done r main combinable whole s
  | EvBody data => s_s3_meta_request_incoming_body r data s
  end.

(** A callback that fails ends the stream with its error; [error] is how it ends otherwise. *)
Fixpoint stream_run r (events : list stream_event) (error : option aws_error) s : send_data * option aws_error :=
  match events with
  | [] => (s, error)
  | e :: events =>
      match stream_callback r e s with
      | (s, Some e) => (s, Some e)
      | (s, None) => stream_run r events error s
      end
  end.

Record attempt_outcome := mkOutcome {
  out_data : send_data;
  out_did_validate : bool;
  out_error : option aws_error;
  out_finish_code : finish_code;
  out_slots : list combine_slot;
}.

Definition attempt r (events : list stream_event) (error : option aws_error) (finishing : bool) (slots : list combine_slot) s
    : attempt_outcome :=
  let '(s, error) := stream_run r events error s in
  let '(s, did_validate, error, slots) := s_s3_meta_request_stream_complete r slots error s in
  let '(error, code) := aws_s3_meta_request_send_request_finish_default r finishing error s in
  mkOutcome s did_validate error code slots.

(** The running checksums are not part of the [send_data] that is cleared; the body is. *)
Definition aws_s3_request_clean_up_send_data s : send_data :=
  no_send_data <| sd_sums := sd_sums s <| sums_received := [] |> |>.

(** A request that was tried before. *)
Fixpoint attempts r (l : list (list stream_event * option aws_error)) s : send_data :=
  match l with
  | [] => s
  | (events, error) :: l => attempts r l (aws_s3_request_clean_up_send_data (out_data (attempt r events error false [] s)))
  end.
End response.

(** * Responses as a whole *)

(** A response: its status, its headers as they come, in one or more lists, and the pieces of its body. *)
Record http_response := mkHttpResponse {
  rsp_status : Z;
  rsp_batches : list http_headers;
  rsp_bodies : list (list byte);
}.

Definition response_events (combinable : bool) (whole : option s3_checksum) (p : http_response) : list stream_event :=
  (EvHeaders (Some (rsp_status p)) <$> rsp_batches p) ++ EvBlockDone true combinable whole :: (EvBody <$> rsp_bodies p).

Section responses.
Context `{B : !AwsByteCursor} `{H : !AwsHttpHeaders} `{D : !AwsDigest} `{!AwsDigestLaws D} `{X : !AwsXml}.

Implicit Types (r : sent_request) (s : send_data) (p : http_response).

Notation is_get r := (rq_type r = REQUEST_GET_OBJECT).

(** What makes a response acceptable. *)
Definition range_as_asked r (value : list byte) : Prop :=
  ∃ first last size, aws_s3_parse_content_range_cursor value = Success (first, last, size) ∧
    (rq_part_range_end r ≠ 0 → first = rq_part_range_start r ∧
      (last = rq_part_range_end r ∨ rq_part_number_1 r = true ∨ size = last +[64] 1 ∧ last ≤ rq_part_range_end r)).

(** The checksum that a list of headers has for the part. *)
Definition batch_claim r (headers : http_headers) : option (checksum_algorithm * list byte) :=
  match find_part_checksum r s_checksum_algo_priority_list headers with
  | Some (a, v) =>
      if Z.of_nat (length v) =? default 0 (aws_base64_compute_encoded_len (aws_get_digest_size_from_checksum_algorithm a))
      then Some (a, v) else None
  | None => None
  end.
Definition part_claim r (batches : list http_headers) : option (checksum_algorithm * list byte) :=
  list.last (omap (batch_claim r) batches).

Definition body_matches (body : list byte) (claim : checksum_algorithm * list byte) : Prop :=
  claim.2 ≠ [] → ∃ c, sum_of claim.1 body = Some c ∧ s_validate_checksum c claim.2 = true.

Definition recorded r p : http_headers :=
  if negb (successful_response (rsp_status p)) || rq_record_response_headers r then concat (rsp_batches p) else [].

Definition body_of p : list byte := concat (rsp_bodies p).

(** The error that a body tells. *)
Definition told_error (body : list byte) : option aws_error :=
  if 0 <? Z.of_nat (length body)
  then aws_s3_crt_error_code_from_recoverable_server_error_code_string <$> aws_xml_get_body_at_path body [lit "Error"; lit "Code"]
  else None.

Record acceptable r p : Prop := {
  acc_status : successful_response (rsp_status p) = true;
  acc_ranges : is_get r → Forall (λ h, h.1 = g_content_range_header_name → range_as_asked r h.2) (concat (rsp_batches p));
  acc_length : is_get r → rq_part_number_1 r = true → ∀ n,
    aws_s3_parse_content_length_response_header (aws_http_headers_get (recorded r p) (lit "Content-Length")) = Success n →
    n ≤ rq_part_range_end r -[64] rq_part_range_start r +[64] 1;
  acc_fits : is_get r → ∀ capacity, rq_ticket r = Some capacity → rsp_bodies p ≠ [] → Z.of_nat (length (body_of p)) ≤ capacity;
  acc_checksum : is_get r → rq_validate_response_checksum r = true → ∀ claim, part_claim r (rsp_batches p) = Some claim →
    body_matches (body_of p) claim;
  acc_body : rq_type r ≠ REQUEST_GET_OBJECT → told_error (body_of p) = None;
}.

(** ** Headers *)

Lemma check_content_range_spec r value : check_content_range r value = None ↔ range_as_asked r value.
Proof.
  unfold check_content_range, range_as_asked. destruct (aws_s3_parse_content_range_cursor value) as [[[first last] size]|e].
  - split.
    + intros Hc. exists first, last, size. split; [done|]. intros Hne%Z.eqb_neq. rewrite Hne in Hc.
      destruct (Z.eqb_spec (rq_part_range_start r) first); [|done]. simpl in Hc. split; [done|].
      destruct (Z.eqb_spec (rq_part_range_end r) last); [by left|]. right.
      destruct (rq_part_number_1 r); [by left|]. right. simpl in Hc.
      destruct (Z.eqb_spec size (last +[64] 1)); [|done]. destruct (Z.ltb_spec (rq_part_range_end r) last); [done|]. done.
    + intros (f & l & n & [= <- <- <-] & Hc). destruct (Z.eqb_spec (rq_part_range_end r) 0) as [|Hne]; [done|].
      destruct (Hc Hne) as [<- Hl]. rewrite Z.eqb_refl. simpl. destruct (Z.eqb_spec (rq_part_range_end r) last); [done|].
      destruct Hl as [->|[->|[-> Hle]]]; [done..|]. rewrite Z.eqb_refl, (proj2 (Z.ltb_ge (rq_part_range_end r) last) Hle). simpl. by rewrite andb_false_r.
  - split; [done|]. intros (f & l & n & ? & _). done.
Qed.

(** What the headers do not change. *)
Definition same_body s s' : Prop :=
  sd_response_status s' = sd_response_status s ∧ sd_body s' = sd_body s ∧ sd_sums s' = sd_sums s.

Lemma record_headers_spec r successful headers s :
  let '(s', e) := record_headers r successful headers s in
  same_body s s' ∧
  (e = None ↔ (successful = true → is_get r → Forall (λ h, h.1 = g_content_range_header_name → range_as_asked r h.2) headers)) ∧
  (e = None → sd_response_headers s' = if negb successful || rq_record_response_headers r
                                       then (λ h, h ++ headers) <$> sd_response_headers s else sd_response_headers s).
Proof.
  revert s. induction headers as [|[name value] headers IH]; intros s; simpl.
  - split_and!; [done|by split|]. intros _. destruct (_ || _); [|done]. destruct (sd_response_headers s); simpl; by rewrite ?app_nil_r.
  - destruct (_ && bool_decide (is_get r)) eqn:Hcheck.
    + apply andb_true_iff in Hcheck as [[Hn%bool_decide_eq_true Hs]%andb_true_iff Hg%bool_decide_eq_true].
      destruct (check_content_range r value) as [e|] eqn:Hc.
      * split; [done|]. split; [|done]. split; [done|]. intros HF. specialize (HF Hs Hg). apply list.Forall_cons in HF as [HF _].
        specialize (HF Hn). simpl in HF. apply check_content_range_spec in HF. congruence.
      * set (s1 := if _ || _ then _ else _). specialize (IH s1). destruct (record_headers r successful headers s1) as [s' e].
        destruct IH as (I1 & I2 & I3). apply check_content_range_spec in Hc.
        split_and!; [unfold same_body in *; destruct I1 as (-> & -> & ->); subst s1; by destruct (_ || _)| |].
        -- rewrite I2. setoid_rewrite list.Forall_cons. simpl. split; [auto|]. intros HF H1 H2. by apply HF.
        -- intros He. rewrite (I3 He). subst s1. destruct (_ || _); [|done]. simpl. destruct (sd_response_headers s); simpl; [|done].
           by rewrite <-app_assoc.
    + set (s1 := if _ || _ then _ else _). specialize (IH s1). destruct (record_headers r successful headers s1) as [s' e].
      destruct IH as (I1 & I2 & I3).
      split_and!; [unfold same_body in *; destruct I1 as (-> & -> & ->); subst s1; by destruct (_ || _)| |].
      * rewrite I2. setoid_rewrite list.Forall_cons. simpl. split; [|intros HF H1 H2; by apply HF].
        intros HF H1 H2. split; [|auto]. intros ->. rewrite H1, H2 in Hcheck. by rewrite !bool_decide_eq_true_2 in Hcheck.
      * intros He. rewrite (I3 He). subst s1. destruct (_ || _); [|done]. simpl. destruct (sd_response_headers s); simpl; [|done].
        by rewrite <-app_assoc.
Qed.

(** The running sum and the checksum to compare it with. *)
Definition claim_sums (claim : option (checksum_algorithm * list byte)) (sums : response_sums) : response_sums :=
  match claim with
  | Some (a, v) => sums <| response_header_checksum := v |> <| request_running_sum := aws_checksum_new a |>
  | None => sums
  end.

Lemma headers_helper_claim r headers sums :
  s_get_part_response_headers_checksum_helper r headers sums = claim_sums (batch_claim r headers) sums.
Proof.
  unfold s_get_part_response_headers_checksum_helper, batch_claim. destruct (find_part_checksum _ _ _) as [[a v]|]; [|done].
  by destruct (_ =? _).
Qed.

Lemma part_claim_cons r h batches :
  part_claim r (h :: batches) = match part_claim r batches with Some c => Some c | None => batch_claim r h end.
Proof.
  unfold part_claim.
  change (omap (batch_claim r) (h :: batches)) with
    (match batch_claim r h with Some c => c :: omap (batch_claim r) batches | None => omap (batch_claim r) batches end).
  destruct (batch_claim r h) as [c|]; [|by destruct (list.last _)]. rewrite last_cons. by destruct (list.last _).
Qed.

Lemma claim_sums_cons r h batches sums :
  claim_sums (part_claim r batches) (claim_sums (batch_claim r h) sums) = claim_sums (part_claim r (h :: batches)) sums.
Proof. rewrite part_claim_cons. destruct (part_claim r batches) as [[a v]|]; [|done]. by destruct (batch_claim r h) as [[a' v']|]. Qed.

Definition takes_checksum r (status : Z) : bool :=
  successful_response status && rq_validate_response_checksum r && bool_decide (is_get r).
Definition records r (status : Z) : bool := negb (successful_response status) || rq_record_response_headers r.
Definition ranges_ok r (status : Z) (headers : http_headers) : Prop :=
  successful_response status = true → is_get r → Forall (λ h, h.1 = g_content_range_header_name → range_as_asked r h.2) headers.

(** The state after headers that were all accepted. *)
Record after_headers r (status : Z) (batches : list http_headers) s s' : Prop := {
  ah_status : sd_response_status s' = if decide (batches = []) then sd_response_status s else status;
  ah_body : sd_body s' = sd_body s;
  ah_headers : default [] (sd_response_headers s') =
    default [] (sd_response_headers s) ++ if records r status then concat batches else [];
  ah_sums : sd_sums s' = if takes_checksum r status then claim_sums (part_claim r batches) (sd_sums s) else sd_sums s;
}.

Lemma one_batch r status headers s :
  let '(s', e) := s_s3_meta_request_incoming_headers r (Some status) headers s in
  (e = None ↔ ranges_ok r status headers) ∧ (e = None → after_headers r status [headers] s s').
Proof.
  unfold s_s3_meta_request_incoming_headers. cbv zeta. cbn [sd_response_status].
  set (s1 := s <| sd_response_status := status |>). change (sd_response_status s1) with status.
  set (s2 := if _ && _ && _ then _ else s1). set (s3 := if _ || _ then _ else s2).
  pose proof (record_headers_spec r (successful_response status) headers s3) as Hr.
  destruct (record_headers r _ headers s3) as [s' e]. destruct Hr as ((R1 & R2 & R3) & He & Hh). split; [done|].
  intros Hn. assert (sd_response_status s3 = status ∧ sd_body s3 = sd_body s ∧
    sd_sums s3 = if takes_checksum r status then claim_sums (part_claim r [headers]) (sd_sums s) else sd_sums s) as (S1 & S2 & S3).
  { subst s3 s2 s1. unfold takes_checksum. rewrite part_claim_cons. cbn [part_claim list.last omap list_omap].
    setoid_rewrite <-headers_helper_claim. destruct (_ && _ && _), (_ || _); done. }
  split.
  - by rewrite R1.
  - by rewrite R2.
  - rewrite (Hh Hn). unfold records. subst s3 s2 s1. destruct (_ || _); simpl; [|by destruct (_ && _ && _); rewrite app_nil_r].
    rewrite app_nil_r. by destruct (_ && _ && _).
  - by rewrite R3.
Qed.

Lemma after_headers_cons r status h batches s s1 s' :
  after_headers r status [h] s s1 → after_headers r status batches s1 s' → after_headers r status (h :: batches) s s'.
Proof.
  intros [A1 A2 A3 A4] [B1 B2 B3 B4]. split.
  - rewrite B1. by case_decide.
  - congruence.
  - rewrite B3, A3, <-app_assoc. f_equal. destruct (records r status); [|done]. simpl. by rewrite app_nil_r.
  - rewrite B4, A4. destruct (takes_checksum r status); [|done]. rewrite <-(claim_sums_cons r h batches). by rewrite part_claim_cons.
Qed.

Lemma batches_run r status batches rest error s :
  let events := (EvHeaders (Some status) <$> batches) ++ rest in
  (∃ s', stream_run r events error s = stream_run r rest error s' ∧ ranges_ok r status (concat batches) ∧
     after_headers r status batches s s') ∨
  (∃ s' e, stream_run r events error s = (s', Some e) ∧ ¬ ranges_ok r status (concat batches)).
Proof.
  cbv zeta. revert s. induction batches as [|h batches IH]; intros s.
  - left. exists s. split_and!; [done|by intros _ _|]. split; try done; simpl; [|by destruct (takes_checksum _ _)].
    destruct (records _ _); by rewrite app_nil_r.
  - rewrite fmap_cons. cbn [app stream_run stream_callback concat]. pose proof (one_batch r status h s) as Ho. destruct (s_s3_meta_request_incoming_headers _ _ _ _) as [s1 [e|]].
    + destruct Ho as [Ho _]. right. exists s1, e. split; [done|]. intros Hr. discriminate (proj2 Ho). intros Hs Hg.
      specialize (Hr Hs Hg). by apply Forall_app in Hr as [? _].
    + destruct Ho as [Ho1 Ho2]. specialize (Ho2 eq_refl). assert (ranges_ok r status h) as Hh by by apply Ho1.
      destruct (IH s1) as [(s' & -> & Hr & Ha)|(s' & e & -> & Hr)].
      * left. exists s'. split_and!; [done| |by eapply after_headers_cons]. intros Hs Hg. apply Forall_app. split; [by apply Hh|by apply Hr].
      * right. exists s', e. split; [done|]. intros Hn. apply Hr. intros Hs Hg. specialize (Hn Hs Hg). by apply Forall_app in Hn as [_ ?].
Qed.

(** ** Checksums *)

Definition feed (c : s3_checksum) (data : list byte) : s3_checksum :=
  c <| sum_impl ::= λ i, match i with
                         | ImplCrc v => ImplCrc (crc (sum_algorithm c) data v)
                         | ImplHash fed => ImplHash (fed ++ data)
                         end |>.

Definition good_sum (c : option s3_checksum) : Prop := match c with Some c => sum_good c = true | None => True end.

Lemma update_feed c data : good_sum c → update_sum c data = Success ((λ c, feed c data) <$> c).
Proof.
  destruct c as [c|]; [|done]. intros Hc. simpl in *. unfold aws_checksum_update, feed. rewrite Hc. simpl.
  destruct c as [n a g [v|l]]; done.
Qed.

Lemma feed_good c data : good_sum c → good_sum ((λ c, feed c data) <$> c).
Proof. by destruct c. Qed.

Lemma feed_app c l k : feed (feed c l) k = feed c (l ++ k).
Proof using Type*. destruct c as [n a g [v|fed]]; unfold feed; simpl; [by rewrite crc_app|by rewrite (assoc_L (++))]. Qed.

Lemma new_good a : good_sum (aws_checksum_new a).
Proof. by destruct a. Qed.

Lemma feed_new a : (λ c, feed c []) <$> aws_checksum_new a = aws_checksum_new a.
Proof using Type*. destruct a; unfold feed; simpl; rewrite ?crc_nil; try done; unfold uint; simpl; lia. Qed.

Lemma sum_of_feed a body : sum_of a body = (λ c, feed c body) <$> aws_checksum_new a.
Proof. unfold sum_of. destruct a; done. Qed.

(** ** Bodies *)

Definition fits (buffer : option Z) (n : Z) : bool := match buffer with Some capacity => n <=? capacity | None => true end.

Definition good_sums (sums : response_sums) : Prop := good_sum (request_running_sum sums) ∧ good_sum (combine_sum sums).

Definition fed_sums r (sums : response_sums) (data : list byte) : response_sums :=
  let fed c := if rq_validate_response_checksum r then (λ c, feed c data) <$> c else c in
  mkSums (fed (request_running_sum sums)) (response_header_checksum sums) (fed (combine_sum sums)) (sums_received sums ++ data).

Lemma body_step r data s : good_sums (sd_sums s) →
  let n := Z.of_nat (length (sums_received (sd_sums s) ++ data)) in
  let s1 := s <| sd_body := Some (body_buffer r s) |> in
  s_s3_meta_request_incoming_body r data s =
    if fits (body_buffer r s) n then (s1 <| sd_sums := fed_sums r (sd_sums s) data |>, None) else (s1, Some AWS_ERROR_SHORT_BUFFER).
Proof.
  intros [G1 G2]. cbv zeta. unfold s_s3_meta_request_incoming_body, incoming_body_sums, fed_sums.
  destruct (sd_sums s) as [v hc c l] eqn:Hs. simpl in *.
  destruct (rq_validate_response_checksum r).
  - rewrite update_feed by done. cbn [mbind result_bind]. rewrite update_feed by done. cbn [mbind result_bind].
    unfold fits. destruct (body_buffer r s) as [capacity|]; [|done]. cbn [sums_received]. by rewrite Z.leb_antisym; destruct (_ <? _).
  - cbn [mbind result_bind]. unfold fits. destruct (body_buffer r s) as [capacity|]; [|done]. cbn [sums_received].
    by rewrite Z.leb_antisym; destruct (_ <? _).
Qed.

Lemma fed_good r sums data : good_sums sums → good_sums (fed_sums r sums data).
Proof. intros [G1 G2]. unfold good_sums, fed_sums. simpl. destruct (rq_validate_response_checksum r); [|done]. by split; apply feed_good. Qed.

Lemma fed_sums_app r sums l k : fed_sums r (fed_sums r sums l) k = fed_sums r sums (l ++ k).
Proof using Type*.
  unfold fed_sums. simpl. rewrite <-app_assoc. destruct (rq_validate_response_checksum r); [|done].
  destruct (request_running_sum sums), (combine_sum sums); simpl; by rewrite ?feed_app.
Qed.

Lemma fed_concat r sums bodies : fed_sums r sums [] = sums → foldl (fed_sums r) sums bodies = fed_sums r sums (concat bodies).
Proof using Type*.
  intros Hn. rewrite <-Hn at 1. change (concat bodies) with ([] ++ concat bodies). generalize ([] : list byte) as l.
  induction bodies as [|d bodies IH]; intros l; simpl; [by rewrite app_nil_r|]. by rewrite fed_sums_app, IH, <-app_assoc.
Qed.

Lemma bodies_run r bodies s : good_sums (sd_sums s) →
  let '(s', e) := stream_run r (EvBody <$> bodies) None s in
  (e = None ↔ (bodies ≠ [] → fits (body_buffer r s) (Z.of_nat (length (sums_received (sd_sums s) ++ concat bodies))) = true)) ∧
  (e = None → sd_response_status s' = sd_response_status s ∧ sd_response_headers s' = sd_response_headers s ∧
              sd_sums s' = foldl (fed_sums r) (sd_sums s) bodies).
Proof.
  revert s. induction bodies as [|d bodies IH]; intros s Hg; [by split|].
  rewrite fmap_cons. cbn [stream_run stream_callback concat foldl]. rewrite body_step by done.
  destruct (fits (body_buffer r s) (Z.of_nat (length (sums_received (sd_sums s) ++ d)))) eqn:Hfit.
  - set (s1 := s <| sd_body := _ |> <| sd_sums := _ |>). specialize (IH s1 (fed_good _ _ _ Hg)).
    assert (body_buffer r s1 = body_buffer r s) as Hb by done. rewrite Hb in IH.
    change (sums_received (sd_sums s1)) with (sums_received (sd_sums s) ++ d) in IH. rewrite <-app_assoc in IH.
    destruct (stream_run r (EvBody <$> bodies) None s1) as [s' e]. destruct IH as [I1 I2]. split; [|done]. rewrite I1. split.
    + intros Hi _. destruct bodies as [|d' bodies]; [|by apply Hi]. simpl. by rewrite app_nil_r.
    + intros Hi Hne. by apply Hi.
  - split; [|done]. split; [done|]. intros Hi. specialize (Hi ltac:(done)). unfold fits in *. destruct (body_buffer r s) as [n|]; [|done].
    rewrite !length_app in *. apply Z.leb_le in Hi. apply Z.leb_gt in Hfit. lia.
Qed.

(** ** The end of the headers *)

Definition whole_ok (combinable : bool) (whole : option s3_checksum) : Prop :=
  ∀ w, combinable = true → whole = Some w → aws_checksum_algorithm_is_combinable (sum_algorithm w) = true.

(** A sum for the whole object is of an algorithm that can be combined, and was just made. *)
Definition combines (c : option s3_checksum) : Prop :=
  c = None ∨ ∃ a, aws_checksum_algorithm_is_combinable a = true ∧ c = aws_checksum_new a.

Lemma ensure_spec combinable whole part_number sums : whole_ok combinable whole → combine_sum sums = None →
  ∃ c, s_ensure_part_combine_sum combinable whole part_number sums = Success (sums <| combine_sum := c |>) ∧ combines c.
Proof.
  intros Hw Hc. unfold s_ensure_part_combine_sum. rewrite Hc.
  assert (sums = sums <| combine_sum := None |>) as Hsame by (destruct sums; simpl in *; by subst).
  destruct whole as [w|]; [|exists None; rewrite <-Hsame; split; [done|by left]].
  destruct (_ || _) eqn:Hn; [exists None; rewrite <-Hsame; split; [done|by left]|].
  apply orb_false_iff in Hn as [_ Hcb%negb_false_iff]. specialize (Hw w Hcb eq_refl).
  exists (aws_checksum_new (sum_algorithm w)). rewrite new_combinable by done. split; [done|]. right. exists (sum_algorithm w).
  split; [done|]. by rewrite new_combinable.
Qed.

Definition length_ok r (headers : http_headers) : Prop :=
  is_get r → rq_part_number_1 r = true → ∀ n,
    aws_s3_parse_content_length_response_header (aws_http_headers_get headers (lit "Content-Length")) = Success n →
    n ≤ rq_part_range_end r -[64] rq_part_range_start r +[64] 1.

Lemma block_done_spec r combinable whole s : whole_ok combinable whole → combine_sum (sd_sums s) = None →
  let '(s', e) := s_s3_meta_request_headers_block_done r true combinable whole s in
  (e = None ↔ length_ok r (default [] (sd_response_headers s))) ∧
  (e = None ∨ e = Some AWS_ERROR_S3_INTERNAL_BUFFER_SIZE_MISMATCH_RETRYING_WITH_RANGE) ∧
  ∃ c, combines c ∧ s' = s <| sd_sums := sd_sums s <| combine_sum := c |> |>.
Proof.
  intros Hw Hc. unfold s_s3_meta_request_headers_block_done. cbn [negb]. cbv zeta.
  set (ensured := if _ && _ && _ then _ else _).
  assert (∃ c, ensured = Success (sd_sums s <| combine_sum := c |>) ∧ combines c) as (c & -> & Hcc).
  { subst ensured. destruct (_ && _ && _); [by apply ensure_spec|]. exists None. split; [|by left].
    destruct (sd_sums s); simpl in *; by subst. }
  set (s1 := s <| sd_sums := _ |>). change (sd_response_headers s1) with (sd_response_headers s). unfold length_ok.
  destruct (bool_decide (is_get r)) eqn:Hg; [apply bool_decide_eq_true in Hg|apply bool_decide_eq_false in Hg].
  2: { simpl. split_and!; [done|by left|by exists c]. }
  destruct (rq_part_number_1 r); [|simpl; split_and!; [done|by left|by exists c]]. cbn [andb].
  destruct (aws_s3_parse_content_length_response_header _) as [n|e']; [|split_and!; [done|by left|by exists c]].
  split; [|split; [destruct (_ <? _); auto|by exists c]]. destruct (Z.ltb_spec (rq_part_range_end r -[64] rq_part_range_start r +[64] 1) n) as [Hlt|Hle].
  - split; [done|]. intros Hl. specialize (Hl Hg eq_refl n eq_refl). lia.
  - split; [|done]. by intros _ _ _ n' [= <-].
Qed.

(** ** The end of the stream *)

Definition finalizes (c : option s3_checksum) : Prop :=
  match c with Some c => ∃ d, snd (aws_checksum_finalize c 8) = Success d | None => True end.

Lemma combines_finalizes c data : combines c → finalizes ((λ c, feed c data) <$> c).
Proof using Type*.
  intros [->|(a & Ha & ->)]; [done|]. rewrite new_combinable by done. simpl. unfold feed. simpl. eexists.
  apply finalize_sum_at, digest_size_combinable, Ha.
Qed.

Lemma complete_spec r slots s : (rq_validate_response_checksum r = true → finalizes (combine_sum (sd_sums s))) →
  let '(s', _, e, _) := s_s3_meta_request_stream_complete r slots None s in
  (e = None ↔ (rq_validate_response_checksum r = true → ∀ c, request_running_sum (sd_sums s) = Some c →
     response_header_checksum (sd_sums s) ≠ [] → s_validate_checksum c (response_header_checksum (sd_sums s)) = true)) ∧
  sd_response_status s' = sd_response_status s ∧ sd_response_headers s' = sd_response_headers s ∧
  sums_received (sd_sums s') = sums_received (sd_sums s).
Proof.
  intros Hfin. unfold s_s3_meta_request_stream_complete, stream_complete_sums. cbv zeta.
  destruct (rq_validate_response_checksum r) eqn:Hv; cbn [negb]; [|by split_and!]. specialize (Hfin eq_refl).
  destruct (sd_sums s) as [v hc c l] eqn:Hs. cbn [request_running_sum response_header_checksum combine_sum sums_received] in *.
  assert (∀ did, let '(_, e, _) := match c with
      | Some sum => match snd (aws_checksum_finalize sum 8) with
        | Success d => (did, None, s_s3_meta_request_record_part_digest slots (rq_part_number r) d (Z.of_nat (length l)))
        | Failure e => (did, Some e, slots) end
      | None => (did : bool, None, slots) end in e = (None : option aws_error)) as Hcomb.
  { intros did. destruct c as [c|]; [|done]. destruct Hfin as [d ->]. done. }
  destruct v as [sum|].
  - destruct (Nat.eqb_spec (length hc) 0) as [Hl|Hl].
    + apply length_zero_iff_nil in Hl as ->. specialize (Hcomb false). destruct (match c with Some _ => _ | None => _ end) as [[dv e] sl].
      subst e. split_and!; [|done|done|by rewrite Hs || simpl; rewrite ?Hs]. split; [|done]. by intros _ _ c' _ [].
    + destruct (s_validate_checksum sum hc) eqn:Hval.
      * specialize (Hcomb true). destruct (match c with Some _ => _ | None => _ end) as [[dv e] sl]. subst e.
        split_and!; [|done|done|simpl; by rewrite ?Hs]. split; [|done]. by intros _ _ c' [= <-] _.
      * split_and!; [|done|done|simpl; by rewrite ?Hs]. split; [done|]. intros Hn. specialize (Hn eq_refl sum eq_refl).
        rewrite Hval in Hn. discriminate Hn. by intros ->.
  - specialize (Hcomb false). destruct (match c with Some _ => _ | None => _ end) as [[dv e] sl]. subst e.
    split_and!; [|done|done|simpl; by rewrite ?Hs]. split; [|done]. by intros _ _ c' ?.
Qed.

Lemma failed_attempt r events error finishing slots s s' e : stream_run r events error s = (s', Some e) →
  out_error (attempt r events error finishing slots s) = Some e ∧
  out_finish_code (attempt r events error finishing slots s) = if not_retried e || finishing then FINISH_FAILED else FINISH_RETRY.
Proof.
  intros Hr. unfold attempt. rewrite Hr. unfold s_s3_meta_request_stream_complete, stream_complete_sums. cbv zeta.
  by destruct (rq_validate_response_checksum r).
Qed.

(** ** What was tried before is forgotten *)

Definition quiet_sums r s : Prop :=
  rq_validate_response_checksum r = false → sd_sums s = mkSums None [] None (sums_received (sd_sums s)).

Lemma callback_quiet r e s : quiet_sums r s → quiet_sums r (stream_callback r e s).1.
Proof.
  intros Hq Hv. specialize (Hq Hv). destruct e as [status headers|main combinable whole|data]; simpl.
  - unfold s_s3_meta_request_incoming_headers. cbv zeta. set (s1 := match status with Some _ => _ | None => _ end).
    assert (sd_sums s1 = sd_sums s) as H1 by by subst s1; destruct status. rewrite Hv, andb_false_r. cbn [andb].
    set (s2 := if _ || _ then _ else s1). assert (sd_sums s2 = sd_sums s) as H2 by by subst s2; destruct (_ || _).
    pose proof (record_headers_spec r (successful_response (sd_response_status s1)) headers s2) as Hr.
    destruct (record_headers _ _ _ _) as [s' e]. destruct Hr as ((_ & _ & Hr) & _). simpl. congruence.
  - unfold s_s3_meta_request_headers_block_done. destruct main; [|done]. rewrite Hv. cbn [negb andb]. cbv zeta.
    destruct (_ && _); [|done]. by destruct (aws_s3_parse_content_length_response_header _).
  - unfold s_s3_meta_request_incoming_body, incoming_body_sums. rewrite Hv. cbn [mbind result_bind].
    destruct (body_buffer r s) as [n|]; [destruct (_ <? _); [done|]|]; simpl; by rewrite Hq.
Qed.

Lemma run_quiet r events error s : quiet_sums r s → quiet_sums r (stream_run r events error s).1.
Proof.
  revert s. induction events as [|e events IH]; intros s Hq; [done|]. simpl. pose proof (callback_quiet r e s Hq) as Hc.
  destruct (stream_callback r e s) as [s' [e'|]]; [done|]. by apply IH.
Qed.

Lemma attempts_fresh r l : attempts r l no_send_data = no_send_data.
Proof.
  induction l as [|[events error] l IH]; [done|]. cbn [attempts]. rewrite <-IH at 2. f_equal. unfold attempt.
  pose proof (run_quiet r events error no_send_data ltac:(done)) as Hq. destruct (stream_run r events error no_send_data) as [s e].
  unfold s_s3_meta_request_stream_complete. destruct (stream_complete_sums _ _ _ _ _) as [[did e'] sl]. cbv zeta.
  unfold aws_s3_request_clean_up_send_data, aws_s3_meta_request_send_request_finish_default. cbn [out_data]. destruct (rq_validate_response_checksum r) eqn:Hv; [done|].
  specialize (Hq Hv). cbn [fst] in Hq. rewrite Hq. done.
Qed.

(** ** Whole responses *)

Definition used_buffer r (status : Z) : option Z := if successful_response status && bool_decide (is_get r) then rq_ticket r else None.

(** The state when all callbacks of a response have accepted it. *)
Record received r p s : Prop := {
  rec_status : sd_response_status s = rsp_status p;
  rec_headers : default [] (sd_response_headers s) = recorded r p;
  rec_body : sums_received (sd_sums s) = body_of p;
  rec_sum : request_running_sum (sd_sums s) =
    if takes_checksum r (rsp_status p) then claim ← part_claim r (rsp_batches p); sum_of claim.1 (body_of p) else None;
  rec_claim : response_header_checksum (sd_sums s) =
    if takes_checksum r (rsp_status p) then default [] (snd <$> part_claim r (rsp_batches p)) else [];
  rec_combine : rq_validate_response_checksum r = true → finalizes (combine_sum (sd_sums s));
}.

Lemma claim_fresh r p : let sums := if takes_checksum r (rsp_status p) then claim_sums (part_claim r (rsp_batches p)) no_sums else no_sums in
  good_sum (request_running_sum sums) ∧ combine_sum sums = None ∧ sums_received sums = [] ∧
  request_running_sum sums = (if takes_checksum r (rsp_status p) then claim ← part_claim r (rsp_batches p); aws_checksum_new claim.1 else None) ∧
  response_header_checksum sums = if takes_checksum r (rsp_status p) then default [] (snd <$> part_claim r (rsp_batches p)) else [].
Proof.
  cbv zeta. destruct (takes_checksum _ _); [|done]. destruct (part_claim _ _) as [[a v]|]; [|done]. simpl.
  split_and!; try done. apply new_good.
Qed.

Lemma fed_fresh r sums c : combines c → (request_running_sum sums = None ∨ ∃ a, request_running_sum sums = aws_checksum_new a) →
  fed_sums r (sums <| combine_sum := c |>) [] = sums <| combine_sum := c |>.
Proof using Type*.
  intros Hc Hs. destruct sums as [v hc c' l]. unfold fed_sums. simpl in *. rewrite app_nil_r.
  destruct (rq_validate_response_checksum r); [|done]. f_equal.
  - destruct Hs as [->|[a ->]]; [done|]. apply feed_new.
  - destruct Hc as [->|(a & _ & ->)]; [done|]. apply feed_new.
Qed.

Lemma takes_validates r status : takes_checksum r status = true →
  successful_response status = true ∧ rq_validate_response_checksum r = true ∧ is_get r.
Proof. unfold takes_checksum. by intros [[? ?]%andb_true_iff ?%bool_decide_eq_true]%andb_true_iff. Qed.

Lemma response_run r combinable whole p : rsp_batches p ≠ [] → whole_ok combinable whole →
  let '(s, e) := stream_run r (response_events combinable whole p) None no_send_data in
  (e = None ↔ ranges_ok r (rsp_status p) (concat (rsp_batches p)) ∧ length_ok r (recorded r p) ∧
     (rsp_bodies p ≠ [] → fits (used_buffer r (rsp_status p)) (Z.of_nat (length (body_of p))) = true)) ∧
  (e = None → received r p s).
Proof using Type*.
  intros Hb Hw. unfold response_events.
  destruct (batches_run r (rsp_status p) (rsp_batches p) (EvBlockDone true combinable whole :: (EvBody <$> rsp_bodies p)) None no_send_data)
    as [(s1 & -> & Hr & [A1 A2 A3 A4])|(s1 & e & -> & Hr)]; [|split; [|done]; split; [done|by intros (? & _)]].
  rewrite decide_False in A1 by done. change (sd_sums no_send_data) with no_sums in A4. change (default [] (sd_response_headers s1) = recorded r p) in A3.
  destruct (claim_fresh r p) as (G1 & G2 & G3 & G4 & G5). cbv zeta in *. rewrite <-A4 in G1, G2, G3, G4, G5.
  cbn [stream_run stream_callback]. pose proof (block_done_spec r combinable whole s1 Hw G2) as Hd.
  destruct (s_s3_meta_request_headers_block_done _ _ _ _ _) as [s2 e2]. rewrite A3 in Hd. destruct Hd as (D1 & _ & c & Hc & ->).
  destruct e2 as [e|]; [split; [|done]; split; [done|]; intros (_ & Hl & _); by apply D1 in Hl|].
  set (s2 := s1 <| sd_sums := _ |>). assert (good_sums (sd_sums s2)) as Hg.
  { split; [done|]. simpl. destruct Hc as [->|(a & _ & ->)]; [done|apply new_good]. }
  pose proof (bodies_run r (rsp_bodies p) s2 Hg) as Hrun. destruct (stream_run r (EvBody <$> rsp_bodies p) None s2) as [s' e].
  assert (body_buffer r s2 = used_buffer r (rsp_status p)) as Hbuf.
  { unfold body_buffer, used_buffer. subst s2. simpl. by rewrite A2, A1. }
  rewrite Hbuf in Hrun. replace (sums_received (sd_sums s2)) with ([] : list byte) in Hrun by by rewrite <-G3. destruct Hrun as [R1 R2].
  split; [rewrite R1; split; [intros ?; split_and!; [done|by apply D1|done]|by intros (_ & _ & ?)]|].
  intros He. destruct (R2 He) as (S1 & S2 & S3). rewrite fed_concat in S3.
  2: { subst s2. cbn [sd_sums]. apply fed_fresh; [done|]. rewrite G4. destruct (takes_checksum _ _); [|by left].
       destruct (part_claim _ _) as [[a v]|]; simpl; [right; by eexists|by left]. }
  split.
  - by rewrite S1.
  - by rewrite S2.
  - rewrite S3. simpl. by rewrite G3.
  - rewrite S3. simpl. rewrite G4. destruct (takes_checksum _ _) eqn:Ht; [|by destruct (rq_validate_response_checksum r)].
    apply takes_validates in Ht as (_ & -> & _). destruct (part_claim _ _) as [[a v]|]; [|done]. simpl. by rewrite sum_of_feed.
  - rewrite S3. simpl. by rewrite G5.
  - intros Hv. rewrite S3. simpl. rewrite Hv. by apply combines_finalizes.
Qed.

Lemma told_error_response r s : successful_response (sd_response_status s) = true →
  s_s3_meta_request_error_code_from_response r s = None ↔ (rq_type r ≠ REQUEST_GET_OBJECT → told_error (sums_received (sd_sums s)) = None).
Proof.
  intros Hs%bool_decide_eq_true. unfold s_s3_meta_request_error_code_from_response, told_error, s_should_check_for_error_despite_200_OK.
  rewrite Hs. rewrite bool_decide_eq_false_2 by (intros []; done). cbn [orb].
  destruct (bool_decide (is_get r)) eqn:Hg; [apply bool_decide_eq_true in Hg; by split|apply bool_decide_eq_false in Hg]. cbn [negb andb].
  destruct (if 0 <? _ then _ else _) as [e|].
  - split; [by destruct e|]. intros Hn. by specialize (Hn Hg).
  - by split.
Qed.

Lemma find_part_checksum_listed r l headers a v : find_part_checksum r l headers = Some (a, v) → a ∈ l.
Proof.
  induction l as [|a' l IH]; [done|]. simpl. destruct (negb _); [intros ?; right; auto|].
  destruct (s_header_value_from_list _ _); [intros [= -> ->]; by left|]. intros ?. right. auto.
Qed.

Lemma checksum_accepted r p s : received r p s → successful_response (rsp_status p) = true →
  (rq_validate_response_checksum r = true → ∀ c, request_running_sum (sd_sums s) = Some c →
     response_header_checksum (sd_sums s) ≠ [] → s_validate_checksum c (response_header_checksum (sd_sums s)) = true) ↔
  (is_get r → rq_validate_response_checksum r = true → ∀ claim, part_claim r (rsp_batches p) = Some claim →
     body_matches (body_of p) claim).
Proof.
  intros [_ _ _ Hsum Hclaim _] Hs. rewrite Hsum, Hclaim. unfold takes_checksum, body_matches. rewrite Hs. split.
  - intros Hc Hg Hv claim Hcl Hne. rewrite Hv, bool_decide_eq_true_2 in Hc by done. cbn [andb] in Hc. rewrite Hcl in Hc. simpl in Hc.
    specialize (Hc eq_refl). assert (∃ c, sum_of claim.1 (body_of p) = Some c) as [c Hsome].
    { rewrite sum_of_feed. unfold part_claim in Hcl. apply last_Some_elem_of, list_elem_of_omap in Hcl as (h & _ & Hcl).
      unfold batch_claim in Hcl. destruct (find_part_checksum _ _ _) as [[a v]|] eqn:Hf; [|done]. destruct (_ =? _); [|done].
      injection Hcl as <-. apply find_part_checksum_listed in Hf. simpl. destruct a; try (by eexists);
        by repeat (apply elem_of_cons in Hf as [?|Hf]; [done|]); apply not_elem_of_nil in Hf. }
    exists c. split; [done|]. by apply Hc.
  - intros Hc Hv c. rewrite Hv. destruct (bool_decide (is_get r)) eqn:Hg; [apply bool_decide_eq_true in Hg|done]. cbn [andb].
    destruct (part_claim r (rsp_batches p)) as [claim|]; [|done]. simpl. intros Hsome Hne.
    destruct (Hc Hg Hv claim eq_refl Hne) as (c' & Hc' & Hval). congruence.
Qed.

(** C11: a response with headers, in any pieces and after any earlier attempts, counts as a success exactly if it
    is [acceptable]: its status is that of a success; for a part of an object, each range that it tells under the
    name Content-Range, in these letters, is the one that was asked for (it may end earlier at the end of the
    object, and anywhere for part number 1), where a request whose range ends at byte 0 gets any range
    ([first_byte_unchecked]) and a name in other letters is not looked at ([small_letters_accepted]); the length
    that is recorded for part number 1 and the body fit into what was reserved; the body matches the checksum that
    came with it, if it is to be validated; and the body of another request does not tell an error.  Then the
    request has the body and the headers of this response and nothing of earlier ones. *)
Theorem response_accepted r combinable whole p earlier finishing slots : rsp_batches p ≠ [] → whole_ok combinable whole →
  let o := attempt r (response_events combinable whole p) None finishing slots (attempts r earlier no_send_data) in
  (out_finish_code o = FINISH_SUCCESS ↔ acceptable r p) ∧
  (out_finish_code o = FINISH_SUCCESS → out_error o = None ∧ sd_response_status (out_data o) = rsp_status p ∧
     sums_received (sd_sums (out_data o)) = body_of p ∧ default [] (sd_response_headers (out_data o)) = recorded r p).
Proof using Type*.
  intros Hb Hw. cbv zeta. rewrite attempts_fresh. pose proof (response_run r combinable whole p Hb Hw) as Hrun.
  destruct (stream_run r (response_events combinable whole p) None no_send_data) as [s e] eqn:Hs. destruct Hrun as [R1 R2].
  destruct e as [e|].
  { destruct (failed_attempt r _ _ finishing slots _ _ _ Hs) as [_ ->]. split; [|by destruct (_ || _)]. split; [by destruct (_ || _)|].
    intros [Hst Hra Hle Hfi _ _]. discriminate (proj2 R1). split_and!; [by intros _|done|]. intros Hne. unfold used_buffer, fits. rewrite Hst.
    destruct (bool_decide (is_get r)) eqn:Hg; [apply bool_decide_eq_true in Hg|done]. cbn [andb]. destruct (rq_ticket r) as [n|]; [|done].
    apply Z.leb_le. by apply Hfi. }
  specialize (R2 eq_refl). destruct (proj1 R1 eq_refl) as (Hra & Hle & Hfi). unfold attempt. rewrite Hs.
  pose proof (complete_spec r slots s (rec_combine _ _ _ R2)) as Hc.
  destruct (s_s3_meta_request_stream_complete r slots None s) as [[[s' did] e'] sl]. destruct Hc as (C1 & C2 & C3 & C4).
  destruct (R2) as [P1 P2 P3 _ _ _]. rewrite P1 in C2. rewrite P3 in C4.
  unfold aws_s3_meta_request_send_request_finish_default. cbn [out_finish_code out_error out_data].
  split; [|intros Hf; split_and!; [by destruct e', (s_s3_meta_request_error_code_from_response r s'); simpl in *; try destruct (_ || _)|done..|by rewrite C3]].
  destruct (successful_response (rsp_status p)) eqn:Hst.
  - destruct e' as [e'|].
    + split; [by destruct (_ || _)|]. intros Hacc. discriminate (proj2 C1). apply (checksum_accepted r p s R2 Hst), Hacc.
    + pose proof (told_error_response r s') as Ht. rewrite C2, C4 in Ht. specialize (Ht Hst). split.
      * intros Hf. assert (s_s3_meta_request_error_code_from_response r s' = None) as Hn.
        { destruct (s_s3_meta_request_error_code_from_response r s'); [|done]. by destruct (_ || _). }
        split; [done|by apply Hra|done| |by apply (checksum_accepted r p s R2 Hst), C1|by apply Ht].
        intros Hg n Hn' Hne. specialize (Hfi Hne). unfold used_buffer, fits in Hfi. rewrite Hst, bool_decide_eq_true_2, Hn' in Hfi by done.
        by apply Z.leb_le.
      * intros Hacc. by rewrite (proj2 Ht (acc_body _ _ Hacc)).
  - split; [|intros [Hst' _ _ _ _ _]; congruence]. intros Hf. exfalso. destruct e' as [e'|]; [by destruct (_ || _)|].
    unfold s_s3_meta_request_error_code_from_response in Hf. rewrite C2 in Hf. unfold successful_response in Hst.
    destruct (s_s3_meta_request_error_code_from_response_status (rsp_status p)) as [e|]; [|by rewrite bool_decide_eq_true_2 in Hst].
    destruct (if _ && _ then _ else _) as [e'|]; [destruct e'|]; by destruct (_ || _).
Qed.

(** The body tells an error after which the request may be tried again. *)
Definition recoverable (body : list byte) : option aws_error :=
  match told_error body with Some AWS_ERROR_UNKNOWN | None => None | Some e => Some e end.

Lemma recoverable_retried body e : recoverable body = Some e → not_retried e = false.
Proof.
  unfold recoverable, told_error. destruct (0 <? _); [|done]. destruct (aws_xml_get_body_at_path _ _) as [code|]; [|done]. simpl.
  unfold aws_s3_crt_error_code_from_recoverable_server_error_code_string. repeat (destruct (aws_byte_cursor_eq_ignore_case _ _); simpl; [by intros [= <-]|]).
  done.
Qed.

Definition overloaded (status : Z) : bool := existsb (Z.eqb status) [500; 502; 503; 504].

Lemma status_retried status e : s_s3_meta_request_error_code_from_response_status status = Some e →
  not_retried e = negb (overloaded status) ∧ (overloaded status = false → e = AWS_ERROR_S3_INVALID_RESPONSE_STATUS).
Proof.
  unfold s_s3_meta_request_error_code_from_response_status, overloaded. cbn [existsb]. rewrite orb_false_r.
  destruct (_ || _ || _) eqn:H1; [done|]. destruct (status =? 500), (status =? 502), (status =? 503), (status =? 504); simpl; by intros [= <-].
Qed.

Lemma refused_error r s e : s_s3_meta_request_error_code_from_response_status (sd_response_status s) = Some e →
  s_s3_meta_request_error_code_from_response r s = Some (default e (recoverable (sums_received (sd_sums s)))).
Proof.
  intros He. unfold s_s3_meta_request_error_code_from_response, recoverable, told_error. rewrite He.
  rewrite bool_decide_eq_true_2 by done. cbn [orb andb]. destruct (if 0 <? _ then _ else _) as [e'|]; [by destruct e'|done].
Qed.

(** A length that is not expected ends the response, whatever its status is. *)
Lemma too_long_run r combinable whole p : rsp_batches p ≠ [] → whole_ok combinable whole →
  successful_response (rsp_status p) = false → ¬ length_ok r (concat (rsp_batches p)) →
  ∃ s, stream_run r (response_events combinable whole p) None no_send_data =
    (s, Some AWS_ERROR_S3_INTERNAL_BUFFER_SIZE_MISMATCH_RETRYING_WITH_RANGE).
Proof using Type*.
  intros Hb Hw Hst Hl. unfold response_events.
  destruct (batches_run r (rsp_status p) (rsp_batches p) (EvBlockDone true combinable whole :: (EvBody <$> rsp_bodies p)) None no_send_data)
    as [(s1 & -> & Hr & [A1 A2 A3 A4])|(s1 & e & _ & Hr)]; [|destruct Hr; intros ?; congruence].
  change (default [] (sd_response_headers s1) = recorded r p) in A3. unfold recorded in A3. rewrite Hst in A3. simpl in A3.
  unfold takes_checksum in A4. rewrite Hst in A4. simpl in A4.
  cbn [stream_run stream_callback]. pose proof (block_done_spec r combinable whole s1 Hw) as Hd. rewrite A4, A3 in Hd.
  specialize (Hd eq_refl). destruct (s_s3_meta_request_headers_block_done _ _ _ _ _) as [s2 e2]. destruct Hd as (D1 & [->| ->] & _).
  - destruct Hl. by apply D1.
  - by exists s2.
Qed.

(** C12: a response with headers that is not a success, in any pieces and after any earlier attempts, gives the
    error that its body tells if the request may be tried again after it, and the error of its status otherwise.
    The request is tried again, unless the meta request has a result, after such a body or when the server is
    overloaded or broken, and only then.  The headers and the body are kept, whatever was reserved for the body of
    the object.  The exception is a response to the request for part number 1 whose Content-Length is more than
    what was reserved: it gives the error for an object that does not fit, and is not tried again. *)
Theorem response_refused r combinable whole p earlier finishing slots e : rsp_batches p ≠ [] → whole_ok combinable whole →
  s_s3_meta_request_error_code_from_response_status (rsp_status p) = Some e →
  let o := attempt r (response_events combinable whole p) None finishing slots (attempts r earlier no_send_data) in
  (length_ok r (concat (rsp_batches p)) →
     out_error o = Some (default e (recoverable (body_of p))) ∧
     (out_finish_code o = FINISH_RETRY ↔ finishing = false ∧ (recoverable (body_of p) ≠ None ∨ overloaded (rsp_status p) = true)) ∧
     default [] (sd_response_headers (out_data o)) = concat (rsp_batches p) ∧ sums_received (sd_sums (out_data o)) = body_of p) ∧
  (¬ length_ok r (concat (rsp_batches p)) →
     out_error o = Some AWS_ERROR_S3_INTERNAL_BUFFER_SIZE_MISMATCH_RETRYING_WITH_RANGE ∧ out_finish_code o = FINISH_FAILED).
Proof using Type*.
  intros Hb Hw He. cbv zeta. rewrite attempts_fresh. split; intros Hl.
  2: { destruct (too_long_run r combinable whole p Hb Hw) as [s Hs]; [unfold successful_response; by rewrite He|done|].
       destruct (failed_attempt r _ _ finishing slots _ _ _ Hs) as [-> ->]. done. }
  pose proof (response_run r combinable whole p Hb Hw) as Hrun.
  assert (successful_response (rsp_status p) = false) as Hst by by (unfold successful_response; rewrite He).
  assert (recorded r p = concat (rsp_batches p)) as Hrec by by (unfold recorded; rewrite Hst). unfold attempt.
  destruct (stream_run r (response_events combinable whole p) None no_send_data) as [s e0] eqn:Hs. destruct Hrun as [R1 R2].
  assert (e0 = None) as ->.
  { apply R1. rewrite Hrec. split_and!; [by intros ?; congruence|done|]. intros _. unfold used_buffer. by rewrite Hst. }
  specialize (R2 eq_refl). pose proof (complete_spec r slots s (rec_combine _ _ _ R2)) as Hc.
  destruct (s_s3_meta_request_stream_complete r slots None s) as [[[s' did] e'] sl]. destruct Hc as (C1 & C2 & C3 & C4).
  destruct (R2) as [P1 P2 P3 P4 _ _]. rewrite P1 in C2. rewrite P3 in C4.
  assert (e' = None) as ->. { apply C1. intros _ c. rewrite P4. unfold takes_checksum. by rewrite Hst. }
  unfold aws_s3_meta_request_send_request_finish_default. cbn [out_finish_code out_error out_data].
  rewrite (refused_error r s' e) by by rewrite C2. rewrite C4. split_and!; [done| |by rewrite C3, P2|done].
  destruct (status_retried _ _ He) as [Hr _]. destruct (recoverable (body_of p)) as [e'|] eqn:Hrc; simpl.
  - rewrite (recoverable_retried _ _ Hrc). simpl. destruct finishing; naive_solver.
  - rewrite Hr. destruct (overloaded (rsp_status p)), finishing; naive_solver.
Qed.
End responses.

(** * Examples *)

Module ResponseDemo.
#[local] Existing Instances byte_cursor_ref headers_ref digest_ref digest_ref_laws.

(** A document is an error if it starts with a mark; its code is the rest. *)
#[local] Instance xml_ref : AwsXml := {|
  aws_xml_parse doc :=
    match doc with
    | "!"%byte :: code => Some (XmlNode (lit "Error") None [XmlNode (lit "Code") (Some code) []], true)
    | _ => None
    end;
  aws_byte_buf_append_unescaped_xml l := Some l;
  aws_date_time_init_from_str_cursor l := true;
  aws_byte_buf_append_encoding_uri_param l := l;
|}.

(** Part 2 of a download, and a response in two lists of headers and two pieces. *)
Definition part : sent_request := mkSentRequest REQUEST_GET_OBJECT false 2 8 15 false (Some 8) true [AWS_SCA_CRC32; AWS_SCA_CRC64NVME].
Definition range_header (value : list byte) : list byte * list byte := (g_content_range_header_name, value).
Definition crc_header (a : checksum_algorithm) (body : list byte) : list byte * list byte :=
  (aws_get_http_header_name_from_checksum_algorithm a,
   match sum_of a body with
   | Some c => match snd (aws_checksum_finalize c (digest_size c)) with Success d => d | Failure _ => [] end
   | None => []
   end).
Definition answer : http_response :=
  mkHttpResponse 206 [[range_header (lit "bytes 8-15/20")]; [crc_header AWS_SCA_CRC32 (lit "abcdefgh")]] [lit "abcd"; lit "efgh"].
(** An attempt that was cut off after half of the body. *)
Definition cut_off : list stream_event * option aws_error :=
  (take 4 (response_events false None answer), Some AWS_ERROR_UNKNOWN).

Lemma no_whole : whole_ok false None.
Proof. by intros w ?. Qed.

#[local] Notation outcome r p := (attempt r (response_events false None p) None false [] (attempts r [cut_off] no_send_data)).

Lemma response_accepted_witness : acceptable part answer ∧ sums_received (sd_sums (out_data (outcome part answer))) = lit "abcdefgh".
Proof.
  destruct (response_accepted part false None answer [cut_off] false [] ltac:(intros [=]) no_whole) as [H1 H2].
  assert (out_finish_code (outcome part answer) = FINISH_SUCCESS) as Hs by (vm_compute; reflexivity).
  split; [exact (proj1 H1 Hs)|]. destruct (H2 Hs) as (_ & _ & Hb & _). exact Hb.
Defined.

Definition slow : http_response := mkHttpResponse 403 [[range_header (lit "x")]] [lit "!Slow"; lit "Down"].

Definition first_part : sent_request := mkSentRequest REQUEST_GET_OBJECT true 1 0 7 true (Some 8) false [].
Definition forbidden : http_response := mkHttpResponse 403 [[(lit "Content-Length", lit "9")]] [lit "Forbidden"].

Lemma slow_length : length_ok part (concat (rsp_batches slow)).
Proof. intros _ Hn. discriminate Hn. Qed.

Lemma response_refused_witness : out_error (outcome part slow) = Some AWS_ERROR_S3_SLOW_DOWN ∧
  out_finish_code (outcome part slow) = FINISH_RETRY ∧ out_finish_code (outcome first_part forbidden) = FINISH_FAILED.
Proof.
  destruct (response_refused first_part false None forbidden [cut_off] false [] AWS_ERROR_S3_INVALID_RESPONSE_STATUS ltac:(intros [=]) no_whole eq_refl)
    as [_ Hlong].
  destruct (response_refused part false None slow [cut_off] false [] AWS_ERROR_S3_INVALID_RESPONSE_STATUS ltac:(intros [=]) no_whole eq_refl)
    as [Hr _]. destruct (Hr slow_length) as (H1 & H2 & _).
  split; [etransitivity; [exact H1|vm_compute; reflexivity]|]. split; [apply H2; split; [reflexivity|]; left; vm_compute; done|].
  apply Hlong. intros Hl. specialize (Hl eq_refl eq_refl 9 ltac:(vm_compute; reflexivity)). vm_compute in Hl. by apply Hl.
Defined.

(** The names of headers are compared with their case: another range is not noticed when the name is in small
    letters, as names may be. *)
Definition small_letters : http_response :=
  mkHttpResponse 206 [[(lit "content-range", lit "bytes 0-7/20")]] [lit "abcdefgh"].
Lemma small_letters_accepted : out_finish_code (outcome part small_letters) = FINISH_SUCCESS ∧
  lower <$> lit "content-range" = lower <$> g_content_range_header_name ∧ ¬ range_as_asked part (lit "bytes 0-7/20").
Proof.
  split; [vm_compute; reflexivity|]. split; [vm_compute; reflexivity|]. intros Hr%check_content_range_spec. vm_compute in Hr. discriminate Hr.
Qed.

(** An error in response to the request for part number 1 is taken for an object that does not fit, if its
    body is longer than what was reserved. *)
Lemma error_taken_for_size :
  out_error (outcome first_part forbidden) = Some AWS_ERROR_S3_INTERNAL_BUFFER_SIZE_MISMATCH_RETRYING_WITH_RANGE.
Proof. vm_compute. reflexivity. Qed.

(** A request for the first byte gets any range. *)
Definition first_byte : sent_request := mkSentRequest REQUEST_GET_OBJECT false 1 0 0 false None false [].
Definition other_byte : http_response := mkHttpResponse 206 [[range_header (lit "bytes 5-5/20")]] [lit "f"].
Lemma first_byte_unchecked : out_finish_code (outcome first_byte other_byte) = FINISH_SUCCESS.
Proof. vm_compute. reflexivity. Qed.

(** Of two checksums the one with priority is taken if they come together, and the last one if they do not. *)
Definition two_sums : list (list byte * list byte) := [crc_header AWS_SCA_CRC64NVME (lit "a"); crc_header AWS_SCA_CRC32 (lit "a")].
Lemma priority_lost :
  (fst <$> part_claim part [two_sums], fst <$> part_claim part ((λ h, [h]) <$> two_sums)) = (Some AWS_SCA_CRC64NVME, Some AWS_SCA_CRC32).
Proof. vm_compute. reflexivity. Qed.
End ResponseDemo.
