(* ===== verification/Sending.v ===== *)
(** Preparing, signing and sending a request (source/s3_meta_request.c): the chain of callbacks that prepares and
    signs a request and answers the client, and the list of HTTP streams that can be cancelled. *)

From Stdlib Require Import Init.Byte String.
From S2P Require Import Prelude AwsCommon ByteCursor HttpHeaders HttpMessage Checksums Counting.

(** * The configuration of the signature *)

Inductive signing_algorithm := SIGNING_V4 | SIGNING_V4_ASYMMETRIC | SIGNING_V4_S3EXPRESS.

#[export] Instance signing_algorithm_eq_dec : EqDecision signing_algorithm.
Proof. solve_decision. Defined.

(** The fields of [struct aws_signing_config_aws] that the code uses; credentials and providers are known by
    numbers. *)
Record signing_config := mkSigningConfig {
  sc_algorithm : signing_algorithm;
  sc_credentials : option Z;
  sc_credentials_provider : option Z;
  sc_signed_body_value : list byte;
}.
#[export] Instance signing_config_eta : Eta signing_config := λ c,
  mkSigningConfig (sc_algorithm c) (sc_credentials c) (sc_credentials_provider c) (sc_signed_body_value c).

Definition g_aws_signed_body_value_unsigned_payload : list byte := lit "UNSIGNED-PAYLOAD".
Definition g_aws_signed_body_value_streaming_unsigned_payload_trailer : list byte := lit "STREAMING-UNSIGNED-PAYLOAD-TRAILER".

(** The configurations that the meta request and the client have, and the result with whether the header for a
    trailing checksum is needed.  Where neither has one, or the client's is used and there is none, the process ends. *)
Definition s_meta_request_resolve_signing_config (meta client : option signing_config) (location : checksum_location)
    (part_number : Z) : res (signing_config * bool) :=
  c ← match meta, client with
      | Some c, _ =>
          if bool_decide (sc_credentials c = None) && bool_decide (sc_credentials_provider c = None) then
            match client with
            | Some k => Ok (c <| sc_credentials := sc_credentials k |> <| sc_credentials_provider := sc_credentials_provider k |>)
            | None => FatalAssert
            end
          else Ok c
      | None, Some c => Ok c
      | None, None => FatalAssert
      end;
  let c := if bool_decide (location = AWS_SCL_TRAILER) && bool_decide (sc_signed_body_value c = g_aws_signed_body_value_unsigned_payload)
           then c <| sc_signed_body_value := g_aws_signed_body_value_streaming_unsigned_payload_trailer |> else c in
  let c := if (part_number =? 0) && bool_decide (sc_signed_body_value c = g_aws_signed_body_value_streaming_unsigned_payload_trailer)
           then c <| sc_signed_body_value := g_aws_signed_body_value_unsigned_payload |> else c in
  Ok (c, bool_decide (sc_signed_body_value c = g_aws_signed_body_value_streaming_unsigned_payload_trailer)).

(** * Preparing and signing *)

(** What is passed to a callback: the payload of the preparation or the context of the credentials. *)
Inductive user_data := UserPayload | UserContext.

(** What a preparation waits for. *)
Inductive prep_wait :=
| WaitTask
| WaitPrepared
| WaitCredentials
| WaitExpress
| WaitSigned.

#[export] Instance prep_wait_eq_dec : EqDecision prep_wait.
Proof. solve_decision. Defined.

(** What does not change: the request is always sent, it is of a copy that may not be signed for S3 Express, and the
    configurations. *)
Record prep_config := mkPrepConfig {
  pc_always_send : bool;
  pc_disable_s3_express_signing : bool;
  pc_meta_signing_config : option signing_config;
  pc_client_signing_config : option signing_config;
  pc_location : checksum_location;
  pc_part_number : Z;
}.

(** The preparation of a request.  [ps_payload] and [ps_context] tell whether they are allocated, the latter with whether
    it holds credentials; [ps_answers] are the calls of the client's callback. *)
Record prep_run := mkPrepRun {
  ps_waits : list prep_wait;
  ps_payload : bool;
  ps_context : option bool;
  ps_answers : list (option aws_error);
  ps_has_finish_result : bool;
  ps_num_times_prepared : Z;
  ps_message : http_headers;
  ps_require_header : bool;
}.
#[export] Instance prep_run_eta : Eta prep_run := λ s,
  mkPrepRun (ps_waits s) (ps_payload s) (ps_context s) (ps_answers s) (ps_has_finish_result s) (ps_num_times_prepared s)
    (ps_message s) (ps_require_header s).

(** What other code answers: the error of the wait that ends, the message that was made or signed, and the errors
    with which calls fail at once, whose callbacks are not called then. *)
Record prep_env := mkPrepEnv {
  pe_error : option aws_error;
  pe_message : http_headers;
  pe_apply_error : option aws_error;
  pe_signable_error : option aws_error;
  pe_credentials_error : option aws_error;
  pe_express_error : option aws_error;
  pe_sign_error : option aws_error;
  pe_header_error : option aws_error;
}.

Section signing.
Context `{H : !AwsHttpHeaders}.
Variable c : prep_config.

Implicit Types (s : prep_run) (env : prep_env).

Definition wait_for (w : prep_wait) s : prep_run := s <| ps_waits ::= λ l, l ++ [w] |>.

Definition s_s3_prepare_request_payload_callback_and_destroy (error : option aws_error) s : res prep_run :=
  _ ← assert_fatal (ps_payload s);
  Ok (s <| ps_num_times_prepared ::= λ n, n +[32] 1 |>
        <| ps_has_finish_result ::= λ b, b || bool_decide (error ≠ None) |>
        <| ps_answers ::= λ l, l ++ [error] |> <| ps_payload := false |>).

Definition s_aws_get_s3express_credentials_user_data_destroy s : res prep_run :=
  _ ← assert_fatal (bool_decide (ps_context s ≠ None));
  Ok (s <| ps_context := None |>).

(** [signed] is an error or the result of the signature being applied to the message, with the error of a header that
    cannot be set.  A context that is taken for a payload is not. *)
Definition s_s3_meta_request_request_on_signed (u : user_data)
    (signed : result aws_error (result aws_error (http_headers * option aws_error))) s : res prep_run :=
  _ ← assert_fatal (match u with UserPayload => true | UserContext => false end);
  match signed with
  | Failure e => s_s3_prepare_request_payload_callback_and_destroy (Some e) s
  | Success (Failure e) => s_s3_prepare_request_payload_callback_and_destroy (Some e) s
  | Success (Success (message, header_error)) =>
      if ps_require_header s then
        match header_error with
        | Some e => s_s3_prepare_request_payload_callback_and_destroy (Some e) (s <| ps_message := message |>)
        | None =>
            s_s3_prepare_request_payload_callback_and_destroy None
              (s <| ps_message := aws_http_headers_set message (lit "x-amz-content-sha256")
                      g_aws_signed_body_value_streaming_unsigned_payload_trailer |>)
        end
      else s_s3_prepare_request_payload_callback_and_destroy None (s <| ps_message := message |>)
  end.

(** [aws_sign_request_aws], whose callback is called unless it fails. *)
Definition sign env s : res prep_run :=
  match pe_sign_error env with
  | Some e => s_s3_meta_request_request_on_signed UserPayload (Failure e) s
  | None => Ok (wait_for WaitSigned s)
  end.

Definition s_get_s3express_credentials_callback env s : res prep_run :=
  s ← match pe_error env with
      | Some e => s_s3_meta_request_request_on_signed UserPayload (Failure e) s
      | None => sign env s
      end;
  s_aws_get_s3express_credentials_user_data_destroy s.

(** The error of the call that fails at once is passed with the context. *)
Definition s_get_original_credentials_callback env s : res prep_run :=
  match pe_error env with
  | Some e =>
      s ← s_s3_meta_request_request_on_signed UserPayload (Failure e) s;
      s_aws_get_s3express_credentials_user_data_destroy s
  | None =>
      _ ← assert_fatal (bool_decide (ps_context s ≠ None));
      let s := s <| ps_context := Some true |> in
      match pe_express_error env with
      | Some e =>
          s ← s_s3_meta_request_request_on_signed UserContext (Failure e) s;
          s_aws_get_s3express_credentials_user_data_destroy s
      | None => Ok (wait_for WaitExpress s)
      end
  end.

(** The credentials for S3 Express come from its provider, which needs those of the caller. *)
Definition sign_for_express (config : signing_config) env s : res prep_run :=
  let start wait error s :=
    match error with
    | Some e =>
        s ← s_s3_meta_request_request_on_signed UserPayload (Failure e) s;
        s_aws_get_s3express_credentials_user_data_destroy s
    | None => Ok (wait_for wait s)
    end in
  match sc_credentials config, sc_credentials_provider config with
  | Some _, _ => start WaitExpress (pe_express_error env) (s <| ps_context := Some true |>)
  | None, Some _ => start WaitCredentials (pe_credentials_error env) (s <| ps_context := Some false |>)
  | None, None => Ok (s <| ps_context := Some false |>)
  end.

Definition aws_s3_meta_request_sign_request_default_impl env s : res prep_run :=
  '(config, require_header) ←
    s_meta_request_resolve_signing_config (pc_meta_signing_config c) (pc_client_signing_config c) (pc_location c) (pc_part_number c);
  let s := s <| ps_require_header := require_header |> in
  match pe_signable_error env with
  | Some e => s_s3_meta_request_request_on_signed UserPayload (Failure e) s
  | None =>
      if bool_decide (sc_algorithm config = SIGNING_V4_S3EXPRESS) && negb (pc_disable_s3_express_signing c)
      then sign_for_express config env s else sign env s
  end.

Definition s_s3_meta_request_on_request_prepared env s : res prep_run :=
  match pe_error env with
  | Some e => s_s3_prepare_request_payload_callback_and_destroy (Some e) s
  | None => aws_s3_meta_request_sign_request_default_impl env (s <| ps_message := pe_message env |>)
  end.

Definition s_s3_meta_request_prepare_request_task s : res prep_run :=
  if negb (pc_always_send c) && ps_has_finish_result s
  then s_s3_prepare_request_payload_callback_and_destroy (Some AWS_ERROR_S3_CANCELED) s
  else Ok (wait_for WaitPrepared s).

(** [aws_s3_meta_request_schedule_prepare_request_default_impl] *)
Definition schedule_prepare_request (has_finish_result : bool) (num_times_prepared : Z) : prep_run :=
  mkPrepRun [WaitTask] true None [] has_finish_result num_times_prepared [] false.

(** The end of a wait. *)
Definition wait_ends (w : prep_wait) env s : res prep_run :=
  match w with
  | WaitTask => s_s3_meta_request_prepare_request_task s
  | WaitPrepared => s_s3_meta_request_on_request_prepared env s
  | WaitCredentials => s_get_original_credentials_callback env s
  | WaitExpress => s_get_s3express_credentials_callback env s
  | WaitSigned =>
      s_s3_meta_request_request_on_signed UserPayload
        (match pe_error env with
         | Some e => Failure e
         | None => Success (match pe_apply_error env with
                            | Some e => Failure e
                            | None => Success (pe_message env, pe_header_error env)
                            end)
         end) s
  end.

(** Runs; the meta request may get a result at any time. *)
Inductive prep_reachable (finishing : bool) (n : Z) : prep_run → Prop :=
| prep_start : prep_reachable finishing n (schedule_prepare_request finishing n)
| prep_end s w env s' l1 l2 : prep_reachable finishing n s → ps_waits s = l1 ++ w :: l2 →
    wait_ends w env (s <| ps_waits := l1 ++ l2 |>) = Ok s' → prep_reachable finishing n s'
| prep_result s : prep_reachable finishing n s → prep_reachable finishing n (s <| ps_has_finish_result := true |>).

(** ** Every preparation is answered once *)

(** There is a configuration, and credentials where S3 Express needs them. *)
Definition can_sign (config : signing_config) (require_header : bool) : Prop :=
  s_meta_request_resolve_signing_config (pc_meta_signing_config c) (pc_client_signing_config c) (pc_location c) (pc_part_number c) =
    Ok (config, require_header) ∧
  (sc_algorithm config = SIGNING_V4_S3EXPRESS → pc_disable_s3_express_signing c = false →
   sc_credentials config ≠ None ∨ sc_credentials_provider config ≠ None).

Definition needs_context (w : prep_wait) : bool := match w with WaitCredentials | WaitExpress => true | _ => false end.
Definition is_signing (w : prep_wait) : bool := match w with WaitTask | WaitPrepared => false | _ => true end.

(** A preparation that waits for [w]. *)
Record waiting (required : bool) (n : Z) (w : prep_wait) s : Prop := {
  wt_answers : ps_answers s = [];
  wt_payload : ps_payload s = true;
  wt_context : bool_decide (ps_context s ≠ None) = needs_context w;
  wt_prepared : ps_num_times_prepared s = n;
  wt_required : is_signing w = true → ps_require_header s = required;
}.

(** A preparation that was answered. *)
Record answered (required : bool) (n : Z) (e : option aws_error) s : Prop := {
  an_waits : ps_waits s = [];
  an_answers : ps_answers s = [e];
  an_payload : ps_payload s = false;
  an_context : ps_context s = None;
  an_prepared : ps_num_times_prepared s = n +[32] 1;
  an_result : e ≠ None → ps_has_finish_result s = true;
  an_message : e = None → required = true →
    aws_http_headers_get (ps_message s) (lit "x-amz-content-sha256") = Some g_aws_signed_body_value_streaming_unsigned_payload_trailer;
}.

Definition goes_on (required : bool) (n : Z) s : Prop :=
  (∃ w, ps_waits s = [w] ∧ waiting required n w s) ∨ ∃ e, answered required n e s.

Section once.
Context `{!AwsHttpHeadersLaws H} (config : signing_config) (required : bool) (Hcan : can_sign config required) (n : Z).

(** An error answers; what is left of the context is for the caller. *)
Lemma fails_ok e w s : waiting required n w s → ps_waits s = [] →
  ∃ s', s_s3_prepare_request_payload_callback_and_destroy (Some e) s = Ok s' ∧ ps_context s' = ps_context s ∧
    answered required n (Some e) (s' <| ps_context := None |>).
Proof using Type.
  intros [W1 W2 W3 W4 _] Hn. unfold s_s3_prepare_request_payload_callback_and_destroy. rewrite W2. simpl. eexists. split_and!; [done|done|].
  split; simpl; try done; [by rewrite W1|by rewrite W4|]. intros _. by rewrite orb_true_r.
Qed.

Lemma fails_alone e w s : waiting required n w s → ps_waits s = [] → needs_context w = false →
  ∃ s', s_s3_prepare_request_payload_callback_and_destroy (Some e) s = Ok s' ∧ goes_on required n s'.
Proof using Type.
  intros Hw Hn Hc. destruct (fails_ok e w s Hw Hn) as (s' & Hs & Hctx & Ha). exists s'. split; [done|]. right. exists (Some e).
  pose proof (wt_context _ _ _ _ Hw) as Hnone. rewrite Hc in Hnone. apply bool_decide_eq_false, dec_stable in Hnone.
  assert (s' = s' <| ps_context := None |>) as -> by (destruct s'; simpl in *; congruence). done.
Qed.

Lemma signed_fails e s : s_s3_meta_request_request_on_signed UserPayload (Failure e) s = s_s3_prepare_request_payload_callback_and_destroy (Some e) s.
Proof using Type. done. Qed.

(** An error that answers, and the context is freed. *)
Lemma fails_with_context e w s : waiting required n w s → ps_waits s = [] → ps_context s ≠ None →
  ∃ s', (s ← s_s3_meta_request_request_on_signed UserPayload (Failure e) s; s_aws_get_s3express_credentials_user_data_destroy s) = Ok s' ∧
    goes_on required n s'.
Proof using Type.
  intros Hw Hn Hc. rewrite signed_fails. destruct (fails_ok e w s Hw Hn) as (s' & -> & Hctx & Ha). cbn [mbind res_bind].
  unfold s_aws_get_s3express_credentials_user_data_destroy. rewrite bool_decide_eq_true_2 by congruence. simpl.
  eexists. split; [done|]. right. by exists (Some e).
Qed.

Lemma sign_ok env s w : waiting required n w s → ps_waits s = [] → is_signing w = true → ∃ s', sign env s = Ok s' ∧ ps_context s' = ps_context s ∧
  goes_on required n (s' <| ps_context := None |>).
Proof using Type.
  intros Hw Hn Hs. unfold sign. destruct (pe_sign_error env) as [e|].
  - rewrite signed_fails. destruct (fails_ok e w s Hw Hn) as (s' & -> & Hctx & Ha). exists s'. split_and!; [done|done|]. right. by exists (Some e).
  - destruct Hw as [W1 W2 W3 W4 W5]. eexists. split_and!; [done|done|]. left. exists WaitSigned. split; [simpl; by rewrite Hn|].
    split; simpl; try done. intros _. by apply W5.
Qed.

Lemma same_context s : ps_context s = None → s <| ps_context := None |> = s.
Proof using Type. destruct s. simpl. by intros ->. Qed.

Lemma sign_plain env s w : waiting required n w s → ps_waits s = [] → is_signing w = true → ps_context s = None →
  ∃ s', sign env s = Ok s' ∧ goes_on required n s'.
Proof using Type.
  intros Hw Hn Hs Hc. destruct (sign_ok env s w Hw Hn Hs) as (s' & Hs' & Hctx & Hg). exists s'. split; [done|].
  rewrite same_context in Hg by congruence. done.
Qed.

(** Waiting for something else, with or without a context. *)
Lemma waiting_change w w' context s : waiting required n w s → needs_context w' = bool_decide (context ≠ None) →
  (is_signing w' = true → ps_require_header s = required) → waiting required n w' (s <| ps_context := context |>).
Proof using Type. intros [W1 W2 W3 W4 W5] Hc Hr. by split. Qed.

Lemma starts_waiting w w' s : waiting required n w s → ps_waits s = [] → needs_context w' = bool_decide (ps_context s ≠ None) →
  (is_signing w' = true → ps_require_header s = required) → goes_on required n (wait_for w' s).
Proof using Type.
  intros [W1 W2 W3 W4 W5] Hn Hc Hr. left. exists w'. split; [simpl; by rewrite Hn|]. by split.
Qed.

Lemma express_ok env s : waiting required n WaitSigned s → ps_waits s = [] → sc_algorithm config = SIGNING_V4_S3EXPRESS →
  pc_disable_s3_express_signing c = false → ∃ s', sign_for_express config env s = Ok s' ∧ goes_on required n s'.
Proof using Hcan.
  intros Hw Hn Ha Hd. pose proof (wt_required _ _ _ _ Hw eq_refl) as Hr. unfold sign_for_express.
  destruct Hcan as [_ Hcred]. specialize (Hcred Ha Hd). destruct (sc_credentials config) as [k|].
  - pose proof (waiting_change WaitSigned WaitExpress (Some true) s Hw eq_refl (λ _, Hr)) as Hw'. destruct (pe_express_error env) as [e|].
    + by eapply fails_with_context.
    + eexists. split; [done|]. by eapply starts_waiting.
  - destruct (sc_credentials_provider config) as [k|]; [|by destruct Hcred].
    pose proof (waiting_change WaitSigned WaitCredentials (Some false) s Hw eq_refl (λ _, Hr)) as Hw'.
    destruct (pe_credentials_error env) as [e|].
    + by eapply fails_with_context.
    + eexists. split; [done|]. by eapply starts_waiting.
Qed.

Lemma prepared_ok env s : waiting required n WaitPrepared s → ps_waits s = [] →
  ∃ s', s_s3_meta_request_on_request_prepared env s = Ok s' ∧ goes_on required n s'.
Proof using Hcan.
  intros Hw Hn. unfold s_s3_meta_request_on_request_prepared. destruct (pe_error env) as [e|]; [by eapply fails_alone|].
  unfold aws_s3_meta_request_sign_request_default_impl. destruct (Hcan) as [-> _]. cbn [mbind res_bind].
  set (s1 := s <| ps_message := _ |> <| ps_require_header := _ |>).
  assert (waiting required n WaitSigned s1) as Hw1 by (destruct Hw as [W1 W2 W3 W4 _]; by split).
  destruct (pe_signable_error env) as [e|]; [rewrite signed_fails; by eapply fails_alone|].
  destruct (_ && _) eqn:Hx.
  - apply andb_true_iff in Hx as [Ha%bool_decide_eq_true Hd%negb_true_iff]. by apply express_ok.
  - eapply sign_plain; [done..|]. pose proof (wt_context _ _ _ _ Hw1) as Hnone. by apply bool_decide_eq_false, dec_stable in Hnone.
Qed.

Lemma signed_ok env s : waiting required n WaitSigned s → ps_waits s = [] →
  ∃ s', wait_ends WaitSigned env s = Ok s' ∧ goes_on required n s'.
Proof using Type*.
  intros Hw Hn. simpl. destruct (pe_error env) as [e|]; [rewrite signed_fails; by eapply fails_alone|].
  destruct (pe_apply_error env) as [e|]; [by eapply fails_alone|].
  assert (∀ message, waiting required n WaitSigned (s <| ps_message := message |>)) as Hm by (intros message; by destruct Hw).
  pose proof (wt_required _ _ _ _ Hw eq_refl) as Hr. destruct Hw as [W1 W2 W3 W4 _].
  unfold s_s3_meta_request_request_on_signed. cbn [mbind res_bind assert_fatal].
  apply bool_decide_eq_false, dec_stable in W3. destruct (ps_require_header s) eqn:Hreq.
  - destruct (pe_header_error env) as [e|]; [by eapply fails_alone|].
    unfold s_s3_prepare_request_payload_callback_and_destroy. simpl. rewrite W2. eexists. split; [reflexivity|]. right. exists None.
    split; simpl; try done; [by rewrite W1|by rewrite W4|]. intros _ _. apply headers_get_set_eq.
  - unfold s_s3_prepare_request_payload_callback_and_destroy. simpl. rewrite W2. eexists. split; [reflexivity|]. right. exists None.
    split; simpl; try done; [by rewrite W1|by rewrite W4|]. intros _ ?. congruence.
Qed.

(** The provider of S3 Express takes the call, where credentials came from a provider. *)
Definition express_takes (w : prep_wait) env : Prop := w = WaitCredentials → pe_error env = None → pe_express_error env = None.

Lemma wait_ends_ok w env s : waiting required n w s → ps_waits s = [] → express_takes w env →
  ∃ s', wait_ends w env s = Ok s' ∧ goes_on required n s'.
Proof using Type*.
  intros Hw Hn Hx. destruct w; [|by apply prepared_ok| | |by apply signed_ok].
  - simpl. unfold s_s3_meta_request_prepare_request_task. destruct (_ && _); [by eapply fails_alone|]. eexists. split; [done|].
    pose proof (wt_context _ _ _ _ Hw) as Hc. by eapply starts_waiting.
  - pose proof (wt_context _ _ _ _ Hw) as Hc. apply bool_decide_eq_true in Hc. pose proof (wt_required _ _ _ _ Hw eq_refl) as Hr. simpl.
    unfold s_get_original_credentials_callback. destruct (pe_error env) as [e|] eqn:He; [by eapply fails_with_context|].
    rewrite bool_decide_eq_true_2 by done. simpl. rewrite (Hx eq_refl He). eexists. split; [done|].
    eapply (starts_waiting WaitExpress); [by apply (waiting_change WaitCredentials)|done..].
  - pose proof (wt_context _ _ _ _ Hw) as Hc. apply bool_decide_eq_true in Hc. simpl.
    unfold s_get_s3express_credentials_callback. destruct (pe_error env) as [e|]; [by eapply fails_with_context|].
    destruct (sign_ok env s WaitExpress Hw Hn eq_refl) as (s' & -> & Hctx & Hg). cbn [mbind res_bind].
    unfold s_aws_get_s3express_credentials_user_data_destroy. rewrite bool_decide_eq_true_2 by congruence. by eexists.
Qed.

Lemma has_result_goes_on s : goes_on required n s → goes_on required n (s <| ps_has_finish_result := true |>).
Proof using Type.
  intros [(w & Hl & [W1 W2 W3 W4 W5])|(e & [A1 A2 A3 A4 A5 A6 A7])]; [left; exists w; split; [done|]; by split|right; exists e; by split].
Qed.

Lemma reachable_goes_on finishing s : prep_reachable finishing n s → goes_on required n s.
Proof using Type*.
  induction 1 as [|s w env s' l1 l2 _ IH Hl Hs|s _ IH]; [left; exists WaitTask; by split| |by apply has_result_goes_on].
  destruct IH as [(w' & Hl' & Hw)|(e & [A1 _ _ _ _ _ _])]; [|rewrite Hl in A1; by destruct l1].
  rewrite Hl in Hl'. destruct l1 as [|x [|]]; [|done..]. injection Hl' as -> ->. cbn [app] in Hs.
  assert (express_takes w' env) as Hx by (intros -> He; revert Hs; simpl; unfold s_get_original_credentials_callback; rewrite He;
    destruct (pe_express_error env); [|done]; by destruct (assert_fatal _)).
  destruct (wait_ends_ok w' env (s <| ps_waits := [] |>)) as (s'' & Hs'' & Hg); [by destruct Hw; split|done|done|].
  rewrite Hs in Hs''. by injection Hs'' as <-.
Qed.
End once.

(** C13: a preparation either waits for one thing or was answered, once; every way to go on works, and when it
    was answered the memory of the payload and of the credentials' context is free, the meta request has a result if the
    answer is an error, and the message has the header that a trailing checksum needs.  This needs credentials where
    S3 Express is used, and that its provider takes the request for them when the caller's come from a provider. *)
Theorem prepared_once `{!AwsHttpHeadersLaws H} config required n finishing s : can_sign config required → prep_reachable finishing n s →
  goes_on required n s ∧
  ∀ w env, w ∈ ps_waits s → express_takes w env → ∃ s', wait_ends w env (s <| ps_waits := [] |>) = Ok s' ∧ goes_on required n s'.
Proof.
  intros Hcan Hr. pose proof (reachable_goes_on config required Hcan n finishing s Hr) as Hg. split; [done|]. intros w env Hw Hx.
  destruct Hg as [(w' & Hl & Hw')|(e & [A1 _ _ _ _ _ _])]; [|rewrite A1 in Hw; by apply not_elem_of_nil in Hw].
  rewrite Hl in Hw. apply list_elem_of_singleton in Hw as ->. eapply wait_ends_ok; [done| |done|done]. by destruct Hw'; split.
Qed.

(** ** The value that is signed for the body *)

(** A body is announced as one with a trailing checksum only for a part, and always for the parts of an upload with
    trailing checksums whose payload is not signed. *)
Lemma signed_body_value meta client location part_number config required :
  s_meta_request_resolve_signing_config meta client location part_number = Ok (config, required) →
  (part_number = 0 → required = false) ∧
  (part_number ≠ 0 → location = AWS_SCL_TRAILER → sc_signed_body_value config ≠ g_aws_signed_body_value_unsigned_payload) ∧
  (required = true ↔ sc_signed_body_value config = g_aws_signed_body_value_streaming_unsigned_payload_trailer).
Proof.
  unfold s_meta_request_resolve_signing_config. intros (k & _ & Hk)%res_bind_Ok. revert Hk.
  set (k1 := if bool_decide (location = _) && _ then _ else k). set (k2 := if _ && _ then _ else k1). intros [= <- <-].
  split_and!; [| |by rewrite bool_decide_eq_true].
  - intros ->. apply bool_decide_eq_false. subst k2. simpl. destruct (bool_decide (sc_signed_body_value k1 = _)) eqn:Hb; [done|].
    by apply bool_decide_eq_false in Hb.
  - intros Hp ->. subst k2. rewrite (proj2 (Z.eqb_neq _ _) Hp). simpl. subst k1. rewrite bool_decide_eq_true_2 by done. simpl.
    destruct (bool_decide (sc_signed_body_value k = _)) eqn:Hb; [done|]. by apply bool_decide_eq_false in Hb.
Qed.
End signing.

(** * Streams that can be cancelled *)

(** A request that is sent, perhaps several times: whether it has a live HTTP stream, and the pointer by which the
    stream can be cancelled. *)
Record stream_request := mkStreamRequest {
  sr_always_send : bool;
  sr_live : bool;
  sr_cancellable_http_stream : bool;
}.
#[export] Instance stream_request_eta : Eta stream_request := λ r,
  mkStreamRequest (sr_always_send r) (sr_live r) (sr_cancellable_http_stream r).

(** The requests of a meta request, known by numbers.  [st_finished] are the calls of [send_request_finish] with
    the error of those that were not sent, and [st_cancelled] the streams that were told to end. *)
Record streams := mkStreams {
  st_requests : gmap Z stream_request;
  st_cancellable_http_streams_list : list Z;
  st_has_finish_result : bool;
  st_sent : list Z;
  st_finished : list (Z * option aws_error);
  st_cancelled : list Z;
}.
#[export] Instance streams_eta : Eta streams := λ s,
  mkStreams (st_requests s) (st_cancellable_http_streams_list s) (st_has_finish_result s) (st_sent s) (st_finished s) (st_cancelled s).

Section cancelling.
Implicit Types (s : streams) (r : stream_request).

Definition send_finish (i : Z) (e : option aws_error) s : streams := s <| st_finished ::= λ l, l ++ [(i, e)] |>.

(** [make_error] and [activate_error] are the errors with which the stream is not made or not activated. *)
Definition aws_s3_meta_request_send_request (i : Z) (make_error activate_error : option aws_error) s : res streams :=
  match st_requests s !! i with
  | None => FatalAssert
  | Some r =>
      let s := s <| st_sent ::= λ l, l ++ [i] |> in
      match make_error with
      | Some e => Ok (send_finish i (Some e) s)
      | None =>
          if negb (sr_always_send r) then
            if st_has_finish_result s then Ok (send_finish i (Some AWS_ERROR_S3_CANCELED) s)
            else match activate_error with
                 | Some e => Ok (send_finish i (Some e) s)
                 | None =>
                     Ok (s <| st_cancellable_http_streams_list ::= λ l, l ++ [i] |>
                           <| st_requests ::= <[i := r <| sr_live := true |> <| sr_cancellable_http_stream := true |>]> |>)
                 end
          else match activate_error with
               | Some e => Ok (send_finish i (Some e) s)
               | None => Ok (s <| st_requests ::= <[i := r <| sr_live := true |>]> |>)
               end
      end
  end.

(** The last part of [s_s3_meta_request_stream_complete]; a node that is removed is in the list. *)
Definition stream_leaves (i : Z) s : res streams :=
  match st_requests s !! i with
  | None => FatalAssert
  | Some r =>
      s ← if sr_cancellable_http_stream r then
            _ ← assert_fatal (bool_decide (i ∈ st_cancellable_http_streams_list s));
            Ok (s <| st_cancellable_http_streams_list ::= filter (λ j, j ≠ i) |>)
          else Ok s;
      let r := r <| sr_cancellable_http_stream := false |> <| sr_live := false |> in
      Ok (send_finish i None (s <| st_requests ::= <[i := r]> |>))
  end.

(** The loop that cancels: it ends streams that are alive, of requests that are not always sent. *)
Fixpoint cancel_streams (l : list Z) s : res streams :=
  match l with
  | [] => Ok s
  | i :: l =>
      match st_requests s !! i with
      | None => FatalAssert
      | Some r =>
          _ ← assert_fatal (negb (sr_always_send r));
          _ ← assert_fatal (sr_live r && sr_cancellable_http_stream r);
          cancel_streams l (s <| st_cancelled ::= λ k, k ++ [i] |> <| st_requests ::= <[i := r <| sr_cancellable_http_stream := false |>]> |>
                              <| st_cancellable_http_streams_list := l |>)
      end
  end.

(** A result, with or without the streams being cancelled. *)
Definition result_set s : streams := s <| st_has_finish_result := true |>.
Definition cancel_all s : res streams := cancel_streams (st_cancellable_http_streams_list s) (result_set s).

Inductive stream_op :=
| OpSend (i : Z) (make_error activate_error : option aws_error)
| OpComplete (i : Z)
| OpResult
| OpCancelAll.

Definition stream_op_run (o : stream_op) s : res streams :=
  match o with
  | OpSend i e1 e2 => aws_s3_meta_request_send_request i e1 e2 s
  | OpComplete i => stream_leaves i s
  | OpResult => Ok (result_set s)
  | OpCancelAll => cancel_all s
  end.

(** A request is sent when it has no stream, and a stream completes once. *)
Definition stream_op_enabled (o : stream_op) s : Prop :=
  match o with
  | OpSend i _ _ => ∃ r, st_requests s !! i = Some r ∧ sr_live r = false
  | OpComplete i => ∃ r, st_requests s !! i = Some r ∧ sr_live r = true
  | _ => True
  end.

Definition no_streams (always : gmap Z bool) : streams :=
  mkStreams ((λ b, mkStreamRequest b false false) <$> always) [] false [] [] [].

Inductive streams_reachable (always : gmap Z bool) : streams → Prop :=
| streams_start : streams_reachable always (no_streams always)
| streams_step s o s' : streams_reachable always s → stream_op_enabled o s → stream_op_run o s = Ok s' → streams_reachable always s'.

(** ** The list is exact *)

(** [told] are the requests whose live stream was told to end; the list has the other cancellable ones. *)
Record streams_ok s : Prop := {
  so_nodup : NoDup (st_cancellable_http_streams_list s);
  so_listed i : i ∈ st_cancellable_http_streams_list s ↔ ∃ r, st_requests s !! i = Some r ∧ sr_cancellable_http_stream r = true;
  so_live i r : st_requests s !! i = Some r → sr_cancellable_http_stream r = true → sr_live r = true ∧ sr_always_send r = false;
  so_told i r : st_requests s !! i = Some r → sr_live r = true → sr_always_send r = false →
    sr_cancellable_http_stream r = false → st_has_finish_result s = true ∧ i ∈ st_cancelled s;
}.

Lemma send_ok i e1 e2 s s' : streams_ok s → (∃ r, st_requests s !! i = Some r ∧ sr_live r = false) →
  aws_s3_meta_request_send_request i e1 e2 s = Ok s' → streams_ok s'.
Proof.
  intros [S1 S2 S3 S4] (r & Hr & Hl). unfold aws_s3_meta_request_send_request. rewrite Hr.
  assert (sr_cancellable_http_stream r = false) as Hc.
  { destruct (sr_cancellable_http_stream r) eqn:Hc; [|done]. by destruct (S3 i r Hr Hc) as [? _]; congruence. }
  destruct e1; [intros [= <-]; by split|]. destruct (sr_always_send r) eqn:Ha; cbn [negb].
  - destruct e2; [intros [= <-]; by split|]. intros [= <-]. split; cbn; [done| | |].
    + intros j. rewrite S2. destruct (decide (i = j)) as [<-|Hij].
      * rewrite lookup_insert_eq, Hr. split; intros (? & [= <-] & ?); [congruence|]. by eexists.
      * by rewrite lookup_insert_ne.
    + intros j r' [[<- <-]|[? Hj]]%lookup_insert_Some; [simpl; congruence|by apply (S3 j)].
    + intros j r' [[<- <-]|[? Hj]]%lookup_insert_Some; [simpl; congruence|by apply S4].
  - change (st_has_finish_result (s <| st_sent ::= _ |>)) with (st_has_finish_result s).
    case_eq (st_has_finish_result s); intros Hf; [intros [= <-]; by split|]. destruct e2; [intros [= <-]; by split|].
    intros [= <-]. split; cbn.
    + apply list.NoDup_app. split_and!; [done| |by apply NoDup_singleton]. intros j Hj ->%list_elem_of_singleton.
      apply S2 in Hj as (r' & Hr' & ?). congruence.
    + intros j. rewrite elem_of_app, list_elem_of_singleton, S2. destruct (decide (i = j)) as [<-|Hij].
      * rewrite lookup_insert_eq. split; [intros _; by eexists|]. intros _. by right.
      * rewrite lookup_insert_ne by done. split; [by intros [?| ->]|]. intros ?. by left.
    + intros j r' [[<- <-]|[? Hj]]%lookup_insert_Some; [done|by apply (S3 j)].
    + intros j r' [[<- <-]|[? Hj]]%lookup_insert_Some; [done|by apply S4].
Qed.

Lemma leave_ok i s : streams_ok s → (∃ r, st_requests s !! i = Some r ∧ sr_live r = true) →
  ∃ s', stream_leaves i s = Ok s' ∧ streams_ok s'.
Proof.
  intros [S1 S2 S3 S4] (r & Hr & Hl). unfold stream_leaves. rewrite Hr.
  set (r' := r <| sr_cancellable_http_stream := false |> <| sr_live := false |>).
  assert (∀ l, NoDup l → (∀ j, j ∈ l ↔ j ≠ i ∧ j ∈ st_cancellable_http_streams_list s) →
    streams_ok (send_finish i None (s <| st_cancellable_http_streams_list := l |> <| st_requests ::= <[i := r']> |>))) as Hok.
  { intros l Hn Hl'. split; cbn; [done| | |].
    - intros j. rewrite Hl', S2. destruct (decide (j = i)) as [->|Hij].
      + rewrite lookup_insert_eq. split; [by intros []|]. by intros (? & [= <-] & ?).
      + rewrite lookup_insert_ne by done. naive_solver.
    - intros j r0 [[<- <-]|[? Hj]]%lookup_insert_Some; [done|by apply (S3 j)].
    - intros j r0 [[<- <-]|[? Hj]]%lookup_insert_Some; [done|by apply S4]. }
  destruct (sr_cancellable_http_stream r) eqn:Hc.
  - assert (i ∈ st_cancellable_http_streams_list s) as Hi by (apply S2; by eexists). rewrite bool_decide_eq_true_2 by done.
    cbn [assert_fatal mbind res_bind]. eexists. split; [reflexivity|]. apply Hok; [by apply list.NoDup_filter|].
    intros j. by rewrite list_elem_of_filter.
  - cbn [mbind res_bind]. eexists. split; [reflexivity|]. specialize (Hok (st_cancellable_http_streams_list s) S1). destruct s. apply Hok.
    intros j. split; [|by intros []]. intros Hj. split; [|done]. intros ->. apply S2 in Hj as (r0 & Hr0 & ?). simpl in *. congruence.
Qed.

Lemma cancel_ok l s : st_cancellable_http_streams_list s = l → st_has_finish_result s = true → streams_ok s →
  ∃ s', cancel_streams l s = Ok s' ∧ streams_ok s' ∧ st_cancellable_http_streams_list s' = [] ∧ st_has_finish_result s' = true ∧
    st_cancelled s' = st_cancelled s ++ l ∧ st_sent s' = st_sent s ∧ st_finished s' = st_finished s ∧
    ∀ i, sr_live <$> st_requests s' !! i = sr_live <$> st_requests s !! i.
Proof.
  revert s. induction l as [|i l IH]; intros s Hl Hf Hok; [exists s; rewrite app_nil_r; by split_and!|].
  destruct (Hok) as [S1 S2 S3 S4]. rewrite Hl in S1, S2. destruct (proj1 (S2 i) ltac:(by left)) as (r & Hr & Hc).
  destruct (S3 i r Hr Hc) as [Hlv Ha]. cbn [cancel_streams]. rewrite Hr, Ha, Hlv, Hc. cbn [negb andb assert_fatal mbind res_bind].
  set (s1 := s <| st_cancelled ::= _ |> <| st_requests ::= _ |> <| st_cancellable_http_streams_list := l |>).
  apply list.NoDup_cons in S1 as [Hi S1]. assert (streams_ok s1) as Hok1.
  { split; cbn; [done| | |].
    - intros j. destruct (decide (i = j)) as [<-|Hij].
      + rewrite lookup_insert_eq. split; [done|]. by intros (? & [= <-] & ?).
      + rewrite lookup_insert_ne by done. rewrite <-S2, elem_of_cons. naive_solver.
    - intros j r0 [[<- <-]|[? Hj]]%lookup_insert_Some; [done|by apply (S3 j)].
    - intros j r0 [[<- <-]|[? Hj]]%lookup_insert_Some; intros; (split; [done|]); apply elem_of_app; [right; by left|].
      left. by eapply S4. }
  destruct (IH s1 eq_refl Hf Hok1) as (s' & Hs' & Hok' & H1 & H2 & H3 & H4 & H5 & H6). exists s'. split_and!; try done.
  - rewrite H3. cbn. by rewrite <-app_assoc.
  - intros j. rewrite H6. cbn. destruct (decide (i = j)) as [<-|Hij]; [|by rewrite lookup_insert_ne]. rewrite lookup_insert_eq, Hr. done.
Qed.

Lemma result_ok s : streams_ok s → streams_ok (result_set s).
Proof. intros [S1 S2 S3 S4]. split; [done..|]. intros i r H1 H2 H3 H4. split; [done|]. by eapply S4. Qed.

Lemma stream_op_ok o s : streams_ok s → stream_op_enabled o s → ∃ s', stream_op_run o s = Ok s' ∧ streams_ok s'.
Proof.
  intros Hok Hen. destruct o as [i e1 e2|i| |]; cbn [stream_op_run].
  - destruct Hen as (r & Hr & Hl). destruct (aws_s3_meta_request_send_request i e1 e2 s) as [s'| |] eqn:Hs.
    + exists s'. split; [done|]. eapply send_ok; [done| |done]. by exists r.
    + revert Hs. unfold aws_s3_meta_request_send_request. rewrite Hr. by repeat case_match.
    + revert Hs. unfold aws_s3_meta_request_send_request. rewrite Hr. by repeat case_match.
  - by apply leave_ok.
  - eexists. split; [done|]. by apply result_ok.
  - destruct (cancel_ok (st_cancellable_http_streams_list s) (result_set s) eq_refl eq_refl (result_ok s Hok)) as (s' & Hs & Hok' & _).
    by exists s'.
Qed.

Lemma reachable_ok always s : streams_reachable always s → streams_ok s.
Proof.
  induction 1 as [|s o s' _ IH Hen Hs].
  - split; cbn; [constructor| | |].
    + intros i. split; [by intros ?%not_elem_of_nil|]. intros (r & Hr & Hc). rewrite lookup_fmap in Hr.
      by destruct (always !! i); simplify_eq/=.
    + intros i r. rewrite lookup_fmap. intros Hr. by destruct (always !! i); simplify_eq/=.
    + intros i r. rewrite lookup_fmap. intros Hr. by destruct (always !! i); simplify_eq/=.
  - destruct (stream_op_ok o s IH Hen) as (s'' & Hs'' & Hok). rewrite Hs in Hs''. by injection Hs'' as <-.
Qed.

(** ** What is sent is finished once *)

Definition is_live s (i : Z) : bool := match st_requests s !! i with Some r => sr_live r | None => false end.
Definition times_sent s (i : Z) : Z := count (λ j, j =? i) (st_sent s).
Definition times_finished s (i : Z) : Z := count (λ p, fst p =? i) (st_finished s).
Definition balanced s : Prop := ∀ i, times_sent s i = times_finished s i + if is_live s i then 1 else 0.

(** What is sent and finished makes up for what becomes live. *)
Lemma balanced_change s s' sent finished : st_sent s' = st_sent s ++ sent → st_finished s' = st_finished s ++ finished →
  (∀ i, count (λ j, j =? i) sent + (if is_live s i then 1 else 0) =
        count (λ p, fst p =? i) finished + (if is_live s' i then 1 else 0)) → balanced s → balanced s'.
Proof.
  intros E1 E2 Hd Hb i. specialize (Hd i). specialize (Hb i). unfold times_sent, times_finished in *. rewrite E1, E2, !count_app. lia.
Qed.

Lemma live_insert s s' i r j : st_requests s' = <[i := r]> (st_requests s) → is_live s' j = if decide (i = j) then sr_live r else is_live s j.
Proof. unfold is_live. intros ->. case_decide; subst; [by rewrite lookup_insert_eq|by rewrite lookup_insert_ne]. Qed.

Lemma send_fails_balanced i e s : balanced s → balanced (send_finish i e (s <| st_sent ::= λ l, l ++ [i] |>)).
Proof. intros Hb. eapply balanced_change; [done..| |done]. intros j. by rewrite !count_cons, !count_nil. Qed.

Lemma send_balanced i r r' s s' : st_requests s !! i = Some r → sr_live r = false → sr_live r' = true →
  st_requests s' = <[i := r']> (st_requests s) → st_sent s' = st_sent s ++ [i] → st_finished s' = st_finished s → balanced s → balanced s'.
Proof.
  intros Hr Hl Hl' E1 E2 E3 Hb. apply (balanced_change s s' [i] []); [done|by rewrite app_nil_r| |done]. intros j.
  rewrite (live_insert s s' i r' j E1), count_cons, !count_nil. destruct (decide (i = j)) as [<-|Hne].
  - rewrite Hl', Z.eqb_refl. unfold is_live. by rewrite Hr, Hl.
  - by rewrite (proj2 (Z.eqb_neq i j)).
Qed.

Lemma op_balanced o s s' : streams_ok s → stream_op_enabled o s → stream_op_run o s = Ok s' → balanced s → balanced s'.
Proof.
  intros Hok Hen Hrun Hb. destruct o as [i e1 e2|i| |]; cbn [stream_op_run] in Hrun.
  - destruct Hen as (r & Hr & Hl). revert Hrun. unfold aws_s3_meta_request_send_request. rewrite Hr.
    destruct e1; [intros [= <-]; by apply send_fails_balanced|]. destruct (negb _).
    + case_match; [intros [= <-]; by apply send_fails_balanced|]. destruct e2; [intros [= <-]; by apply send_fails_balanced|].
      intros [= <-]. eapply (send_balanced i r); [done|done| |reflexivity|reflexivity|reflexivity|done]; done.
    + destruct e2; [intros [= <-]; by apply send_fails_balanced|]. intros [= <-]. eapply (send_balanced i r); [done|done| |reflexivity|reflexivity|reflexivity|done]; done.
  - destruct Hen as (r & Hr & Hl). revert Hrun. unfold stream_leaves. rewrite Hr. intros (s1 & Hs1 & [= <-])%res_bind_Ok.
    assert (st_requests s1 = st_requests s ∧ st_sent s1 = st_sent s ∧ st_finished s1 = st_finished s) as (E1 & E2 & E3).
    { revert Hs1. destruct (sr_cancellable_http_stream r); [|by intros [= <-]]. destruct (assert_fatal _); [|done..]. by intros [= <-]. }
    set (r' := r <| sr_cancellable_http_stream := false |> <| sr_live := false |>).
    set (s2 := send_finish _ _ _). assert (st_requests s2 = <[i := r']> (st_requests s)) as E4 by (cbn; by rewrite E1).
    apply (balanced_change s s2 [] [(i, None)]); [cbn; by rewrite E2, app_nil_r|cbn; by rewrite E3| |done]. intros j.
    rewrite (live_insert s s2 i r' j E4), count_cons, !count_nil.
    destruct (decide (i = j)) as [<-|Hne]; [simpl; rewrite Z.eqb_refl; unfold is_live; by rewrite Hr, Hl|].
    simpl. by rewrite (proj2 (Z.eqb_neq i j)).
  - by injection Hrun as <-.
  - destruct (cancel_ok (st_cancellable_http_streams_list s) (result_set s) eq_refl eq_refl (result_ok s Hok))
      as (s'' & Hs & _ & _ & _ & _ & E1 & E2 & E3). unfold cancel_all in Hrun. rewrite Hs in Hrun. injection Hrun as <-.
    apply (balanced_change s s'' [] []); [by rewrite app_nil_r|by rewrite app_nil_r| |done]. intros j. rewrite !count_nil.
    specialize (E3 j). unfold is_live. cbn in *. by destruct (st_requests s'' !! j), (st_requests s !! j); simplify_eq/=; rewrite ?E3.
Qed.

Lemma reachable_balanced always s : streams_reachable always s → balanced s.
Proof.
  induction 1 as [|s o s' Hr IH Hen Hs]; [|by eapply op_balanced; [eapply reachable_ok|..]].
  intros i. unfold times_sent, times_finished, is_live, no_streams. cbn [st_sent st_finished st_requests].
  rewrite !count_nil, lookup_fmap. by destruct (always !! i).
Qed.

(** Once there is a result, only requests that are always sent become live. *)
Lemma no_new_streams o s s' i r' : streams_ok s → st_has_finish_result s = true → stream_op_run o s = Ok s' →
  st_requests s' !! i = Some r' → sr_live r' = true → sr_always_send r' = false → is_live s i = true.
Proof.
  intros Hok Hf Hrun Hr' Hl Ha. assert (st_requests s' !! i = st_requests s !! i → is_live s i = true) as Hsame.
  { intros He. unfold is_live. rewrite <-He, Hr'. done. }
  destruct o as [j e1 e2|j| |]; cbn [stream_op_run] in Hrun.
  - revert Hrun. unfold aws_s3_meta_request_send_request. destruct (st_requests s !! j) as [r|] eqn:Hj; [|done].
    destruct e1; [intros [= <-]; by apply Hsame|]. destruct (sr_always_send r) eqn:Har; cbn [negb].
    + destruct e2; [intros [= <-]; by apply Hsame|]. intros [= <-]. revert Hr' Hsame. cbn.
      destruct (decide (j = i)) as [<-|Hne]; [rewrite lookup_insert_eq; intros [= <-]; simpl in Ha; congruence|].
      rewrite lookup_insert_ne by done. auto.
    + change (st_has_finish_result (s <| st_sent ::= _ |>)) with (st_has_finish_result s). rewrite Hf. intros [= <-]. by apply Hsame.
  - revert Hrun. unfold stream_leaves. destruct (st_requests s !! j) as [r|] eqn:Hj; [|done]. intros (s1 & Hs1 & [= <-])%res_bind_Ok.
    assert (st_requests s1 = st_requests s) as E1.
    { revert Hs1. destruct (sr_cancellable_http_stream r); [|by intros [= <-]]. destruct (assert_fatal _); [|done..]. by intros [= <-]. }
    revert Hr' Hsame. cbn. rewrite E1. destruct (decide (j = i)) as [<-|Hne]; [rewrite lookup_insert_eq; intros [= <-]; done|].
    rewrite lookup_insert_ne by done. auto.
  - injection Hrun as <-. by apply Hsame.
  - destruct (cancel_ok (st_cancellable_http_streams_list s) (result_set s) eq_refl eq_refl (result_ok s Hok))
      as (s'' & Hs & _ & _ & _ & _ & _ & _ & E3). unfold cancel_all in Hrun. rewrite Hs in Hrun. injection Hrun as <-.
    specialize (E3 i). rewrite Hr' in E3. unfold is_live. cbn in E3. destruct (st_requests s !! i); [|done]. simpl in E3. congruence.
Qed.

(** C14: in every order of sending, completing, failing and cancelling, no step touches a stream that is gone.
    Every request that was sent is finished once or has a live stream.  Cancelling tells each live stream that may be
    cancelled to end, and none twice; from the first result on no request starts that is not always sent. *)
Theorem streams_cancelled always s : streams_reachable always s →
  (∀ o, stream_op_enabled o s → ∃ s', stream_op_run o s = Ok s') ∧
  (∀ i, times_sent s i = times_finished s i + if is_live s i then 1 else 0) ∧
  (∃ s' l, cancel_all s = Ok s' ∧ st_cancelled s' = st_cancelled s ++ l ∧ NoDup l ∧ (∀ i, i ∈ l → is_live s i = true) ∧
     ∀ i r, st_requests s' !! i = Some r → sr_live r = true → sr_always_send r = false → i ∈ st_cancelled s') ∧
  (st_has_finish_result s = true → ∀ o s' i r, stream_op_run o s = Ok s' → st_requests s' !! i = Some r → sr_live r = true →
     sr_always_send r = false → is_live s i = true).
Proof.
  intros Hr. pose proof (reachable_ok _ _ Hr) as Hok. split_and!.
  - intros o Hen. destruct (stream_op_ok o s Hok Hen) as (s' & Hs & _). by exists s'.
  - by eapply reachable_balanced.
  - destruct (cancel_ok (st_cancellable_http_streams_list s) (result_set s) eq_refl eq_refl (result_ok s Hok))
      as (s' & Hs & [_ T2 _ T4] & E1 & _ & E2 & _). exists s', (st_cancellable_http_streams_list s).
    split_and!; [done|done|apply Hok| |].
    + intros i Hi. apply Hok in Hi as (r & Hi & Hc). unfold is_live. rewrite Hi. by apply (so_live _ Hok i).
    + intros i r Hi Hl Ha. eapply T4; [done..|]. destruct (sr_cancellable_http_stream r) eqn:Hc; [|done].
      rewrite E1 in T2. by assert (i ∈ []) as ?%not_elem_of_nil by (apply T2; by eexists).
  - intros Hf o s' i r Hs. by eapply no_new_streams.
Qed.
End cancelling.

(** * Examples *)

Module SendingDemo.
#[local] Existing Instances headers_ref headers_ref_laws.

(** A part with a trailing checksum that is signed for S3 Express, with credentials from a provider. *)
Definition provider_config : signing_config := mkSigningConfig SIGNING_V4_S3EXPRESS None (Some 1) g_aws_signed_body_value_unsigned_payload.
Definition config (client : signing_config) : prep_config := mkPrepConfig false false None (Some client) AWS_SCL_TRAILER 1.
Definition signed_config : signing_config :=
  provider_config <| sc_signed_body_value := g_aws_signed_body_value_streaming_unsigned_payload_trailer |>.

Definition fine : prep_env := mkPrepEnv None [(lit "Host", lit "h")] None None None None None None.

Lemma can_sign_provider : can_sign (config provider_config) signed_config true.
Proof. split; [vm_compute; reflexivity|]. intros _ _. by right. Qed.

(** The first wait ends, again and again. *)
Fixpoint go (c : prep_config) (envs : list prep_env) (s : prep_run) : option prep_run :=
  match envs with
  | [] => Some s
  | env :: envs =>
      match ps_waits s with
      | [] => None
      | w :: l => match wait_ends c w env (s <| ps_waits := l |>) with Ok s => go c envs s | _ => None end
      end
  end.

Lemma prep_go_reachable c envs s s' finishing n : prep_reachable c finishing n s → go c envs s = Some s' → prep_reachable c finishing n s'.
Proof.
  revert s. induction envs as [|env envs IH]; intros s Hr; cbn [go]; [by intros [= <-]|]. destruct (ps_waits s) as [|w l] eqn:Hl; [done|].
  destruct (wait_ends c w env (s <| ps_waits := l |>)) as [s1| |] eqn:Hs; [|done..]. apply IH. by apply (prep_end c finishing n s w env s1 [] l).
Qed.

Definition start : prep_run := schedule_prepare_request false 0.
Definition signed : prep_run := default start (go (config provider_config) [fine; fine; fine; fine; fine] start).

Lemma signed_reachable : prep_reachable (config provider_config) false 0 signed.
Proof. apply (prep_go_reachable _ [fine; fine; fine; fine; fine] start); [apply prep_start|vm_compute; reflexivity]. Qed.

Lemma prepared_once_witness : goes_on true 0 signed ∧ ps_answers signed = [None].
Proof.
  destruct (prepared_once (config provider_config) signed_config true 0 false signed can_sign_provider signed_reachable) as [Hg _].
  split; [exact Hg|vm_compute; reflexivity].
Defined.

(** When the provider of S3 Express refuses the call, the callback gets the context in place of the payload. *)
Definition refuses : prep_env := mkPrepEnv None [] None None None (Some AWS_ERROR_INVALID_ARGUMENT) None None.
Lemma context_taken_for_payload s : ps_context s ≠ None → s_get_original_credentials_callback refuses s = FatalAssert.
Proof. intros Hc. unfold s_get_original_credentials_callback. simpl. by rewrite bool_decide_eq_true_2. Qed.

(** Without credentials a request for S3 Express is never answered. *)
Definition no_credentials : signing_config := mkSigningConfig SIGNING_V4_S3EXPRESS None None g_aws_signed_body_value_unsigned_payload.
Lemma express_stalls : (λ s, (ps_waits s, ps_answers s, ps_context s)) <$> go (config no_credentials) [fine; fine] start =
  Some ([], [], Some false).
Proof. vm_compute. reflexivity. Qed.

(** Two requests are sent, one completes, and the meta request is cancelled. *)
Definition always : gmap Z bool := {[1 := false; 2 := false; 3 := true]}.
Fixpoint run_ops (ops : list stream_op) (s : streams) : option streams :=
  match ops with
  | [] => Some s
  | o :: ops => match stream_op_run o s with Ok s => run_ops ops s | _ => None end
  end.
Definition sent : streams := default (no_streams always) (run_ops [OpSend 1 None None; OpSend 3 None None; OpSend 2 None None; OpComplete 1] (no_streams always)).

Lemma sent_step_reachable s o : streams_reachable always s → stream_op_enabled o s → streams_reachable always (default s (run_ops [o] s)).
Proof. intros Hr Hen. destruct (stream_op_ok o s (reachable_ok _ _ Hr) Hen) as (s' & Hs & _). simpl. rewrite Hs. simpl. by eapply streams_step. Qed.

Lemma sent_reachable : streams_reachable always sent.
Proof.
  pose (s1 := default (no_streams always) (run_ops [OpSend 1 None None] (no_streams always))).
  pose (s2 := default s1 (run_ops [OpSend 3 None None] s1)). pose (s3 := default s2 (run_ops [OpSend 2 None None] s2)).
  assert (streams_reachable always s3) as Hr.
  { do 3 (apply sent_step_reachable; [|eexists; split; vm_compute; reflexivity]). apply streams_start. }
  assert (sent = default s3 (run_ops [OpComplete 1] s3)) as -> by (vm_compute; reflexivity).
  apply sent_step_reachable; [exact Hr|]. eexists. split; vm_compute; reflexivity.
Qed.

Lemma streams_cancelled_witness : times_sent sent 1 = times_finished sent 1 ∧ ∃ s', cancel_all sent = Ok s' ∧ st_cancelled s' = [2].
Proof.
  destruct (streams_cancelled always sent sent_reachable) as (_ & Hb & (s' & l & Hs & Hl & _) & _). split; [exact (Hb 1)|].
  eexists. split; vm_compute; reflexivity.
Defined.
End SendingDemo.
